(* ===== verification/_CoqProject ===== *)
-Q . S2P
Prelude.v
Float64.v
GoText.v
Utf8.v
Literal.v
Value.v
Ops.v
Machine.v
Arith.v
Compare.v
Slots.v
DictStore.v
DictKey.v
RuneInfo.v
RangeIter.v
Slice.v
ByteIO.v
Metadata.v
Codec.v
Pool.v
Environment.v
Binding.v
Token.v
Lexer.v
Scanning.v
Dispatch.v
Compile.v
Meaning.v
Runs.v
Compiled.v
Ast.v
Parsing.v
TypeParser.v
ExprParser.v
StmtParser.v
Cursor.v
TypeGrammar.v
Grammar.v
Parsed.v
Program.v
Evaluator.v
Source.v
Parity.v
Corners.v
