(* ===== verification/Prelude.v ===== *)
(** * Geblang: a verification development of the language runtime

    Geblang is a scripting language implemented in Go.  A program goes through
    the lexer and parser (src/internal/lexer, parser, token, ast), the semantic
    analyser (semantic), and then either the bytecode compiler and its virtual
    machine (bytecode, bcloader) or the tree-walking evaluator (evaluator);
    both run on the same values (runtime) and the same native library (native).
    This development models the parts of that pipeline that carry its core
    logic, as executable definitions translated from the Go source, and proves
    what makes them correct.

    ** Conventions

    An [int64] or [int] is a [Z] kept in range by [wrap64] wherever the code can
    overflow; a [big.Int] is a [Z], a [big.Rat] a reduced [Q], a [float64] the
    standard library's [spec_float] at binary64; a string or byte slice is a
    list of bytes ([gostring]).  A Go function that returns an error is a
    function into [result]; one that reads and writes a structure passes it on
    explicitly, in a state monad where many calls do ([vmM] in Machine.v, the
    byte reader in ByteIO.v).  A Go run-time panic is an explicit outcome.  Code
    outside src/ (and code of components that are not modelled) is a parameter,
    with its documented behaviour as a hypothesis where a theorem needs it.

    ** Files

    Foundations: Float64.v (binary64, bit patterns and conversions), GoText.v
    (Go's string order and integer formatting), Utf8.v (decoding and encoding of
    runes as in unicode/utf8), Literal.v (ast.ParseIntLiteral,
    ParseDecimalLiteral).

    Values and the machine: Value.v (runtime/value.go, vmvalue.go, numeric.go),
    Ops.v (the instruction set of bytecode/bytecode.go), Machine.v (operand
    stack, locals with captured cells, globals with dirty tracking: vm.go,
    vm_lifecycle.go), Arith.v (arithmetic opcodes), Compare.v (ordering and
    equality: native/math.go, runtime/equality.go), Slots.v (superinstructions
    on variable slots, write-back of worker globals), RangeIter.v and Slice.v
    (ranges, iterators, indexing, slicing), Dispatch.v (the dispatch loop over
    these opcodes).

    The compiler: Compile.v (scalar expressions of
    bytecode/compiler_expressions.go with constant folding, specialised opcodes,
    fused branches and jump patching), Meaning.v (a reference semantics of the
    same expressions: [eval] leaves out what the code is known to get wrong,
    [trapped] says where that is, [value_of] leaves nothing out), Runs.v (what each opcode leaves, runs of the loop),
    Compiled.v (the compiler's correctness).

    The bytecode file: ByteIO.v (a reader returns, panics or, in the definition
    only, exhausts its recursion depth), Metadata.v (constants and metadata, and
    what of them a file keeps), Codec.v (Encode and Decode).

    The front end: Token.v, Lexer.v, Scanning.v (token.go, lexer.go and the
    collection of tokens that starts a parse); Ast.v (the syntax tree of
    ast/ast.go and the text of types); Parsing.v (the parser of
    parser/parser.go: its cursor, error list and look-ahead, as a state monad
    whose outcomes are a result, a Go panic or missing fuel), TypeParser.v (type
    expressions), ExprParser.v (the precedence climbing of expressions, calls,
    literals, comprehensions, patterns, interpolated strings) and StmtParser.v
    (statements, declarations, classes, the program), whose last definitions
    tie the mutual recursion of expressions and statements.  Their proofs:
    Cursor.v (what an action reads of the tokens), TypeGrammar.v and Grammar.v
    (grammars of types and expressions as inductive relations, with the
    documented table of operator levels), Parsed.v (the parser recognises them),
    Program.v (a grammar of statements and programs, recognised as well),
    Source.v (the text of a scalar expression through lexer, parser, compiler
    and machine), Corners.v (texts the parser reads in an unintended way).

    The second back end: Evaluator.v (the expressions of the tree-walking
    evaluator, evaluator/evaluator.go and eval_expr.go: literals, variables,
    collections, ranges, operators, equality, keys, membership), Parity.v (it
    agrees with the compiled code on the machine).

    Runtime structures: DictStore.v, DictKey.v (ordered dictionaries and their
    keys), RuneInfo.v (rune mapping and its cache), Environment.v (lexical
    scopes of the evaluator), Binding.v (argument binding), Pool.v (the
    concurrency pool).

    ** What the theorems show

    - The compiler and the machine compose: the code of an expression, run on
      the machine, leaves the value the reference semantics gives it, or raises
      its error, within one turn per instruction (Compiled.v); composed with the
      lexer and the parser, from the bytes of the text (Source.v).  The
      exceptions are hypotheses: [source_ok] leaves out literals that constant
      folding reads as octal, [trapped] the small product that wraps and the
      fused remainder branch that rejects big integers, [plain_lt] a text that
      the parser takes for a call with type arguments.
    - The back ends agree: the evaluator computes on the parser's tree what the
      compiled code computes, for every nesting of scalar expressions, or both
      fail, where [gap] finds no operator that one of them lacks; their equality
      is one relation, and they key a value by the same string unless the key is
      an address ([addressed]) (Parity.v).
    - The parser implements the grammar: every text that the grammars of types
      and expressions give to a tree, with the levels and the grouping of the
      operators, parses to that tree, without an error and up to the token that
      follows it (TypeGrammar.v, Parsed.v), and a program of declarations,
      functions, conditionals, loops and jumps to its statements
      (Program.v).
    - Operations are exact: integer, decimal and mixed arithmetic, comparison,
      bit operations, increments and self-updates compute the mathematical
      result across representations, and optimised paths agree with generic ones
      (Arith.v, Compare.v, Slots.v).
    - Data structures refine simple ones: the adaptive dictionary an ordered
      association list, the scopes nested finite maps, the cached rune mapping
      the plain one (DictStore.v, Environment.v, RuneInfo.v).
    - Encodings round-trip: a chunk through the bytecode file, up to the source
      positions and other fields that the format drops ([kept_chunk]), tokens through
      their text (Codec.v, Scanning.v).
    - Loops end: the scanner covers any source, metadata and range loops use
      bounded fuel, and a decoder never exhausts its own on any file (Scanning.v,
      Metadata.v, Codec.v, RangeIter.v).
    - Invariants of shared state hold under every interleaving: the pool never
      exceeds its slots and never deadlocks (Pool.v).
    - Where the code departs from its intent, a theorem exhibits it; the
      manifest lists these.

    ** Bounds and fuel

    [decimalPow_loop] runs 64 rounds (an exponent has at most 63 bits);
    [double_until] 64 doublings (a length has 63 bits); [execRange_fuel] is the
    distance between the bounds plus two; the slice loop gets twice the length
    plus three; metadata gets the file's length; a walk through scopes gets the
    address of the scope plus one (outer scopes are older); the scanner's loops
    are bounded by the unread characters and the token loop by the length of the
    source plus two; [dispatchLoop] runs compiled expressions with one turn per
    instruction plus one; the
    parser gets twice the length of an expression or a program (a >> counts as two closing
    brackets).  Theorems state that these are enough.

    ** Not modelled

    Of the modelled components: operator and comparison methods of user classes
    and operators of native numeric classes (parameters); NaN payloads; stack
    traces; memory limits; callbacks that change a dictionary during iteration;
    generators and user-defined iterators (parameters); assignment to list
    elements, which needs a heap of shared lists; the lock that a scope walk
    releases between two scopes; the order in which Go wakes blocked
    goroutines.  Of the evaluator, calls,
    selectors, indexing, casts, comprehensions, match, interpolation and
    statements are left out: calls need frames, classes and generators, and the
    rest formats values with native code that is not modelled; an expression
    form outside the model has no value ([None]).  The remaining components
    (listed in the manifest) are input and output, platform services, tooling
    around the language, and code whose state is the whole class system of a
    running program: statements and calls of the compiler, call frames and
    exception handlers of the machine, the semantic analyser. *)

From Stdlib Require Export ZArith Lia Bool Strings.Byte.
From stdpp Require Export base decidable list gmap countable numbers tactics strings.

#[global] Open Scope Z_scope.
#[global] Unset Program Cases.

(** Linear arithmetic with divisions and remainders by constants. *)
Ltac dlia := Z.to_euclidean_division_equations; lia.

(** Case analysis on membership in an explicit list. *)
Ltac destruct_members H :=
  repeat (apply elem_of_cons in H; destruct H as [->|H]);
  try (by apply elem_of_nil in H).

(** ** Results

    A Go function that returns [(T, error)] is a function into [result E T];
    the error type of each component lists the errors its code builds. *)

Inductive result (E A : Type) : Type :=
| Ok (a : A)
| Err (e : E).
Arguments Ok {E A} a.
Arguments Err {E A} e.

Definition res_bind {E A B : Type} (m : result E A) (k : A -> result E B) : result E B :=
  match m with
  | Ok a => k a
  | Err e => Err e
  end.

Declare Scope go_scope.
Delimit Scope go_scope with go.
#[global] Open Scope go_scope.

Notation "'let*' x ':=' e 'in' k" := (res_bind e (fun x => k))
  (at level 10, x pattern, e at level 100, k at level 200) : go_scope.

Definition is_ok {E A : Type} (m : result E A) : bool :=
  match m with Ok _ => true | Err _ => false end.

Lemma res_bind_ok {E A B : Type} (m : result E A) (k : A -> result E B) (b : B) :
  res_bind m k = Ok b <-> exists a, m = Ok a /\ k a = Ok b.
Proof. destruct m; simpl; split; [eauto|by intros (?&[= ->]&?)|done|by intros (?&[=]&?)]. Qed.

Lemma res_bind_err {E A B : Type} (m : result E A) (k : A -> result E B) (e : E) :
  res_bind m k = Err e <-> m = Err e \/ exists a, m = Ok a /\ k a = Err e.
Proof.
  destruct m; simpl; split.
  - eauto.
  - by intros [[=]|(?&[= ->]&?)].
  - intros [= ->]. eauto.
  - by intros [[= ->]|(?&[=]&?)].
Qed.

#[global] Instance result_eq_dec {E A : Type} `{EqDecision E, EqDecision A} :
  EqDecision (result E A).
Proof. solve_decision. Defined.

(** ** Go strings and byte slices

    A Go string is a sequence of bytes; so is a [[]byte].  Both are
    [gostring]. *)

Abbreviation byte := Init.Byte.byte.
Abbreviation gostring := (list byte).

#[global] Instance byte_eq_dec : EqDecision byte := Byte.byte_eq_dec.
#[global] Instance byte_countable : Countable byte.
Proof.
  refine (inj_countable Byte.to_N Byte.of_N _).
  intros b. apply Byte.of_to_N.
Defined.

(** The bytes of a literal of the source text. *)
Definition bs (s : String.string) : gostring := String.list_byte_of_string s.
Arguments bs s%_string.

(** A byte as its unsigned value, and the conversion [byte(z)] that keeps the
    low eight bits. *)
Definition byte_val (b : byte) : Z := Z.of_N (Byte.to_N b).
Definition byte_of (z : Z) : byte :=
  match Byte.of_N (Z.to_N (z mod 256)) with Some b => b | None => Byte.x00 end.

Lemma byte_val_range (b : byte) : 0 <= byte_val b < 256.
Proof. unfold byte_val. pose proof (Byte.to_N_bounded b). lia. Qed.

Lemma byte_val_of (z : Z) : byte_val (byte_of z) = z mod 256.
Proof.
  unfold byte_val, byte_of.
  pose proof (Z.mod_pos_bound z 256 ltac:(lia)) as Hb.
  destruct (Byte.of_N (Z.to_N (z mod 256))) as [b|] eqn:E.
  - apply Byte.to_of_N in E. rewrite E. lia.
  - apply Byte.of_N_None_iff in E. lia.
Qed.

Lemma byte_of_val (b : byte) : byte_of (byte_val b) = b.
Proof.
  unfold byte_of. rewrite Z.mod_small by apply byte_val_range.
  unfold byte_val. rewrite N2Z.id, Byte.of_to_N. reflexivity.
Qed.

Lemma byte_val_inj (a b : byte) : byte_val a = byte_val b -> a = b.
Proof. intros H. rewrite <- (byte_of_val a), <- (byte_of_val b). by rewrite H. Qed.

(** [len(s)] as a Go [int]. *)
Definition zlen {A : Type} (l : list A) : Z := Z.of_nat (length l).

Lemma zlen_nonneg {A : Type} (l : list A) : 0 <= zlen l.
Proof. unfold zlen. lia. Qed.

Lemma zlen_app {A : Type} (l k : list A) : zlen (l ++ k) = zlen l + zlen k.
Proof. unfold zlen. rewrite length_app. lia. Qed.

Lemma zlen_cons {A : Type} (a : A) (l : list A) : zlen (a :: l) = 1 + zlen l.
Proof. unfold zlen. simpl. lia. Qed.

Lemma zlen_nil {A : Type} : zlen (@nil A) = 0.
Proof. reflexivity. Qed.

Lemma zlen_map {A B : Type} (f : A -> B) (l : list A) : zlen (map f l) = zlen l.
Proof. unfold zlen. by rewrite length_map. Qed.

(** ** Machine integers

    Go's sized integers are two's complement and wrap silently: a value of
    type [int64] is a [Z] between [min_int64] and [max_int64], and [wrap64]
    brings the mathematical result of an operation back to that range.  On
    the supported targets [int] is 64 bits wide. *)

Definition min_int64 : Z := - 2 ^ 63.
Definition max_int64 : Z := 2 ^ 63 - 1.
Definition is_int64 (z : Z) : bool := (min_int64 <=? z) && (z <=? max_int64).
Definition wrap64 (z : Z) : Z := (z + 2 ^ 63) mod 2 ^ 64 - 2 ^ 63.
Definition to_uint (w : Z) (z : Z) : Z := z mod 2 ^ w.
Definition int64_of_uint64 (u : Z) : Z := wrap64 u.
Definition uint64_of_int64 (z : Z) : Z := to_uint 64 z.

Ltac unfold_int64 := unfold is_int64, min_int64, max_int64, wrap64 in *.

Lemma is_int64_iff (z : Z) : is_int64 z = true <-> - 2 ^ 63 <= z < 2 ^ 63.
Proof. unfold_int64. lia. Qed.

Lemma wrap64_range (z : Z) : is_int64 (wrap64 z) = true.
Proof.
  apply is_int64_iff. unfold wrap64.
  pose proof (Z.mod_pos_bound (z + 2 ^ 63) (2 ^ 64) ltac:(lia)). lia.
Qed.

Lemma wrap64_id (z : Z) : is_int64 z = true -> wrap64 z = z.
Proof.
  rewrite is_int64_iff. unfold wrap64. intros H.
  rewrite Z.mod_small by lia. lia.
Qed.

Lemma wrap64_mod (z : Z) : wrap64 (z mod 2 ^ 64) = wrap64 z.
Proof. unfold wrap64. by rewrite Zplus_mod_idemp_l. Qed.

(** A result that lies within one turn of the range wraps exactly once. *)
Lemma wrap64_over (z : Z) : 2 ^ 63 <= z < 2 ^ 63 + 2 ^ 64 -> wrap64 z = z - 2 ^ 64.
Proof.
  intros H. unfold wrap64.
  rewrite <- (Z.mod_unique (z + 2 ^ 63) (2 ^ 64) 1 (z - 2 ^ 63)); lia.
Qed.

Lemma wrap64_under (z : Z) : - 2 ^ 63 - 2 ^ 64 <= z < - 2 ^ 63 -> wrap64 z = z + 2 ^ 64.
Proof.
  intros H. unfold wrap64.
  rewrite <- (Z.mod_unique (z + 2 ^ 63) (2 ^ 64) (-1) (z + 2 ^ 63 + 2 ^ 64)); lia.
Qed.

Lemma int64_uint64 (z : Z) : is_int64 z = true -> int64_of_uint64 (uint64_of_int64 z) = z.
Proof.
  intros H. unfold int64_of_uint64, uint64_of_int64, to_uint.
  rewrite wrap64_mod. by apply wrap64_id.
Qed.

(** [(a ^ b) & (c ^ d) < 0]: both pairs differ in sign. *)
Lemma land_lxor_neg (a b c d : Z) :
  Z.land (Z.lxor a b) (Z.lxor c d) < 0 <-> (a < 0 <-> 0 <= b) /\ (c < 0 <-> 0 <= d).
Proof.
  rewrite Z.land_neg.
  pose proof (Z.lxor_nonneg a b). pose proof (Z.lxor_nonneg c d). lia.
Qed.

(** Go's integer division truncates towards zero, and the quotient is stored
    back in an [int64] (so [min_int64 / -1] wraps to [min_int64]). *)
Definition go_div64 (a b : Z) : Z := wrap64 (Z.quot a b).
Definition go_rem64 (a b : Z) : Z := wrap64 (Z.rem a b).

(** ** Big-endian fields *)

(** [binary.BigEndian.AppendUint16/32/64] with [n] = 2, 4, 8. *)
Fixpoint be_bytes (n : nat) (z : Z) : list byte :=
  match n with
  | O => []
  | S m => byte_of (Z.shiftr z (8 * Z.of_nat m)) :: be_bytes m z
  end.

(** [binary.BigEndian.Uint16/32/64]. *)
Definition be_value (l : list byte) : Z :=
  fold_left (fun acc b => acc * 256 + byte_val b) l 0.

Lemma be_bytes_length (n : nat) (z : Z) : length (be_bytes n z) = n.
Proof. induction n; simpl; congruence. Qed.

Lemma be_fold (l : list byte) (acc : Z) :
  fold_left (fun acc b => acc * 256 + byte_val b) l acc
  = acc * 2 ^ (8 * zlen l) + be_value l.
Proof.
  unfold be_value. revert acc. induction l as [|b l IH]; intros acc.
  - cbn [fold_left]. change (zlen (@nil byte)) with 0. change (2 ^ (8 * 0)) with 1. lia.
  - cbn [fold_left]. rewrite IH, (IH (0 * 256 + byte_val b)), zlen_cons.
    replace (8 * (1 + zlen l)) with (8 + 8 * zlen l) by lia.
    rewrite Z.pow_add_r by (pose proof (zlen_nonneg l); lia). lia.
Qed.

Lemma be_value_cons (b : byte) (l : list byte) :
  be_value (b :: l) = byte_val b * 2 ^ (8 * zlen l) + be_value l.
Proof. unfold be_value at 1. cbn [fold_left]. rewrite be_fold. lia. Qed.

Lemma be_value_bytes (n : nat) (z : Z) : be_value (be_bytes n z) = z mod 2 ^ (8 * Z.of_nat n).
Proof.
  induction n as [|n IH].
  - simpl. by rewrite Z.mod_1_r.
  - cbn [be_bytes]. rewrite be_value_cons, IH, byte_val_of.
    unfold zlen. rewrite be_bytes_length.
    rewrite Z.shiftr_div_pow2 by lia.
    replace (8 * Z.of_nat (S n)) with (8 * Z.of_nat n + 8) by lia.
    rewrite Z.pow_add_r by lia.
    rewrite Z.rem_mul_r by (try apply Z.pow_nonzero; lia).
    change (2 ^ 8) with 256. lia.
Qed.

Lemma be_value_range (l : list byte) : 0 <= be_value l < 2 ^ (8 * zlen l).
Proof.
  induction l as [|b l IH].
  - change (zlen (@nil byte)) with 0. unfold be_value. simpl. lia.
  - rewrite be_value_cons, zlen_cons.
    replace (8 * (1 + zlen l)) with (8 + 8 * zlen l) by lia.
    rewrite Z.pow_add_r by (pose proof (zlen_nonneg l); lia).
    pose proof (byte_val_range b). nia.
Qed.

#[global] Opaque be_value.
