(* ===== verification/Float64.v ===== *)
(** * Float64: Go's [float64]

    A Go [float64] is an IEEE 754 binary64 number: [float64] below, the
    Standard Library's [spec_float] at precision 53 and maximal exponent
    1024.  All NaNs are one value: nothing the development states depends on a
    NaN's payload.  The file holds the arithmetic operators of the language,
    [math.Float64bits] and its inverse, the conversions between integers,
    rationals and floats, and the facts about them that the components use. *)

From Stdlib Require Import QArith Floats.SpecFloat.
From S2P Require Import Prelude.
#[local] Open Scope Z_scope.

Definition float64 := spec_float.

#[global] Instance float64_eq_dec : EqDecision spec_float.
Proof. solve_decision. Defined.

(** ** Operators *)

Definition f64_add : float64 -> float64 -> float64 := SFadd 53 1024.
Definition f64_sub : float64 -> float64 -> float64 := SFsub 53 1024.
Definition f64_mul : float64 -> float64 -> float64 := SFmul 53 1024.
Definition f64_div : float64 -> float64 -> float64 := SFdiv 53 1024.
Definition f64_neg : float64 -> float64 := SFopp.
Definition f64_eqb : float64 -> float64 -> bool := SFeqb.
Definition f64_ltb : float64 -> float64 -> bool := SFltb.
Definition f64_is_nan (f : float64) : bool := match f with S754_nan => true | _ => false end.
Definition f64_is_inf (f : float64) : bool :=
  match f with S754_infinity _ => true | _ => false end.

Definition f64_zero : float64 := S754_zero false.
Definition f64_wf (f : float64) : bool := valid_binary 53 1024 f.

(** [float64(z)] for an integer: one rounding to nearest, ties to even. *)
Definition f64_of_Z (z : Z) : float64 := binary_normalize 53 1024 z 0 false.

(** [Rat.Float64]: the quotient, rounded once. *)
Definition f64_of_Q (q : Q) : float64 :=
  match Qnum q with
  | Z0 => S754_zero false
  | Zpos p => SFdiv 53 1024 (S754_finite false p 0) (S754_finite false (Qden q) 0)
  | Zneg p => SFdiv 53 1024 (S754_finite true p 0) (S754_finite false (Qden q) 0)
  end.

(** [math.Floor]. *)
Definition f64_floor (f : float64) : float64 :=
  match f with
  | S754_finite s m e =>
      if 0 <=? e then f
      else binary_normalize 53 1024 (Z.shiftr (cond_Zopp s (Zpos m)) (- e)) 0 s
  | _ => f
  end.

(** [Rat.SetFloat64]: the exact dyadic value of a finite float. *)
Definition f64_to_Q (f : float64) : option Q :=
  match f with
  | S754_zero _ => Some 0%Q
  | S754_finite s m e =>
      if 0 <=? e
      then Some (cond_Zopp s (Zpos m) * 2 ^ e # 1)
      else Some (Qred (cond_Zopp s (Zpos m) # Z.to_pos (2 ^ (- e))))
  | _ => None
  end.

(** ** [math.Float64bits] and [math.Float64frombits] *)

Definition nan_bits : Z := 0x7FF8000000000001.

Definition Float64bits (f : float64) : Z :=
  match f with
  | S754_zero s => (if s then 2 ^ 63 else 0)
  | S754_infinity s => (if s then 2 ^ 63 else 0) + 2047 * 2 ^ 52
  | S754_nan => nan_bits
  | S754_finite s m e =>
      (if s then 2 ^ 63 else 0)
      + (if Zpos m <? 2 ^ 52 then Zpos m else (e + 1075) * 2 ^ 52 + (Zpos m - 2 ^ 52))
  end.

Definition Float64frombits (u : Z) : float64 :=
  let s := 2 ^ 63 <=? u in
  let e := (u / 2 ^ 52) mod 2048 in
  let m := u mod 2 ^ 52 in
  if e =? 2047 then (if m =? 0 then S754_infinity s else S754_nan)
  else if e =? 0 then match m with Zpos p => S754_finite s p (-1074) | _ => S754_zero s end
  else match m + 2 ^ 52 with Zpos p => S754_finite s p (e - 1075) | _ => S754_nan end.

Lemma digits2_pos_bound (p : positive) :
  2 ^ (Zpos (digits2_pos p) - 1) <= Zpos p < 2 ^ Zpos (digits2_pos p).
Proof.
  induction p as [p IH|p IH|]; simpl digits2_pos.
  - rewrite Pos2Z.inj_succ. replace (Z.succ (Z.pos (digits2_pos p)) - 1)
      with (1 + (Z.pos (digits2_pos p) - 1)) by lia.
    rewrite Z.pow_add_r, Z.pow_succ_r by lia. lia.
  - rewrite Pos2Z.inj_succ. replace (Z.succ (Z.pos (digits2_pos p)) - 1)
      with (1 + (Z.pos (digits2_pos p) - 1)) by lia.
    rewrite Z.pow_add_r, Z.pow_succ_r by lia. lia.
  - lia.
Qed.

(** A finite binary64 is normal (53 significant bits) or subnormal (least
    exponent). *)
Lemma f64_wf_finite (s : bool) (m : positive) (e : Z) :
  f64_wf (S754_finite s m e) = true ->
  (2 ^ 52 <= Zpos m < 2 ^ 53 /\ -1074 <= e <= 971) \/ (Zpos m < 2 ^ 52 /\ e = -1074).
Proof.
  unfold f64_wf, valid_binary, bounded, canonical_mantissa, fexp, emin.
  rewrite andb_true_iff, Z.eqb_eq, Z.leb_le. intros [Hc He].
  pose proof (digits2_pos_bound m) as [Hlo Hhi].
  set (d := Z.pos (digits2_pos m)) in *.
  assert (d <= 53) by lia.
  destruct (Z.eq_dec d 53) as [Hd|Hd].
  - left. rewrite Hd in *. change (53 - 1) with 52 in *. lia.
  - right. pose proof (Z.pow_le_mono_r 2 d 52). lia.
Qed.

Lemma Float64bits_range (f : float64) :
  f64_wf f = true -> 0 <= Float64bits f < 2 ^ 64.
Proof.
  destruct f as [s|s| |s m e]; intros H; simpl; try (destruct s; lia); [unfold nan_bits; lia|].
  apply f64_wf_finite in H. destruct (Z.ltb_spec (Zpos m) (2 ^ 52)); destruct s; lia.
Qed.

Lemma bits_split (h e m : Z) :
  0 <= h <= 1 -> 0 <= e < 2048 -> 0 <= m < 2 ^ 52 ->
  let u := h * 2 ^ 63 + (e * 2 ^ 52 + m) in
  (2 ^ 63 <=? u) = (h =? 1) /\ (u / 2 ^ 52) mod 2048 = e /\ u mod 2 ^ 52 = m.
Proof.
  intros Hh He Hm u.
  assert (Hu : u = (h * 2048 + e) * 2 ^ 52 + m) by (unfold u; lia).
  assert (Hd : u / 2 ^ 52 = h * 2048 + e).
  { rewrite Hu, Z.div_add_l, Z.div_small; lia. }
  split; [unfold u; lia|]. split.
  - rewrite Hd, Z.add_comm, Z.mod_add, Z.mod_small; lia.
  - rewrite Hu, Z.add_comm, Z.mod_add, Z.mod_small; lia.
Qed.

Lemma Float64frombits_bits (f : float64) :
  f64_wf f = true -> Float64frombits (Float64bits f) = f.
Proof.
  intros H.
  destruct f as [s|s| |s m e]; try (destruct s; reflexivity); [reflexivity|].
  apply f64_wf_finite in H. unfold Float64bits, Float64frombits.
  set (h := if s then 1 else 0).
  replace (if s then 2 ^ 63 else 0) with (h * 2 ^ 63) by (unfold h; destruct s; lia).
  assert (Hs : (h =? 1) = s) by (unfold h; destruct s; reflexivity).
  assert (Hh : 0 <= h <= 1) by (unfold h; destruct s; lia).
  destruct (Z.ltb_spec (Zpos m) (2 ^ 52)) as [Hm|Hm].
  - destruct H as [H|[_ ->]]; [lia|].
    destruct (bits_split h 0 (Zpos m)) as (E1 & E2 & E3); try lia.
    rewrite Z.mul_0_l, Z.add_0_l in *. rewrite E1, E2, E3, Hs. reflexivity.
  - destruct H as [H|[]]; [|lia].
    destruct (bits_split h (e + 1075) (Zpos m - 2 ^ 52)) as (E1 & E2 & E3); try lia.
    rewrite E1, E2, E3, Hs.
    replace (Z.pos m - 2 ^ 52 + 2 ^ 52) with (Zpos m) by lia.
    replace (e + 1075 - 1075) with e by lia.
    destruct (Z.eqb_spec (e + 1075) 2047); [lia|].
    destruct (Z.eqb_spec (e + 1075) 0); [lia|]. reflexivity.
Qed.

(** ** Comparison *)

Lemma f64_compare_sym (a b : float64) :
  SFcompare b a = option_map CompOpp (SFcompare a b).
Proof.
  destruct a as [[]|[]| |[] m e], b as [[]|[]| |[] m' e']; simpl; try reflexivity;
    rewrite (Z.compare_antisym e e'); destruct (e ?= e'); simpl; try reflexivity;
    fold (Pos.compare m m'); fold (Pos.compare m' m);
    rewrite (Pos.compare_antisym m m'); destruct (m ?= m')%positive; reflexivity.
Qed.

Lemma f64_eqb_sym (a b : float64) : f64_eqb a b = f64_eqb b a.
Proof.
  unfold f64_eqb, SFeqb. rewrite (f64_compare_sym a b).
  destruct (SFcompare a b) as [[]|]; reflexivity.
Qed.
