(* ===== verification/GoText.v ===== *)
(** * GoText: the text functions of Go's standard library that the code calls

    Byte strings as Go has them: the decimal form of an integer
    ([strconv.FormatInt], [big.Int.String]), hexadecimal, the bytewise order
    of [strings.Compare] and [sort.Strings], the letter case of ASCII, and
    UTF-8.  These model the language's library, not the repository. *)

From Stdlib Require Import Decimal DecimalZ.
From stdpp Require Import sorting.
From S2P Require Import Prelude.
#[local] Open Scope Z_scope.

(** ** Decimal *)

Fixpoint uint_bytes (u : Decimal.uint) : gostring :=
  match u with
  | Decimal.Nil => []
  | Decimal.D0 u => Byte.x30 :: uint_bytes u
  | Decimal.D1 u => Byte.x31 :: uint_bytes u
  | Decimal.D2 u => Byte.x32 :: uint_bytes u
  | Decimal.D3 u => Byte.x33 :: uint_bytes u
  | Decimal.D4 u => Byte.x34 :: uint_bytes u
  | Decimal.D5 u => Byte.x35 :: uint_bytes u
  | Decimal.D6 u => Byte.x36 :: uint_bytes u
  | Decimal.D7 u => Byte.x37 :: uint_bytes u
  | Decimal.D8 u => Byte.x38 :: uint_bytes u
  | Decimal.D9 u => Byte.x39 :: uint_bytes u
  end.

(** [strconv.FormatInt(z, 10)] and [big.Int.String]. *)
Definition FormatInt (z : Z) : gostring :=
  match Z.to_int z with
  | Decimal.Pos u => uint_bytes u
  | Decimal.Neg u => Byte.x2d :: uint_bytes u
  end.

Definition is_digit (b : byte) : bool := (48 <=? byte_val b) && (byte_val b <=? 57).

Lemma uint_bytes_digits (u : Decimal.uint) : Forall (fun b => is_digit b = true) (uint_bytes u).
Proof. induction u; simpl; constructor; auto. Qed.

Lemma uint_bytes_inj (u v : Decimal.uint) : uint_bytes u = uint_bytes v -> u = v.
Proof.
  revert v. induction u; intros [] H; simpl in H; try discriminate; try reflexivity;
    injection H as H; f_equal; auto.
Qed.

Lemma FormatInt_inj (a b : Z) : FormatInt a = FormatInt b -> a = b.
Proof.
  unfold FormatInt. intros H.
  rewrite <- (DecimalZ.of_to a), <- (DecimalZ.of_to b).
  destruct (Z.to_int a) as [u|u], (Z.to_int b) as [v|v].
  - by rewrite (uint_bytes_inj u v H).
  - pose proof (uint_bytes_digits u) as Hd. rewrite H in Hd. by apply Forall_inv in Hd.
  - pose proof (uint_bytes_digits v) as Hd. rewrite <- H in Hd. by apply Forall_inv in Hd.
  - injection H as H. by rewrite (uint_bytes_inj u v H).
Qed.

(** The characters of a number's decimal form. *)
Definition is_int_char (b : byte) : bool := is_digit b || (byte_val b =? 45).

Lemma FormatInt_chars (z : Z) : Forall (fun b => is_int_char b = true) (FormatInt z).
Proof.
  assert (H : forall u, Forall (fun b => is_int_char b = true) (uint_bytes u)).
  { intros u. induction u; simpl; constructor; auto. }
  unfold FormatInt. destruct (Z.to_int z); [auto|]. constructor; auto.
Qed.

(** Two fields followed by a separator that neither contains are told apart. *)
Lemma split_sep (P : byte -> bool) (sep : byte) (a b x y : gostring) :
  Forall (fun c => P c = true) a -> Forall (fun c => P c = true) b -> P sep = false ->
  a ++ sep :: x = b ++ sep :: y -> a = b /\ x = y.
Proof.
  intros Ha Hb Hs. revert b Hb. induction Ha as [|c a Hc Ha IH]; intros b Hb H.
  - destruct b as [|d b]; simpl in H; [by injection H|].
    injection H as <- _. apply Forall_inv in Hb. congruence.
  - destruct b as [|d b]; simpl in H.
    + injection H as -> _. congruence.
    + injection H as -> H. apply Forall_inv_tail in Hb.
      destruct (IH b Hb H) as [-> ->]. done.
Qed.

(** ** Hexadecimal *)

Definition hex_digit (n : Z) : byte := byte_of (if n <? 10 then 48 + n else 87 + n).
Definition EncodeToString (l : list byte) : gostring :=
  concat (map (fun b => [hex_digit (byte_val b / 16); hex_digit (byte_val b mod 16)]) l).

Lemma hex_digit_inj (a b : Z) :
  0 <= a < 16 -> 0 <= b < 16 -> hex_digit a = hex_digit b -> a = b.
Proof.
  intros Ha Hb H. apply (f_equal byte_val) in H. unfold hex_digit in H.
  rewrite !byte_val_of in H.
  destruct (Z.ltb_spec a 10), (Z.ltb_spec b 10); rewrite !Z.mod_small in H by lia; lia.
Qed.

Lemma EncodeToString_inj (l k : list byte) : EncodeToString l = EncodeToString k -> l = k.
Proof.
  revert k. induction l as [|b l IH]; intros [|c k] H; try discriminate; [reflexivity|].
  unfold EncodeToString in H. simpl in H. injection H as H1 H2 H3.
  pose proof (byte_val_range b). pose proof (byte_val_range c).
  apply hex_digit_inj in H1; [|dlia..]. apply hex_digit_inj in H2; [|dlia..].
  f_equal; [|by apply IH]. apply byte_val_inj. dlia.
Qed.

(** ** Order *)

(** [strings.Compare]. *)
Fixpoint str_compare (a b : gostring) : comparison :=
  match a, b with
  | [], [] => Eq
  | [], _ => Lt
  | _, [] => Gt
  | x :: a', y :: b' =>
      match byte_val x ?= byte_val y with
      | Eq => str_compare a' b'
      | c => c
      end
  end.

Definition cmp_to_Z (c : comparison) : Z := match c with Lt => -1 | Eq => 0 | Gt => 1 end.

Lemma str_compare_eq (a b : gostring) : str_compare a b = Eq <-> a = b.
Proof.
  revert b. induction a as [|x a IH]; intros [|y b]; simpl; try (split; congruence).
  destruct (Z.compare_spec (byte_val x) (byte_val y)) as [E|E|E].
  - rewrite IH. apply byte_val_inj in E as ->. split; congruence.
  - split; [discriminate|]. intros [= -> _]. lia.
  - split; [discriminate|]. intros [= -> _]. lia.
Qed.

Lemma str_compare_antisym (a b : gostring) : str_compare b a = CompOpp (str_compare a b).
Proof.
  revert b. induction a as [|x a IH]; intros [|y b]; simpl; try reflexivity.
  rewrite (Z.compare_antisym (byte_val x) (byte_val y)).
  destruct (byte_val x ?= byte_val y); simpl; auto.
Qed.

Lemma str_compare_trans (c : comparison) (x y z : gostring) :
  str_compare x y = c -> str_compare y z = c -> str_compare x z = c.
Proof.
  revert y z. induction x as [|a x IH]; intros [|b y] [|d z]; simpl; try congruence.
  destruct (Z.compare_spec (byte_val a) (byte_val b)),
    (Z.compare_spec (byte_val b) (byte_val d)),
    (Z.compare_spec (byte_val a) (byte_val d)); try lia; try congruence; eauto.
Qed.

(** [a <= b] on strings, the order [sort.Strings] sorts by. *)
Definition str_le (a b : gostring) : Prop := str_compare a b <> Gt.
#[global] Instance str_le_dec : RelDecision str_le.
Proof. intros a b. unfold str_le. apply _. Defined.

#[global] Instance str_le_total : Total str_le.
Proof.
  intros a b. unfold str_le. rewrite (str_compare_antisym a b).
  destruct (str_compare a b); simpl; [left|left|right]; discriminate.
Qed.

#[global] Instance str_le_trans : Transitive str_le.
Proof.
  intros a b c H1 H2. unfold str_le in *.
  destruct (str_compare a b) eqn:E1; [|clear H1|done].
  - apply str_compare_eq in E1 as ->. done.
  - destruct (str_compare b c) eqn:E2; [|clear H2|done].
    + apply str_compare_eq in E2 as ->. congruence.
    + rewrite (str_compare_trans Lt a b c); done.
Qed.

#[global] Instance str_le_antisym : AntiSymm (=) str_le.
Proof.
  intros a b H1 H2. unfold str_le in *. rewrite (str_compare_antisym a b) in H2.
  apply str_compare_eq. destruct (str_compare a b); done.
Qed.

(** [sort.Strings]. *)
Definition sort_strings (l : list gostring) : list gostring := merge_sort str_le l.

Lemma sort_strings_perm (l : list gostring) : sort_strings l ≡ₚ l.
Proof. apply merge_sort_Permutation. Qed.

Lemma sort_strings_unique (l k : list gostring) : l ≡ₚ k -> sort_strings l = sort_strings k.
Proof.
  intros H. apply (StronglySorted_unique str_le).
  - apply StronglySorted_merge_sort; apply _.
  - apply StronglySorted_merge_sort; apply _.
  - by rewrite !sort_strings_perm.
Qed.

(** [strings.Join]. *)
Fixpoint join (sep : gostring) (l : list gostring) : gostring :=
  match l with
  | [] => []
  | [x] => x
  | x :: l' => x ++ sep ++ join sep l'
  end.

(** ** Letter case of ASCII *)

Definition ascii_lower_byte (b : byte) : byte :=
  let z := byte_val b in
  if (65 <=? z) && (z <=? 90) then byte_of (z + 32) else b.
Definition ascii_lower (s : gostring) : gostring := map ascii_lower_byte s.

Lemma ascii_lower_idem (s : gostring) : ascii_lower (ascii_lower s) = ascii_lower s.
Proof.
  unfold ascii_lower. rewrite map_map. apply map_ext. intros b.
  unfold ascii_lower_byte at 1.
  assert (Hz : (65 <=? byte_val (ascii_lower_byte b)) && (byte_val (ascii_lower_byte b) <=? 90) = false).
  { unfold ascii_lower_byte. destruct ((65 <=? byte_val b) && (byte_val b <=? 90)) eqn:E.
    - rewrite byte_val_of. pose proof (byte_val_range b). rewrite Z.mod_small by lia. lia.
    - exact E. }
  by rewrite Hz.
Qed.
