(* ===== verification/Utf8.v ===== *)
(** * Utf8: runes and byte strings

    Go's conversions between strings and runes, as the language and
    [unicode/utf8] define them: [DecodeRuneInString], [for b, r := range s],
    [[]rune(s)] and [string(runes)].  An invalid byte decodes to U+FFFD with
    width one; a rune that is not a scalar value encodes as U+FFFD. *)

From S2P Require Import Prelude.
#[local] Open Scope Z_scope.

Definition RuneError : Z := 65533.
Definition RuneSelf : Z := 128.

Definition between (lo hi z : Z) : bool := (lo <=? z) && (z <=? hi).

(** ** Decoding *)

(** [utf8.DecodeRuneInString]: the rune and its width. *)
Definition DecodeRune (s : gostring) : Z * nat :=
  match s with
  | [] => (RuneError, 0%nat)
  | b0 :: t =>
      let c0 := byte_val b0 in
      if c0 <? RuneSelf then (c0, 1%nat)
      else if between 194 223 c0 then
        match t with
        | b1 :: _ =>
            if between 128 191 (byte_val b1)
            then ((c0 - 192) * 64 + (byte_val b1 - 128), 2%nat) else (RuneError, 1%nat)
        | [] => (RuneError, 1%nat)
        end
      else if between 224 239 c0 then
        match t with
        | b1 :: b2 :: _ =>
            if between (if c0 =? 224 then 160 else 128) (if c0 =? 237 then 159 else 191) (byte_val b1)
               && between 128 191 (byte_val b2)
            then ((c0 - 224) * 4096 + (byte_val b1 - 128) * 64 + (byte_val b2 - 128), 3%nat)
            else (RuneError, 1%nat)
        | _ => (RuneError, 1%nat)
        end
      else if between 240 244 c0 then
        match t with
        | b1 :: b2 :: b3 :: _ =>
            if between (if c0 =? 240 then 144 else 128) (if c0 =? 244 then 143 else 191) (byte_val b1)
               && between 128 191 (byte_val b2) && between 128 191 (byte_val b3)
            then ((c0 - 240) * 262144 + (byte_val b1 - 128) * 4096 + (byte_val b2 - 128) * 64
                  + (byte_val b3 - 128), 4%nat)
            else (RuneError, 1%nat)
        | _ => (RuneError, 1%nat)
        end
      else (RuneError, 1%nat)
  end.

(** ** Encoding *)

Definition is_scalar (r : Z) : bool := between 0 55295 r || between 57344 1114111 r.

(** [string(r)]. *)
Definition EncodeRune (r : Z) : gostring :=
  let r := if is_scalar r then r else RuneError in
  if r <? 128 then [byte_of r]
  else if r <? 2048 then [byte_of (192 + r / 64); byte_of (128 + r mod 64)]
  else if r <? 65536 then
    [byte_of (224 + r / 4096); byte_of (128 + (r / 64) mod 64); byte_of (128 + r mod 64)]
  else
    [byte_of (240 + r / 262144); byte_of (128 + (r / 4096) mod 64);
     byte_of (128 + (r / 64) mod 64); byte_of (128 + r mod 64)].

(** [string(runes)]. *)
Definition string_of_runes (rs : list Z) : gostring := flat_map EncodeRune rs.

(** ** The runes of a string

    Each rune with the bytes it was decoded from, as [range] visits them. *)

Fixpoint segments_from (fuel : nat) (s : gostring) : list (Z * gostring) :=
  match fuel, s with
  | O, _ | _, [] => []
  | S n, _ => let (r, k) := DecodeRune s in (r, take k s) :: segments_from n (drop k s)
  end.
Definition segments (s : gostring) : list (Z * gostring) := segments_from (length s) s.

(** [[]rune(s)]. *)
Definition runes (s : gostring) : list Z := map fst (segments s).

(** ** Lemmas *)

Lemma between_true (lo hi z : Z) : between lo hi z = true <-> lo <= z <= hi.
Proof. unfold between. lia. Qed.

Lemma DecodeRune_width (b : byte) (s : gostring) :
  (1 <= snd (DecodeRune (b :: s)) <= length (b :: s))%nat.
Proof.
  unfold DecodeRune. repeat case_match; simpl; lia.
Qed.

Lemma segments_from_enough (n k : nat) (s : gostring) :
  (length s <= n)%nat -> (length s <= k)%nat -> segments_from n s = segments_from k s.
Proof.
  revert k s. induction n as [|n IH]; intros k s Hn Hk.
  - destruct s; [|simpl in Hn; lia]. by destruct k.
  - destruct s as [|b s]; [by destruct k|]. destruct k as [|k]; [simpl in Hk; lia|].
    cbn [segments_from]. pose proof (DecodeRune_width b s) as Hw.
    destruct (DecodeRune (b :: s)) as [r w]. cbn [snd] in Hw. f_equal.
    apply IH; rewrite length_drop; simpl in *; lia.
Qed.

Lemma segments_cons (b : byte) (s : gostring) :
  segments (b :: s)
  = (fst (DecodeRune (b :: s)), take (snd (DecodeRune (b :: s))) (b :: s))
    :: segments (drop (snd (DecodeRune (b :: s))) (b :: s)).
Proof.
  unfold segments at 1. cbn [length segments_from].
  pose proof (DecodeRune_width b s) as Hw.
  destruct (DecodeRune (b :: s)) as [r w]. cbn [fst snd] in *. f_equal.
  apply segments_from_enough; rewrite ?length_drop; simpl in *; lia.
Qed.

Lemma string_ind_segments (P : gostring -> Prop) :
  P [] ->
  (forall b s, P (drop (snd (DecodeRune (b :: s))) (b :: s)) -> P (b :: s)) ->
  forall s, P s.
Proof.
  intros H0 Hs s. remember (length s) as n eqn:Hn. revert s Hn.
  induction (lt_wf n) as [n _ IH]. intros [|b s] Hn; [done|]. apply Hs.
  eapply IH; [|reflexivity]. pose proof (DecodeRune_width b s).
  rewrite length_drop. simpl in *. lia.
Qed.

(** The segments cut the string up. *)
Lemma concat_segments (s : gostring) : concat (map snd (segments s)) = s.
Proof.
  induction s as [|b s IH] using string_ind_segments; [done|].
  rewrite segments_cons. cbn [map concat snd]. rewrite IH. apply take_drop.
Qed.

Lemma segments_nonempty (s : gostring) (r : Z) (l : gostring) : (r, l) ∈ segments s -> l <> [].
Proof.
  induction s as [|b s IH] using string_ind_segments; [by intros ?%elem_of_nil|].
  rewrite segments_cons, elem_of_cons. intros [E|H]; [|auto].
  apply (f_equal snd) in E. cbn [snd] in E. subst l.
  pose proof (DecodeRune_width b s). intros Hn. apply (f_equal length) in Hn.
  rewrite length_take in Hn. cbn [length] in *. lia.
Qed.

(** ** Round trips *)

Ltac byte_bounds :=
  repeat match goal with
  | b : byte |- _ =>
      lazymatch goal with
      | _ : 0 <= byte_val b < 256 |- _ => fail
      | _ => pose proof (byte_val_range b)
      end
  end.

Ltac split_between :=
  repeat match goal with
  | H : _ && _ = true |- _ => apply andb_true_iff in H as [? ?]
  | H : between _ _ _ = true |- _ => apply between_true in H
  end.

Lemma byte_of_eq (z : Z) (b : byte) : z = byte_val b -> byte_of z = b.
Proof. intros ->. apply byte_of_val. Qed.

(** A rune that did not decode from an invalid byte encodes to its bytes. *)
Lemma EncodeRune_decode (b : byte) (s : gostring) :
  (snd (DecodeRune (b :: s)) = 1%nat -> byte_val b < 128) ->
  EncodeRune (fst (DecodeRune (b :: s))) = take (snd (DecodeRune (b :: s))) (b :: s).
Proof.
  unfold DecodeRune. cbv zeta.
  destruct (byte_val b <? RuneSelf) eqn:E0.
  { intros _. apply Z.ltb_lt in E0. unfold RuneSelf in E0. byte_bounds. cbn [fst snd take].
    unfold EncodeRune, is_scalar.
    rewrite (proj2 (between_true 0 55295 _)) by lia. cbn [orb].
    rewrite (proj2 (Z.ltb_lt _ _)) by lia. by rewrite byte_of_val. }
  apply Z.ltb_ge in E0. unfold RuneSelf in E0.
  destruct (between 194 223 (byte_val b)) eqn:E1; [|
  destruct (between 224 239 (byte_val b)) eqn:E2; [|
  destruct (between 240 244 (byte_val b)) eqn:E3; [|cbn; intros; lia]]].
  - destruct s as [|b1 s]; [cbn; intros; lia|].
    destruct (between 128 191 (byte_val b1)) eqn:E; [|cbn; intros; lia]. intros _.
    cbn [fst snd take]. split_between. unfold EncodeRune, is_scalar.
    rewrite (proj2 (between_true 0 55295 _)) by lia. cbn [orb].
    rewrite (proj2 (Z.ltb_ge _ _)), (proj2 (Z.ltb_lt _ 2048)) by lia.
    f_equal; [|f_equal]; apply byte_of_eq; dlia.
  - destruct s as [|b1 [|b2 s]]; [cbn; intros; lia..|].
    destruct (_ && _) eqn:E; [|cbn; intros; lia]. intros _.
    cbn [fst snd take]. split_between. unfold EncodeRune.
    assert (Hs : is_scalar ((byte_val b - 224) * 4096 + (byte_val b1 - 128) * 64 + (byte_val b2 - 128))
                 = true).
    { unfold is_scalar. rewrite orb_true_iff, !between_true.
      destruct (Z.eqb_spec (byte_val b) 224), (Z.eqb_spec (byte_val b) 237); lia. }
    rewrite Hs. clear Hs.
    rewrite (proj2 (Z.ltb_ge _ 128)), (proj2 (Z.ltb_ge _ 2048)), (proj2 (Z.ltb_lt _ 65536))
      by (destruct (Z.eqb_spec (byte_val b) 224), (Z.eqb_spec (byte_val b) 237); lia).
    assert (128 <= byte_val b1 <= 191) by (repeat case_match; lia).
    f_equal; [|f_equal; [|f_equal]]; apply byte_of_eq; dlia.
  - destruct s as [|b1 [|b2 [|b3 s]]]; [cbn; intros; lia..|].
    destruct (_ && _) eqn:E; [|cbn; intros; lia]. intros _.
    cbn [fst snd take]. split_between. unfold EncodeRune.
    set (r := (byte_val b - 240) * 262144 + (byte_val b1 - 128) * 4096 + (byte_val b2 - 128) * 64
              + (byte_val b3 - 128)).
    assert (Hr : 65536 <= r <= 1114111)
      by (unfold r; destruct (Z.eqb_spec (byte_val b) 240), (Z.eqb_spec (byte_val b) 244); lia).
    replace (is_scalar r) with true
      by (symmetry; unfold is_scalar; rewrite orb_true_iff, !between_true; lia).
    rewrite (proj2 (Z.ltb_ge _ 128)), (proj2 (Z.ltb_ge _ 2048)), (proj2 (Z.ltb_ge _ 65536)) by lia.
    assert (128 <= byte_val b1 <= 191) by (repeat case_match; lia).
    f_equal; [|f_equal; [|f_equal; [|f_equal]]]; apply byte_of_eq; unfold r; dlia.
Qed.

Lemma byte_val_small (z : Z) : 0 <= z < 256 -> byte_val (byte_of z) = z.
Proof. intros H. rewrite byte_val_of. by apply Z.mod_small. Qed.

(** A scalar value decodes from its encoding, whatever follows. *)
Lemma DecodeRune_encode (r : Z) (s : gostring) :
  is_scalar r = true -> DecodeRune (EncodeRune r ++ s) = (r, length (EncodeRune r)).
Proof.
  intros Hr. unfold EncodeRune. rewrite Hr. unfold is_scalar in Hr.
  rewrite orb_true_iff, !between_true in Hr.
  destruct (Z.ltb_spec r 128).
  { cbn -[Z.mul Z.div Z.modulo]. rewrite !byte_val_small by dlia. unfold RuneSelf.
    by rewrite (proj2 (Z.ltb_lt _ _)). }
  assert (Hb : forall lo hi z, lo <= z <= hi -> between lo hi z = true)
    by (intros; by apply between_true).
  assert (Hn : forall lo hi z, z < lo \/ hi < z -> between lo hi z = false)
    by (intros; unfold between; lia).
  destruct (Z.ltb_spec r 2048); [|destruct (Z.ltb_spec r 65536)];
    cbn [app length]; unfold DecodeRune, RuneSelf; cbv zeta;
    rewrite !byte_val_small by dlia;
    rewrite (proj2 (Z.ltb_ge _ 128)) by dlia.
  - rewrite !Hb by dlia. f_equal. dlia.
  - rewrite (Hn 194) by dlia. rewrite (Hb 224), (Hb 128 191 (128 + r mod 64)) by dlia.
    rewrite Hb; [cbn [andb]; f_equal; dlia|].
    destruct (Z.eqb_spec (224 + r / 4096) 224), (Z.eqb_spec (224 + r / 4096) 237); dlia.
  - rewrite (Hn 194), (Hn 224), (Hb 240), !(Hb 128 191) by dlia.
    rewrite Hb; [cbn [andb]; f_equal; dlia|].
    destruct (Z.eqb_spec (240 + r / 262144) 240), (Z.eqb_spec (240 + r / 262144) 244); dlia.
Qed.

Lemma EncodeRune_nonempty (r : Z) : exists b s, EncodeRune r = b :: s.
Proof. unfold EncodeRune. repeat case_match; eauto. Qed.

Lemma segments_encode (r : Z) (s : gostring) :
  is_scalar r = true -> segments (EncodeRune r ++ s) = (r, EncodeRune r) :: segments s.
Proof.
  intros Hr. destruct (EncodeRune_nonempty r) as (b & t & E).
  pose proof (DecodeRune_encode r s Hr) as D. rewrite E in *. cbn [app] in *.
  rewrite segments_cons, D. cbn [fst snd].
  change (b :: t ++ s) with ((b :: t) ++ s). by rewrite take_app_length, drop_app_length.
Qed.

Lemma runes_string_of_runes (rs : list Z) :
  Forall (fun r => is_scalar r = true) rs -> runes (string_of_runes rs) = rs.
Proof.
  unfold runes. induction 1 as [|r rs Hr _ IH]; [done|]. cbn [string_of_runes flat_map].
  rewrite segments_encode by done. cbn [map fst]. f_equal. apply IH.
Qed.

Lemma segments_string_of_runes (rs : list Z) :
  Forall (fun r => is_scalar r = true) rs ->
  segments (string_of_runes rs) = map (fun r => (r, EncodeRune r)) rs.
Proof.
  induction 1 as [|r rs Hr _ IH]; [done|]. cbn [string_of_runes flat_map map].
  rewrite segments_encode by done. f_equal. apply IH.
Qed.

(** Every rune of a string is a scalar value. *)
Lemma DecodeRune_scalar (s : gostring) : is_scalar (fst (DecodeRune s)) = true.
Proof.
  destruct s as [|b s]; [reflexivity|]. unfold DecodeRune, RuneSelf.
  cbv zeta. repeat case_match; try reflexivity; cbn [fst]; split_between; subst;
    unfold is_scalar; rewrite orb_true_iff, !between_true; byte_bounds; lia.
Qed.

Lemma runes_scalar (s : gostring) : Forall (fun r => is_scalar r = true) (runes s).
Proof.
  unfold runes. induction s as [|b s IH] using string_ind_segments; [constructor|].
  rewrite segments_cons. constructor; [apply DecodeRune_scalar|exact IH].
Qed.

(** An ASCII string is its bytes. *)
Definition is_ascii (s : gostring) : bool := forallb (fun b => byte_val b <? RuneSelf) s.

Lemma segments_ascii (s : gostring) :
  is_ascii s = true -> segments s = map (fun b => (byte_val b, [b])) s.
Proof.
  induction s as [|b s IH]; [done|]. cbn [is_ascii forallb]. intros [Hb Hs]%andb_true_iff.
  rewrite segments_cons. unfold DecodeRune. rewrite Hb. cbn [fst snd firstn skipn map].
  change (drop 0 s) with s. by rewrite IH.
Qed.
