(* ===== verification/Literal.v ===== *)
(** * Literal: numeric literals

    The parsers of integer and decimal literal text
    (src/internal/ast/ast.go, [ParseIntLiteral] and [ParseDecimalLiteral]) that
    the lexer's tokens, the string conversions and the bytecode decoder share,
    and the round trip with the decimal form of an integer. *)

From Stdlib Require Import QArith Decimal DecimalZ.
From S2P Require Import Prelude GoText.
#[local] Open Scope Z_scope.

(** ** [big.Int.SetString] (standard library) *)

Definition digit_value (b : byte) : Z :=
  let z := byte_val b in
  if (48 <=? z) && (z <=? 57) then z - 48
  else if (97 <=? z) && (z <=? 122) then z - 87
  else if (65 <=? z) && (z <=? 90) then z - 55
  else 99.

Fixpoint digits_value (base : Z) (acc : Z) (s : gostring) : option Z :=
  match s with
  | [] => Some acc
  | b :: s' => if digit_value b <? base
               then digits_value base (acc * base + digit_value b) s' else None
  end.

Definition unsigned_value (base : Z) (s : gostring) : option Z :=
  match s with [] => None | _ => digits_value base 0 s end.

Definition BigIntSetString (s : gostring) (base : Z) : option Z :=
  match s with
  | Byte.x2d :: s' => option_map Z.opp (unsigned_value base s')
  | Byte.x2b :: s' => unsigned_value base s'
  | _ => unsigned_value base s
  end.

(** ** The literal parsers *)

(** [strings.ReplaceAll(s, "_", "")]. *)
Definition strip_underscores (s : gostring) : gostring :=
  filter (fun b => b <> Byte.x5f) s.

(** The base that a literal's prefix selects, and the digits after it. *)
Definition literal_base (digits : gostring) : Z * gostring :=
  match digits with
  | Byte.x30 :: c :: (_ :: _) as rest =>
      if decide (c = Byte.x62 \/ c = Byte.x42) then (2, drop 2 digits)
      else if decide (c = Byte.x6f \/ c = Byte.x4f) then (8, drop 2 digits)
      else if decide (c = Byte.x78 \/ c = Byte.x58) then (16, drop 2 digits)
      else (10, digits)
  | _ => (10, digits)
  end.

(** [ast.ParseIntLiteral]; [None] is its "invalid integer literal" error. *)
Definition ParseIntLiteral (lit : gostring) : option Z :=
  let digits := strip_underscores lit in
  let (base, digits) := literal_base digits in
  match digits with
  | [] => None
  | _ => BigIntSetString digits base
  end.

(** [strings.Cut] at a byte. *)
Fixpoint cut_at (sep : byte) (s : gostring) : option (gostring * gostring) :=
  match s with
  | [] => None
  | b :: s' => if decide (b = sep) then Some ([], s')
               else match cut_at sep s' with
                    | Some (x, y) => Some (b :: x, y)
                    | None => None
                    end
  end.

(** [strconv.Atoi]: an [int] in decimal with an optional sign. *)
Definition Atoi (s : gostring) : option Z :=
  match BigIntSetString s 10 with
  | Some z => if is_int64 z then Some z else None
  | None => None
  end.

Definition absInt (v : Z) : Z := if v <? 0 then wrap64 (- v) else v.

Section Decimal.
(** [big.Rat.SetString] of the standard library. *)
Variable RatSetString : gostring -> option Q.

(** [ast.ParseDecimalLiteral]. *)
Definition ParseDecimalLiteral (lit : gostring) : option Q :=
  let digits := strip_underscores lit in
  if decide (Byte.x65 ∈ digits \/ Byte.x45 ∈ digits) then
    match (match cut_at Byte.x65 digits with
           | Some c => Some c
           | None => cut_at Byte.x45 digits
           end) with
    | None => None
    | Some (mantissa, exponentText) =>
        match RatSetString mantissa, Atoi exponentText with
        | Some value, Some exponent =>
            let scale := inject_Z (10 ^ absInt exponent) in
            Some (if 0 <=? exponent then Qred (value * scale) else Qred (value / scale))
        | _, _ => None
        end
    end
  else RatSetString digits.
End Decimal.

(** ** Lemmas *)

Lemma digits_value_uint (u : Decimal.uint) (p : positive) :
  digits_value 10 (Zpos p) (uint_bytes u) = Some (Zpos (Pos.of_uint_acc u p)).
Proof.
  revert p. induction u; intros p; cbn [uint_bytes digits_value]; [reflexivity|..];
    match goal with |- context [digit_value ?b] =>
      let v := eval vm_compute in (digit_value b) in change (digit_value b) with v
    end; cbn [Z.ltb Z.compare Pos.compare Pos.compare_cont];
    (match goal with |- digits_value _ ?a _ = _ =>
       match goal with |- _ = Some (Zpos (Pos.of_uint_acc ?w ?q)) =>
         let q' := eval cbn [Pos.of_uint_acc] in (Pos.of_uint_acc w q) in
         match q' with Pos.of_uint_acc ?w' ?r =>
           replace a with (Zpos r) by lia; rewrite IHu; reflexivity end
       end
     end).
Qed.

Lemma digits_value_zero (u : Decimal.uint) :
  digits_value 10 0 (uint_bytes u) = Some (Z.of_N (Pos.of_uint u)).
Proof.
  induction u; cbn [uint_bytes digits_value]; [reflexivity|..];
    match goal with |- context [digit_value ?b] =>
      let v := eval vm_compute in (digit_value b) in change (digit_value b) with v
    end; cbn [Z.ltb Z.compare Pos.compare Pos.compare_cont Z.mul Z.add Pos.of_uint Z.of_N];
    first [exact IHu | apply digits_value_uint].
Qed.

Lemma uint_bytes_first (u : Decimal.uint) (b : byte) (s : gostring) :
  uint_bytes u = b :: s -> is_digit b = true.
Proof. intros H. pose proof (uint_bytes_digits u) as F. rewrite H in F. by inversion F. Qed.

Lemma to_int_no_sign (z : Z) :
  match Z.to_int z with
  | Decimal.Pos u => 0 <= z /\ u <> Decimal.Nil /\ Z.of_N (Pos.of_uint u) = z
  | Decimal.Neg u => z < 0 /\ u <> Decimal.Nil /\ Z.of_N (Pos.of_uint u) = - z
  end.
Proof.
  pose proof (DecimalZ.of_to z) as H.
  destruct z as [|p|p]; cbn [Z.to_int] in *.
  - repeat split; [lia|discriminate].
  - split; [lia|]. cbn [Z.of_int] in H. unfold Z.of_uint in H. split; [|exact H].
    intros E. rewrite E in H. discriminate.
  - split; [lia|]. cbn [Z.of_int] in H. unfold Z.of_uint in H. split; [|lia].
    intros E. rewrite E in H. discriminate.
Qed.

Lemma SetString_FormatInt (z : Z) : BigIntSetString (FormatInt z) 10 = Some z.
Proof.
  pose proof (to_int_no_sign z) as H. unfold FormatInt.
  destruct (Z.to_int z) as [u|u]; destruct H as (Hz & Hn & E).
  - assert (U : unsigned_value 10 (uint_bytes u) = Some z).
    { unfold unsigned_value. destruct (uint_bytes u) eqn:F.
      - destruct u; try discriminate. done.
      - rewrite <- F, digits_value_zero. by rewrite E. }
    unfold BigIntSetString. destruct (uint_bytes u) as [|b s] eqn:F; [exact U|].
    apply uint_bytes_first in F. destruct b; try exact U; discriminate.
  - simpl BigIntSetString. unfold unsigned_value. destruct (uint_bytes u) eqn:F.
    + destruct u; try discriminate. done.
    + rewrite <- F, digits_value_zero. simpl. rewrite E. f_equal. lia.
Qed.

Lemma strip_FormatInt (z : Z) : strip_underscores (FormatInt z) = FormatInt z.
Proof.
  unfold strip_underscores. pose proof (FormatInt_chars z) as H.
  induction H as [|b l Hb H IH]; [reflexivity|].
  rewrite filter_cons. destruct (decide (b <> Byte.x5f)) as [|E]; [by rewrite IH|].
  destruct (decide (b = Byte.x5f)) as [->|]; [discriminate|done].
Qed.

Lemma literal_base_FormatInt (z : Z) : literal_base (FormatInt z) = (10, FormatInt z).
Proof.
  unfold literal_base. pose proof (FormatInt_chars z) as H.
  destruct (FormatInt z) as [|b [|c [|d s]]]; try (destruct b; reflexivity); [reflexivity|].
  destruct b; try reflexivity.
  apply Forall_inv_tail, Forall_inv in H.
  repeat (case_decide as E; [destruct E as [->| ->]; discriminate|clear E]). reflexivity.
Qed.

(** An integer's decimal form parses back to it. *)
Lemma ParseIntLiteral_FormatInt (z : Z) : ParseIntLiteral (FormatInt z) = Some z.
Proof.
  unfold ParseIntLiteral. rewrite strip_FormatInt, literal_base_FormatInt.
  destruct (FormatInt z) eqn:E.
  - pose proof (SetString_FormatInt z) as H. rewrite E in H. discriminate.
  - rewrite <- E. apply SetString_FormatInt.
Qed.
