(* ===== verification/Value.v ===== *)
(** * Value: the runtime's values

    [runtime.Value] and its implementations (src/internal/runtime/value.go,
    complex.go), the tagged representation [VMValue] that the bytecode VM keeps
    on its stack (vmvalue.go), and the exact and floating views of a number
    (numeric.go).  A value that the code holds by reference and that no modelled
    operation looks into is a [VOther] with its type name. *)

From Stdlib Require Import QArith.
From S2P Require Import Prelude Float64 GoText.
#[local] Open Scope Z_scope.

(** ** The data *)

(** [runtime.Range]. *)
Record Range := mkRange { Start : Z; End_ : Z; Exclusive : bool; Step : Z }.

(** [runtime.HTTPCookie]. *)
Record HTTPCookie := mkHTTPCookie {
  cookie_Name : gostring; cookie_Value : gostring; cookie_Path : gostring;
  cookie_Domain : gostring; cookie_Expires : Z; cookie_MaxAge : Z;
  cookie_Secure : bool; cookie_HTTPOnly : bool; cookie_SameSite : gostring }.

(** The implementations of [runtime.Value].  A decimal is a reduced rational
    ([big.Rat] normalises); a dict is its entries in iteration order, each
    under its key string; a set is its elements under theirs.  [VModule],
    [VClass], [VInstance] and the like carry the address of the object they
    point to;
    the payload of a native object, and the captured values, type bindings and
    identity of a closure, are opaque handles. *)
#[warnings="-register-all"]
Inductive Value : Type :=
| VNull
| VPendingDefault
| VBool (b : bool)
| VSmallInt (i : Z)
| VInt (i : Z)
| VDecimal (q : Q)
| VFloat (f : float64)
| VString (s : gostring)
| VBytes (l : list byte)
| VDateTimeInstant (Unix : Z)
| VDateTimeDuration (Seconds : Z)
| VDateTimeZone (Name : gostring)
| VURLValue (Raw : gostring)
| VHTTPHeaders (Values : gmap gostring (list gostring))
| VHTTPCookie (c : HTTPCookie)
| VTemplateValue (Name Text Path : gostring)
| VTemplateEngine (Dir : gostring)
| VList (Elements : list Value)
| VDict (entries : list (gostring * (Value * Value)))
| VSet (Elements : list (gostring * Value))
| VRange (r : Range)
| VBytecodeFunction (Module Name : gostring) (Index : Z)
| VBytecodeClass (Module Name : gostring) (Index : Z)
| VBytecodeClosure (FunctionIndex : Z) (Name Module : gostring) (captured : Z)
| VNativeObject (Kind : gostring) (ID : Z) (Payload : option Z)
| VError (Class Message : gostring)
| VType (Name : gostring)
| VModule (ptr : Z)
| VClass (ptr : Z) (Name : gostring)
| VInterface (ptr : Z) (Name : gostring)
| VComplex (re im : float64)
| VNDArray (ptr : Z)
| VDFSeries (ptr : Z)
| VDFExpr (ptr : Z)
| VInstance (Class : gostring) (ptr : Z)
| VEnumVariant (Enum : Z) (EnumName Variant : gostring) (Fields : list Value)
| VOther (typeName : gostring).

(** [Value.TypeName]. *)
Definition TypeName (v : Value) : gostring :=
  match v with
  | VNull => bs "null"
  | VPendingDefault => bs "pending default"
  | VBool _ => bs "bool"
  | VSmallInt _ | VInt _ => bs "int"
  | VDecimal _ => bs "decimal"
  | VFloat _ => bs "float"
  | VString _ => bs "string"
  | VBytes _ => bs "bytes"
  | VDateTimeInstant _ => bs "datetime.Instant"
  | VDateTimeDuration _ => bs "datetime.Duration"
  | VDateTimeZone _ => bs "datetime.Zone"
  | VURLValue _ => bs "url.URL"
  | VHTTPHeaders _ => bs "http.Headers"
  | VHTTPCookie _ => bs "http.Cookie"
  | VTemplateValue _ _ _ => bs "template.Template"
  | VTemplateEngine _ => bs "template.Engine"
  | VList _ => bs "list"
  | VDict _ => bs "dict"
  | VSet _ => bs "set"
  | VRange _ => bs "range"
  | VBytecodeFunction _ _ _ => bs "function"
  | VBytecodeClass _ _ _ => bs "class"
  | VBytecodeClosure _ _ _ _ => bs "func"
  | VNativeObject kind _ _ => kind
  | VError class _ => class
  | VType _ => bs "Type"
  | VModule _ => bs "module"
  | VClass _ _ => bs "class"
  | VInterface _ _ => bs "interface"
  | VComplex _ _ => bs "complex.Complex"
  | VNDArray _ => bs "ndarray.NDArray"
  | VDFSeries _ => bs "dataframe.Series"
  | VDFExpr _ => bs "dataframe.Expr"
  | VInstance class _ => class
  | VEnumVariant _ name _ _ => name
  | VOther t => t
  end.

(** [runtime.IsNull] (every value of the model is a non-nil interface). *)
Definition IsNull (v : Value) : bool := match v with VNull => true | _ => false end.

(** ** Well-formed values

    A [SmallInt] holds an [int64], a decimal is reduced, a float is a binary64
    number, and so on through the containers. *)

Definition q_reduced (q : Q) : bool := Z.gcd (Qnum q) (Zpos (Qden q)) =? 1.

Fixpoint value_wf (v : Value) : bool :=
  match v with
  | VSmallInt i => is_int64 i
  | VDecimal q => q_reduced q
  | VFloat f => f64_wf f
  | VComplex re im => f64_wf re && f64_wf im
  | VDateTimeInstant z | VDateTimeDuration z => is_int64 z
  | VList es => forallb value_wf es
  | VDict es => forallb (fun e => value_wf (fst (snd e)) && value_wf (snd (snd e))) es
  | VSet es => forallb (fun e => value_wf (snd e)) es
  | VEnumVariant _ _ _ fs => forallb value_wf fs
  | _ => true
  end.

(** ** [VMValue]: the VM's tagged representation *)

Inductive VMKind :=
| VMKindUnset | VMKindNull | VMKindBool | VMKindSmallInt | VMKindFloat | VMKindBoxed.

#[global] Instance VMKind_eq_dec : EqDecision VMKind.
Proof. solve_decision. Defined.

(** [Boxed = None] is a nil interface. *)
Record VMValue := mkVM { Kind : VMKind; I64 : Z; Boxed : option Value }.

Definition VMValueNull : VMValue := mkVM VMKindNull 0 None.

(** [VMValueFromValue]. *)
Definition VMValueFromValue (v : Value) : VMValue :=
  match v with
  | VNull => VMValueNull
  | VBool b => if b then mkVM VMKindBool 1 None else mkVM VMKindBool 0 None
  | VSmallInt i => mkVM VMKindSmallInt i None
  | VFloat f => mkVM VMKindFloat (int64_of_uint64 (Float64bits f)) None
  | _ => mkVM VMKindBoxed 0 (Some v)
  end.

(** [VMValue.ToValue]. *)
Definition ToValue (v : VMValue) : Value :=
  match Kind v with
  | VMKindUnset | VMKindNull => VNull
  | VMKindBool => VBool (negb (I64 v =? 0))
  | VMKindSmallInt => VSmallInt (I64 v)
  | VMKindFloat => VFloat (Float64frombits (uint64_of_int64 (I64 v)))
  | VMKindBoxed => match Boxed v with None => VNull | Some b => b end
  end.

(** [VMValueSmallInt], [VMValueBool], [VMValueFloat]. *)
Definition VMValueSmallInt (n : Z) : VMValue := mkVM VMKindSmallInt n None.
Definition VMValueBool (b : bool) : VMValue :=
  if b then mkVM VMKindBool 1 None else mkVM VMKindBool 0 None.
Definition VMValueFloat (f : float64) : VMValue :=
  mkVM VMKindFloat (int64_of_uint64 (Float64bits f)) None.

(** [VMValue.AsSmallInt], [AsBool], [AsFloat]. *)
Definition AsSmallInt (v : VMValue) : option Z :=
  if decide (Kind v = VMKindSmallInt) then Some (I64 v) else None.
Definition AsBool (v : VMValue) : option bool :=
  if decide (Kind v = VMKindBool) then Some (negb (I64 v =? 0)) else None.
Definition AsFloat (v : VMValue) : option float64 :=
  if decide (Kind v = VMKindFloat)
  then Some (Float64frombits (uint64_of_int64 (I64 v))) else None.

(** [VMValue.IsNull]. *)
Definition VM_IsNull (v : VMValue) : bool :=
  match Kind v with
  | VMKindUnset | VMKindNull => true
  | VMKindBoxed => match Boxed v with Some VNull | None => true | _ => false end
  | _ => false
  end.

(** [VMValue.AsIntAny]: the value as an [int64]. *)
Definition AsIntAny (v : VMValue) : option Z :=
  match Kind v with
  | VMKindSmallInt => Some (I64 v)
  | VMKindBoxed =>
      match Boxed v with
      | Some (VInt i) => if is_int64 i then Some i else None
      | Some (VSmallInt i) => Some i
      | _ => None
      end
  | _ => None
  end.

(** [VMValue.AsBigInt]. *)
Definition AsBigInt (v : VMValue) : option Z :=
  match Kind v with
  | VMKindSmallInt => Some (I64 v)
  | VMKindBoxed =>
      match Boxed v with
      | Some (VInt i) => Some i
      | Some (VSmallInt i) => Some i
      | _ => None
      end
  | _ => None
  end.

(** [VMValue.TypeName]. *)
Definition VM_TypeName (v : VMValue) : gostring :=
  match Kind v with
  | VMKindUnset | VMKindNull => bs "null"
  | VMKindBool => bs "bool"
  | VMKindSmallInt => bs "int"
  | VMKindFloat => bs "float"
  | VMKindBoxed => match Boxed v with None => bs "null" | Some b => TypeName b end
  end.

(** ** Numbers *)

(** [runtime.NumericToRat]. *)
Definition NumericToRat (v : Value) : option Q :=
  match v with
  | VSmallInt i => Some (inject_Z i)
  | VInt i => Some (inject_Z i)
  | VDecimal q => Some q
  | VFloat f => f64_to_Q f
  | _ => None
  end.

(** [runtime.NumericToFloat]. *)
Definition NumericToFloat (v : Value) : option float64 :=
  match v with
  | VSmallInt i => Some (f64_of_Z i)
  | VInt i => Some (f64_of_Z i)
  | VDecimal q => Some (f64_of_Q q)
  | VFloat f => Some f
  | _ => None
  end.

(** [runtime.NumericValuesEqual]: [None] when an operand is not a number. *)
Definition NumericValuesEqual (left right : Value) : option bool :=
  match NumericToRat left, NumericToRat right with
  | Some lr, Some rr => Some (match (lr ?= rr)%Q with Eq => true | _ => false end)
  | _, _ =>
      match NumericToFloat left, NumericToFloat right with
      | Some lf, Some rf => Some (f64_eqb lf rf)
      | _, _ => None
      end
  end.

(** ** Lemmas *)

Lemma Float_bits_roundtrip (f : float64) :
  f64_wf f = true ->
  Float64frombits (uint64_of_int64 (int64_of_uint64 (Float64bits f))) = f.
Proof.
  intros H. pose proof (Float64bits_range f H) as Hr.
  replace (uint64_of_int64 (int64_of_uint64 (Float64bits f))) with (Float64bits f).
  - by apply Float64frombits_bits.
  - unfold uint64_of_int64, int64_of_uint64, to_uint.
    destruct (Z.lt_ge_cases (Float64bits f) (2 ^ 63)).
    + rewrite wrap64_id by (apply is_int64_iff; lia). rewrite Z.mod_small; lia.
    + rewrite wrap64_over by lia.
      rewrite <- (Z.mod_unique (Float64bits f - 2 ^ 64) (2 ^ 64) (-1) (Float64bits f)); lia.
Qed.

(** Boxing a value and reading it back. *)
Lemma ToValue_FromValue (v : Value) :
  value_wf v = true -> ToValue (VMValueFromValue v) = v.
Proof.
  destruct v; try reflexivity; intros H.
  - destruct b; reflexivity.
  - unfold ToValue, VMValueFromValue. simpl. rewrite Float_bits_roundtrip; done.
Qed.

Lemma Qcompare_sym (a b : Q) : (b ?= a)%Q = CompOpp (a ?= b)%Q.
Proof. unfold Qcompare. apply Z.compare_antisym. Qed.

Lemma NumericValuesEqual_sym (a b : Value) : NumericValuesEqual a b = NumericValuesEqual b a.
Proof.
  unfold NumericValuesEqual.
  destruct (NumericToRat a) as [x|], (NumericToRat b) as [y|];
    [|destruct (NumericToFloat a), (NumericToFloat b); try done; by rewrite f64_eqb_sym..].
  rewrite (Qcompare_sym x y). destruct (x ?= y)%Q; reflexivity.
Qed.
