(* ===== verification/Ops.v ===== *)
(** * Ops: opcodes and instructions

    The instruction set of the bytecode VM: the constants of type [Op] that
    src/internal/bytecode/bytecode.go numbers with [iota], and the packed
    [Instruction].  [Op] is a byte in the code, and a byte beyond the last
    constant is a value of the type too, so an instruction carries the byte;
    [op_of_code] reads it. *)

From S2P Require Import Prelude.
#[local] Open Scope Z_scope.

(** The opcodes, in the order of their declaration. *)
Inductive Op :=
| OpNoop
| OpConstant
| OpAdd
| OpSub
| OpMul
| OpDiv
| OpPop
| OpDup
| OpDefineGlobal
| OpGetGlobal
| OpSetGlobal
| OpPrintln
| OpPrint
| OpEqual
| OpLess
| OpGreater
| OpLessEqual
| OpGreaterEqual
| OpJump
| OpJumpIfFalse
| OpReturn
| OpNot
| OpNegate
| OpBoolXor
| OpIntDiv
| OpMod
| OpPow
| OpDefineLocal
| OpGetLocal
| OpSetLocal
| OpBuildList
| OpBuildDict
| OpBuildSet
| OpIndex
| OpSetIndex
| OpSlice
| OpIterInit
| OpIterNext
| OpUnpackList
| OpBuildRange
| OpExit
| OpCall
| OpTypeOf
| OpInstanceOf
| OpCast
| OpMethodCall
| OpRuntimeError
| OpDeferPrint
| OpDeferPrintln
| OpDeferNativeCall
| OpDeferFuncCall
| OpDeferMethodCall
| OpDeferCallableCall
| OpNativeCall
| OpDefineClass
| OpConstructClass
| OpGetField
| OpSetField
| OpCallParentConstructor
| OpCallParentMethod
| OpGetStaticValue
| OpSetStaticValue
| OpCallStaticMethod
| OpIdentical
| OpMakeError
| OpPushExceptionHandler
| OpPopExceptionHandler
| OpThrow
| OpCatch
| OpRethrow
| OpMethodCallNamed
| OpImportModule
| OpLoadModuleValue
| OpMakeClosure
| OpBitAnd
| OpBitOr
| OpBitXor
| OpBitNot
| OpLShift
| OpRShift
| OpNullCoalesce
| OpOptionalChain
| OpCallSpread
| OpListConcat
| OpNativeCallNamed
| OpAwait
| OpMatchError
| OpSetTypeBindings
| OpYield
| OpIterClose
| OpTypeAssert
| OpShallowFreeze
| OpMatchListShape
| OpAddInt
| OpSubInt
| OpMulInt
| OpModInt
| OpLessInt
| OpGreaterInt
| OpLessEqualInt
| OpGreaterEqualInt
| OpEqualInt
| OpIncLocalInt
| OpDecLocalInt
| OpIncGlobalInt
| OpDecGlobalInt
| OpAppendLocalList
| OpAppendGlobalList
| OpJumpIfNotLessInt
| OpJumpIfNotLessEqualInt
| OpJumpIfNotGreaterInt
| OpJumpIfNotGreaterEqualInt
| OpJumpIfNotEqualInt
| OpJumpIfEqualInt
| OpJumpIfModNotZero
| OpJumpIfModZero
| OpAddLocalIntLocal
| OpSubLocalIntLocal
| OpAddLocalIntConst
| OpSubLocalIntConst
| OpAddGlobalIntGlobal
| OpSubGlobalIntGlobal
| OpAddGlobalIntConst
| OpSubGlobalIntConst
| OpAddGlobalIntLocal
| OpSubGlobalIntLocal
| OpAddLocalIntGlobal
| OpSubLocalIntGlobal
| OpMethodCallSpread
| OpWithEnter
| OpWithExit
| OpDel
| OpPlantCallTypeBindings
| OpPlantCallTypeArgs
| OpRange
| OpAddString
| OpCallResolvedMethod
| OpAddStringConst
| OpAppendStringConst
| OpAppendGlobalStringConst
| OpAppendStringConstStmt
| OpAppendGlobalStringConstStmt
| OpTailCall
| OpDeferNativeCallNamed
| OpDeferMethodCallNamed
| OpDeferCallableCallNamed
| OpImportFrom
| OpFormatSpec
| OpDir
| OpDump
| OpSelect
| OpNativeValue
| OpFreezeLocal
| OpCheckUnpackLen
| OpContains
| OpNativeCallSpread
| OpConstructClassSpread
| OpCallStaticMethodSpread
| OpZRange
| OpMakeOverloaded
| OpDeferFuncCallSpread
| OpDeferMethodCallSpread
| OpDeferNativeCallSpread
| OpDeferCallableCallSpread
| OpDisplayString
| OpPlantIntLiteralArgs
| OpForRangeIter
| OpBindFunction
| OpJumpIfArgPresent
| OpStoreDefaultArg
| OpCheckFieldDefault.

(** The order in which [iota] numbers them. *)
Definition all_ops : list Op :=
  [OpNoop; OpConstant; OpAdd; OpSub; OpMul; OpDiv; OpPop; OpDup; OpDefineGlobal;
   OpGetGlobal; OpSetGlobal; OpPrintln; OpPrint; OpEqual; OpLess; OpGreater; OpLessEqual;
   OpGreaterEqual; OpJump; OpJumpIfFalse; OpReturn; OpNot; OpNegate; OpBoolXor; OpIntDiv;
   OpMod; OpPow; OpDefineLocal; OpGetLocal; OpSetLocal; OpBuildList; OpBuildDict;
   OpBuildSet; OpIndex; OpSetIndex; OpSlice; OpIterInit; OpIterNext; OpUnpackList;
   OpBuildRange; OpExit; OpCall; OpTypeOf; OpInstanceOf; OpCast; OpMethodCall;
   OpRuntimeError; OpDeferPrint; OpDeferPrintln; OpDeferNativeCall; OpDeferFuncCall;
   OpDeferMethodCall; OpDeferCallableCall; OpNativeCall; OpDefineClass; OpConstructClass;
   OpGetField; OpSetField; OpCallParentConstructor; OpCallParentMethod; OpGetStaticValue;
   OpSetStaticValue; OpCallStaticMethod; OpIdentical; OpMakeError; OpPushExceptionHandler;
   OpPopExceptionHandler; OpThrow; OpCatch; OpRethrow; OpMethodCallNamed; OpImportModule;
   OpLoadModuleValue; OpMakeClosure; OpBitAnd; OpBitOr; OpBitXor; OpBitNot; OpLShift;
   OpRShift; OpNullCoalesce; OpOptionalChain; OpCallSpread; OpListConcat; OpNativeCallNamed;
   OpAwait; OpMatchError; OpSetTypeBindings; OpYield; OpIterClose; OpTypeAssert;
   OpShallowFreeze; OpMatchListShape; OpAddInt; OpSubInt; OpMulInt; OpModInt; OpLessInt;
   OpGreaterInt; OpLessEqualInt; OpGreaterEqualInt; OpEqualInt; OpIncLocalInt;
   OpDecLocalInt; OpIncGlobalInt; OpDecGlobalInt; OpAppendLocalList; OpAppendGlobalList;
   OpJumpIfNotLessInt; OpJumpIfNotLessEqualInt; OpJumpIfNotGreaterInt;
   OpJumpIfNotGreaterEqualInt; OpJumpIfNotEqualInt; OpJumpIfEqualInt; OpJumpIfModNotZero;
   OpJumpIfModZero; OpAddLocalIntLocal; OpSubLocalIntLocal; OpAddLocalIntConst;
   OpSubLocalIntConst; OpAddGlobalIntGlobal; OpSubGlobalIntGlobal; OpAddGlobalIntConst;
   OpSubGlobalIntConst; OpAddGlobalIntLocal; OpSubGlobalIntLocal; OpAddLocalIntGlobal;
   OpSubLocalIntGlobal; OpMethodCallSpread; OpWithEnter; OpWithExit; OpDel;
   OpPlantCallTypeBindings; OpPlantCallTypeArgs; OpRange; OpAddString; OpCallResolvedMethod;
   OpAddStringConst; OpAppendStringConst; OpAppendGlobalStringConst;
   OpAppendStringConstStmt; OpAppendGlobalStringConstStmt; OpTailCall;
   OpDeferNativeCallNamed; OpDeferMethodCallNamed; OpDeferCallableCallNamed; OpImportFrom;
   OpFormatSpec; OpDir; OpDump; OpSelect; OpNativeValue; OpFreezeLocal; OpCheckUnpackLen;
   OpContains; OpNativeCallSpread; OpConstructClassSpread; OpCallStaticMethodSpread;
   OpZRange; OpMakeOverloaded; OpDeferFuncCallSpread; OpDeferMethodCallSpread;
   OpDeferNativeCallSpread; OpDeferCallableCallSpread; OpDisplayString;
   OpPlantIntLiteralArgs; OpForRangeIter; OpBindFunction; OpJumpIfArgPresent;
   OpStoreDefaultArg; OpCheckFieldDefault].

(** An opcode's number, and the opcode of a number. *)
Definition op_code (o : Op) : Z :=
  match o with
  | OpNoop => 0 | OpConstant => 1 | OpAdd => 2 | OpSub => 3 | OpMul => 4 | OpDiv => 5
  | OpPop => 6 | OpDup => 7 | OpDefineGlobal => 8 | OpGetGlobal => 9 | OpSetGlobal => 10
  | OpPrintln => 11 | OpPrint => 12 | OpEqual => 13 | OpLess => 14 | OpGreater => 15
  | OpLessEqual => 16 | OpGreaterEqual => 17 | OpJump => 18 | OpJumpIfFalse => 19
  | OpReturn => 20 | OpNot => 21 | OpNegate => 22 | OpBoolXor => 23 | OpIntDiv => 24
  | OpMod => 25 | OpPow => 26 | OpDefineLocal => 27 | OpGetLocal => 28 | OpSetLocal => 29
  | OpBuildList => 30 | OpBuildDict => 31 | OpBuildSet => 32 | OpIndex => 33
  | OpSetIndex => 34 | OpSlice => 35 | OpIterInit => 36 | OpIterNext => 37
  | OpUnpackList => 38 | OpBuildRange => 39 | OpExit => 40 | OpCall => 41 | OpTypeOf => 42
  | OpInstanceOf => 43 | OpCast => 44 | OpMethodCall => 45 | OpRuntimeError => 46
  | OpDeferPrint => 47 | OpDeferPrintln => 48 | OpDeferNativeCall => 49
  | OpDeferFuncCall => 50 | OpDeferMethodCall => 51 | OpDeferCallableCall => 52
  | OpNativeCall => 53 | OpDefineClass => 54 | OpConstructClass => 55 | OpGetField => 56
  | OpSetField => 57 | OpCallParentConstructor => 58 | OpCallParentMethod => 59
  | OpGetStaticValue => 60 | OpSetStaticValue => 61 | OpCallStaticMethod => 62
  | OpIdentical => 63 | OpMakeError => 64 | OpPushExceptionHandler => 65
  | OpPopExceptionHandler => 66 | OpThrow => 67 | OpCatch => 68 | OpRethrow => 69
  | OpMethodCallNamed => 70 | OpImportModule => 71 | OpLoadModuleValue => 72
  | OpMakeClosure => 73 | OpBitAnd => 74 | OpBitOr => 75 | OpBitXor => 76 | OpBitNot => 77
  | OpLShift => 78 | OpRShift => 79 | OpNullCoalesce => 80 | OpOptionalChain => 81
  | OpCallSpread => 82 | OpListConcat => 83 | OpNativeCallNamed => 84 | OpAwait => 85
  | OpMatchError => 86 | OpSetTypeBindings => 87 | OpYield => 88 | OpIterClose => 89
  | OpTypeAssert => 90 | OpShallowFreeze => 91 | OpMatchListShape => 92 | OpAddInt => 93
  | OpSubInt => 94 | OpMulInt => 95 | OpModInt => 96 | OpLessInt => 97 | OpGreaterInt => 98
  | OpLessEqualInt => 99 | OpGreaterEqualInt => 100 | OpEqualInt => 101
  | OpIncLocalInt => 102 | OpDecLocalInt => 103 | OpIncGlobalInt => 104
  | OpDecGlobalInt => 105 | OpAppendLocalList => 106 | OpAppendGlobalList => 107
  | OpJumpIfNotLessInt => 108 | OpJumpIfNotLessEqualInt => 109
  | OpJumpIfNotGreaterInt => 110 | OpJumpIfNotGreaterEqualInt => 111
  | OpJumpIfNotEqualInt => 112 | OpJumpIfEqualInt => 113 | OpJumpIfModNotZero => 114
  | OpJumpIfModZero => 115 | OpAddLocalIntLocal => 116 | OpSubLocalIntLocal => 117
  | OpAddLocalIntConst => 118 | OpSubLocalIntConst => 119 | OpAddGlobalIntGlobal => 120
  | OpSubGlobalIntGlobal => 121 | OpAddGlobalIntConst => 122 | OpSubGlobalIntConst => 123
  | OpAddGlobalIntLocal => 124 | OpSubGlobalIntLocal => 125 | OpAddLocalIntGlobal => 126
  | OpSubLocalIntGlobal => 127 | OpMethodCallSpread => 128 | OpWithEnter => 129
  | OpWithExit => 130 | OpDel => 131 | OpPlantCallTypeBindings => 132
  | OpPlantCallTypeArgs => 133 | OpRange => 134 | OpAddString => 135
  | OpCallResolvedMethod => 136 | OpAddStringConst => 137 | OpAppendStringConst => 138
  | OpAppendGlobalStringConst => 139 | OpAppendStringConstStmt => 140
  | OpAppendGlobalStringConstStmt => 141 | OpTailCall => 142
  | OpDeferNativeCallNamed => 143 | OpDeferMethodCallNamed => 144
  | OpDeferCallableCallNamed => 145 | OpImportFrom => 146 | OpFormatSpec => 147
  | OpDir => 148 | OpDump => 149 | OpSelect => 150 | OpNativeValue => 151
  | OpFreezeLocal => 152 | OpCheckUnpackLen => 153 | OpContains => 154
  | OpNativeCallSpread => 155 | OpConstructClassSpread => 156
  | OpCallStaticMethodSpread => 157 | OpZRange => 158 | OpMakeOverloaded => 159
  | OpDeferFuncCallSpread => 160 | OpDeferMethodCallSpread => 161
  | OpDeferNativeCallSpread => 162 | OpDeferCallableCallSpread => 163
  | OpDisplayString => 164 | OpPlantIntLiteralArgs => 165 | OpForRangeIter => 166
  | OpBindFunction => 167 | OpJumpIfArgPresent => 168 | OpStoreDefaultArg => 169
  | OpCheckFieldDefault => 170
  end.
Definition op_of_code (z : Z) : option Op := if z <? 0 then None else all_ops !! Z.to_nat z.

Lemma op_of_code_code (o : Op) : op_of_code (op_code o) = Some o.
Proof. destruct o; reflexivity. Qed.

(** Every opcode fits the byte it is stored in. *)
Lemma op_code_range (o : Op) : 0 <= op_code o < 256.
Proof. destruct o; simpl; lia. Qed.

Lemma op_code_inj (a b : Op) : op_code a = op_code b -> a = b.
Proof.
  intros H. assert (E : Some a = Some b) by (rewrite <- !op_of_code_code; congruence). congruence.
Qed.

#[global] Instance Op_eq_dec : EqDecision Op.
Proof.
  intros a b. destruct (decide (op_code a = op_code b)) as [H|H].
  - left. by apply op_code_inj.
  - right. congruence.
Defined.

(** [bytecode.Instruction]: the operands are [int64]s, [Column] a [uint16] and
    [Line] an [int32]. *)
Record Instruction := mkInstruction {
  Operands : list Z; op_byte : Z; Column : Z; Line : Z }.

#[global] Instance Instruction_eq_dec : EqDecision Instruction.
Proof. solve_decision. Defined.

(** [clampColumn] saturates a parser column into the [uint16] field. *)
Definition clampColumn (column : Z) : Z :=
  if column <? 0 then 0 else if 65535 <? column then 65535 else column mod 2 ^ 16.
