(* ===== verification/Machine.v ===== *)
(** * Machine: the VM's operand stack, local slots and globals

    The part of the VM's state (src/internal/bytecode/vm.go) that every opcode
    goes through: the operand stack with [push]/[pop], the locals buffer
    addressed from the current frame's base pointer, and the globals with the
    record of the slots a worker has written.  An operation is a function from
    the state to the new state and a result or error, so that what it changed
    before failing is kept, as in the code. *)

From S2P Require Import Prelude GoText Value.
#[local] Open Scope Z_scope.

(** ** Errors *)

(** [Plain] is an [fmt.Errorf] value and [Classified] a
    [runtime.ClassifiedError]; [RuntimeError], [Thrown] and [Fatal] are what
    [vm.runtimeError], [vm.typedFault] and [vm.fatalError] build (their stack
    traces are not modelled); [GoPanic] is a Go run-time panic. *)
Inductive VMError :=
| Plain (message : gostring)
| Classified (class message : gostring)
| RuntimeError (message : gostring)
| Thrown (class message : gostring)
| Fatal (message : gostring)
| GoPanic.

#[global] Instance VMError_eq_dec : EqDecision VMError.
Proof. solve_decision. Defined.

(** ** State *)

(** A slot holds a value, or a boxed pointer to a captured variable's cell
    ([BytecodeCell]) or to a string under construction ([StringAccumulator]). *)
Inductive Slot :=
| SVal (v : VMValue)
| SCell (p : Z)
| SAcc (p : Z).

(** A global is never captured in a cell. *)
Inductive GSlot :=
| GVal (v : VMValue)
| GAcc (p : Z).

(** The zero value of a slot: kind [VMKindUnset]. *)
Definition VMValueUnset : VMValue := mkVM VMKindUnset 0 None.
Definition slot_zero : Slot := SVal VMValueUnset.
Definition gslot_zero : GSlot := GVal VMValueUnset.

(** [stack] has its top first.  [curGlobals] always aliases [globals], so
    there is one list.  [cells] and [accs] are the heap objects slots point
    to; a cell without a value ([None]) is a variable not yet defined. *)
Record VM := mkState {
  stack : list VMValue;
  localsStack : list Slot;
  currentFrameBP : Z;
  globals : list GSlot;
  globalNames : list gostring;
  bridgeActive : bool;
  persistGlobals : bool;
  dirtyGlobals : list bool;
  dirtySlots : list Z;
  cells : gmap Z (option Value);
  accs : gmap Z gostring }.

Definition set_stack (s : list VMValue) (vm : VM) : VM :=
  mkState s (localsStack vm) (currentFrameBP vm) (globals vm) (globalNames vm)
    (bridgeActive vm) (persistGlobals vm) (dirtyGlobals vm) (dirtySlots vm) (cells vm) (accs vm).
Definition set_locals (l : list Slot) (vm : VM) : VM :=
  mkState (stack vm) l (currentFrameBP vm) (globals vm) (globalNames vm)
    (bridgeActive vm) (persistGlobals vm) (dirtyGlobals vm) (dirtySlots vm) (cells vm) (accs vm).
Definition set_globals (g : list GSlot) (vm : VM) : VM :=
  mkState (stack vm) (localsStack vm) (currentFrameBP vm) g (globalNames vm)
    (bridgeActive vm) (persistGlobals vm) (dirtyGlobals vm) (dirtySlots vm) (cells vm) (accs vm).
Definition set_dirty (d : list bool) (s : list Z) (vm : VM) : VM :=
  mkState (stack vm) (localsStack vm) (currentFrameBP vm) (globals vm) (globalNames vm)
    (bridgeActive vm) (persistGlobals vm) d s (cells vm) (accs vm).
Definition set_cells (c : gmap Z (option Value)) (vm : VM) : VM :=
  mkState (stack vm) (localsStack vm) (currentFrameBP vm) (globals vm) (globalNames vm)
    (bridgeActive vm) (persistGlobals vm) (dirtyGlobals vm) (dirtySlots vm) c (accs vm).

(** ** The monad of VM operations *)

Definition vmM (A : Type) : Type := VM -> VM * result VMError A.

Definition ret {A : Type} (a : A) : vmM A := fun vm => (vm, Ok a).
Definition fail {A : Type} (e : VMError) : vmM A := fun vm => (vm, Err e).
Definition bind {A B : Type} (m : vmM A) (k : A -> vmM B) : vmM B :=
  fun vm => match m vm with
            | (vm', Ok a) => k a vm'
            | (vm', Err e) => (vm', Err e)
            end.
Definition get : vmM VM := fun vm => (vm, Ok vm).
Definition modify (f : VM -> VM) : vmM unit := fun vm => (f vm, Ok tt).
Definition lift {A : Type} (r : result VMError A) : vmM A := fun vm => (vm, r).

Notation "'do' x <- m ; k" := (bind m (fun x => k))
  (at level 10, x pattern, m at level 100, k at level 200) : go_scope.
Notation "'do_' m ; k" := (bind m (fun _ => k))
  (at level 10, m at level 100, k at level 200) : go_scope.

(** [vm.callPropagate]: a thrown error keeps its class, a plain error becomes
    a runtime error. *)
Definition callPropagate (e : VMError) : VMError :=
  match e with
  | Plain m => RuntimeError m
  | Classified c m => Thrown c m
  | _ => e
  end.

(** [if err != nil { return vm.callPropagate(instruction, err) }]. *)
Definition propagate {A : Type} (m : vmM A) : vmM A :=
  fun vm => match m vm with
            | (vm', Ok a) => (vm', Ok a)
            | (vm', Err e) => (vm', Err (callPropagate e))
            end.

(** ** Operand stack *)

Definition pushVM (v : VMValue) : vmM unit := modify (fun vm => set_stack (v :: stack vm) vm).
Definition push (v : Value) : vmM unit := pushVM (VMValueFromValue v).

Definition popVM : vmM VMValue := fun vm =>
  match stack vm with
  | [] => (vm, Err (Plain (bs "stack underflow")))
  | v :: s => (set_stack s vm, Ok v)
  end.
Definition pop : vmM Value := do v <- popVM; ret (ToValue v).

Definition peekVM : vmM VMValue := fun vm =>
  match stack vm with
  | [] => (vm, Err (Plain (bs "stack underflow")))
  | v :: _ => (vm, Ok v)
  end.
Definition peek : vmM Value := do v <- peekVM; ret (ToValue v).

(** ** Indexed access with Go's bounds check *)

Definition zlookup {A : Type} (l : list A) (i : Z) : option A :=
  if i <? 0 then None else l !! Z.to_nat i.
Definition zinsert {A : Type} (i : Z) (x : A) (l : list A) : list A :=
  if i <? 0 then l else <[Z.to_nat i := x]> l.

(** [l[i]]: an index out of range panics. *)
Definition at_index {A : Type} (l : list A) (i : Z) : vmM A :=
  match zlookup l i with Some a => ret a | None => fail GoPanic end.

(** ** Locals *)

(** [vm.ensureLocalsStack]: new slots are zero. *)
Definition ensureLocalsStack (end_ : Z) (vm : VM) : VM :=
  let cur := zlen (localsStack vm) in
  if end_ <=? cur then vm
  else set_locals (localsStack vm ++ replicate (Z.to_nat (end_ - cur)) slot_zero) vm.

Definition ensureLocalSlot (slot : Z) : vmM unit := fun vm =>
  if slot <? 0 then (vm, Err (Plain (bs "local slot out of range")))
  else (ensureLocalsStack (currentFrameBP vm + slot + 1) vm, Ok tt).

Definition local_index (slot : Z) (vm : VM) : Z := currentFrameBP vm + slot.

(** The bounds check that every access to a local starts with. *)
Definition grow_local (slot : Z) : vmM unit :=
  do vm <- get;
  if zlen (localsStack vm) <=? local_index slot vm then ensureLocalSlot slot else ret tt.

Definition write_local (slot : Z) (s : Slot) : vmM unit :=
  do vm <- get;
  do_ at_index (localsStack vm) (local_index slot vm);
  modify (set_locals (zinsert (local_index slot vm) s (localsStack vm))).

(** What is stored: a value, or a cell that replaces the slot's content. *)
Inductive Stored := StoreValue (v : VMValue) | StoreCell (p : Z).

Definition slot_of_stored (v : Stored) : Slot :=
  match v with StoreValue w => SVal w | StoreCell p => SCell p end.

(** [vm.setLocalVM]: a plain value written to a captured variable goes into
    its cell, which closures share. *)
Definition setLocalVM (slot : Z) (value : Stored) : vmM unit :=
  do_ grow_local slot;
  do vm <- get;
  do cur <- at_index (localsStack vm) (local_index slot vm);
  match cur, value with
  | SCell p, StoreValue v => modify (fun vm => set_cells (<[p := Some (ToValue v)]> (cells vm)) vm)
  | _, _ => write_local slot (slot_of_stored value)
  end.

(** [vm.setLocal]. *)
Definition setLocal (slot : Z) (value : Value) : vmM unit :=
  do_ grow_local slot;
  do vm <- get;
  do cur <- at_index (localsStack vm) (local_index slot vm);
  match cur with
  | SCell p => modify (fun vm => set_cells (<[p := Some value]> (cells vm)) vm)
  | _ => write_local slot (SVal (VMValueFromValue value))
  end.

(** [vm.defineLocalVM]: a new binding replaces a cell. *)
Definition defineLocalVM (slot : Z) (value : Stored) : vmM unit :=
  do_ grow_local slot;
  write_local slot (slot_of_stored value).

(** A value that an accumulator has built so far ([Materialize]). *)
Definition Materialize (vm : VM) (p : Z) : VMValue :=
  VMValueFromValue (VString (default [] (accs vm !! p))).

(** [vm.getLocalVM]. *)
Definition getLocalVM (slot : Z) : vmM VMValue :=
  do_ grow_local slot;
  do vm <- get;
  do cur <- at_index (localsStack vm) (local_index slot vm);
  match cur with
  | SVal v =>
      if decide (Kind v = VMKindUnset) then fail (Plain (bs "local is undefined")) else ret v
  | SCell p =>
      match cells vm !! p with
      | Some (Some v) => ret (VMValueFromValue v)
      | _ => fail (Plain (bs "local is undefined"))
      end
  | SAcc p =>
      do_ write_local slot (SVal (Materialize vm p));
      ret (Materialize vm p)
  end.

(** [vm.getLocal]. *)
Definition getLocal (slot : Z) : vmM Value :=
  do_ grow_local slot;
  do vm <- get;
  do cur <- at_index (localsStack vm) (local_index slot vm);
  match cur with
  | SVal v =>
      if decide (Kind v = VMKindUnset) then fail (Plain (bs "local is undefined"))
      else ret (ToValue v)
  | SCell p =>
      match cells vm !! p with
      | Some (Some v) => ret v
      | _ => fail (Plain (bs "local is undefined"))
      end
  | SAcc p =>
      do_ write_local slot (SVal (Materialize vm p));
      ret (VString (default [] (accs vm !! p)))
  end.

(** ** Globals *)

(** The doubling loop of [ensureSlot]: the new length, or [None] when the
    length wraps round and the loop runs forever. *)
Fixpoint double_until (fuel : nat) (newLen target : Z) : option Z :=
  if target <=? newLen then Some newLen
  else match fuel with
       | O => None
       | S f => double_until f (wrap64 (newLen * 2)) target
       end.

(** [ensureSlot] on the globals. *)
Definition ensureSlot (slot : Z) : vmM unit := fun vm =>
  if slot <? 0 then (vm, Err (Plain (bs "global slot out of range")))
  else
    let target := wrap64 (slot + 1) in
    let n := zlen (globals vm) in
    if target <=? n then (vm, Ok tt)
    else match double_until 64 (if n =? 0 then 1 else n) target with
         | None => (vm, Err GoPanic)
         | Some newLen =>
             (set_globals (globals vm ++ replicate (Z.to_nat (newLen - n)) gslot_zero) vm, Ok tt)
         end.

Definition grow_global (slot : Z) : vmM unit :=
  do vm <- get;
  if zlen (globals vm) <=? slot then ensureSlot slot else ret tt.

Definition write_global (slot : Z) (s : GSlot) : vmM unit :=
  do vm <- get;
  do_ at_index (globals vm) slot;
  modify (set_globals (zinsert slot s (globals vm))).

(** [vm.markDirtySlot]. *)
Definition markDirtySlot (slot : Z) (vm : VM) : VM :=
  if default false (zlookup (dirtyGlobals vm) slot) then vm
  else set_dirty (zinsert slot true (dirtyGlobals vm)) (dirtySlots vm ++ [slot]) vm.

(** [vm.markGlobalDirtyLocked]. *)
Definition markGlobalDirtyLocked (slot : Z) (vm : VM) : VM :=
  if slot <? 0 then vm
  else if zlen (dirtyGlobals vm) <=? slot then
    let size := if zlen (globals vm) <=? slot then slot + 1 else zlen (globals vm) in
    let grown := dirtyGlobals vm
                 ++ replicate (Z.to_nat (size - zlen (dirtyGlobals vm))) false in
    markDirtySlot slot (set_dirty grown (dirtySlots vm) vm)
  else markDirtySlot slot vm.

(** [vm.setGlobal]. *)
Definition setGlobal (slot : Z) (value : Value) : vmM unit :=
  do_ grow_global slot;
  do vm <- get;
  if bridgeActive vm then
    do_ write_global slot (GVal (VMValueFromValue value));
    modify (markGlobalDirtyLocked slot)
  else write_global slot (GVal (VMValueFromValue value)).

(** The recording that a lock-free global write does for a loader worker. *)
Definition record_persist (slot : Z) (vm : VM) : VM :=
  if persistGlobals vm && (slot <? zlen (dirtyGlobals vm)) then markDirtySlot slot vm else vm.

(** [vm.setGlobalVM]. *)
Definition setGlobalVM (slot : Z) (value : VMValue) : vmM unit :=
  do_ grow_global slot;
  do vm <- get;
  if bridgeActive vm then
    do_ write_global slot (GVal value);
    modify (markGlobalDirtyLocked slot)
  else
    do_ write_global slot (GVal value);
    modify (record_persist slot).

(** [vm.undefinedGlobalError]: the name is an identifier, which [%q] puts
    between quotes unchanged. *)
Definition undefinedGlobalError (slot : Z) (vm : VM) : VMError :=
  match zlookup (globalNames vm) slot with
  | Some name =>
      if decide (name = []) then Plain (bs "global is undefined")
      else Plain ([Byte.x22] ++ name ++ [Byte.x22] ++ bs " is not declared")
  | None => Plain (bs "global is undefined")
  end.

(** [vm.getGlobalVM]. *)
Definition getGlobalVM (slot : Z) : vmM VMValue :=
  do_ grow_global slot;
  do vm <- get;
  do cur <- at_index (globals vm) slot;
  match cur with
  | GVal v =>
      if decide (Kind v = VMKindUnset) then fail (undefinedGlobalError slot vm) else ret v
  | GAcc p =>
      do_ write_global slot (GVal (Materialize vm p));
      ret (Materialize vm p)
  end.

(** [vm.getGlobal]. *)
Definition getGlobal (slot : Z) : vmM Value :=
  do_ grow_global slot;
  do vm <- get;
  do cur <- at_index (globals vm) slot;
  match cur with
  | GVal v =>
      if decide (Kind v = VMKindUnset) then fail (undefinedGlobalError slot vm)
      else ret (ToValue v)
  | GAcc p =>
      do_ write_global slot (GVal (Materialize vm p));
      ret (VString (default [] (accs vm !! p)))
  end.
