(* ===== verification/Arith.v ===== *)
(** * Arith: the VM's arithmetic

    The numeric opcodes of src/internal/bytecode/vm.go: the generic operators
    over [SmallInt], [Int], [Decimal] and [Float] operands, the fused integer
    opcodes with their fast paths and fallbacks, the self-updating slot
    opcodes, negation and the bitwise operators, and the comparisons of
    src/internal/native/math.go.  An [int64] operation is written with its
    wrap-around and its overflow test, and a big integer is a [Z]. *)

From Stdlib Require Import QArith Qround Qpower Qfield Lqa Floats.SpecFloat.
From S2P Require Import Prelude Float64 GoText Literal Value Ops Machine.
#[local] Open Scope Z_scope.

(** ** Integer operations with an [int64] fast path *)

(** [int64] addition, subtraction and multiplication: the wrapped result and
    the overflow tests of the code. *)
Definition add_overflow (l r : Z) : bool :=
  let v := wrap64 (l + r) in Z.land (Z.lxor l v) (Z.lxor r v) <? 0.
Definition sub_overflow (l r : Z) : bool :=
  let v := wrap64 (l - r) in Z.land (Z.lxor l r) (Z.lxor l v) <? 0.
Definition mul_overflow (l r : Z) : bool :=
  let v := wrap64 (l * r) in negb (l =? 0) && negb (go_div64 v l =? r).

(** [intToBigInt] and [native.IntValueToBigInt]. *)
Definition intToBigInt (v : Value) : option Z :=
  match v with
  | VSmallInt i => Some i
  | VInt i => Some i
  | _ => None
  end.

(** [addOrSubInt]. *)
Definition addOrSubInt (a b : Value) (subtract : bool) : result VMError Value :=
  match a, b with
  | VSmallInt al, VSmallInt bl =>
      if subtract then
        if sub_overflow al bl then Ok (VInt (al - bl)) else Ok (VSmallInt (wrap64 (al - bl)))
      else
        if add_overflow al bl then Ok (VInt (al + bl)) else Ok (VSmallInt (wrap64 (al + bl)))
  | _, _ =>
      match intToBigInt a with
      | None => Err (Plain (bs "int arithmetic expects int, got " ++ TypeName a))
      | Some x =>
          match intToBigInt b with
          | None => Err (Plain (bs "int arithmetic expects int, got " ++ TypeName b))
          | Some y =>
              let r := if subtract then x - y else x + y in
              if is_int64 r then Ok (VSmallInt r) else Ok (VInt r)
          end
      end
  end.

(** [intFloorDivMod]: truncating division corrected to floor division. *)
Definition intFloorDivMod (left right : Z) : Z * Z :=
  let quotient := Z.quot left right in
  let remainder := Z.rem left right in
  if negb (remainder =? 0) && xorb (left <? 0) (right <? 0)
  then (quotient - 1, remainder + right) else (quotient, remainder).

(** ** Rationals ([big.Rat], always reduced) *)

Definition rat_add (a b : Q) : Q := Qred (a + b).
Definition rat_sub (a b : Q) : Q := Qred (a - b).
Definition rat_mul (a b : Q) : Q := Qred (a * b).
Definition rat_quo (a b : Q) : Q := Qred (a / b).
Definition rat_sign (a : Q) : Z := Z.sgn (Qnum a).
Definition rat_is_int (a : Q) : bool := (Qden a =? 1)%positive.

(** [ratFloorInt]. *)
Definition ratFloorInt (value : Q) : Z :=
  let num := Qnum value in
  let denom := Zpos (Qden value) in
  let quotient := Z.quot num denom in
  if (rat_sign value <? 0) && negb (Z.rem num denom =? 0) then quotient - 1 else quotient.

(** The square-and-multiply loop of [decimalPow]; an [int64] exponent has at
    most 63 bits, so 64 rounds are enough. *)
Fixpoint decimalPow_loop (fuel : nat) (result factor : Q) (exp : Z) : Q :=
  match fuel with
  | O => result
  | S f =>
      if 0 <? exp then
        let result' := if Z.land exp 1 =? 1 then rat_mul result factor else result in
        decimalPow_loop f result' (rat_mul factor factor) (Z.shiftr exp 1)
      else result
  end.

Definition isNumericValue (v : Value) : bool :=
  match v with VSmallInt _ | VInt _ | VDecimal _ | VFloat _ => true | _ => false end.

(** [native.SmallIntToDecimal] and [native.IntToDecimal]. *)
Definition SmallIntToDecimal (i : Z) : Q := inject_Z i.
Definition IntToDecimal (i : Z) : Q := inject_Z i.

(** [intToFloatVal]. *)
Definition intToFloatVal (v : Value) : float64 := default f64_zero (NumericToFloat v).

(** [binaryOpSymbol]. *)
Definition binaryOpSymbol (op : Op) : gostring :=
  match op with
  | OpAdd => bs "+"
  | OpSub => bs "-"
  | OpMul => bs "*"
  | OpDiv => bs "/"
  | OpIntDiv => bs "//"
  | OpMod => bs "%"
  | OpPow => bs "**"
  | OpBitAnd => bs "&"
  | OpBitOr => bs "|"
  | OpBitXor => bs "^"
  | OpLShift => bs "<<"
  | OpRShift => bs ">>"
  | _ => bs "opcode " ++ FormatInt (op_code op)
  end.

(** [native.UnsupportedOperandsError]. *)
Definition UnsupportedOperandsError (operator leftType rightType : gostring) : VMError :=
  Classified (bs "TypeError")
    (bs "unsupported operands for " ++ operator ++ bs ": " ++ leftType ++ bs " and " ++ rightType).

(** [vm.decimalFloatArithError]. *)
Definition decimalFloatArithError (op : Op) (left right : Value) : VMError :=
  Thrown (bs "TypeError")
    (bs "cannot mix decimal and float in " ++ binaryOpSymbol op ++ bs " (got " ++ TypeName left
     ++ bs " and " ++ TypeName right
     ++ bs "): cast one side - 'as float' drops decimal exactness, 'as decimal' adopts the float's imprecision").

Definition unsupportedOperator (op : Op) (kind : gostring) : VMError :=
  RuntimeError (bs "unsupported operator " ++ binaryOpSymbol op ++ bs " for " ++ kind ++ bs " values").

Section Arith.
(** The library functions the decimal and float operators call:
    [math.Pow], [strconv.FormatFloat(f, 'g', -1, 64)] and
    [big.Rat.SetString]. *)
Variable math_Pow : float64 -> float64 -> float64.
Variable FormatFloat_g : float64 -> gostring.
Variable RatSetString : gostring -> option Q.

(** Operators of native value classes (complex numbers, arrays, data
    frames) and operator methods of user classes are other components: what
    they return is a parameter, when they are called is modelled. *)
Variable nativeBinary : gostring -> Value -> Value -> result VMError Value.
Variable nativeNegate : Value -> result VMError Value.
Variable instanceOperator : Op -> Value -> list Value -> option (vmM unit).

(** [native.BinaryOperatorValue]: [None] when neither operand is one of its
    classes. *)
Definition is_native_operand (v : Value) : bool :=
  match v with
  | VComplex _ _ | VNDArray _ | VDFSeries _ | VDFExpr _ => true
  | _ => false
  end.
Definition BinaryOperatorValue (op : gostring) (left right : Value)
    : option (result VMError Value) :=
  if is_native_operand left || is_native_operand right
  then Some (nativeBinary op left right) else None.

(** [native.UnaryMinusValue]. *)
Definition UnaryMinusValue (v : Value) : option (result VMError Value) :=
  match v with
  | VComplex _ _ | VNDArray _ | VDFSeries _ => Some (nativeNegate v)
  | _ => None
  end.

(** [vm.callBinaryOperatorMethod] and [vm.callPrefixOperatorMethod]: only an
    instance can handle the operator. *)
Definition callOperatorMethod (op : Op) (recv : Value) (args : list Value)
    : option (vmM unit) :=
  match recv with
  | VInstance _ _ => instanceOperator op recv args
  | _ => None
  end.

(** [decimalPow]. *)
Definition decimalPow (base exponent : Q) : result VMError Q :=
  if rat_is_int exponent then
    let num := Qnum exponent in
    if negb (is_int64 num) then Err (Plain (bs "decimal exponent is out of int64 range"))
    else if num =? 0 then Ok 1%Q
    else if num <? 0 then
      if rat_sign base =? 0
      then Err (Plain (bs "zero cannot be raised to a negative exponent"))
      else Ok (decimalPow_loop 64 1%Q (Qred (/ base)) (wrap64 (- num)))
    else Ok (decimalPow_loop 64 1%Q base num)
  else
    let r := math_Pow (f64_of_Q base) (f64_of_Q exponent) in
    if f64_is_nan r || f64_is_inf r
    then Err (Plain (bs "decimal exponent result is not finite"))
    else match ParseDecimalLiteral RatSetString (FormatFloat_g r) with
         | Some q => Ok q
         | None => Err (Plain (bs "invalid decimal literal"))
         end.

(** [vm.decimalBinary]: the value it pushes. *)
Definition decimalBinary (op : Op) (l r : Q) : result VMError Value :=
  match op with
  | OpAdd => Ok (VDecimal (rat_add l r))
  | OpSub => Ok (VDecimal (rat_sub l r))
  | OpMul => Ok (VDecimal (rat_mul l r))
  | OpDiv =>
      if rat_sign r =? 0 then Err (RuntimeError (bs "decimal division by zero"))
      else Ok (VDecimal (rat_quo l r))
  | OpIntDiv =>
      if rat_sign r =? 0 then Err (RuntimeError (bs "decimal integer division by zero"))
      else Ok (VDecimal (inject_Z (ratFloorInt (rat_quo l r))))
  | OpMod =>
      if rat_sign r =? 0 then Err (RuntimeError (bs "decimal modulo by zero"))
      else
        let quotient := rat_quo l r in
        let floor := inject_Z (ratFloorInt quotient) in
        let product := rat_mul floor r in
        Ok (VDecimal (rat_sub l product))
  | OpPow =>
      match decimalPow l r with
      | Ok q => Ok (VDecimal q)
      | Err e => Err (callPropagate e)
      end
  | _ => Err (unsupportedOperator op (bs "decimal"))
  end.

(** [vm.smallIntBinary]. *)
Definition smallIntBinary (op : Op) (l r : Z) : result VMError Value :=
  match op with
  | OpAdd => Ok (if add_overflow l r then VInt (l + r) else VSmallInt (wrap64 (l + r)))
  | OpSub => Ok (if sub_overflow l r then VInt (l - r) else VSmallInt (wrap64 (l - r)))
  | OpMul => Ok (if mul_overflow l r then VInt (l * r) else VSmallInt (wrap64 (l * r)))
  | OpDiv => decimalBinary OpDiv (SmallIntToDecimal l) (SmallIntToDecimal r)
  | OpIntDiv =>
      if r =? 0 then Err (RuntimeError (bs "integer division by zero"))
      else if (l =? min_int64) && (r =? -1) then Ok (VInt (- l))
      else
        let q := go_div64 l r in
        let rem := wrap64 (l - wrap64 (q * r)) in
        if negb (rem =? 0) && xorb (l <? 0) (r <? 0)
        then Ok (VSmallInt (wrap64 (q - 1))) else Ok (VSmallInt q)
  | OpMod =>
      if r =? 0 then Err (RuntimeError (bs "modulo by zero"))
      else
        let m := go_rem64 l r in
        if negb (m =? 0) && xorb (l <? 0) (r <? 0)
        then Ok (VSmallInt (wrap64 (m + r))) else Ok (VSmallInt m)
  | OpPow =>
      if r <? 0 then Err (RuntimeError (bs "exponent must be a non-negative int64"))
      else
        let result := l ^ r in
        if is_int64 result then Ok (VSmallInt result) else Ok (VInt result)
  | _ => Err (unsupportedOperator op (bs "int"))
  end.

(** [vm.intBinary]. *)
Definition intBinary (op : Op) (l r : Z) : result VMError Value :=
  match op with
  | OpAdd => Ok (VInt (l + r))
  | OpSub => Ok (VInt (l - r))
  | OpMul => Ok (VInt (l * r))
  | OpDiv => decimalBinary OpDiv (IntToDecimal l) (IntToDecimal r)
  | OpIntDiv =>
      if Z.sgn r =? 0 then Err (RuntimeError (bs "integer division by zero"))
      else Ok (VInt (fst (intFloorDivMod l r)))
  | OpMod =>
      if Z.sgn r =? 0 then Err (RuntimeError (bs "modulo by zero"))
      else Ok (VInt (snd (intFloorDivMod l r)))
  | OpPow =>
      if negb (is_int64 r) || (Z.sgn r <? 0)
      then Err (RuntimeError (bs "exponent must be a non-negative int64"))
      else Ok (VInt (l ^ r))
  | _ => Err (unsupportedOperator op (bs "int"))
  end.

(** [vm.floatBinary]. *)
Definition floatBinary (op : Op) (l r : float64) : result VMError Value :=
  match op with
  | OpAdd => Ok (VFloat (f64_add l r))
  | OpSub => Ok (VFloat (f64_sub l r))
  | OpMul => Ok (VFloat (f64_mul l r))
  | OpDiv => Ok (VFloat (f64_div l r))
  | OpIntDiv =>
      if f64_eqb r f64_zero then Err (RuntimeError (bs "float division by zero"))
      else Ok (VFloat (f64_floor (f64_div l r)))
  | OpMod =>
      if f64_eqb r f64_zero then Err (RuntimeError (bs "float modulo by zero"))
      else Ok (VFloat (f64_sub l (f64_mul (f64_floor (f64_div l r)) r)))
  | OpPow => Ok (VFloat (math_Pow l r))
  | _ => Err (unsupportedOperator op (bs "float"))
  end.

(** [vm.binaryNumericValues]: the value it pushes. *)
Definition binaryNumericValues (op : Op) (left right : Value) : result VMError Value :=
  match left, right with
  | VSmallInt l, VSmallInt r => smallIntBinary op l r
  | VSmallInt l, VInt r => intBinary op l r
  | VSmallInt l, VDecimal r => decimalBinary op (SmallIntToDecimal l) r
  | VSmallInt _, VFloat r => floatBinary op (intToFloatVal left) r
  | VDecimal l, VSmallInt r => decimalBinary op l (SmallIntToDecimal r)
  | VDecimal l, VInt r => decimalBinary op l (IntToDecimal r)
  | VDecimal l, VDecimal r => decimalBinary op l r
  | VDecimal _, VFloat _ => Err (decimalFloatArithError op left right)
  | VInt l, VSmallInt r => intBinary op l r
  | VInt l, VDecimal r => decimalBinary op (IntToDecimal l) r
  | VInt l, VInt r => intBinary op l r
  | VInt _, VFloat r => floatBinary op (intToFloatVal left) r
  | VFloat l, VFloat r => floatBinary op l r
  | VFloat l, VSmallInt _ => floatBinary op l (intToFloatVal right)
  | VFloat l, VInt _ => floatBinary op l (intToFloatVal right)
  | VFloat _, VDecimal _ => Err (decimalFloatArithError op left right)
  | _, _ =>
      if isNumericValue left && isNumericValue right
      then Err (decimalFloatArithError op left right)
      else match BinaryOperatorValue (binaryOpSymbol op) left right with
           | Some (Ok v) => Ok v
           | Some (Err e) => Err (callPropagate e)
           | None => Err (callPropagate (UnsupportedOperandsError (binaryOpSymbol op)
                                           (TypeName left) (TypeName right)))
           end
  end.

Definition push_result (r : result VMError Value) : vmM unit :=
  do v <- lift r; push v.

(** [vm.binaryNumeric]. *)
Definition binaryNumeric (op : Op) : vmM unit :=
  do rhs <- propagate popVM;
  do lhs <- propagate popVM;
  if decide (Kind lhs = VMKindSmallInt /\ Kind rhs = VMKindSmallInt) then
    push_result (smallIntBinary op (I64 lhs) (I64 rhs))
  else if decide (Kind lhs = VMKindFloat /\ Kind rhs = VMKindFloat) then
    push_result (floatBinary op (default f64_zero (AsFloat lhs))
                   (default f64_zero (AsFloat rhs)))
  else
    let leftV := ToValue lhs in
    let rightV := ToValue rhs in
    match callOperatorMethod op leftV [rightV] with
    | Some m => m
    | None => push_result (binaryNumericValues op leftV rightV)
    end.

(** [vm.add]. *)
Definition add : vmM unit :=
  do rhs <- propagate popVM;
  do lhs <- propagate popVM;
  if decide (Kind lhs = VMKindSmallInt /\ Kind rhs = VMKindSmallInt) then
    let result := wrap64 (I64 lhs + I64 rhs) in
    if 0 <=? Z.land (Z.lxor (I64 lhs) result) (Z.lxor (I64 rhs) result)
    then pushVM (VMValueSmallInt result)
    else pushVM (mkVM VMKindBoxed 0 (Some (VInt (I64 lhs + I64 rhs))))
  else if decide (Kind lhs = VMKindFloat /\ Kind rhs = VMKindFloat) then
    pushVM (VMValueFloat (f64_add (default f64_zero (AsFloat lhs))
                            (default f64_zero (AsFloat rhs))))
  else
    let leftV := ToValue lhs in
    let rightV := ToValue rhs in
    match leftV, rightV with
    | VString l, VString r => push (VString (l ++ r))
    | _, _ =>
        match callOperatorMethod OpAdd leftV [rightV] with
        | Some m => m
        | None =>
            match leftV with
            | VString _ =>
                fail (callPropagate (UnsupportedOperandsError (bs "+") (TypeName leftV)
                                       (TypeName rightV)))
            | _ => push_result (binaryNumericValues OpAdd leftV rightV)
            end
        end
    end.

(** The generic opcode that a fused integer opcode falls back to. *)
Definition genericOp (op : Op) : Op :=
  match op with
  | OpAddInt => OpAdd
  | OpSubInt => OpSub
  | OpMulInt => OpMul
  | OpModInt => OpMod
  | _ => op
  end.

(** The fast path of [OpAddInt], [OpSubInt], [OpMulInt] and [OpModInt] on two
    small integers. *)
Definition fusedSmallInt (op : Op) (li ri : Z) : result VMError VMValue :=
  match op with
  | OpAddInt =>
      Ok (if add_overflow li ri then VMValueFromValue (VInt (li + ri))
          else VMValueSmallInt (wrap64 (li + ri)))
  | OpSubInt =>
      Ok (if sub_overflow li ri then VMValueFromValue (VInt (li - ri))
          else VMValueSmallInt (wrap64 (li - ri)))
  | OpMulInt =>
      Ok (if mul_overflow li ri then VMValueFromValue (VInt (li * ri))
          else VMValueSmallInt (wrap64 (li * ri)))
  | OpModInt =>
      if ri =? 0 then Err (RuntimeError (bs "modulo by zero"))
      else
        let v := go_rem64 li ri in
        Ok (VMValueSmallInt (if negb (v =? 0) && xorb (li <? 0) (ri <? 0)
                             then wrap64 (v + ri) else v))
  | _ => Ok (mkVM VMKindUnset 0 None)
  end.

(** The dispatch of the fused integer opcodes. *)
Definition fusedIntBinary (op : Op) : vmM unit := fun vm =>
  match stack vm with
  | rightVM :: leftVM :: rest =>
      if decide (Kind leftVM = VMKindSmallInt /\ Kind rightVM = VMKindSmallInt) then
        match fusedSmallInt op (I64 leftVM) (I64 rightVM) with
        | Ok v => (set_stack (v :: rest) vm, Ok tt)
        | Err e => (vm, Err e)
        end
      else
        let lhs := ToValue leftVM in
        let rhs := ToValue rightVM in
        (match callOperatorMethod (genericOp op) lhs [rhs] with
         | Some m => m
         | None => push_result (binaryNumericValues (genericOp op) lhs rhs)
         end) (set_stack rest vm)
  | _ => (vm, Err (Fatal (bs "stack underflow")))
  end.

(** [vm.boolXor]. *)
Definition boolXor : vmM unit :=
  do rhs <- propagate pop;
  do lhs <- propagate pop;
  match lhs with
  | VBool l =>
      match rhs with
      | VBool r => push (VBool (negb (Bool.eqb l r)))
      | _ => fail (Thrown (bs "TypeError") (bs "right operand must be bool"))
      end
  | _ => fail (Thrown (bs "TypeError") (bs "left operand must be bool"))
  end.

(** [vm.not]. *)
Definition not : vmM unit :=
  do value <- propagate pop;
  match callOperatorMethod OpNot value [] with
  | Some m => m
  | None =>
      match value with
      | VBool b => push (VBool (negb b))
      | _ => fail (Thrown (bs "TypeError") (bs "! expects bool, got " ++ TypeName value))
      end
  end.

(** [vm.negate]: the value it pushes, and the operation. *)
Definition negate_value (value : Value) : result VMError Value :=
  match value with
  | VSmallInt i => Ok (if i =? min_int64 then VInt (- i) else VSmallInt (wrap64 (- i)))
  | VInt i => Ok (VInt (- i))
  | VDecimal q => Ok (VDecimal (Qopp q))
  | VFloat f => Ok (VFloat (f64_neg f))
  | _ =>
      match UnaryMinusValue value with
      | Some (Ok v) => Ok v
      | Some (Err e) => Err (callPropagate e)
      | None => Err (Thrown (bs "TypeError") (bs "- expects numeric value, got " ++ TypeName value))
      end
  end.
Definition negate : vmM unit :=
  do value <- propagate pop;
  match callOperatorMethod OpNegate value [] with
  | Some m => m
  | None => push_result (negate_value value)
  end.

(** [vm.bitwiseInfix]: the shift amounts must fit a [uint]. *)
Definition is_uint64 (z : Z) : bool := (0 <=? z) && (z <? 2 ^ 64).
Definition int_value (z : Z) : Value := if is_int64 z then VSmallInt z else VInt z.
Definition bitwise_value (op : Op) (lhs rhs : Value) : result VMError Value :=
  match intToBigInt lhs, intToBigInt rhs with
  | Some lb, Some rb =>
      let shift_error :=
        Thrown (bs "ValueError")
          (bs "shift amount must be a non-negative int, got " ++ FormatInt rb) in
      match op with
      | OpBitAnd => Ok (int_value (Z.land lb rb))
      | OpBitOr => Ok (int_value (Z.lor lb rb))
      | OpBitXor => Ok (int_value (Z.lxor lb rb))
      | OpLShift => if is_uint64 rb then Ok (int_value (Z.shiftl lb rb)) else Err shift_error
      | OpRShift => if is_uint64 rb then Ok (int_value (Z.shiftr lb rb)) else Err shift_error
      | _ => Err GoPanic
      end
  | _, _ => Err (callPropagate (UnsupportedOperandsError (binaryOpSymbol op)
                                  (TypeName lhs) (TypeName rhs)))
  end.
Definition bitwiseInfix (op : Op) : vmM unit :=
  do rhs <- propagate pop;
  do lhs <- propagate pop;
  match callOperatorMethod op lhs [rhs] with
  | Some m => m
  | None => push_result (bitwise_value op lhs rhs)
  end.

(** [vm.bitwiseNot]. *)
Definition bitwiseNot : vmM unit :=
  do value <- propagate pop;
  match callOperatorMethod OpBitNot value [] with
  | Some m => m
  | None =>
      match intToBigInt value with
      | Some z => push (int_value (Z.lnot z))
      | None => fail (Thrown (bs "TypeError") (bs "~ expects int, got " ++ TypeName value))
      end
  end.
End Arith.

(** ** Overflow tests *)

(** Wrapping moves by a multiple of 2^64. *)
Lemma wrap64_congr (z : Z) : exists k, wrap64 z = z + k * 2 ^ 64.
Proof.
  exists (- ((z + 2 ^ 63) / 2 ^ 64)). unfold wrap64.
  pose proof (Z.div_mod (z + 2 ^ 63) (2 ^ 64) ltac:(lia)). lia.
Qed.

Ltac int64_range :=
  repeat match goal with
    | H : is_int64 _ = true |- _ => apply is_int64_iff in H
    end.

(** The sign tests detect exactly the sums and differences that leave the
    range. *)
Lemma add_overflow_spec (l r : Z) :
  is_int64 l = true -> is_int64 r = true ->
  add_overflow l r = negb (is_int64 (l + r)).
Proof.
  intros Hl Hr. int64_range. unfold add_overflow.
  assert (Hv : exists v, wrap64 (l + r) = v /\
    ((v = l + r /\ is_int64 (l + r) = true) \/
     ((v = l + r - 2 ^ 64 /\ 2 ^ 63 <= l + r) \/ (v = l + r + 2 ^ 64 /\ l + r < - 2 ^ 63)))).
  { eexists. split; [reflexivity|].
    destruct (is_int64 (l + r)) eqn:E; [left; split; [by apply wrap64_id|done]|right].
    destruct (Z.lt_ge_cases (l + r) 0).
    - right. assert (l + r < - 2 ^ 63) by (unfold_int64; lia).
      split; [apply wrap64_under|]; lia.
    - left. assert (2 ^ 63 <= l + r) by (unfold_int64; lia).
      split; [apply wrap64_over|]; lia. }
  destruct Hv as (v & -> & [[-> Hin]|Hout]).
  - rewrite Hin. apply Z.ltb_ge. pose proof (land_lxor_neg l (l + r) r (l + r)). lia.
  - replace (is_int64 (l + r)) with false by (symmetry; unfold_int64; lia).
    apply Z.ltb_lt, land_lxor_neg. lia.
Qed.

Lemma sub_overflow_spec (l r : Z) :
  is_int64 l = true -> is_int64 r = true ->
  sub_overflow l r = negb (is_int64 (l - r)).
Proof.
  intros Hl Hr. int64_range. unfold sub_overflow.
  assert (Hv : exists v, wrap64 (l - r) = v /\
    ((v = l - r /\ is_int64 (l - r) = true) \/
     ((v = l - r - 2 ^ 64 /\ 2 ^ 63 <= l - r) \/ (v = l - r + 2 ^ 64 /\ l - r < - 2 ^ 63)))).
  { eexists. split; [reflexivity|].
    destruct (is_int64 (l - r)) eqn:E; [left; split; [by apply wrap64_id|done]|right].
    destruct (Z.lt_ge_cases (l - r) 0).
    - right. assert (l - r < - 2 ^ 63) by (unfold_int64; lia).
      split; [apply wrap64_under|]; lia.
    - left. assert (2 ^ 63 <= l - r) by (unfold_int64; lia).
      split; [apply wrap64_over|]; lia. }
  destruct Hv as (v & -> & [[-> Hin]|Hout]).
  - rewrite Hin. apply Z.ltb_ge. pose proof (land_lxor_neg l r l (l - r)). lia.
  - replace (is_int64 (l - r)) with false by (symmetry; unfold_int64; lia).
    apply Z.ltb_lt, land_lxor_neg. lia.
Qed.

(** The division test detects every product that leaves the range but one:
    dividing the wrapped product of -1 and [min_int64] by -1 wraps again. *)
Lemma mul_overflow_spec (l r : Z) :
  is_int64 l = true -> is_int64 r = true -> (l, r) <> (-1, min_int64) ->
  mul_overflow l r = negb (is_int64 (l * r)).
Proof.
  intros Hl Hr Hne. unfold mul_overflow.
  destruct (Z.eqb_spec l 0) as [->|Hl0]; [reflexivity|]. cbn [negb andb]. f_equal.
  destruct (is_int64 (l * r)) eqn:E.
  - rewrite wrap64_id by done. apply Z.eqb_eq. unfold go_div64.
    rewrite Z.mul_comm, Z.quot_mul by done. by apply wrap64_id.
  - apply Z.eqb_neq. intros Hq.
    destruct (wrap64_congr (l * r)) as [k Hk].
    pose proof (wrap64_range (l * r)) as Hv. set (v := wrap64 (l * r)) in *.
    assert (Hd : Z.quot v l = r \/ (l = -1 /\ r = min_int64)).
    { unfold go_div64 in Hq. destruct (is_int64 (Z.quot v l)) eqn:Eq.
      - left. by rewrite wrap64_id in Hq.
      - right. assert (l = -1 /\ v = min_int64) as [-> ->].
        { int64_range. unfold_int64.
          assert (l = -1 \/ l <> -1) as [->|Hl1] by lia.
          - split; [done|]. change (-1) with (- (1)) in Eq.
            rewrite Z.quot_opp_r, Z.quot_1_r in Eq by lia. lia.
          - exfalso. pose proof (Z.quot_abs v l Hl0).
            assert (Z.abs v ÷ Z.abs l <= 2 ^ 63 - 1); [|lia].
            destruct (Z.eq_dec (Z.abs l) 1).
            + assert (l = 1) as -> by lia. rewrite Z.quot_1_r in Eq. lia.
            + rewrite Z.quot_div_nonneg by lia.
              apply Z.lt_succ_r, Z.div_lt_upper_bound; nia. }
        split; [done|]. rewrite <- Hq. reflexivity. }
    destruct Hd as [Hd|[-> ->]]; [|done].
    pose proof (Z.quot_rem v l Hl0) as Hqr. pose proof (Z.rem_bound_abs v l Hl0).
    rewrite Hd in Hqr. int64_range.
    assert (k = 0) by (unfold_int64; nia). subst k.
    rewrite Z.mul_0_l, Z.add_0_r in Hk. rewrite <- Hk in E. apply is_int64_iff in Hv. congruence.
Qed.

(** ** Floor division *)

(** A truncated quotient and remainder, corrected when the signs differ, are
    the floor quotient and remainder. *)
Lemma floor_correction (l r : Z) :
  r <> 0 ->
  (if negb (Z.rem l r =? 0) && xorb (l <? 0) (r <? 0)
   then Z.quot l r - 1 = l / r /\ Z.rem l r + r = l mod r
   else Z.quot l r = l / r /\ Z.rem l r = l mod r).
Proof.
  intros Hr. pose proof (Z.quot_rem l r Hr) as Hqr.
  pose proof (Z.rem_bound_abs l r Hr) as Hb.
  pose proof (Z.rem_sign_nz l r Hr) as Hsg.
  assert (Hs : Z.rem l r <> 0 -> (Z.rem l r < 0 <-> l < 0)).
  { intros Hn. specialize (Hsg Hn). clear - Hsg Hn. generalize dependent (Z.rem l r).
    intros m Hsg Hn. destruct l, m; simpl in Hsg; lia. }
  destruct (Z.eqb_spec (Z.rem l r) 0) as [E|E]; cbn [negb andb].
  - rewrite E in Hqr. split.
    + apply (Z.div_unique l r _ 0); lia.
    + rewrite E. apply (Z.mod_unique l r (Z.quot l r)); lia.
  - specialize (Hs E).
    destruct (Z.ltb_spec l 0), (Z.ltb_spec r 0); cbn [xorb];
      (split; [eapply Z.div_unique | eapply Z.mod_unique]);
      first [ instantiate (1 := Z.rem l r + r); lia
            | instantiate (1 := Z.rem l r); lia
            | instantiate (1 := Z.quot l r - 1); lia
            | instantiate (1 := Z.quot l r); lia
            | lia ].
Qed.

Lemma intFloorDivMod_spec (l r : Z) : r <> 0 -> intFloorDivMod l r = (l / r, l mod r).
Proof.
  intros Hr. pose proof (floor_correction l r Hr) as H. unfold intFloorDivMod.
  destruct (negb (Z.rem l r =? 0) && xorb (l <? 0) (r <? 0)); destruct H as [-> ->]; done.
Qed.

Lemma rem_int64 (l r : Z) : is_int64 r = true -> r <> 0 -> is_int64 (Z.rem l r) = true.
Proof. intros H Hr. pose proof (Z.rem_bound_abs l r Hr). int64_range. apply is_int64_iff. lia. Qed.

Lemma mod_int64 (l r : Z) : is_int64 r = true -> r <> 0 -> is_int64 (l mod r) = true.
Proof.
  intros H Hr. int64_range. apply is_int64_iff.
  destruct (Z.lt_ge_cases 0 r); [pose proof (Z.mod_pos_bound l r)|pose proof (Z.mod_neg_bound l r)]; lia.
Qed.

Lemma quot_int64 (l r : Z) :
  is_int64 l = true -> is_int64 r = true -> r <> 0 -> (l, r) <> (min_int64, -1) ->
  is_int64 (Z.quot l r) = true.
Proof.
  intros Hl Hr Hr0 Hne. int64_range. apply is_int64_iff.
  destruct (Z.eq_dec r (-1)) as [->|]; [|destruct (Z.eq_dec r 1) as [->|]].
  - change (-1) with (- (1)). rewrite Z.quot_opp_r, Z.quot_1_r by lia.
    assert (l <> min_int64) by congruence. unfold_int64. lia.
  - rewrite Z.quot_1_r. lia.
  - pose proof (Z.quot_abs l r Hr0). rewrite Z.quot_div_nonneg in H by lia.
    assert (Z.abs l / Z.abs r <= 2 ^ 62); [|lia].
    apply Z.lt_succ_r, Z.div_lt_upper_bound; nia.
Qed.

Lemma div_int64 (l r : Z) :
  is_int64 l = true -> is_int64 r = true -> r <> 0 -> (l, r) <> (min_int64, -1) ->
  is_int64 (l / r) = true.
Proof.
  intros Hl Hr Hr0 Hne. int64_range. apply is_int64_iff.
  assert (r = -1 \/ r = 1 \/ r < -1 \/ 1 < r) as [->|[->|[H|H]]] by lia.
  - change (-1) with (- (1)). rewrite Z.div_opp_r_z by (rewrite ?Z.mod_1_r; lia).
    rewrite Z.div_1_r. assert (l <> min_int64) by congruence. unfold_int64. lia.
  - rewrite Z.div_1_r. lia.
  - pose proof (Z.div_mod l r). pose proof (Z.mod_neg_bound l r). nia.
  - pose proof (Z.div_mod l r). pose proof (Z.mod_pos_bound l r). nia.
Qed.

(** The branches of [smallIntBinary] for the two division operators. *)
Lemma small_div_spec (l r : Z) :
  is_int64 l = true -> is_int64 r = true -> r <> 0 -> (l, r) <> (min_int64, -1) ->
  let q := go_div64 l r in
  let rem := wrap64 (l - wrap64 (q * r)) in
  (if negb (rem =? 0) && xorb (l <? 0) (r <? 0) then wrap64 (q - 1) else q) = l / r.
Proof.
  intros Hl Hr Hr0 Hne. cbn zeta. unfold go_div64.
  rewrite (wrap64_id (Z.quot l r)) by (by apply quot_int64).
  pose proof (Z.quot_rem l r Hr0) as Hqr.
  pose proof (rem_int64 l r Hr Hr0) as Hrem.
  assert (Hw : wrap64 (l - wrap64 (Z.quot l r * r)) = Z.rem l r).
  { destruct (wrap64_congr (Z.quot l r * r)) as [k ->].
    replace (l - (Z.quot l r * r + k * 2 ^ 64)) with (Z.rem l r + (- k) * 2 ^ 64) by lia.
    rewrite <- wrap64_mod, Z.mod_add by lia. rewrite wrap64_mod. by apply wrap64_id. }
  rewrite Hw. pose proof (floor_correction l r Hr0) as H.
  pose proof (div_int64 l r Hl Hr Hr0 Hne).
  destruct (negb (Z.rem l r =? 0) && xorb (l <? 0) (r <? 0)); destruct H as [-> _]; [|done].
  by apply wrap64_id.
Qed.

Lemma small_mod_spec (l r : Z) :
  is_int64 l = true -> is_int64 r = true -> r <> 0 ->
  let m := go_rem64 l r in
  (if negb (m =? 0) && xorb (l <? 0) (r <? 0) then wrap64 (m + r) else m) = l mod r.
Proof.
  intros Hl Hr Hr0. cbn zeta. unfold go_rem64.
  rewrite (wrap64_id (Z.rem l r)) by (by apply rem_int64).
  pose proof (floor_correction l r Hr0) as H. pose proof (mod_int64 l r Hr Hr0).
  destruct (negb (Z.rem l r =? 0) && xorb (l <? 0) (r <? 0)); destruct H as [_ ->]; [|done].
  by apply wrap64_id.
Qed.

(** ** Integer operators are exact *)

(** What an integer operator means: floor division and its remainder, and
    powers with a non-negative [int64] exponent; [None] where the operator
    fails. *)
Definition int_spec (op : Op) (l r : Z) : option Z :=
  match op with
  | OpAdd => Some (l + r)
  | OpSub => Some (l - r)
  | OpMul => Some (l * r)
  | OpIntDiv => if r =? 0 then None else Some (l / r)
  | OpMod => if r =? 0 then None else Some (l mod r)
  | OpPow => if (r <? 0) || negb (is_int64 r) then None else Some (l ^ r)
  | _ => None
  end.

(** [v] is an integer value, in either representation, denoting [z]. *)
Definition int_result (r : result VMError Value) (z : Z) : Prop :=
  exists v, r = Ok v /\ intToBigInt v = Some z /\ value_wf v = true.

Lemma int_result_big (z : Z) : int_result (Ok (VInt z)) z.
Proof. by exists (VInt z). Qed.

Lemma int_result_small (z : Z) : is_int64 z = true -> int_result (Ok (VSmallInt z)) z.
Proof. intros H. by exists (VSmallInt z). Qed.

(** A small result when it fits, a big one when the overflow test fires. *)
Lemma int_result_checked (ov : bool) (z : Z) :
  ov = negb (is_int64 z) ->
  int_result (Ok (if ov then VInt z else VSmallInt (wrap64 z))) z.
Proof.
  intros ->. destruct (is_int64 z) eqn:E; cbn [negb].
  - rewrite wrap64_id by done. by apply int_result_small.
  - apply int_result_big.
Qed.

Lemma smallIntBinary_exact mp ff rs (op : Op) (l r z : Z) :
  is_int64 l = true -> is_int64 r = true -> int_spec op l r = Some z ->
  ~ (op = OpMul /\ l = -1 /\ r = min_int64) ->
  int_result (smallIntBinary mp ff rs op l r) z.
Proof.
  intros Hl Hr Hs Hne. destruct op; try discriminate; simpl in Hs; simpl smallIntBinary.
  - injection Hs as <-. apply int_result_checked. by apply add_overflow_spec.
  - injection Hs as <-. apply int_result_checked. by apply sub_overflow_spec.
  - injection Hs as <-. apply int_result_checked. apply mul_overflow_spec; [done..|].
    intros [= -> ->]. by apply Hne.
  - destruct (Z.eqb_spec r 0); [done|]. injection Hs as <-.
    destruct ((l =? min_int64) && (r =? -1)) eqn:E.
    + assert (l = min_int64 /\ r = -1) as [-> ->] by lia.
      change (min_int64 / -1) with (- min_int64). apply int_result_big.
    + rewrite <- (small_div_spec l r) at 1; [|done..|intros [= -> ->]; discriminate].
      assert (H : is_int64 (l / r) = true) by (apply div_int64; [done..|intros [= -> ->]; discriminate]).
      rewrite <- (small_div_spec l r) in H; [|done..|intros [= -> ->]; discriminate].
      cbn zeta in *. destruct (negb _ && xorb _ _); by apply int_result_small.
  - destruct (Z.eqb_spec r 0); [done|]. injection Hs as <-.
    pose proof (mod_int64 l r Hr n) as H.
    rewrite <- (small_mod_spec l r) in H |- * by done.
    cbn zeta in *. destruct (negb _ && xorb _ _); by apply int_result_small.
  - destruct (r <? 0); [done|]. rewrite Hr in Hs. injection Hs as <-.
    destruct (is_int64 (l ^ r)) eqn:E; [by apply int_result_small|apply int_result_big].
Qed.

Lemma intBinary_exact mp ff rs (op : Op) (l r z : Z) :
  int_spec op l r = Some z -> int_result (intBinary mp ff rs op l r) z.
Proof.
  intros Hs. destruct op; try discriminate; simpl in Hs; simpl intBinary.
  1-3: injection Hs as <-; apply int_result_big.
  - destruct (Z.eqb_spec r 0) as [|Hr]; [done|]. injection Hs as <-.
    rewrite intFloorDivMod_spec by done. destruct (Z.eqb_spec (Z.sgn r) 0); [lia|].
    apply int_result_big.
  - destruct (Z.eqb_spec r 0) as [|Hr]; [done|]. injection Hs as <-.
    rewrite intFloorDivMod_spec by done. destruct (Z.eqb_spec (Z.sgn r) 0); [lia|].
    apply int_result_big.
  - destruct (Z.ltb_spec r 0), (is_int64 r); try done. injection Hs as <-.
    destruct (Z.ltb_spec (Z.sgn r) 0); [lia|]. apply int_result_big.
Qed.

(** C10: on two integers, in any mix of the small and the big representation,
    every operator that succeeds pushes an integer that denotes the exact
    mathematical result: sums, differences, products and powers never lose a
    bit to overflow, [//] and [%] are floor division and its remainder, and a
    small result really is an [int64].  The one exception is the product of
    the small integers -1 and -2^63. *)
Theorem int_operators_exact mp ff rs nb (op : Op) (lhs rhs : Value) (l r z : Z) :
  value_wf lhs = true -> value_wf rhs = true ->
  intToBigInt lhs = Some l -> intToBigInt rhs = Some r ->
  int_spec op l r = Some z ->
  ~ (op = OpMul /\ lhs = VSmallInt (-1) /\ rhs = VSmallInt min_int64) ->
  exists v, binaryNumericValues mp ff rs nb op lhs rhs = Ok v
            /\ intToBigInt v = Some z /\ value_wf v = true.
Proof.
  intros Hl Hr Il Ir Hs Hne.
  destruct lhs; try discriminate Il; destruct rhs; try discriminate Ir;
    injection Il as ->; injection Ir as ->; cbn [binaryNumericValues];
    try (by apply intBinary_exact).
  apply smallIntBinary_exact; [done..|]. intros (-> & -> & ->). by apply Hne.
Qed.

Lemma int_operators_exact_witness :
  int_spec OpIntDiv (-7) 2 = Some (-4) /\
  exists v, binaryNumericValues (fun a _ => a) (fun _ => []) (fun _ => None)
              (fun _ a _ => Ok a) OpIntDiv (VSmallInt (-7)) (VInt 2) = Ok v
            /\ intToBigInt v = Some (-4) /\ value_wf v = true.
Proof.
  split; [reflexivity|].
  apply (int_operators_exact _ _ _ _ OpIntDiv (VSmallInt (-7)) (VInt 2) (-7) 2 (-4));
    try reflexivity. intros [H _]. discriminate H.
Defined.

(** The exception is real: the overflow test of the small product divides
    the wrapped product by -1, which wraps back, so [-1 * (-2^63)] pushes the
    small integer -2^63; with a big operand the same product is exact. *)
Theorem small_product_wraps mp ff rs nb :
  binaryNumericValues mp ff rs nb OpMul (VSmallInt (-1)) (VSmallInt min_int64)
    = Ok (VSmallInt min_int64) /\
  binaryNumericValues mp ff rs nb OpMul (VInt (-1)) (VSmallInt min_int64)
    = Ok (VInt (2 ^ 63)) /\
  binaryNumericValues mp ff rs nb OpMul (VSmallInt min_int64) (VSmallInt (-1))
    = Ok (VInt (2 ^ 63)).
Proof. repeat split. Qed.

(** ** Decimals *)

Lemma q_reduced_Qred (q : Q) : q_reduced (Qred q) = true.
Proof.
  unfold q_reduced. apply Z.eqb_eq, gcd_Qred.
Qed.

Lemma q_reduced_inject (z : Z) : q_reduced (inject_Z z) = true.
Proof. unfold q_reduced, inject_Z. cbn [Qnum Qden]. by rewrite Z.gcd_1_r. Qed.

Lemma rat_sign_zero (q : Q) : (rat_sign q =? 0) = false <-> ~ (q == 0)%Q.
Proof.
  unfold rat_sign, Qeq. cbn [Qnum Qden]. rewrite Z.mul_1_r, Z.mul_0_l, Z.eqb_neq.
  pose proof (Z.sgn_null_iff (Qnum q)). lia.
Qed.

Lemma ratFloorInt_spec (q : Q) : ratFloorInt q = Qfloor q.
Proof.
  destruct q as [n d]. unfold ratFloorInt, rat_sign, Qfloor. cbn [Qnum Qden].
  pose proof (floor_correction n (Zpos d) ltac:(lia)) as H.
  replace (xorb (n <? 0) (Zpos d <? 0)) with (Z.sgn n <? 0) in H.
  - rewrite andb_comm. destruct (negb _ && (Z.sgn n <? 0)); apply H.
  - destruct (Z.ltb_spec (Z.sgn n) 0), (Z.ltb_spec n 0); try reflexivity; lia.
Qed.

Lemma Qfloor_compat (a b : Q) : (a == b)%Q -> Qfloor a = Qfloor b.
Proof. intros H. by rewrite H. Qed.

(** The remainder of a floor division lies between zero and the divisor. *)
Lemma floor_remainder (l r : Q) :
  ~ (r == 0)%Q ->
  let m := (l - inject_Z (Qfloor (l / r)) * r)%Q in
  (0 <= m /\ m < r)%Q \/ (r < m /\ m <= 0)%Q.
Proof.
  intros Hr m.
  pose proof (Qfloor_le (l / r)) as Hlo. pose proof (Qlt_floor (l / r)) as Hhi.
  set (k := Qfloor (l / r)) in *.
  assert (Hl : (l == (l / r) * r)%Q) by (field; done).
  rewrite inject_Z_plus in Hhi. change (inject_Z 1) with 1%Q in Hhi.
  destruct (Q_dec r 0) as [[Hneg|Hpos]|]; [| |done].
  - right. assert (Hn : (0 < - r)%Q) by lra.
    pose proof (Qmult_le_r (inject_Z k) (l / r) (- r) Hn) as [_ H1]. specialize (H1 Hlo).
    pose proof (Qmult_lt_r (l / r) (inject_Z k + 1) (- r) Hn) as [_ H2]. specialize (H2 Hhi).
    unfold m. split; lra.
  - left. pose proof (Qmult_le_r (inject_Z k) (l / r) r Hpos) as [_ H1]. specialize (H1 Hlo).
    pose proof (Qmult_lt_r (l / r) (inject_Z k + 1) r Hpos) as [_ H2]. specialize (H2 Hhi).
    unfold m. split; lra.
Qed.

Lemma pow_loop_pos (p : positive) (fuel : nat) (res f : Q) :
  Zpos p < 2 ^ Z.of_nat fuel ->
  (decimalPow_loop fuel res f (Zpos p) == res * Qpower_positive f p)%Q.
Proof.
  revert fuel res f. induction p as [p IH|p IH|]; intros fuel res f Hf;
    (destruct fuel as [|fuel]; [simpl in Hf; lia|]);
    rewrite Nat2Z.inj_succ, Z.pow_succ_r in Hf by lia; cbn [decimalPow_loop Z.ltb Z.compare].
  - change (Z.land (Z.pos p~1) 1 =? 1) with true. change (Z.shiftr (Z.pos p~1) 1) with (Zpos p).
    cbn iota. rewrite IH by lia. unfold rat_mul. rewrite !Qred_correct.
    rewrite Qmult_power_positive. cbn [Qpower_positive pow_pos].
    unfold Qpower_positive. simpl. ring.
  - change (Z.land (Z.pos p~0) 1 =? 1) with false. change (Z.shiftr (Z.pos p~0) 1) with (Zpos p).
    cbn iota. rewrite IH by lia. unfold rat_mul. rewrite !Qred_correct.
    rewrite Qmult_power_positive. unfold Qpower_positive. simpl. ring.
  - change (Z.land 1 1 =? 1) with true. change (Z.shiftr 1 1) with 0. cbn iota.
    assert (E : forall n r g, decimalPow_loop n r g 0 = r) by (intros []; reflexivity).
    rewrite E. unfold rat_mul. rewrite Qred_correct. unfold Qpower_positive. simpl. reflexivity.
Qed.

Lemma pow_loop_reduced (fuel : nat) (res f : Q) (e : Z) :
  q_reduced res = true -> q_reduced (decimalPow_loop fuel res f e) = true.
Proof.
  revert res f e. induction fuel as [|n IH]; intros res f e H; [exact H|].
  cbn [decimalPow_loop]. destruct (0 <? e); [|exact H]. apply IH.
  destruct (Z.land e 1 =? 1); [apply q_reduced_Qred|exact H].
Qed.

Lemma pow_loop_done (fuel : nat) (res f : Q) (e : Z) :
  (0 <? e) = false -> decimalPow_loop fuel res f e = res.
Proof. intros H. destruct fuel; [done|]. cbn [decimalPow_loop]. by rewrite H. Qed.

(** The value of a decimal operator: a reduced rational equal to [q]. *)
Definition decimal_result (r : result VMError Value) (q : Q) : Prop :=
  exists d, r = Ok (VDecimal d) /\ (d == q)%Q /\ q_reduced d = true.

Lemma decimal_result_red (q p : Q) :
  (q == p)%Q -> decimal_result (Ok (VDecimal (Qred q))) p.
Proof.
  intros H. exists (Qred q). split; [done|]. split; [|apply q_reduced_Qred].
  by rewrite Qred_correct.
Qed.

(** The rational each decimal operator computes. *)
Definition decimal_spec (op : Op) (l r : Q) : option Q :=
  match op with
  | OpAdd => Some (l + r)%Q
  | OpSub => Some (l - r)%Q
  | OpMul => Some (l * r)%Q
  | OpDiv => Some (l / r)%Q
  | OpIntDiv => Some (inject_Z (Qfloor (l / r)))
  | OpMod => Some (l - inject_Z (Qfloor (l / r)) * r)%Q
  | _ => None
  end.

(** C11: decimal arithmetic is exact rational arithmetic: for a non-zero
    right operand each of [+ - * / // %] pushes the reduced rational that
    equals the mathematical result, [//] rounding towards minus infinity, and
    the remainder lies between zero and the divisor, on the divisor's side. *)
Theorem decimal_operators_exact mp ff rs (op : Op) (l r q : Q) :
  ~ (r == 0)%Q -> decimal_spec op l r = Some q ->
  (exists d, decimalBinary mp ff rs op l r = Ok (VDecimal d)
             /\ (d == q)%Q /\ q_reduced d = true)
  /\ (op = OpMod -> (0 <= q /\ q < r)%Q \/ (r < q /\ q <= 0)%Q).
Proof.
  intros Hr Hs. pose proof Hr as Hz. apply rat_sign_zero in Hz. split.
  - change (decimal_result (decimalBinary mp ff rs op l r) q).
    destruct op; try discriminate; injection Hs as <-; cbn [decimalBinary]; rewrite ?Hz;
      try (apply decimal_result_red; reflexivity).
    + exists (inject_Z (ratFloorInt (rat_quo l r))). rewrite ratFloorInt_spec.
      repeat split; [|apply q_reduced_inject]. unfold rat_quo. by rewrite Qred_correct.
    + apply decimal_result_red. rewrite ratFloorInt_spec. unfold rat_mul, rat_quo.
      rewrite Qred_correct. by rewrite (Qfloor_compat _ _ (Qred_correct (l / r))).
  - intros ->. injection Hs as <-. by apply floor_remainder.
Qed.

Lemma decimal_operators_exact_witness :
  ~ (-3 # 2 == 0)%Q /\
  ((exists d, decimalBinary (fun a _ => a) (fun _ => []) (fun _ => None) OpMod 7 (-3 # 2)
                = Ok (VDecimal d)
              /\ (d == 7 - inject_Z (Qfloor (7 / (-3 # 2))) * (-3 # 2))%Q /\ q_reduced d = true)
   /\ (OpMod = OpMod ->
       (0 <= 7 - inject_Z (Qfloor (7 / (-3 # 2))) * (-3 # 2)
        /\ 7 - inject_Z (Qfloor (7 / (-3 # 2))) * (-3 # 2) < -3 # 2)%Q
       \/ (-3 # 2 < 7 - inject_Z (Qfloor (7 / (-3 # 2))) * (-3 # 2)
           /\ 7 - inject_Z (Qfloor (7 / (-3 # 2))) * (-3 # 2) <= 0)%Q)).
Proof.
  assert (H : ~ (-3 # 2 == 0)%Q) by (intros H; discriminate H).
  split; [exact H|]. apply (decimal_operators_exact _ _ _ OpMod 7 (-3 # 2)); [exact H|reflexivity].
Defined.

(** C12: raising a decimal to an integral exponent is exact: for every [int64]
    exponent but -2^63 the square-and-multiply loop terminates within its 64
    rounds with the reduced rational power, negative exponents inverting the
    base; zero to a negative power is an error. *)
Theorem decimalPow_exact mp ff rs (base : Q) (e : Z) :
  q_reduced base = true -> is_int64 e = true -> e <> min_int64 ->
  if (e <? 0) && (rat_sign base =? 0)
  then decimalPow mp ff rs base (inject_Z e)
       = Err (Plain (bs "zero cannot be raised to a negative exponent"))
  else exists d, decimalPow mp ff rs base (inject_Z e) = Ok d
                 /\ (d == base ^ e)%Q /\ q_reduced d = true.
Proof.
  intros Hb He Hm. unfold decimalPow, rat_is_int. cbn [Qnum Qden inject_Z Pos.eqb].
  rewrite He. cbn [negb].
  destruct (Z.eqb_spec e 0) as [->|He0].
  - cbn. by exists 1%Q.
  - destruct (Z.ltb_spec e 0) as [Hn|Hp]; cbn [andb].
    + destruct (rat_sign base =? 0) eqn:Ez; [done|].
      int64_range. rewrite wrap64_id by (apply is_int64_iff; unfold_int64; lia).
      eexists. split; [reflexivity|]. split; [|by apply pow_loop_reduced].
      destruct e as [|p|p]; [lia|lia|]. cbn [Z.opp].
      etransitivity; [apply pow_loop_pos; change (2 ^ Z.of_nat 64) with (2 ^ 64); lia|].
      rewrite Qred_correct, Qmult_1_l. apply Qinv_power_positive.
    + int64_range. eexists. split; [reflexivity|]. split; [|by apply pow_loop_reduced].
      destruct e as [|p|p]; [lia| |lia].
      etransitivity; [apply pow_loop_pos; change (2 ^ Z.of_nat 64) with (2 ^ 64); lia|].
      by rewrite Qmult_1_l.
Qed.

Lemma decimalPow_exact_witness :
  exists d, decimalPow (fun a _ => a) (fun _ => []) (fun _ => None) (2 # 3) (inject_Z (-5)) = Ok d
            /\ (d == (2 # 3) ^ (-5))%Q /\ q_reduced d = true.
Proof.
  apply (decimalPow_exact (fun a _ => a) (fun _ => []) (fun _ => None) (2 # 3) (-5));
    [reflexivity|reflexivity|discriminate].
Defined.

(** The exponent -2^63 that C4 leaves out does not give a power: negating
    it wraps to itself, the loop never runs, and every non-zero decimal raised
    to it is 1. *)
Theorem decimalPow_min_exponent mp ff rs (base : Q) :
  if rat_sign base =? 0
  then decimalPow mp ff rs base (inject_Z min_int64)
       = Err (Plain (bs "zero cannot be raised to a negative exponent"))
  else decimalPow mp ff rs base (inject_Z min_int64) = Ok 1%Q.
Proof.
  unfold decimalPow, rat_is_int. cbn [Qnum Qden inject_Z Pos.eqb].
  change (is_int64 min_int64) with true. change (min_int64 =? 0) with false.
  change (min_int64 <? 0) with true. cbn [negb].
  destruct (rat_sign base =? 0); [done|]. by rewrite pow_loop_done.
Qed.

(** ** Types of results *)

(** The type an arithmetic operator gives its result: division of integers is
    a decimal, a float absorbs integers, a decimal absorbs integers, and
    decimals do not mix with floats. *)
Definition result_type (op : Op) (lt rt : gostring) : option gostring :=
  let has t k := bool_decide (t = bs k) in
  if has lt "int" && has rt "int"
  then Some (if decide (op = OpDiv) then bs "decimal" else bs "int")
  else if (has lt "int" || has lt "decimal") && (has rt "int" || has rt "decimal")
  then Some (bs "decimal")
  else if (has lt "int" || has lt "float") && (has rt "int" || has rt "float")
  then Some (bs "float")
  else None.

Lemma decimalBinary_type mp ff rs op l r v :
  decimalBinary mp ff rs op l r = Ok v -> TypeName v = bs "decimal".
Proof.
  destruct op; simpl; try discriminate; try (by intros [= <-]);
    try (destruct (rat_sign r =? 0); [done|by intros [= <-]]).
  destruct (decimalPow mp ff rs l r); [by intros [= <-]|done].
Qed.

Lemma floatBinary_type mp op l r v : floatBinary mp op l r = Ok v -> TypeName v = bs "float".
Proof.
  destruct op; simpl; try discriminate; try (by intros [= <-]);
    (destruct (f64_eqb r f64_zero); [done|by intros [= <-]]).
Qed.

Lemma intBinary_type mp ff rs op l r v :
  intBinary mp ff rs op l r = Ok v ->
  TypeName v = if decide (op = OpDiv) then bs "decimal" else bs "int".
Proof.
  destruct op; try discriminate; cbn [intBinary];
    try (intros [= <-]; reflexivity);
    try (case_match; [done|]; intros [= <-]; reflexivity).
  apply decimalBinary_type.
Qed.

Lemma smallIntBinary_type mp ff rs op l r v :
  smallIntBinary mp ff rs op l r = Ok v ->
  TypeName v = if decide (op = OpDiv) then bs "decimal" else bs "int".
Proof.
  destruct op; try discriminate; cbn [smallIntBinary];
    try (intros [= <-]; case_match; reflexivity);
    try (repeat case_match; try done; by intros [= <-]).
  apply decimalBinary_type.
Qed.

(** C13: the static typing of arithmetic is sound: whatever the operator, when
    it succeeds on two numbers the result's type is the one [result_type]
    gives from the operands' types alone, and where [result_type] gives none
    (a decimal with a float) the operator fails with the type error that names
    both types. *)
Theorem arithmetic_result_type mp ff rs nb (op : Op) (lhs rhs : Value) :
  isNumericValue lhs = true -> isNumericValue rhs = true ->
  match result_type op (TypeName lhs) (TypeName rhs) with
  | Some t => forall v, binaryNumericValues mp ff rs nb op lhs rhs = Ok v -> TypeName v = t
  | None => binaryNumericValues mp ff rs nb op lhs rhs
            = Err (decimalFloatArithError op lhs rhs)
  end.
Proof.
  intros Hl Hr.
  destruct lhs; try discriminate; destruct rhs; try discriminate; cbn [binaryNumericValues];
    try reflexivity;
    match goal with |- match ?t with _ => _ end =>
      let t' := eval cbv -[decide] in t in change t with t' end;
    cbn iota; intros v H;
    first [ by eapply smallIntBinary_type in H | by eapply intBinary_type in H
          | by eapply decimalBinary_type in H | by eapply floatBinary_type in H ].
Qed.

Lemma arithmetic_result_type_witness :
  binaryNumericValues (fun a _ => a) (fun _ => []) (fun _ => None) (fun _ a _ => Ok a)
    OpDiv (VSmallInt 7) (VSmallInt 2) = Ok (VDecimal (7 # 2)) /\
  TypeName (VDecimal (7 # 2)) = bs "decimal".
Proof.
  split; [reflexivity|].
  apply (arithmetic_result_type (fun a _ => a) (fun _ => []) (fun _ => None) (fun _ a _ => Ok a)
           OpDiv (VSmallInt 7) (VSmallInt 2) eq_refl eq_refl). reflexivity.
Defined.

(** ** Fused opcodes *)

(** The generic opcode's handler: [vm.add] for [OpAdd], [vm.binaryNumeric] for
    the others. *)
Definition generic_handler mp ff rs nb io (op : Op) : vmM unit :=
  if decide (op = OpAdd) then add mp ff rs nb io else binaryNumeric mp ff rs nb io op.

Definition is_string (v : Value) : bool := match v with VString _ => true | _ => false end.

(** Two runs agree: the same outcome, and the same state when they succeed. *)
Definition agree {A : Type} (x y : VM * result VMError A) : Prop :=
  snd x = snd y /\ (is_ok (snd x) = true -> fst x = fst y).

Lemma agree_refl {A : Type} (x : VM * result VMError A) : agree x x.
Proof. done. Qed.

Lemma add_overflow_sign (l r : Z) :
  (0 <=? Z.land (Z.lxor l (wrap64 (l + r))) (Z.lxor r (wrap64 (l + r)))) = negb (add_overflow l r).
Proof. unfold add_overflow. by rewrite Z.leb_antisym. Qed.

(** The fast path on two small integers pushes what the generic operator
    pushes. *)
Lemma fused_small_agree mp ff rs nb io (op : Op) (vm : VM) (rest : list VMValue) (lv rv : VMValue) :
  op ∈ [OpAddInt; OpSubInt; OpMulInt; OpModInt] ->
  stack vm = rv :: lv :: rest -> Kind lv = VMKindSmallInt -> Kind rv = VMKindSmallInt ->
  agree (fusedIntBinary mp ff rs nb io op vm) (generic_handler mp ff rs nb io (genericOp op) vm).
Proof.
  intros Hop Hst Hl Hr.
  unfold fusedIntBinary. rewrite Hst, decide_True by done.
  destruct_members Hop;
    unfold generic_handler; cbn [genericOp];
    first [rewrite decide_True by done | rewrite decide_False by done];
    unfold add, binaryNumeric, propagate, bind, popVM; rewrite Hst; cbn [stack set_stack];
    rewrite decide_True by done; cbn [fusedSmallInt smallIntBinary];
    [rewrite add_overflow_sign; destruct (add_overflow _ _)
    |destruct (sub_overflow _ _)|destruct (mul_overflow _ _)
    |destruct (I64 rv =? 0); [|destruct (negb _ && xorb _ _)]];
    by split.
Qed.

(** C14: a fused integer opcode does what the generic opcode does: for any two
    operands whatever their kind (the left one not a string, on which [vm.add]
    concatenates), [OpAddInt], [OpSubInt], [OpMulInt] and [OpModInt] succeed
    with the same state or fail with the same error as [OpAdd], [OpSub],
    [OpMul] and [OpMod]. *)
Theorem fused_matches_generic mp ff rs nb io (op : Op) (vm : VM) (rest : list VMValue)
    (lv rv : VMValue) :
  op ∈ [OpAddInt; OpSubInt; OpMulInt; OpModInt] ->
  stack vm = rv :: lv :: rest -> is_string (ToValue lv) = false ->
  let fused := fusedIntBinary mp ff rs nb io op vm in
  let generic := generic_handler mp ff rs nb io (genericOp op) vm in
  snd fused = snd generic /\ (is_ok (snd fused) = true -> fst fused = fst generic).
Proof.
  intros Hop Hst Hs. cbn zeta.
  change (agree (fusedIntBinary mp ff rs nb io op vm)
                (generic_handler mp ff rs nb io (genericOp op) vm)).
  destruct (decide (Kind lv = VMKindSmallInt /\ Kind rv = VMKindSmallInt)) as [[Hl Hr]|Hk].
  { by apply (fused_small_agree mp ff rs nb io op vm rest lv rv). }
  unfold fusedIntBinary. rewrite Hst, decide_False by done.
  assert (Hg : genericOp op ∈ [OpAdd; OpSub; OpMul; OpMod])
    by (destruct_members Hop; repeat constructor).
  generalize dependent (genericOp op). intros g Hg. unfold generic_handler.
  destruct (decide (g = OpAdd)) as [->|_].
  - unfold add, propagate, bind, popVM. rewrite Hst. cbn [stack set_stack].
    rewrite decide_False by done. case_decide as Hf.
    + destruct Hf as [Hf1 Hf2].
      unfold ToValue, AsFloat. rewrite Hf1, Hf2. simpl. by split.
    + destruct (ToValue lv); try discriminate Hs; apply agree_refl.
  - unfold binaryNumeric, propagate, bind, popVM. rewrite Hst. cbn [stack set_stack].
    rewrite decide_False by done. case_decide as Hf; [|apply agree_refl].
    destruct Hf as [Hf1 Hf2]. unfold ToValue, AsFloat. rewrite Hf1, Hf2. simpl. by split.
Qed.

Lemma fused_matches_generic_witness :
  let vm := mkState [VMValueSmallInt 3; VMValueSmallInt (-7)] [] 0 [] [] false false [] [] ∅ ∅ in
  let mp := fun a _ : float64 => a in
  let ff := fun _ : float64 => [] in
  let rs := fun _ : gostring => None in
  let nb := fun _ (a _ : Value) => Ok a in
  let io := fun _ _ _ => None in
  snd (fusedIntBinary mp ff rs nb io OpModInt vm) = snd (generic_handler mp ff rs nb io OpMod vm)
  /\ (is_ok (snd (fusedIntBinary mp ff rs nb io OpModInt vm)) = true ->
      fst (fusedIntBinary mp ff rs nb io OpModInt vm)
      = fst (generic_handler mp ff rs nb io OpMod vm)).
Proof.
  cbn zeta.
  apply (fused_matches_generic _ _ _ _ _ OpModInt _ [] (VMValueSmallInt (-7)) (VMValueSmallInt 3));
    [repeat constructor|reflexivity|reflexivity].
Defined.

(** ** Negation and the bitwise operators *)

(** C15: the bitwise operators and negation are exact on integers of either
    representation: each pushes the two's complement result, small exactly
    when it fits 64 bits for the bitwise operators, and a shift amount outside
    the unsigned 64-bit range is the value error that prints it. *)
Theorem bitwise_exact (op : Op) (lhs rhs : Value) (l r : Z) :
  intToBigInt lhs = Some l -> intToBigInt rhs = Some r ->
  bitwise_value OpBitAnd lhs rhs = Ok (int_value (Z.land l r)) /\
  bitwise_value OpBitOr lhs rhs = Ok (int_value (Z.lor l r)) /\
  bitwise_value OpBitXor lhs rhs = Ok (int_value (Z.lxor l r)) /\
  (is_uint64 r = true ->
     bitwise_value OpLShift lhs rhs = Ok (int_value (l * 2 ^ r)) /\
     bitwise_value OpRShift lhs rhs = Ok (int_value (l / 2 ^ r))) /\
  (is_uint64 r = false -> forall sh, sh ∈ [OpLShift; OpRShift] ->
     bitwise_value sh lhs rhs
     = Err (Thrown (bs "ValueError")
              (bs "shift amount must be a non-negative int, got " ++ FormatInt r))) /\
  (forall nn, value_wf lhs = true ->
     exists v, negate_value nn lhs = Ok v /\ intToBigInt v = Some (- l) /\ value_wf v = true) /\
  (forall z, intToBigInt (int_value z) = Some z /\ value_wf (int_value z) = true).
Proof.
  intros Hl Hr. unfold bitwise_value. rewrite Hl, Hr.
  repeat split.
  - rewrite H. unfold is_uint64 in H. rewrite Z.shiftl_mul_pow2 by lia. done.
  - rewrite H. unfold is_uint64 in H. rewrite Z.shiftr_div_pow2 by lia. done.
  - intros H sh Hsh. rewrite H. by destruct_members Hsh.
  - intros nn Hwf. destruct lhs; try discriminate; injection Hl as ->; simpl in *.
    + int64_range. destruct (Z.eqb_spec l min_int64) as [->|Hne]; [by eexists|].
      eexists. split; [reflexivity|]. simpl.
      rewrite wrap64_id by (apply is_int64_iff; unfold_int64; lia).
      split; [done|]. apply is_int64_iff. unfold_int64. lia.
    + by eexists.
  - unfold int_value. by destruct (is_int64 z).
  - unfold int_value. by destruct (is_int64 z) eqn:E.
Qed.

Lemma bitwise_exact_witness :
  bitwise_value OpLShift (VSmallInt 3) (VSmallInt 70) = Ok (int_value (3 * 2 ^ 70)).
Proof.
  apply (bitwise_exact OpLShift (VSmallInt 3) (VSmallInt 70) 3 70 eq_refl eq_refl). reflexivity.
Defined.
