(* ===== verification/Compare.v ===== *)
(** * Compare: ordering and equality of values

    [NumericCompare] and its integer fast path (src/internal/native/math.go),
    the [<], [<=], [>], [>=] opcodes and the structural equality behind [==]
    (src/internal/bytecode/vm.go), and the equality of leaf values that both
    backends share (src/internal/runtime/equality.go). *)

From Stdlib Require Import QArith Qabs Floats.SpecFloat.
From S2P Require Import Prelude Float64 GoText Value Ops Machine Arith.
#[local] Open Scope Z_scope.

(** ** Ordering *)

(** [native.compareInt64]. *)
Definition compareInt64 (l r : Z) : Z := if l <? r then -1 else if r <? l then 1 else 0.

(** [native.numericCompareIntFast]: integer operands with at least one big
    one; an integer outside the [int64] range is decided by its sign. *)
Definition numericCompareIntFast (lhs rhs : Value) : option Z :=
  match lhs, rhs with
  | VSmallInt l, VInt r => Some (if is_int64 r then compareInt64 l r else - Z.sgn r)
  | VInt l, VSmallInt r => Some (if is_int64 l then compareInt64 l r else Z.sgn l)
  | VInt l, VInt r => Some (cmp_to_Z (l ?= r))
  | _, _ => None
  end.

Definition cannotCompare (lhs rhs : Value) : VMError :=
  Classified (bs "TypeError") (bs "cannot compare " ++ TypeName lhs ++ bs " and " ++ TypeName rhs).

(** [native.NumericCompare]. *)
Definition NumericCompare (lhs rhs : Value) : result VMError Z :=
  match lhs, rhs with
  | VSmallInt l, VSmallInt r => Ok (compareInt64 l r)
  | _, _ =>
      match numericCompareIntFast lhs rhs with
      | Some c => Ok c
      | None =>
          match lhs, rhs with
          | VString l, VString r => Ok (cmp_to_Z (str_compare l r))
          | VString _, _ => Err (cannotCompare lhs rhs)
          | _, _ =>
              match NumericToRat lhs, NumericToRat rhs with
              | Some lr, Some rr => Ok (cmp_to_Z (lr ?= rr)%Q)
              | _, _ =>
                  match NumericToFloat lhs, NumericToFloat rhs with
                  | Some lf, Some rf =>
                      Ok (if f64_ltb lf rf then -1 else if f64_ltb rf lf then 1 else 0)
                  | _, _ => Err (cannotCompare lhs rhs)
                  end
              end
          end
      end
  end.

(** What a comparison opcode makes of the three-way result. *)
Definition compare_result (op : Op) (cmp : Z) : bool :=
  match op with
  | OpLess => cmp <? 0
  | OpGreater => 0 <? cmp
  | OpLessEqual => cmp <=? 0
  | OpGreaterEqual => 0 <=? cmp
  | _ => false
  end.

Definition comparison_symbol (op : Op) : gostring :=
  match op with
  | OpLess => bs "<"
  | OpGreater => bs ">"
  | OpLessEqual => bs "<="
  | OpGreaterEqual => bs ">="
  | _ => []
  end.

(** [native.SortLess]: a sort callback returns a less-than predicate or a
    three-way result. *)
Definition SortLess (v : Value) : result VMError bool :=
  match v with
  | VBool b => Ok b
  | VSmallInt i => Ok (i <? 0)
  | VInt i => Ok (Z.sgn i <? 0)
  | _ => Err (Plain (bs "sort callback must return bool (less-than) or int (three-way), got "
                     ++ TypeName v))
  end.

(** [native.NumericAbs]. *)
Definition NumericAbs (v : Value) : result VMError Value :=
  match v with
  | VSmallInt i =>
      if 0 <=? i then Ok v
      else if i =? min_int64 then Ok (VInt (Z.abs i)) else Ok (VSmallInt (wrap64 (- i)))
  | VInt i => Ok (VInt (Z.abs i))
  | VDecimal q => Ok (VDecimal (Qred (Qabs q)))
  | VFloat f => Ok (VFloat (SFabs f))
  | _ => Err (Plain (TypeName v ++ bs " has no method abs"))
  end.

(** ** Equality of leaf values *)

Section LeafEquality.
(** Comparison of the payloads of two native objects ([==] on comparable Go
    values, [reflect.DeepEqual] otherwise). *)
Variable payloadEq : Z -> Z -> bool.

(** [nativeObjectsEqual]. *)
Definition nativeObjectsEqual (lk : gostring) (li : Z) (lp : option Z)
    (rk : gostring) (ri : Z) (rp : option Z) : bool :=
  if bool_decide (lk = rk) && (li =? ri) then
    match lp, rp with
    | None, None => true
    | Some x, Some y => payloadEq x y
    | _, _ => false
    end
  else false.

(** Two header maps: every key of the left one against the right one, where a
    missing key reads as an empty list. *)
Definition headersEqual (l r : gmap gostring (list gostring)) : bool :=
  (size l =? size r)%nat
  && forallb (fun kv => bool_decide (snd kv = default [] (r !! fst kv))) (map_to_list l).

Definition rangeEqual (l r : Range) : bool :=
  Bool.eqb (Exclusive l) (Exclusive r) && (Start l =? Start r)
  && (End_ l =? End_ r) && (Step l =? Step r).

Definition cookieEqual (l r : HTTPCookie) : bool :=
  bool_decide (cookie_Name l = cookie_Name r) && bool_decide (cookie_Value l = cookie_Value r)
  && bool_decide (cookie_Path l = cookie_Path r)
  && bool_decide (cookie_Domain l = cookie_Domain r)
  && (cookie_Expires l =? cookie_Expires r) && (cookie_MaxAge l =? cookie_MaxAge r)
  && Bool.eqb (cookie_Secure l) (cookie_Secure r)
  && Bool.eqb (cookie_HTTPOnly l) (cookie_HTTPOnly r)
  && bool_decide (cookie_SameSite l = cookie_SameSite r).

(** [runtime.LeafValuesEqual]: [None] when the left operand is not a leaf. *)
Definition LeafValuesEqual (lhs rhs : Value) : option bool :=
  match lhs with
  | VNull => Some (IsNull rhs)
  | VBool l => Some (match rhs with VBool r => Bool.eqb l r | _ => false end)
  | VSmallInt l =>
      Some (match rhs with
            | VSmallInt r => l =? r
            | VInt r => is_int64 r && (r =? l)
            | _ => false
            end)
  | VInt l =>
      Some (match rhs with
            | VSmallInt r => is_int64 l && (l =? r)
            | VInt r => l =? r
            | _ => false
            end)
  | VDecimal l =>
      Some (match rhs with
            | VDecimal r => match (l ?= r)%Q with Eq => true | _ => false end
            | _ => false
            end)
  | VFloat l => Some (match rhs with VFloat r => f64_eqb l r | _ => false end)
  | VString l =>
      Some (match rhs with
            | VString r => bool_decide (l = r)
            | VType name => bool_decide (l = name)
            | _ => false
            end)
  | VBytes l => Some (match rhs with VBytes r => bool_decide (l = r) | _ => false end)
  | VDateTimeInstant l => Some (match rhs with VDateTimeInstant r => l =? r | _ => false end)
  | VDateTimeDuration l => Some (match rhs with VDateTimeDuration r => l =? r | _ => false end)
  | VDateTimeZone l => Some (match rhs with VDateTimeZone r => bool_decide (l = r) | _ => false end)
  | VURLValue l => Some (match rhs with VURLValue r => bool_decide (l = r) | _ => false end)
  | VHTTPHeaders l => Some (match rhs with VHTTPHeaders r => headersEqual l r | _ => false end)
  | VHTTPCookie l => Some (match rhs with VHTTPCookie r => cookieEqual l r | _ => false end)
  | VTemplateValue n t p =>
      Some (match rhs with
            | VTemplateValue n' t' p' =>
                bool_decide (n = n') && bool_decide (t = t') && bool_decide (p = p')
            | _ => false
            end)
  | VTemplateEngine l =>
      Some (match rhs with VTemplateEngine r => bool_decide (l = r) | _ => false end)
  | VRange l => Some (match rhs with VRange r => rangeEqual l r | _ => false end)
  | VBytecodeFunction m n i =>
      Some (match rhs with
            | VBytecodeFunction m' n' i' =>
                bool_decide (m = m') && bool_decide (n = n') && (i =? i')
            | _ => false
            end)
  | VBytecodeClass m n i =>
      Some (match rhs with
            | VBytecodeClass m' n' i' =>
                bool_decide (m = m') && bool_decide (n = n') && (i =? i')
            | VType name => bool_decide (n = name)
            | _ => false
            end)
  | VNativeObject k i p =>
      Some (match rhs with VNativeObject k' i' p' => nativeObjectsEqual k i p k' i' p' | _ => false end)
  | VError c m =>
      Some (match rhs with VError c' m' => bool_decide (c = c') && bool_decide (m = m') | _ => false end)
  | VType name =>
      Some (match rhs with
            | VType r => bool_decide (name = r)
            | VBytecodeClass _ n _ => bool_decide (name = n)
            | VClass _ n => bool_decide (name = n)
            | VString r => bool_decide (name = r)
            | _ => false
            end)
  | VModule l => Some (match rhs with VModule r => l =? r | _ => false end)
  | VClass l n =>
      Some (match rhs with
            | VClass r _ => l =? r
            | VType name => bool_decide (n = name)
            | _ => false
            end)
  | VInterface l _ => Some (match rhs with VInterface r _ => l =? r | _ => false end)
  | VComplex re im =>
      Some (match rhs with VComplex re' im' => f64_eqb re re' && f64_eqb im im' | _ => false end)
  | _ => None
  end.

(** ** Structural equality *)

Definition assoc {A : Type} (key : gostring) (l : list (gostring * A)) : option A :=
  snd <$> List.find (fun e => bool_decide (fst e = key)) l.

(** [primitiveEqual] on the values that reach it: leaves by their equality,
    anything else unequal. *)
Definition primitiveEqual (lhs rhs : Value) : bool := default false (LeafValuesEqual lhs rhs).

(** [vm.instanceDeepEqual] calls user code: a parameter. *)
Variable instanceDeepEqual : Value -> Value -> result VMError bool.

(** [vm.deepEqual]. *)
Fixpoint deepEqual (lhs rhs : Value) {struct lhs} : result VMError bool :=
  if IsNull lhs || IsNull rhs then Ok (IsNull lhs && IsNull rhs) else
  match NumericValuesEqual lhs rhs with
  | Some eq => Ok eq
  | None =>
      let fix elements (l r : list Value) : result VMError bool :=
        match l, r with
        | x :: l', y :: r' =>
            match deepEqual x y with
            | Ok true => elements l' r'
            | Ok false => Ok false
            | Err e => Err e
            end
        | _, _ => Ok true
        end in
      let fix entries (l : list (gostring * (Value * Value)))
                      (r : list (gostring * (Value * Value))) : result VMError bool :=
        match l with
        | [] => Ok true
        | (key, (k, v)) :: l' =>
            match assoc key r with
            | None => Ok false
            | Some (k', v') =>
                match deepEqual k k' with
                | Err e => Err e
                | Ok keyEq =>
                    match deepEqual v v' with
                    | Err e => Err e
                    | Ok valEq => if keyEq && valEq then entries l' r else Ok false
                    end
                end
            end
        end in
      let fix members (l r : list (gostring * Value)) : result VMError bool :=
        match l with
        | [] => Ok true
        | (key, v) :: l' =>
            match assoc key r with
            | None => Ok false
            | Some v' =>
                match deepEqual v v' with
                | Ok true => members l' r
                | Ok false => Ok false
                | Err e => Err e
                end
            end
        end in
      match lhs with
      | VList l =>
          match rhs with
          | VList r => if (length l =? length r)%nat then elements l r else Ok false
          | _ => Ok false
          end
      | VDict l =>
          match rhs with
          | VDict r => if (length l =? length r)%nat then entries l r else Ok false
          | _ => Ok false
          end
      | VSet l =>
          match rhs with
          | VSet r => if (length l =? length r)%nat then members l r else Ok false
          | _ => Ok false
          end
      | VEnumVariant p _ v fs =>
          match rhs with
          | VEnumVariant p' _ v' fs' =>
              if (p =? p') && bool_decide (v = v') && (length fs =? length fs')%nat
              then elements fs fs' else Ok false
          | _ => Ok false
          end
      | VInstance _ _ => instanceDeepEqual lhs rhs
      | _ => Ok (primitiveEqual lhs rhs)
      end
  end.
End LeafEquality.

(** ** The comparison opcodes *)

Definition is_instance (v : Value) : bool := match v with VInstance _ _ => true | _ => false end.

Section Opcodes.
Variable nativeBinary : gostring -> Value -> Value -> result VMError Value.
Variable payloadEq : Z -> Z -> bool.
Variable instanceDeepEqual : Value -> Value -> result VMError bool.
(** Comparison and equality methods of user classes. *)
Variable instanceCompare : Op -> Value -> Value -> option (vmM unit).
Variable instanceEqual : Value -> Value -> option (vmM unit).

(** [vm.compare]. *)
Definition compare (op : Op) : vmM unit :=
  do rhs <- propagate pop;
  do lhs <- propagate pop;
  if decide (op ∈ [OpLess; OpGreater; OpLessEqual; OpGreaterEqual]) then
    match (if is_instance lhs || is_instance rhs then instanceCompare op lhs rhs else None) with
    | Some m => m
    | None =>
        match BinaryOperatorValue nativeBinary (comparison_symbol op) lhs rhs with
        | Some (Ok v) => push v
        | Some (Err e) => fail (callPropagate e)
        | None =>
            match NumericCompare lhs rhs with
            | Ok cmp => push (VBool (compare_result op cmp))
            | Err e => fail (callPropagate e)
            end
        end
    end
  else fail (RuntimeError (bs "unknown comparison opcode")).

(** [vm.equal]. *)
Definition equal : vmM unit :=
  do rhs <- propagate pop;
  do lhs <- propagate pop;
  if IsNull lhs || IsNull rhs then push (VBool (IsNull lhs && IsNull rhs))
  else match (if is_instance lhs then instanceEqual lhs rhs else None) with
       | Some m => m
       | None =>
           match deepEqual payloadEq instanceDeepEqual lhs rhs with
           | Ok eq => push (VBool eq)
           | Err e => fail (callPropagate e)
           end
       end.
End Opcodes.

(** ** Ordering theorems *)

Lemma cmp_to_Z_compare (l r : Z) : cmp_to_Z (l ?= r) = compareInt64 l r.
Proof.
  unfold compareInt64. destruct (Z.compare_spec l r), (Z.ltb_spec l r), (Z.ltb_spec r l);
    simpl; lia.
Qed.

Lemma Qcompare_inject (l r : Z) : (inject_Z l ?= inject_Z r)%Q = (l ?= r).
Proof. unfold Qcompare, inject_Z. cbn [Qnum Qden]. by rewrite !Z.mul_1_r. Qed.

(** An integer outside 64 bits is above or below every [int64]. *)
Lemma compare_by_sign (l r : Z) :
  is_int64 l = true -> is_int64 r = false -> compareInt64 l r = - Z.sgn r.
Proof.
  intros Hl Hr. int64_range. assert (r < - 2 ^ 63 \/ 2 ^ 63 <= r) by (unfold_int64; lia).
  unfold compareInt64. destruct (Z.ltb_spec l r), (Z.ltb_spec r l); lia.
Qed.

Lemma compareInt64_antisym (l r : Z) : compareInt64 r l = - compareInt64 l r.
Proof. unfold compareInt64. destruct (Z.ltb_spec l r), (Z.ltb_spec r l); lia. Qed.

Lemma intFast_exact (lhs rhs : Value) (l r c : Z) :
  value_wf lhs = true -> value_wf rhs = true ->
  intToBigInt lhs = Some l -> intToBigInt rhs = Some r ->
  numericCompareIntFast lhs rhs = Some c -> c = cmp_to_Z (l ?= r).
Proof.
  intros Wl Wr Hl Hr. rewrite cmp_to_Z_compare.
  destruct lhs; try discriminate; destruct rhs; try discriminate;
    injection Hl as ->; injection Hr as ->; simpl in *; intros [= <-].
  - destruct (is_int64 r) eqn:E; [done|]. by rewrite compare_by_sign.
  - destruct (is_int64 l) eqn:E; [done|].
    rewrite compareInt64_antisym, compare_by_sign by done. lia.
  - apply cmp_to_Z_compare.
Qed.

(** C16: ordering numbers is ordering their exact values: for two numbers
    that have a rational value (every integer, decimal and finite float, in
    any mix of types and representations) the comparison is the sign of the
    difference of those rationals, whichever fast path decided it; hence the
    order is total, antisymmetric and transitive across the numeric types. *)
Theorem NumericCompare_exact (lhs rhs : Value) (x y : Q) :
  value_wf lhs = true -> value_wf rhs = true ->
  NumericToRat lhs = Some x -> NumericToRat rhs = Some y ->
  NumericCompare lhs rhs = Ok (cmp_to_Z (x ?= y)%Q).
Proof.
  intros Wl Wr Hx Hy.
  destruct (intToBigInt lhs) as [l|] eqn:El, (intToBigInt rhs) as [r|] eqn:Er.
  - assert (Exy : (x ?= y)%Q = (l ?= r)).
    { destruct lhs; try discriminate; destruct rhs; try discriminate;
        injection El as ->; injection Er as ->; injection Hx as <-; injection Hy as <-;
        apply Qcompare_inject. }
    rewrite Exy. unfold NumericCompare. destruct (numericCompareIntFast lhs rhs) as [c|] eqn:Ec.
    + apply (intFast_exact lhs rhs l r c) in Ec as ->; [|done..].
      destruct lhs; try discriminate; destruct rhs; try discriminate; simpl; try reflexivity.
      simpl in El, Er. rewrite cmp_to_Z_compare. congruence.
    + destruct lhs; try discriminate; destruct rhs; try discriminate; simpl.
      rewrite cmp_to_Z_compare. simpl in El, Er. congruence.
  - destruct lhs; try discriminate; destruct rhs; try discriminate; unfold NumericCompare;
      cbn [numericCompareIntFast]; rewrite Hx, Hy; reflexivity.
  - destruct lhs; try discriminate; destruct rhs; try discriminate; unfold NumericCompare;
      cbn [numericCompareIntFast]; rewrite Hx, Hy; reflexivity.
  - destruct lhs; try discriminate; destruct rhs; try discriminate; unfold NumericCompare;
      cbn [numericCompareIntFast]; rewrite Hx, Hy; reflexivity.
Qed.

Lemma NumericCompare_exact_witness :
  NumericCompare (VInt (2 ^ 70)) (VDecimal (1 # 3)) = Ok 1.
Proof.
  exact (NumericCompare_exact (VInt (2 ^ 70)) (VDecimal (1 # 3)) (inject_Z (2 ^ 70)) (1 # 3)
           eq_refl eq_refl eq_refl eq_refl).
Defined.

(** A NaN is ordered as if equal to every number: the comparison of a
    NaN with any number answers 0, so [<=] and [>=] hold and [<] and [>] do
    not, although the two are not equal and a float64 comparison answers false
    to all of them. *)
Theorem NumericCompare_nan (v : Value) :
  isNumericValue v = true ->
  NumericCompare (VFloat S754_nan) v = Ok 0 /\ NumericCompare v (VFloat S754_nan) = Ok 0 /\
  compare_result OpLessEqual 0 = true /\ compare_result OpGreaterEqual 0 = true /\
  NumericValuesEqual (VFloat S754_nan) v = Some false.
Proof.
  intros Hv.
  assert (L : forall f, f64_ltb f S754_nan = false) by (intros [[]|[]| |[]]; reflexivity).
  destruct v; try discriminate; repeat split; cbn; rewrite ?L; try reflexivity;
    destruct (f64_to_Q f); cbn; by rewrite ?L.
Qed.

Lemma NumericCompare_nan_witness :
  NumericCompare (VFloat S754_nan) (VSmallInt 1) = Ok 0 /\
  NumericCompare (VSmallInt 1) (VFloat S754_nan) = Ok 0 /\
  compare_result OpLessEqual 0 = true /\ compare_result OpGreaterEqual 0 = true /\
  NumericValuesEqual (VFloat S754_nan) (VSmallInt 1) = Some false.
Proof. apply (NumericCompare_nan (VSmallInt 1)). reflexivity. Defined.

(** ** Equality theorems *)

Lemma bool_decide_sym {A : Type} `{EqDecision A} (x y : A) :
  bool_decide (x = y) = bool_decide (y = x).
Proof. apply bool_decide_ext. split; congruence. Qed.

Lemma eqb_sym_bool (x y : bool) : Bool.eqb x y = Bool.eqb y x.
Proof. by destruct x, y. Qed.

Lemma cookieEqual_sym (a b : HTTPCookie) : cookieEqual a b = cookieEqual b a.
Proof.
  unfold cookieEqual.
  by rewrite (bool_decide_sym (cookie_Name a)), (bool_decide_sym (cookie_Value a)),
    (bool_decide_sym (cookie_Path a)), (bool_decide_sym (cookie_Domain a)),
    (Z.eqb_sym (cookie_Expires a)), (Z.eqb_sym (cookie_MaxAge a)),
    (eqb_sym_bool (cookie_Secure a)), (eqb_sym_bool (cookie_HTTPOnly a)),
    (bool_decide_sym (cookie_SameSite a)).
Qed.

Lemma rangeEqual_sym (a b : Range) : rangeEqual a b = rangeEqual b a.
Proof.
  unfold rangeEqual.
  by rewrite (eqb_sym_bool (Exclusive a)), (Z.eqb_sym (Start a)), (Z.eqb_sym (End_ a)),
    (Z.eqb_sym (Step a)).
Qed.

Definition is_headers (v : Value) : bool := match v with VHTTPHeaders _ => true | _ => false end.

Lemma leaf_unhandled (pe : Z -> Z -> bool) (a b : Value) :
  LeafValuesEqual pe a b = None -> default false (LeafValuesEqual pe b a) = false.
Proof.
  destruct a; try discriminate; intros _; destruct b; reflexivity.
Qed.

(** The equality of leaf values is symmetric: for every pair of values
    (header collections aside) [==] answers the same in both orders, including
    the mixed pairs it declares equal: small and big integers, a string and
    the type it names, a class and its type. *)
Theorem LeafValuesEqual_sym (pe : Z -> Z -> bool) (a b : Value) :
  (forall x y, pe x y = pe y x) -> is_headers a && is_headers b = false ->
  default false (LeafValuesEqual pe a b) = default false (LeafValuesEqual pe b a).
Proof.
  intros Hpe Hh.
  destruct (LeafValuesEqual pe a b) eqn:Ea; [|symmetry; by apply leaf_unhandled].
  destruct (LeafValuesEqual pe b a) eqn:Eb;
    [|rewrite <- Ea; by apply leaf_unhandled].
  revert Ea Eb. cbn [default]. clear - Hpe Hh.
  destruct a; try discriminate; destruct b; try discriminate; cbn [LeafValuesEqual IsNull];
    intros [= <-] [= <-]; try reflexivity; cbn [is_headers andb] in Hh; try discriminate Hh;
    try (apply bool_decide_sym); try (apply Z.eqb_sym); try (apply eqb_sym_bool);
    try (apply f64_eqb_sym).
  - rewrite (Qcompare_sym q q0). by destruct (q ?= q0)%Q.
  - apply cookieEqual_sym.
  - by rewrite (bool_decide_sym Name), (bool_decide_sym Text), (bool_decide_sym Path).
  - apply rangeEqual_sym.
  - by rewrite (bool_decide_sym Module), (bool_decide_sym Name), Z.eqb_sym.
  - by rewrite (bool_decide_sym Module), (bool_decide_sym Name), Z.eqb_sym.
  - unfold nativeObjectsEqual. rewrite (bool_decide_sym Kind), (Z.eqb_sym ID).
    destruct Payload, Payload0; try reflexivity. by rewrite Hpe.
  - by rewrite (bool_decide_sym Class), (bool_decide_sym Message).
  - by rewrite (f64_eqb_sym re), (f64_eqb_sym im).
Qed.

Lemma LeafValuesEqual_sym_witness :
  default false (LeafValuesEqual Z.eqb (VString (bs "Point")) (VType (bs "Point")))
  = default false (LeafValuesEqual Z.eqb (VType (bs "Point")) (VString (bs "Point"))).
Proof.
  apply (LeafValuesEqual_sym Z.eqb (VString (bs "Point")) (VType (bs "Point")));
    [intros x y; apply Z.eqb_sym|reflexivity].
Defined.

(** Header collections are the exception: a key of the left collection
    that the right one lacks reads as an empty list there, so equality depends
    on the order of the operands and holds between collections with different
    keys. *)
Theorem headers_equality_asymmetric :
  let a : gmap gostring (list gostring) := {[ bs "A" := [] ]} in
  let b : gmap gostring (list gostring) := {[ bs "B" := [bs "x"] ]} in
  LeafValuesEqual Z.eqb (VHTTPHeaders a) (VHTTPHeaders b) = Some true /\
  LeafValuesEqual Z.eqb (VHTTPHeaders b) (VHTTPHeaders a) = Some false.
Proof. vm_compute. split; reflexivity. Qed.
