(* ===== verification/Slots.v ===== *)
(** * Slots: the fused opcodes that work on variable slots

    The superinstructions of the dispatch loop in src/internal/bytecode/vm.go
    that read or update a local or a global directly: increments, the
    self-updating additions and subtractions, the compare-and-branch opcodes
    and the fused remainder test, each with its fast path and its fallback; the
    variable opcodes; and the write-back of a worker's module globals
    (vm_lifecycle.go). *)

From Stdlib Require Import QArith.
From S2P Require Import Prelude Float64 GoText Value Ops Machine Arith Compare.
#[local] Open Scope Z_scope.

(** [vm.runtimeError(instruction, "%s", err.Error())]. *)
Definition asRuntimeError (e : VMError) : VMError :=
  match e with
  | Plain m => RuntimeError m
  | Classified _ m => RuntimeError m
  | _ => e
  end.
Definition reframe {A : Type} (m : vmM A) : vmM A :=
  fun vm => match m vm with
            | (vm', Ok a) => (vm', Ok a)
            | (vm', Err e) => (vm', Err (asRuntimeError e))
            end.

(** ** Variable opcodes *)

(** [case OpDefineGlobal], [OpGetGlobal] and [OpSetGlobal]. *)
Definition execDefineGlobal (slot : Z) : vmM unit :=
  do value <- reframe pop;
  reframe (setGlobal slot value).

Definition execGetGlobal (slot : Z) : vmM unit :=
  do vm <- get;
  do cur <- (if slot <? zlen (globals vm)
             then do g <- at_index (globals vm) slot; ret (Some g) else ret None);
  match cur with
  | Some (GVal v) =>
      if decide (Kind v <> VMKindBoxed /\ Kind v <> VMKindUnset) then pushVM v
      else do value <- reframe (getGlobalVM slot); pushVM value
  | _ => do value <- reframe (getGlobalVM slot); pushVM value
  end.

Definition gslot_boxed (g : GSlot) : bool :=
  match g with GVal v => bool_decide (Kind v = VMKindBoxed) | GAcc _ => true end.

Definition execSetGlobal (slot : Z) : vmM unit :=
  do value <- reframe popVM;
  do vm <- get;
  if (slot <? zlen (globals vm)) && negb (bridgeActive vm) then
    do cur <- at_index (globals vm) slot;
    if gslot_boxed cur then do_ reframe (setGlobalVM slot value); pushVM value
    else
      do_ write_global slot (GVal value);
      do_ modify (record_persist slot);
      pushVM value
  else do_ reframe (setGlobalVM slot value); pushVM value.

(** [case OpDefineLocal], [OpGetLocal] and [OpSetLocal]. *)
Definition execDefineLocal (slot : Z) : vmM unit :=
  do value <- reframe popVM;
  reframe (defineLocalVM slot (StoreValue value)).

Definition execGetLocal (slot : Z) : vmM unit :=
  do vm <- get;
  do cur <- (if local_index slot vm <? zlen (localsStack vm)
             then do s <- at_index (localsStack vm) (local_index slot vm); ret (Some s)
             else ret None);
  match cur with
  | Some (SVal v) =>
      if decide (Kind v <> VMKindBoxed /\ Kind v <> VMKindUnset) then pushVM v
      else do value <- reframe (getLocalVM slot); pushVM value
  | _ => do value <- reframe (getLocalVM slot); pushVM value
  end.

Definition slot_boxed (s : Slot) : bool :=
  match s with SVal v => bool_decide (Kind v = VMKindBoxed) | _ => true end.

Definition execSetLocal (slot : Z) : vmM unit :=
  do value <- reframe popVM;
  do vm <- get;
  if local_index slot vm <? zlen (localsStack vm) then
    do cur <- at_index (localsStack vm) (local_index slot vm);
    if slot_boxed cur then do_ reframe (setLocalVM slot (StoreValue value)); pushVM value
    else do_ write_local slot (SVal value); pushVM value
  else do_ reframe (setLocalVM slot (StoreValue value)); pushVM value.

(** ** Increments and decrements *)

Definition incdec_delta (op : Op) : Z :=
  match op with OpDecLocalInt | OpDecGlobalInt => -1 | _ => 1 end.

(** [updatedIntValue]. *)
Definition updatedIntValue (op : Op) (old : Value) : result VMError Value :=
  let delta := incdec_delta op in
  match old with
  | VSmallInt i =>
      Ok (if add_overflow i delta then VInt (i + delta) else VSmallInt (wrap64 (i + delta)))
  | VInt i => Ok (VInt (i + delta))
  | _ => Err (Plain (bs "integer update expects int, got " ++ TypeName old))
  end.

(** [vm.updateIntSlot]. *)
Definition updateIntSlot (op : Op) (slot : Z) : vmM unit :=
  do old <- propagate (match op with
                       | OpIncLocalInt | OpDecLocalInt => getLocalVM slot
                       | OpIncGlobalInt | OpDecGlobalInt => getGlobalVM slot
                       | _ => fail (RuntimeError (bs "unknown integer slot update opcode"))
                       end);
  let delta := incdec_delta op in
  do next <- (if decide (Kind old = VMKindSmallInt)
              then ret (if add_overflow (I64 old) delta
                        then VMValueFromValue (VInt (I64 old + delta))
                        else VMValueSmallInt (wrap64 (I64 old + delta)))
              else propagate (do v <- lift (updatedIntValue op (ToValue old));
                              ret (VMValueFromValue v)));
  do_ propagate (match op with
                 | OpIncLocalInt | OpDecLocalInt => setLocalVM slot (StoreValue next)
                 | _ => setGlobalVM slot next
                 end);
  pushVM old.

(** [case OpIncLocalInt, OpDecLocalInt]: an unboxed small integer is updated
    in place. *)
Definition execIncDecLocal (op : Op) (slot : Z) : vmM unit :=
  do vm <- get;
  do cur <- (if local_index slot vm <? zlen (localsStack vm)
             then do s <- at_index (localsStack vm) (local_index slot vm); ret (Some s)
             else ret None);
  match cur with
  | Some (SVal v) =>
      if decide (Kind v = VMKindSmallInt) then
        let delta := incdec_delta op in
        if add_overflow (I64 v) delta then updateIntSlot op slot
        else do_ write_local slot (SVal (VMValueSmallInt (wrap64 (I64 v + delta)))); pushVM v
      else updateIntSlot op slot
  | _ => updateIntSlot op slot
  end.

(** [case OpIncGlobalInt, OpDecGlobalInt]. *)
Definition execIncDecGlobal (op : Op) (slot : Z) : vmM unit :=
  do vm <- get;
  if (0 <=? slot) && (slot <? zlen (globals vm)) && negb (bridgeActive vm) then
    do cur <- at_index (globals vm) slot;
    match cur with
    | GVal v =>
        if decide (Kind v = VMKindSmallInt) then
          let delta := incdec_delta op in
          if add_overflow (I64 v) delta then updateIntSlot op slot
          else do_ write_global slot (GVal (VMValueSmallInt (wrap64 (I64 v + delta)))); pushVM v
        else updateIntSlot op slot
    | GAcc _ => updateIntSlot op slot
    end
  else updateIntSlot op slot.

(** ** Self-updating additions *)

(** Where a self-update opcode finds its right operand, whether its target is
    a global and whether it subtracts. *)
Inductive RhsKind := RhsLocal | RhsGlobal | RhsConst.

Definition selfArith_shape (op : Op) : option (bool * RhsKind * bool) :=
  match op with
  | OpAddLocalIntLocal => Some (false, RhsLocal, false)
  | OpSubLocalIntLocal => Some (false, RhsLocal, true)
  | OpAddLocalIntConst => Some (false, RhsConst, false)
  | OpSubLocalIntConst => Some (false, RhsConst, true)
  | OpAddLocalIntGlobal => Some (false, RhsGlobal, false)
  | OpSubLocalIntGlobal => Some (false, RhsGlobal, true)
  | OpAddGlobalIntGlobal => Some (true, RhsGlobal, false)
  | OpSubGlobalIntGlobal => Some (true, RhsGlobal, true)
  | OpAddGlobalIntConst => Some (true, RhsConst, false)
  | OpSubGlobalIntConst => Some (true, RhsConst, true)
  | OpAddGlobalIntLocal => Some (true, RhsLocal, false)
  | OpSubGlobalIntLocal => Some (true, RhsLocal, true)
  | _ => None
  end.

(** [vm.intSelfArith], the fallback. *)
Definition intSelfArith (op : Op) (operands : list Z) : vmM unit :=
  match operands with
  | [dst; rhsOperand] =>
      match selfArith_shape op with
      | None => fail (RuntimeError (bs "unknown int self-arith opcode"))
      | Some (isGlobal, rhsKind, subtract) =>
          do lhs <- propagate (if isGlobal then getGlobal dst else getLocal dst);
          do rhs <- propagate (match rhsKind with
                               | RhsLocal => getLocal rhsOperand
                               | RhsGlobal => getGlobal rhsOperand
                               | RhsConst => ret (VSmallInt rhsOperand)
                               end);
          do r <- propagate (lift (addOrSubInt lhs rhs subtract));
          do_ propagate (if isGlobal then setGlobal dst r else setLocal dst r);
          push r
      end
  | _ => fail (Fatal (bs "int self-arith has invalid operands"))
  end.

(** The dispatch of the self-update opcodes. *)
Definition execSelfArith (op : Op) (operands : list Z) : vmM unit :=
  match operands, selfArith_shape op with
  | dst :: rhsOp :: _, Some (isGlobal, rhsKind, subtract) =>
      do lv <- reframe (if isGlobal then getGlobalVM dst else getLocalVM dst);
      do rv <- reframe (match rhsKind with
                        | RhsConst => ret (mkVM VMKindUnset 0 None)
                        | RhsLocal => getLocalVM rhsOp
                        | RhsGlobal => getGlobalVM rhsOp
                        end);
      let bv := match rhsKind with
                | RhsConst => Some rhsOp
                | _ => if decide (Kind rv = VMKindSmallInt) then Some (I64 rv) else None
                end in
      match (if decide (Kind lv = VMKindSmallInt) then bv else None) with
      | Some b =>
          let a := I64 lv in
          let r := if subtract
                   then (if sub_overflow a b then VMValueFromValue (VInt (a - b))
                         else VMValueSmallInt (wrap64 (a - b)))
                   else (if add_overflow a b then VMValueFromValue (VInt (a + b))
                         else VMValueSmallInt (wrap64 (a + b))) in
          do_ reframe (if isGlobal then setGlobalVM dst r else setLocalVM dst (StoreValue r));
          pushVM r
      | None => intSelfArith op operands
      end
  | _, _ => fail GoPanic
  end.

(** ** Fused branches *)

(** The outcome of a branch: the next instruction pointer. *)
Definition branch (jump : bool) (target ip : Z) : Z := if jump then target - 1 else ip.

Section Branches.
Variable nativeBinary : gostring -> Value -> Value -> result VMError Value.
Variable payloadEq : Z -> Z -> bool.
Variable instanceDeepEqual : Value -> Value -> result VMError bool.
Variable instanceCompare : Op -> Value -> Value -> option (vmM unit).
Variable instanceEqual : Value -> Value -> option (vmM unit).

(** The generic comparison behind a compare-and-branch opcode, and whether the
    branch is taken when it holds. *)
Definition jump_compare_op (op : Op) : option (Op * bool) :=
  match op with
  | OpJumpIfNotLessInt => Some (OpLess, false)
  | OpJumpIfNotLessEqualInt => Some (OpLessEqual, false)
  | OpJumpIfNotGreaterInt => Some (OpGreater, false)
  | OpJumpIfNotGreaterEqualInt => Some (OpGreaterEqual, false)
  | OpJumpIfNotEqualInt => Some (OpEqual, false)
  | OpJumpIfEqualInt => Some (OpEqual, true)
  | _ => None
  end.

(** [vm.compareJumpIntFallback]. *)
Definition compareJumpIntFallback (op : Op) (target ip : Z) : vmM Z :=
  match jump_compare_op op with
  | None => fail GoPanic
  | Some (cmpOp, jumpIfTrue) =>
      do_ (if decide (cmpOp = OpEqual)
           then equal payloadEq instanceDeepEqual instanceEqual
           else compare nativeBinary instanceCompare cmpOp);
      do value <- propagate pop;
      match value with
      | VBool b => ret (branch (if jumpIfTrue then b else negb b) target ip)
      | _ => fail (RuntimeError (bs "compare result must be bool"))
      end
  end.

(** The branch decision of the fast path. *)
Definition jump_small (op : Op) (li ri : Z) : bool :=
  match op with
  | OpJumpIfNotLessInt => negb (li <? ri)
  | OpJumpIfNotLessEqualInt => negb (li <=? ri)
  | OpJumpIfNotGreaterInt => negb (ri <? li)
  | OpJumpIfNotGreaterEqualInt => negb (ri <=? li)
  | OpJumpIfNotEqualInt => negb (li =? ri)
  | OpJumpIfEqualInt => li =? ri
  | _ => false
  end.

(** The dispatch of the compare-and-branch opcodes. *)
Definition execCompareJump (op : Op) (target ip : Z) : vmM Z := fun vm =>
  match stack vm with
  | rvm :: lvm :: rest =>
      if decide (Kind lvm = VMKindSmallInt /\ Kind rvm = VMKindSmallInt) then
        (set_stack rest vm, Ok (branch (jump_small op (I64 lvm) (I64 rvm)) target ip))
      else compareJumpIntFallback op target ip vm
  | _ => (vm, Err (Fatal (bs "stack underflow")))
  end.
End Branches.

(** [case OpJumpIfModNotZero, OpJumpIfModZero]. *)
Definition execModJump (op : Op) (operands : list Z) (ip : Z) : vmM Z :=
  match operands with
  | [target; slot; ri] =>
      do vm <- get;
      let idx := local_index slot vm in
      if (idx <? 0) || (zlen (localsStack vm) <=? idx)
      then fail (RuntimeError (bs "local slot out of range"))
      else
        do cur <- at_index (localsStack vm) idx;
        match cur with
        | SVal lv =>
            if decide (Kind lv = VMKindSmallInt) then
              if ri =? 0 then fail (RuntimeError (bs "modulo by zero"))
              else
                let v := go_rem64 (I64 lv) ri in
                let v := if negb (v =? 0) && xorb (I64 lv <? 0) (ri <? 0)
                         then wrap64 (v + ri) else v in
                let isZero := v =? 0 in
                ret (branch (if decide (op = OpJumpIfModNotZero) then negb isZero else isZero)
                       target ip)
            else fail (RuntimeError (bs "mod-jump fast path requires int local"))
        | _ => fail (RuntimeError (bs "mod-jump fast path requires int local"))
        end
  | _ => fail (Fatal (bs "mod-jump instruction has invalid operands"))
  end.

(** ** Write-back of module globals *)

(** [vm.HasDirtyGlobals] and [vm.PersistDirtyGlobals]. *)
Definition HasDirtyGlobals (vm : VM) : bool := 0 <? zlen (dirtySlots vm).
Definition PersistDirtyGlobals (dst : list GSlot) (vm : VM) : list GSlot :=
  let n := Z.min (zlen dst) (Z.min (zlen (globals vm)) (zlen (dirtyGlobals vm))) in
  fold_left (fun d i => if i <? n
                        then match zlookup (globals vm) i with
                             | Some g => zinsert i g d
                             | None => d
                             end
                        else d) (dirtySlots vm) dst.

(** [persistModuleGlobals] of src/internal/bcloader/loader.go. *)
Definition persistModuleGlobals (vm : VM) (globalsVM : list GSlot) : list GSlot :=
  if HasDirtyGlobals vm then PersistDirtyGlobals globalsVM vm else globalsVM.

(** ** What a slot holds *)

(** The value a read of a local or of a global answers. *)
Definition local_value (slot : Z) (vm : VM) : option Value :=
  match zlookup (localsStack vm) (local_index slot vm) with
  | Some (SVal v) => if decide (Kind v = VMKindUnset) then None else Some (ToValue v)
  | Some (SCell p) => default None (cells vm !! p)
  | Some (SAcc p) => Some (VString (default [] (accs vm !! p)))
  | None => None
  end.
Definition global_value (slot : Z) (vm : VM) : option Value :=
  match zlookup (globals vm) slot with
  | Some (GVal v) => if decide (Kind v = VMKindUnset) then None else Some (ToValue v)
  | Some (GAcc p) => Some (VString (default [] (accs vm !! p)))
  | None => None
  end.
Definition place_value (isGlobal : bool) (slot : Z) (vm : VM) : option Value :=
  if isGlobal then global_value slot vm else local_value slot vm.

Lemma zlookup_Some {A : Type} (l : list A) (i : Z) (a : A) :
  zlookup l i = Some a -> 0 <= i < zlen l /\ l !! Z.to_nat i = Some a.
Proof.
  unfold zlookup, zlen. destruct (Z.ltb_spec i 0); [done|]. intros Hl.
  apply lookup_lt_Some in Hl as Hb. split; [lia|done].
Qed.

Lemma zlookup_zinsert_eq {A : Type} (l : list A) (i : Z) (a b : A) :
  zlookup l i = Some a -> zlookup (zinsert i b l) i = Some b.
Proof.
  intros Hl. apply zlookup_Some in Hl as [Hb Hl]. apply lookup_lt_Some in Hl.
  unfold zlookup, zinsert. destruct (Z.ltb_spec i 0); [lia|].
  by rewrite list_lookup_insert_eq.
Qed.

Lemma zlookup_zinsert_ne {A : Type} (l : list A) (i j : Z) (b : A) :
  i <> j -> zlookup (zinsert i b l) j = zlookup l j.
Proof.
  intros Hne. unfold zlookup, zinsert. destruct (Z.ltb_spec i 0), (Z.ltb_spec j 0); try done.
  rewrite list_lookup_insert_ne by lia. done.
Qed.

Lemma at_index_Some {A : Type} (l : list A) (i : Z) (a : A) (vm : VM) :
  zlookup l i = Some a -> at_index l i vm = (vm, Ok a).
Proof. intros H. unfold at_index. by rewrite H. Qed.

Lemma grow_local_in (slot : Z) (vm : VM) (s : Slot) :
  zlookup (localsStack vm) (local_index slot vm) = Some s -> grow_local slot vm = (vm, Ok tt).
Proof.
  intros H. apply zlookup_Some in H as [H _].
  unfold grow_local, bind, get. destruct (Z.leb_spec (zlen (localsStack vm)) (local_index slot vm)); [lia|done].
Qed.

Lemma grow_global_in (slot : Z) (vm : VM) (s : GSlot) :
  zlookup (globals vm) slot = Some s -> grow_global slot vm = (vm, Ok tt).
Proof.
  intros H. apply zlookup_Some in H as [H _].
  unfold grow_global, bind, get. destruct (Z.leb_spec (zlen (globals vm)) slot); [lia|done].
Qed.

Lemma bind_ok {A B : Type} (m : vmM A) (k : A -> vmM B) (vm vm' : VM) (a : A) :
  m vm = (vm', Ok a) -> bind m k vm = k a vm'.
Proof. intros H. unfold bind. by rewrite H. Qed.

Lemma propagate_ok {A : Type} (m : vmM A) (vm vm' : VM) (a : A) :
  m vm = (vm', Ok a) -> propagate m vm = (vm', Ok a).
Proof. intros H. unfold propagate. by rewrite H. Qed.

Lemma reframe_ok {A : Type} (m : vmM A) (vm vm' : VM) (a : A) :
  m vm = (vm', Ok a) -> reframe m vm = (vm', Ok a).
Proof. intros H. unfold reframe. by rewrite H. Qed.

(** An integer value: of either representation, well formed. *)
Definition int_of (v : Value) (i : Z) : Prop := intToBigInt v = Some i /\ value_wf v = true.

Lemma int_of_roundtrip (v : Value) (i : Z) : int_of v i -> ToValue (VMValueFromValue v) = v.
Proof. intros [_ H]. by apply ToValue_FromValue. Qed.

Lemma int_of_kind (v : Value) (i : Z) : int_of v i -> Kind (VMValueFromValue v) <> VMKindUnset.
Proof. intros [H _]. by destruct v. Qed.

(** Reading a place that holds an integer does not change the state. *)
Lemma get_place (g : bool) (slot : Z) (vm : VM) (v : Value) (i : Z) :
  place_value g slot vm = Some v -> int_of v i ->
  (exists w, (if g then getGlobalVM slot else getLocalVM slot) vm = (vm, Ok w) /\ ToValue w = v)
  /\ (if g then getGlobal slot else getLocal slot) vm = (vm, Ok v).
Proof.
  intros Hv Hi. destruct g; cbn [place_value] in Hv.
  - unfold global_value in Hv. destruct (zlookup (globals vm) slot) as [s|] eqn:E; [|done].
    unfold getGlobalVM, getGlobal.
    rewrite !(bind_ok _ _ _ _ _ (grow_global_in slot vm s E)).
    unfold get, bind at 1 3. unfold bind. rewrite (at_index_Some _ _ _ vm E).
    destruct s as [w|p]; [|injection Hv as <-; by destruct Hi].
    destruct (decide (Kind w = VMKindUnset)); [done|]. injection Hv as <-. eauto.
  - unfold local_value in Hv. destruct (zlookup (localsStack vm) _) as [s|] eqn:E; [|done].
    unfold getLocalVM, getLocal.
    rewrite !(bind_ok _ _ _ _ _ (grow_local_in slot vm s E)).
    unfold get, bind at 1 3. unfold bind. rewrite (at_index_Some _ _ _ vm E).
    destruct s as [w|p|p]; [| |injection Hv as <-; by destruct Hi].
    + destruct (decide (Kind w = VMKindUnset)); [done|]. injection Hv as <-. eauto.
    + destruct (cells vm !! p) as [[c|]|]; simpl in Hv; try done. injection Hv as ->.
      split; [|done]. eexists. split; [reflexivity|]. by eapply int_of_roundtrip.
Qed.

(** The slots that a write to [slot] leaves alone: other indices, unless they
    share the captured variable's cell. *)
Definition separate (slot other : Z) (vm : VM) : Prop :=
  slot <> other /\
  forall p, zlookup (localsStack vm) (local_index slot vm) = Some (SCell p) ->
            zlookup (localsStack vm) (local_index other vm) <> Some (SCell p).

Lemma markDirtySlot_frame (slot : Z) (vm : VM) :
  globals (markDirtySlot slot vm) = globals vm /\ stack (markDirtySlot slot vm) = stack vm
  /\ accs (markDirtySlot slot vm) = accs vm
  /\ localsStack (markDirtySlot slot vm) = localsStack vm
  /\ currentFrameBP (markDirtySlot slot vm) = currentFrameBP vm
  /\ cells (markDirtySlot slot vm) = cells vm.
Proof. unfold markDirtySlot. by destruct (default false _). Qed.

Lemma dirty_frame (bridge : bool) (slot : Z) (vm : VM) :
  let vm' := (if bridge then markGlobalDirtyLocked slot else record_persist slot) vm in
  globals vm' = globals vm /\ stack vm' = stack vm /\ accs vm' = accs vm
  /\ localsStack vm' = localsStack vm /\ currentFrameBP vm' = currentFrameBP vm
  /\ cells vm' = cells vm.
Proof.
  destruct bridge; cbn zeta.
  - unfold markGlobalDirtyLocked. destruct (slot <? 0); [done|].
    destruct (_ <=? _); [|apply markDirtySlot_frame].
    exact (markDirtySlot_frame slot (set_dirty _ _ vm)).
  - unfold record_persist. destruct (_ && _); [apply markDirtySlot_frame|done].
Qed.

(** What a write to a place must achieve: the place reads back as the value,
    the stack is untouched, and every separate place keeps its value. *)
Definition writes (g : bool) (slot : Z) (v : Value) (vm vm' : VM) : Prop :=
  place_value g slot vm' = Some v /\ stack vm' = stack vm
  /\ (forall other, if g then other <> slot -> global_value other vm' = global_value other vm
                    else separate slot other vm -> local_value other vm' = local_value other vm)
  /\ (forall other, place_value (negb g) other vm' = place_value (negb g) other vm).

Lemma local_value_write (slot : Z) (w : VMValue) (vm : VM) (s : Slot) :
  zlookup (localsStack vm) (local_index slot vm) = Some s -> Kind w <> VMKindUnset ->
  writes false slot (ToValue w) vm
    (set_locals (zinsert (local_index slot vm) (SVal w) (localsStack vm)) vm).
Proof.
  intros E Hk. unfold writes, place_value, local_value, local_index. cbn.
  repeat split.
  - erewrite zlookup_zinsert_eq by exact E. by rewrite decide_False.
  - intros other [Hne _]. rewrite zlookup_zinsert_ne by lia. done.
Qed.

Lemma local_value_cell (slot : Z) (v : Value) (vm : VM) (p : Z) :
  zlookup (localsStack vm) (local_index slot vm) = Some (SCell p) ->
  writes false slot v vm (set_cells (<[p := Some v]> (cells vm)) vm).
Proof.
  intros E. unfold writes, place_value, local_value, local_index in *. cbn.
  repeat split.
  - rewrite E. by rewrite lookup_insert_eq.
  - intros other [_ Hs]. unfold local_index in Hs. specialize (Hs p E).
    destruct (zlookup (localsStack vm) (currentFrameBP vm + other)) as [[w|q|q]|]; try done.
    rewrite lookup_insert_ne; [done|]. congruence.
Qed.

Lemma set_place (g : bool) (slot : Z) (w : VMValue) (vm : VM) (v0 : Value) :
  place_value g slot vm = Some v0 -> Kind w <> VMKindUnset ->
  exists vm', (if g then setGlobalVM slot w else setLocalVM slot (StoreValue w)) vm = (vm', Ok tt)
              /\ writes g slot (ToValue w) vm vm'.
Proof.
  intros Hv Hk. destruct g; cbn [place_value] in Hv.
  - unfold global_value in Hv. destruct (zlookup (globals vm) slot) as [s|] eqn:E; [|done].
    unfold setGlobalVM. rewrite (bind_ok _ _ _ _ _ (grow_global_in slot vm s E)).
    set (vm1 := set_globals (zinsert slot (GVal w) (globals vm)) vm).
    exists ((if bridgeActive vm then markGlobalDirtyLocked slot else record_persist slot) vm1).
    split.
    + unfold get, bind at 1. unfold write_global, modify, get, bind.
      destruct (bridgeActive vm); rewrite (at_index_Some _ _ _ vm E); reflexivity.
    + pose proof (dirty_frame (bridgeActive vm) slot vm1) as (F1 & F2 & F3 & F4 & F5 & F6).
      unfold writes, place_value, global_value, local_value, local_index. cbn [negb].
      rewrite F1, F2, F3, F4, F5, F6. subst vm1. cbn. repeat split.
      * erewrite zlookup_zinsert_eq by exact E. by rewrite decide_False.
      * intros other Hne. by rewrite zlookup_zinsert_ne.
  - unfold local_value in Hv. destruct (zlookup (localsStack vm) _) as [s|] eqn:E; [|done].
    unfold setLocalVM. rewrite (bind_ok _ _ _ _ _ (grow_local_in slot vm s E)).
    unfold get, bind at 1. unfold bind at 1. rewrite (at_index_Some _ _ _ vm E).
    destruct s as [x|p|p].
    + eexists. split; [|by eapply local_value_write].
      unfold write_local, get, modify, bind. by rewrite (at_index_Some _ _ _ vm E).
    + eexists. split; [reflexivity|]. by apply local_value_cell.
    + eexists. split; [|by eapply local_value_write].
      unfold write_local, get, modify, bind. by rewrite (at_index_Some _ _ _ vm E).
Qed.

Lemma set_place_value (g : bool) (slot : Z) (v v0 : Value) (vm : VM) (i : Z) :
  place_value g slot vm = Some v0 -> int_of v i ->
  exists vm', (if g then setGlobal slot v else setLocal slot v) vm = (vm', Ok tt)
              /\ writes g slot v vm vm'.
Proof.
  intros Hv Hi. pose proof (int_of_kind v i Hi) as Hk. pose proof (int_of_roundtrip v i Hi) as Hr.
  destruct g; cbn [place_value] in Hv.
  - unfold global_value in Hv. destruct (zlookup (globals vm) slot) as [s|] eqn:E; [|done].
    unfold setGlobal. rewrite (bind_ok _ _ _ _ _ (grow_global_in slot vm s E)).
    set (vm1 := set_globals (zinsert slot (GVal (VMValueFromValue v)) (globals vm)) vm).
    exists (if bridgeActive vm then markGlobalDirtyLocked slot vm1 else vm1).
    split.
    + unfold get, bind at 1. unfold write_global, modify, get, bind.
      destruct (bridgeActive vm); rewrite (at_index_Some _ _ _ vm E); reflexivity.
    + pose proof (dirty_frame true slot vm1) as (F1 & F2 & F3 & F4 & F5 & F6).
      unfold writes, place_value, global_value, local_value, local_index. cbn [negb].
      destruct (bridgeActive vm); rewrite ?F1, ?F2, ?F3, ?F4, ?F5, ?F6; subst vm1; cbn; repeat split;
        first [ erewrite zlookup_zinsert_eq by exact E; rewrite decide_False, Hr; done
              | intros other Hne; by rewrite zlookup_zinsert_ne ].
  - unfold local_value in Hv. destruct (zlookup (localsStack vm) _) as [s|] eqn:E; [|done].
    unfold setLocal. rewrite (bind_ok _ _ _ _ _ (grow_local_in slot vm s E)).
    unfold get, bind at 1. unfold bind at 1. rewrite (at_index_Some _ _ _ vm E).
    rewrite <- Hr. destruct s as [x|p|p].
    + eexists. split; [|by eapply local_value_write]. rewrite Hr.
      unfold write_local, get, modify, bind. by rewrite (at_index_Some _ _ _ vm E).
    + eexists. split; [reflexivity|]. rewrite Hr. by apply local_value_cell.
    + eexists. split; [|by eapply local_value_write]. rewrite Hr.
      unfold write_local, get, modify, bind. by rewrite (at_index_Some _ _ _ vm E).
Qed.

(** ** Exactness of slot updates *)

Lemma int_of_checked (ov : bool) (z : Z) :
  ov = negb (is_int64 z) ->
  int_of (ToValue (if ov then VMValueFromValue (VInt z) else VMValueSmallInt (wrap64 z))) z
  /\ Kind (if ov then VMValueFromValue (VInt z) else VMValueSmallInt (wrap64 z)) <> VMKindUnset.
Proof.
  intros ->. unfold int_of. destruct (is_int64 z) eqn:E; cbn.
  - rewrite wrap64_id by done. repeat split; [exact E|discriminate].
  - repeat split. discriminate.
Qed.

Lemma incdec_delta_int64 (op : Op) : is_int64 (incdec_delta op) = true.
Proof. by destruct op. Qed.

(** Reading the operand of a kind that is not [SmallInt] leaves a big integer. *)
Lemma small_kind (w : VMValue) (i : Z) :
  int_of (ToValue w) i -> Kind w = VMKindSmallInt -> ToValue w = VSmallInt (I64 w) /\ I64 w = i
  /\ is_int64 i = true.
Proof.
  intros [Hi Hw] Hk. unfold ToValue in *. rewrite Hk in *. simpl in *. by injection Hi as <-.
Qed.

Lemma updatedIntValue_int (op : Op) (v : Value) (i : Z) :
  int_of v i -> exists v', updatedIntValue op v = Ok v' /\ int_of v' (i + incdec_delta op).
Proof.
  intros [Hi Hw]. pose proof (incdec_delta_int64 op) as Hd.
  destruct v; try discriminate; injection Hi as ->; cbn [updatedIntValue].
  - rewrite add_overflow_spec by done.
    destruct (is_int64 (i + incdec_delta op)) eqn:E; cbn [negb]; eexists; (split; [reflexivity|]).
    + rewrite wrap64_id by done. by split.
    + by split.
  - eexists. split; [reflexivity|]. by split.
Qed.

(** An update opcode run on a place of integer value [v]: the place holds the
    updated integer, the old value is pushed, everything separate is kept. *)
Definition updated (g : bool) (slot : Z) (w : VMValue) (z : Z) (vm : VM)
    (r : VM * result VMError unit) : Prop :=
  exists vm' v', r = (vm', Ok tt) /\ int_of v' z
    /\ place_value g slot vm' = Some v' /\ stack vm' = w :: stack vm
    /\ (forall other, if g then other <> slot -> global_value other vm' = global_value other vm
                      else separate slot other vm -> local_value other vm' = local_value other vm)
    /\ (forall other, place_value (negb g) other vm' = place_value (negb g) other vm).

Lemma push_after_write (g : bool) (slot : Z) (v' : Value) (w : VMValue) (z : Z) (vm vm' : VM) :
  writes g slot v' vm vm' -> int_of v' z ->
  updated g slot w z vm (pushVM w vm').
Proof.
  intros (H1 & H2 & H3 & H4) Hi. exists (set_stack (w :: stack vm') vm'), v'.
  split; [reflexivity|]. split; [exact Hi|]. split; [by destruct g|].
  split; [cbn; by rewrite H2|]. by destruct g.
Qed.

Definition incdec_global (op : Op) : option bool :=
  match op with
  | OpIncLocalInt | OpDecLocalInt => Some false
  | OpIncGlobalInt | OpDecGlobalInt => Some true
  | _ => None
  end.

Lemma updateIntSlot_exact (op : Op) (g : bool) (slot : Z) (vm : VM) (v : Value) (i : Z) :
  incdec_global op = Some g -> place_value g slot vm = Some v -> int_of v i ->
  exists w, ToValue w = v /\ updated g slot w (i + incdec_delta op) vm (updateIntSlot op slot vm).
Proof.
  intros Hop Hv Hi.
  destruct (get_place g slot vm v i Hv Hi) as [(w & Hg & Hw) _].
  exists w. split; [done|]. unfold updateIntSlot.
  assert (Hget : propagate (match op with
                            | OpIncLocalInt | OpDecLocalInt => getLocalVM slot
                            | OpIncGlobalInt | OpDecGlobalInt => getGlobalVM slot
                            | _ => fail (RuntimeError (bs "unknown integer slot update opcode"))
                            end) vm = (vm, Ok w)).
  { apply propagate_ok. destruct op; try discriminate; injection Hop as <-; exact Hg. }
  rewrite (bind_ok _ _ _ _ _ Hget). subst v.
  assert (Hn : exists n, (if decide (Kind w = VMKindSmallInt)
      then ret (if add_overflow (I64 w) (incdec_delta op)
                then VMValueFromValue (VInt (I64 w + incdec_delta op))
                else VMValueSmallInt (wrap64 (I64 w + incdec_delta op)))
      else propagate (do v <- lift (updatedIntValue op (ToValue w)); ret (VMValueFromValue v))) vm
      = (vm, Ok n) /\ int_of (ToValue n) (i + incdec_delta op) /\ Kind n <> VMKindUnset).
  { destruct (decide (Kind w = VMKindSmallInt)) as [Hk|Hk].
    - destruct (small_kind w i Hi Hk) as (_ & -> & Hr). eexists. split; [reflexivity|].
      apply int_of_checked, add_overflow_spec; [done|apply incdec_delta_int64].
    - destruct (updatedIntValue_int op _ i Hi) as (v' & Hu & Hi').
      exists (VMValueFromValue v'). rewrite Hu. split; [reflexivity|].
      rewrite (int_of_roundtrip v' _ Hi'). split; [done|]. by eapply int_of_kind. }
  destruct Hn as (n & Hn & Hni & Hnk). rewrite (bind_ok _ _ _ _ _ Hn).
  destruct (set_place g slot n vm _ Hv Hnk) as (vm' & Hs & Hwr).
  assert (Hset : propagate (match op with
                            | OpIncLocalInt | OpDecLocalInt => setLocalVM slot (StoreValue n)
                            | _ => setGlobalVM slot n
                            end) vm = (vm', Ok tt)).
  { apply propagate_ok. destruct op; try discriminate; injection Hop as <-; exact Hs. }
  rewrite (bind_ok _ _ _ _ _ Hset). by eapply push_after_write.
Qed.

Definition execIncDec (g : bool) (op : Op) (slot : Z) : vmM unit :=
  if g then execIncDecGlobal op slot else execIncDecLocal op slot.

(** C17: [++] and [--] on an integer variable are exact: whether the variable
    is a local, a captured local or a global, and whether it holds a small or
    a big integer, the opcode succeeds, the variable then holds the integer
    one above (or below), across the 64-bit boundary too, the old value is
    pushed, and no separate variable changes. *)
Theorem increment_exact (op : Op) (g : bool) (slot : Z) (vm : VM) (v : Value) (i : Z) :
  incdec_global op = Some g -> place_value g slot vm = Some v -> int_of v i ->
  exists w, ToValue w = v
            /\ updated g slot w (i + incdec_delta op) vm (execIncDec g op slot vm).
Proof.
  intros Hop Hv Hi. pose proof (updateIntSlot_exact op g slot vm v i Hop Hv Hi) as Hslow.
  pose proof Hv as Hv'. destruct g; cbn [place_value execIncDec] in *.
  - unfold global_value in Hv'. destruct (zlookup (globals vm) slot) as [s|] eqn:E; [|done].
    pose proof (zlookup_Some _ _ _ E) as [Hb _].
    unfold execIncDecGlobal, get, bind at 1.
    replace ((0 <=? slot) && (slot <? zlen (globals vm))) with true by lia. cbn [andb].
    destruct (bridgeActive vm); cbn [negb]; [exact Hslow|].
    unfold bind at 1. rewrite (at_index_Some _ _ _ vm E).
    destruct s as [w|p]; [|exact Hslow].
    destruct (decide (Kind w = VMKindUnset)); [done|]. injection Hv' as <-.
    case_decide as Hk; [|exact Hslow].
    destruct (small_kind w i Hi Hk) as (Hw & Hwi & Hr). rewrite Hwi.
    rewrite add_overflow_spec by (done || apply incdec_delta_int64).
    destruct (is_int64 (i + incdec_delta op)) eqn:Ei; cbn [negb]; [|exact Hslow].
    rewrite wrap64_id by done.
    exists w. split; [done|]. unfold write_global, get, modify, bind.
    rewrite (at_index_Some _ _ _ vm E).
    apply (push_after_write true slot (VSmallInt (i + incdec_delta op))); [|by split].
    unfold writes, place_value, global_value, local_value, local_index. cbn. repeat split.
    + by erewrite zlookup_zinsert_eq by exact E.
    + intros other Hne. by rewrite zlookup_zinsert_ne.
  - unfold local_value in Hv'.
    destruct (zlookup (localsStack vm) (local_index slot vm)) as [s|] eqn:E; [|done].
    pose proof (zlookup_Some _ _ _ E) as [Hb _].
    unfold execIncDecLocal, get, bind at 1.
    replace (local_index slot vm <? zlen (localsStack vm)) with true by lia.
    unfold bind at 1. unfold bind at 1. rewrite (at_index_Some _ _ _ vm E).
    destruct s as [w|p|p]; [|exact Hslow..].
    destruct (decide (Kind w = VMKindUnset)); [done|]. injection Hv' as <-. cbn [ret].
    case_decide as Hk; [|exact Hslow].
    destruct (small_kind w i Hi Hk) as (Hw & Hwi & Hr). rewrite Hwi.
    rewrite add_overflow_spec by (done || apply incdec_delta_int64).
    destruct (is_int64 (i + incdec_delta op)) eqn:Ei; cbn [negb]; [|exact Hslow].
    rewrite wrap64_id by done.
    exists w. split; [done|]. unfold write_local, get, modify, bind.
    rewrite (at_index_Some _ _ _ vm E).
    eapply (push_after_write false slot); [by eapply local_value_write|by split].
Qed.

Definition vm_example (locals : list Slot) (gs : list GSlot) (persist : bool) : VM :=
  mkState [] locals 0 gs [] false persist (map (fun _ => false) gs) []
    {[ 7 := Some (VInt (2 ^ 63)) ]} ∅.

Lemma increment_exact_witness :
  let vm := vm_example [SVal (VMValueSmallInt 5); SCell 7] [] false in
  exists w, ToValue w = VInt (2 ^ 63)
            /\ updated false 1 w (2 ^ 63 + incdec_delta OpDecLocalInt) vm
                 (execIncDec false OpDecLocalInt 1 vm).
Proof.
  apply (increment_exact OpDecLocalInt false 1 _ (VInt (2 ^ 63)) (2 ^ 63)); [reflexivity..|].
  split; reflexivity.
Defined.

(** ** Self-updating additions *)

Lemma addOrSubInt_exact (a b : Value) (x y : Z) (subtract : bool) :
  int_of a x -> int_of b y ->
  exists v, addOrSubInt a b subtract = Ok v /\ int_of v (if subtract then x - y else x + y).
Proof.
  intros [Ha Wa] [Hb Wb]. unfold int_of.
  destruct a; try discriminate; destruct b; try discriminate;
    injection Ha as ->; injection Hb as ->; cbn [addOrSubInt intToBigInt].
  - simpl in Wa, Wb. destruct subtract.
    + rewrite sub_overflow_spec by done. destruct (is_int64 (x - y)) eqn:E; cbn [negb];
        rewrite ?wrap64_id by done; eexists; by repeat split.
    + rewrite add_overflow_spec by done. destruct (is_int64 (x + y)) eqn:E; cbn [negb];
        rewrite ?wrap64_id by done; eexists; by repeat split.
  - set (r := if subtract then x - y else x + y).
    destruct (is_int64 r) eqn:E; eexists; by repeat split.
  - set (r := if subtract then x - y else x + y).
    destruct (is_int64 r) eqn:E; eexists; by repeat split.
  - set (r := if subtract then x - y else x + y).
    destruct (is_int64 r) eqn:E; eexists; by repeat split.
Qed.

(** The right operand of a self-update opcode. *)
Definition rhs_value (k : RhsKind) (operand : Z) (vm : VM) : option Value :=
  match k with
  | RhsLocal => local_value operand vm
  | RhsGlobal => global_value operand vm
  | RhsConst => Some (VSmallInt operand)
  end.

Lemma intSelfArith_exact (op : Op) g k sub (dst rhs : Z) (vm : VM) (a b : Value) (x y : Z) :
  selfArith_shape op = Some (g, k, sub) ->
  place_value g dst vm = Some a -> int_of a x ->
  rhs_value k rhs vm = Some b -> int_of b y ->
  exists w, int_of (ToValue w) (if sub then x - y else x + y)
    /\ updated g dst w (if sub then x - y else x + y) vm (intSelfArith op [dst; rhs] vm).
Proof.
  intros Hop Ha Hx Hb Hy. unfold intSelfArith. rewrite Hop.
  destruct (get_place g dst vm a x Ha Hx) as [_ Hg].
  rewrite (bind_ok _ _ _ _ _ (propagate_ok _ _ _ _ Hg)).
  assert (Hr : propagate (match k with
                          | RhsLocal => getLocal rhs
                          | RhsGlobal => getGlobal rhs
                          | RhsConst => ret (VSmallInt rhs)
                          end) vm = (vm, Ok b)).
  { apply propagate_ok. destruct k; cbn in Hb.
    - by destruct (get_place false rhs vm b y Hb Hy).
    - by destruct (get_place true rhs vm b y Hb Hy).
    - by injection Hb as <-. }
  rewrite (bind_ok _ _ _ _ _ Hr).
  destruct (addOrSubInt_exact a b x y sub Hx Hy) as (v & Hv & Hi).
  unfold lift at 1. rewrite Hv.
  rewrite (bind_ok (propagate (fun vm => (vm, Ok v))) _ vm vm v) by reflexivity.
  destruct (set_place_value g dst v a vm _ Ha Hi) as (vm' & Hs & Hw).
  assert (Hs' : propagate (if g then setGlobal dst v else setLocal dst v) vm = (vm', Ok tt))
    by (apply propagate_ok; by destruct g).
  rewrite (bind_ok _ _ _ _ _ Hs').
  exists (VMValueFromValue v). rewrite (int_of_roundtrip v _ Hi). split; [done|].
  by eapply push_after_write.
Qed.

(** The self-update opcodes ([x = x + y] and [x = x - y] fused into one
    instruction) are exact for all twelve combinations of a local or global
    target with a local, global or constant operand: the target then holds the
    exact sum or difference, which is also what is pushed, and no separate
    variable changes. *)
Theorem self_update_exact (op : Op) g k sub (dst rhs : Z) (vm : VM) (a b : Value) (x y : Z) :
  selfArith_shape op = Some (g, k, sub) ->
  place_value g dst vm = Some a -> int_of a x ->
  rhs_value k rhs vm = Some b -> int_of b y ->
  exists w, int_of (ToValue w) (if sub then x - y else x + y)
    /\ updated g dst w (if sub then x - y else x + y) vm (execSelfArith op [dst; rhs] vm).
Proof.
  intros Hop Ha Hx Hb Hy.
  pose proof (intSelfArith_exact op g k sub dst rhs vm a b x y Hop Ha Hx Hb Hy) as Hslow.
  unfold execSelfArith. rewrite Hop.
  destruct (get_place g dst vm a x Ha Hx) as [(lv & Hl & Hla) _].
  rewrite (bind_ok _ _ vm vm lv) by (apply reframe_ok; by destruct g).
  assert (Hr : exists rv, reframe (match k with
                          | RhsConst => ret (mkVM VMKindUnset 0 None)
                          | RhsLocal => getLocalVM rhs
                          | RhsGlobal => getGlobalVM rhs
                          end) vm = (vm, Ok rv) /\ (k <> RhsConst -> ToValue rv = b)).
  { destruct k; cbn in Hb.
    - destruct (get_place false rhs vm b y Hb Hy) as [(rv & H & E) _].
      exists rv. split; [by apply reframe_ok|done].
    - destruct (get_place true rhs vm b y Hb Hy) as [(rv & H & E) _].
      exists rv. split; [by apply reframe_ok|done].
    - eexists. by split. }
  destruct Hr as (rv & Hr & Hrv). rewrite (bind_ok _ _ _ _ _ Hr).
  match goal with |- context [match (if decide (Kind lv = VMKindSmallInt) then ?bv else None) with
                              | Some _ => _ | None => _ end] =>
    set (bv0 := bv) end.
  assert (Hbv : forall z, bv0 = Some z -> z = y /\ is_int64 y = true).
  { subst bv0. intros z. destruct k; cbn in Hb.
    - case_decide as Hk; [|done]. intros [= <-].
      rewrite <- (Hrv ltac:(done)) in Hy. by destruct (small_kind rv y Hy Hk) as (_ & ? & ?).
    - case_decide as Hk; [|done]. intros [= <-].
      rewrite <- (Hrv ltac:(done)) in Hy. by destruct (small_kind rv y Hy Hk) as (_ & ? & ?).
    - intros [= <-]. injection Hb as <-. destruct Hy as [Hy Wy]. simpl in *.
      by injection Hy as <-. }
  case_decide as Hk; [|exact Hslow].
  destruct bv0 as [z|]; [|exact Hslow]. destruct (Hbv z eq_refl) as [-> Hyr].
  subst a. destruct (small_kind lv x Hx Hk) as (_ & -> & Hxr).
  set (r := if sub then x - y else x + y).
  match goal with |- context [if g then setGlobalVM dst ?w else _] => set (w0 := w) end.
  assert (Hw0 : int_of (ToValue w0) r /\ Kind w0 <> VMKindUnset).
  { subst w0 r. destruct sub; apply int_of_checked;
      [by apply sub_overflow_spec|by apply add_overflow_spec]. }
  destruct Hw0 as [Hw0 Hkd].
  destruct (set_place g dst w0 vm _ Ha Hkd) as (vm' & Hs & Hwr).
  rewrite (bind_ok _ _ vm vm' tt) by (apply reframe_ok; by destruct g).
  exists w0. split; [done|]. by eapply push_after_write.
Qed.

Lemma self_update_exact_witness :
  let vm := vm_example [SVal (VMValueSmallInt (2 ^ 63 - 1))] [GVal (VMValueSmallInt 2)] false in
  exists w, int_of (ToValue w) (2 ^ 63 - 1 + 2)
    /\ updated false 0 w (2 ^ 63 - 1 + 2) vm (execSelfArith OpAddLocalIntGlobal [0; 0] vm).
Proof.
  apply (self_update_exact OpAddLocalIntGlobal false RhsGlobal false 0 0 _
           (VSmallInt (2 ^ 63 - 1)) (VSmallInt 2) (2 ^ 63 - 1) 2);
    first [reflexivity | split; reflexivity].
Defined.

(** ** Branches *)

(** The integer comparison a generic comparison opcode stands for. *)
Definition int_holds (cmp : Op) (x y : Z) : bool :=
  match cmp with
  | OpLess => x <? y
  | OpLessEqual => x <=? y
  | OpGreater => y <? x
  | OpGreaterEqual => y <=? x
  | _ => x =? y
  end.

Lemma int_of_rat (v : Value) (i : Z) : int_of v i -> NumericToRat v = Some (inject_Z i).
Proof. intros [H _]. destruct v; try discriminate; by injection H as ->. Qed.

Lemma compare_ints (op : Op) (a b : Value) (x y : Z) :
  int_of a x -> int_of b y -> op ∈ [OpLess; OpGreater; OpLessEqual; OpGreaterEqual] ->
  exists c, NumericCompare a b = Ok c /\ compare_result op c = int_holds op x y.
Proof.
  intros Ha Hb Hop.
  exists (cmp_to_Z (inject_Z x ?= inject_Z y)%Q). split.
  - destruct Ha as [Ha Wa], Hb as [Hb Wb].
    destruct a; try discriminate; destruct b; try discriminate;
      injection Ha as ->; injection Hb as ->; rewrite Qcompare_inject, cmp_to_Z_compare;
      unfold NumericCompare; cbn [numericCompareIntFast]; simpl in Wa, Wb; try reflexivity.
    + destruct (is_int64 y) eqn:E; [done|]. by rewrite compare_by_sign.
    + destruct (is_int64 x) eqn:E; [done|].
      rewrite compareInt64_antisym, compare_by_sign by done. f_equal. lia.
    + by rewrite cmp_to_Z_compare.
  - rewrite Qcompare_inject.
    destruct_members Hop; cbn; destruct (Z.compare_spec x y); cbn; lia.
Qed.

Lemma deepEqual_ints pe ide (a b : Value) (x y : Z) :
  int_of a x -> int_of b y -> deepEqual pe ide a b = Ok (x =? y).
Proof.
  intros [Ha Wa] [Hb Wb].
  assert (E : NumericValuesEqual a b = Some (x =? y)).
  { unfold NumericValuesEqual.
    rewrite (int_of_rat a x), (int_of_rat b y) by done. rewrite Qcompare_inject. f_equal.
    destruct (Z.compare_spec x y), (Z.eqb_spec x y); lia. }
  destruct a; try discriminate; destruct b; try discriminate; unfold deepEqual;
    cbn [IsNull orb]; by rewrite E.
Qed.

Lemma int_not_instance (v : Value) (i : Z) :
  int_of v i -> is_instance v = false /\ IsNull v = false /\ is_native_operand v = false.
Proof. intros [H _]. by destruct v. Qed.

(** The generic comparison run on two integers. *)
Lemma generic_compare_ints nb pe ide ic ie (cmp : Op) (vm : VM) rest lv rv (x y : Z) :
  stack vm = rv :: lv :: rest -> int_of (ToValue lv) x -> int_of (ToValue rv) y ->
  cmp ∈ [OpLess; OpGreater; OpLessEqual; OpGreaterEqual; OpEqual] ->
  (if decide (cmp = OpEqual) then equal pe ide ie else compare nb ic cmp) vm
  = (set_stack (VMValueBool (int_holds cmp x y) :: rest) vm, Ok tt).
Proof.
  intros Hst Hx Hy Hop.
  destruct (int_not_instance _ _ Hx) as (Ix & Nx & Ox).
  destruct (int_not_instance _ _ Hy) as (Iy & Ny & Oy).
  destruct (decide (cmp = OpEqual)) as [->|Hne].
  - unfold equal, propagate, pop, bind, popVM, ret. rewrite Hst. cbn [stack set_stack].
    rewrite Nx, Ny, Ix. cbn [orb]. rewrite (deepEqual_ints pe ide _ _ x y) by done.
    unfold push, pushVM, modify. cbn. by destruct (x =? y).
  - assert (Hop' : cmp ∈ [OpLess; OpGreater; OpLessEqual; OpGreaterEqual]).
    { destruct_members Hop; [repeat constructor..|]. done. }
    unfold compare, propagate, pop, bind, popVM, ret. rewrite Hst. cbn [stack set_stack].
    rewrite decide_True by done. rewrite Ix, Iy. cbn [orb].
    unfold BinaryOperatorValue. rewrite Ox, Oy. cbn [orb].
    destruct (compare_ints cmp _ _ x y Hx Hy Hop') as (c & -> & ->).
    unfold push, pushVM, modify. cbn. by destruct (int_holds cmp x y).
Qed.

(** C18: a compare-and-branch opcode decides like the comparison it fuses: on
    two integers of any representation the fast path and the fallback both pop
    the two operands and take the branch exactly when the integer comparison
    fails ([OpJumpIfEqualInt]: holds). *)
Theorem compare_jump_exact nb pe ide ic ie (op cmp : Op) (jumpIfTrue : bool) (target ip : Z)
    (vm : VM) rest lv rv (x y : Z) :
  jump_compare_op op = Some (cmp, jumpIfTrue) ->
  stack vm = rv :: lv :: rest -> int_of (ToValue lv) x -> int_of (ToValue rv) y ->
  execCompareJump nb pe ide ic ie op target ip vm
  = (set_stack rest vm,
     Ok (branch (if jumpIfTrue then int_holds cmp x y else negb (int_holds cmp x y)) target ip)).
Proof.
  intros Hop Hst Hx Hy. unfold execCompareJump. rewrite Hst. case_decide as Hk.
  - destruct Hk as [Hk1 Hk2].
    destruct (small_kind _ _ Hx Hk1) as (_ & -> & _).
    destruct (small_kind _ _ Hy Hk2) as (_ & -> & _).
    do 2 f_equal. f_equal. destruct op; try discriminate; injection Hop as <- <-; reflexivity.
  - unfold compareJumpIntFallback. rewrite Hop.
    assert (Hc : cmp ∈ [OpLess; OpGreater; OpLessEqual; OpGreaterEqual; OpEqual])
      by (destruct op; try discriminate; injection Hop as <- <-; repeat constructor).
    rewrite (bind_ok _ _ _ _ _
      (generic_compare_ints nb pe ide ic ie cmp vm rest lv rv x y Hst Hx Hy Hc)).
    unfold propagate, pop, bind, popVM, ret. cbn [stack set_stack].
    assert (E : ToValue (VMValueBool (int_holds cmp x y)) = VBool (int_holds cmp x y))
      by (by destruct (int_holds cmp x y)).
    rewrite E. reflexivity.
Qed.

Lemma compare_jump_exact_witness :
  let vm := set_stack [VMValueFromValue (VInt (2 ^ 70)); VMValueSmallInt 1] (vm_example [] [] false) in
  execCompareJump (fun _ a _ => Ok a) Z.eqb (fun _ _ => Ok false) (fun _ _ _ => None)
    (fun _ _ => None) OpJumpIfNotLessInt 40 10 vm = (set_stack [] vm, Ok 10).
Proof.
  apply (compare_jump_exact _ _ _ _ _ OpJumpIfNotLessInt OpLess false 40 10 _ []
           (VMValueSmallInt 1) (VMValueFromValue (VInt (2 ^ 70))) 1 (2 ^ 70));
    first [reflexivity | split; reflexivity].
Defined.

(** The fused remainder test agrees with the test it replaces on an
    unboxed small integer: for a local holding an [int64] and a non-zero
    divisor the branch is taken by [OpJumpIfModNotZero] exactly when the floor
    remainder is not zero and by [OpJumpIfModZero] exactly when it is. *)
Theorem mod_jump_small (op : Op) (target slot d ip : Z) (vm : VM) (i : Z) :
  op ∈ [OpJumpIfModNotZero; OpJumpIfModZero] ->
  zlookup (localsStack vm) (local_index slot vm) = Some (SVal (VMValueSmallInt i)) ->
  is_int64 i = true -> is_int64 d = true -> d <> 0 ->
  execModJump op [target; slot; d] ip vm
  = (vm, Ok (branch (if decide (op = OpJumpIfModNotZero) then negb (i mod d =? 0)
                     else i mod d =? 0) target ip)).
Proof.
  intros Hop E Hi Hd Hd0. pose proof (zlookup_Some _ _ _ E) as [Hb _].
  unfold execModJump, bind, get.
  replace ((local_index slot vm <? 0) || (zlen (localsStack vm) <=? local_index slot vm))
    with false by lia.
  rewrite (at_index_Some _ _ _ vm E). cbn [Kind I64 VMValueSmallInt].
  rewrite decide_True by done. destruct (Z.eqb_spec d 0); [done|].
  pose proof (small_mod_spec i d Hi Hd Hd0) as Hm. cbn zeta in Hm. by rewrite Hm.
Qed.

Lemma mod_jump_small_witness :
  let vm := vm_example [SVal (VMValueSmallInt (-4))] [] false in
  execModJump OpJumpIfModNotZero [9; 0; 3] 2 vm = (vm, Ok (branch (negb (-4 mod 3 =? 0)) 9 2)).
Proof.
  apply (mod_jump_small OpJumpIfModNotZero 9 0 3 2 _ (-4)); try reflexivity; [repeat constructor|done].
Defined.

(** On any other integer the fused test fails where the unfused sequence
    succeeds: a local that holds a big integer, or that a closure has captured
    into a cell, makes [execModJump] stop the program with a runtime error,
    although the generic remainder of the same operands is defined. *)
Theorem mod_jump_rejects (op : Op) (target slot d ip : Z) (vm : VM) (s : Slot) mp ff rs nb :
  zlookup (localsStack vm) (local_index slot vm) = Some s ->
  (exists i, s = SVal (VMValueFromValue (VInt i))) \/ (exists p, s = SCell p) ->
  execModJump op [target; slot; d] ip vm
    = (vm, Err (RuntimeError (bs "mod-jump fast path requires int local"))) /\
  (d <> 0 -> forall i, binaryNumericValues mp ff rs nb OpMod (VInt i) (VSmallInt d)
                       = Ok (VInt (i mod d))).
Proof.
  intros E Hs. pose proof (zlookup_Some _ _ _ E) as [Hb _]. split.
  - unfold execModJump, bind, get.
    replace ((local_index slot vm <? 0) || (zlen (localsStack vm) <=? local_index slot vm))
      with false by lia.
    rewrite (at_index_Some _ _ _ vm E). by destruct Hs as [[i ->]|[p ->]].
  - intros Hd i. cbn [binaryNumericValues intBinary].
    rewrite intFloorDivMod_spec by done. destruct (Z.eqb_spec (Z.sgn d) 0); [lia|done].
Qed.

Lemma mod_jump_rejects_witness :
  let vm := vm_example [SVal (VMValueFromValue (VInt (10 ^ 20)))] [] false in
  execModJump OpJumpIfModNotZero [9; 0; 2] 3 vm
    = (vm, Err (RuntimeError (bs "mod-jump fast path requires int local"))) /\
  (2 <> 0 -> forall i, binaryNumericValues (fun a _ => a) (fun _ => []) (fun _ => None)
                         (fun _ a _ => Ok a) OpMod (VInt i) (VSmallInt 2) = Ok (VInt (i mod 2))).
Proof.
  apply (mod_jump_rejects OpJumpIfModNotZero 9 0 2 3 _ (SVal (VMValueFromValue (VInt (10 ^ 20)))));
    [reflexivity|left; by eexists].
Defined.

(** ** Module globals written by a worker *)

(** The flags and the list of written slots say the same. *)
Definition dirty_inv (vm : VM) : Prop :=
  forall i, zlookup (dirtyGlobals vm) i = Some true <-> i ∈ dirtySlots vm.

Lemma markDirtySlot_inv (slot : Z) (vm : VM) :
  0 <= slot < zlen (dirtyGlobals vm) -> dirty_inv vm ->
  dirty_inv (markDirtySlot slot vm) /\ slot ∈ dirtySlots (markDirtySlot slot vm).
Proof.
  intros Hb Hinv.
  assert (exists b, zlookup (dirtyGlobals vm) slot = Some b) as [b Eb].
  { unfold zlookup, zlen in *. destruct (Z.ltb_spec slot 0); [lia|].
    apply lookup_lt_is_Some_2. lia. }
  unfold markDirtySlot. rewrite Eb. destruct b; cbn [default].
  - split; [done|]. by apply Hinv.
  - split; [|cbn; rewrite elem_of_app, list_elem_of_singleton; by right].
    intros i. cbn. rewrite elem_of_app, list_elem_of_singleton.
    destruct (decide (i = slot)) as [->|Hne].
    + erewrite zlookup_zinsert_eq by exact Eb. split; [by right|done].
    + rewrite zlookup_zinsert_ne by done. rewrite (Hinv i). split; [by left|]. by intros [?|?].
Qed.

(** Writing globals back to the module's record. *)
Lemma persist_keeps (vm : VM) (n i : Z) (g : GSlot) (slots : list Z) (d : list GSlot) :
  zlookup (globals vm) i = Some g -> zlookup d i = Some g ->
  zlookup (fold_left (fun d i => if i <? n
                        then match zlookup (globals vm) i with
                             | Some g => zinsert i g d | None => d end
                        else d) slots d) i = Some g.
Proof.
  intros Hg. revert d. induction slots as [|j slots IH]; intros d Hd; [done|].
  cbn [fold_left]. apply IH. destruct (j <? n); [|done].
  destruct (zlookup (globals vm) j) as [h|] eqn:Eh; [|done].
  destruct (decide (j = i)) as [->|Hne].
  - erewrite zlookup_zinsert_eq by exact Hd. congruence.
  - by rewrite zlookup_zinsert_ne.
Qed.

Lemma persist_copies (vm : VM) (n i : Z) (g : GSlot) (slots : list Z) (d : list GSlot) :
  zlookup (globals vm) i = Some g -> i ∈ slots -> i < n -> 0 <= i < zlen d ->
  zlookup (fold_left (fun d i => if i <? n
                        then match zlookup (globals vm) i with
                             | Some g => zinsert i g d | None => d end
                        else d) slots d) i = Some g.
Proof.
  intros Hg. revert d. induction slots as [|j slots IH]; intros d Hin Hn Hd.
  { by apply elem_of_nil in Hin. }
  cbn [fold_left]. apply elem_of_cons in Hin. destruct (decide (i = j)) as [->|Hne].
  - destruct (Z.ltb_spec j n); [|lia]. rewrite Hg. apply persist_keeps; [done|].
    unfold zlookup, zinsert, zlen in *. destruct (Z.ltb_spec j 0); [lia|].
    rewrite list_lookup_insert_eq by lia. done.
  - destruct Hin as [|Hin]; [done|]. apply IH; [done..|].
    destruct (j <? n); [|done]. destruct (zlookup (globals vm) j); [|done].
    unfold zinsert. destruct (j <? 0); [done|]. unfold zlen in *. by rewrite length_insert.
Qed.

(** The write that a worker records: the slot is copied back. *)
Lemma recorded_persists (slot : Z) (w : VMValue) (vm : VM) (globalsVM : list GSlot) (s : GSlot) :
  zlookup (globals vm) slot = Some s ->
  persistGlobals vm = true -> dirty_inv vm ->
  slot < zlen (dirtyGlobals vm) -> slot < zlen globalsVM ->
  let vm' := record_persist slot (set_globals (zinsert slot (GVal w) (globals vm)) vm) in
  dirty_inv vm' /\ zlookup (globals vm') slot = Some (GVal w) /\
  zlookup (persistModuleGlobals vm' globalsVM) slot = Some (GVal w).
Proof.
  intros E Hp Hinv Hd Hg. pose proof (zlookup_Some _ _ _ E) as [Hb _].
  set (vm1 := set_globals (zinsert slot (GVal w) (globals vm)) vm). cbn zeta.
  assert (Hr : record_persist slot vm1 = markDirtySlot slot vm1).
  { unfold record_persist. subst vm1. cbn. rewrite Hp.
    destruct (Z.ltb_spec slot (zlen (dirtyGlobals vm))); [done|lia]. }
  rewrite Hr.
  destruct (markDirtySlot_inv slot vm1) as [Hi Hin]; [subst vm1; cbn; lia|exact Hinv|].
  pose proof (markDirtySlot_frame slot vm1) as (Hgl & _).
  assert (Hnew : zlookup (globals (markDirtySlot slot vm1)) slot = Some (GVal w)).
  { rewrite Hgl. subst vm1. cbn. by erewrite zlookup_zinsert_eq by exact E. }
  split; [done|]. split; [done|].
  assert (Hlen : zlen (dirtyGlobals (markDirtySlot slot vm1)) = zlen (dirtyGlobals vm)).
  { unfold markDirtySlot. subst vm1. cbn. destruct (default false _); [done|]. cbn.
    unfold zinsert, zlen. destruct (slot <? 0); [done|]. by rewrite length_insert. }
  unfold persistModuleGlobals, HasDirtyGlobals.
  replace (0 <? zlen (dirtySlots (markDirtySlot slot vm1))) with true.
  2: { symmetry. apply Z.ltb_lt. unfold zlen. destruct (dirtySlots _); [by apply elem_of_nil in Hin|].
       simpl. lia. }
  unfold PersistDirtyGlobals. apply persist_copies; [done|done| |lia].
  rewrite Hgl, Hlen. subst vm1. cbn.
  assert (zlen (zinsert slot (GVal w) (globals vm)) = zlen (globals vm)).
  { unfold zinsert, zlen. destruct (slot <? 0); [done|]. by rewrite length_insert. }
  lia.
Qed.

(** [m] stores [w] in the global, leaves [st] on the stack, and the value is
    what the worker's caller finds in the module's globals afterwards. *)
Definition survives (slot : Z) (w : VMValue) (globalsVM : list GSlot) (st : list VMValue) (vm : VM)
    (m : vmM unit) : Prop :=
  exists vm', m vm = (vm', Ok tt) /\ stack vm' = st /\ dirty_inv vm' /\
    zlookup (globals vm') slot = Some (GVal w) /\
    zlookup (persistModuleGlobals vm' globalsVM) slot = Some (GVal w).

(** A state in which a loader worker can write the global. *)
Definition worker (slot : Z) (vm : VM) (globalsVM : list GSlot) : Prop :=
  persistGlobals vm = true /\ bridgeActive vm = false /\ dirty_inv vm /\
  0 <= slot < zlen (globals vm) /\ slot < zlen (dirtyGlobals vm) /\ slot < zlen globalsVM.

Lemma worker_slot (slot : Z) (vm : VM) (globalsVM : list GSlot) :
  worker slot vm globalsVM -> exists s, zlookup (globals vm) slot = Some s.
Proof.
  intros (_ & _ & _ & Hb & _). unfold zlookup, zlen in *. destruct (Z.ltb_spec slot 0); [lia|].
  apply lookup_lt_is_Some_2. lia.
Qed.

(** The state after a write of a global that no bridge worker can see. *)
Definition written (slot : Z) (w : VMValue) (vm : VM) : VM :=
  record_persist slot (set_globals (zinsert slot (GVal w) (globals vm)) vm).

Lemma setGlobalVM_written (slot : Z) (w : VMValue) (vm : VM) (s : GSlot) :
  zlookup (globals vm) slot = Some s -> bridgeActive vm = false ->
  setGlobalVM slot w vm = (written slot w vm, Ok tt).
Proof.
  intros E Hbr. unfold setGlobalVM. rewrite (bind_ok _ _ _ _ _ (grow_global_in slot vm s E)).
  unfold get, bind at 1. rewrite Hbr.
  unfold write_global, modify, get, bind. by rewrite (at_index_Some _ _ _ vm E).
Qed.

Lemma written_stack (slot : Z) (w : VMValue) (vm : VM) : stack (written slot w vm) = stack vm.
Proof.
  destruct (dirty_frame false slot (set_globals (zinsert slot (GVal w) (globals vm)) vm)) as (_ & F & _).
  exact F.
Qed.

Lemma setGlobalVM_survives (slot : Z) (w : VMValue) (vm : VM) (globalsVM : list GSlot) :
  worker slot vm globalsVM -> survives slot w globalsVM (stack vm) vm (setGlobalVM slot w).
Proof.
  intros Hw. destruct (worker_slot _ _ _ Hw) as [s E].
  destruct Hw as (Hp & Hbr & Hinv & Hb & Hd & Hg).
  exists (written slot w vm). split; [by eapply setGlobalVM_written|]. split; [apply written_stack|].
  by eapply recorded_persists.
Qed.

Lemma execSetGlobal_survives (slot : Z) (w : VMValue) (st : list VMValue) (vm : VM) (globalsVM : list GSlot) :
  worker slot vm globalsVM -> stack vm = w :: st ->
  survives slot w globalsVM (w :: st) vm (execSetGlobal slot).
Proof.
  intros Hw Hst.
  assert (Hw1 : worker slot (set_stack st vm) globalsVM) by exact Hw.
  destruct (worker_slot _ _ _ Hw1) as [s E]. pose proof Hw as (Hp & Hbr & Hinv & Hb & Hd & Hg).
  cbn [globals set_stack] in E.
  set (vm1 := set_stack st vm) in *.
  assert (Hpop : reframe popVM vm = (vm1, Ok w)) by (apply reframe_ok; unfold popVM; by rewrite Hst).
  assert (H : execSetGlobal slot vm
              = (set_stack (w :: stack (written slot w vm1)) (written slot w vm1), Ok tt)).
  { unfold execSetGlobal. rewrite (bind_ok _ _ _ _ _ Hpop). unfold get, bind at 1.
    change (bridgeActive vm1) with (bridgeActive vm). change (globals vm1) with (globals vm).
    rewrite Hbr. replace (slot <? zlen (globals vm)) with true by lia. cbn [negb andb].
    unfold bind at 1. rewrite (at_index_Some _ _ _ vm1 E). destruct (gslot_boxed s).
    - by rewrite (bind_ok _ _ _ _ _ (reframe_ok _ _ _ _ (setGlobalVM_written slot w vm1 s E Hbr))).
    - unfold write_global, pushVM, modify, get, bind.
      change (globals vm1) with (globals vm). by rewrite (at_index_Some _ _ _ vm1 E). }
  exists (set_stack (w :: stack (written slot w vm1)) (written slot w vm1)).
  split; [exact H|]. split; [cbn; by rewrite written_stack|].
  by apply (recorded_persists slot w vm1 globalsVM s).
Qed.

(** The operand of a self-update opcode holds the small integer [y]. *)
Definition small_operand (k : RhsKind) (rhs y : Z) (vm : VM) : Prop :=
  is_int64 y = true /\
  match k with
  | RhsLocal => getLocalVM rhs vm = (vm, Ok (VMValueSmallInt y))
  | RhsGlobal => getGlobalVM rhs vm = (vm, Ok (VMValueSmallInt y))
  | RhsConst => y = rhs
  end.

Lemma execSelfArith_survives (op : Op) (k : RhsKind) (sub : bool) (slot rhs x y : Z) (vm : VM)
    (globalsVM : list GSlot) :
  worker slot vm globalsVM -> selfArith_shape op = Some (true, k, sub) ->
  is_int64 x = true -> zlookup (globals vm) slot = Some (GVal (VMValueSmallInt x)) ->
  small_operand k rhs y vm ->
  exists w, int_of (ToValue w) (if sub then x - y else x + y) /\
    survives slot w globalsVM (w :: stack vm) vm (execSelfArith op [slot; rhs]).
Proof.
  intros Hw Hop Hx E [Hy Hrhs]. unfold survives, execSelfArith. rewrite Hop.
  assert (Hl : reframe (getGlobalVM slot) vm = (vm, Ok (VMValueSmallInt x))).
  { apply reframe_ok. unfold getGlobalVM. rewrite (bind_ok _ _ _ _ _ (grow_global_in slot vm _ E)).
    unfold get, bind. by rewrite (at_index_Some _ _ _ vm E). }
  rewrite (bind_ok _ _ _ _ _ Hl).
  assert (Hr : exists rv, reframe (match k with
                 | RhsConst => ret (mkVM VMKindUnset 0 None)
                 | RhsLocal => getLocalVM rhs
                 | RhsGlobal => getGlobalVM rhs
                 end) vm = (vm, Ok rv) /\
      match k with
      | RhsConst => Some rhs
      | _ => if decide (Kind rv = VMKindSmallInt) then Some (I64 rv) else None
      end = Some y).
  { destruct k; [exists (VMValueSmallInt y); split; [by apply reframe_ok|done]..|].
    eexists. split; [reflexivity|]. by rewrite Hrhs. }
  destruct Hr as (rv & Hr & Hbv). rewrite (bind_ok _ _ _ _ _ Hr). cbv zeta. rewrite Hbv.
  cbn [Kind I64 VMValueSmallInt]. rewrite decide_True by done.
  match goal with |- context [setGlobalVM slot ?w] => set (w0 := w) end.
  assert (Hw0 : int_of (ToValue w0) (if sub then x - y else x + y)).
  { subst w0. destruct sub; apply int_of_checked; [by apply sub_overflow_spec|by apply add_overflow_spec]. }
  destruct (setGlobalVM_survives slot w0 vm globalsVM Hw) as (vm' & Hset & Hst' & H).
  exists w0. split; [done|]. rewrite (bind_ok _ _ _ _ _ (reframe_ok _ _ _ _ Hset)).
  exists (set_stack (w0 :: stack vm') vm'). rewrite Hst'. split; [by rewrite <- Hst'|]. by split.
Qed.

(** C19: a loader worker's assignment to a module global survives its return.
    Three ways of writing a global in a worker are covered: the store of
    [setGlobalVM]; the assignment opcode [OpSetGlobal], on its own fast path
    (vm.go:1288) and, when the slot holds a boxed value, through
    [setGlobalVM]; and the self-updates [x += y] and [x -= y] of a global that holds
    a small integer, by a small integer.  Each succeeds, leaves its
    value on the stack, keeps the record of written slots consistent, and the
    write-back copies the new value into the module's globals; a self-update
    stores the exact sum or difference.  The writes that go through [setGlobal]
    (a self-update of or by a big integer) and the in-place increment are not
    recorded and are not covered: [self_update_not_persisted] and
    [increment_not_persisted]. *)
Theorem persist_assignment (slot : Z) (vm : VM) (globalsVM : list GSlot) :
  worker slot vm globalsVM ->
  (forall w, survives slot w globalsVM (stack vm) vm (setGlobalVM slot w)) /\
  (forall w st, stack vm = w :: st -> survives slot w globalsVM (w :: st) vm (execSetGlobal slot)) /\
  (forall op k sub rhs x y,
     selfArith_shape op = Some (true, k, sub) ->
     is_int64 x = true -> zlookup (globals vm) slot = Some (GVal (VMValueSmallInt x)) ->
     small_operand k rhs y vm ->
     exists w, int_of (ToValue w) (if sub then x - y else x + y) /\
       survives slot w globalsVM (w :: stack vm) vm (execSelfArith op [slot; rhs])).
Proof.
  intros Hw. split_and!.
  - intros w. by apply setGlobalVM_survives.
  - intros w st Hst. by apply execSetGlobal_survives.
  - intros op k sub rhs x y. by apply execSelfArith_survives.
Qed.

Definition worker_example : VM :=
  set_stack [VMValueSmallInt 6] (vm_example [] [GVal (VMValueSmallInt 5)] true).

Lemma persist_assignment_witness :
  survives 0 (VMValueSmallInt 6) [GVal (VMValueSmallInt 5)] [VMValueSmallInt 6] worker_example
    (execSetGlobal 0) /\
  exists w, int_of (ToValue w) (5 + 3) /\
    survives 0 w [GVal (VMValueSmallInt 5)] [w; VMValueSmallInt 6] worker_example
      (execSelfArith OpAddGlobalIntConst [0; 3]).
Proof.
  destruct (persist_assignment 0 worker_example [GVal (VMValueSmallInt 5)]) as (_ & H2 & H3).
  - split_and!; try reflexivity.
    intros i. cbn. split; [|by intros ?%elem_of_nil].
    unfold zlookup. destruct (i <? 0); [done|]. destruct (Z.to_nat i) as [|[]]; discriminate.
  - split; [by apply H2|].
    apply (H3 OpAddGlobalIntConst RhsConst false 3 5 3); repeat split.
Defined.

(** A self-update by way of [intSelfArith] does not survive: with a big integer
    in the global, [setGlobal] stores the result and records nothing. *)
Theorem self_update_not_persisted (slot rhs i : Z) (vm : VM) (globalsVM : list GSlot) :
  zlookup (globals vm) slot = Some (GVal (VMValueFromValue (VInt i))) ->
  bridgeActive vm = false -> dirtySlots vm = [] ->
  exists vm', execSelfArith OpAddGlobalIntConst [slot; rhs] vm = (vm', Ok tt)
    /\ global_value slot vm' = Some (if is_int64 (i + rhs) then VSmallInt (i + rhs) else VInt (i + rhs))
    /\ HasDirtyGlobals vm' = false /\ persistModuleGlobals vm' globalsVM = globalsVM.
Proof.
  intros E Hbr Hd.
  unfold execSelfArith, intSelfArith. cbn [selfArith_shape].
  assert (Hg : getGlobalVM slot vm = (vm, Ok (VMValueFromValue (VInt i)))).
  { unfold getGlobalVM. rewrite (bind_ok _ _ _ _ _ (grow_global_in slot vm _ E)).
    unfold get, bind. by rewrite (at_index_Some _ _ _ vm E). }
  assert (Hg' : getGlobal slot vm = (vm, Ok (VInt i))).
  { unfold getGlobal. rewrite (bind_ok _ _ _ _ _ (grow_global_in slot vm _ E)).
    unfold get, bind. by rewrite (at_index_Some _ _ _ vm E). }
  rewrite (bind_ok _ _ _ _ _ (reframe_ok _ _ _ _ Hg)).
  rewrite (bind_ok _ _ vm vm (mkVM VMKindUnset 0 None)) by reflexivity. cbv zeta.
  rewrite decide_False by done.
  rewrite (bind_ok _ _ _ _ _ (propagate_ok _ _ _ _ Hg')).
  rewrite (bind_ok _ _ vm vm (VSmallInt rhs)) by reflexivity.
  set (v := if is_int64 (i + rhs) then VSmallInt (i + rhs) else VInt (i + rhs)).
  rewrite (bind_ok _ _ vm vm v)
    by (apply propagate_ok; unfold lift, addOrSubInt, intToBigInt; subst v; by destruct (is_int64 _)).
  set (vm1 := set_globals (zinsert slot (GVal (VMValueFromValue v)) (globals vm)) vm).
  assert (Hset : setGlobal slot v vm = (vm1, Ok tt)).
  { unfold setGlobal. rewrite (bind_ok _ _ _ _ _ (grow_global_in slot vm _ E)).
    unfold get, bind at 1. rewrite Hbr. unfold write_global, modify, get, bind.
    by rewrite (at_index_Some _ _ _ vm E). }
  rewrite (bind_ok _ _ _ _ _ (propagate_ok _ _ _ _ Hset)).
  eexists. split; [reflexivity|]. split.
  - unfold global_value. cbn. erewrite zlookup_zinsert_eq by exact E.
    subst v. by destruct (is_int64 _).
  - unfold persistModuleGlobals, HasDirtyGlobals. cbn. by rewrite Hd.
Qed.

Lemma self_update_not_persisted_witness :
  let vm := vm_example [] [GVal (VMValueFromValue (VInt (2 ^ 70)))] true in
  exists vm', execSelfArith OpAddGlobalIntConst [0; 1] vm = (vm', Ok tt)
    /\ global_value 0 vm' = Some (VInt (2 ^ 70 + 1))
    /\ HasDirtyGlobals vm' = false /\ persistModuleGlobals vm' [] = [].
Proof. apply (self_update_not_persisted 0 1 (2 ^ 70)); reflexivity. Defined.

(** An increment of the same global does not survive: the in-place fast
    path of [OpIncGlobalInt] and [OpDecGlobalInt] records nothing, so a worker
    that only increments a module global reports no dirty globals and its
    caller's copy keeps the old value. *)
Theorem increment_not_persisted (op : Op) (slot : Z) (vm : VM) (i : Z) (globalsVM : list GSlot) :
  zlookup (globals vm) slot = Some (GVal (VMValueSmallInt i)) ->
  bridgeActive vm = false -> dirtySlots vm = [] ->
  is_int64 i = true -> is_int64 (i + incdec_delta op) = true ->
  exists vm', execIncDecGlobal op slot vm = (vm', Ok tt)
    /\ zlookup (globals vm') slot = Some (GVal (VMValueSmallInt (i + incdec_delta op)))
    /\ HasDirtyGlobals vm' = false /\ persistModuleGlobals vm' globalsVM = globalsVM.
Proof.
  intros E Hbr Hd Hi Hi'. pose proof (zlookup_Some _ _ _ E) as [Hb _].
  unfold execIncDecGlobal, get, bind at 1.
  replace ((0 <=? slot) && (slot <? zlen (globals vm))) with true by lia.
  rewrite Hbr. cbn [andb negb]. unfold bind at 1. rewrite (at_index_Some _ _ _ vm E).
  cbn [Kind I64 VMValueSmallInt]. rewrite decide_True by done.
  rewrite add_overflow_spec, Hi' by (done || apply incdec_delta_int64). cbn [negb].
  rewrite wrap64_id by done.
  unfold write_global, pushVM, modify, get, bind. rewrite (at_index_Some _ _ _ vm E).
  eexists. split; [reflexivity|]. cbn. split; [by erewrite zlookup_zinsert_eq by exact E|].
  unfold persistModuleGlobals, HasDirtyGlobals. cbn. by rewrite Hd.
Qed.

Lemma increment_not_persisted_witness :
  let vm := vm_example [] [GVal (VMValueSmallInt 5)] true in
  exists vm', execIncDecGlobal OpIncGlobalInt 0 vm = (vm', Ok tt)
    /\ zlookup (globals vm') 0 = Some (GVal (VMValueSmallInt (5 + incdec_delta OpIncGlobalInt)))
    /\ HasDirtyGlobals vm' = false
    /\ persistModuleGlobals vm' [GVal (VMValueSmallInt 5)] = [GVal (VMValueSmallInt 5)].
Proof. apply (increment_not_persisted OpIncGlobalInt 0 _ 5); reflexivity. Defined.
