(* ===== verification/DictStore.v ===== *)
(** * DictStore: the ordered dictionary

    [runtime.Dict] and its adaptive store (src/internal/runtime/dict_store.go
    and the [Dict] methods of value.go): up to eight entries in an inline array,
    then a hash map with a list of keys in insertion order, and a running count
    of the keys that are not strings.  The specification is an association
    list in insertion order. *)

From stdpp Require Import sorting fin_map_dom gmap.
From S2P Require Import Prelude GoText Value.
#[local] Open Scope Z_scope.

(** ** The store *)

Definition dictInlineMax : nat := 8.

(** [DictEntry]; [None] is a nil interface, which the zero entry holds. *)
Record DictEntry := mkEntry { Key : option Value; EntryVal : option Value }.
Definition zeroEntry : DictEntry := mkEntry None None.

(** [dictData]: [m = None] is the nil map of the inline state. *)
Record dictData := mkDict {
  items : list (gostring * DictEntry);
  m : option (gmap gostring DictEntry);
  order : list gostring;
  nonStringKeys : Z }.

Definition emptyDictData : dictData := mkDict [] None [] 0.

(** [dictData.length]. *)
Definition dict_length (d : dictData) : Z :=
  match m d with
  | Some mm => Z.of_nat (size mm)
  | None => zlen (items d)
  end.

Fixpoint find_item (key : gostring) (l : list (gostring * DictEntry)) : option DictEntry :=
  match l with
  | [] => None
  | (k, e) :: l' => if decide (k = key) then Some e else find_item key l'
  end.

(** [dictData.get]. *)
Definition dict_get (d : dictData) (key : gostring) : option DictEntry :=
  match m d with
  | Some mm => mm !! key
  | None => find_item key (items d)
  end.

(** [dictData.replaceKeyType]: the change of the count of non-string keys. *)
Definition non_string (k : option Value) : Z :=
  match k with
  | None => 0
  | Some (VString _) => 0
  | Some _ => 1
  end.
Definition replaceKeyType (old next : option Value) (count : Z) : Z :=
  count - non_string old + non_string next.

(** The first item with the key gets a new entry. *)
Fixpoint replace_item (key : gostring) (entry : DictEntry) (l : list (gostring * DictEntry))
    : list (gostring * DictEntry) :=
  match l with
  | [] => []
  | (k, e) :: l' => if decide (k = key) then (k, entry) :: l'
                    else (k, e) :: replace_item key entry l'
  end.

(** [dictData.set]. *)
Definition dict_set (d : dictData) (key : gostring) (entry : DictEntry) : dictData :=
  match m d with
  | Some mm =>
      let old := default zeroEntry (mm !! key) in
      let order' := match mm !! key with Some _ => order d | None => order d ++ [key] end in
      mkDict (items d) (Some (<[key := entry]> mm)) order'
        (replaceKeyType (Key old) (Key entry) (nonStringKeys d))
  | None =>
      match find_item key (items d) with
      | Some old =>
          mkDict (replace_item key entry (items d)) None (order d)
            (replaceKeyType (Key old) (Key entry) (nonStringKeys d))
      | None =>
          let count := replaceKeyType None (Key entry) (nonStringKeys d) in
          if (length (items d) <? dictInlineMax)%nat
          then mkDict (items d ++ [(key, entry)]) None (order d) count
          else
            let mm := fold_left (fun mm i => <[fst i := snd i]> mm) (items d) ∅ in
            mkDict [] (Some (<[key := entry]> mm)) (map fst (items d) ++ [key]) count
      end
  end.

Fixpoint remove_key (key : gostring) (l : list gostring) : list gostring :=
  match l with
  | [] => []
  | k :: l' => if decide (k = key) then l' else k :: remove_key key l'
  end.

Fixpoint remove_item (key : gostring) (l : list (gostring * DictEntry))
    : list (gostring * DictEntry) :=
  match l with
  | [] => []
  | (k, e) :: l' => if decide (k = key) then l' else (k, e) :: remove_item key l'
  end.

(** [dictData.del]. *)
Definition dict_del (d : dictData) (key : gostring) : dictData :=
  match m d with
  | Some mm =>
      match mm !! key with
      | None => d
      | Some old =>
          mkDict (items d) (Some (delete key mm)) (remove_key key (order d))
            (replaceKeyType (Key old) None (nonStringKeys d))
      end
  | None =>
      match find_item key (items d) with
      | None => d
      | Some old =>
          mkDict (remove_item key (items d)) None (order d)
            (replaceKeyType (Key old) None (nonStringKeys d))
      end
  end.

(** [dictData.clear]. *)
Definition dict_clear (d : dictData) : dictData := mkDict [] None [] 0.

(** [dictData.orderedKeys]. *)
Definition dict_orderedKeys (d : dictData) : list gostring :=
  match m d with
  | Some _ => order d
  | None => map fst (items d)
  end.

(** The entries that [dictData.forEach] visits, in order. *)
Definition dict_entries (d : dictData) : list (gostring * DictEntry) :=
  match m d with
  | Some mm => omap (fun k => (fun e => (k, e)) <$> mm !! k) (order d)
  | None => items d
  end.

(** Visiting stops when the callback, a fold on its own state, answers false. *)
Fixpoint visit {S : Type} (fn : gostring -> DictEntry -> S -> S * bool)
    (l : list (gostring * DictEntry)) (s : S) : S :=
  match l with
  | [] => s
  | (k, e) :: l' => let (s', more) := fn k e s in if more then visit fn l' s' else s'
  end.
Definition dict_forEach {S : Type} (d : dictData) (fn : gostring -> DictEntry -> S -> S * bool)
    (s : S) : S := visit fn (dict_entries d) s.

(** ** [runtime.Dict] *)

(** A dict shares a store ([NewDict]), or is built from a literal over a Go
    map and an optional list of keys. *)
Inductive Dict :=
| Stored (data : dictData)
| Literal (Entries : option (gmap gostring DictEntry)) (Order : option (list gostring)).

Definition NewDict : Dict := Stored emptyDictData.

(** [NewDictHint]. *)
Definition NewDictHint (n : Z) : Dict :=
  Stored (if n >? Z.of_nat dictInlineMax then mkDict [] (Some ∅) [] 0 else emptyDictData).

Definition is_string_key (k : option Value) : bool :=
  match k with Some (VString _) => true | _ => false end.

(** [Dict.HasOnlyStringKeys]. *)
Definition HasOnlyStringKeys (v : Dict) : bool :=
  match v with
  | Stored d => nonStringKeys d =? 0
  | Literal es _ => forallb (fun kv => is_string_key (Key (snd kv))) (map_to_list (default ∅ es))
  end.

(** [Dict.PutEntry], [DelEntry] and [Clear]. *)
Definition PutEntry (v : Dict) (key : gostring) (entry : DictEntry) : Dict :=
  match v with
  | Stored d => Stored (dict_set d key entry)
  | Literal None o => Literal None o
  | Literal (Some es) o =>
      let o' := match es !! key, o with
                | None, Some ks => Some (ks ++ [key])
                | _, _ => o
                end in
      Literal (Some (<[key := entry]> es)) o'
  end.

Definition DelEntry (v : Dict) (key : gostring) : Dict :=
  match v with
  | Stored d => Stored (dict_del d key)
  | Literal None o => Literal None o
  | Literal (Some es) o =>
      match es !! key with
      | None => Literal (Some es) o
      | Some _ => Literal (Some (delete key es)) (remove_key key <$> o)
      end
  end.

Definition Clear (v : Dict) : Dict :=
  match v with
  | Stored d => Stored (dict_clear d)
  | Literal es o => Literal ((fun _ => ∅) <$> es) ((fun _ => []) <$> o)
  end.

(** [Dict.GetEntry] and [Dict.EntryValue]. *)
Definition GetEntry (v : Dict) (key : gostring) : option DictEntry :=
  match v with
  | Stored d => dict_get d key
  | Literal es _ => es ≫= (fun es => es !! key)
  end.
Definition EntryValue (v : Dict) (key : gostring) : option Value :=
  EntryVal (default zeroEntry (GetEntry v key)).

Definition DictStringKeyPrefix : gostring := bs "s".

(** [Dict.GetStringEntry]: the inline search compares the key's bytes after
    the prefix in place. *)
Fixpoint find_string_item (key : gostring) (l : list (gostring * DictEntry)) : option DictEntry :=
  match l with
  | [] => None
  | (encoded, e) :: l' =>
      match encoded with
      | b :: rest =>
          if (length encoded =? length key + 1)%nat
             && bool_decide (b = Byte.x73) && bool_decide (rest = key)
          then Some e else find_string_item key l'
      | [] => find_string_item key l'
      end
  end.
Definition GetStringEntry (v : Dict) (key : gostring) : option DictEntry :=
  match v with
  | Stored d =>
      match m d with
      | Some mm => mm !! (DictStringKeyPrefix ++ key)
      | None => find_string_item key (items d)
      end
  | Literal es _ => es ≫= (fun es => es !! (DictStringKeyPrefix ++ key))
  end.

(** [Dict.Len]. *)
Definition Len (v : Dict) : Z :=
  match v with
  | Stored d => dict_length d
  | Literal es _ => Z.of_nat (size (default ∅ es))
  end.

(** [Dict.OrderedKeys]: a literal dict without a usable order falls back to
    sorted keys. *)
Definition OrderedKeys (v : Dict) : list gostring :=
  match v with
  | Stored d => dict_orderedKeys d
  | Literal es o =>
      let es := default ∅ es in
      let sorted := sort_strings (map fst (map_to_list es)) in
      match o with
      | Some ks => if (length ks =? size es)%nat then ks else sorted
      | None => sorted
      end
  end.

(** The entries that [Dict.ForEachEntry] visits, in order. *)
Definition ForEachEntry (v : Dict) : list (gostring * DictEntry) :=
  match v with
  | Stored d => dict_entries d
  | Literal None _ => []
  | Literal (Some es) _ =>
      omap (fun k => (fun e => (k, e)) <$> es !! k) (OrderedKeys v)
  end.

(** ** Specification: an association list in insertion order *)

Definition spec_set (key : gostring) (entry : DictEntry) (l : list (gostring * DictEntry))
    : list (gostring * DictEntry) :=
  match find_item key l with
  | Some _ => replace_item key entry l
  | None => l ++ [(key, entry)]
  end.

Fixpoint spec_non_string (l : list (gostring * DictEntry)) : Z :=
  match l with
  | [] => 0
  | (_, e) :: l' => non_string (Key e) + spec_non_string l'
  end.

Inductive dict_op := Put (key : gostring) (entry : DictEntry) | Del (key : gostring) | ClearAll.

Definition run_op (v : Dict) (o : dict_op) : Dict :=
  match o with
  | Put k e => PutEntry v k e
  | Del k => DelEntry v k
  | ClearAll => Clear v
  end.
Definition spec_op (l : list (gostring * DictEntry)) (o : dict_op) : list (gostring * DictEntry) :=
  match o with
  | Put k e => spec_set k e l
  | Del k => remove_item k l
  | ClearAll => []
  end.

(** ** The store refines the specification *)

(** The representation invariant of a store. *)
Definition dict_inv (d : dictData) : Prop :=
  NoDup (map fst (dict_entries d)) /\ nonStringKeys d = spec_non_string (dict_entries d) /\
  match m d with
  | Some mm => items d = [] /\ NoDup (order d) /\ forall k, k ∈ order d <-> is_Some (mm !! k)
  | None => (length (items d) <= dictInlineMax)%nat
  end.

Lemma find_item_None (key : gostring) (l : list (gostring * DictEntry)) :
  find_item key l = None <-> key ∉ map fst l.
Proof.
  induction l as [|[k e] l IH]; simpl; [split; [intros _; apply not_elem_of_nil|done]|].
  rewrite not_elem_of_cons. destruct (decide (k = key)) as [->|Hne].
  - split; [done|]. by intros [? _].
  - rewrite IH. split; [|tauto]. intros H. split; [congruence|done].
Qed.

Lemma map_fst_replace (key : gostring) (e : DictEntry) l :
  map fst (replace_item key e l) = map fst l.
Proof. induction l as [|[k x] l IH]; simpl; [done|]. case_decide; simpl; congruence. Qed.

Lemma remove_item_subset (key k : gostring) l :
  k ∈ map fst (remove_item key l) -> k ∈ map fst l.
Proof.
  induction l as [|[k' e] l IH]; simpl; [done|]. case_decide; simpl; rewrite ?elem_of_cons; tauto.
Qed.

Lemma NoDup_remove_item (key : gostring) l :
  NoDup (map fst l) -> NoDup (map fst (remove_item key l)) /\ key ∉ map fst (remove_item key l).
Proof.
  induction l as [|[k e] l IH]; simpl; intros Hnd.
  - split; [done|apply not_elem_of_nil].
  - apply NoDup_cons in Hnd as [Hk Hnd]. case_decide as E.
    + subst k. done.
    + destruct (IH Hnd) as [H1 H2]. simpl. rewrite NoDup_cons, not_elem_of_cons.
      repeat split; [|done|congruence|done]. intros H. by apply Hk, (remove_item_subset key).
Qed.

(** Counting the non-string keys through the three updates. *)
Lemma spec_non_string_app l k : spec_non_string (l ++ k) = spec_non_string l + spec_non_string k.
Proof. induction l as [|[? ?] l IH]; simpl; [done|]. rewrite IH. lia. Qed.

Lemma spec_non_string_replace (key : gostring) (old e : DictEntry) l :
  find_item key l = Some old ->
  spec_non_string (replace_item key e l)
  = replaceKeyType (Key old) (Key e) (spec_non_string l).
Proof.
  unfold replaceKeyType. induction l as [|[k x] l IH]; simpl; [done|].
  destruct (decide (k = key)).
  - intros [= ->]. simpl. lia.
  - intros H. simpl. rewrite IH by done. lia.
Qed.

Lemma spec_non_string_remove (key : gostring) (old : DictEntry) l :
  find_item key l = Some old ->
  spec_non_string (remove_item key l) = replaceKeyType (Key old) None (spec_non_string l).
Proof.
  unfold replaceKeyType. induction l as [|[k x] l IH]; simpl; [done|].
  destruct (decide (k = key)).
  - intros [= ->]. simpl. lia.
  - intros H. simpl. rewrite IH by done. simpl. lia.
Qed.

Lemma remove_item_None (key : gostring) l : find_item key l = None -> remove_item key l = l.
Proof.
  induction l as [|[k e] l IH]; simpl; [done|]. case_decide; [done|]. intros Hn. by rewrite IH.
Qed.

(** The entries of the map state. *)
Definition map_entries (mm : gmap gostring DictEntry) (o : list gostring)
    : list (gostring * DictEntry) :=
  omap (fun k => (fun e => (k, e)) <$> mm !! k) o.

#[local] Arguments map_entries : simpl never.

Lemma map_entries_cons mm k o :
  map_entries mm (k :: o)
  = match mm !! k with Some e => (k, e) :: map_entries mm o | None => map_entries mm o end.
Proof. unfold map_entries. cbn. by destruct (mm !! k). Qed.

Lemma map_entries_ext mm mm' o :
  (forall k, k ∈ o -> mm !! k = mm' !! k) -> map_entries mm o = map_entries mm' o.
Proof.
  induction o as [|k o IH]; intros H; [done|]. rewrite !map_entries_cons.
  rewrite (H k) by (by left). rewrite IH; [done|]. intros k' Hk'. apply H. by right.
Qed.

Lemma map_entries_insert_ne mm k e o : k ∉ o -> map_entries (<[k := e]> mm) o = map_entries mm o.
Proof.
  intros Hk. apply map_entries_ext. intros k' Hk'. rewrite lookup_insert_ne; [done|]. congruence.
Qed.

Lemma map_entries_app mm o o' : map_entries mm (o ++ o') = map_entries mm o ++ map_entries mm o'.
Proof. unfold map_entries. apply omap_app. Qed.

Lemma map_entries_replace mm k e o :
  NoDup o -> is_Some (mm !! k) ->
  k ∈ o -> map_entries (<[k := e]> mm) o = replace_item k e (map_entries mm o).
Proof.
  intros Hnd [x Hx] Hin. induction o as [|k' o IH]; [by apply elem_of_nil in Hin|].
  apply NoDup_cons in Hnd as [Hk' Hnd]. rewrite !map_entries_cons.
  destruct (decide (k' = k)) as [->|Hne].
  - rewrite lookup_insert_eq, Hx. simpl. rewrite decide_True by done.
    by rewrite map_entries_insert_ne.
  - rewrite lookup_insert_ne by done. apply elem_of_cons in Hin as [|Hin]; [congruence|].
    rewrite IH by done. destruct (mm !! k'); simpl; [by rewrite decide_False|done].
Qed.

Lemma map_entries_delete mm k o :
  NoDup o -> is_Some (mm !! k) ->
  map_entries (delete k mm) (remove_key k o) = remove_item k (map_entries mm o).
Proof.
  intros Hnd [x Hx]. induction o as [|k' o IH]; [done|].
  apply NoDup_cons in Hnd as [Hk' Hnd]. simpl. rewrite map_entries_cons.
  destruct (decide (k' = k)) as [->|Hne].
  - rewrite Hx. simpl. rewrite decide_True by done. apply map_entries_ext.
    intros k' Hk. rewrite lookup_delete_ne; [done|]. congruence.
  - rewrite map_entries_cons, lookup_delete_ne by done. rewrite IH by done.
    destruct (mm !! k'); simpl; [by rewrite decide_False|done].
Qed.

Lemma map_entries_find mm o k :
  (k ∈ o <-> is_Some (mm !! k)) -> find_item k (map_entries mm o) = mm !! k.
Proof.
  intros Hk. destruct (mm !! k) as [e|] eqn:E.
  - assert (Hin : k ∈ o) by (apply Hk; eauto). clear Hk.
    induction o as [|k' o IH]; [by apply elem_of_nil in Hin|]. rewrite map_entries_cons.
    destruct (decide (k' = k)) as [->|Hne].
    + rewrite E. simpl. by rewrite decide_True.
    + apply elem_of_cons in Hin as [|Hin]; [congruence|]. specialize (IH Hin).
      destruct (mm !! k'); simpl; [by rewrite decide_False|done].
  - assert (Hin : k ∉ o) by (intros H; apply Hk in H as [? ?]; congruence). clear Hk.
    induction o as [|k' o IH]; [done|]. rewrite map_entries_cons.
    apply not_elem_of_cons in Hin as [Hne Hin]. specialize (IH Hin).
    destruct (mm !! k'); simpl; [by rewrite decide_False|done].
Qed.

Lemma map_entries_keys mm o :
  (forall k, k ∈ o -> is_Some (mm !! k)) -> map fst (map_entries mm o) = o.
Proof.
  induction o as [|k o IH]; intros H; [done|]. rewrite map_entries_cons.
  destruct (H k) as [e ->]; [by left|]. simpl. rewrite IH; [done|]. intros k' Hk. apply H. by right.
Qed.

Lemma remove_key_spec (k k' : gostring) o :
  NoDup o -> NoDup (remove_key k o) /\ (k' ∈ remove_key k o <-> k' ∈ o /\ k' <> k).
Proof.
  induction o as [|x o IH]; simpl; intros Hnd.
  - split; [done|]. split; [by intros ?%elem_of_nil|by intros [?%elem_of_nil _]].
  - apply NoDup_cons in Hnd as [Hx Hnd]. destruct (IH Hnd) as [H1 H2].
    destruct (decide (x = k)) as [->|Hne].
    + split; [done|]. rewrite elem_of_cons. split; [|by intros [[->|] ?]].
      intros Hk. split; [by right|]. congruence.
    + rewrite NoDup_cons, !elem_of_cons, H2. split.
      * split; [|done]. intros Hin. apply Hx.
        clear - Hin. induction o as [|y o IH]; [done|]. simpl in Hin.
        case_decide; [by right|]. apply elem_of_cons in Hin as [->|Hin]; [by left|right; auto].
      * split; [|tauto]. intros [->|[? ?]]; [by split; [left|]|by split; [right|]].
Qed.

(** Promotion to the map state loads every inline entry. *)
Lemma promote_lookup (l : list (gostring * DictEntry)) (mm : gmap gostring DictEntry) (k : gostring) :
  NoDup (map fst l) ->
  fold_left (fun mm i => <[fst i := snd i]> mm) l mm !! k
  = match find_item k l with Some e => Some e | None => mm !! k end.
Proof.
  revert mm. induction l as [|[k' e] l IH]; intros mm Hnd; [done|].
  simpl in Hnd. apply NoDup_cons in Hnd as [Hk Hnd]. simpl. rewrite IH by done.
  destruct (decide (k' = k)) as [->|Hne].
  - apply find_item_None in Hk. by rewrite Hk, lookup_insert_eq.
  - by rewrite lookup_insert_ne.
Qed.

Lemma find_item_in (k : gostring) l : k ∈ map fst l <-> is_Some (find_item k l).
Proof.
  destruct (find_item k l) eqn:E.
  - split; [eauto|]. intros _. destruct (decide (k ∈ map fst l)) as [|H]; [done|].
    apply find_item_None in H. congruence.
  - apply find_item_None in E. split; [done|]. by intros [? ?].
Qed.

Lemma promote_entries (l : list (gostring * DictEntry)) :
  NoDup (map fst l) ->
  map_entries (fold_left (fun mm i => <[fst i := snd i]> mm) l ∅) (map fst l) = l.
Proof.
  intros Hnd.
  assert (H : forall l', NoDup (map fst l') -> (forall k e, (k, e) ∈ l' -> find_item k l = Some e) ->
    map_entries (fold_left (fun mm i => <[fst i := snd i]> mm) l ∅) (map fst l') = l').
  { induction l' as [|[k e] l' IH]; intros Hn He; [done|]. cbn [map fst].
    rewrite map_entries_cons, promote_lookup by done. rewrite (He k e) by (by left).
    simpl in Hn. apply NoDup_cons in Hn as [_ Hn].
    f_equal. apply IH; [done|]. intros k' e' Hin. apply He. by right. }
  apply H; [done|]. clear H. intros k e Hin.
  induction l as [|[k' e'] l IH]; [by apply elem_of_nil in Hin|].
  simpl in Hnd. apply NoDup_cons in Hnd as [Hk Hnd]. simpl.
  apply elem_of_cons in Hin as [[= -> ->]|Hin]; [by rewrite decide_True|].
  rewrite decide_False; [by apply IH|]. intros ->. apply Hk.
  apply (list_elem_of_fmap_2 fst) in Hin. exact Hin.
Qed.

Lemma spec_set_NoDup k e l : NoDup (map fst l) -> NoDup (map fst (spec_set k e l)).
Proof.
  intros Hnd. unfold spec_set. destruct (find_item k l) eqn:E.
  - by rewrite map_fst_replace.
  - rewrite map_app. apply NoDup_app. split; [done|]. split; [|apply NoDup_singleton].
    intros x Hx Hk. apply list_elem_of_singleton in Hk as ->. by apply find_item_None in E.
Qed.

Lemma spec_set_count k e l :
  spec_non_string (spec_set k e l)
  = replaceKeyType (Key (default zeroEntry (find_item k l))) (Key e) (spec_non_string l).
Proof.
  unfold spec_set. destruct (find_item k l) as [old|] eqn:E.
  - by apply spec_non_string_replace.
  - rewrite spec_non_string_app. unfold replaceKeyType. simpl. lia.
Qed.

Lemma length_replace_item k e l : length (replace_item k e l) = length l.
Proof. induction l as [|[k' x] l IH]; simpl; [done|]. case_decide; simpl; congruence. Qed.

Lemma length_remove_item k l : (length (remove_item k l) <= length l)%nat.
Proof. induction l as [|[k' x] l IH]; simpl; [done|]. case_decide; simpl; lia. Qed.

Lemma map_state_find d mm k :
  dict_inv d -> m d = Some mm -> find_item k (dict_entries d) = mm !! k.
Proof.
  intros (_ & _ & H) E. rewrite E in H. unfold dict_entries. rewrite E.
  apply map_entries_find, H.
Qed.

Lemma dict_set_refines (d : dictData) (k : gostring) (e : DictEntry) :
  dict_inv d ->
  dict_entries (dict_set d k e) = spec_set k e (dict_entries d) /\ dict_inv (dict_set d k e).
Proof.
  intros Hinv. pose proof Hinv as (Hnd & Hc & Hm).
  assert (Hgoal : dict_entries (dict_set d k e) = spec_set k e (dict_entries d)
    /\ nonStringKeys (dict_set d k e)
       = replaceKeyType (Key (default zeroEntry (find_item k (dict_entries d)))) (Key e)
           (nonStringKeys d)
    /\ match m (dict_set d k e) with
       | Some mm => items (dict_set d k e) = [] /\ NoDup (order (dict_set d k e))
                    /\ forall k', k' ∈ order (dict_set d k e) <-> is_Some (mm !! k')
       | None => (length (items (dict_set d k e)) <= dictInlineMax)%nat
       end).
  2: { destruct Hgoal as (H1 & H2 & H3). split; [done|]. split; [|split; [|done]].
       - rewrite H1. by apply spec_set_NoDup.
       - rewrite H1, H2, spec_set_count. by rewrite Hc. }
  unfold dict_set. destruct (m d) as [mm|] eqn:E.
  - rewrite (map_state_find d mm k Hinv E). destruct Hm as (Hi & Ho & Hk).
    unfold dict_entries at 1. cbn [m order items nonStringKeys].
    unfold spec_set. rewrite (map_state_find d mm k Hinv E).
    fold (map_entries (<[k:=e]> mm) (match mm !! k with Some _ => order d | None => order d ++ [k] end)).
    destruct (mm !! k) as [old|] eqn:Ek.
    + split; [|split; [done|split; [done|split; [done|]]]].
      * unfold dict_entries. rewrite E. apply map_entries_replace; [done|by eexists|].
        apply Hk. by eexists.
      * intros k'. rewrite Hk. destruct (decide (k' = k)) as [->|Hne].
        -- rewrite lookup_insert_eq, Ek. split; by eexists.
        -- by rewrite lookup_insert_ne.
    + assert (Hn : k ∉ order d) by (rewrite Hk, Ek; by intros [? ?]).
      split; [|split; [done|split; [done|split]]].
      * unfold dict_entries. rewrite E, map_entries_app, map_entries_insert_ne by done.
        f_equal. by rewrite map_entries_cons, lookup_insert_eq.
      * apply NoDup_app. split; [done|]. split; [|apply NoDup_singleton].
        intros x Hx Hs. apply list_elem_of_singleton in Hs as ->. done.
      * intros k'. rewrite elem_of_app, list_elem_of_singleton, Hk.
        destruct (decide (k' = k)) as [->|Hne].
        -- rewrite lookup_insert_eq. split; [by eexists|by right].
        -- rewrite lookup_insert_ne by done. split; [by intros [?|?]|by left].
  - unfold spec_set. assert (Ed : dict_entries d = items d) by (unfold dict_entries; by rewrite E).
    rewrite Ed in *. destruct (find_item k (items d)) as [old|] eqn:Ek; cbn [default].
    + unfold dict_entries. cbn. repeat split. by rewrite length_replace_item.
    + destruct (Nat.ltb_spec (length (items d)) dictInlineMax).
      * unfold dict_entries. cbn. repeat split. rewrite length_app. simpl. lia.
      * unfold dict_entries. cbn [m order items nonStringKeys].
        fold (map_entries (<[k:=e]> (fold_left (fun mm i => <[fst i := snd i]> mm) (items d) ∅))
                (map fst (items d) ++ [k])).
        apply find_item_None in Ek as Hn.
        split; [|split; [done|split; [done|split]]].
        -- rewrite map_entries_app, map_entries_insert_ne, promote_entries by done. f_equal.
           by rewrite map_entries_cons, lookup_insert_eq.
        -- apply NoDup_app. split; [done|]. split; [|apply NoDup_singleton].
           intros x Hx Hs. apply list_elem_of_singleton in Hs as ->. done.
        -- intros k'. rewrite elem_of_app, list_elem_of_singleton, find_item_in.
           destruct (decide (k' = k)) as [->|Hne].
           ++ rewrite lookup_insert_eq. split; [by eexists|by right].
           ++ rewrite lookup_insert_ne, promote_lookup by done.
              destruct (find_item k' (items d)); [split; [by eexists|left; by eexists]|].
              rewrite lookup_empty. split; [by intros [?|?]|by left].
Qed.

Lemma dict_del_refines (d : dictData) (k : gostring) :
  dict_inv d ->
  dict_entries (dict_del d k) = remove_item k (dict_entries d) /\ dict_inv (dict_del d k).
Proof.
  intros Hinv. pose proof Hinv as (Hnd & Hc & Hm). unfold dict_del.
  destruct (m d) as [mm|] eqn:E.
  - destruct Hm as (Hi & Ho & Hk). pose proof (map_state_find d mm k Hinv E) as Hf.
    destruct (mm !! k) as [old|] eqn:Ek; [|split; [by rewrite remove_item_None|done]].
    assert (He : dict_entries (mkDict (items d) (Some (delete k mm)) (remove_key k (order d))
                   (replaceKeyType (Key old) None (nonStringKeys d)))
                 = remove_item k (dict_entries d)).
    { unfold dict_entries at 1. cbn [m order].
      fold (map_entries (delete k mm) (remove_key k (order d))).
      rewrite map_entries_delete by (done || by eexists). unfold dict_entries. by rewrite E. }
    split; [exact He|]. unfold dict_inv. rewrite He. split; [by apply NoDup_remove_item|].
    split; [cbn; by rewrite (spec_non_string_remove k old), Hc|].
    cbn. split; [done|]. split; [by apply (remove_key_spec k k)|].
    intros k'. rewrite (proj2 (remove_key_spec k k' (order d) Ho)), Hk.
    destruct (decide (k' = k)) as [->|Hne].
    + rewrite lookup_delete_eq. split; [by intros [_ ?]|by intros [? ?]].
    + rewrite lookup_delete_ne by done. tauto.
  - assert (Ed : dict_entries d = items d) by (unfold dict_entries; by rewrite E).
    rewrite Ed in *. destruct (find_item k (items d)) as [old|] eqn:Ek;
      [|rewrite Ed; split; [by rewrite remove_item_None|]; done].
    unfold dict_inv. unfold dict_entries. cbn. split; [done|].
    split; [by apply NoDup_remove_item|]. split; [by rewrite (spec_non_string_remove k old), Hc|].
    pose proof (length_remove_item k (items d)). lia.
Qed.

Lemma empty_inv : dict_inv emptyDictData /\ dict_entries emptyDictData = [].
Proof. unfold dict_inv, dict_entries. cbn. repeat split; [constructor|unfold dictInlineMax; lia]. Qed.

Lemma hint_inv (n : Z) : exists d, NewDictHint n = Stored d /\ dict_inv d /\ dict_entries d = [].
Proof.
  unfold NewDictHint. destruct (n >? Z.of_nat dictInlineMax).
  - eexists. split; [reflexivity|]. split; [|reflexivity].
    unfold dict_inv, dict_entries. cbn. repeat split; try constructor.
    + by intros ?%elem_of_nil.
    + rewrite lookup_empty. by intros [? ?].
  - eexists. split; [reflexivity|]. apply empty_inv.
Qed.

Lemma run_op_refines (d : dictData) (o : dict_op) :
  dict_inv d ->
  exists d', run_op (Stored d) o = Stored d' /\ dict_inv d'
             /\ dict_entries d' = spec_op (dict_entries d) o.
Proof.
  intros Hinv. destruct o as [k e|k|]; cbn [run_op PutEntry DelEntry Clear spec_op].
  - eexists. split; [reflexivity|]. destruct (dict_set_refines d k e Hinv). done.
  - eexists. split; [reflexivity|]. destruct (dict_del_refines d k Hinv). done.
  - eexists. split; [reflexivity|]. apply empty_inv.
Qed.

(** What a client observes of a dict, against its specification [l]. *)
Definition observes (v : Dict) (l : list (gostring * DictEntry)) : Prop :=
  (forall k, GetEntry v k = find_item k l)
  /\ (forall k, GetStringEntry v k = find_item (DictStringKeyPrefix ++ k) l)
  /\ Len v = zlen l
  /\ OrderedKeys v = map fst l
  /\ ForEachEntry v = l
  /\ HasOnlyStringKeys v = forallb (fun i => non_string (Key (snd i)) =? 0) l.

Lemma find_string_item_spec (k : gostring) l :
  find_string_item k l = find_item (DictStringKeyPrefix ++ k) l.
Proof.
  induction l as [|[[|b rest] e] l IH]; [done|simpl; by rewrite IH|].
  cbn [find_string_item find_item]. rewrite IH.
  destruct (decide (b :: rest = DictStringKeyPrefix ++ k)) as [E|Hne].
  - injection E as -> ->. cbn [length]. replace (length k + 1)%nat with (S (length k)) by lia.
    rewrite Nat.eqb_refl. rewrite !bool_decide_true by done. done.
  - destruct (_ && _) eqn:Ec; [|done]. exfalso. apply Hne.
    apply andb_true_iff in Ec as [Ec ->%bool_decide_eq_true].
    apply andb_true_iff in Ec as [_ ->%bool_decide_eq_true]. done.
Qed.

Lemma spec_non_string_zero l :
  0 <= spec_non_string l /\
  (spec_non_string l =? 0) = forallb (fun i => non_string (Key (snd i)) =? 0) l.
Proof.
  induction l as [|[k e] l [IH1 IH2]]; [done|].
  assert (0 <= non_string (Key e) <= 1) by (destruct (Key e) as [[]|]; simpl; lia).
  cbn [spec_non_string forallb snd]. rewrite <- IH2. lia.
Qed.

Lemma observes_stored (d : dictData) : dict_inv d -> observes (Stored d) (dict_entries d).
Proof.
  intros Hinv. pose proof Hinv as (Hnd & Hc & Hm).
  assert (Hg : forall k, dict_get d k = find_item k (dict_entries d)).
  { intros k. unfold dict_get. destruct (m d) as [mm|] eqn:E.
    - by rewrite (map_state_find d mm k Hinv E).
    - unfold dict_entries. by rewrite E. }
  split; [exact Hg|]. split.
  { intros k. cbn. destruct (m d) as [mm|] eqn:E.
    - by rewrite (map_state_find d mm _ Hinv E).
    - rewrite find_string_item_spec. unfold dict_entries. by rewrite E. }
  split.
  { cbn. unfold dict_length. destruct (m d) as [mm|] eqn:E.
    - destruct Hm as (_ & Ho & Hk). unfold zlen. f_equal.
      assert (El : length (dict_entries d) = length (order d)).
      { unfold dict_entries. rewrite E. fold (map_entries mm (order d)).
        rewrite <- (length_map fst), map_entries_keys; [done|]. intros k Hin. by apply Hk. }
      rewrite El. rewrite <- (size_list_to_set (C := gset gostring)) by done.
      rewrite <- size_dom. f_equal. apply leibniz_equiv. intros k.
      rewrite elem_of_dom, elem_of_list_to_set, Hk. done.
    - unfold dict_entries. by rewrite E. }
  split.
  { cbn. unfold dict_orderedKeys. destruct (m d) as [mm|] eqn:E.
    - unfold dict_entries. rewrite E. fold (map_entries mm (order d)).
      rewrite map_entries_keys; [done|]. intros k Hin. by apply Hm.
    - unfold dict_entries. by rewrite E. }
  split; [done|]. cbn. rewrite Hc. apply spec_non_string_zero.
Qed.

(** C20: a dict is an insertion-ordered association list: after any sequence
    of puts, deletes and clears on a new dict, sized or not, through the inline
    array, the promotion at the ninth key and the map state, every observation
    (lookup, lookup by text, length, key order, iteration, and the answer to
    "are all keys strings") is that of the list the specification computes. *)
Theorem dict_refines_ordered_list (n : Z) (ops : list dict_op) :
  observes (fold_left run_op ops (NewDictHint n)) (fold_left spec_op ops []) /\
  observes (fold_left run_op ops NewDict) (fold_left spec_op ops []).
Proof.
  assert (H : forall ops d l, dict_inv d -> dict_entries d = l ->
    observes (fold_left run_op ops (Stored d)) (fold_left spec_op ops l)).
  { clear. intros ops. induction ops as [|o ops IH]; intros d l Hinv <-.
    - by apply observes_stored.
    - cbn [fold_left]. destruct (run_op_refines d o Hinv) as (d' & -> & Hinv' & E). by apply IH. }
  split.
  - destruct (hint_inv n) as (d & -> & Hi & He). by apply H.
  - apply H; apply empty_inv.
Qed.

(** ** Literal dicts *)

(** A literal dict whose key list matches its entries. *)
Definition literal_inv (es : gmap gostring DictEntry) (ks : list gostring) : Prop :=
  NoDup ks /\ forall k, k ∈ ks <-> is_Some (es !! k).

Lemma literal_size es ks : literal_inv es ks -> length ks = size es.
Proof.
  intros [Hnd Hk]. rewrite <- (size_list_to_set (C := gset gostring)) by done.
  rewrite <- size_dom. f_equal. apply leibniz_equiv. intros k.
  by rewrite elem_of_dom, elem_of_list_to_set, Hk.
Qed.

Lemma literal_put_refines es ks k e :
  literal_inv es ks ->
  exists es' ks', PutEntry (Literal (Some es) (Some ks)) k e = Literal (Some es') (Some ks')
    /\ literal_inv es' ks' /\ map_entries es' ks' = spec_set k e (map_entries es ks).
Proof.
  intros [Hnd Hk]. cbn [PutEntry]. unfold spec_set. rewrite map_entries_find by done.
  destruct (es !! k) as [old|] eqn:Ek; do 2 eexists; (split; [reflexivity|]).
  - split; [|apply map_entries_replace; [done|by eexists|apply Hk; by eexists]].
    split; [done|]. intros k'. rewrite Hk. destruct (decide (k' = k)) as [->|Hne].
    + rewrite lookup_insert_eq, Ek. split; by eexists.
    + by rewrite lookup_insert_ne.
  - assert (Hn : k ∉ ks) by (rewrite Hk, Ek; by intros [? ?]).
    split; [|rewrite map_entries_app, map_entries_insert_ne by done; f_equal;
             by rewrite map_entries_cons, lookup_insert_eq].
    split.
    + apply NoDup_app. split; [done|]. split; [|apply NoDup_singleton].
      intros x Hx Hs. apply list_elem_of_singleton in Hs as ->. done.
    + intros k'. rewrite elem_of_app, list_elem_of_singleton, Hk.
      destruct (decide (k' = k)) as [->|Hne].
      * rewrite lookup_insert_eq. split; [by eexists|by right].
      * rewrite lookup_insert_ne by done. split; [by intros [?|?]|by left].
Qed.

Lemma literal_del_refines es ks k :
  literal_inv es ks ->
  exists es' ks', DelEntry (Literal (Some es) (Some ks)) k = Literal (Some es') (Some ks')
    /\ literal_inv es' ks' /\ map_entries es' ks' = remove_item k (map_entries es ks).
Proof.
  intros [Hnd Hk]. cbn [DelEntry]. destruct (es !! k) as [old|] eqn:Ek;
    do 2 eexists; (split; [reflexivity|]).
  - split; [|apply map_entries_delete; [done|by eexists]].
    split; [by apply (remove_key_spec k k)|].
    intros k'. rewrite (proj2 (remove_key_spec k k' ks Hnd)), Hk.
    destruct (decide (k' = k)) as [->|Hne].
    + rewrite lookup_delete_eq. split; [by intros [_ ?]|by intros [? ?]].
    + rewrite lookup_delete_ne by done. tauto.
  - split; [done|]. rewrite remove_item_None; [done|]. by rewrite map_entries_find.
Qed.

Lemma literal_observations es ks :
  literal_inv es ks ->
  let v := Literal (Some es) (Some ks) in
  (forall k, GetEntry v k = find_item k (map_entries es ks)) /\
  Len v = zlen (map_entries es ks) /\ OrderedKeys v = map fst (map_entries es ks) /\
  ForEachEntry v = map_entries es ks.
Proof.
  intros Hinv. pose proof (literal_size es ks Hinv) as Hs. pose proof Hinv as [Hnd Hk].
  assert (Hkeys : map fst (map_entries es ks) = ks)
    by (apply map_entries_keys; intros k Hin; by apply Hk).
  assert (Ho : OrderedKeys (Literal (Some es) (Some ks)) = ks)
    by (cbn; by rewrite Hs, Nat.eqb_refl).
  repeat split.
  - intros k. by rewrite map_entries_find.
  - cbn. unfold zlen. by rewrite <- (length_map fst (map_entries es ks)), Hkeys, Hs.
  - by rewrite Ho, Hkeys.
  - cbn [ForEachEntry]. by rewrite Ho.
Qed.

(** C21: a dict literal with its key list behaves like a dict built through
    the store: after any sequence of puts, deletes and clears, lookup, length,
    key order and iteration are those of the ordered list that starts from the
    literal's entries. *)
Theorem literal_refines_ordered_list (es : gmap gostring DictEntry) (ks : list gostring)
    (ops : list dict_op) :
  literal_inv es ks ->
  let v := fold_left run_op ops (Literal (Some es) (Some ks)) in
  let l := fold_left spec_op ops (map_entries es ks) in
  (forall k, GetEntry v k = find_item k l) /\ Len v = zlen l /\ OrderedKeys v = map fst l /\
  ForEachEntry v = l.
Proof.
  revert es ks. induction ops as [|o ops IH]; intros es ks Hinv.
  - by apply literal_observations.
  - cbn [fold_left].
    assert (H : exists es' ks', run_op (Literal (Some es) (Some ks)) o = Literal (Some es') (Some ks')
      /\ literal_inv es' ks' /\ map_entries es' ks' = spec_op (map_entries es ks) o).
    { destruct o as [k e|k|]; cbn [run_op spec_op];
        [by apply literal_put_refines|by apply literal_del_refines|].
      do 2 eexists. split; [reflexivity|]. split; [|done].
      split; [constructor|]. intros k. rewrite lookup_empty.
      split; [by intros ?%elem_of_nil|by intros [? ?]]. }
    destruct H as (es' & ks' & -> & Hinv' & <-). by apply IH.
Qed.

Lemma literal_refines_ordered_list_witness :
  let e := mkEntry (Some VNull) (Some VNull) in
  let ops := [Put (bs "b") e; Del (bs "a"); Put (bs "a") e] in
  OrderedKeys (fold_left run_op ops (Literal (Some {[ bs "a" := e ]}) (Some [bs "a"])))
  = map fst (fold_left spec_op ops (map_entries {[ bs "a" := e ]} [bs "a"])).
Proof.
  intros e ops. apply (literal_refines_ordered_list {[ bs "a" := e ]} [bs "a"] ops).
  split; [apply NoDup_singleton|].
  intros k. rewrite list_elem_of_singleton, lookup_singleton_is_Some. done.
Defined.

(** Without a key list, iteration is in sorted key order. *)
Lemma literal_without_order (es : gmap gostring DictEntry) :
  OrderedKeys (Literal (Some es) None) = sort_strings (map fst (map_to_list es)).
Proof. reflexivity. Qed.
