(* ===== verification/DictKey.v ===== *)
(** * DictKey: the key string of a value

    [native.DictKey] (src/internal/native/convert.go) and the VM's fast path
    [dictKeyFor] (src/internal/bytecode/vm.go): dicts and sets store an entry
    under the string this function gives its key, so two keys are the same key
    exactly when their strings are equal. *)

From Stdlib Require Import QArith Floats.SpecFloat.
From Stdlib Require Qcanon.
From stdpp Require Import sorting.
From S2P Require Import Prelude Float64 GoText Value Machine Arith Compare DictStore.
#[local] Open Scope Z_scope.

(** [big.Rat.RatString] (standard library): the denominator is omitted when
    it is 1. *)
Definition RatString (q : Q) : gostring :=
  if (Qden q =? 1)%positive then FormatInt (Qnum q)
  else FormatInt (Qnum q) ++ [Byte.x2f] ++ FormatInt (Zpos (Qden q)).

(** [strconv.FormatBool] (standard library). *)
Definition FormatBool (b : bool) : gostring := if b then bs "true" else bs "false".

Definition pair_le (a b : gostring * gostring) : Prop := str_le (fst a) (fst b).
#[global] Instance pair_le_dec : RelDecision pair_le.
Proof. intros a b. unfold pair_le. apply _. Defined.

Section DictKey.
(** [strconv.FormatFloat(f, 'g', -1, 64)], [strconv.Quote] and the [%p] verb of
    the standard library. *)
Variable FormatFloat_g : float64 -> gostring.
Variable Quote : gostring -> gostring.
Variable FormatPtr : Z -> gostring.
(** The Go type that the [%T] verb prints for a value the model does not open. *)
Variable GoType : gostring -> gostring.
(** The heap of instances: for the address of a frozen instance, its class name
    and its fields with the key strings of their values. *)
Variable frozen : Z -> option (gostring * list (gostring * gostring)).

(** [dictKeyPrefixNull] and the other prefixes. *)
Definition dictKeyPrefixNull := bs "n".
Definition dictKeyPrefixBoolT := bs "b1".
Definition dictKeyPrefixBoolF := bs "b0".
Definition dictKeyPrefixInt := bs "i".
Definition dictKeyPrefixDecimal := bs "d".
Definition dictKeyPrefixFloat := bs "f".
Definition dictKeyPrefixBytes := bs "y".
Definition dictKeyPrefixList := bs "L".
Definition dictKeyPrefixSet := bs "S".
Definition dictKeyPrefixDict := bs "D".
Definition dictKeyPrefixRange := bs "r".
Definition dictKeyPrefixFrozen := bs "O".

(** A float key: both zeros share one. *)
Definition float_key (f : float64) : gostring :=
  dictKeyPrefixFloat ++ FormatFloat_g (if f64_eqb f f64_zero then f64_zero else f).

Definition range_key (r : Range) : gostring :=
  dictKeyPrefixRange ++ FormatInt (Start r) ++ bs ":" ++ FormatInt (End_ r) ++ bs ":"
  ++ FormatInt (Step r) ++ bs ":" ++ FormatBool (Exclusive r).

(** Pairs sorted by their first component and joined. *)
Definition join_pairs (pairs : list (gostring * gostring)) : gostring :=
  join (bs ",") (map (fun p => fst p ++ bs "=" ++ snd p) (merge_sort pair_le pairs)).

(** An instance: frozen ones by their fields, others by identity. *)
Definition instance_key (ptr : Z) : gostring :=
  match frozen ptr with
  | Some (className, fields) =>
      dictKeyPrefixFrozen ++ className ++ bs "{" ++ join_pairs fields ++ bs "}"
  | None => bs "instance:" ++ FormatPtr ptr
  end.

(** [native.DictKey].  A kind without a case falls to the default, which
    prints the address of the function's own variable: [local] is the address
    that call gives it. *)
Fixpoint DictKey (local : Z) (v : Value) : gostring :=
  match v with
  | VNull => dictKeyPrefixNull
  | VBool b => if b then dictKeyPrefixBoolT else dictKeyPrefixBoolF
  | VSmallInt i => dictKeyPrefixInt ++ FormatInt i
  | VInt i => dictKeyPrefixInt ++ FormatInt i
  | VDecimal q => dictKeyPrefixDecimal ++ RatString q
  | VFloat f => float_key f
  | VString s => DictStringKeyPrefix ++ s
  | VBytes l => dictKeyPrefixBytes ++ EncodeToString l
  | VList es => dictKeyPrefixList ++ bs "[" ++ join (bs ",") (map (DictKey local) es) ++ bs "]"
  | VSet es =>
      dictKeyPrefixSet ++ bs "{" ++ join (bs ",") (sort_strings (map fst es)) ++ bs "}"
  | VDict es =>
      dictKeyPrefixDict ++ bs "{"
      ++ join_pairs (map (fun e => (fst e, DictKey local (snd (snd e)))) es) ++ bs "}"
  | VRange r => range_key r
  | VBytecodeFunction md n i => bs "bytecode-func:" ++ md ++ bs ":" ++ n ++ bs ":" ++ FormatInt i
  | VBytecodeClosure i n _ _ => bs "bytecode-closure:" ++ n ++ bs ":" ++ FormatInt i
  | VBytecodeClass md n i => bs "bytecode-class:" ++ md ++ bs ":" ++ n ++ bs ":" ++ FormatInt i
  | VNativeObject k i _ => bs "native:" ++ k ++ bs ":" ++ FormatInt i
  | VError c msg => bs "error:" ++ Quote c ++ bs ":" ++ Quote msg
  | VType n => bs "type:" ++ Quote n
  | VModule p => bs "module:" ++ FormatPtr p
  | VClass p _ => bs "class:" ++ FormatPtr p
  | VInterface p _ => bs "interface:" ++ FormatPtr p
  | VInstance _ p => instance_key p
  | VDateTimeInstant _ => bs "runtime.DateTimeInstant:" ++ FormatPtr local
  | VDateTimeDuration _ => bs "runtime.DateTimeDuration:" ++ FormatPtr local
  | VDateTimeZone _ => bs "runtime.DateTimeZone:" ++ FormatPtr local
  | VURLValue _ => bs "runtime.URLValue:" ++ FormatPtr local
  | VHTTPHeaders _ => bs "runtime.HTTPHeaders:" ++ FormatPtr local
  | VHTTPCookie _ => bs "runtime.HTTPCookie:" ++ FormatPtr local
  | VTemplateValue _ _ _ => bs "runtime.TemplateValue:" ++ FormatPtr local
  | VTemplateEngine _ => bs "runtime.TemplateEngine:" ++ FormatPtr local
  | VEnumVariant _ _ _ _ => bs "runtime.EnumVariant:" ++ FormatPtr local
  | VComplex _ _ => bs "*runtime.Complex:" ++ FormatPtr local
  | VNDArray _ => bs "*runtime.NDArray:" ++ FormatPtr local
  | VDFSeries _ => bs "*runtime.DFSeries:" ++ FormatPtr local
  | VDFExpr _ => bs "*runtime.DFExpr:" ++ FormatPtr local
  | VPendingDefault => bs "runtime.PendingDefault:" ++ FormatPtr local
  | VOther t => GoType t ++ bs ":" ++ FormatPtr local
  end.

(** [dictKeyFor]. *)
Definition dictKeyFor (local : Z) (v : Value) : gostring :=
  match v with
  | VString s => DictStringKeyPrefix ++ s
  | VSmallInt i => bs "i" ++ FormatInt i
  | _ => DictKey local v
  end.

(** [native.LookupDictEntry]. *)
Definition LookupDictEntry (local : Z) (d : Dict) (key : Value) : option DictEntry :=
  match key with
  | VString text => GetStringEntry d text
  | _ => GetEntry d (DictKey local key)
  end.

(** ** Keys of scalars *)

(** The scalar values: those whose key is their content. *)
Definition scalar (v : Value) : bool :=
  match v with
  | VNull | VBool _ | VSmallInt _ | VInt _ | VDecimal _ | VString _ | VBytes _ | VRange _ => true
  | VFloat f => negb (f64_is_nan f)
  | _ => false
  end.

Lemma RatString_inj (a b : Q) :
  q_reduced a = true -> q_reduced b = true -> RatString a = RatString b -> a = b.
Proof.
  destruct a as [n d], b as [n' d']. unfold RatString. cbn [Qnum Qden]. intros Ha Hb H.
  assert (Hsep : forall (x y : Z) s, FormatInt x = FormatInt y ++ Byte.x2f :: s -> False).
  { intros x y s E. pose proof (FormatInt_chars x) as F. rewrite E in F.
    apply Forall_app in F as [_ F]. apply Forall_inv in F. discriminate. }
  destruct (Pos.eqb_spec d 1) as [->|Hd], (Pos.eqb_spec d' 1) as [->|Hd'].
  - apply FormatInt_inj in H as ->. done.
  - exfalso. by eapply Hsep.
  - exfalso. by eapply Hsep.
  - apply (split_sep is_int_char) in H as [H1 H2]; [|apply FormatInt_chars..|reflexivity].
    apply FormatInt_inj in H1 as ->. apply FormatInt_inj in H2. by injection H2 as ->.
Qed.

Lemma range_key_inj (a b : Range) : range_key a = range_key b -> a = b.
Proof.
  destruct a as [s e x p], b as [s' e' x' p']. unfold range_key. cbn. intros H. injection H as H.
  apply (split_sep is_int_char) in H as [H1 H]; [|apply FormatInt_chars..|reflexivity].
  apply (split_sep is_int_char) in H as [H2 H]; [|apply FormatInt_chars..|reflexivity].
  apply (split_sep is_int_char) in H as [H3 H]; [|apply FormatInt_chars..|reflexivity].
  apply FormatInt_inj in H1 as ->. apply FormatInt_inj in H2 as ->. apply FormatInt_inj in H3 as ->.
  destruct x, x'; try discriminate; done.
Qed.

Lemma Qcompare_reduced (a b : Q) :
  q_reduced a = true -> q_reduced b = true -> (a ?= b)%Q = Eq <-> a = b.
Proof.
  unfold q_reduced. rewrite !Z.eqb_eq. intros Ha Hb. rewrite <- Qeq_alt. split; [|by intros ->].
  intros H. apply Qred_complete in H.
  rewrite (Qcanon.Qred_identity a), (Qcanon.Qred_identity b) in H by done. done.
Qed.

Lemma finite_compare_eq (s : bool) (m m' : positive) (e e' : Z) :
  S754_finite s m e = S754_finite s m' e' <->
  match (match e ?= e' with
         | Eq => if s then CompOpp (m ?= m')%positive else (m ?= m')%positive
         | Lt => if s then Gt else Lt
         | Gt => if s then Lt else Gt
         end) with Eq => true | _ => false end = true.
Proof.
  destruct (Z.compare_spec e e') as [->|H|H], (Pos.compare_spec m m') as [->|H'|H'], s; cbn;
    try done; split; try done; intros [=]; lia.
Qed.

Lemma float_key_eq (f g : float64) :
  (forall x y, f64_wf x = true -> f64_wf y = true ->
               f64_is_nan x = false -> f64_is_nan y = false ->
               FormatFloat_g x = FormatFloat_g y -> x = y) ->
  f64_is_nan f = false -> f64_is_nan g = false -> f64_wf f = true -> f64_wf g = true ->
  float_key f = float_key g <-> f64_eqb f g = true.
Proof.
  intros Hinj Hf Hg Wf Wg. unfold float_key.
  set (norm x := if f64_eqb x f64_zero then f64_zero else x).
  assert (Hn : forall x, f64_is_nan x = false -> f64_is_nan (norm x) = false)
    by (intros x Hx; unfold norm; by destruct (f64_eqb x f64_zero)).
  assert (Hw : forall x, f64_wf x = true -> f64_wf (norm x) = true)
    by (intros x Hx; unfold norm; by destruct (f64_eqb x f64_zero)).
  change (dictKeyPrefixFloat ++ FormatFloat_g (norm f) = dictKeyPrefixFloat ++ FormatFloat_g (norm g)
          <-> f64_eqb f g = true).
  assert (Hk : dictKeyPrefixFloat ++ FormatFloat_g (norm f)
               = dictKeyPrefixFloat ++ FormatFloat_g (norm g) <-> norm f = norm g).
  { split; [|by intros ->]. intros H. injection H as H. apply Hinj; auto. }
  rewrite Hk. clear Hk Hinj. unfold norm, f64_eqb, SFeqb, f64_zero.
  destruct f as [[]|[]| |s m e], g as [[]|[]| |s' m' e']; try discriminate; cbn;
    try (split; congruence); try (destruct s); try (destruct s'); cbn; try (split; congruence);
    [exact (finite_compare_eq true m m' e e')|exact (finite_compare_eq false m m' e e')].
Qed.
End DictKey.

Lemma int_key_eq (x y : Z) :
  dictKeyPrefixInt ++ FormatInt x = dictKeyPrefixInt ++ FormatInt y <-> x = y.
Proof. split; [intros H; injection H as H; by apply FormatInt_inj|by intros ->]. Qed.

Lemma rangeEqual_true (a b : Range) : rangeEqual a b = true <-> a = b.
Proof.
  unfold rangeEqual. destruct a as [s e x p], b as [s' e' x' p']. cbn.
  rewrite !andb_true_iff, !Z.eqb_eq, Bool.eqb_true_iff. split; [by intros [[[-> ->] ->] ->]|].
  by intros [= -> -> -> ->].
Qed.

Lemma some_true (x : bool) : Some x = Some true <-> x = true.
Proof. split; congruence. Qed.

(** C22: on scalar values the key string decides equality: null, booleans,
    integers of either representation, decimals, floats other than NaN,
    strings, bytes and ranges of the same kind get the same key exactly when
    [==] calls them equal, and values of different kinds never share a key. *)
Theorem scalar_keys_faithful (ff : float64 -> gostring) quote ptr gt fr (pe : Z -> Z -> bool)
    (l1 l2 : Z)
    (a b : Value) :
  (forall x y, f64_wf x = true -> f64_wf y = true ->
               f64_is_nan x = false -> f64_is_nan y = false -> ff x = ff y -> x = y) ->
  value_wf a = true -> value_wf b = true -> scalar a = true -> scalar b = true ->
  DictKey ff quote ptr gt fr l1 a = DictKey ff quote ptr gt fr l2 b
  <-> LeafValuesEqual pe a b = Some true.
Proof.
  intros Hff Wa Wb Sa Sb.
  destruct a; try discriminate Sa; destruct b; try discriminate Sb;
    cbn [DictKey LeafValuesEqual IsNull];
    try (split; intros H; [try destruct b|]; try destruct b0; discriminate H);
    rewrite some_true.
  - done.
  - by destruct b, b0.
  - rewrite int_key_eq, Z.eqb_eq. done.
  - rewrite int_key_eq, andb_true_iff, Z.eqb_eq. split; [|by intros [_ ->]].
    intros ->. done.
  - rewrite int_key_eq, andb_true_iff, Z.eqb_eq. split; [|by intros [_ ->]].
    intros ->. done.
  - rewrite int_key_eq, Z.eqb_eq. done.
  - pose proof (Qcompare_reduced q q0 Wa Wb) as Hq.
    split; [intros H; injection H as H; apply RatString_inj in H as ->; [|done..];
            by rewrite (proj2 Hq)|].
    destruct (q ?= q0)%Q; try done. intros _. by rewrite (proj1 Hq).
  - apply float_key_eq; [exact Hff|by apply negb_true_iff..|exact Wa|exact Wb].
  - rewrite bool_decide_eq_true. split; [intros H; by injection H|by intros ->].
  - rewrite bool_decide_eq_true. split; [|by intros ->].
    intros H. injection H as H. by apply EncodeToString_inj.
  - rewrite rangeEqual_true. split; [apply range_key_inj|by intros ->].
Qed.

Lemma scalar_keys_faithful_witness :
  let ff : float64 -> gostring := fun f => FormatInt (Float64bits f) in
  DictKey ff (fun s => s) FormatInt (fun t => t) (fun _ => None) 1 (VSmallInt 5) = DictKey ff (fun s => s) FormatInt (fun t => t) (fun _ => None) 2 (VInt 5)
  <-> LeafValuesEqual Z.eqb (VSmallInt 5) (VInt 5) = Some true.
Proof.
  intros ff. apply scalar_keys_faithful; try reflexivity.
  intros x y Wx Wy _ _ H. apply FormatInt_inj in H.
  rewrite <- (Float64frombits_bits x Wx), <- (Float64frombits_bits y Wy). congruence.
Defined.

(** Keys of lists are not faithful: the elements' strings are joined with
    commas without quoting, so the lists [["a", "b"]] and [["a,sb"]], which
    are not equal, have one key string, and a dict that stores an entry under
    the first returns it for the second. *)
Theorem list_keys_collide ff quote ptr gt fr (l1 l2 : Z) (e : DictEntry) :
  let a := VList [VString (bs "a"); VString (bs "b")] in
  let b := VList [VString (bs "a,sb")] in
  DictKey ff quote ptr gt fr l1 a = DictKey ff quote ptr gt fr l2 b /\
  deepEqual Z.eqb (fun _ _ => Ok false) a b = Ok false /\
  LookupDictEntry ff quote ptr gt fr l2 (PutEntry NewDict (DictKey ff quote ptr gt fr l1 a) e) b = Some e.
Proof. split; [reflexivity|]. split; reflexivity. Qed.

(** A closure is keyed by the name and index of its function, so two
    closures that captured different values have one key: an entry stored under
    the first is returned for the second, and for no closure does [==] hold. *)
Theorem closure_keys_collide ff quote ptr gt fr (l1 l2 i c1 c2 : Z) (n m1 m2 : gostring)
    (e : DictEntry) :
  let a := VBytecodeClosure i n m1 c1 in
  let b := VBytecodeClosure i n m2 c2 in
  LookupDictEntry ff quote ptr gt fr l2 (PutEntry NewDict (DictKey ff quote ptr gt fr l1 a) e) b
  = Some e /\
  deepEqual Z.eqb (fun _ _ => Ok false) a b = Ok false.
Proof.
  intros a b. split; [|reflexivity]. cbn -[decide]. by rewrite decide_True.
Qed.

(** A kind of value without a case in [DictKey] (an enum variant, an
    instant, a complex number, ...) is keyed by the address of the function's
    own variable: an entry stored under such a key is found again only if two
    calls put their variable at the same address. *)
Theorem addressed_key_lost ff quote ptr gt fr (l1 l2 : Z) (v : Value) (e : DictEntry) :
  (forall p q, ptr p = ptr q -> p = q) -> l1 <> l2 ->
  match v with
  | VDateTimeInstant _ | VDateTimeDuration _ | VDateTimeZone _ | VURLValue _ | VHTTPHeaders _
  | VHTTPCookie _ | VTemplateValue _ _ _ | VTemplateEngine _ | VEnumVariant _ _ _ _
  | VComplex _ _ => True
  | _ => False
  end ->
  LookupDictEntry ff quote ptr gt fr l2 (PutEntry NewDict (DictKey ff quote ptr gt fr l1 v) e) v = None.
Proof.
  intros Hp Hl Hv.
  assert (H : forall s, s ++ ptr l1 = s ++ ptr l2 -> False)
    by (intros s H; apply app_inv_head in H; by apply Hp in H).
  destruct v; try destruct Hv; cbn [LookupDictEntry DictKey PutEntry NewDict GetEntry];
    unfold dict_set, dict_get, emptyDictData; cbn [m items find_item];
    cbn [length Nat.ltb Nat.leb dictInlineMax order items m app find_item];
    (rewrite decide_False; [reflexivity|intros E; exact (H _ E)]).
Qed.

Lemma addressed_key_lost_witness :
  let key := DictKey (fun _ => []) (fun s => s) FormatInt (fun t => t) (fun _ => None) in
  let v := VEnumVariant 9 (bs "Color") (bs "Red") [] in
  LookupDictEntry (fun _ => []) (fun s => s) FormatInt (fun t => t) (fun _ => None) 2
    (PutEntry NewDict (key 1 v) (mkEntry (Some v) (Some VNull))) v = None.
Proof.
  apply addressed_key_lost; [apply FormatInt_inj|lia|exact I].
Defined.
