(* ===== verification/RuneInfo.v ===== *)
(** * RuneInfo: indexing strings by rune

    The rune-to-byte mapping behind string indexing and its bounded cache
    (src/internal/runtime/runecache.go).  The specification is Go's [[]rune(s)]
    and [string(runes)]; the cache is the process-wide map with its eviction
    order and its byte and entry counts. *)

From S2P Require Import Prelude Utf8 GoText Value.
#[local] Open Scope Z_scope.

(** [RuneInfo]; [None] is a nil slice. *)
Record RuneInfo := mkRuneInfo {
  ascii : bool; single : bool; offsets : option (list Z); info_runes : option (list Z) }.

Definition asciiRuneInfo : RuneInfo := mkRuneInfo true false None None.
Definition singleRuneInfo : RuneInfo := mkRuneInfo false true None None.

Definition MaxInt32 : Z := 2 ^ 31 - 1.

(** ** Building *)

(** [validRuneCount]: the number of runes, unless one is an invalid byte. *)
Fixpoint validRuneCount_loop (fuel : nat) (count : Z) (s : gostring) : option Z :=
  match fuel, s with
  | _, [] => Some count
  | O, _ => None
  | S n, b :: _ =>
      let size := snd (DecodeRune s) in
      if (size =? 1)%nat && (RuneSelf <=? byte_val b) then None
      else validRuneCount_loop n (count + 1) (drop size s)
  end.
Definition validRuneCount (s : gostring) : option Z := validRuneCount_loop (length s) 0 s.

(** [for b := range s]: the offset of each rune, and the length of the string. *)
Fixpoint range_offsets (from : Z) (segs : list (Z * gostring)) : list Z :=
  match segs with
  | [] => [from]
  | (_, l) :: segs' => from :: range_offsets (from + zlen l) segs'
  end.

Section Build.
(** The capacity of the slice that [[]rune(s)] allocates for a number of runes. *)
Variable rune_cap : Z -> Z.

(** [buildRuneInfo]: the mapping and the bytes its slices retain. *)
Definition buildRuneInfo (s : gostring) : RuneInfo * Z :=
  if is_ascii s then (asciiRuneInfo, 0)
  else if zlen s >? MaxInt32 then
    (mkRuneInfo false false None (Some (runes s)), rune_cap (zlen (runes s)) * 4)
  else
    let offs := range_offsets 0 (segments s) in
    match validRuneCount s with
    | None =>
        (mkRuneInfo false false (Some offs) (Some (runes s)),
         rune_cap (zlen (runes s)) * 4 + (zlen (runes s) + 1) * 4)
    | Some runeCount => (mkRuneInfo false false (Some offs) None, (runeCount + 1) * 4)
    end.
End Build.

(** ** Using *)

(** [RuneInfo.RuneCount]. *)
Definition RuneCount (ri : RuneInfo) (s : gostring) : Z :=
  if single ri then 1
  else match info_runes ri with
       | Some rs => zlen rs
       | None => if ascii ri then zlen s else zlen (default [] (offsets ri)) - 1
       end.

(** [s[i:j]], [l[i]]; [None] is a bounds panic. *)
Definition slice_bytes (s : gostring) (i j : Z) : option gostring :=
  if (0 <=? i) && (i <=? j) && (j <=? zlen s)
  then Some (take (Z.to_nat (j - i)) (drop (Z.to_nat i) s)) else None.
Definition lookup_at {A : Type} (l : list A) (i : Z) : option A :=
  if i <? 0 then None else l !! Z.to_nat i.

(** [asciiRuneValues[b]]: a table of 128 one-rune strings. *)
Definition asciiRuneValue (b : byte) : option gostring :=
  if byte_val b <? 128 then Some (EncodeRune (byte_val b)) else None.

(** The bytes of the rune at [i], through the offsets. *)
Definition offset_slice (ri : RuneInfo) (s : gostring) (i j : Z) : option gostring :=
  let offs := default [] (offsets ri) in
  lookup_at offs i ≫= fun a => lookup_at offs j ≫= fun b => slice_bytes s a b.

(** [RuneInfo.RuneAt]. *)
Definition RuneAt (ri : RuneInfo) (s : gostring) (i : Z) : option gostring :=
  if single ri then Some s
  else match info_runes ri with
       | Some rs => EncodeRune <$> lookup_at rs i
       | None => if ascii ri then lookup_at s i ≫= asciiRuneValue
                 else offset_slice ri s i (i + 1)
       end.

(** [RuneInfo.Substring]. *)
Definition Substring (ri : RuneInfo) (s : gostring) (i j : Z) : option gostring :=
  if single ri then Some (if i =? j then [] else s)
  else match info_runes ri with
       | Some rs =>
           if (0 <=? i) && (i <=? j) && (j <=? zlen rs)
           then Some (string_of_runes (take (Z.to_nat (j - i)) (drop (Z.to_nat i) rs))) else None
       | None => if ascii ri then slice_bytes s i j else offset_slice ri s i j
       end.

(** [RuneInfo.RuneValueAt]. *)
Definition RuneValueAt (ri : RuneInfo) (s : gostring) (i : Z) : option Value :=
  let by_rune := VString <$> RuneAt ri s i in
  if ascii ri then VString <$> (lookup_at s i ≫= asciiRuneValue)
  else match offsets ri with
       | Some offs =>
           lookup_at offs i ≫= fun o => lookup_at s o ≫= fun b =>
           if byte_val b <? RuneSelf then VString <$> asciiRuneValue b else by_rune
       | None => by_rune
       end.

(** [sort.Search] (standard library) for a predicate that stays true once
    true: the first index where it holds. *)
Fixpoint Search (l : list Z) (f : Z -> bool) : Z :=
  match l with
  | [] => 0
  | x :: l' => if f x then 0 else 1 + Search l' f
  end.

(** [RuneInfo.RuneIndexOfByte]. *)
Definition RuneIndexOfByte (ri : RuneInfo) (s : gostring) (b : Z) : option Z :=
  if single ri then Some (if b =? 0 then 0 else 1)
  else match offsets ri with
       | Some offs => Some (Search offs (fun o => b <=? o))
       | None => if ascii ri then Some b
                 else (fun p => zlen (runes p)) <$> slice_bytes s 0 b
       end.

(** ** The cache *)

Definition runeCacheKey : Type := Z * Z.

Record runeCacheEntry := mkRuneEntry {
  entry_s : gostring; entry_info : RuneInfo; retainedBytes : Z }.

Definition runeCacheCountCap : Z := 4096.
Definition runeCacheByteCap : Z := Z.shiftl 4 20.
Definition shortStringThreshold : Z := 256.
(** Two strings headers and pointers: the sizes of the entry and of the key. *)
Definition runeCacheEntryOverhead : Z := (16 + 8 + 8) + (8 + 8).

(** The package variables. *)
Record runeCache := mkRuneCache {
  runeCacheMap : gmap runeCacheKey runeCacheEntry;
  runeCacheOrder : list runeCacheKey;
  runeCacheBytes : Z;
  runeCacheCount : Z }.

(** A cache hit: the entry's string must be the string asked for. *)
Definition cache_load (c : runeCache) (key : runeCacheKey) (s : gostring) : option RuneInfo :=
  match runeCacheMap c !! key with
  | Some e => if decide (entry_s e = s) then Some (entry_info e) else None
  | None => None
  end.

(** The eviction loop: one iteration per key of the order. *)
Fixpoint evict (m : gmap runeCacheKey runeCacheEntry) (order : list runeCacheKey)
    (bytes count : Z) : runeCache :=
  match order with
  | old :: order' =>
      if (bytes >? runeCacheByteCap) || (count >? runeCacheCountCap) then
        match m !! old with
        | Some e => evict (delete old m) order' (bytes - retainedBytes e) (count - 1)
        | None => evict m order' bytes count
        end
      else mkRuneCache m order bytes count
  | [] => mkRuneCache m order bytes count
  end.

Section Cache.
Variable rune_cap : Z -> Z.

(** The locked part of [StringRuneInfo]: another thread may have stored the
    string since the unlocked look-up missed. *)
Definition cache_store (c : runeCache) (key : runeCacheKey) (s : gostring) (info : RuneInfo)
    (retained : Z) : runeCache * RuneInfo :=
  match cache_load c key s with
  | Some found => (c, found)
  | None =>
      (evict (<[key := mkRuneEntry s info retained]> (runeCacheMap c)) (runeCacheOrder c ++ [key])
         (runeCacheBytes c + retained) (runeCacheCount c + 1), info)
  end.

(** [StringRuneInfo] of the string at address [data].  [seen] is the cache at
    the unlocked look-up and [c] the cache when the lock is taken: other
    threads run in between. *)
Definition StringRuneInfo (seen c : runeCache) (data : Z) (s : gostring) : runeCache * RuneInfo :=
  match s with
  | [] => (c, asciiRuneInfo)
  | b :: _ =>
      if zlen s <=? shortStringThreshold then
        let (r, n) := DecodeRune s in
        if (RuneSelf <=? byte_val b) && ((n =? length s)%nat && (negb (r =? RuneError) || (1 <? n)%nat))
        then (c, singleRuneInfo)
        else (c, fst (buildRuneInfo rune_cap s))
      else if zlen s >? runeCacheByteCap - runeCacheEntryOverhead then
        (c, fst (buildRuneInfo rune_cap s))
      else
        let key := (data, zlen s) in
        match cache_load seen key s with
        | Some info => (c, info)
        | None =>
            let (info, indexBytes) := buildRuneInfo rune_cap s in
            let retained := zlen s + indexBytes + runeCacheEntryOverhead in
            if retained >? runeCacheByteCap then (c, info)
            else cache_store c key s info retained
        end
  end.
End Cache.

(** ** Offsets cut the string into its runes *)

Definition cut (segs : list (Z * gostring)) : gostring := concat (map snd segs).

Lemma cut_app (a b : list (Z * gostring)) : cut (a ++ b) = cut a ++ cut b.
Proof. unfold cut. by rewrite map_app, concat_app. Qed.

Lemma range_offsets_lookup (segs : list (Z * gostring)) (from : Z) (i : nat) :
  (i <= length segs)%nat -> range_offsets from segs !! i = Some (from + zlen (cut (take i segs))).
Proof.
  revert from i. induction segs as [|[r l] segs IH]; intros from [|i] Hi; cbn [length] in *;
    try lia; cbn [range_offsets]; cbn [firstn]; unfold cut at 1; cbn [map concat];
    try (change (zlen []) with 0; by rewrite Z.add_0_r).
  change ((from :: range_offsets (from + zlen l) segs) !! S i)
    with (range_offsets (from + zlen l) segs !! i).
  rewrite IH by lia. cbn [snd]. fold (cut (take i segs)). rewrite zlen_app. f_equal. lia.
Qed.

Lemma range_offsets_length (segs : list (Z * gostring)) (from : Z) :
  zlen (range_offsets from segs) = zlen segs + 1.
Proof.
  revert from. induction segs as [|[r l] segs IH]; intros from; [done|].
  cbn [range_offsets]. rewrite !zlen_cons, IH. lia.
Qed.

Lemma lookup_at_nat {A : Type} (l : list A) (i : nat) : lookup_at l (Z.of_nat i) = l !! i.
Proof. unfold lookup_at. rewrite (proj2 (Z.ltb_ge _ _)) by lia. by rewrite Nat2Z.id. Qed.

Lemma slice_bytes_mid (a b c : gostring) :
  slice_bytes (a ++ b ++ c) (zlen a) (zlen a + zlen b) = Some b.
Proof.
  unfold slice_bytes. rewrite !zlen_app. pose proof (zlen_nonneg a). pose proof (zlen_nonneg b).
  pose proof (zlen_nonneg c).
  rewrite (proj2 (Z.leb_le 0 _)), !(proj2 (Z.leb_le _ _)) by lia. cbn [andb].
  replace (zlen a + zlen b - zlen a) with (zlen b) by lia. unfold zlen. rewrite !Nat2Z.id.
  by rewrite drop_app_length, take_app_length.
Qed.

(** A slice between two offsets is the bytes of the runes between. *)
Lemma offset_slice_cut (ri : RuneInfo) (s : gostring) (i j : nat) :
  offsets ri = Some (range_offsets 0 (segments s)) ->
  (i <= j <= length (segments s))%nat ->
  offset_slice ri s (Z.of_nat i) (Z.of_nat j) = Some (cut (take (j - i) (drop i (segments s)))).
Proof.
  intros Ho Hij. unfold offset_slice. rewrite Ho. cbn [default id]. rewrite !lookup_at_nat.
  rewrite !range_offsets_lookup by lia. cbn [mbind option_bind]. rewrite !Z.add_0_l.
  set (segs := segments s) in *.
  set (mid := take (j - i) (drop i segs)).
  assert (Hj : take j segs = take i segs ++ mid).
  { unfold mid. rewrite <- (take_drop i (take j segs)), take_take, skipn_firstn_comm.
    by replace (i `min` j)%nat with i by lia. }
  assert (Hs : s = cut (take i segs) ++ cut mid ++ cut (drop j segs)).
  { rewrite <- (concat_segments s) at 1. fold (cut (segments s)). fold segs.
    rewrite <- (take_drop j segs) at 1. by rewrite cut_app, Hj, cut_app, <- app_assoc. }
  rewrite Hj, cut_app, zlen_app. rewrite Hs at 1. apply slice_bytes_mid.
Qed.

(** ** What a mapping describes *)

Definition well_encoded (s : gostring) : Prop :=
  Forall (fun p => EncodeRune (fst p) = snd p) (segments s).

Inductive describes : RuneInfo -> gostring -> Prop :=
| describes_single r s :
    segments s = [(r, s)] -> EncodeRune r = s -> describes singleRuneInfo s
| describes_ascii s : is_ascii s = true -> describes asciiRuneInfo s
| describes_large s : describes (mkRuneInfo false false None (Some (runes s))) s
| describes_invalid s :
    describes (mkRuneInfo false false (Some (range_offsets 0 (segments s))) (Some (runes s))) s
| describes_valid s :
    well_encoded s ->
    describes (mkRuneInfo false false (Some (range_offsets 0 (segments s))) None) s.

Lemma DecodeRune_error (b : byte) (s : gostring) :
  snd (DecodeRune (b :: s)) = 1%nat -> 128 <= byte_val b -> fst (DecodeRune (b :: s)) = RuneError.
Proof.
  unfold DecodeRune, RuneSelf. cbv zeta. repeat case_match; cbn; try done; lia.
Qed.

Lemma validRuneCount_loop_spec (fuel : nat) (count n : Z) (s : gostring) :
  validRuneCount_loop fuel count s = Some n ->
  n = count + zlen (segments s) /\ well_encoded s.
Proof.
  revert count s. induction fuel as [|fuel IH]; intros count [|b s]; cbn [validRuneCount_loop];
    try discriminate; try (intros [= ->]; split; [change (zlen (segments [])) with 0; lia|constructor]).
  destruct (_ && _) eqn:E; [discriminate|]. intros H. apply IH in H as [Hn Hw].
  unfold well_encoded. rewrite segments_cons, zlen_cons. split; [lia|]. constructor; [|exact Hw].
  cbn [fst snd]. apply EncodeRune_decode. intros H1. rewrite H1 in E. cbn [Nat.eqb andb] in E.
  apply Z.leb_gt in E. exact E.
Qed.

Lemma buildRuneInfo_describes (rune_cap : Z -> Z) (s : gostring) :
  describes (fst (buildRuneInfo rune_cap s)) s.
Proof.
  unfold buildRuneInfo. destruct (is_ascii s) eqn:Ha; [by constructor|].
  destruct (zlen s >? MaxInt32); [apply describes_large|].
  destruct (validRuneCount s) as [n|] eqn:Hv; [|apply describes_invalid].
  apply describes_valid. by apply validRuneCount_loop_spec in Hv as [_ ?].
Qed.

Lemma single_describes (b : byte) (s : gostring) :
  128 <= byte_val b ->
  snd (DecodeRune (b :: s)) = length (b :: s) ->
  (fst (DecodeRune (b :: s)) <> RuneError \/ (1 < snd (DecodeRune (b :: s)))%nat) ->
  describes singleRuneInfo (b :: s).
Proof.
  intros Hb Hn Hr. apply (describes_single (fst (DecodeRune (b :: s)))).
  - rewrite segments_cons, Hn, firstn_all, drop_all. reflexivity.
  - rewrite EncodeRune_decode; [by rewrite Hn, firstn_all|].
    intros H1. destruct Hr as [Hr|Hr]; [|lia]. by apply DecodeRune_error in H1.
Qed.

(** ** Operations agree with [[]rune(s)] *)

Lemma cut_encoded (segs : list (Z * gostring)) :
  Forall (fun p => EncodeRune (fst p) = snd p) segs -> cut segs = string_of_runes (map fst segs).
Proof.
  induction 1 as [|[r l] segs Hl _ IH]; [done|]. unfold cut in *. cbn [map concat string_of_runes flat_map].
  rewrite IH. cbn [fst snd] in *. by rewrite Hl.
Qed.

Lemma zlen_runes (s : gostring) : zlen (runes s) = zlen (segments s).
Proof. unfold runes, zlen. by rewrite length_map. Qed.

Lemma RuneCount_describes (ri : RuneInfo) (s : gostring) :
  describes ri s -> RuneCount ri s = zlen (runes s).
Proof.
  intros H. destruct H as [r s Hs He|s Ha|s|s|s Hw]; unfold RuneCount; cbn -[zlen];
    rewrite zlen_runes; [by rewrite Hs|by rewrite segments_ascii, zlen_map| | |].
  all: rewrite ?zlen_runes, ?range_offsets_length; cbn [default id]; try lia; try done.
Qed.

Lemma runes_ascii (s : gostring) : is_ascii s = true -> runes s = map byte_val s.
Proof. intros Ha. unfold runes. by rewrite segments_ascii, map_map. Qed.

Lemma asciiRuneValue_ok (s : gostring) (i : nat) (b : byte) :
  is_ascii s = true -> s !! i = Some b ->
  asciiRuneValue b = Some (EncodeRune (byte_val b)).
Proof.
  intros Ha Hb. unfold asciiRuneValue. unfold is_ascii, RuneSelf in Ha. rewrite forallb_forall in Ha.
  rewrite (Ha b); [done|]. apply list_elem_of_In. by eapply list_elem_of_lookup_2.
Qed.

(** The runes of a well-encoded string between two rune indices. *)
Lemma valid_slice (s : gostring) (i j : nat) :
  well_encoded s -> (i <= j <= length (runes s))%nat ->
  offset_slice (mkRuneInfo false false (Some (range_offsets 0 (segments s))) None) s
    (Z.of_nat i) (Z.of_nat j)
  = Some (string_of_runes (take (j - i) (drop i (runes s)))).
Proof.
  intros Hw Hij. unfold runes in Hij. rewrite length_map in Hij.
  rewrite offset_slice_cut by done. f_equal. rewrite cut_encoded.
  - unfold runes. by rewrite skipn_map, firstn_map.
  - by apply Forall_take, Forall_drop.
Qed.

Lemma take_1_drop {A : Type} (l : list A) (i : nat) (x : A) :
  l !! i = Some x -> take 1 (drop i l) = [x].
Proof. intros H. by rewrite (drop_S _ x). Qed.

Lemma RuneAt_describes (ri : RuneInfo) (s : gostring) (i : nat) (r : Z) :
  describes ri s -> runes s !! i = Some r -> RuneAt ri s (Z.of_nat i) = Some (EncodeRune r).
Proof.
  intros H Hr. pose proof (lookup_lt_Some _ _ _ Hr) as Hi.
  destruct H as [r' s Hs He|s Ha|s|s|s Hw]; unfold RuneAt; cbn [single info_runes ascii].
  - unfold runes in Hr, Hi. rewrite Hs in Hr, Hi. cbn in Hr, Hi.
    assert (i = 0%nat) as -> by lia. cbn in Hr. injection Hr as <-. by rewrite He.
  - cbn [asciiRuneInfo single info_runes ascii]. rewrite lookup_at_nat.
    rewrite runes_ascii in Hr by done. rewrite list_lookup_fmap in Hr.
    destruct (s !! i) as [b|] eqn:Eb; [|done]. injection Hr as <-.
    cbn. by eapply asciiRuneValue_ok.
  - by rewrite lookup_at_nat, Hr.
  - by rewrite lookup_at_nat, Hr.
  - replace (Z.of_nat i + 1) with (Z.of_nat (i + 1)) by lia. rewrite valid_slice by (done || lia).
    replace (i + 1 - i)%nat with 1%nat by lia. rewrite (take_1_drop _ _ r) by done.
    cbn [string_of_runes flat_map]. by rewrite app_nil_r.
Qed.

Lemma Substring_describes (ri : RuneInfo) (s : gostring) (i j : nat) :
  describes ri s -> (i <= j <= length (runes s))%nat ->
  Substring ri s (Z.of_nat i) (Z.of_nat j)
  = Some (string_of_runes (take (j - i) (drop i (runes s)))).
Proof.
  intros H Hij.
  destruct H as [r' s Hs He|s Ha|s|s|s Hw]; unfold Substring;
    cbn [single info_runes ascii singleRuneInfo asciiRuneInfo].
  - unfold runes in *. rewrite Hs in *. cbn in Hij. cbn [map fst].
    assert (i = 0 /\ j = 0 \/ i = 0 /\ j = 1 \/ i = 1 /\ j = 1)%nat as [[-> ->]|[[-> ->]|[-> ->]]]
      by lia; cbn; [done| |done]. by rewrite app_nil_r, He.
  - unfold slice_bytes. rewrite runes_ascii in * by done. rewrite length_map in Hij.
    rewrite (proj2 (Z.leb_le 0 _)), !(proj2 (Z.leb_le _ _)) by (unfold zlen; lia). cbn [andb].
    rewrite Nat2Z.id, skipn_map, firstn_map. replace (Z.to_nat _) with (j - i)%nat by lia.
    f_equal. assert (Ha' : is_ascii (take (j - i) (drop i s)) = true).
    { unfold is_ascii in *. rewrite forallb_forall in *. intros b Hb. apply Ha.
      rewrite <- list_elem_of_In in *. by apply subseteq_take, subseteq_drop in Hb. }
    revert Ha'. generalize (take (j - i) (drop i s)) as l. clear.
    induction l as [|b l IH]; [done|]. cbn [is_ascii forallb]. intros [Hb Hl]%andb_true_iff.
    cbn [map string_of_runes flat_map]. rewrite (IH Hl) at 1.
    unfold EncodeRune, is_scalar. byte_bounds. unfold RuneSelf in Hb. apply Z.ltb_lt in Hb.
    rewrite (proj2 (between_true 0 55295 _)) by lia. cbn [orb].
    rewrite (proj2 (Z.ltb_lt _ 128)) by lia. by rewrite byte_of_val.
  - rewrite (proj2 (Z.leb_le 0 _)), !(proj2 (Z.leb_le _ _)) by (unfold zlen; lia). cbn [andb].
    rewrite Nat2Z.id. by replace (Z.to_nat _) with (j - i)%nat by lia.
  - rewrite (proj2 (Z.leb_le 0 _)), !(proj2 (Z.leb_le _ _)) by (unfold zlen; lia). cbn [andb].
    rewrite Nat2Z.id. by replace (Z.to_nat _) with (j - i)%nat by lia.
  - by apply valid_slice.
Qed.

(** A segment starts with a byte, which is its rune when it is ASCII. *)
Lemma segments_head (s : gostring) :
  Forall (fun p => exists b l, snd p = b :: l /\ (byte_val b < 128 -> fst p = byte_val b))
    (segments s).
Proof.
  induction s as [|b s IH] using string_ind_segments; [constructor|].
  rewrite segments_cons. constructor; [|exact IH]. cbn [fst snd].
  pose proof (DecodeRune_width b s) as Hw.
  destruct (snd (DecodeRune (b :: s))) as [|k] eqn:E; [lia|]. cbn [firstn].
  exists b, (take k s). split; [done|]. intros Hb. unfold DecodeRune, RuneSelf.
  by rewrite (proj2 (Z.ltb_lt _ _)).
Qed.

(** The byte at the offset of a rune. *)
Lemma lookup_rune_start (s : gostring) (i : nat) (r : Z) (b : byte) (l : gostring) :
  segments s !! i = Some (r, b :: l) -> lookup_at s (zlen (cut (take i (segments s)))) = Some b.
Proof.
  intros Hi. set (segs := segments s) in *.
  assert (Hs : s = cut (take i segs) ++ (b :: l) ++ cut (drop (S i) segs)).
  { rewrite <- (concat_segments s) at 1. fold (cut (segments s)). fold segs.
    rewrite <- (take_drop_middle segs i (r, b :: l)) at 1 by done.
    rewrite cut_app. f_equal. }
  unfold zlen. rewrite lookup_at_nat. rewrite Hs at 1.
  rewrite lookup_app_r by lia. by rewrite Nat.sub_diag.
Qed.

Lemma RuneValueAt_offsets (ri : RuneInfo) (s : gostring) (i : nat) (r : Z) :
  describes ri s -> ascii ri = false -> offsets ri = Some (range_offsets 0 (segments s)) ->
  runes s !! i = Some r -> RuneValueAt ri s (Z.of_nat i) = Some (VString (EncodeRune r)).
Proof.
  intros H Ha Ho Hr. unfold RuneValueAt. rewrite Ha, Ho. rewrite lookup_at_nat.
  pose proof Hr as Hr'. unfold runes in Hr'. apply list_lookup_fmap_Some in Hr' as ([r' l] & E & Hi).
  cbn [fst] in E. subst r'. rewrite range_offsets_lookup by (apply lookup_lt_Some in Hi; lia).
  pose proof (segments_head s) as Hh. rewrite Forall_lookup in Hh.
  destruct (Hh i _ Hi) as (b & l' & El & Hb). cbn [fst snd] in *. subst l.
  cbn [mbind option_bind]. rewrite Z.add_0_l. rewrite (lookup_rune_start s i r b l') by done.
  cbn [mbind option_bind]. rewrite (RuneAt_describes ri s i r) by done.
  unfold RuneSelf. destruct (Z.ltb_spec (byte_val b) 128) as [Hlt|]; [|done].
  unfold asciiRuneValue. rewrite (proj2 (Z.ltb_lt _ _)) by done. by rewrite Hb.
Qed.

Lemma RuneValueAt_describes (ri : RuneInfo) (s : gostring) (i : nat) (r : Z) :
  describes ri s -> runes s !! i = Some r ->
  RuneValueAt ri s (Z.of_nat i) = Some (VString (EncodeRune r)).
Proof.
  intros H Hr. pose proof (RuneAt_describes ri s i r H Hr) as Hat. pose proof H as H'.
  destruct H' as [r' s Hs He|s Ha|s|s|s Hw];
    try (apply RuneValueAt_offsets; done); unfold RuneValueAt;
    cbn [ascii offsets singleRuneInfo asciiRuneInfo].
  - by rewrite Hat.
  - unfold RuneAt in Hat. cbn [single info_runes ascii asciiRuneInfo] in Hat. by rewrite Hat.
  - by rewrite Hat.
Qed.

(** ** Byte offsets back to rune indices *)

Lemma Search_offsets (segs : list (Z * gostring)) (from : Z) (i : nat) :
  Forall (fun p => exists b l, snd p = b :: l /\ (byte_val b < 128 -> fst p = byte_val b)) segs ->
  (i <= length segs)%nat ->
  Search (range_offsets from segs) (fun o => from + zlen (cut (take i segs)) <=? o) = Z.of_nat i.
Proof.
  intros Hf. revert from i. induction Hf as [|[r l] segs (b & l' & El & _) _ IH]; intros from i Hi.
  - assert (i = 0%nat) as -> by (simpl in Hi; lia). cbn [range_offsets Search take].
    rewrite (proj2 (Z.leb_le _ _)); [done|]. change (zlen (cut [])) with 0. lia.
  - cbn [snd] in El. subst l. cbn [range_offsets Search].
    destruct i as [|i].
    { change (zlen (cut (take 0 ((r, b :: l') :: segs)))) with 0.
      by rewrite (proj2 (Z.leb_le _ _)) by lia. }
    change (cut (take (S i) ((r, b :: l') :: segs))) with ((b :: l') ++ cut (take i segs)).
    rewrite zlen_app, Z.add_assoc. pose proof (zlen_nonneg l'). pose proof (zlen_cons b l').
    pose proof (zlen_nonneg (cut (take i segs))).
    rewrite (proj2 (Z.leb_gt _ _)) by lia. rewrite IH by (simpl in Hi; lia). lia.
Qed.

(** Decoding looks only at the bytes of the rune. *)
Lemma DecodeRune_prefix (b : byte) (s : gostring) (n : nat) :
  (snd (DecodeRune (b :: s)) <= S n)%nat ->
  DecodeRune (b :: take n s) = DecodeRune (b :: s).
Proof.
  unfold DecodeRune. cbv zeta.
  destruct s as [|b1 [|b2 [|b3 s]]], n as [|[|[|n]]]; cbn [firstn]; try done;
    repeat case_match; try done; cbn [snd]; lia.
Qed.

Lemma cut_take_prefix (s : gostring) (i : nat) :
  cut (take i (segments s)) = take (length (cut (take i (segments s)))) s.
Proof.
  assert (Hs : s = cut (take i (segments s)) ++ cut (drop i (segments s))).
  { rewrite <- cut_app, take_drop. symmetry. apply concat_segments. }
  rewrite Hs at 3. by rewrite take_app_length.
Qed.

(** The segments of a prefix that ends between two runes. *)
Lemma segments_prefix (s : gostring) (i : nat) :
  segments (cut (take i (segments s))) = take i (segments s).
Proof.
  revert i. induction s as [|b s IH] using string_ind_segments; [by intros []|].
  intros [|i]; [done|]. pose proof (cut_take_prefix (b :: s) (S i)) as Hp.
  rewrite segments_cons in *. pose proof (DecodeRune_width b s) as Hw.
  set (k := snd (DecodeRune (b :: s))) in *.
  set (rest := cut (take i (segments (drop k (b :: s))))).
  cbn [firstn] in *.
  change (cut ((fst (DecodeRune (b :: s)), take k (b :: s)) :: take i (segments (drop k (b :: s)))))
    with (take k (b :: s) ++ rest) in *.
  assert (Hk : length (take k (b :: s)) = k) by (rewrite length_take; lia).
  assert (Hd : DecodeRune (take k (b :: s) ++ rest) = DecodeRune (b :: s)).
  { rewrite Hp, length_app, Hk. destruct (k + length rest)%nat as [|n] eqn:En; [lia|].
    cbn [firstn]. apply DecodeRune_prefix. fold k. lia. }
  destruct (take k (b :: s) ++ rest) as [|b' p] eqn:Ep.
  { apply (f_equal length) in Ep. rewrite length_app, Hk in Ep. cbn in Ep. lia. }
  rewrite segments_cons, Hd. fold k. rewrite <- Ep.
  rewrite take_app_length', drop_app_length' by done. f_equal. apply IH.
Qed.

Lemma RuneIndexOfByte_describes (ri : RuneInfo) (s : gostring) (i : nat) :
  describes ri s -> (i <= length (runes s))%nat ->
  RuneIndexOfByte ri s (zlen (cut (take i (segments s)))) = Some (Z.of_nat i).
Proof.
  intros H Hi. unfold runes in Hi. rewrite length_map in Hi.
  assert (Hoff : Search (range_offsets 0 (segments s))
                   (fun o => zlen (cut (take i (segments s))) <=? o) = Z.of_nat i)
    by (rewrite <- (Search_offsets (segments s) 0 i) by (done || apply segments_head); done).
  destruct H as [r s Hs He|s Ha|s|s|s Hw]; unfold RuneIndexOfByte;
    cbn [single ascii offsets info_runes singleRuneInfo asciiRuneInfo]; try by rewrite Hoff.
  - rewrite Hs in *. destruct (EncodeRune_nonempty r) as (b & t & E). rewrite E in He. subst s.
    cbn [length] in Hi. assert (i = 0%nat \/ i = 1%nat) as [-> | ->] by lia; [done|].
    cbn [firstn]. unfold cut. cbn [map concat snd]. rewrite app_nil_r, zlen_cons.
    pose proof (zlen_nonneg t). rewrite (proj2 (Z.eqb_neq _ _)) by lia. done.
  - rewrite segments_ascii in * by done. rewrite length_map in Hi. f_equal. clear -Hi.
    revert i Hi. induction s as [|b s IH]; intros [|i] Hi; cbn [length map firstn] in *; try done.
    { lia. }
    unfold cut. cbn [map concat snd]. fold (cut (take i (map (fun b => (byte_val b, [b])) s))).
    rewrite zlen_app, IH by lia. change (zlen [b]) with 1. lia.
  - assert (Hsl : slice_bytes s 0 (zlen (cut (take i (segments s)))) = Some (cut (take i (segments s)))).
    { rewrite <- (concat_segments s) at 1. fold (cut (segments s)).
      rewrite <- (take_drop i (segments s)) at 1. rewrite cut_app.
      apply (slice_bytes_mid [] (cut (take i (segments s))) (cut (drop i (segments s)))). }
    rewrite Hsl. cbn. f_equal. rewrite zlen_runes, segments_prefix. unfold zlen.
    rewrite length_take. lia.
Qed.

(** ** The cache stays bounded and consistent *)

(** The bytes the entries of a list of keys retain. *)
Definition retained_sum (m : gmap runeCacheKey runeCacheEntry) (order : list runeCacheKey) : Z :=
  foldr (fun k acc => default 0 (retainedBytes <$> m !! k) + acc) 0 order.

#[local] Arguments retained_sum : simpl never.

(** The invariant without the bounds: between the store and the evictions. *)
Record cache_ok (c : runeCache) : Prop := {
  ok_entries : forall k e, runeCacheMap c !! k = Some e ->
    describes (entry_info e) (entry_s e) /\ snd k = zlen (entry_s e) /\ 0 <= retainedBytes e;
  ok_nodup : NoDup (runeCacheOrder c);
  ok_order : forall k, k ∈ runeCacheOrder c <-> is_Some (runeCacheMap c !! k);
  ok_bytes : runeCacheBytes c = retained_sum (runeCacheMap c) (runeCacheOrder c);
  ok_count : runeCacheCount c = zlen (runeCacheOrder c) }.

Definition cache_bounded (c : runeCache) : Prop :=
  runeCacheBytes c <= runeCacheByteCap /\ runeCacheCount c <= runeCacheCountCap.

Lemma retained_sum_ext m m' order :
  (forall k, k ∈ order -> m !! k = m' !! k) -> retained_sum m order = retained_sum m' order.
Proof.
  unfold retained_sum. induction order as [|k order IH]; intros H; [done|]. cbn [foldr].
  rewrite (H k) by (by left). f_equal. apply IH. intros k' Hk'. apply H. by right.
Qed.

Lemma retained_sum_cons m k order :
  retained_sum m (k :: order) = default 0 (retainedBytes <$> m !! k) + retained_sum m order.
Proof. reflexivity. Qed.

Lemma retained_sum_snoc m order k :
  retained_sum m (order ++ [k]) = retained_sum m order + default 0 (retainedBytes <$> m !! k).
Proof.
  unfold retained_sum. induction order as [|k' order IH]; [cbn; lia|]. cbn [app foldr]. rewrite IH. lia.
Qed.

Lemma evict_step m old order bytes count e :
  m !! old = Some e -> cache_ok (mkRuneCache m (old :: order) bytes count) ->
  cache_ok (mkRuneCache (delete old m) order (bytes - retainedBytes e) (count - 1)).
Proof.
  intros He [Hent Hnd Hord Hb Hc]; cbn in *. apply NoDup_cons in Hnd as [Hold Hnd].
  split; cbn; [|done| | |].
  - intros k e' Hk. apply lookup_delete_Some in Hk as [_ Hk]. by apply Hent.
  - intros k. destruct (decide (k = old)) as [->|Hne].
    + rewrite lookup_delete_eq. split; [done|by intros []].
    + rewrite lookup_delete_ne by done. rewrite <- Hord, elem_of_cons. tauto.
  - rewrite Hb, retained_sum_cons, He. cbn [fmap option_fmap option_map default id].
    rewrite (retained_sum_ext (delete old m) m order); [lia|].
    intros k Hk. apply lookup_delete_ne. by intros ->.
  - rewrite Hc, zlen_cons. lia.
Qed.

Lemma evict_ok order m bytes count :
  cache_ok (mkRuneCache m order bytes count) ->
  cache_ok (evict m order bytes count) /\ cache_bounded (evict m order bytes count).
Proof.
  revert m bytes count. induction order as [|old order IH]; intros m bytes count H; cbn [evict].
  - split; [done|]. destruct H as [_ _ _ Hb Hc]. cbn in Hb, Hc. subst.
    split; cbn [runeCacheBytes runeCacheCount]; by vm_compute.
  - destruct (_ || _) eqn:E.
    + destruct (m !! old) as [e|] eqn:He; [apply IH; by apply evict_step|].
      exfalso. destruct H as [_ _ Hord _ _]. cbn in Hord.
      destruct (proj1 (Hord old)) as [e He']; [by left|congruence].
    + split; [done|]. apply orb_false_iff in E as [E1 E2].
      unfold cache_bounded. cbn [runeCacheBytes runeCacheCount]. lia.
Qed.

(** The newest entry survives the evictions it causes. *)
Lemma evict_keeps_last order m bytes count (key : runeCacheKey) e :
  m !! key = Some e -> retainedBytes e <= runeCacheByteCap ->
  cache_ok (mkRuneCache m (order ++ [key]) bytes count) ->
  runeCacheMap (evict m (order ++ [key]) bytes count) !! key = Some e.
Proof.
  intros Hk He. revert m bytes count Hk. induction order as [|old order IH]; intros m bytes count Hk H.
  - destruct H as [_ _ _ Hb Hc]. cbn in Hb, Hc. cbn [app] in Hb.
    rewrite retained_sum_cons, Hk in Hb. unfold retained_sum in Hb. cbn in Hb. cbn [app evict].
    rewrite Z.gtb_ltb, (proj2 (Z.ltb_ge _ _)) by lia. subst count. cbn [orb]. done.
  - cbn [app evict]. destruct (_ || _) eqn:E; [|done].
    destruct (m !! old) as [e'|] eqn:Hold.
    + assert (Hne : key <> old).
      { intros ->. destruct H as [_ Hnd _ _ _]. cbn in Hnd. apply NoDup_cons in Hnd as [Hnd _].
        apply Hnd, elem_of_app. right. by left. }
      apply IH; [by rewrite lookup_delete_ne by done|]. by apply evict_step.
    + exfalso. destruct H as [_ _ Hord _ _]. cbn in Hord.
      destruct (proj1 (Hord old)) as [? ?]; [by left|congruence].
Qed.

Lemma cache_load_describes (c : runeCache) (key : runeCacheKey) s ri :
  cache_ok c -> cache_load c key s = Some ri -> describes ri s.
Proof.
  intros [Hent _ _ _ _]. unfold cache_load.
  destruct (runeCacheMap c !! key) as [e|] eqn:He; [|done]. case_decide; [|done].
  intros [= <-]. subst s. by apply (Hent key).
Qed.

Lemma cache_store_ok (c : runeCache) (key : runeCacheKey) s info retained :
  cache_ok c -> cache_bounded c ->
  (forall e, runeCacheMap c !! key = Some e -> entry_s e = s) ->
  snd key = zlen s -> describes info s -> 0 <= retained <= runeCacheByteCap ->
  cache_ok (fst (cache_store c key s info retained)) /\
  cache_bounded (fst (cache_store c key s info retained)) /\
  describes (snd (cache_store c key s info retained)) s /\
  cache_load (fst (cache_store c key s info retained)) key s
  = Some (snd (cache_store c key s info retained)).
Proof.
  intros Hc Hb Hpin Hkey Hd Hr. unfold cache_store.
  destruct (cache_load c key s) as [found|] eqn:Hl; cbn [fst snd].
  { split_and!; try done. by eapply cache_load_describes. }
  assert (Hnone : runeCacheMap c !! key = None).
  { destruct (runeCacheMap c !! key) as [e|] eqn:He; [|done]. unfold cache_load in Hl.
    rewrite He in Hl. by rewrite decide_True in Hl by auto. }
  assert (Hnew : cache_ok (mkRuneCache (<[key := mkRuneEntry s info retained]> (runeCacheMap c))
                   (runeCacheOrder c ++ [key]) (runeCacheBytes c + retained) (runeCacheCount c + 1))).
  { destruct Hc as [Hent Hnd Hord Hby Hco]. split; cbn.
    - intros k e. rewrite lookup_insert_Some. intros [[<- <-]|[_ Hk]]; [|by apply Hent].
      cbn. split_and!; [done|done|lia].
    - apply NoDup_app. split_and!; [done| |apply NoDup_singleton].
      intros k Hk ->%list_elem_of_singleton. apply Hord in Hk as [? ?]. congruence.
    - intros k. rewrite elem_of_app, list_elem_of_singleton, lookup_insert_is_Some', Hord.
      split; (intros [H|H]; [by right|by left]).
    - rewrite retained_sum_snoc, lookup_insert_eq. cbn. rewrite Hby. f_equal.
      apply retained_sum_ext. intros k Hk. rewrite lookup_insert_ne; [done|].
      intros ->. apply Hord in Hk as [? ?]. congruence.
    - rewrite Hco, zlen_app. done. }
  destruct (evict_ok _ _ _ _ Hnew) as [H1 H2]. split_and!; try done.
  unfold cache_load.
  rewrite (evict_keeps_last _ _ _ _ _ (mkRuneEntry s info retained));
    [by rewrite decide_True|apply lookup_insert_eq|cbn; lia|done].
Qed.

Lemma buildRuneInfo_retained (rune_cap : Z -> Z) (s : gostring) :
  (forall n, n <= rune_cap n) -> 0 <= snd (buildRuneInfo rune_cap s).
Proof.
  intros Hcap. unfold buildRuneInfo. pose proof (Hcap (zlen (runes s))).
  pose proof (zlen_nonneg (runes s)). repeat case_match; cbn [snd]; try lia.
  match goal with H : validRuneCount s = Some _ |- _ =>
    apply validRuneCount_loop_spec in H as [-> _] end.
  pose proof (zlen_nonneg (segments s)). lia.
Qed.

(** [StringRuneInfo] returns a mapping of its string and keeps the cache
    consistent and bounded. *)
Lemma StringRuneInfo_ok (rune_cap : Z -> Z) (seen c : runeCache) (data : Z) (s : gostring) :
  (forall n, n <= rune_cap n) -> cache_ok seen -> cache_ok c -> cache_bounded c ->
  (forall e, runeCacheMap c !! (data, zlen s) = Some e -> entry_s e = s) ->
  let (c', ri) := StringRuneInfo rune_cap seen c data s in
  cache_ok c' /\ cache_bounded c' /\ describes ri s.
Proof.
  intros Hcap Hseen Hc Hb Hpin.
  assert (keep : forall P : Prop, P -> cache_ok c /\ cache_bounded c /\ P) by done.
  unfold StringRuneInfo. pose proof (buildRuneInfo_describes rune_cap s) as Hd.
  destruct s as [|b t]; [apply keep; by apply describes_ascii|].
  destruct (zlen (b :: t) <=? shortStringThreshold).
  { destruct (DecodeRune (b :: t)) as [r n] eqn:E.
    destruct (_ && _) eqn:E2; [|apply keep; exact Hd]. apply keep.
    apply andb_true_iff in E2 as [E2 [E3 E4]%andb_true_iff].
    apply Z.leb_le in E2. apply Nat.eqb_eq in E3. apply single_describes; rewrite ?E; cbn [fst snd]; try done.
    apply orb_true_iff in E4 as [E4|E4]; [left; lia|right]. by apply Nat.ltb_lt in E4. }
  destruct (_ >? _); [apply keep; done|].
  destruct (cache_load seen _ _) as [info|] eqn:Hl.
  { apply keep. exact (cache_load_describes seen _ _ _ Hseen Hl). }
  pose proof (buildRuneInfo_retained rune_cap (b :: t) Hcap) as Hr.
  destruct (buildRuneInfo rune_cap (b :: t)) as [info ib]. cbn [fst snd] in *.
  destruct (_ >? runeCacheByteCap) eqn:E; [apply keep; done|].
  destruct (cache_store_ok c (data, zlen (b :: t)) (b :: t) info
              (zlen (b :: t) + ib + runeCacheEntryOverhead)) as (H1 & H2 & H3 & H4); try done.
  { pose proof (zlen_nonneg (b :: t)). unfold runeCacheEntryOverhead in *. lia. }
  destruct (cache_store _ _ _ _ _). done.
Qed.

(** C23: indexing a string through the rune mapping agrees with [[]rune(s)] and
    [string(runes)], for every string, valid UTF-8 or not, and whatever other
    threads did to the cache between the look-up and the store: the count, the
    rune at an index, the value pushed for it, the substring between two
    indices, and the index of the rune at a byte offset. *)
Theorem rune_mapping_exact (rune_cap : Z -> Z) (seen c : runeCache) (data : Z) (s : gostring) :
  (forall n, n <= rune_cap n) -> cache_ok seen -> cache_ok c -> cache_bounded c ->
  (forall e, runeCacheMap c !! (data, zlen s) = Some e -> entry_s e = s) ->
  let ri := snd (StringRuneInfo rune_cap seen c data s) in
  RuneCount ri s = zlen (runes s) /\
  (forall i r, runes s !! i = Some r ->
     RuneAt ri s (Z.of_nat i) = Some (EncodeRune r) /\
     RuneValueAt ri s (Z.of_nat i) = Some (VString (EncodeRune r))) /\
  (forall i j, (i <= j <= length (runes s))%nat ->
     Substring ri s (Z.of_nat i) (Z.of_nat j)
     = Some (string_of_runes (take (j - i) (drop i (runes s))))) /\
  (forall i, (i <= length (runes s))%nat ->
     RuneIndexOfByte ri s (zlen (concat (map snd (take i (segments s))))) = Some (Z.of_nat i)).
Proof.
  intros Hcap Hseen Hc Hb Hpin ri.
  pose proof (StringRuneInfo_ok rune_cap seen c data s Hcap Hseen Hc Hb Hpin) as H. unfold ri. clear ri.
  destruct (StringRuneInfo rune_cap seen c data s) as [c' ri]. destruct H as (_ & _ & H). cbn [snd].
  split_and!.
  - by apply RuneCount_describes.
  - intros i r Hr. split; [by apply RuneAt_describes|by apply RuneValueAt_describes].
  - intros i j Hij. by apply Substring_describes.
  - intros i Hi. by apply RuneIndexOfByte_describes.
Qed.

(** The cache at start-up. *)
Definition initial_cache : runeCache := mkRuneCache ∅ [] 0 0.

Lemma initial_cache_ok : cache_ok initial_cache /\ cache_bounded initial_cache.
Proof.
  split; [split; cbn; [|constructor| |done|done]|by vm_compute].
  - intros k e. by rewrite lookup_empty.
  - intros k. rewrite lookup_empty. split; [by intros ?%elem_of_nil|by intros []].
Qed.

Lemma initial_unpinned (key : runeCacheKey) (s : gostring) (e : runeCacheEntry) :
  runeCacheMap initial_cache !! key = Some e -> entry_s e = s.
Proof. cbn. by rewrite lookup_empty. Qed.

Lemma rune_mapping_exact_witness :
  let s := bs "h" ++ EncodeRune 233 ++ bs "llo" in
  let ri := snd (StringRuneInfo (fun n => n) initial_cache initial_cache 7 s) in
  RuneCount ri s = 5 /\ RuneAt ri s 1 = Some (EncodeRune 233) /\
  Substring ri s 1 3 = Some (EncodeRune 233 ++ bs "l").
Proof.
  intros s ri. unfold ri.
  destruct (rune_mapping_exact (fun n => n) initial_cache initial_cache 7 s Z.le_refl
              (proj1 initial_cache_ok) (proj1 initial_cache_ok) (proj2 initial_cache_ok)
              (initial_unpinned _ s)) as (H1 & H2 & H3 & _).
  split; [exact H1|split; [exact (proj1 (H2 1%nat 233 eq_refl))|]].
  exact (H3 1%nat 3%nat ltac:(vm_compute; lia)).
Defined.

(** C24: the process-wide rune cache keeps its invariant through every call,
    however calls of other threads interleave between the unlocked look-up and
    the locked store: every entry maps its own string, the order lists each key
    once, the byte and entry counts are those of the entries, and neither cap
    is exceeded.  A string whose mapping was stored is found by the next
    look-up. *)
Theorem rune_cache_invariant (rune_cap : Z -> Z) (seen c : runeCache) (data : Z) (s : gostring) :
  (forall n, n <= rune_cap n) -> cache_ok seen -> cache_ok c -> cache_bounded c ->
  (forall e, runeCacheMap c !! (data, zlen s) = Some e -> entry_s e = s) ->
  let c' := fst (StringRuneInfo rune_cap seen c data s) in
  let ri := snd (StringRuneInfo rune_cap seen c data s) in
  cache_ok c' /\ cache_bounded c' /\
  (forall key info retained,
     snd key = zlen s -> 0 <= retained <= runeCacheByteCap -> describes info s ->
     (forall e, runeCacheMap c !! key = Some e -> entry_s e = s) ->
     cache_load (fst (cache_store c key s info retained)) key s
     = Some (snd (cache_store c key s info retained))).
Proof.
  intros Hcap Hseen Hc Hb Hpin c' ri.
  pose proof (StringRuneInfo_ok rune_cap seen c data s Hcap Hseen Hc Hb Hpin) as H. unfold c', ri.
  destruct (StringRuneInfo rune_cap seen c data s) as [c'' ri']. destruct H as (H1 & H2 & H3).
  cbn [fst snd]. split_and!; [done..|]. intros key info retained Hk Hr Hd Hp.
  by apply cache_store_ok.
Qed.

Lemma rune_cache_invariant_witness :
  let s := repeat Byte.x41 300 in
  let c' := fst (StringRuneInfo (fun n => n) initial_cache initial_cache 7 s) in
  cache_ok c' /\ cache_bounded c' /\ runeCacheCount c' = 1.
Proof.
  intros s c'.
  destruct (rune_cache_invariant (fun n => n) initial_cache initial_cache 7 s Z.le_refl
              (proj1 initial_cache_ok) (proj1 initial_cache_ok) (proj2 initial_cache_ok)
              (initial_unpinned _ s)) as (H1 & H2 & _).
  split; [exact H1|split; [exact H2|vm_compute; reflexivity]].
Defined.
