(* ===== verification/RangeIter.v ===== *)
(** * RangeIter: ranges and their iterators

    [runtime.Range] with its length and membership (value.go), and the range
    opcodes of the VM (src/internal/bytecode/vm.go): building a range or a
    character range, the eager [range] list, and the counting and
    arbitrary-precision iterators of [for ... in]. *)

From S2P Require Import Prelude Utf8 GoText Value Machine.
#[local] Open Scope Z_scope.

(** ** [runtime.Range] *)

(** [Range.Length]; [big.Int.Div] is Euclidean division, here of non-negative
    numbers. *)
Definition Range_Length (v : Range) : Z :=
  let step := Step v in
  if step =? 0 then 0
  else
    let diff := End_ v - Start v in
    if (if 0 <? step then diff <? 0 else 0 <? diff) then 0
    else
      let diff := if 0 <? step then diff else - diff in
      let step := if 0 <? step then step else - step in
      if Exclusive v then (diff + (step - 1)) / step else diff / step + 1.

(** [Range.ContainsInt]; [big.Int.Rem] truncates. *)
Definition ContainsInt (v : Range) (n : Z) : bool :=
  let step := Step v in
  if step =? 0 then false
  else if (if 0 <? step
           then (n <? Start v) || (Exclusive v && (End_ v <=? n)) || (negb (Exclusive v) && (End_ v <? n))
           else (Start v <? n) || (Exclusive v && (n <=? End_ v)) || (negb (Exclusive v) && (n <? End_ v)))
       then false
       else Z.rem (n - Start v) step =? 0.

(** ** Range iterators *)

(** [rangeIterator]: the big fields are nil (here 0) in a small iterator. *)
Record rangeIterator := mkRangeIter {
  current : Z; end_ : Z; step : Z; exclusive : bool;
  small : bool; done_ : bool; cur : Z; endSmall : Z; stepSmall : Z }.

Definition set_cur (it : rangeIterator) (d : bool) (c : Z) : rangeIterator :=
  mkRangeIter (current it) (end_ it) (step it) (exclusive it) (small it) d c
    (endSmall it) (stepSmall it).
Definition set_current (it : rangeIterator) (c : Z) : rangeIterator :=
  mkRangeIter c (end_ it) (step it) (exclusive it) (small it) (done_ it) (cur it)
    (endSmall it) (stepSmall it).

Definition small_range_iterator (start stop st : Z) (excl : bool) : rangeIterator :=
  mkRangeIter 0 0 0 excl true false start stop st.

(** [newRangeIterator]. *)
Definition newRangeIterator (v : Range) : rangeIterator :=
  if is_int64 (Start v) && is_int64 (End_ v) && is_int64 (Step v) && negb (Step v =? 0)
  then small_range_iterator (Start v) (End_ v) (Step v) (Exclusive v)
  else mkRangeIter (Start v) (End_ v) (Step v) (Exclusive v) false false 0 0 0.

(** [rangeContains]. *)
Definition rangeContains (cur stop st : Z) (excl : bool) : bool :=
  if 0 <? st then (if excl then cur <? stop else cur <=? stop)
  else (if excl then stop <? cur else stop <=? cur).

(** [rangeIterator.nextSmall]: the addition wraps, and the comparison after it
    notices. *)
Definition nextSmall (it : rangeIterator) : rangeIterator * option Value :=
  if done_ it then (it, None)
  else
    let '(c, stop, st) := (cur it, endSmall it, stepSmall it) in
    let inRange :=
      if (0 <? st) && exclusive it then c <? stop
      else if 0 <? st then c <=? stop
      else if exclusive it then stop <? c
      else stop <=? c in
    if negb inRange then (set_cur it true c, None)
    else
      let next := wrap64 (c + st) in
      let it' := if ((0 <? st) && (next <? c)) || ((st <? 0) && (c <? next))
                 then set_cur it true c else set_cur it false next in
      (it', Some (VSmallInt c)).

(** [rangeIterator.next]. *)
Definition rangeIterator_next (it : rangeIterator) : rangeIterator * option Value :=
  if small it then nextSmall it
  else if negb (rangeContains (current it) (end_ it) (step it) (exclusive it)) then (it, None)
  else (set_current it (current it + step it), Some (VInt (current it))).

(** ** The opcodes *)

Definition runtimeError {A : Type} (s : String.string) : vmM A := fail (RuntimeError (bs s)).

(** [native.IntValueToBigInt]. *)
Definition IntValueToBigInt (v : Value) : option Z :=
  match v with
  | VSmallInt i => Some i
  | VInt i => Some i
  | _ => None
  end.

Definition int_or (v : Value) (message : String.string) : vmM Z :=
  match IntValueToBigInt v with Some i => ret i | None => runtimeError message end.

(** The list loop of [execRange]: [None] when the fuel runs out. *)
Fixpoint execRange_loop (fuel : nat) (exclusive : bool) (current stop st : Z) : option (list Value) :=
  match fuel with
  | O => None
  | S n =>
      let cmp := current ?= stop in
      let leave :=
        if 0 <? st
        then match cmp with Eq => exclusive | Gt => true | Lt => false end
        else match cmp with Eq => exclusive | Lt => true | Gt => false end in
      if leave then Some []
      else cons (VInt current) <$> execRange_loop n exclusive (current + st) stop st
  end.

Definition execRange_fuel (start stop : Z) : nat := S (S (Z.to_nat (Z.abs (stop - start)))).

(** [execRange]; [argc] is the instruction's operand. *)
Definition execRange (argc : Z) (exclusive : bool) : vmM unit :=
  let minArgc := if exclusive then 1 else 2 in
  if (argc <? minArgc) || (3 <? argc)
  then runtimeError "range expects (start, end) or (start, end, step)"
  else
    do st <- (if argc =? 3
              then do v <- propagate pop; do s <- int_or v "range step must be int"; ret (Some s)
              else ret None);
    do endVal <- propagate pop;
    do stop <- int_or endVal "range end must be int";
    do start <- (if 2 <=? argc
                 then do v <- propagate pop; int_or v "range start must be int"
                 else ret 0);
    let st := match st with Some s => s | None => if stop <? start then -1 else 1 end in
    if st =? 0 then runtimeError "range step cannot be zero"
    else
      match execRange_loop (execRange_fuel start stop) exclusive start stop st with
      | Some elements => push (VList elements)
      | None => fail GoPanic
      end.

(** The two loops of a character range, one iteration per unit of fuel. *)
Fixpoint char_up (fuel : nat) (exclusive : bool) (r stop : Z) : list Value :=
  match fuel with
  | O => []
  | S n =>
      if negb (r <=? stop) then []
      else if exclusive && (r =? stop) then []
      else VString (EncodeRune r) :: char_up n exclusive (r + 1) stop
  end.
Fixpoint char_down (fuel : nat) (exclusive : bool) (r stop : Z) : list Value :=
  match fuel with
  | O => []
  | S n =>
      if negb (stop <=? r) then []
      else if exclusive && (r =? stop) then []
      else VString (EncodeRune r) :: char_down n exclusive (r - 1) stop
  end.
Definition char_range (exclusive : bool) (start stop : Z) : list Value :=
  let fuel := S (Z.to_nat (Z.abs (stop - start))) in
  if start <=? stop then char_up fuel exclusive start stop
  else char_down fuel exclusive start stop.

(** The single rune of a string operand. *)
Definition single_rune (v : Value) : option Z :=
  match v with
  | VString s => match runes s with [r] => Some r | _ => None end
  | _ => None
  end.

(** [buildRange]: what it pushes. *)
Definition buildRange_value (exclusive : bool) (startValue endValue stepValue : Value)
    : result VMError Value :=
  match single_rune startValue with
  | Some r =>
      match single_rune endValue with
      | Some stop => Ok (VList (char_range exclusive r stop))
      | None => Err (RuntimeError (bs "char range end must be a single-character string"))
      end
  | None =>
      match IntValueToBigInt startValue, IntValueToBigInt endValue, IntValueToBigInt stepValue with
      | None, _, _ => Err (RuntimeError (bs "range start must be int"))
      | _, None, _ => Err (RuntimeError (bs "range end must be int"))
      | _, _, None => Err (RuntimeError (bs "range step must be int"))
      | Some start, Some stop, Some st =>
          if st =? 0 then Err (RuntimeError (bs "range step cannot be zero"))
          else Ok (VRange (mkRange start stop exclusive st))
      end
  end.
Definition buildRange (exclusive : bool) : vmM unit :=
  do stepValue <- propagate pop;
  do endValue <- propagate pop;
  do startValue <- propagate pop;
  do v <- lift (buildRange_value exclusive startValue endValue stepValue);
  push v.

(** [iteratorValue].  A list iterator holds the shared list: it carries its
    position and the length it started with, and each step is given what the
    list holds at that time. *)
Inductive iteratorValue :=
| IterList (limit index : Z)
| IterValues (values : list Value) (index : Z)
| IterRange (it : rangeIterator)
| IterGenerator (v : Value)
| IterUser (v : Value).

(** [orderedSetValues]: set elements in the order of their keys. *)
Fixpoint set_lookup (key : gostring) (es : list (gostring * Value)) : option Value :=
  match es with
  | [] => None
  | (k, v) :: es' => if decide (k = key) then Some v else set_lookup key es'
  end.
Definition orderedSetValues (es : list (gostring * Value)) : list Value :=
  omap (fun k => set_lookup k es) (sort_strings (map fst es)).

Section Iterators.
(** [vm.userInstanceIterator] and [Generator.Next] call back into the program. *)
Variable userInstanceIterator : Value -> result VMError iteratorValue.
Variable generator_Next : Value -> result VMError (option Value).

(** [iteratorFor]. *)
Definition iteratorFor (value : Value) : result VMError iteratorValue :=
  match value with
  | VList es => Ok (IterList (zlen es) 0)
  | VRange r => Ok (IterRange (newRangeIterator r))
  | VDict es => Ok (IterValues (map (fun e => VList [fst (snd e); snd (snd e)]) es) 0)
  | VSet es => Ok (IterValues (orderedSetValues es) 0)
  | VString s => Ok (IterValues (map (fun r => VString (EncodeRune r)) (runes s)) 0)
  | VInstance _ _ => userInstanceIterator value
  | VOther t => if decide (t = bs "generator") then Ok (IterGenerator value)
                else Err (RuntimeError (t ++ bs " is not iterable"))
  | v => Err (RuntimeError (TypeName v ++ bs " is not iterable"))
  end.

(** [iteratorValue.next]; [now] is what the iterated list holds. *)
Definition iterator_next (now : list Value) (iter : iteratorValue)
    : iteratorValue * result VMError (option Value) :=
  match iter with
  | IterList limit index =>
      if (limit <=? index) || (zlen now <=? index) then (iter, Ok None)
      else match zlookup now index with
           | Some v => (IterList limit (index + 1), Ok (Some v))
           | None => (iter, Err GoPanic)
           end
  | IterGenerator v => (iter, generator_Next v)
  | IterRange it => let (it', v) := rangeIterator_next it in (IterRange it', Ok v)
  | IterUser _ => (iter, Err (Plain (bs "user iterator must be advanced via VM")))
  | IterValues values index =>
      if zlen values <=? index then (iter, Ok None)
      else match zlookup values index with
           | Some v => (IterValues values (index + 1), Ok (Some v))
           | None => (iter, Err GoPanic)
           end
  end.

(** [iterInit]: the iterator it pushes; the stack keeps values and iterators
    apart, so the operation returns it. *)
Definition iterInit : vmM iteratorValue :=
  do value <- propagate pop;
  lift (iteratorFor value).

Definition smallRangeBound (v : Value) : option Z :=
  match v with VSmallInt i => Some i | _ => None end.

(** [forRangeIter]: the iterator it pushes. *)
Definition forRangeIter (exclusive : bool) : vmM iteratorValue :=
  let slow :=
    do_ buildRange exclusive; iterInit in
  do vm <- get;
  match stack vm with
  | v3 :: v2 :: v1 :: rest =>
      match smallRangeBound (ToValue v1), smallRangeBound (ToValue v2), smallRangeBound (ToValue v3) with
      | Some start, Some stop, Some st =>
          if st =? 0 then slow
          else do_ modify (set_stack rest); ret (IterRange (small_range_iterator start stop st exclusive))
      | _, _, _ => slow
      end
  | _ => slow
  end.
End Iterators.

(** ** The items of a range *)

(** The specification: as many terms of the progression as [Length] says. *)
Definition range_items (v : Range) : list Z :=
  map (fun i => Start v + i * Step v) (seqZ 0 (Range_Length v)).

Lemma le_div_iff (a c q : Z) : 0 < c -> q <= a / c <-> c * q <= a.
Proof.
  intros Hc. split.
  - intros H. pose proof (Z.mul_div_le a c Hc). nia.
  - intros H. by apply Z.div_le_lower_bound.
Qed.

(** A term is in range exactly when its index is below the length. *)
Lemma Range_Length_contains (v : Range) (i : Z) :
  Step v <> 0 -> 0 <= i ->
  i < Range_Length v <-> rangeContains (Start v + i * Step v) (End_ v) (Step v) (Exclusive v) = true.
Proof.
  intros Hs Hi. unfold Range_Length, rangeContains. destruct v as [a b x s]. cbn in *.
  rewrite (proj2 (Z.eqb_neq s 0)) by done.
  destruct (Z.ltb_spec 0 s) as [Hp|Hp].
  - destruct (Z.ltb_spec (b - a) 0); destruct x.
    1,2: split; [lia|]. rewrite Z.ltb_lt. nia. rewrite Z.leb_le. nia.
    + rewrite Z.ltb_lt, <- Z.le_succ_l, le_div_iff by lia. nia.
    + rewrite Z.leb_le, Z.add_1_r, Z.lt_succ_r, le_div_iff by lia. nia.
  - destruct (Z.ltb_spec 0 (b - a)); destruct x.
    1,2: split; [lia|]. rewrite Z.ltb_lt. nia. rewrite Z.leb_le. nia.
    + rewrite Z.ltb_lt, <- Z.le_succ_l, le_div_iff by lia. nia.
    + rewrite Z.leb_le, Z.add_1_r, Z.lt_succ_r, le_div_iff by lia. nia.
Qed.

Lemma Range_Length_nonneg (v : Range) : 0 <= Range_Length v.
Proof.
  unfold Range_Length. destruct (Z.eqb_spec (Step v) 0) as [|Hs]; [lia|].
  destruct (Z.ltb_spec 0 (Step v)) as [Hp|Hp]; case_match; try lia.
  - pose proof (Z.div_pos (End_ v - Start v) (Step v)).
    destruct (Exclusive v); [apply Z.div_pos|]; lia.
  - pose proof (Z.div_pos (- (End_ v - Start v)) (- Step v)).
    destruct (Exclusive v); [apply Z.div_pos|]; lia.
Qed.

Lemma range_items_length (v : Range) : zlen (range_items v) = Range_Length v.
Proof.
  unfold range_items. rewrite zlen_map. unfold zlen. rewrite length_seqZ.
  pose proof (Range_Length_nonneg v). lia.
Qed.

Lemma elem_of_range_items (v : Range) (n : Z) :
  n ∈ range_items v <-> exists i, 0 <= i < Range_Length v /\ n = Start v + i * Step v.
Proof.
  unfold range_items. rewrite list_elem_of_fmap. setoid_rewrite elem_of_seqZ.
  split; intros (i & H1 & H2); exists i; lia.
Qed.

(** Membership in a range is decided exactly: [ContainsInt] answers true
    for the values that iterating the range produces and for no others, for
    every start, end, step (zero included) and bound kind. *)
Theorem ContainsInt_exact (v : Range) (n : Z) :
  ContainsInt v n = true <-> n ∈ range_items v.
Proof.
  rewrite elem_of_range_items. unfold ContainsInt.
  destruct (Z.eqb_spec (Step v) 0) as [Hs|Hs].
  { unfold Range_Length. rewrite Hs. cbn. split; [done|intros (? & ? & ?); lia]. }
  assert (Hbound : (if 0 <? Step v
           then (n <? Start v) || (Exclusive v && (End_ v <=? n)) || (negb (Exclusive v) && (End_ v <? n))
           else (Start v <? n) || (Exclusive v && (n <=? End_ v)) || (negb (Exclusive v) && (n <? End_ v)))
          = negb ((if 0 <? Step v then Start v <=? n else n <=? Start v)
                  && rangeContains n (End_ v) (Step v) (Exclusive v)))
    by (unfold rangeContains; destruct (0 <? Step v), (Exclusive v); cbn [negb andb]; lia).
  rewrite Hbound. clear Hbound. rewrite if_negb, andb_if.
  pose proof (Z.quot_rem (n - Start v) (Step v) Hs) as Hq.
  split.
  - destruct (if 0 <? Step v then _ else _) eqn:E1; [|done].
    destruct (rangeContains _ _ _ _) eqn:E2; [|done]. rewrite Z.eqb_eq. intros Hr.
    exists (Z.quot (n - Start v) (Step v)).
    assert (Hi : 0 <= Z.quot (n - Start v) (Step v)).
    { destruct (Z.ltb_spec 0 (Step v)); [apply Z.quot_pos; lia|].
      rewrite <- Z.quot_opp_opp by done. apply Z.quot_pos; lia. }
    split; [|lia]. split; [done|]. apply Range_Length_contains; [done..|].
    replace (Start v + _) with n by lia. done.
  - intros (i & [Hi1 Hi2] & Hn). rewrite Range_Length_contains in Hi2 by done.
    rewrite <- Hn in Hi2. rewrite Hi2.
    assert (Hside : (if 0 <? Step v then Start v <=? n else n <=? Start v) = true)
      by (destruct (Z.ltb_spec 0 (Step v)); nia).
    rewrite Hside, Z.eqb_eq. replace (n - Start v) with (i * Step v) by lia. by apply Z.rem_mul.
Qed.

(** ** Iterators produce the items *)

(** The value a range iterator pushes for an item. *)
Definition item_value (v : Range) (n : Z) : Value :=
  if is_int64 (Start v) && is_int64 (End_ v) && is_int64 (Step v) then VSmallInt n else VInt n.

(** The values of the next calls, up to a bound, and the iterator left. *)
Fixpoint drain (n : nat) (it : rangeIterator) : list Value * rangeIterator :=
  match n with
  | O => ([], it)
  | S n => match rangeIterator_next it with
           | (it', None) => ([], it')
           | (it', Some x) => let (l, it'') := drain n it' in (x :: l, it'')
           end
  end.

(** The iterator has produced [i] items. *)
Definition iter_at (v : Range) (it : rangeIterator) (i : Z) : Prop :=
  0 <= i <= Range_Length v /\
  if is_int64 (Start v) && is_int64 (End_ v) && is_int64 (Step v)
  then exists c d, it = set_cur (small_range_iterator (Start v) (End_ v) (Step v) (Exclusive v)) d c
                   /\ is_int64 c = true
                   /\ if d then i = Range_Length v else c = Start v + i * Step v
  else it = mkRangeIter (Start v + i * Step v) (End_ v) (Step v) (Exclusive v) false false 0 0 0.

Lemma iter_at_start (v : Range) : Step v <> 0 -> iter_at v (newRangeIterator v) 0.
Proof.
  intros Hs. unfold iter_at, newRangeIterator. rewrite (proj2 (Z.eqb_neq _ _)) by done.
  rewrite andb_true_r. pose proof (Range_Length_nonneg v). split; [lia|].
  destruct (_ && _) eqn:E.
  - apply andb_true_iff in E as [[E1 E2]%andb_true_iff E3].
    exists (Start v), false. split; [done|]. split; [done|lia].
  - f_equal. lia.
Qed.

(** Overflow of the next value is what the comparison notices. *)
Lemma wrap_step (c st : Z) :
  is_int64 c = true -> is_int64 st = true -> st <> 0 ->
  ((0 <? st) && (wrap64 (c + st) <? c)) || ((st <? 0) && (c <? wrap64 (c + st)))
  = negb (is_int64 (c + st)).
Proof.
  intros Hc Hst Hs. destruct (is_int64 (c + st)) eqn:E.
  - rewrite wrap64_id by done. lia.
  - apply is_int64_iff in Hc, Hst.
    assert (E' : ~ (- 2 ^ 63 <= c + st < 2 ^ 63)) by (rewrite <- is_int64_iff; congruence).
    destruct (Z.lt_total st 0) as [H|[H|H]]; [|lia|].
    + rewrite wrap64_under by lia. lia.
    + rewrite wrap64_over by lia. lia.
Qed.

(** The in-range test of the small iterator is [rangeContains]. *)
Lemma small_in_range (c stop st : Z) (excl : bool) :
  (if (0 <? st) && excl then c <? stop
   else if 0 <? st then c <=? stop
   else if excl then stop <? c
   else stop <=? c) = rangeContains c stop st excl.
Proof. unfold rangeContains. by destruct (0 <? st), excl. Qed.

Lemma iter_at_more (v : Range) (it : rangeIterator) (i : Z) :
  Step v <> 0 -> iter_at v it i -> i < Range_Length v ->
  exists it', rangeIterator_next it = (it', Some (item_value v (Start v + i * Step v)))
              /\ iter_at v it' (i + 1).
Proof.
  intros Hs [Hi Hit] Hlt. unfold iter_at, item_value.
  pose proof (Range_Length_contains v i Hs (proj1 Hi)) as Hc. apply Hc in Hlt as Hin.
  destruct (_ && _) eqn:E.
  - destruct Hit as (c & d & -> & Hc64 & Hd). destruct d; [lia|]. subst c.
    apply andb_true_iff in E as [[E1 E2]%andb_true_iff E3].
    unfold rangeIterator_next, nextSmall.
    cbn [small done_ cur endSmall stepSmall exclusive set_cur small_range_iterator].
    rewrite small_in_range, Hin. cbn [negb]. rewrite wrap_step by done.
    destruct (is_int64 (Start v + i * Step v + Step v)) eqn:Eo; cbn [negb];
      eexists; (split; [reflexivity|]); (split; [lia|]).
    + exists (Start v + (i + 1) * Step v), false. rewrite wrap64_id by done.
      replace (Start v + (i + 1) * Step v) with (Start v + i * Step v + Step v) by lia. done.
    + exists (Start v + i * Step v), true. split; [done|]. split; [done|].
      destruct (Z.eq_dec (i + 1) (Range_Length v)) as [|Hne]; [done|exfalso].
      assert (Hnext : i + 1 < Range_Length v) by lia.
      rewrite Range_Length_contains in Hnext by lia.
      replace (Start v + (i + 1) * Step v) with (Start v + i * Step v + Step v) in Hnext by lia.
      unfold rangeContains in *. apply is_int64_iff in E1, E2, E3, Hc64.
      assert (Eo' : ~ (- 2 ^ 63 <= Start v + i * Step v + Step v < 2 ^ 63))
        by (rewrite <- is_int64_iff; congruence).
      destruct (Z.ltb_spec 0 (Step v)), (Exclusive v); lia.
  - subst it. unfold rangeIterator_next. cbn [small current end_ step exclusive].
    rewrite Hin. cbn [negb]. eexists. split; [reflexivity|]. split; [lia|].
    unfold set_current. cbn [current end_ step exclusive small done_ cur endSmall stepSmall].
    f_equal. lia.
Qed.

Lemma iter_at_end (v : Range) (it : rangeIterator) :
  Step v <> 0 -> iter_at v it (Range_Length v) ->
  exists it', rangeIterator_next it = (it', None) /\ iter_at v it' (Range_Length v).
Proof.
  intros Hs [Hi Hit]. unfold iter_at.
  assert (Hout : rangeContains (Start v + Range_Length v * Step v) (End_ v) (Step v) (Exclusive v) = false).
  { apply not_true_iff_false. rewrite <- Range_Length_contains by (done || lia). lia. }
  destruct (_ && _) eqn:E.
  - destruct Hit as (c & d & -> & Hc64 & Hd). unfold rangeIterator_next, nextSmall.
    cbn [small done_ cur endSmall stepSmall exclusive set_cur small_range_iterator].
    destruct d.
    + eexists. split; [reflexivity|]. split; [lia|]. by exists c, true.
    + subst c. rewrite small_in_range, Hout. cbn [negb]. eexists. split; [reflexivity|].
      split; [lia|]. by exists (Start v + Range_Length v * Step v), true.
  - subst it. unfold rangeIterator_next. cbn [small current end_ step exclusive].
    rewrite Hout. cbn [negb]. eexists. split; [reflexivity|]. by split; [lia|].
Qed.

Lemma drain_iter (v : Range) (n : nat) (it : rangeIterator) (i : Z) :
  Step v <> 0 -> iter_at v it i ->
  fst (drain n it)
  = map (fun j => item_value v (Start v + j * Step v)) (take n (seqZ i (Range_Length v - i))) /\
  iter_at v (snd (drain n it)) (Z.min (i + Z.of_nat n) (Range_Length v)).
Proof.
  intros Hs. revert it i. induction n as [|n IH]; intros it i Hit.
  - cbn. split; [done|]. destruct Hit as [Hi ?]. replace (Z.min _ _) with i by lia. by split.
  - cbn [drain]. pose proof (proj1 Hit) as Hi. destruct (Z.eq_dec i (Range_Length v)) as [->|Hne].
    + destruct (iter_at_end v it Hs Hit) as (it' & -> & Hit'). cbn [fst snd].
      rewrite Z.sub_diag, seqZ_nil, take_nil by lia. split; [done|].
      by replace (Z.min _ _) with (Range_Length v) by lia.
    + destruct (iter_at_more v it i Hs Hit ltac:(lia)) as (it' & -> & Hit').
      destruct (IH it' (i + 1) Hit') as [H1 H2]. destruct (drain n it') as [l it'']. cbn [fst snd] in *.
      split.
      * rewrite (seqZ_cons i (Range_Length v - i)) by lia. cbn [firstn map]. f_equal.
        rewrite H1. by replace (Range_Length v - (i + 1)) with (Z.pred (Range_Length v - i)) by lia.
      * by replace (Z.min (i + 1 + Z.of_nat n) (Range_Length v))
          with (Z.min (i + Z.of_nat (S n)) (Range_Length v)) in H2 by lia.
Qed.

(** C25: iterating over a range with a non-zero step produces its items in
    order, each once, and then nothing for ever: the values of any number of
    calls of [next] are that many of the items.  The counting iterator on
    64-bit integers never wraps around, whatever its bounds. *)
Theorem range_iterator_exact (v : Range) (n k : nat) :
  Step v <> 0 ->
  let (values, it) := drain n (newRangeIterator v) in
  values = map (item_value v) (take n (range_items v)) /\
  (Range_Length v <= Z.of_nat n -> fst (drain k it) = []).
Proof.
  intros Hs. destruct (drain_iter v n _ 0 Hs (iter_at_start v Hs)) as [H1 H2].
  destruct (drain n (newRangeIterator v)) as [values it]. cbn [fst snd] in *. split.
  - rewrite H1, Z.sub_0_r. unfold range_items. by rewrite firstn_map, map_map.
  - intros Hn. replace (Z.min _ _) with (Range_Length v) in H2 by lia.
    destruct (drain_iter v k it _ Hs H2) as [-> _]. by rewrite Z.sub_diag, seqZ_nil, take_nil by lia.
Qed.

Lemma range_iterator_exact_witness :
  let v := mkRange (2 ^ 63 - 3) (2 ^ 63 - 1) false 2 in
  let (values, it) := drain 5 (newRangeIterator v) in
  values = [VSmallInt (2 ^ 63 - 3); VSmallInt (2 ^ 63 - 1)] /\
  (Range_Length v <= 5 -> fst (drain 3 it) = []).
Proof.
  intros v. exact (range_iterator_exact v 5 3 ltac:(vm_compute; discriminate)).
Defined.

(** ** The opcodes agree with the items *)

Lemma Range_Length_le (v : Range) : Range_Length v <= Z.abs (End_ v - Start v) + 1.
Proof.
  destruct (Z.eq_dec (Step v) 0) as [Hs|Hs]; [unfold Range_Length; rewrite Hs; cbn; lia|].
  destruct (Z.le_gt_cases (Range_Length v) (Z.abs (End_ v - Start v) + 1)) as [|H]; [done|exfalso].
  rewrite Range_Length_contains in H by lia. revert H. unfold rangeContains.
  destruct (Z.ltb_spec 0 (Step v)), (Exclusive v); rewrite ?Z.ltb_lt, ?Z.leb_le; nia.
Qed.

Lemma loop_test (c stop st : Z) (excl : bool) :
  (if 0 <? st
   then match c ?= stop with Eq => excl | Gt => true | Lt => false end
   else match c ?= stop with Eq => excl | Lt => true | Gt => false end)
  = negb (rangeContains c stop st excl).
Proof.
  unfold rangeContains. destruct (Z.compare_spec c stop), (0 <? st), excl; lia.
Qed.

Lemma execRange_loop_items (v : Range) (fuel : nat) (i : Z) :
  Step v <> 0 -> 0 <= i <= Range_Length v -> Range_Length v - i < Z.of_nat fuel ->
  execRange_loop fuel (Exclusive v) (Start v + i * Step v) (End_ v) (Step v)
  = Some (map (fun j => VInt (Start v + j * Step v)) (seqZ i (Range_Length v - i))).
Proof.
  intros Hs. revert i. induction fuel as [|fuel IH]; intros i Hi Hf; [lia|].
  cbn [execRange_loop]. rewrite loop_test.
  destruct (rangeContains _ _ _ _) eqn:E; cbn [negb].
  - rewrite <- Range_Length_contains in E by lia.
    replace (Start v + i * Step v + Step v) with (Start v + (i + 1) * Step v) by lia.
    rewrite IH by lia. rewrite (seqZ_cons i (Range_Length v - i)) by lia.
    by replace (Range_Length v - (i + 1)) with (Z.pred (Range_Length v - i)) by lia.
  - apply not_true_iff_false in E. rewrite <- Range_Length_contains in E by lia.
    by rewrite seqZ_nil by lia.
Qed.

Lemma execRange_total (a b s : Z) (excl : bool) :
  s <> 0 ->
  execRange_loop (execRange_fuel a b) excl a b s
  = Some (map VInt (range_items (mkRange a b excl s))).
Proof.
  intros Hs. set (v := mkRange a b excl s).
  pose proof (Range_Length_le v) as Hle. pose proof (Range_Length_nonneg v).
  rewrite <- (Z.add_0_r a) at 2. change a with (Start v) at 2.
  rewrite <- (Z.mul_0_l s). rewrite (execRange_loop_items v _ 0).
  - rewrite Z.sub_0_r. unfold range_items. by rewrite map_map.
  - done.
  - lia.
  - unfold execRange_fuel. cbn [Start End_ v] in Hle. lia.
Qed.

(** The step that [range(a, b)] counts by. *)
Definition default_step (a b : Z) : Z := if b <? a then -1 else 1.

Definition is_int (w : VMValue) (i : Z) : Prop := IntValueToBigInt (ToValue w) = Some i.

(** Runs the opcode up to the test on the next operand, and reads it. *)
Ltac run_operand H :=
  unfold bind, propagate, pop, popVM, int_or, ret;
  cbn -[execRange_loop execRange_fuel range_items IntValueToBigInt ToValue]; rewrite H;
  cbn -[execRange_loop execRange_fuel range_items IntValueToBigInt ToValue].

(** C26: the [range] opcode returns for all integer operands: it pushes the
    list of the items of the range from start to end by the given step, or by
    one towards the end when there is none (from zero for a single operand),
    and a zero step is a runtime error. *)
Theorem execRange_exact (excl : bool) (vm : VM) (rest : list VMValue) (w1 w2 w3 : VMValue) (a b s : Z) :
  is_int w1 a -> is_int w2 b -> is_int w3 s ->
  let pushed st v := set_stack (VMValueFromValue (VList (map VInt (range_items v))) :: st) vm in
  execRange 3 excl (set_stack (w3 :: w2 :: w1 :: rest) vm)
  = (if s =? 0 then (set_stack rest vm, Err (RuntimeError (bs "range step cannot be zero")))
     else (pushed rest (mkRange a b excl s), Ok tt)) /\
  execRange 2 excl (set_stack (w2 :: w1 :: rest) vm)
  = (pushed rest (mkRange a b excl (default_step a b)), Ok tt) /\
  execRange 1 true (set_stack (w2 :: rest) vm)
  = (pushed rest (mkRange 0 b true (default_step 0 b)), Ok tt).
Proof.
  intros H1 H2 H3 pushed. unfold is_int in *.
  assert (Hd : forall x y, default_step x y <> 0)
    by (intros x y; unfold default_step; case_match; lia).
  assert (Hd2 : forall x y, (default_step x y =? 0) = false) by (intros; by apply Z.eqb_neq).
Ltac run H := unfold int_or at 1; rewrite ?H;
    cbn -[execRange_loop execRange_fuel range_items IntValueToBigInt ToValue].
  split; [|split]; unfold execRange.
  - destruct excl; run_operand H3; run_operand H2; run_operand H1;
      (destruct (Z.eqb_spec s 0); [done|]); by rewrite execRange_total.
  - destruct excl; run_operand H2; run_operand H1; fold (default_step a b);
      by rewrite Hd2, execRange_total.
  - run_operand H2; fold (default_step 0 b); by rewrite Hd2, execRange_total.
Qed.

Definition empty_vm : VM := mkState [] [] 0 [] [] false false [] [] ∅ ∅.

Lemma execRange_exact_witness :
  execRange 2 false (set_stack [VMValueSmallInt 1; VMValueSmallInt 3] empty_vm)
  = (set_stack [VMValueFromValue (VList [VInt 3; VInt 2; VInt 1])] empty_vm, Ok tt).
Proof.
  exact (proj1 (proj2 (execRange_exact false empty_vm [] (VMValueSmallInt 3) (VMValueSmallInt 1)
                         (VMValueSmallInt 5) 3 1 5 eq_refl eq_refl eq_refl))).
Defined.

(** C27: the fused opcode that starts a [for] loop over a range literal is the
    same as building the range and starting the iteration: same iterator, same
    errors, same stack. *)
Theorem forRangeIter_matches (user : Value -> result VMError iteratorValue) (excl : bool) (vm : VM) :
  Forall (fun w => value_wf (ToValue w) = true) (stack vm) ->
  forRangeIter user excl vm = (do_ buildRange excl; iterInit user) vm.
Proof.
  intros Hwf. unfold forRangeIter, bind, get.
  destruct (stack vm) as [|w3 [|w2 [|w1 rest]]] eqn:Hst; try reflexivity.
  inversion_clear Hwf as [|? ? H3 Hwf']. inversion_clear Hwf' as [|? ? H2 Hwf].
  inversion_clear Hwf as [|? ? H1 _].
  destruct (smallRangeBound (ToValue w1)) as [a|] eqn:E1; [|done].
  destruct (smallRangeBound (ToValue w2)) as [b|] eqn:E2; [|done].
  destruct (smallRangeBound (ToValue w3)) as [s|] eqn:E3; [|done].
  destruct (Z.eqb_spec s 0) as [|Hs]; [done|].
  destruct (ToValue w1) eqn:F1; try done. destruct (ToValue w2) eqn:F2; try done.
  destruct (ToValue w3) eqn:F3; try done. cbn in E1, E2, E3, H1, H2, H3. simplify_eq.
  unfold buildRange, iterInit, pop, popVM, bind, propagate, ret. rewrite Hst. cbn [stack set_stack].
  rewrite F1, F2, F3. unfold buildRange_value. cbn [single_rune IntValueToBigInt].
  rewrite (proj2 (Z.eqb_neq s 0)) by done. cbn -[newRangeIterator]. unfold lift, iteratorFor.
  unfold newRangeIterator. cbn [Start End_ Step Exclusive].
  rewrite H1, H2, H3, (proj2 (Z.eqb_neq s 0)) by done. reflexivity.
Qed.

Lemma forRangeIter_matches_witness :
  let vm := set_stack [VMValueSmallInt 1; VMValueSmallInt 5; VMValueSmallInt 0] empty_vm in
  forRangeIter (fun _ => Err GoPanic) true vm
  = (do_ buildRange true; iterInit (fun _ => Err GoPanic)) vm.
Proof.
  intros vm. apply forRangeIter_matches. repeat constructor.
Defined.

(** ** Character ranges *)

Lemma char_up_items (fuel : nat) (excl : bool) (r stop : Z) :
  r <= stop + 1 -> stop - r < Z.of_nat fuel ->
  char_up fuel excl r stop
  = map (fun x => VString (EncodeRune x)) (seqZ r (stop - r + (if excl then 0 else 1))).
Proof.
  revert r. induction fuel as [|fuel IH]; intros r Hr Hf.
  - cbn. by rewrite seqZ_nil by (destruct excl; lia).
  - cbn [char_up]. destruct (Z.leb_spec r stop); cbn [negb];
      [|by rewrite seqZ_nil by (destruct excl; lia)].
    destruct excl; cbn [andb]; [destruct (Z.eqb_spec r stop); [by rewrite seqZ_nil by lia|]|];
      rewrite IH, (seqZ_cons r) by lia; cbn [map]; do 3 f_equal; lia.
Qed.

Lemma map_seqZ_succ {A : Type} (f : Z -> A) (a n : Z) :
  map f (seqZ (Z.succ a) n) = map (fun i => f (i + 1)) (seqZ a n).
Proof.
  replace (Z.succ a) with (1 + a) by lia. rewrite <- fmap_add_seqZ.
  change (map f (Z.add 1 <$> seqZ a n)) with (f <$> (Z.add 1 <$> seqZ a n)).
  rewrite <- list_fmap_compose. apply map_ext. intros i. unfold compose. f_equal. lia.
Qed.

Lemma char_down_items (fuel : nat) (excl : bool) (r stop : Z) :
  stop <= r + 1 -> r - stop < Z.of_nat fuel ->
  char_down fuel excl r stop
  = map (fun i => VString (EncodeRune (r - i))) (seqZ 0 (r - stop + (if excl then 0 else 1))).
Proof.
  revert r. induction fuel as [|fuel IH]; intros r Hr Hf.
  - cbn. by rewrite seqZ_nil by (destruct excl; lia).
  - cbn [char_down]. destruct (Z.leb_spec stop r); cbn [negb];
      [|by rewrite seqZ_nil by (destruct excl; lia)].
    destruct excl; cbn [andb]; [destruct (Z.eqb_spec r stop); [by rewrite seqZ_nil by lia|]|];
      rewrite (seqZ_cons 0) by lia; rewrite IH by lia; cbn [map]; rewrite Z.sub_0_r; f_equal;
      rewrite map_seqZ_succ;
      match goal with |- map _ (seqZ 0 ?n) = map _ (seqZ 0 ?k) => replace k with n by lia end;
      apply map_ext; intros i; do 2 f_equal; lia.
Qed.

(** The runes from [a] to [b], upwards or downwards. *)
Definition runes_between (a b : Z) (excl : bool) : list Z :=
  let n := Z.abs (b - a) + (if excl then 0 else 1) in
  if a <=? b then seqZ a n else map (fun i => a - i) (seqZ 0 n).

Lemma single_rune_encode (r : Z) : is_scalar r = true -> single_rune (VString (EncodeRune r)) = Some r.
Proof.
  intros Hr. unfold single_rune.
  pose proof (runes_string_of_runes [r]) as H. cbn [string_of_runes flat_map] in H.
  rewrite app_nil_r in H. by rewrite H by (by constructor).
Qed.

(** A range literal between two single-character strings is the list of
    the characters from the first to the second, upwards or downwards, with or
    without the last, whatever the step; between integers it is the range
    itself, and a zero step is an error. *)
Theorem range_literal_exact (excl : bool) (a b : Z) (st : Value) (x y s : Z) :
  is_scalar a = true -> is_scalar b = true ->
  buildRange_value excl (VString (EncodeRune a)) (VString (EncodeRune b)) st
  = Ok (VList (map (fun r => VString (EncodeRune r)) (runes_between a b excl))) /\
  buildRange_value excl (VInt x) (VInt y) (VInt s)
  = (if s =? 0 then Err (RuntimeError (bs "range step cannot be zero"))
     else Ok (VRange (mkRange x y excl s))).
Proof.
  intros Ha Hb. split; [|reflexivity]. unfold buildRange_value.
  rewrite !single_rune_encode by done. do 2 f_equal. unfold char_range, runes_between.
  destruct (Z.leb_spec a b).
  - rewrite char_up_items by lia. do 2 f_equal. lia.
  - rewrite char_down_items by lia. rewrite map_map. do 2 f_equal. lia.
Qed.

Lemma range_literal_exact_witness :
  buildRange_value false (VString (EncodeRune 97)) (VString (EncodeRune 99)) VNull
  = Ok (VList [VString (bs "a"); VString (bs "b"); VString (bs "c")]).
Proof. exact (proj1 (range_literal_exact false 97 99 VNull 0 0 1 eq_refl eq_refl)). Defined.

(** ** Iterating over a list that changes *)

(** Successive calls of [next], each with what the list holds at that time. *)
Fixpoint next_calls (gen : Value -> result VMError (option Value)) (nows : list (list Value))
    (iter : iteratorValue) : list (result VMError (option Value)) :=
  match nows with
  | [] => []
  | now :: nows' => let (iter', r) := iterator_next gen now iter in r :: next_calls gen nows' iter'
  end.

Lemma zlookup_nat {A : Type} (l : list A) (i : Z) :
  0 <= i < zlen l -> exists x, zlookup l i = Some x.
Proof.
  intros H. unfold zlookup. rewrite (proj2 (Z.ltb_ge _ _)) by lia.
  apply lookup_lt_is_Some_2. unfold zlen in H. lia.
Qed.

Lemma list_next_cases (gen : Value -> result VMError (option Value)) (now : list Value)
    (limit index : Z) :
  0 <= index ->
  iterator_next gen now (IterList limit index)
  = if (index <? limit) && (index <? zlen now)
    then (IterList limit (index + 1), Ok (zlookup now index))
    else (IterList limit index, Ok None).
Proof.
  intros Hi. unfold iterator_next. rewrite !Z.leb_antisym, <- negb_andb, if_negb.
  destruct (_ && _) eqn:E; [|done]. destruct (zlookup_nat now index) as [x ->]; [lia|done].
Qed.

(** The iterator of a list never fails, whatever the loop body does to the
    list, and ends after at most as many values as the list had when the loop
    started, so a loop that appends to its own list terminates; a call that
    finds the position inside the list yields the element that is there now. *)
Theorem list_iteration_bounded (gen : Value -> result VMError (option Value)) (limit : Z)
    (nows : list (list Value)) (index : Z) :
  0 <= index <= limit ->
  Forall (fun r => exists v, r = Ok v) (next_calls gen nows (IterList limit index)) /\
  zlen (omap (fun r => match r with Ok v => v | Err _ => None end)
          (next_calls gen nows (IterList limit index))) <= limit - index /\
  (forall now, index < limit -> index < zlen now ->
     snd (iterator_next gen now (IterList limit index)) = Ok (zlookup now index)).
Proof.
  intros Hi. split; [|split].
  - revert index Hi. induction nows as [|now nows IH]; intros index Hi; [constructor|].
    cbn [next_calls]. rewrite list_next_cases by lia.
    destruct (_ && _) eqn:E; (constructor; [eauto|apply IH; lia]).
  - revert index Hi. induction nows as [|now nows IH]; intros index Hi; [cbn; rewrite zlen_nil; lia|].
    cbn [next_calls]. rewrite list_next_cases by lia. destruct (_ && _) eqn:E.
    + destruct (zlookup_nat now index) as [x ->]; [lia|].
      specialize (IH (index + 1) ltac:(lia)). revert IH. cbn. rewrite zlen_cons. lia.
    + by apply IH.
  - intros now H1 H2. rewrite list_next_cases by lia. by rewrite !(proj2 (Z.ltb_lt _ _)) by done.
Qed.

Lemma list_iteration_bounded_witness :
  zlen (omap (fun r => match r with Ok v => v | Err _ => None end)
          (next_calls (fun _ => Err GoPanic)
             [[VSmallInt 1]; [VSmallInt 1; VSmallInt 1]; [VSmallInt 1; VSmallInt 1; VSmallInt 1]]
             (IterList 1 0))) <= 1.
Proof.
  exact (proj1 (proj2 (list_iteration_bounded (fun _ => Err GoPanic) 1
    [[VSmallInt 1]; [VSmallInt 1; VSmallInt 1]; [VSmallInt 1; VSmallInt 1; VSmallInt 1]] 0
    ltac:(lia)))).
Defined.
