(* ===== verification/Slice.v ===== *)
(** * Slice: indexing and slicing

    The index and slice opcodes of the VM (src/internal/bytecode/vm.go): the
    position of an element of a list, string or byte string, negative positions
    from the end, and slices with optional bounds and step.  A position is a
    Go [int], whose arithmetic wraps. *)

From S2P Require Import Prelude Utf8 GoText Value Machine RuneInfo RangeIter.
#[local] Open Scope Z_scope.

(** A provider of rune mappings: what [runtime.StringRuneInfo] promises its
    callers. *)
Class RuneMapping := {
  rune_info : gostring -> RuneInfo;
  rune_info_ok : forall s, describes (rune_info s) s }.

(** The uncached builder is one, whatever capacity slices are given. *)
#[export] Instance built_mapping : RuneMapping := {|
  rune_info := fun s => fst (buildRuneInfo (fun n => n) s);
  rune_info_ok := fun s => buildRuneInfo_describes (fun n => n) s |}.

(** [indexInt]. *)
Definition indexInt (value : Value) : result VMError Z :=
  match value with
  | VSmallInt i => Ok i
  | VInt i => if negb (is_int64 i) then Err (Classified (bs "ValueError") (bs "index is out of range"))
              else Ok i
  | _ => Err (Classified (bs "TypeError") (bs "index must be int, got " ++ TypeName value))
  end.

(** ** Bounds *)

(** [sliceBounds]. *)
Definition sliceBounds (startValue endValue : Value) (exclusive : bool) (length : Z)
    : result VMError (Z * Z) :=
  let* start := (if IsNull startValue then Ok 0 else indexInt startValue) in
  let* end_ := (if IsNull endValue then Ok length
                else let* i := indexInt endValue in
                     Ok (if exclusive then i else wrap64 (i + 1))) in
  let start := if start <? 0 then wrap64 (length + start) else start in
  let end_ := if end_ <? 0 then wrap64 (length + end_) else end_ in
  let start := if start <? 0 then 0 else start in
  let end_ := if end_ <? 0 then 0 else end_ in
  let start := if start >? length then length else start in
  let end_ := if end_ >? length then length else end_ in
  let end_ := if end_ <? start then start else end_ in
  Ok (start, end_).

(** [for i := start; i < stop; i += step], or [i > stop]: the positions
    appended, [None] when the fuel runs out. *)
Fixpoint slice_loop (fuel : nat) (i stop step : Z) : option (list Z) :=
  match fuel with
  | O => None
  | S n =>
      if (if step >? 0 then i <? stop else i >? stop)
      then cons i <$> slice_loop n (wrap64 (i + step)) stop step
      else Some []
  end.

(** A position clamped for a step. *)
Definition clamp_position (i step length : Z) : Z :=
  let i := if i <? 0 then wrap64 (i + length) else i in
  if step >? 0 then
    let i := if i <? 0 then 0 else i in
    if i >? length then length else i
  else
    let i := if i <? -1 then -1 else i in
    if i >? length - 1 then length - 1 else i.

(** [sliceIndices]. *)
Definition sliceIndices (startValue endValue stepValue : Value) (exclusive : bool) (length : Z)
    : result VMError (list Z) :=
  let* step := (if IsNull stepValue then Ok 1 else indexInt stepValue) in
  if step =? 0 then Err (Classified (bs "ValueError") (bs "slice step cannot be zero"))
  else if step =? 1 then
    let* (start, end_) := sliceBounds startValue endValue exclusive length in
    Ok (seqZ start (end_ - start))
  else
    let* start :=
      (if IsNull startValue then Ok (if step >? 0 then 0 else length - 1)
       else let* i := indexInt startValue in Ok (clamp_position i step length)) in
    let* stop :=
      (if IsNull endValue then Ok (if step >? 0 then length else -1)
       else let* i := indexInt endValue in
            let i := if exclusive then i
                     else if step >? 0 then wrap64 (i + 1) else wrap64 (i - 1) in
            Ok (clamp_position i step length)) in
    match slice_loop (Z.to_nat (2 * length + 3)) start stop step with
    | Some out => Ok out
    | None => Err GoPanic
    end.

(** ** The opcodes *)

Fixpoint pick {A : Type} (l : list A) (indices : list Z) : result VMError (list A) :=
  match indices with
  | [] => Ok []
  | i :: indices' =>
      match zlookup l i with
      | Some x => let* xs := pick l indices' in Ok (x :: xs)
      | None => Err GoPanic
      end
  end.

(** The positions of a slice or its fault. *)
Definition slice_of (startValue endValue stepValue : Value) (exclusive : bool) (length : Z)
    : result VMError (list Z) :=
  match sliceIndices startValue endValue stepValue exclusive length with
  | Ok l => Ok l
  | Err e => Err (callPropagate e)
  end.

(** [slice]: the value it pushes. *)
Definition slice_value (exclusive : bool) (lhs startValue endValue stepValue : Value)
    : result VMError Value :=
  match lhs with
  | VList es =>
      let* indices := slice_of startValue endValue stepValue exclusive (zlen es) in
      let* out := pick es indices in Ok (VList out)
  | VString s =>
      let rs := runes s in
      let* indices := slice_of startValue endValue stepValue exclusive (zlen rs) in
      let* out := pick rs indices in Ok (VString (string_of_runes out))
  | VBytes l =>
      let* indices := slice_of startValue endValue stepValue exclusive (zlen l) in
      let* out := pick l indices in Ok (VBytes out)
  | _ => Err (Thrown (bs "TypeError") (TypeName lhs ++ bs " is not sliceable"))
  end.
Definition slice (exclusive : bool) : vmM unit :=
  do stepValue <- propagate pop;
  do endValue <- propagate pop;
  do startValue <- propagate pop;
  do lhs <- propagate pop;
  do v <- lift (slice_value exclusive lhs startValue endValue stepValue);
  push v.

(** The position that an index names in a sequence of a given length. *)
Definition index_position (index : Value) (length : Z) (fault : String.string)
    : result VMError Z :=
  match indexInt index with
  | Err e => Err (callPropagate e)
  | Ok i =>
      let i := if i <? 0 then wrap64 (length + i) else i in
      if (i <? 0) || (length <=? i) then Err (Thrown (bs "ValueError") (bs fault)) else Ok i
  end.

Definition or_panic {A : Type} (o : option A) : result VMError A :=
  match o with Some a => Ok a | None => Err GoPanic end.

(** The value stored under a key string. *)
Fixpoint dict_entry (key : gostring) (es : list (gostring * (Value * Value))) : option Value :=
  match es with
  | [] => None
  | (k, (_, v)) :: es' => if decide (k = key) then Some v else dict_entry key es'
  end.

Section Index.
Context `{RuneMapping}.
(** The key string of a value ([DictKey]), and the [__index] method of a user
    class: [None] when the class has none. *)
Variable key_of : Value -> gostring.
Variable call_index : Value -> Value -> result VMError (option Value).

(** [index]: the value it pushes. *)
Definition index_value (lhs index : Value) : result VMError Value :=
  match lhs with
  | VList es =>
      let* i := index_position index (zlen es) "list index out of range" in or_panic (zlookup es i)
  | VString s =>
      let ri := rune_info s in
      let* i := index_position index (RuneCount ri s) "string index out of range" in
      or_panic (RuneValueAt ri s i)
  | VBytes l =>
      let* i := index_position index (zlen l) "bytes index out of range" in
      let* b := or_panic (zlookup l i) in Ok (VInt (byte_val b))
  | VDict es => Ok (default VNull (dict_entry (key_of index) es))
  | VInstance _ _ =>
      match call_index lhs index with
      | Err e => Err (callPropagate e)
      | Ok (Some v) => Ok v
      | Ok None => Err (Thrown (bs "TypeError") (TypeName lhs ++ bs " is not indexable"))
      end
  | _ => Err (Thrown (bs "TypeError") (TypeName lhs ++ bs " is not indexable"))
  end.
Definition index : vmM unit :=
  do i <- propagate pop;
  do lhs <- propagate pop;
  do v <- lift (index_value lhs i);
  push v.
End Index.

(** ** Contiguous slices *)

(** An operand that may be left out. *)
Definition bound_value (b : option Z) : Value :=
  match b with Some i => VSmallInt i | None => VNull end.

(** The specification of a bound: from the end when negative, clamped. *)
Definition clamp (length i : Z) : Z := Z.max 0 (Z.min length (if i <? 0 then i + length else i)).

Definition slice_start (a : option Z) (length : Z) : Z := clamp length (default 0 a).
Definition slice_end (b : option Z) (exclusive : bool) (length : Z) : Z :=
  match b with
  | None => length
  | Some i => clamp length (if exclusive then i else i + 1)
  end.

Definition is_bound (b : option Z) : Prop :=
  match b with Some i => is_int64 i = true | None => True end.

Lemma negative_position (len x : Z) :
  is_int64 x = true -> 0 <= len <= max_int64 ->
  (if x <? 0 then wrap64 (len + x) else x) = (if x <? 0 then len + x else x).
Proof.
  intros Hx Hl. destruct (Z.ltb_spec x 0); [|done]. apply wrap64_id.
  unfold is_int64, min_int64, max_int64 in *. lia.
Qed.

Lemma inclusive_end (i : Z) (exclusive : bool) :
  is_int64 i = true -> (exclusive = false -> i <> max_int64) ->
  (if exclusive then i else wrap64 (i + 1)) = (if exclusive then i else i + 1) /\
  is_int64 (if exclusive then i else i + 1) = true.
Proof.
  intros Hi Hne. destruct exclusive; [done|]. specialize (Hne eq_refl).
  assert (is_int64 (i + 1) = true) by (unfold is_int64, min_int64, max_int64 in *; lia).
  by rewrite wrap64_id.
Qed.

Lemma sliceBounds_clamp (a b : option Z) (exclusive : bool) (len : Z) :
  is_bound a -> is_bound b -> 0 <= len <= max_int64 ->
  (exclusive = false -> b <> Some max_int64) ->
  sliceBounds (bound_value a) (bound_value b) exclusive len
  = Ok (slice_start a len, Z.max (slice_start a len) (slice_end b exclusive len)).
Proof.
  intros Ha Hb Hlen Hmax. unfold sliceBounds, slice_start, slice_end.
  destruct a as [a|], b as [b|]; cbn [bound_value IsNull indexInt res_bind default id]; cbn in Ha, Hb;
    try (destruct (inclusive_end b exclusive Hb ltac:(intros E ->; by apply Hmax)) as [-> He]);
    rewrite ?negative_position by (done || lia);
    do 2 f_equal; unfold clamp; repeat case_match; lia.
Qed.

Lemma zlookup_of_nat {A : Type} (l : list A) (i : Z) : 0 <= i -> zlookup l i = l !! Z.to_nat i.
Proof. intros H. unfold zlookup. by rewrite (proj2 (Z.ltb_ge _ _)). Qed.

Lemma zlen_runes_le (s : gostring) : zlen (runes s) <= zlen s.
Proof.
  unfold runes. rewrite zlen_map.
  induction s as [|b s IH] using string_ind_segments; [unfold zlen; cbn; lia|].
  rewrite segments_cons, zlen_cons. pose proof (DecodeRune_width b s) as Hw.
  unfold zlen in *. rewrite length_drop in IH. lia.
Qed.

Lemma pick_seqZ {A : Type} (l : list A) (a n : Z) :
  0 <= a -> a + Z.max 0 n <= zlen l ->
  pick l (seqZ a n) = Ok (take (Z.to_nat n) (drop (Z.to_nat a) l)).
Proof.
  intros Ha Hn. destruct (Z.le_gt_cases n 0) as [Hz|Hz].
  { rewrite seqZ_nil by done. by replace (Z.to_nat n) with 0%nat by lia. }
  remember (Z.to_nat n) as k eqn:Ek. revert n a Ha Hn Hz Ek.
  induction k as [|k IH]; intros n a Ha Hn Hz Ek; [lia|].
  rewrite seqZ_cons by lia. cbn [pick]. rewrite zlookup_of_nat by done.
  destruct (lookup_lt_is_Some_2 l (Z.to_nat a)) as [x Hx]; [unfold zlen in Hn; lia|].
  rewrite Hx, (drop_S l x (Z.to_nat a)) by done. cbn [firstn].
  replace (S (Z.to_nat a)) with (Z.to_nat (Z.succ a)) by lia.
  destruct (Z.eq_dec n 1) as [->|]; [by replace k with 0%nat by lia|].
  by rewrite (IH (Z.pred n)) by lia.
Qed.

(** The part of a list between two positions. *)
Definition sublist {A : Type} (l : list A) (a b : Z) : list A :=
  take (Z.to_nat (b - a)) (drop (Z.to_nat a) l).

Lemma slice_of_contiguous (a b : option Z) (exclusive : bool) (len : Z) :
  is_bound a -> is_bound b -> 0 <= len <= max_int64 ->
  (exclusive = false -> b <> Some max_int64) ->
  slice_of (bound_value a) (bound_value b) VNull exclusive len
  = Ok (seqZ (slice_start a len)
          (Z.max (slice_start a len) (slice_end b exclusive len) - slice_start a len)).
Proof.
  intros Ha Hb Hl Hm. unfold slice_of, sliceIndices. cbn [IsNull res_bind Z.eqb Pos.eqb].
  by rewrite sliceBounds_clamp.
Qed.

Lemma clamp_range (len i : Z) : 0 <= len -> 0 <= clamp len i <= len.
Proof. unfold clamp. lia. Qed.

Lemma slice_end_range (b : option Z) (exclusive : bool) (len : Z) :
  0 <= len -> 0 <= slice_end b exclusive len <= len.
Proof. intros H. destruct b; cbn; [by apply clamp_range|lia]. Qed.

Lemma pick_slice {A : Type} (l : list A) (a b : option Z) (exclusive : bool) :
  pick l (seqZ (slice_start a (zlen l))
            (Z.max (slice_start a (zlen l)) (slice_end b exclusive (zlen l)) - slice_start a (zlen l)))
  = Ok (sublist l (slice_start a (zlen l)) (slice_end b exclusive (zlen l))).
Proof.
  pose proof (clamp_range (zlen l) (default 0 a) (zlen_nonneg l)) as Hs.
  pose proof (slice_end_range b exclusive (zlen l) (zlen_nonneg l)) as He.
  fold (slice_start a (zlen l)) in Hs. rewrite pick_seqZ by lia. unfold sublist. do 2 f_equal. lia.
Qed.

(** C28: a slice without a step, whose bounds are absent or small (64-bit) integers and whose
    inclusive end is not the largest of them, succeeds and is the part of the list, string or byte string
    between its bounds: a missing bound is the start or the end, a negative one counts from the end, and
    bounds outside are clamped.  Strings are cut by rune.  (An inclusive end names the position after it,
    so an inclusive end of -1 names position 0 and the slice is empty.  A big bound, or one of another type,
    is the business of [indexInt]; the largest inclusive end wraps around: [slice_max_end_empty].) *)
Theorem slice_contiguous (es : list Value) (s : gostring) (l : list byte)
    (a b : option Z) (exclusive : bool) :
  is_bound a -> is_bound b ->
  zlen es <= max_int64 -> zlen s <= max_int64 -> zlen l <= max_int64 ->
  (exclusive = false -> b <> Some max_int64) ->
  let part {A : Type} (l : list A) :=
    sublist l (slice_start a (zlen l)) (slice_end b exclusive (zlen l)) in
  slice_value exclusive (VList es) (bound_value a) (bound_value b) VNull = Ok (VList (part es)) /\
  slice_value exclusive (VString s) (bound_value a) (bound_value b) VNull
  = Ok (VString (string_of_runes (part (runes s)))) /\
  slice_value exclusive (VBytes l) (bound_value a) (bound_value b) VNull = Ok (VBytes (part l)).
Proof.
  intros Ha Hb Hes Hs Hl Hm part. unfold slice_value.
  assert (Hr : zlen (runes s) <= zlen s) by apply zlen_runes_le.
  rewrite !slice_of_contiguous by first [done|split; [apply zlen_nonneg|lia]].
  cbn [res_bind]. by rewrite !pick_slice.
Qed.

Lemma slice_contiguous_witness :
  slice_value true (VList [VSmallInt 1; VSmallInt 2; VSmallInt 3; VSmallInt 4])
    (VSmallInt 1) (VSmallInt (-1)) VNull = Ok (VList [VSmallInt 2; VSmallInt 3]).
Proof.
  exact (proj1 (slice_contiguous [VSmallInt 1; VSmallInt 2; VSmallInt 3; VSmallInt 4] [] []
    (Some 1) (Some (-1)) true eq_refl eq_refl ltac:(vm_compute; discriminate)
    ltac:(vm_compute; discriminate) ltac:(vm_compute; discriminate) ltac:(discriminate))).
Defined.

(** The largest integer as an inclusive end wraps around, so the slice
    that should run to the end of the list is empty. *)
Theorem slice_max_end_empty (es : list Value) :
  1 <= zlen es <= max_int64 ->
  slice_value false (VList es) VNull (VSmallInt max_int64) VNull = Ok (VList []) /\
  slice_value true (VList es) VNull (VSmallInt max_int64) VNull = Ok (VList es).
Proof.
  intros Hes. split.
  - unfold slice_value, slice_of, sliceIndices, sliceBounds.
    cbn [IsNull indexInt res_bind Z.eqb Pos.eqb].
    change (wrap64 (max_int64 + 1)) with min_int64. change (min_int64 <? 0) with true.
    change (0 <? 0) with false. cbv iota.
    rewrite wrap64_id by (unfold is_int64, min_int64, max_int64 in *; lia).
    rewrite (proj2 (Z.ltb_lt (_ + min_int64) 0)) by (unfold min_int64, max_int64 in *; lia).
    rewrite !(Z.gtb_ltb 0). rewrite (proj2 (Z.ltb_ge (zlen es) 0)) by lia. done.
  - unfold slice_value.
    rewrite (slice_of_contiguous None (Some max_int64)) by (done || lia).
    cbn [res_bind]. rewrite pick_slice. cbn [res_bind]. do 2 f_equal.
    unfold sublist, slice_start, slice_end, clamp. cbn [default id].
    change (max_int64 <? 0) with false. cbv iota.
    replace (Z.max 0 (Z.min (zlen es) max_int64)) with (zlen es) by lia.
    replace (Z.max 0 (Z.min (zlen es) (if 0 <? 0 then 0 + zlen es else 0))) with 0 by (cbn; lia).
    rewrite Z.sub_0_r. unfold zlen. rewrite Nat2Z.id. apply firstn_all.
Qed.

Lemma slice_max_end_empty_witness :
  slice_value false (VList [VNull]) VNull (VSmallInt max_int64) VNull = Ok (VList []).
Proof. exact (proj1 (slice_max_end_empty [VNull] ltac:(vm_compute; split; discriminate))). Defined.

(** ** Stepped slices *)

(** The specification of a bound for a step: as for a step of one, but a
    negative step may stop before the first element. *)
Definition step_clamp (len st i : Z) : Z :=
  let i := if i <? 0 then i + len else i in
  if 0 <? st then Z.max 0 (Z.min len i) else Z.max (-1) (Z.min (len - 1) i).
Definition step_start (a : option Z) (st len : Z) : Z :=
  match a with
  | None => if 0 <? st then 0 else len - 1
  | Some i => step_clamp len st i
  end.
Definition step_stop (b : option Z) (exclusive : bool) (st len : Z) : Z :=
  match b with
  | None => if 0 <? st then len else -1
  | Some i => step_clamp len st (if exclusive then i else if 0 <? st then i + 1 else i - 1)
  end.

(** The positions of a stepped slice: the items of a range. *)
Definition step_range (a b : option Z) (exclusive : bool) (st len : Z) : Range :=
  mkRange (step_start a st len) (step_stop b exclusive st len) true st.

Lemma clamp_position_spec (i st len : Z) :
  is_int64 i = true -> 0 <= len <= max_int64 -> st <> 0 ->
  clamp_position i st len = step_clamp len st i.
Proof.
  intros Hi Hl Hs. unfold clamp_position, step_clamp. rewrite Z.add_comm, negative_position by done.
  rewrite Z.gtb_ltb. destruct (0 <? st); repeat case_match; lia.
Qed.

Lemma slice_loop_items (v : Range) (fuel : nat) (i : Z) :
  Step v <> 0 -> Exclusive v = true -> 0 <= i <= Range_Length v ->
  (forall j, 0 <= j < Range_Length v -> is_int64 (Start v + (j + 1) * Step v) = true) ->
  Range_Length v - i < Z.of_nat fuel ->
  slice_loop fuel (Start v + i * Step v) (End_ v) (Step v)
  = Some (map (fun j => Start v + j * Step v) (seqZ i (Range_Length v - i))).
Proof.
  intros Hs Hx. revert i. induction fuel as [|fuel IH]; intros i Hi Hw Hf; [lia|].
  cbn [slice_loop]. pose proof (Range_Length_contains v i Hs (proj1 Hi)) as Hc.
  unfold rangeContains in Hc. rewrite Hx in Hc. rewrite !Z.gtb_ltb.
  destruct (if 0 <? Step v then _ else _) eqn:E.
  - assert (i < Range_Length v) by (by apply Hc). replace (Start v + i * Step v + Step v) with (Start v + (i + 1) * Step v) by lia.
    rewrite wrap64_id by (apply Hw; lia). rewrite IH by (done || lia).
    rewrite (seqZ_cons i (Range_Length v - i)) by lia. cbn [fmap option_fmap option_map map].
    by replace (Range_Length v - (i + 1)) with (Z.pred (Range_Length v - i)) by lia.
  - assert (~ i < Range_Length v) by (rewrite Hc; discriminate). by rewrite seqZ_nil by lia.
Qed.

(** Positions of the slice are positions of the sequence. *)
Lemma step_range_valid (a b : option Z) (exclusive : bool) (st len j : Z) :
  st <> 0 -> 0 <= len ->
  0 <= j < Range_Length (step_range a b exclusive st len) ->
  0 <= step_start a st len + j * st < len.
Proof.
  intros Hs Hl [Hj Hlt]. rewrite Range_Length_contains in Hlt by done. revert Hlt.
  unfold step_range. cbn [Start End_ Step Exclusive]. unfold rangeContains.
  assert (Hst : if 0 <? st then 0 <= step_start a st len /\ step_stop b exclusive st len <= len
                else step_start a st len <= len - 1 /\ -1 <= step_stop b exclusive st len).
  { unfold step_start, step_stop, step_clamp. destruct a, b; destruct (0 <? st); cbv zeta; lia. }
  destruct (Z.ltb_spec 0 st); rewrite Z.ltb_lt; nia.
Qed.

Lemma sliceIndices_step (a b : option Z) (exclusive : bool) (st len : Z) :
  is_bound a -> is_bound b -> 0 <= len <= max_int64 -> is_int64 st = true -> st <> 0 -> st <> 1 ->
  len + st <= max_int64 ->
  (exclusive = false -> b <> Some max_int64 /\ b <> Some min_int64) ->
  sliceIndices (bound_value a) (bound_value b) (VSmallInt st) exclusive len
  = Ok (range_items (step_range a b exclusive st len)).
Proof.
  intros Ha Hb Hl Hst Hs0 Hs1 Hov Hm. unfold sliceIndices. cbn [IsNull indexInt res_bind].
  rewrite !(proj2 (Z.eqb_neq st _)) by done. rewrite !Z.gtb_ltb.
  assert (Hstart : (let* i := (if IsNull (bound_value a) then Ok (if 0 <? st then 0 else len - 1)
                     else let* i := indexInt (bound_value a) in Ok (clamp_position i st len)) in Ok i)
                   = @Ok VMError Z (step_start a st len)).
  { destruct a as [i|]; cbn; [by rewrite clamp_position_spec|done]. }
  set (start := if IsNull (bound_value a) then _ else _) in *.
  assert (Hstart' : start = Ok (step_start a st len)) by (by destruct start).
  rewrite Hstart'. clear start Hstart Hstart'. cbn [res_bind].
  assert (Hstop : (if IsNull (bound_value b) then Ok (if 0 <? st then len else -1)
            else let* i := indexInt (bound_value b) in
                 Ok (clamp_position (if exclusive then i
                     else if 0 <? st then wrap64 (i + 1) else wrap64 (i - 1)) st len))
          = @Ok VMError Z (step_stop b exclusive st len)).
  { destruct b as [i|]; [|done]. cbn. cbn in Hb. unfold step_stop. destruct exclusive.
    - by rewrite clamp_position_spec.
    - destruct (Hm eq_refl) as [Hm1 Hm2].
      assert (Hi : i <> max_int64 /\ i <> min_int64) by (split; intros ->; congruence).
      assert (is_int64 (i + 1) = true /\ is_int64 (i - 1) = true) as [H1 H2]
        by (unfold is_int64, min_int64, max_int64 in *; lia).
      destruct (0 <? st); by rewrite wrap64_id, clamp_position_spec. }
  rewrite Hstop. clear Hstop. cbn [res_bind].
  set (v := step_range a b exclusive st len).
  pose proof (Range_Length_nonneg v) as H0. pose proof (Range_Length_le v) as H1.
  change (step_start a st len) with (Start v). change (step_stop b exclusive st len) with (End_ v).
  rewrite <- (Z.add_0_r (Start v)). rewrite <- (Z.mul_0_l st). change st with (Step v).
  rewrite (slice_loop_items v _ 0); [|done|done|lia| |].
  - by rewrite Z.sub_0_r.
  - intros j Hj. pose proof (step_range_valid a b exclusive st len j Hs0 (proj1 Hl) Hj) as Hr.
    unfold v, step_range. cbn [Start Step]. unfold is_int64, min_int64, max_int64 in *. lia.
  - assert (Z.abs (End_ v - Start v) <= len + 1).
    { unfold v, step_range, step_start, step_stop, step_clamp. cbn [Start End_].
      destruct a, b; destruct (0 <? st); cbv zeta; lia. }
    lia.
Qed.

Lemma pick_valid {A : Type} (l : list A) (ps : list Z) :
  Forall (fun i => 0 <= i < zlen l) ps ->
  exists out, pick l ps = Ok out /\ zlen out = zlen ps /\
              forall k i, ps !! k = Some i -> out !! k = l !! Z.to_nat i.
Proof.
  induction 1 as [|i ps Hi _ (out & Ho & Hl & Hk)]; [by exists []|].
  destruct (zlookup_nat l i Hi) as [x Hx]. exists (x :: out). cbn [pick].
  rewrite Hx, Ho. cbn [res_bind]. split_and!; [done|rewrite !zlen_cons; lia|].
  intros [|k] j; cbn; [|apply Hk]. intros [= <-]. by rewrite zlookup_of_nat in Hx by lia.
Qed.

(** C29: a slice of a list with a step other than 0 and 1, whose bounds are absent or small (64-bit)
    integers and whose inclusive end is neither the largest nor the smallest of them, takes the elements at
    the positions of the progression from its start to its stop, in order, and never one outside the list,
    as long as the length plus the step stays an [int] ([slice_huge_step_panics] is what happens beyond). *)
Theorem slice_stepped (es : list Value) (a b : option Z) (exclusive : bool) (st : Z) :
  is_bound a -> is_bound b -> zlen es + st <= max_int64 -> zlen es <= max_int64 ->
  is_int64 st = true -> st <> 0 -> st <> 1 ->
  (exclusive = false -> b <> Some max_int64 /\ b <> Some min_int64) ->
  let v := step_range a b exclusive st (zlen es) in
  exists out,
    slice_value exclusive (VList es) (bound_value a) (bound_value b) (VSmallInt st)
    = Ok (VList out) /\
    zlen out = Range_Length v /\
    (forall k i, range_items v !! k = Some i -> 0 <= i < zlen es /\ out !! k = es !! Z.to_nat i).
Proof.
  intros Ha Hb Hov Hl Hst Hs0 Hs1 Hm v. unfold slice_value, slice_of.
  pose proof (zlen_nonneg es) as Hlen.
  rewrite sliceIndices_step by (done || lia). cbn [res_bind]. fold v.
  assert (Hval : Forall (fun i => 0 <= i < zlen es) (range_items v)).
  { apply Forall_forall. intros i Hi. apply elem_of_range_items in Hi as (j & Hj & ->).
    by apply (step_range_valid a b exclusive st (zlen es) j). }
  destruct (pick_valid es _ Hval) as (out & Ho & Hlo & Hk). exists out. rewrite Ho.
  split; [done|]. rewrite Hlo, range_items_length. split; [done|].
  intros k i Hi. split; [|by apply Hk]. rewrite Forall_lookup in Hval. by eapply Hval.
Qed.

Lemma slice_stepped_witness :
  exists out,
    slice_value true (VList [VSmallInt 10; VSmallInt 20; VSmallInt 30]) VNull VNull (VSmallInt (-1))
    = Ok (VList out) /\ zlen out = 3 /\ out !! 0%nat = Some (VSmallInt 30).
Proof.
  destruct (slice_stepped [VSmallInt 10; VSmallInt 20; VSmallInt 30] None None true (-1)
    I I ltac:(vm_compute; discriminate) ltac:(vm_compute; discriminate) eq_refl
    ltac:(discriminate) ltac:(discriminate) ltac:(discriminate)) as (out & H1 & H2 & H3).
  exists out. split; [exact H1|split; [exact H2|]]. rewrite (proj2 (H3 0%nat 2 eq_refl)). reflexivity.
Defined.

(** A step so large that a position plus the step wraps around makes the
    slice read outside the list, which panics. *)
Theorem slice_huge_step_panics (es : list Value) :
  2 <= zlen es < max_int64 ->
  slice_value true (VList es) (VSmallInt 1) VNull (VSmallInt max_int64) = Err GoPanic.
Proof.
  intros Hl. unfold slice_value, slice_of, sliceIndices. cbn [IsNull indexInt res_bind].
  change (max_int64 =? 0) with false. change (max_int64 =? 1) with false. cbv iota.
  assert (Hc : clamp_position 1 max_int64 (zlen es) = 1).
  { unfold clamp_position. change (max_int64 >? 0) with true. cbn [Z.ltb Z.compare].
    rewrite Z.gtb_ltb, (proj2 (Z.ltb_ge _ _)) by lia. done. }
  rewrite Hc. change (max_int64 >? 0) with true. cbv iota.
  destruct (Z.to_nat (2 * zlen es + 3)) as [|[|[|[|n]]]] eqn:En; try lia. clear En.
  cbn [slice_loop]. change (max_int64 >? 0) with true. cbv iota.
  change (wrap64 (1 + max_int64)) with min_int64.
  change (wrap64 (min_int64 + max_int64)) with (-1).
  change (wrap64 (-1 + max_int64)) with (max_int64 - 1).
  rewrite (proj2 (Z.ltb_lt 1 _)), (proj2 (Z.ltb_lt min_int64 _)), (proj2 (Z.ltb_lt (-1) _)),
    (proj2 (Z.ltb_ge (max_int64 - 1) _)) by (unfold min_int64 in *; lia).
  cbn [fmap option_fmap option_map res_bind pick].
  destruct (zlookup es 1); done.
Qed.

Lemma slice_huge_step_panics_witness :
  slice_value true (VList [VNull; VNull; VNull]) (VSmallInt 1) VNull (VSmallInt max_int64)
  = Err GoPanic.
Proof. apply slice_huge_step_panics. vm_compute. split; [discriminate|reflexivity]. Defined.

(** ** Indexing *)

(** The position an integer names: from the end when negative. *)
Definition position (i len : Z) : Z := if i <? 0 then i + len else i.

Lemma index_position_spec (i len : Z) (fault : String.string) :
  is_int64 i = true -> 0 <= len <= max_int64 ->
  index_position (VSmallInt i) len fault
  = if (0 <=? position i len) && (position i len <? len) then Ok (position i len)
    else Err (Thrown (bs "ValueError") (bs fault)).
Proof.
  intros Hi Hl. unfold index_position. cbn [indexInt]. rewrite negative_position by done.
  unfold position. rewrite (Z.add_comm i). set (p := if i <? 0 then _ else _).
  rewrite Z.ltb_antisym, (Z.leb_antisym p len), <- negb_andb. by destruct (_ && _).
Qed.

(** Indexing a list, string or byte string with an integer yields the
    element at that position, counted from the end when negative (a string is
    indexed by rune), or a [ValueError] when there is none: it never reads
    outside the sequence.  An index that is not an integer is a [TypeError]. *)
Theorem index_exact `{RuneMapping} (key_of : Value -> gostring)
    (call : Value -> Value -> result VMError (option Value))
    (es : list Value) (s : gostring) (l : list byte) (i : Z) :
  is_int64 i = true ->
  zlen es <= max_int64 -> zlen s <= max_int64 -> zlen l <= max_int64 ->
  let at_position {A} (xs : list A) (wrap : A -> Value) (fault : String.string) :=
    match (if position i (zlen xs) <? 0 then None else xs !! Z.to_nat (position i (zlen xs))) with
    | Some x => Ok (wrap x)
    | None => Err (Thrown (bs "ValueError") (bs fault))
    end in
  index_value key_of call (VList es) (VSmallInt i)
  = at_position es (fun x => x) "list index out of range"%string /\
  index_value key_of call (VString s) (VSmallInt i)
  = at_position (runes s) (fun r => VString (EncodeRune r)) "string index out of range"%string /\
  index_value key_of call (VBytes l) (VSmallInt i)
  = at_position l (fun b => VInt (byte_val b)) "bytes index out of range"%string /\
  index_value key_of call (VList es) (VString s)
  = Err (Thrown (bs "TypeError") (bs "index must be int, got string")).
Proof.
  intros Hi Hes Hs Hl at_position.
  assert (Hlook : forall A (xs : list A), zlen xs <= max_int64 ->
            (if (0 <=? position i (zlen xs)) && (position i (zlen xs) <? zlen xs)
             then xs !! Z.to_nat (position i (zlen xs)) else None)
            = (if position i (zlen xs) <? 0 then None else xs !! Z.to_nat (position i (zlen xs)))).
  { intros A xs Hxs. rewrite (Z.leb_antisym _ 0). destruct (_ <? 0) eqn:E1; [done|].
    destruct (_ <? zlen xs) eqn:E2; [done|]. symmetry. apply lookup_ge_None. unfold zlen in *. lia. }
  assert (Hz : forall A (xs : list A) p,
            (0 <=? p) && (p <? zlen xs) = true -> exists x, xs !! Z.to_nat p = Some x).
  { intros A xs p Hp. apply lookup_lt_is_Some_2. unfold zlen in Hp. lia. }
  pose proof (zlen_runes_le s) as Hr.
  unfold index_value, at_position. split_and!; [..|reflexivity].
  - rewrite index_position_spec, <- Hlook by first [done|split; [apply zlen_nonneg|done]].
    destruct (_ && _) eqn:E; [|done]. cbn [res_bind]. destruct (Hz _ _ _ E) as [x Hx].
    rewrite zlookup_of_nat, Hx by lia. done.
  - rewrite (RuneCount_describes _ s) by apply rune_info_ok.
    rewrite index_position_spec by first [done|split; [apply zlen_nonneg|lia]]; rewrite <- Hlook by lia.
    destruct (_ && _) eqn:E; [|done]. cbn [res_bind]. destruct (Hz _ _ _ E) as [x Hx].
    rewrite Hx. apply (RuneValueAt_describes _ _ _ _ (rune_info_ok s)) in Hx.
    rewrite Z2Nat.id in Hx by lia. by rewrite Hx.
  - rewrite index_position_spec, <- Hlook by first [done|split; [apply zlen_nonneg|done]].
    destruct (_ && _) eqn:E; [|done]. cbn [res_bind]. destruct (Hz _ _ _ E) as [x Hx].
    rewrite zlookup_of_nat, Hx by lia. done.
Qed.

Lemma index_exact_witness :
  index_value (fun _ => []) (fun _ _ => Ok None) (VString (bs "h" ++ EncodeRune 233)) (VSmallInt (-1))
  = Ok (VString (EncodeRune 233)).
Proof.
  exact (proj1 (proj2 (index_exact (fun _ => []) (fun _ _ => Ok None) [] (bs "h" ++ EncodeRune 233) []
    (-1) eq_refl ltac:(vm_compute; discriminate) ltac:(vm_compute; discriminate)
    ltac:(vm_compute; discriminate)))).
Defined.
