(* ===== verification/ByteIO.v ===== *)
(** * ByteIO: reading and writing bytecode fields

    The writer helpers and the byte reader of the bytecode file format
    (src/internal/bytecode/bytecode.go): big-endian fields, counted strings and
    lists, and a reader that remembers its first error and then reads zeros.
    The relation [reads] says that a reader consumes exactly the given bytes
    and returns the given value; a round trip is an instance of it. *)

From S2P Require Import Prelude GoText.
#[local] Open Scope Z_scope.

(** ** The reader *)

(** [byteReader]. *)
Record byteReader := mkReader { data : list byte; pos : Z; err : option gostring }.

(** How an operation ends: it returns, the Go code panics, or the definition
    runs out of recursion depth, which nothing in the code corresponds to. *)
Inductive outcome (A : Type) : Type :=
| Returned (a : A)
| Panicked
| OutOfFuel.
Arguments Returned {A}.
Arguments Panicked {A}.
Arguments OutOfFuel {A}.

(** A reader operation. *)
Definition rdM (A : Type) : Type := byteReader -> outcome (byteReader * A).

Definition rret {A : Type} (a : A) : rdM A := fun r => Returned (r, a).
Definition rbind {A B : Type} (m : rdM A) (k : A -> rdM B) : rdM B :=
  fun r => match m r with
           | Returned (r', a) => k a r'
           | Panicked => Panicked
           | OutOfFuel => OutOfFuel
           end.
Definition rpanic {A : Type} : rdM A := fun _ => Panicked.
Definition rfuel {A : Type} : rdM A := fun _ => OutOfFuel.

Notation "'rd' x <- m ; k" := (rbind m (fun x => k))
  (at level 10, x pattern, m at level 100, k at level 200) : go_scope.

(** [if r.err == nil { r.err = e }]. *)
Definition set_err (e : gostring) : rdM unit := fun r =>
  Returned (match err r with
        | None => mkReader (data r) (pos r) (Some e)
        | Some _ => r
        end, tt).

(** [byteReader.read]: the empty slice after an error. *)
Definition read (n : Z) : rdM (list byte) := fun r =>
  match err r with
  | Some _ => Returned (r, [])
  | None =>
      if (n <? 0) || (zlen (data r) <? pos r + n)
      then Returned (mkReader (data r) (pos r) (Some (bs "truncated bytecode")), [])
      else Returned (mkReader (data r) (pos r + n) None,
                 take (Z.to_nat n) (drop (Z.to_nat (pos r)) (data r)))
  end.

(** [byteReader.u8], [u16], [u32], [u64]: zero after an error. *)
Definition read_uint (n : Z) : rdM Z := fun r =>
  match read n r with
  | Returned (r', l) => Returned (r', match err r' with Some _ => 0 | None => be_value l end)
  | Panicked => Panicked
  | OutOfFuel => OutOfFuel
  end.
Definition u8 : rdM Z := read_uint 1.
Definition u16 : rdM Z := read_uint 2.
Definition u32 : rdM Z := read_uint 4.
Definition u64 : rdM Z := read_uint 8.

(** [int64(r.u64())]. *)
Definition i64 : rdM Z := rd u <- u64; rret (int64_of_uint64 u).
(** [r.u8() != 0]. *)
Definition flag : rdM bool := rd b <- u8; rret (negb (b =? 0)).

(** [byteReader.string]. *)
Definition read_string : rdM gostring := rd n <- u16; read n.

(** [for i := 0; i < n; i++ { append(l, m()) }]. *)
Fixpoint repeat_read {A : Type} (n : nat) (m : rdM A) : rdM (list A) :=
  match n with
  | O => rret []
  | S n => rd a <- m; rd l <- repeat_read n m; rret (a :: l)
  end.
Definition read_list {A : Type} (m : rdM A) : rdM (list A) :=
  rd n <- u16; repeat_read (Z.to_nat n) m.
Definition read_list32 {A : Type} (m : rdM A) : rdM (list A) :=
  rd n <- u32; repeat_read (Z.to_nat n) m.

(** [byteReader.stringList]. *)
Definition stringList : rdM (list gostring) := read_list read_string.

(** A loop that fills a map: a repeated key keeps its last value. *)
Definition fill_map {A : Type} (l : list (gostring * A)) : gmap gostring A :=
  fold_left (fun acc p => <[fst p := snd p]> acc) l ∅.
Definition read_pair {A : Type} (m : rdM A) : rdM (gostring * A) :=
  rd k <- read_string; rd v <- m; rret (k, v).

(** [byteReader.stringMap]; a nil map is the empty map. *)
Definition stringMap : rdM (gmap gostring gostring) :=
  rd l <- read_list (read_pair read_string); rret (fill_map l).

(** ** The writer

    Each function returns the bytes that the code's [append...] function of the
    same name adds to its buffer. *)

Definition put_u8 (z : Z) : list byte := [byte_of z].
Definition put_u16 (z : Z) : list byte := be_bytes 2 z.
Definition put_u32 (z : Z) : list byte := be_bytes 4 z.
Definition put_u64 (z : Z) : list byte := be_bytes 8 z.
Definition put_flag (b : bool) : list byte := put_u8 (if b then 1 else 0).

(** [appendString] and the same two lines written in place: the length is
    truncated to 16 bits. *)
Definition appendString (value : gostring) : list byte := put_u16 (zlen value) ++ value.

(** A counted list. *)
Definition put_list {A : Type} (f : A -> list byte) (l : list A) : list byte :=
  put_u16 (zlen l) ++ concat (map f l).
Definition put_list32 {A : Type} (f : A -> list byte) (l : list A) : list byte :=
  put_u32 (zlen l) ++ concat (map f l).

(** [appendStringList]. *)
Definition appendStringList (values : list gostring) : list byte := put_list appendString values.

Definition put_pair {A : Type} (f : A -> list byte) (p : gostring * A) : list byte :=
  appendString (fst p) ++ f (snd p).

(** The entries of a map under sorted keys. *)
Definition sorted_pairs {A : Type} (values : gmap gostring A) : list (gostring * A) :=
  omap (fun k => (fun v => (k, v)) <$> values !! k) (sort_strings (map fst (map_to_list values))).

(** [appendStringMap]. *)
Definition appendStringMap (values : gmap gostring gostring) : list byte :=
  put_list (put_pair appendString) (sorted_pairs values).

(** A list whose elements may fail to encode: the first error is returned. *)
Section PutResults.
Context {A E : Type} (f : A -> result E (list byte)).
Fixpoint put_results (l : list A) : result E (list byte) :=
  match l with
  | [] => Ok []
  | a :: l' => let* x := f a in let* xs := put_results l' in Ok (x ++ xs)
  end.
End PutResults.
Definition put_list_result {A E : Type} (f : A -> result E (list byte)) (l : list A)
    : result E (list byte) :=
  let* body := put_results f l in Ok (put_u16 (zlen l) ++ body).
Definition put_list32_result {A E : Type} (f : A -> result E (list byte)) (l : list A)
    : result E (list byte) :=
  let* body := put_results f l in Ok (put_u32 (zlen l) ++ body).

(** ** Reading back *)

(** [m] reads exactly the bytes [b] and returns [a]. *)
Definition reads {A : Type} (m : rdM A) (b : list byte) (a : A) : Prop :=
  forall pre rest,
    m (mkReader (pre ++ b ++ rest) (zlen pre) None)
    = Returned (mkReader (pre ++ b ++ rest) (zlen pre + zlen b) None, a).

Lemma reads_ret {A : Type} (a : A) : reads (rret a) [] a.
Proof. intros pre rest. unfold rret. rewrite zlen_nil. by rewrite Z.add_0_r. Qed.

Lemma reads_bind {A B : Type} (m : rdM A) (k : A -> rdM B) (b1 b2 : list byte) (a : A) (c : B) :
  reads m b1 a -> reads (k a) b2 c -> reads (rbind m k) (b1 ++ b2) c.
Proof.
  intros H1 H2 pre rest. unfold rbind. rewrite <- app_assoc. rewrite H1.
  specialize (H2 (pre ++ b1) rest). rewrite zlen_app, <- app_assoc in H2. rewrite H2.
  by rewrite zlen_app, Z.add_assoc.
Qed.

Lemma reads_map {A B : Type} (m : rdM A) (k : A -> B) (b : list byte) (a : A) :
  reads m b a -> reads (rd x <- m; rret (k x)) b (k a).
Proof. intros H. rewrite <- (app_nil_r b). eapply reads_bind; [done|apply reads_ret]. Qed.

Lemma reads_read (b : list byte) (n : Z) : n = zlen b -> reads (read n) b b.
Proof.
  intros -> pre rest. unfold read. cbn [err data pos].
  pose proof (zlen_nonneg b). pose proof (zlen_nonneg rest).
  rewrite (proj2 (Z.ltb_ge (zlen b) 0)), (proj2 (Z.ltb_ge _ _)) by (rewrite ?zlen_app; lia).
  cbn [orb]. do 2 f_equal. unfold zlen. rewrite !Nat2Z.id.
  by rewrite drop_app_length, take_app_length.
Qed.

Lemma zlen_be_bytes (n : nat) (z : Z) : zlen (be_bytes n z) = Z.of_nat n.
Proof. unfold zlen. by rewrite be_bytes_length. Qed.

Lemma reads_uint (n : nat) (z : Z) :
  reads (read_uint (Z.of_nat n)) (be_bytes n z) (z mod 2 ^ (8 * Z.of_nat n)).
Proof.
  intros pre rest. unfold read_uint.
  rewrite (reads_read (be_bytes n z)) by (by rewrite zlen_be_bytes). cbn [err].
  by rewrite be_value_bytes.
Qed.

Lemma reads_u8 (z : Z) : 0 <= z < 256 -> reads u8 (put_u8 z) z.
Proof.
  intros H. pose proof (reads_uint 1 z) as R. rewrite Z.mod_small in R by (cbn; lia).
  unfold put_u8. replace [byte_of z] with (be_bytes 1 z); [exact R|].
  cbn [be_bytes]. by rewrite Z.shiftr_0_r.
Qed.

Lemma reads_u16 (z : Z) : 0 <= z < 65536 -> reads u16 (put_u16 z) z.
Proof. intros H. pose proof (reads_uint 2 z) as R. by rewrite Z.mod_small in R by (cbn; lia). Qed.

Lemma reads_u32 (z : Z) : 0 <= z < 2 ^ 32 -> reads u32 (put_u32 z) z.
Proof. intros H. pose proof (reads_uint 4 z) as R. by rewrite Z.mod_small in R by (cbn; lia). Qed.

Lemma reads_u64 (z : Z) : 0 <= z < 2 ^ 64 -> reads u64 (put_u64 z) z.
Proof. intros H. pose proof (reads_uint 8 z) as R. by rewrite Z.mod_small in R by (cbn; lia). Qed.

Lemma reads_i64 (z : Z) : is_int64 z = true -> reads i64 (put_u64 z) z.
Proof.
  intros H. pose proof (reads_uint 8 z) as R. cbn [Z.of_nat] in R.
  apply (reads_map _ int64_of_uint64) in R. unfold int64_of_uint64 in R at 2.
  change (8 * Z.pos (Pos.of_succ_nat 7)) with 64 in R.
  by rewrite wrap64_mod, wrap64_id in R.
Qed.

Lemma reads_flag (b : bool) : reads flag (put_flag b) b.
Proof.
  pose proof (reads_u8 (if b then 1 else 0)) as R.
  apply (reads_map _ (fun x => negb (x =? 0))) in R; [|destruct b; lia]. by destruct b.
Qed.

(** A string fits its 16-bit length. *)
Definition str16 (s : gostring) : bool := zlen s <? 65536.

Lemma reads_string (s : gostring) : str16 s = true -> reads read_string (appendString s) s.
Proof.
  unfold str16. intros H. pose proof (zlen_nonneg s).
  eapply reads_bind; [apply reads_u16; lia|by apply reads_read].
Qed.

Lemma reads_repeat {A : Type} (f : A -> list byte) (m : rdM A) (l : list A) :
  (forall a, a ∈ l -> reads m (f a) a) ->
  reads (repeat_read (length l) m) (concat (map f l)) l.
Proof.
  induction l as [|a l IH]; intros H; [apply reads_ret|]. cbn [length repeat_read map concat].
  eapply reads_bind; [apply H; by left|]. apply (reads_map _ (cons a)).
  apply IH. intros x Hx. apply H. by right.
Qed.

Lemma reads_list {A : Type} (f : A -> list byte) (m : rdM A) (l : list A) :
  zlen l < 65536 -> (forall a, a ∈ l -> reads m (f a) a) -> reads (read_list m) (put_list f l) l.
Proof.
  intros Hl H. pose proof (zlen_nonneg l). eapply reads_bind; [apply reads_u16; lia|].
  unfold zlen. rewrite Nat2Z.id. by apply reads_repeat.
Qed.

Lemma reads_list32 {A : Type} (f : A -> list byte) (m : rdM A) (l : list A) :
  zlen l < 2 ^ 32 -> (forall a, a ∈ l -> reads m (f a) a) ->
  reads (read_list32 m) (put_list32 f l) l.
Proof.
  intros Hl H. pose proof (zlen_nonneg l). eapply reads_bind; [apply reads_u32; lia|].
  unfold zlen. rewrite Nat2Z.id. by apply reads_repeat.
Qed.

(** The same for elements whose encoding may fail, each read back as its
    image under [g]. *)
Lemma reads_results {A B E : Type} (f : A -> result E (list byte)) (g : A -> B) (m : rdM B) (l : list A) :
  (forall a, a ∈ l -> exists b, f a = Ok b /\ reads m b (g a)) ->
  exists b, put_results f l = Ok b /\ reads (repeat_read (length l) m) b (map g l).
Proof.
  induction l as [|a l IH]; intros H; [exists []; split; [done|apply reads_ret]|].
  destruct (H a) as (b & Hb & Rb); [by left|].
  destruct IH as (c & Hc & Rc); [intros x Hx; apply H; by right|].
  exists (b ++ c). cbn [put_results length repeat_read map]. rewrite Hb. cbn [res_bind].
  rewrite Hc. cbn [res_bind]. split; [done|]. eapply reads_bind; [done|].
  by apply (reads_map _ (cons (g a))).
Qed.

Lemma reads_list_image {A B E : Type} (f : A -> result E (list byte)) (g : A -> B) (m : rdM B) (l : list A) :
  zlen l < 65536 -> (forall a, a ∈ l -> exists b, f a = Ok b /\ reads m b (g a)) ->
  exists b, put_list_result f l = Ok b /\ reads (read_list m) b (map g l).
Proof.
  intros Hl H. destruct (reads_results f g m l H) as (b & Hb & Rb).
  exists (put_u16 (zlen l) ++ b). unfold put_list_result. rewrite Hb. split; [done|].
  pose proof (zlen_nonneg l). eapply reads_bind; [apply reads_u16; lia|].
  unfold zlen. by rewrite Nat2Z.id.
Qed.

Lemma reads_list_result {A E : Type} (f : A -> result E (list byte)) (m : rdM A) (l : list A) :
  zlen l < 65536 -> (forall a, a ∈ l -> exists b, f a = Ok b /\ reads m b a) ->
  exists b, put_list_result f l = Ok b /\ reads (read_list m) b l.
Proof. intros Hl H. pose proof (reads_list_image f (fun a => a) m l Hl H) as R. by rewrite map_id in R. Qed.

Lemma reads_list32_image {A B E : Type} (f : A -> result E (list byte)) (g : A -> B) (m : rdM B) (l : list A) :
  zlen l < 2 ^ 32 -> (forall a, a ∈ l -> exists b, f a = Ok b /\ reads m b (g a)) ->
  exists b, put_list32_result f l = Ok b /\ reads (read_list32 m) b (map g l).
Proof.
  intros Hl H. destruct (reads_results f g m l H) as (b & Hb & Rb).
  exists (put_u32 (zlen l) ++ b). unfold put_list32_result. rewrite Hb. split; [done|].
  pose proof (zlen_nonneg l). eapply reads_bind; [apply reads_u32; lia|].
  unfold zlen. by rewrite Nat2Z.id.
Qed.

Lemma reads_list32_result {A E : Type} (f : A -> result E (list byte)) (m : rdM A) (l : list A) :
  zlen l < 2 ^ 32 -> (forall a, a ∈ l -> exists b, f a = Ok b /\ reads m b a) ->
  exists b, put_list32_result f l = Ok b /\ reads (read_list32 m) b l.
Proof. intros Hl H. pose proof (reads_list32_image f (fun a => a) m l Hl H) as R. by rewrite map_id in R. Qed.

(** ** Maps *)

Lemma fill_map_lookup {A : Type} (l : list (gostring * A)) (acc : gmap gostring A) k v :
  NoDup (map fst l) ->
  fold_left (fun acc p => <[fst p := snd p]> acc) l acc !! k = Some v
  <-> ((k, v) ∈ l) \/ ((k ∉ map fst l) /\ acc !! k = Some v).
Proof.
  revert acc. induction l as [|[k' v'] l IH]; intros acc Hnd; cbn [fold_left map].
  - split; [intros H; right; split; [apply not_elem_of_nil|done]|].
    by intros [?%elem_of_nil|[_ ?]].
  - cbn [fst snd map] in *. apply NoDup_cons in Hnd as [Hk' Hnd]. rewrite IH by done.
    rewrite elem_of_cons, not_elem_of_cons. split.
    + intros [H|[H1 H2]]; [by left; right|].
      apply lookup_insert_Some in H2 as [[-> ->]|[Hne H2]]; [by left; left|right; auto].
    + intros [[H|H]|[[H1 H2] H3]]; [|by left|].
      * injection H as -> ->. right. split; [done|apply lookup_insert_eq].
      * right. split; [done|]. by rewrite lookup_insert_ne.
Qed.

(** Filling a map from its entries in any order gives it back. *)
Lemma fill_map_perm {A : Type} (l : list (gostring * A)) (m : gmap gostring A) :
  l ≡ₚ map_to_list m -> fill_map l = m.
Proof.
  intros Hp. assert (Hnd : NoDup (map fst l)).
  { rewrite (Permutation_map fst Hp). exact (NoDup_fst_map_to_list m). }
  apply map_eq. intros k. apply option_eq. intros v. unfold fill_map.
  rewrite fill_map_lookup by done. rewrite lookup_empty, Hp, elem_of_map_to_list.
  split; [intros [?|[_ ?]]; done|by left].
Qed.

Lemma sorted_pairs_perm {A : Type} (m : gmap gostring A) : sorted_pairs m ≡ₚ map_to_list m.
Proof.
  unfold sorted_pairs. rewrite (sort_strings_perm (map fst (map_to_list m))).
  apply reflexive_eq.
  assert (H : forall l : list (gostring * A), (forall p, p ∈ l -> m !! fst p = Some (snd p)) ->
            omap (fun k => (fun v => (k, v)) <$> m !! k) (map fst l) = l).
  { induction l as [|[k v] l IH]; intros H; [done|]. cbn [map fst]. cbn.
    pose proof (H (k, v) ltac:(by left)) as Hk. cbn in Hk. rewrite Hk. cbn. f_equal. apply IH.
    intros p Hp. apply H. by right. }
  apply H. intros [k v] Hp. by apply elem_of_map_to_list in Hp.
Qed.

Definition str16_map {A : Type} (P : A -> bool) (m : gmap gostring A) : bool :=
  (zlen (map_to_list m) <? 65536)
  && forallb (fun p => str16 (fst p) && P (snd p)) (map_to_list m).

Lemma str16_map_elem {A : Type} (P : A -> bool) (m : gmap gostring A) (l : list (gostring * A)) :
  str16_map P m = true -> l ≡ₚ map_to_list m ->
  zlen l < 65536 /\ forall p, p ∈ l -> str16 (fst p) = true /\ P (snd p) = true.
Proof.
  unfold str16_map. intros [H1 H2]%andb_true_iff Hp. rewrite forallb_forall in H2.
  unfold zlen in *. rewrite Hp. split; [lia|]. intros p Hin. rewrite Hp in Hin.
  apply andb_true_iff, H2, list_elem_of_In, Hin.
Qed.

Lemma reads_pair {A : Type} (f : A -> list byte) (m : rdM A) (p : gostring * A) :
  str16 (fst p) = true -> reads m (f (snd p)) (snd p) -> reads (read_pair m) (put_pair f p) p.
Proof.
  intros H1 H2. destruct p as [k v]. eapply reads_bind; [by apply reads_string|].
  by apply (reads_map _ (pair k)).
Qed.

Lemma reads_stringMap (m : gmap gostring gostring) :
  str16_map str16 m = true -> reads stringMap (appendStringMap m) m.
Proof.
  intros H. destruct (str16_map_elem str16 m _ H (sorted_pairs_perm m)) as [Hl He].
  assert (R : reads (read_list (read_pair read_string)) (appendStringMap m) (sorted_pairs m)).
  { unfold appendStringMap. apply (reads_list (put_pair appendString)); [done|]. intros p Hp.
    apply reads_pair; [by apply He|by apply reads_string, He]. }
  apply (reads_map _ fill_map) in R.
  rewrite (fill_map_perm _ m (sorted_pairs_perm m)) in R. exact R.
Qed.

Lemma forallb_elem {A : Type} (P : A -> bool) (l : list A) (a : A) :
  forallb P l = true -> a ∈ l -> P a = true.
Proof. rewrite forallb_forall. intros H Ha. apply H. by apply list_elem_of_In. Qed.

(** A counted list whose elements satisfy a predicate. *)
Definition list16 {A : Type} (P : A -> bool) (l : list A) : bool :=
  (zlen l <? 65536) && forallb P l.

Lemma reads_list16 {A : Type} (P : A -> bool) (f : A -> list byte) (m : rdM A) (l : list A) :
  (forall a, P a = true -> reads m (f a) a) -> list16 P l = true ->
  reads (read_list m) (put_list f l) l.
Proof.
  intros H [H1 H2]%andb_true_iff. apply reads_list; [lia|].
  intros a Ha. by apply H, (forallb_elem P l).
Qed.

Lemma reads_stringList (l : list gostring) :
  list16 str16 l = true -> reads stringList (appendStringList l) l.
Proof. exact (reads_list16 str16 appendString read_string l reads_string). Qed.

Lemma reads_list16_result {A E : Type} (P : A -> bool) (f : A -> result E (list byte)) (m : rdM A)
    (l : list A) :
  (forall a, P a = true -> exists b, f a = Ok b /\ reads m b a) -> list16 P l = true ->
  exists b, put_list_result f l = Ok b /\ reads (read_list m) b l.
Proof.
  intros H [H1 H2]%andb_true_iff. apply reads_list_result; [lia|].
  intros a Ha. by apply H, (forallb_elem P l).
Qed.

(** A string longer than 65535 bytes is cut short by its 16-bit length: the
    reader stops early and the rest is read as the next field. *)
Lemma reads_long_string (s : gostring) :
  reads read_string (put_u16 (zlen s) ++ take (Z.to_nat (zlen s mod 65536)) s)
    (take (Z.to_nat (zlen s mod 65536)) s).
Proof.
  eapply reads_bind; [exact (reads_uint 2 (zlen s))|]. apply reads_read.
  pose proof (Z.mod_pos_bound (zlen s) 65536 ltac:(lia)).
  pose proof (Z.mod_le (zlen s) 65536 (zlen_nonneg s) ltac:(lia)).
  unfold zlen at 2. rewrite length_take. unfold zlen in *. change (2 ^ (8 * Z.of_nat 2)) with 65536.
  lia.
Qed.

(** ** Progress

    What holds of every reader on every input: it stays inside the file, only
    moves forward, and does nothing after the first error. *)

Definition in_file (r : byteReader) : Prop := 0 <= pos r <= zlen (data r).

(** The state [r'] that a reader may leave when it starts from [r]. *)
Definition follows (r r' : byteReader) : Prop :=
  data r' = data r /\ pos r <= pos r' <= zlen (data r) /\ (err r <> None -> r' = r).

Definition advances {A : Type} (m : rdM A) : Prop :=
  forall r r' a, in_file r -> m r = Returned (r', a) -> follows r r'.

Lemma follows_in_file (r r' : byteReader) : in_file r -> follows r r' -> in_file r'.
Proof. intros [H1 H2] (E & H & _). unfold in_file. rewrite E. lia. Qed.

Lemma advances_ret {A : Type} (a : A) : advances (rret a).
Proof. intros r r' b [? ?] [= <- <-]. split_and!; [done|lia|lia|done]. Qed.

Lemma advances_panic {A : Type} : advances (@rpanic A).
Proof. by intros r r' a _ [=]. Qed.

Lemma advances_fuel {A : Type} : advances (@rfuel A).
Proof. by intros r r' a _ [=]. Qed.

Lemma advances_bind {A B : Type} (m : rdM A) (k : A -> rdM B) :
  advances m -> (forall a, advances (k a)) -> advances (rbind m k).
Proof.
  intros Hm Hk r r2 b Hr. unfold rbind. destruct (m r) as [[r1 a]| |] eqn:E; [|done..]. intros E2.
  pose proof (Hm _ _ _ Hr E) as F1. destruct F1 as (D1 & P1 & R1) eqn:HF. clear HF.
  destruct (Hk a _ _ _ (follows_in_file _ _ Hr F1) E2) as (D2 & P2 & R2).
  rewrite D1 in *. split_and!; [congruence|lia|lia|].
  intros He. specialize (R1 He) as ->. by apply R2.
Qed.

Lemma advances_set_err (e : gostring) : advances (set_err e).
Proof.
  intros r r' [] [? ?] [= <-].
  destruct (err r) eqn:E; (split_and!; [done|cbn; lia|cbn; lia|]); [done|by rewrite E].
Qed.

Lemma advances_read (n : Z) : advances (read n).
Proof.
  intros r r' l [? ?]. unfold read. destruct (err r) eqn:E.
  { intros [= <- _]. split_and!; [done|lia|lia|done]. }
  destruct ((n <? 0) || (zlen (data r) <? pos r + n)) eqn:C; intros [= <- _];
    unfold follows; cbn; rewrite E; (split_and!; [done|lia|lia|done]).
Qed.

Lemma advances_uint (n : Z) : advances (read_uint n).
Proof.
  intros r r' z Hr. unfold read_uint. destruct (read n r) as [[r1 l]| |] eqn:E; [|done..].
  intros [= <- _]. by eapply advances_read.
Qed.

Lemma advances_repeat {A : Type} (n : nat) (m : rdM A) : advances m -> advances (repeat_read n m).
Proof.
  intros Hm. induction n as [|n IH]; cbn [repeat_read]; [apply advances_ret|].
  apply advances_bind; [done|]. intros a. apply advances_bind; [done|]. intros l. apply advances_ret.
Qed.

Lemma advances_list {A : Type} (m : rdM A) : advances m -> advances (read_list m).
Proof. intros Hm. apply advances_bind; [apply advances_uint|]. intros n. by apply advances_repeat. Qed.

(** [m] and [m'] do the same from every state that has failed or has fewer
    than [k] bytes left. *)
Definition within (k : Z) (r : byteReader) : Prop :=
  in_file r /\ (err r <> None \/ zlen (data r) - pos r < k).
Definition agree {A : Type} (k : Z) (m m' : rdM A) : Prop :=
  forall r, within k r -> m r = m' r.

Lemma within_follows (k : Z) (r r' : byteReader) : within k r -> follows r r' -> within k r'.
Proof.
  intros [Hi Hk] F. split; [by eapply follows_in_file|]. destruct F as (D & P & R).
  destruct Hk as [Hk|Hk]; [rewrite (R Hk); by left|]. right. rewrite D. lia.
Qed.

Lemma readers_agree_refl {A : Type} (k : Z) (m : rdM A) : agree k m m.
Proof. by intros r _. Qed.

Lemma agree_bind {A B : Type} (k : Z) (m m' : rdM A) (f f' : A -> rdM B) :
  agree k m m' -> advances m' -> (forall a, agree k (f a) (f' a)) -> agree k (rbind m f) (rbind m' f').
Proof.
  intros Hm Ha Hf r Hr. unfold rbind. rewrite (Hm r Hr). destruct (m' r) as [[r1 a]| |] eqn:E; [|done..].
  apply Hf. eapply within_follows; [done|]. destruct Hr as [Hi _]. by eapply Ha.
Qed.

Lemma agree_list {A : Type} (k : Z) (m m' : rdM A) :
  agree k m m' -> advances m' -> agree k (read_list m) (read_list m').
Proof.
  intros Hm Ha. apply agree_bind; [apply readers_agree_refl|apply advances_uint|].
  intros z. induction (Z.to_nat z) as [|n IH]; cbn [repeat_read]; [apply readers_agree_refl|].
  apply agree_bind; [done|done|]. intros a.
  apply agree_bind; [done|by apply advances_repeat|]. intros l. apply readers_agree_refl.
Qed.

(** Reading one byte leaves fewer bytes, or fails and returns zero. *)
Lemma u8_progress (k : Z) (r r' : byteReader) (z : Z) :
  within (k + 1) r -> u8 r = Returned (r', z) -> within k r' /\ (err r' = None \/ z = 0).
Proof.
  intros [Hi Hk] E. pose proof (advances_uint 1 _ _ _ Hi E) as F.
  unfold u8, read_uint, read in E. destruct (err r) eqn:Er.
  { injection E as <- <-. rewrite Er. split; [|by right]. split; [done|]. left. by rewrite Er. }
  destruct Hk as [Hk|Hk]; [done|].
  destruct ((1 <? 0) || (zlen (data r) <? pos r + 1)) eqn:C; injection E as <- <-; cbn [err].
  - split; [|by right]. split; [by eapply follows_in_file|]. by left.
  - split; [|by left]. split; [by eapply follows_in_file|]. right. cbn. lia.
Qed.

Lemma agree_tag {A : Type} (k : Z) (f f' : Z -> rdM A) :
  (forall z, agree k (f z) (f' z)) -> agree (k + 1) (rbind u8 f) (rbind u8 f').
Proof.
  intros H r Hr. unfold rbind. destruct (u8 r) as [[r1 z]| |] eqn:E; [|done..].
  apply H. by eapply u8_progress.
Qed.

(** [m] does not run out of depth from a state that has failed or has fewer
    than [k] bytes left. *)
Definition finishes {A : Type} (k : Z) (m : rdM A) : Prop :=
  forall r, within k r -> m r <> OutOfFuel.

Lemma finishes_ret {A : Type} (k : Z) (a : A) : finishes k (rret a).
Proof. by intros r _ [=]. Qed.
Lemma finishes_panic {A : Type} (k : Z) : finishes k (@rpanic A).
Proof. by intros r _ [=]. Qed.
Lemma finishes_set_err (k : Z) (e : gostring) : finishes k (set_err e).
Proof. by intros r _ [=]. Qed.
Lemma finishes_read (k n : Z) : finishes k (read n).
Proof. intros r _. unfold read. by destruct (err r); [|destruct (_ || _)]. Qed.
Lemma finishes_uint (k n : Z) : finishes k (read_uint n).
Proof.
  intros r Hr. pose proof (finishes_read k n r Hr) as H. unfold read_uint.
  by destruct (read n r) as [[r1 l]| |].
Qed.

Lemma finishes_bind {A B : Type} (k : Z) (m : rdM A) (f : A -> rdM B) :
  finishes k m -> advances m -> (forall a, finishes k (f a)) -> finishes k (rbind m f).
Proof.
  intros Hm Ha Hf r Hr. unfold rbind. pose proof (Hm r Hr) as H.
  destruct (m r) as [[r1 a]| |] eqn:E; [|done..]. apply Hf.
  eapply within_follows; [done|]. destruct Hr as [Hi _]. by eapply Ha.
Qed.

Lemma finishes_repeat {A : Type} (k : Z) (n : nat) (m : rdM A) :
  finishes k m -> advances m -> finishes k (repeat_read n m).
Proof.
  intros Hm Ha. induction n as [|n IH]; cbn [repeat_read]; [apply finishes_ret|].
  apply finishes_bind; [done|done|]. intros a.
  apply finishes_bind; [done|by apply advances_repeat|]. intros l. apply finishes_ret.
Qed.

Lemma finishes_list {A : Type} (k : Z) (m : rdM A) :
  finishes k m -> advances m -> finishes k (read_list m).
Proof.
  intros Hm Ha. apply finishes_bind; [apply finishes_uint|apply advances_uint|].
  intros z. by apply finishes_repeat.
Qed.

(** After a tag byte there is less to read; after a failure the tag is zero. *)
Lemma finishes_tag {A : Type} (k : Z) (f : Z -> rdM A) :
  (forall z, finishes k (f z)) -> finishes (k + 1) (rbind u8 f).
Proof.
  intros H r Hr. unfold rbind. pose proof (finishes_uint _ 1 r Hr) as N. unfold u8 in *.
  destruct (read_uint 1 r) as [[r1 z]| |] eqn:E; [|done..].
  apply H. by eapply u8_progress.
Qed.

(** What every reader of a file must satisfy: it moves forward and ends. *)
Definition ends {A : Type} (m : rdM A) : Prop :=
  advances m /\ forall r, in_file r -> m r <> OutOfFuel.

Lemma ends_finishes {A : Type} (m : rdM A) : advances m -> (forall k, finishes k m) -> ends m.
Proof.
  intros Ha H. split; [done|]. intros r Hr. apply (H (zlen (data r) + 1)). split; [done|].
  right. unfold in_file in Hr. lia.
Qed.

Lemma ends_ret {A : Type} (a : A) : ends (rret a).
Proof. apply ends_finishes; [apply advances_ret|intros k; apply finishes_ret]. Qed.
Lemma ends_panic {A : Type} : ends (@rpanic A).
Proof. apply ends_finishes; [apply advances_panic|intros k; apply finishes_panic]. Qed.
Lemma ends_set_err (e : gostring) : ends (set_err e).
Proof. apply ends_finishes; [apply advances_set_err|intros k; apply finishes_set_err]. Qed.
Lemma ends_read (n : Z) : ends (read n).
Proof. apply ends_finishes; [apply advances_read|intros k; apply finishes_read]. Qed.
Lemma ends_uint (n : Z) : ends (read_uint n).
Proof. apply ends_finishes; [apply advances_uint|intros k; apply finishes_uint]. Qed.

Lemma ends_bind {A B : Type} (m : rdM A) (f : A -> rdM B) :
  ends m -> (forall a, ends (f a)) -> ends (rbind m f).
Proof.
  intros [Ha Hm] Hf. split; [apply advances_bind; [done|intros a; apply Hf]|].
  intros r Hr. unfold rbind. pose proof (Hm r Hr) as H.
  destruct (m r) as [[r1 a]| |] eqn:E; [|done..].
  apply Hf. eapply follows_in_file; [done|by eapply Ha].
Qed.

Lemma ends_repeat {A : Type} (n : nat) (m : rdM A) : ends m -> ends (repeat_read n m).
Proof.
  intros Hm. induction n as [|n IH]; cbn [repeat_read]; [apply ends_ret|].
  apply ends_bind; [done|]. intros a. apply ends_bind; [done|]. intros l. apply ends_ret.
Qed.
Lemma ends_list {A : Type} (m : rdM A) : ends m -> ends (read_list m).
Proof. intros Hm. apply ends_bind; [apply ends_uint|]. intros z. by apply ends_repeat. Qed.
Lemma ends_list32 {A : Type} (m : rdM A) : ends m -> ends (read_list32 m).
Proof. intros Hm. apply ends_bind; [apply ends_uint|]. intros z. by apply ends_repeat. Qed.

(** A string longer than 65535 bytes is written without an error, but its
    16-bit length wraps: the reader returns a shorter string and takes the next
    field from the middle of this one. *)
Theorem long_string_corrupts (s pre rest : list byte) :
  65536 <= zlen s ->
  exists r t,
    read_string (mkReader (pre ++ appendString s ++ rest) (zlen pre) None) = Returned (r, t) /\
    zlen t = zlen s mod 65536 /\ t <> s /\ err r = None /\
    pos r < zlen pre + zlen (appendString s).
Proof.
  intros Hs. pose proof (Z.mod_pos_bound (zlen s) 65536 ltac:(lia)) as Hb.
  set (n := Z.to_nat (zlen s mod 65536)).
  assert (Hn : (n <= length s)%nat) by (unfold n, zlen in *; lia).
  assert (Ht : zlen (take n s) = zlen s mod 65536)
    by (unfold zlen at 1; rewrite length_take; unfold n, zlen in *; lia).
  pose proof (reads_long_string s pre (drop n s ++ rest)) as R.
  change (Z.to_nat (zlen s mod 65536)) with n in R.
  exists (mkReader (pre ++ appendString s ++ rest) (zlen pre + zlen (put_u16 (zlen s) ++ take n s)) None),
    (take n s).
  split; [|split; [exact Ht|split; [|split; [done|]]]].
  - rewrite <- !app_assoc, (app_assoc (take n s)), take_drop in R.
    unfold appendString. rewrite <- app_assoc. exact R.
  - intros E. apply (f_equal zlen) in E. lia.
  - unfold appendString. rewrite !zlen_app, Ht. cbn [pos]. lia.
Qed.

Lemma long_string_corrupts_witness :
  exists r t,
    read_string (mkReader ([] ++ appendString (repeat Byte.x61 (Z.to_nat 65537)) ++ []) 0 None) = Returned (r, t) /\
    zlen t = zlen (repeat Byte.x61 (Z.to_nat 65537)) mod 65536 /\ t <> repeat Byte.x61 (Z.to_nat 65537) /\ err r = None /\
    pos r < 0 + zlen (appendString (repeat Byte.x61 (Z.to_nat 65537))).
Proof.
  apply (long_string_corrupts (repeat Byte.x61 (Z.to_nat 65537)) [] []).
  unfold zlen. rewrite repeat_length, Z2Nat.id by lia. lia.
Defined.
