(* ===== verification/Metadata.v ===== *)
(** * Metadata: the constants and decorator metadata of a bytecode file

    The values a chunk's constant pool and decorators hold, and their encoding
    (src/internal/bytecode/bytecode.go, [appendConstant],
    [appendMetadataValue] and the other [append] functions, and the methods of
    [byteReader] that read them back).  A record has all fields of the Go
    struct; [kept_constant] and the functions before it leave what the encoders
    write of it. *)

From Stdlib Require Import QArith.
From S2P Require Import Prelude Float64 GoText Literal Value DictKey ByteIO.
#[local] Open Scope Z_scope.

(** ** Data *)

(** [runtime.DecoratorMetadata], [ParameterMetadata], [FunctionMetadata] and
    [ClassMetadata]. *)
Record DecoratorMetadata := mkDecorator {
  dec_Name : gostring; dec_Target : gostring; dec_Position : Z; dec_Overload : Z;
  dec_Args : list Value; dec_NamedArgs : gmap gostring Value; dec_Line : Z; dec_Column : Z }.

Record ParameterMetadata := mkParameter {
  par_Name : gostring; par_Type : gostring; par_Variadic : bool; par_HasDefault : bool;
  par_Decorators : list DecoratorMetadata }.

Record FunctionMetadata := mkFunctionMetadata {
  fm_Name : gostring; fm_Target : gostring; fm_Doc : gostring; fm_TypeParameters : list gostring;
  fm_Parameters : list ParameterMetadata; fm_ReturnType : gostring; fm_Async : bool;
  fm_Variadic : bool; fm_Decorators : list DecoratorMetadata;
  fm_Module : gostring; fm_DefLine : Z; fm_DefColumn : Z }.

Record ClassMetadata := mkClassMetadata {
  cm_Name : gostring; cm_Doc : gostring; cm_Parent : gostring; cm_Fields : list gostring;
  cm_Methods : list gostring; cm_StaticMethods : list gostring; cm_Interfaces : list gostring;
  cm_Module : gostring; cm_DefLine : Z; cm_DefColumn : Z }.

(** [runtime.DecoratorTarget], [EnumVariantDefRuntime], [EnumDef] and
    [BytecodeClass]; a nil interface or pointer is [None], a nil map the empty
    one.  A [Function] of an enum's method table is the value it is. *)
Record DecoratorTarget := mkDecoratorTarget {
  dt_Target : gostring; dt_Decorators : list DecoratorMetadata;
  dt_Function : option FunctionMetadata; dt_Class : option ClassMetadata;
  dt_Callable : option Value }.

Record EnumVariantDef := mkVariantDef {
  ev_Name : gostring; ev_FieldCount : Z; ev_BackingValue : option Value }.

Record EnumDef := mkEnumDef {
  en_Name : gostring; en_BackingType : gostring; en_Variants : list EnumVariantDef;
  en_Module : gostring; en_Implements : list gostring; en_Methods : gmap gostring (list Value);
  en_MethodIndices : gmap gostring (list Z) }.

Record BytecodeClass := mkBytecodeClass {
  bc_Module : gostring; bc_Name : gostring; bc_Doc : gostring; bc_Index : Z; bc_Parent : gostring;
  bc_Fields : list gostring; bc_Interfaces : list gostring; bc_Decorators : list DecoratorMetadata;
  bc_MethodDecorators : gmap gostring (list DecoratorMetadata);
  bc_StaticDecorators : gmap gostring (list DecoratorMetadata);
  bc_MethodMetadata : gmap gostring (list FunctionMetadata);
  bc_StaticMetadata : gmap gostring (list FunctionMetadata);
  bc_StaticConsts : list gostring; bc_ConstructorMetadata : list FunctionMetadata;
  bc_Immutable : bool; bc_Raw : bool; bc_DefLine : Z; bc_DefColumn : Z }.

(** A class value with the given name, number, documentation and decorators,
    every other field zero. *)
Definition class_value (module name doc : gostring) (index : Z) (decs : list DecoratorMetadata)
    (methods statics : gmap gostring (list DecoratorMetadata)) : BytecodeClass :=
  mkBytecodeClass module name doc index [] [] [] decs methods statics ∅ ∅ [] [] false false 0 0.

(** An entry of the constant pool. *)
Inductive Constant :=
| KValue (v : Value)
| KDecoratorTarget (t : DecoratorTarget)
| KEnumDef (e : EnumDef)
| KClass (c : BytecodeClass).

(** ** What a file keeps

    The encoders leave out the source position of a function or class, the
    callable of a decorator target, the methods of the evaluator's enums and
    most of a class value: the decoder returns the record with these fields
    zero. *)

Definition kept_function (m : FunctionMetadata) : FunctionMetadata :=
  mkFunctionMetadata (fm_Name m) (fm_Target m) (fm_Doc m) (fm_TypeParameters m) (fm_Parameters m)
    (fm_ReturnType m) (fm_Async m) (fm_Variadic m) (fm_Decorators m) [] 0 0.

Definition kept_class (m : ClassMetadata) : ClassMetadata :=
  mkClassMetadata (cm_Name m) (cm_Doc m) (cm_Parent m) (cm_Fields m) (cm_Methods m)
    (cm_StaticMethods m) (cm_Interfaces m) [] 0 0.

Definition kept_constant (k : Constant) : Constant :=
  match k with
  | KValue v => KValue v
  | KDecoratorTarget t =>
      KDecoratorTarget (mkDecoratorTarget (dt_Target t) (dt_Decorators t)
        (kept_function <$> dt_Function t) (kept_class <$> dt_Class t) None)
  | KEnumDef e =>
      KEnumDef (mkEnumDef (en_Name e) (en_BackingType e) (en_Variants e) (en_Module e)
        (en_Implements e) ∅ (en_MethodIndices e))
  | KClass c =>
      KClass (class_value [] (bc_Name c) (bc_Doc c) (bc_Index c) (bc_Decorators c)
        (bc_MethodDecorators c) (bc_StaticDecorators c))
  end.

Section Codec.
(** The standard library: [strconv.FormatFloat], [strconv.Quote], the [%p] and
    [%T] verbs, [big.Rat.SetString]; the fields of frozen instances and the
    address of [DictKey]'s variable, which no decoded key depends on; and the
    order in which Go ranges over a map. *)
Context (FormatFloat_g : float64 -> gostring) (Quote : gostring -> gostring)
  (FormatPtr : Z -> gostring) (GoType : gostring -> gostring)
  (frozen : Z -> option (gostring * list (gostring * gostring))) (local : Z)
  (RatSetString : gostring -> option Q)
  (shuffle : forall A : Type, list A -> list A).

Definition key_of (v : Value) : gostring :=
  DictKey FormatFloat_g Quote FormatPtr GoType frozen local v.

(** ** Writing *)

(** A text under a 32-bit length. *)
Definition put_text (text : gostring) : list byte := put_u32 (zlen text) ++ text.

(** The scalar cases that [appendConstant] and [appendMetadataValue] share. *)
Definition appendScalar (v : Value) : option (list byte) :=
  match v with
  | VNull => Some (put_u8 0)
  | VBool b => Some (put_u8 1 ++ put_u8 (if b then 1 else 0))
  | VSmallInt i => Some (put_u8 2 ++ put_text (FormatInt i))
  | VInt i => Some (put_u8 2 ++ put_text (FormatInt i))
  | VString s => Some (put_u8 3 ++ put_text s)
  | VDecimal q => Some (put_u8 4 ++ put_text (RatString q))
  | VFloat f => Some (put_u8 5 ++ put_u64 (Float64bits f))
  | _ => None
  end.

(** The results of the elements of a map, in the order it is ranged over. *)
Definition put_shuffled (l : list (result gostring (list byte))) : result gostring (list byte) :=
  put_results (fun r => r) (shuffle _ l).

(** [appendMetadataValue]. *)
Fixpoint appendMetadataValue (v : Value) : result gostring (list byte) :=
  match v with
  | VList es =>
      let* body := put_list_result appendMetadataValue es in Ok (put_u8 7 ++ body)
  | VDict es =>
      let* body := put_list_result (fun e =>
        let* k := appendMetadataValue (fst (snd e)) in
        let* x := appendMetadataValue (snd (snd e)) in
        Ok (k ++ x)) es in
      Ok (put_u8 8 ++ body)
  | VSet es =>
      let* body := put_shuffled (map (fun e => appendMetadataValue (snd e)) es) in
      Ok (put_u8 9 ++ put_u16 (zlen es) ++ body)
  | _ =>
      match appendScalar v with
      | Some b => Ok b
      | None => Err (bs "unsupported decorator metadata constant " ++ TypeName v)
      end
  end.

(** A map of named values. *)
Definition put_map {A : Type} (f : A -> result gostring (list byte)) (m : gmap gostring A)
    : result gostring (list byte) :=
  put_list_result (fun p => let* b := f (snd p) in Ok (appendString (fst p) ++ b))
    (shuffle _ (map_to_list m)).

(** [appendDecoratorMetadata]: one decorator, and the list. *)
Definition put_decorator (d : DecoratorMetadata) : result gostring (list byte) :=
  let* args := put_list_result appendMetadataValue (dec_Args d) in
  let* named := put_map appendMetadataValue (dec_NamedArgs d) in
  Ok (appendString (dec_Name d) ++ appendString (dec_Target d) ++ put_u64 (dec_Position d)
      ++ put_u64 (dec_Overload d) ++ put_u64 (dec_Line d) ++ put_u64 (dec_Column d)
      ++ args ++ named).
Definition appendDecoratorMetadata (l : list DecoratorMetadata) : result gostring (list byte) :=
  put_list_result put_decorator l.

(** [appendDecoratorMetadataMap]. *)
Definition appendDecoratorMetadataMap (items : gmap gostring (list DecoratorMetadata))
    : result gostring (list byte) := put_map appendDecoratorMetadata items.

(** [appendFunctionMetadata]. *)
Definition put_parameter (p : ParameterMetadata) : result gostring (list byte) :=
  let* decs := appendDecoratorMetadata (par_Decorators p) in
  Ok (appendString (par_Name p) ++ appendString (par_Type p) ++ put_flag (par_Variadic p)
      ++ put_flag (par_HasDefault p) ++ decs).
Definition appendFunctionMetadata (metadata : option FunctionMetadata)
    : result gostring (list byte) :=
  match metadata with
  | None => Ok (put_u8 0)
  | Some m =>
      let* params := put_list_result put_parameter (fm_Parameters m) in
      let* decs := appendDecoratorMetadata (fm_Decorators m) in
      Ok (put_u8 1 ++ appendString (fm_Name m) ++ appendString (fm_Target m)
          ++ appendString (fm_Doc m) ++ appendString (fm_ReturnType m)
          ++ put_list appendString (fm_TypeParameters m) ++ put_flag (fm_Async m)
          ++ put_flag (fm_Variadic m) ++ params ++ decs)
  end.

(** [appendClassMetadata]. *)
Definition appendClassMetadata (metadata : option ClassMetadata) : list byte :=
  match metadata with
  | None => put_u8 0
  | Some m =>
      put_u8 1 ++ appendString (cm_Name m) ++ appendString (cm_Doc m) ++ appendString (cm_Parent m)
      ++ appendStringList (cm_Fields m) ++ appendStringList (cm_Methods m)
      ++ appendStringList (cm_StaticMethods m) ++ appendStringList (cm_Interfaces m)
  end.

Definition put_variant (v : EnumVariantDef) : result gostring (list byte) :=
  let* backing := match ev_BackingValue v with
                  | None => Ok (put_u8 0)
                  | Some b => let* x := appendMetadataValue b in Ok (put_u8 1 ++ x)
                  end in
  Ok (appendString (ev_Name v) ++ put_u16 (ev_FieldCount v) ++ backing).

Definition put_indices (l : list Z) : list byte := put_list put_u64 l.

Definition put_class_constant (c : BytecodeClass) : result gostring (list byte) :=
  let* decs := appendDecoratorMetadata (bc_Decorators c) in
  let* methods := appendDecoratorMetadataMap (bc_MethodDecorators c) in
  let* statics := appendDecoratorMetadataMap (bc_StaticDecorators c) in
  Ok (put_u8 9 ++ appendString (bc_Name c) ++ appendString (bc_Doc c) ++ put_u64 (bc_Index c)
      ++ decs ++ methods ++ statics).

Definition unsupported (what : String.string) : result gostring (list byte) :=
  Err (bs "unsupported bytecode constant: " ++ bs what).

(** [appendConstant]. *)
Definition appendConstant (k : Constant) : result gostring (list byte) :=
  match k with
  | KValue v =>
      match appendScalar v with
      | Some b => Ok b
      | None =>
          match v with
          | VType n => Ok (put_u8 8 ++ appendString n)
          | VBytecodeClass m n i => put_class_constant (class_value m n [] i [] ∅ ∅)
          | VDict es => if zlen es =? 0 then Ok (put_u8 10) else unsupported "non-empty dict literal"
          | VList es => if zlen es =? 0 then Ok (put_u8 11) else unsupported "non-empty list literal"
          | VSet es => if zlen es =? 0 then Ok (put_u8 12) else unsupported "non-empty set literal"
          | VBytes l => Ok (put_u8 13 ++ put_text l)
          | VPendingDefault => Ok (put_u8 14)
          | _ => Err (bs "unsupported bytecode constant " ++ TypeName v)
          end
      end
  | KDecoratorTarget t =>
      let* function := appendFunctionMetadata (dt_Function t) in
      let* decs := appendDecoratorMetadata (dt_Decorators t) in
      Ok (put_u8 6 ++ appendString (dt_Target t) ++ function ++ appendClassMetadata (dt_Class t)
          ++ decs)
  | KEnumDef e =>
      let* variants := put_list_result put_variant (en_Variants e) in
      let* methods := put_map (fun l => Ok (put_indices l)) (en_MethodIndices e) in
      Ok (put_u8 7 ++ appendString (en_Name e) ++ appendString (en_Module e)
          ++ appendString (en_BackingType e) ++ variants
          ++ put_list appendString (en_Implements e) ++ methods)
  | KClass c => put_class_constant c
  end.

(** ** Reading *)

(** [string(r.read(int(r.u32())))]. *)
Definition read_text : rdM gostring := rd n <- u32; read n.

(** An integer constant: on a parse error the nil [big.Int] is dereferenced. *)
Definition read_int : rdM Value :=
  rd text <- read_text;
  match ParseIntLiteral text with
  | Some i => rret (if is_int64 i then VSmallInt i else VInt i)
  | None => rpanic
  end.

(** A decimal whose text does not parse holds a nil [big.Rat]. *)
Definition nil_decimal : Value := VOther (bs "decimal").
Definition read_decimal : rdM Value :=
  rd text <- read_text;
  match ParseDecimalLiteral RatSetString text with
  | Some q => rret (VDecimal q)
  | None => rd _ <- set_err (bs "invalid decimal literal"); rret nil_decimal
  end.
Definition read_float : rdM Value := rd bits <- u64; rret (VFloat (Float64frombits bits)).

(** [DictKey] of a key that holds a nil decimal panics. *)
Fixpoint key_panics (v : Value) : bool :=
  match v with
  | VOther _ => true
  | VList es => existsb key_panics es
  | VDict es => existsb (fun e => key_panics (snd (snd e))) es
  | _ => false
  end.
Definition key_read (v : Value) : rdM gostring := if key_panics v then rpanic else rret (key_of v).

(** [byteReader.metadataValue], one unit of fuel per nested value. *)
Fixpoint metadata_fuel (fuel : nat) : rdM Value :=
  match fuel with
  | O => rfuel
  | S n =>
      rd tag <- u8;
      if tag =? 0 then rret VNull
      else if tag =? 1 then rd b <- flag; rret (VBool b)
      else if tag =? 2 then read_int
      else if tag =? 3 then rd s <- read_text; rret (VString s)
      else if tag =? 4 then read_decimal
      else if tag =? 5 then read_float
      else if tag =? 7 then rd l <- read_list (metadata_fuel n); rret (VList l)
      else if tag =? 8 then
        rd l <- read_list (rd key <- metadata_fuel n; rd value <- metadata_fuel n;
                           rd k <- key_read key; rret (k, (key, value)));
        rret (VDict (sorted_pairs (fill_map l)))
      else if tag =? 9 then
        rd l <- read_list (rd value <- metadata_fuel n; rd k <- key_read value; rret (k, value));
        rret (VSet (sorted_pairs (fill_map l)))
      else rd _ <- set_err (bs "unknown decorator metadata tag " ++ FormatInt tag); rret VNull
  end.

(** Every nested value takes at least the byte of its tag, so the bytes of the
    file are enough fuel. *)
Definition metadataValue : rdM Value := fun r => metadata_fuel (S (length (data r))) r.

Definition read_map {A : Type} (m : rdM A) : rdM (gmap gostring A) :=
  rd l <- read_list (read_pair m); rret (fill_map l).

(** [byteReader.decoratorMetadata]. *)
Definition read_decorator : rdM DecoratorMetadata :=
  rd name <- read_string; rd target <- read_string; rd position <- i64; rd overload <- i64;
  rd line <- i64; rd column <- i64;
  rd args <- read_list metadataValue;
  rd named <- read_map metadataValue;
  rret (mkDecorator name target position overload args named line column).
Definition decoratorMetadata : rdM (list DecoratorMetadata) := read_list read_decorator.

(** [byteReader.decoratorMetadataMap]. *)
Definition decoratorMetadataMap : rdM (gmap gostring (list DecoratorMetadata)) :=
  read_map decoratorMetadata.

(** [byteReader.functionMetadata]. *)
Definition read_parameter : rdM ParameterMetadata :=
  rd name <- read_string; rd type <- read_string; rd variadic <- flag; rd hasDefault <- flag;
  rd decs <- decoratorMetadata;
  rret (mkParameter name type variadic hasDefault decs).
Definition functionMetadata : rdM (option FunctionMetadata) :=
  rd present <- u8;
  if present =? 0 then rret None
  else
    rd name <- read_string; rd target <- read_string; rd doc <- read_string;
    rd returnType <- read_string;
    rd typeParams <- read_list read_string;
    rd async <- flag; rd variadic <- flag;
    rd params <- read_list read_parameter;
    rd decs <- decoratorMetadata;
    rret (Some (mkFunctionMetadata name target doc typeParams params returnType async variadic decs
            [] 0 0)).

(** [byteReader.classMetadata]. *)
Definition classMetadata : rdM (option ClassMetadata) :=
  rd present <- u8;
  if present =? 0 then rret None
  else
    rd name <- read_string; rd doc <- read_string; rd parent <- read_string;
    rd fields <- stringList; rd methods <- stringList; rd statics <- stringList;
    rd interfaces <- stringList;
    rret (Some (mkClassMetadata name doc parent fields methods statics interfaces [] 0 0)).

Definition read_variant : rdM EnumVariantDef :=
  rd name <- read_string; rd fieldCount <- u16; rd present <- u8;
  rd backing <- (if present =? 0 then rret None else rd v <- metadataValue; rret (Some v));
  rret (mkVariantDef name fieldCount backing).

Definition read_indices : rdM (list Z) := read_list i64.

Definition read_class_constant : rdM BytecodeClass :=
  rd name <- read_string; rd doc <- read_string; rd index <- i64;
  rd decs <- decoratorMetadata; rd methods <- decoratorMetadataMap;
  rd statics <- decoratorMetadataMap;
  rret (class_value [] name doc index decs methods statics).

(** [byteReader.constant]. *)
Definition constant : rdM Constant :=
  rd tag <- u8;
  if tag =? 0 then rret (KValue VNull)
  else if tag =? 1 then rd b <- flag; rret (KValue (VBool b))
  else if tag =? 2 then rd v <- read_int; rret (KValue v)
  else if tag =? 3 then rd s <- read_text; rret (KValue (VString s))
  else if tag =? 4 then rd v <- read_decimal; rret (KValue v)
  else if tag =? 5 then rd v <- read_float; rret (KValue v)
  else if tag =? 6 then
    rd target <- read_string; rd function <- functionMetadata; rd class <- classMetadata;
    rd decs <- decoratorMetadata;
    rret (KDecoratorTarget (mkDecoratorTarget target decs function class None))
  else if tag =? 7 then
    rd name <- read_string; rd module <- read_string; rd backingType <- read_string;
    rd variants <- read_list read_variant;
    rd implements <- read_list read_string;
    rd methods <- read_map read_indices;
    rret (KEnumDef (mkEnumDef name backingType variants module implements ∅ methods))
  else if tag =? 8 then rd name <- read_string; rret (KValue (VType name))
  else if tag =? 9 then rd c <- read_class_constant; rret (KClass c)
  else if tag =? 10 then rret (KValue (VDict []))
  else if tag =? 11 then rret (KValue (VList []))
  else if tag =? 12 then rret (KValue (VSet []))
  else if tag =? 13 then rd l <- read_text; rret (KValue (VBytes l))
  else if tag =? 14 then rret (KValue VPendingDefault)
  else rd _ <- set_err (bs "unknown constant tag " ++ FormatInt tag); rret (KValue VNull).
End Codec.

(** ** What can be written *)

Definition text32 (s : gostring) : bool := zlen s <? 2 ^ 32.

Section RoundTrip.
Context (FormatFloat_g : float64 -> gostring) (Quote : gostring -> gostring)
  (FormatPtr : Z -> gostring) (GoType : gostring -> gostring)
  (frozen : Z -> option (gostring * list (gostring * gostring))) (local : Z)
  (RatSetString : gostring -> option Q)
  (shuffle : forall A : Type, list A -> list A).
(** Ranging over a map visits each entry once; [SetString] reads what
    [RatString] prints. *)
Hypothesis Hshuffle : forall (A : Type) (l : list A), shuffle A l ≡ₚ l.
Hypothesis HRat : forall q, q_reduced q = true -> RatSetString (RatString q) = Some q.

Abbreviation key := (key_of FormatFloat_g Quote FormatPtr GoType frozen local).
Abbreviation put_meta := (appendMetadataValue shuffle).
Abbreviation get_meta :=
  (metadataValue FormatFloat_g Quote FormatPtr GoType frozen local RatSetString).
Abbreviation get_meta_fuel :=
  (metadata_fuel FormatFloat_g Quote FormatPtr GoType frozen local RatSetString).

(** The scalars that come back: an integer is in the form the decoder gives
    it, a [SmallInt] when it fits 64 bits. *)
Definition scalar_ok (v : Value) : bool :=
  match v with
  | VNull | VBool _ => true
  | VSmallInt i => is_int64 i && text32 (FormatInt i)
  | VInt i => negb (is_int64 i) && text32 (FormatInt i)
  | VString s => text32 s
  | VDecimal q => q_reduced q && text32 (RatString q)
  | VFloat f => f64_wf f
  | _ => false
  end.

(** A dict or set in the order the decoder gives it: sorted by key string,
    each entry under the key string of its key. *)
Inductive meta_ok : Value -> Prop :=
| ok_scalar v : scalar_ok v = true -> meta_ok v
| ok_list es :
    zlen es < 65536 -> (forall e, e ∈ es -> meta_ok e) -> meta_ok (VList es)
| ok_dict es :
    zlen es < 65536 -> sorted_pairs (fill_map es) = es ->
    (forall e, e ∈ es -> fst e = key (fst (snd e))) ->
    (forall e, e ∈ es -> meta_ok (fst (snd e))) ->
    (forall e, e ∈ es -> meta_ok (snd (snd e))) -> meta_ok (VDict es)
| ok_set es :
    zlen es < 65536 -> sorted_pairs (fill_map es) = es ->
    (forall e, e ∈ es -> fst e = key (snd e)) ->
    (forall e, e ∈ es -> meta_ok (snd e)) -> meta_ok (VSet es).

(** ** Scalars *)

Lemma reads_text (s : gostring) : text32 s = true -> reads read_text (put_text s) s.
Proof.
  unfold text32. intros H. pose proof (zlen_nonneg s).
  eapply reads_bind; [apply reads_u32; lia|by apply reads_read].
Qed.

Lemma reads_int (i : Z) :
  text32 (FormatInt i) = true ->
  reads read_int (put_text (FormatInt i)) (if is_int64 i then VSmallInt i else VInt i).
Proof.
  intros H. rewrite <- (app_nil_r (put_text _)). eapply reads_bind; [by apply reads_text|].
  rewrite ParseIntLiteral_FormatInt. apply reads_ret.
Qed.

Lemma RatString_chars (q : Q) :
  Forall (fun b => is_int_char b = true \/ b = Byte.x2f) (RatString q).
Proof.
  assert (H : forall z, Forall (fun b => is_int_char b = true \/ b = Byte.x2f) (FormatInt z))
    by (intros z; eapply Forall_impl; [apply FormatInt_chars|auto]).
  unfold RatString. destruct (_ =? _)%positive; [apply H|].
  apply Forall_app. split; [apply H|]. constructor; [by right|apply H].
Qed.

Lemma ParseDecimalLiteral_RatString (q : Q) :
  q_reduced q = true -> ParseDecimalLiteral RatSetString (RatString q) = Some q.
Proof.
  intros Hq. pose proof (RatString_chars q) as Hc. rewrite Forall_forall in Hc.
  assert (Hno : forall b, is_int_char b = false -> b <> Byte.x2f -> b ∉ RatString q).
  { intros b H1 H2 Hb. destruct (Hc b Hb) as [H3|H3]; congruence. }
  unfold ParseDecimalLiteral.
  assert (Hstrip : strip_underscores (RatString q) = RatString q).
  { unfold strip_underscores. assert (Hu : Byte.x5f ∉ RatString q) by (by apply Hno).
    revert Hu. generalize (RatString q) as l. induction l as [|b l IH]; intros Hl; [done|].
    apply not_elem_of_cons in Hl as [Hb Hl]. rewrite filter_cons_True by congruence.
    by rewrite IH. }
  rewrite Hstrip. rewrite decide_False; [by apply HRat|].
  intros [H|H]; revert H; by apply Hno.
Qed.

Lemma reads_decimal (q : Q) :
  q_reduced q = true -> text32 (RatString q) = true ->
  reads (read_decimal RatSetString) (put_text (RatString q)) (VDecimal q).
Proof.
  intros Hq H. rewrite <- (app_nil_r (put_text _)). eapply reads_bind; [by apply reads_text|].
  rewrite ParseDecimalLiteral_RatString by done. apply reads_ret.
Qed.

Lemma reads_float (f : float64) :
  f64_wf f = true -> reads read_float (put_u64 (Float64bits f)) (VFloat f).
Proof.
  intros H. unfold read_float. rewrite <- (Float64frombits_bits f H) at 2.
  apply (reads_map _ (fun x => VFloat (Float64frombits x))), reads_u64. by apply Float64bits_range.
Qed.

(** Reading a tag byte selects its case. *)
Lemma reads_tag {A : Type} (m : Z -> rdM A) (tag : Z) (b : list byte) (a : A) :
  0 <= tag < 256 -> reads (m tag) b a -> reads (rbind u8 m) (put_u8 tag ++ b) a.
Proof. intros H1 H2. eapply reads_bind; [by apply reads_u8|done]. Qed.

Lemma reads_scalar_metadata (fuel : nat) (v : Value) :
  scalar_ok v = true ->
  exists b, appendScalar v = Some b /\ reads (get_meta_fuel (S fuel)) b v.
Proof.
  intros Hv. destruct v; try discriminate Hv; cbn [scalar_ok appendScalar] in *;
    eexists; (split; [reflexivity|]); cbn [metadata_fuel].
  - rewrite <- (app_nil_r (put_u8 0)). apply reads_tag; [lia|]. apply reads_ret.
  - apply reads_tag; [lia|]. apply (reads_map flag VBool), reads_flag.
  - apply andb_true_iff in Hv as [H1 H2]. apply reads_tag; [lia|]. cbn.
    pose proof (reads_int i H2) as R. by rewrite H1 in R.
  - apply andb_true_iff in Hv as [H1 H2]. apply reads_tag; [lia|]. cbn.
    pose proof (reads_int i H2) as R. apply negb_true_iff in H1. by rewrite H1 in R.
  - apply andb_true_iff in Hv as [H1 H2]. apply reads_tag; [lia|]. by apply reads_decimal.
  - apply reads_tag; [lia|]. by apply reads_float.
  - apply reads_tag; [lia|]. by apply (reads_map read_text VString), reads_text.
Qed.

(** ** Nested values *)

Lemma meta_ok_key (v : Value) : meta_ok v -> key_panics v = false.
Proof.
  induction 1 as [v Hv|es _ _ IH|es _ _ _ _ _ _ IH|es _ _ _ _]; cbn [key_panics]; [by destruct v|..];
    [|..|done]; apply not_true_iff_false; rewrite existsb_exists; intros (e & He & Hp);
    apply list_elem_of_In in He; rewrite IH in Hp; done.
Qed.

(** Reading a nested value needs less fuel than its bytes. *)
Definition reads_within {A : Type} (m : nat -> rdM A) (b : list byte) (a : A) : Prop :=
  forall fuel, (length b < fuel)%nat -> reads (m fuel) b a.

Lemma results_within {A E : Type} (f : A -> result E (list byte)) (m : nat -> rdM A) (l : list A) :
  (forall a, a ∈ l -> exists b, f a = Ok b /\ reads_within m b a) ->
  exists b, put_results f l = Ok b /\ reads_within (fun n => repeat_read (length l) (m n)) b l.
Proof.
  induction l as [|a l IH]; intros H.
  { exists []. split; [done|]. intros fuel _. apply reads_ret. }
  destruct (H a) as (b & Hb & Rb); [by left|].
  destruct IH as (c & Hc & Rc); [intros x Hx; apply H; by right|].
  exists (b ++ c). cbn [put_results]. rewrite Hb. cbn [res_bind]. rewrite Hc. split; [done|].
  intros fuel Hf. rewrite length_app in Hf. cbn [length repeat_read].
  eapply reads_bind; [apply Rb; lia|]. apply (reads_map _ (cons a)), Rc. lia.
Qed.

Lemma list_within {A E : Type} (f : A -> result E (list byte)) (m : nat -> rdM A) (l : list A) :
  zlen l < 65536 -> (forall a, a ∈ l -> exists b, f a = Ok b /\ reads_within m b a) ->
  exists b, put_list_result f l = Ok b /\ reads_within (fun n => read_list (m n)) b l.
Proof.
  intros Hl H. destruct (results_within f m l H) as (b & Hb & Rb).
  exists (put_u16 (zlen l) ++ b). unfold put_list_result. rewrite Hb. split; [done|].
  intros fuel Hf. rewrite length_app in Hf. pose proof (zlen_nonneg l).
  eapply reads_bind; [apply reads_u16; lia|]. unfold zlen. rewrite Nat2Z.id. apply Rb. lia.
Qed.

Lemma bind_within {A B : Type} (m : nat -> rdM A) (k : A -> nat -> rdM B) (b1 b2 : list byte) a c :
  reads_within m b1 a -> reads_within (k a) b2 c ->
  reads_within (fun n => rbind (m n) (fun x => k x n)) (b1 ++ b2) c.
Proof.
  intros H1 H2 fuel Hf. rewrite length_app in Hf.
  eapply reads_bind; [apply H1; lia|apply H2; lia].
Qed.

Lemma key_within (v : Value) {A : Type} (a : A) :
  key_panics v = false ->
  reads_within (fun _ => rd k <- key_read FormatFloat_g Quote FormatPtr GoType frozen local v;
                         rret (k, a)) [] (key v, a).
Proof. intros H fuel _ pre rest. unfold rbind, key_read. rewrite H. apply reads_ret. Qed.

Lemma shuffle_map {A B : Type} (f : A -> B) (l : list A) :
  exists l', shuffle B (map f l) = map f l' /\ l' ≡ₚ l.
Proof.
  destruct (Permutation_map_inv f l (Hshuffle B (map f l))) as (l' & H1 & H2). by exists l'.
Qed.

Lemma put_results_map {A E : Type} (f : A -> result E (list byte)) (l : list A) :
  put_results (fun r => r) (map f l) = put_results f l.
Proof. induction l as [|a l IH]; [done|]. cbn. by rewrite IH. Qed.

Lemma canonical_fill {A : Type} (es es' : list (gostring * A)) :
  sorted_pairs (fill_map es) = es -> es' ≡ₚ es -> sorted_pairs (fill_map es') = es.
Proof.
  intros Hes Hp. rewrite (fill_map_perm es' (fill_map es)); [done|].
  rewrite Hp. rewrite <- Hes at 1. apply sorted_pairs_perm.
Qed.

Lemma metadata_within (v : Value) :
  meta_ok v -> exists b, put_meta v = Ok b /\ reads_within get_meta_fuel b v.
Proof.
  induction 1 as [v Hv|es Hl Hok IH|es Hl Hc Hk Hok1 IH1 Hok2 IH2|es Hl Hc Hk Hok IH].
  - destruct (reads_scalar_metadata 0 v Hv) as (b & Hb & _). exists b.
    split; [destruct v; try discriminate Hv; cbn in *; by simplify_eq|].
    intros [|fuel] Hf; [lia|]. destruct (reads_scalar_metadata fuel v Hv) as (b' & Hb' & R).
    by simplify_eq.
  - destruct (list_within put_meta get_meta_fuel es Hl IH) as (b & Hb & R).
    exists (put_u8 7 ++ b). cbn [appendMetadataValue]. rewrite Hb. split; [done|].
    intros [|fuel] Hf; [lia|]. cbn [metadata_fuel]. apply reads_tag; [lia|]. cbn.
    apply (reads_map _ VList), R. rewrite length_app in Hf. cbn in Hf. lia.
  - destruct (list_within
      (fun e => let* k := put_meta (fst (snd e)) in let* x := put_meta (snd (snd e)) in Ok (k ++ x))
      (fun n => rd k <- get_meta_fuel n; rd x <- get_meta_fuel n;
                rd s <- key_read FormatFloat_g Quote FormatPtr GoType frozen local k;
                rret (s, (k, x))) es Hl) as (b & Hb & R).
    { intros [s [k x]] He. cbn [fst snd]. destruct (IH1 _ He) as (b1 & Hb1 & R1).
      destruct (IH2 _ He) as (b2 & Hb2 & R2). cbn [fst snd] in *. rewrite Hb1, Hb2.
      exists (b1 ++ b2). split; [done|]. rewrite <- (app_nil_r b2).
      pose proof (Hk _ He) as E. cbn in E. subst s.
      eapply (bind_within get_meta_fuel (fun k n => rd x <- get_meta_fuel n; _)); [done|].
      eapply (bind_within get_meta_fuel (fun x _ => rd s <- _; rret (s, (k, x)))); [done|].
      apply key_within, meta_ok_key. exact (Hok1 _ He). }
    exists (put_u8 8 ++ b). cbn [appendMetadataValue]. rewrite Hb. split; [done|].
    intros [|fuel] Hf; [lia|]. cbn [metadata_fuel]. apply reads_tag; [lia|]. cbn.
    rewrite <- (canonical_fill es es Hc) at 1 by done.
    apply (reads_map _ (fun l => VDict (sorted_pairs (fill_map l)))), R.
    rewrite length_app in Hf. cbn in Hf. lia.
  - destruct (shuffle_map (fun e => put_meta (snd e)) es) as (es' & Hs & Hp).
    destruct (results_within (fun e => put_meta (snd e))
      (fun n => rd x <- get_meta_fuel n;
                rd s <- key_read FormatFloat_g Quote FormatPtr GoType frozen local x;
                rret (s, x)) es') as (b & Hb & R).
    { intros [s x] He. cbn [snd]. rewrite Hp in He. destruct (IH _ He) as (b1 & Hb1 & R1).
      cbn [snd] in *. exists b1. split; [done|]. rewrite <- (app_nil_r b1).
      pose proof (Hk _ He) as E. cbn in E. subst s.
      eapply (bind_within get_meta_fuel (fun x _ => rd s <- _; rret (s, x))); [done|].
      apply key_within, meta_ok_key. exact (Hok _ He). }
    exists (put_u8 9 ++ put_u16 (zlen es) ++ b). cbn [appendMetadataValue]. unfold put_shuffled.
    rewrite Hs, put_results_map, Hb. split; [done|].
    intros [|fuel] Hf; [lia|]. cbn [metadata_fuel]. apply reads_tag; [lia|]. cbn [Z.eqb Pos.eqb].
    replace (VSet es) with (VSet (sorted_pairs (fill_map es'))) by (by rewrite (canonical_fill es es')).
    apply (reads_map _ (fun l => VSet (sorted_pairs (fill_map l)))).
    rewrite !length_app in Hf. cbn in Hf. pose proof (zlen_nonneg es).
    eapply reads_bind; [apply reads_u16; lia|]. unfold zlen. rewrite Nat2Z.id, <- Hp.
    apply R. lia.
Qed.

Lemma reads_metadata (v : Value) :
  meta_ok v -> exists b, put_meta v = Ok b /\ reads get_meta b v.
Proof.
  intros Hv. destruct (metadata_within v Hv) as (b & Hb & R). exists b. split; [done|].
  intros pre rest. unfold metadataValue. apply R. cbn [data]. rewrite !length_app. lia.
Qed.

(** ** Records *)

Definition list_ok {A : Type} (P : A -> Prop) (l : list A) : Prop :=
  zlen l < 65536 /\ forall a, a ∈ l -> P a.
Definition map_ok {A : Type} (P : A -> Prop) (m : gmap gostring A) : Prop :=
  zlen (map_to_list m) < 65536 /\ forall k v, m !! k = Some v -> str16 k = true /\ P v.
Definition strings_ok (l : list gostring) : Prop := list_ok (fun s => str16 s = true) l.
Definition int64s_ok (l : list Z) : Prop := list_ok (fun z => is_int64 z = true) l.

Lemma reads_strings (l : list gostring) :
  strings_ok l -> reads (read_list read_string) (put_list appendString l) l.
Proof.
  intros [Hl H]. apply (reads_list appendString); [done|]. intros s Hs. by apply reads_string, H.
Qed.
Lemma reads_int64s (l : list Z) : int64s_ok l -> reads (read_list i64) (put_list put_u64 l) l.
Proof.
  intros [Hl H]. apply (reads_list put_u64); [done|]. intros z Hz. by apply reads_i64, H.
Qed.

Lemma reads_results_ok {A : Type} (P : A -> Prop) (f : A -> result gostring (list byte)) (m : rdM A)
    (l : list A) :
  (forall a, P a -> exists b, f a = Ok b /\ reads m b a) -> list_ok P l ->
  exists b, put_list_result f l = Ok b /\ reads (read_list m) b l.
Proof. intros H [Hl Ha]. apply reads_list_result; [done|]. intros a Hin. by apply H, Ha. Qed.

Lemma reads_map_result {A : Type} (P : A -> Prop) (f : A -> result gostring (list byte)) (m : rdM A)
    (mp : gmap gostring A) :
  (forall a, P a -> exists b, f a = Ok b /\ reads m b a) -> map_ok P mp ->
  exists b, put_map shuffle f mp = Ok b /\ reads (read_map m) b mp.
Proof.
  intros H [Hl Ha]. unfold put_map. pose proof (Hshuffle _ (map_to_list mp)) as Hp.
  destruct (reads_list_result (fun p => let* b := f (snd p) in Ok (appendString (fst p) ++ b))
              (read_pair m) (shuffle _ (map_to_list mp))) as (b & Hb & R).
  - unfold zlen in *. by rewrite Hp.
  - intros [k v] Hin. rewrite Hp in Hin. apply elem_of_map_to_list in Hin.
    destruct (Ha k v Hin) as [Hk Hv]. destruct (H v Hv) as (b & Hb & R). cbn [fst snd].
    rewrite Hb. exists (appendString k ++ b). split; [done|].
    eapply reads_bind; [by apply reads_string|]. by apply (reads_map _ (pair k)).
  - exists b. split; [done|]. apply (reads_map _ fill_map) in R.
    by rewrite (fill_map_perm _ mp Hp) in R.
Qed.

Lemma reads_bind_ret {A B : Type} (m : rdM A) (k : A -> rdM B) (b : list byte) (a : A) (c : B) :
  reads m b a -> k a = rret c -> reads (rbind m k) b c.
Proof.
  intros H E. rewrite <- (app_nil_r b). eapply reads_bind; [done|]. rewrite E. apply reads_ret.
Qed.
End RoundTrip.

(** Reads a record field by field: each field's lemma is in the database
    [codec] or among the hypotheses. *)
Create HintDb codec.
#[export] Hint Resolve reads_string reads_i64 reads_flag reads_strings reads_int64s reads_u64
  reads_stringMap : codec.
Ltac read_fields :=
  repeat first
    [ eapply reads_bind_ret; [solve [eauto 2 with codec]|reflexivity]
    | eapply reads_bind; [solve [eauto 2 with codec]|]
    | apply reads_tag; [lia|]; cbn [Z.eqb Pos.eqb] ].

#[global] Opaque appendString put_u8 put_u16 put_u32 put_u64 put_flag put_list put_list32
  put_list_result put_list32_result put_map.

Section Records.
Context (FormatFloat_g : float64 -> gostring) (Quote : gostring -> gostring)
  (FormatPtr : Z -> gostring) (GoType : gostring -> gostring)
  (frozen : Z -> option (gostring * list (gostring * gostring))) (local : Z)
  (RatSetString : gostring -> option Q)
  (shuffle : forall A : Type, list A -> list A).
Hypothesis Hshuffle : forall (A : Type) (l : list A), shuffle A l ≡ₚ l.
Hypothesis HRat : forall q, q_reduced q = true -> RatSetString (RatString q) = Some q.

Abbreviation value_ok := (meta_ok FormatFloat_g Quote FormatPtr GoType frozen local).
Abbreviation reading f := (f FormatFloat_g Quote FormatPtr GoType frozen local RatSetString).

Definition decorator_ok (d : DecoratorMetadata) : Prop :=
  str16 (dec_Name d) = true /\ str16 (dec_Target d) = true /\ is_int64 (dec_Position d) = true /\
  is_int64 (dec_Overload d) = true /\ is_int64 (dec_Line d) = true /\
  is_int64 (dec_Column d) = true /\ list_ok value_ok (dec_Args d) /\
  map_ok value_ok (dec_NamedArgs d).

Lemma reads_value (v : Value) :
  value_ok v -> exists b, appendMetadataValue shuffle v = Ok b /\ reads (reading metadataValue) b v.
Proof. by apply reads_metadata. Qed.

Lemma reads_decorator (d : DecoratorMetadata) :
  decorator_ok d ->
  exists b, put_decorator shuffle d = Ok b /\ reads (reading read_decorator) b d.
Proof.
  destruct d as [n t p o args named ln co]. intros (? & ? & ? & ? & ? & ? & Ha & Hn).
  cbn [dec_Name dec_Target dec_Position dec_Overload dec_Line dec_Column dec_Args dec_NamedArgs] in *.
  destruct (reads_results_ok _ _ _ _ reads_value Ha) as (b1 & E1 & R1).
  destruct (reads_map_result shuffle Hshuffle _ _ _ _ reads_value Hn) as (b2 & E2 & R2).
  unfold put_decorator. cbn [dec_Args dec_NamedArgs]. rewrite E1. cbn [res_bind]. rewrite E2.
  eexists. split; [reflexivity|]. unfold read_decorator. read_fields.
Qed.

Lemma reads_decorators (l : list DecoratorMetadata) :
  list_ok decorator_ok l ->
  exists b, appendDecoratorMetadata shuffle l = Ok b /\ reads (reading decoratorMetadata) b l.
Proof. intros H. exact (reads_results_ok _ _ _ _ reads_decorator H). Qed.

Lemma reads_decorator_map (m : gmap gostring (list DecoratorMetadata)) :
  map_ok (list_ok decorator_ok) m ->
  exists b, appendDecoratorMetadataMap shuffle m = Ok b /\
            reads (reading decoratorMetadataMap) b m.
Proof. intros H. exact (reads_map_result shuffle Hshuffle _ _ _ _ reads_decorators H). Qed.

Definition parameter_ok (p : ParameterMetadata) : Prop :=
  str16 (par_Name p) = true /\ str16 (par_Type p) = true /\
  list_ok decorator_ok (par_Decorators p).
Definition function_ok (m : FunctionMetadata) : Prop :=
  str16 (fm_Name m) = true /\ str16 (fm_Target m) = true /\ str16 (fm_Doc m) = true /\
  str16 (fm_ReturnType m) = true /\ strings_ok (fm_TypeParameters m) /\
  list_ok parameter_ok (fm_Parameters m) /\ list_ok decorator_ok (fm_Decorators m).
Definition class_ok (m : ClassMetadata) : Prop :=
  str16 (cm_Name m) = true /\ str16 (cm_Doc m) = true /\ str16 (cm_Parent m) = true /\
  strings_ok (cm_Fields m) /\ strings_ok (cm_Methods m) /\ strings_ok (cm_StaticMethods m) /\
  strings_ok (cm_Interfaces m).
Definition option_ok {A : Type} (P : A -> Prop) (o : option A) : Prop :=
  match o with Some a => P a | None => True end.

Lemma reads_parameter (p : ParameterMetadata) :
  parameter_ok p ->
  exists b, put_parameter shuffle p = Ok b /\ reads (reading read_parameter) b p.
Proof.
  destruct p as [n t v h decs]. intros (? & ? & Hd).
  cbn [par_Name par_Type par_Decorators] in *.
  destruct (reads_decorators _ Hd) as (b1 & E1 & R1).
  unfold put_parameter. cbn [par_Decorators]. rewrite E1. eexists. split; [reflexivity|].
  unfold read_parameter. read_fields.
Qed.

Lemma reads_function (m : option FunctionMetadata) :
  option_ok function_ok m ->
  exists b, appendFunctionMetadata shuffle m = Ok b /\
            reads (reading functionMetadata) b (kept_function <$> m).
Proof.
  destruct m as [[n t d tps ps rt a v decs md dl dc]|]; cbn [option_ok].
  - intros (? & ? & ? & ? & ? & Hp & Hd).
    cbn [fm_Name fm_Target fm_Doc fm_ReturnType fm_TypeParameters fm_Parameters fm_Decorators] in *.
    destruct (reads_results_ok _ _ _ _ reads_parameter Hp) as (b1 & E1 & R1).
    destruct (reads_decorators _ Hd) as (b2 & E2 & R2).
    unfold appendFunctionMetadata. cbn [fm_Parameters fm_Decorators].
    rewrite E1. cbn [res_bind]. rewrite E2. eexists. split; [reflexivity|].
    unfold functionMetadata. read_fields.
  - intros _. eexists. split; [reflexivity|]. rewrite <- (app_nil_r (put_u8 0)).
    unfold functionMetadata. read_fields. apply reads_ret.
Qed.

Lemma reads_class (m : option ClassMetadata) :
  option_ok class_ok m -> reads classMetadata (appendClassMetadata m) (kept_class <$> m).
Proof.
  destruct m as [[n d p f ms st i md dl dc]|]; cbn [option_ok].
  - intros (? & ? & ? & ? & ? & ? & ?).
    cbn [cm_Name cm_Doc cm_Parent cm_Fields cm_Methods cm_StaticMethods cm_Interfaces] in *.
    unfold appendClassMetadata, classMetadata, appendStringList, stringList.
    cbn [cm_Name cm_Doc cm_Parent cm_Fields cm_Methods cm_StaticMethods cm_Interfaces].
    read_fields.
  - intros _. unfold appendClassMetadata, classMetadata. rewrite <- (app_nil_r (put_u8 0)).
    read_fields. apply reads_ret.
Qed.

Definition variant_ok (v : EnumVariantDef) : Prop :=
  str16 (ev_Name v) = true /\ 0 <= ev_FieldCount v < 65536 /\ option_ok value_ok (ev_BackingValue v).

Lemma reads_variant (v : EnumVariantDef) :
  variant_ok v -> exists b, put_variant shuffle v = Ok b /\ reads (reading read_variant) b v.
Proof.
  destruct v as [n c [bv|]]; intros (? & Hc & Hb); cbn [ev_Name ev_FieldCount ev_BackingValue] in *;
    unfold put_variant, read_variant; cbn [ev_Name ev_FieldCount ev_BackingValue].
  - destruct (reads_value bv Hb) as (b & E & R). rewrite E. eexists. split; [reflexivity|].
    eapply reads_bind; [by apply reads_string|]. eapply reads_bind; [by apply reads_u16|].
    read_fields. eapply reads_bind_ret; [|reflexivity].
    by apply (reads_map (reading metadataValue) Some).
  - eexists. split; [reflexivity|]. eapply reads_bind; [by apply reads_string|].
    eapply reads_bind; [by apply reads_u16|]. rewrite <- (app_nil_r (put_u8 0)). read_fields.
    eapply reads_bind_ret; [apply reads_ret|reflexivity].
Qed.

Definition class_constant_ok (c : BytecodeClass) : Prop :=
  str16 (bc_Name c) = true /\ str16 (bc_Doc c) = true /\ is_int64 (bc_Index c) = true /\
  list_ok decorator_ok (bc_Decorators c) /\ map_ok (list_ok decorator_ok) (bc_MethodDecorators c) /\
  map_ok (list_ok decorator_ok) (bc_StaticDecorators c).

Definition enum_ok (e : EnumDef) : Prop :=
  str16 (en_Name e) = true /\ str16 (en_Module e) = true /\ str16 (en_BackingType e) = true /\
  list_ok variant_ok (en_Variants e) /\ strings_ok (en_Implements e) /\
  map_ok int64s_ok (en_MethodIndices e).

Definition target_ok (t : DecoratorTarget) : Prop :=
  str16 (dt_Target t) = true /\ option_ok function_ok (dt_Function t) /\
  option_ok class_ok (dt_Class t) /\ list_ok decorator_ok (dt_Decorators t).

(** The constants that come back. *)
Definition constant_ok (k : Constant) : Prop :=
  match k with
  | KValue v =>
      match v with
      | VType n => str16 n = true
      | VDict es => es = []
      | VList es => es = []
      | VSet es => es = []
      | VBytes l => text32 l = true
      | VPendingDefault => True
      | _ => scalar_ok v = true
      end
  | KDecoratorTarget t => target_ok t
  | KEnumDef e => enum_ok e
  | KClass c => class_constant_ok c
  end.

Lemma reads_class_constant (c : BytecodeClass) :
  class_constant_ok c ->
  exists b, put_class_constant shuffle c = Ok (put_u8 9 ++ b) /\
            reads (reading read_class_constant) b
              (class_value [] (bc_Name c) (bc_Doc c) (bc_Index c) (bc_Decorators c)
                 (bc_MethodDecorators c) (bc_StaticDecorators c)).
Proof.
  destruct c as [md n d i pa fs ifs decs ms st mm sm sc cm im raw dl dc]. intros (? & ? & ? & Hd & Hm & Hs).
  cbn [bc_Name bc_Doc bc_Index bc_Decorators bc_MethodDecorators bc_StaticDecorators] in *.
  destruct (reads_decorators _ Hd) as (b1 & E1 & R1).
  destruct (reads_decorator_map _ Hm) as (b2 & E2 & R2).
  destruct (reads_decorator_map _ Hs) as (b3 & E3 & R3).
  unfold put_class_constant. cbn [bc_Decorators bc_MethodDecorators bc_StaticDecorators].
  rewrite E1. cbn [res_bind]. rewrite E2. cbn [res_bind]. rewrite E3.
  eexists. split; [reflexivity|]. unfold read_class_constant. read_fields.
Qed.

Lemma reads_scalar_constant (v : Value) :
  scalar_ok v = true ->
  exists b, appendScalar v = Some b /\ reads (reading constant) b (KValue v).
Proof.
  intros Hv. destruct v; try discriminate Hv; cbn [scalar_ok appendScalar] in *;
    eexists; (split; [reflexivity|]); unfold constant.
  - rewrite <- (app_nil_r (put_u8 0)). read_fields. apply reads_ret.
  - apply reads_tag; [lia|]. apply (reads_map flag (fun b => KValue (VBool b))), reads_flag.
  - apply andb_true_iff in Hv as [H1 H2]. apply reads_tag; [lia|]. cbn [Z.eqb Pos.eqb].
    pose proof (reads_int i H2) as R. rewrite H1 in R. by apply (reads_map read_int KValue).
  - apply andb_true_iff in Hv as [H1 H2]. apply reads_tag; [lia|]. cbn [Z.eqb Pos.eqb].
    pose proof (reads_int i H2) as R. apply negb_true_iff in H1. rewrite H1 in R.
    by apply (reads_map read_int KValue).
  - apply andb_true_iff in Hv as [H1 H2]. apply reads_tag; [lia|]. cbn [Z.eqb Pos.eqb].
    by apply (reads_map (read_decimal RatSetString) KValue), reads_decimal.
  - apply reads_tag; [lia|]. cbn [Z.eqb Pos.eqb]. by apply (reads_map read_float KValue), reads_float.
  - apply reads_tag; [lia|]. cbn [Z.eqb Pos.eqb].
    by apply (reads_map read_text (fun s => KValue (VString s))), reads_text.
Qed.

(** Every encodable constant is read back, as far as the format keeps it. *)
Lemma reads_constant (k : Constant) :
  constant_ok k -> exists b, appendConstant shuffle k = Ok b /\ reads (reading constant) b (kept_constant k).
Proof.
  destruct k as [v|t|e|c]; cbn [constant_ok].
  - intros Hv. unfold appendConstant.
    destruct v; try discriminate Hv;
      try (destruct (reads_scalar_constant _ Hv) as (out & E & R); cbn [appendScalar] in *;
           injection E as <-; eexists; split; [reflexivity|exact R]);
      try (subst; eexists; split; [reflexivity|]);
      cbn [appendScalar]; try (eexists; split; [reflexivity|]); unfold constant;
      try (rewrite <- (app_nil_r (put_u8 _)); read_fields; apply reads_ret).
    apply reads_tag; [lia|]. cbn [Z.eqb Pos.eqb].
    by apply (reads_map read_text (fun l => KValue (VBytes l))), reads_text.
  - destruct t as [n decs f c cb]. intros (? & Hf & Hc & Hd).
    cbn [dt_Target dt_Function dt_Class dt_Decorators] in *.
    destruct (reads_function _ Hf) as (b1 & E1 & R1).
    destruct (reads_decorators _ Hd) as (b2 & E2 & R2). pose proof (reads_class _ Hc) as R3.
    unfold appendConstant. cbn [dt_Function dt_Decorators]. rewrite E1. cbn [res_bind]. rewrite E2.
    eexists. split; [reflexivity|]. unfold constant. read_fields.
  - destruct e as [n bt vs md im ms mi]. intros (? & ? & ? & Hv & ? & Hm).
    cbn [en_Name en_Module en_BackingType en_Variants en_Implements en_MethodIndices] in *.
    destruct (reads_results_ok _ _ _ _ reads_variant Hv) as (b1 & E1 & R1).
    destruct (reads_map_result shuffle Hshuffle int64s_ok (fun l => Ok (put_indices l)) read_indices mi)
      as (b2 & E2 & R2); [|done|].
    { intros l Hl. eexists. split; [reflexivity|]. by apply reads_int64s. }
    unfold appendConstant. cbn [en_Variants en_MethodIndices]. rewrite E1. cbn [res_bind].
    rewrite E2. eexists. split; [reflexivity|]. unfold constant. read_fields.
  - intros Hc. destruct (reads_class_constant c Hc) as (b & E & R).
    exists (put_u8 9 ++ b). split; [exact E|]. unfold constant.
    apply reads_tag; [lia|]. cbn [Z.eqb Pos.eqb]. by apply (reads_map (reading read_class_constant) KClass).
Qed.
End Records.

(** ** Termination *)

(** Proves that a composed reader only moves forward. *)
Ltac advance :=
  repeat match goal with
  | |- advances (rret _) => apply advances_ret
  | |- advances rpanic => apply advances_panic
  | |- advances rfuel => apply advances_fuel
  | |- advances (set_err _) => apply advances_set_err
  | |- advances (read _) => apply advances_read
  | |- advances (read_uint _) => apply advances_uint
  | |- advances (read_list _) => apply advances_list
  | |- advances (rbind _ _) => apply advances_bind; [|intros ?]
  | |- advances (match ?x with _ => _ end) => destruct x
  | |- advances (if ?x then _ else _) => destruct x
  | |- advances ?m => progress unfold u8, u16, u32, u64, flag, read_text, read_int, read_decimal,
                        read_float, key_read
  end; try done.

(** Proves that a composed reader does not exhaust its depth. *)
Ltac finishing :=
  repeat match goal with
  | |- finishes _ (rret _) => apply finishes_ret
  | |- finishes _ rpanic => apply finishes_panic
  | |- finishes _ (set_err _) => apply finishes_set_err
  | |- finishes _ (read _) => apply finishes_read
  | |- finishes _ (read_uint _) => apply finishes_uint
  | |- finishes _ (read_list _) => apply finishes_list
  | |- finishes _ (rbind _ _) => apply finishes_bind; [| |intros ?]
  | |- finishes _ (match ?x with _ => _ end) => destruct x
  | |- finishes _ (if ?x then _ else _) => destruct x
  | |- finishes _ ?m => first [assumption | progress unfold u8, u16, u32, u64, flag, read_text, read_int,
                        read_decimal, read_float, key_read]
  end; try solve [assumption | advance].

(** Proves that two readers composed of agreeing parts agree. *)
Ltac agreement :=
  repeat first
    [ apply readers_agree_refl
    | apply agree_list
    | apply agree_bind; [| |intros ?]
    | assumption
    | solve [advance] ].

Section Termination.
Context (FormatFloat_g : float64 -> gostring) (Quote : gostring -> gostring)
  (FormatPtr : Z -> gostring) (GoType : gostring -> gostring)
  (frozen : Z -> option (gostring * list (gostring * gostring))) (local : Z)
  (RatSetString : gostring -> option Q).

Abbreviation fuelled := (metadata_fuel FormatFloat_g Quote FormatPtr GoType frozen local RatSetString).

Lemma advances_metadata (fuel : nat) : advances (fuelled fuel).
Proof. induction fuel as [|fuel IH]; cbn [metadata_fuel]; advance. Qed.

Lemma metadata_fuel_agree (k : nat) (n m : nat) :
  (k <= n)%nat -> (k <= m)%nat -> agree (Z.of_nat k + 1) (fuelled (S n)) (fuelled (S m)).
Proof.
  revert n m. induction k as [|k IH]; intros n m Hn Hm r Hr.
  - cbn [metadata_fuel]. unfold rbind. destruct (u8 r) as [[r1 tag]| |] eqn:E; [|done..].
    destruct (u8_progress 0 r r1 tag) as [H0 [He| ->]]; [exact Hr|done| |done].
    destruct H0 as [Hi [?|?]]; [done|]. unfold in_file in Hi. lia.
  - destruct n as [|n]; [lia|]. destruct m as [|m]; [lia|].
    pose proof (IH n m ltac:(lia) ltac:(lia)) as A.
    pose proof (advances_metadata (S m)) as P.
    remember (S n) as n1 eqn:En. remember (S m) as m1 eqn:Em. clear En Em IH.
    cbn [metadata_fuel]. rewrite Nat2Z.inj_succ in Hr. change (Z.succ (Z.of_nat k)) with (Z.of_nat k + 1) in Hr.
    revert r Hr. apply agree_tag. intros tag.
    repeat match goal with |- agree _ (if ?c then _ else _) _ => destruct c end; agreement.
Qed.

Lemma metadata_finishes (n : nat) : finishes (Z.of_nat n + 1) (fuelled (S n)).
Proof.
  induction n as [|n IH].
  - intros r Hr. cbn [metadata_fuel]. unfold rbind. pose proof (finishes_uint _ 1 r Hr) as N. unfold u8.
    destruct (read_uint 1 r) as [[r1 tag]| |] eqn:E; [|done..].
    destruct (u8_progress 0 r r1 tag) as [H0 [He| ->]]; [exact Hr|done| |done].
    destruct H0 as [Hi [?|?]]; [done|]. unfold in_file in Hi. lia.
  - rewrite Nat2Z.inj_succ. change (Z.succ (Z.of_nat n)) with (Z.of_nat n + 1).
    pose proof (advances_metadata (S n)) as P. remember (S n) as n1 eqn:En. clear En.
    cbn [metadata_fuel]. apply finishes_tag. intros tag.
    repeat match goal with |- finishes _ (if ?c then _ else _) => destruct c end; finishing.
Qed.

Lemma ends_metadata : ends (metadataValue FormatFloat_g Quote FormatPtr GoType frozen local RatSetString).
Proof.
  split; [intros r r' v Hr; apply (advances_metadata _ r r' v Hr)|].
  intros r Hr. unfold metadataValue. apply (metadata_finishes (length (data r)) r).
  split; [done|]. right. unfold in_file, zlen in *. lia.
Qed.

(** C32: reading a decorator argument terminates on every file, however its
    bytes are damaged.  A Go panic and an exhausted recursion depth are
    different outcomes of a reader: [metadataValue], whose depth is the number
    of bytes of the file and one, never exhausts it, from no state inside the
    file; nor does any definition with a larger depth, and all of them give the
    same outcome.  When the reader returns, it is still inside the file and has
    not moved back. *)
Theorem metadata_terminates (r : byteReader) (fuel : nat) :
  in_file r -> (length (data r) < fuel)%nat ->
  fuelled fuel r <> OutOfFuel /\
  metadataValue FormatFloat_g Quote FormatPtr GoType frozen local RatSetString r <> OutOfFuel /\
  fuelled fuel r = metadataValue FormatFloat_g Quote FormatPtr GoType frozen local RatSetString r /\
  forall r' v, fuelled fuel r = Returned (r', v) -> follows r r'.
Proof.
  intros Hr Hf. unfold metadataValue.
  assert (Hw : forall n, (length (data r) <= n)%nat -> within (Z.of_nat n + 1) r).
  { intros n Hn. split; [done|]. right. unfold in_file, zlen in *. lia. }
  assert (Hdone : forall n, (length (data r) < n)%nat -> fuelled n r <> OutOfFuel).
  { intros [|n] Hn; [lia|]. apply metadata_finishes, Hw. lia. }
  destruct fuel as [|fuel]; [lia|]. split_and!.
  - by apply Hdone.
  - apply Hdone. lia.
  - apply (metadata_fuel_agree (length (data r))); [lia|lia|]. by apply Hw.
  - intros r' v E. by eapply advances_metadata.
Qed.
End Termination.

(** A list cut off after its count of three. *)
Lemma metadata_terminates_witness :
  let r := mkReader [Byte.x07; Byte.x00; Byte.x03; Byte.x01] 0 None in
  let fuelled n := metadata_fuel (fun _ => []) (fun s => s) FormatInt (fun s => s) (fun _ => None) 0
                     (fun _ => None) n in
  let whole := metadataValue (fun _ => []) (fun s => s) FormatInt (fun s => s) (fun _ => None) 0
                 (fun _ => None) in
  fuelled 9%nat r <> OutOfFuel /\ whole r <> OutOfFuel /\ fuelled 9%nat r = whole r /\
  (forall r' v, fuelled 9%nat r = Returned (r', v) -> follows r r').
Proof.
  apply metadata_terminates; [split; vm_compute; discriminate|cbn; lia].
Defined.

(** The source position of a decorated function is lost: its reflection target,
    at line 4 and column 1 when it is written, is read back at line and column 0,
    for which the machine's [reflect.location] returns null. *)
Theorem location_lost (FormatFloat_g : float64 -> gostring) (Quote : gostring -> gostring)
    (FormatPtr : Z -> gostring) (GoType : gostring -> gostring)
    (frozen : Z -> option (gostring * list (gostring * gostring))) (local : Z)
    (RatSetString : gostring -> option Q) :
  let target line column :=
    KDecoratorTarget (mkDecoratorTarget (bs "function") []
      (Some (mkFunctionMetadata (bs "handler") (bs "function") [] [] [] [] false false [] [] line column))
      None None) in
  exists b,
    appendConstant (fun _ l => l) (target 4 1) = Ok b /\
    constant FormatFloat_g Quote FormatPtr GoType frozen local RatSetString (mkReader b 0 None)
    = Returned (mkReader b (zlen b) None, target 0 0).
Proof. eexists. split; [vm_compute; reflexivity|]. vm_compute. reflexivity. Qed.

(** A dict in a decorator argument loses its insertion order: the entries [b],
    [a] come back as [a], [b]. *)
Theorem dict_order_lost (FormatFloat_g : float64 -> gostring) (Quote : gostring -> gostring)
    (FormatPtr : Z -> gostring) (GoType : gostring -> gostring)
    (frozen : Z -> option (gostring * list (gostring * gostring))) (local : Z)
    (RatSetString : gostring -> option Q) :
  let entry name := (bs "s" ++ bs name, (VString (bs name), VSmallInt 1)) in
  exists b,
    appendMetadataValue (fun _ l => l) (VDict [entry "b"%string; entry "a"%string]) = Ok b /\
    metadataValue FormatFloat_g Quote FormatPtr GoType frozen local RatSetString (mkReader b 0 None)
    = Returned (mkReader b (zlen b) None, VDict [entry "a"%string; entry "b"%string]).
Proof. eexists. split; [vm_compute; reflexivity|]. vm_compute. reflexivity. Qed.
