(* ===== verification/Codec.v ===== *)
(** * Codec: the bytecode file format

    [Chunk] with its function, class, interface and export tables, and
    [Encode] and [Decode] (src/internal/bytecode/bytecode.go).  The chunk's
    private caches (the operand pool's capacity, prepared call metadata) are
    rebuilt after decoding and are not part of the model. *)

From Stdlib Require Import QArith.
From stdpp Require Import sorting.
From S2P Require Import Prelude Float64 GoText Literal Value Ops DictKey ByteIO Metadata.
#[local] Open Scope Z_scope.

(** ** Data *)

Definition Magic : gostring := bs "GEBBC".
Definition Version : Z := 92.

(** [FunctionInfo]. *)
Record FunctionInfo := mkFunctionInfo {
  fi_Name : gostring; fi_Doc : gostring; fi_TypeParameters : list gostring;
  fi_TypeParamConstraintExprs : list gostring; fi_Entry : Z; fi_ParamNames : list gostring;
  fi_ParamDisplayNames : list gostring; fi_ParamSlots : list Z; fi_ParamTypes : list gostring;
  fi_ParamDisplayTypes : list gostring; fi_ParamDecorators : list (list DecoratorMetadata);
  fi_ReturnType : gostring; fi_ReturnCheckType : gostring; fi_DefaultConstants : list Z;
  fi_UpvalueCount : Z; fi_LocalCount : Z; fi_Variadic : bool; fi_Async : bool;
  fi_IsGenerator : bool; fi_SharesParentFrame : bool; fi_DefLine : Z; fi_DefColumn : Z;
  fi_Decorators : list DecoratorMetadata }.

(** [ClassInfo]. *)
Record ClassInfo := mkClassInfo {
  ci_Name : gostring; ci_Doc : gostring; ci_ParentIndex : Z; ci_ParentName : gostring;
  ci_ParentArguments : list gostring; ci_TypeParameters : list gostring;
  ci_TypeParamConstraintExprs : list gostring; ci_FieldNames : list gostring;
  ci_FieldTypes : list gostring; ci_FieldCheckTypes : list gostring; ci_FieldDocs : list gostring;
  ci_FieldDecorators : list (list DecoratorMetadata); ci_FieldDefaults : list Z;
  ci_FieldDefaultFuncs : list Z; ci_ConstructorIndices : list Z; ci_DestructorIndex : Z;
  ci_Methods : gmap gostring (list Z); ci_StaticValues : gmap gostring Z;
  ci_StaticTypes : gmap gostring gostring; ci_StaticMethods : gmap gostring (list Z);
  ci_Implements : list gostring; ci_Decorators : list DecoratorMetadata;
  ci_MethodDecorators : gmap gostring (list DecoratorMetadata);
  ci_StaticDecorators : gmap gostring (list DecoratorMetadata);
  ci_Immutable : bool; ci_ImmutableFields : list gostring; ci_DefLine : Z; ci_DefColumn : Z }.

(** [InterfaceInfo], [ExportInfo], [EmbedRecord]. *)
Record InterfaceInfo := mkInterfaceInfo {
  ii_Name : gostring; ii_Doc : gostring; ii_TypeParameters : list gostring;
  ii_Parents : list gostring; ii_Methods : list FunctionMetadata; ii_Defaults : gmap gostring Z;
  ii_Fields : list gostring; ii_FieldTypes : list gostring }.

Record ExportInfo := mkExportInfo {
  ex_Name : gostring; ex_Slot : Z; ex_FunctionIndex : Z; ex_ClassIndex : Z;
  ex_InterfaceIndex : Z; ex_OverloadIndices : list Z }.

Record EmbedRecord := mkEmbed { em_Path : gostring; em_Hash : list byte }.

(** [Chunk]. *)
Record Chunk := mkChunk {
  ch_SourceHash : list byte; ch_Compiler : gostring; ch_Constants : list Constant;
  ch_Instructions : list Instruction; ch_Functions : list FunctionInfo;
  ch_Classes : list ClassInfo; ch_Interfaces : list InterfaceInfo; ch_Exports : list ExportInfo;
  ch_TopLevelLocalCount : Z; ch_GlobalCount : Z; ch_GlobalNames : list gostring;
  ch_Embeds : list EmbedRecord; ch_ModuleAliases : gmap gostring gostring;
  ch_FromImports : gmap gostring gostring; ch_TypeAliasDeps : gmap gostring gostring }.



(** [Chunk.consolidateOperands]: every operand list becomes a slice of one
    pool. *)
Fixpoint consolidate (pool : list Z) (l : list Instruction) : list Instruction :=
  match l with
  | [] => []
  | ins :: l' =>
      if zlen (Operands ins) =? 0 then ins :: consolidate pool l'
      else
        let start := length pool in
        let pool' := pool ++ Operands ins in
        mkInstruction (take (length (Operands ins)) (drop start pool')) (op_byte ins) (Column ins)
          (Line ins) :: consolidate pool' l'
  end.
Definition consolidateOperands (l : list Instruction) : list Instruction := consolidate [] l.

(** A field of a class as it is written: one row of six lists. *)
Record FieldRow := mkFieldRow {
  fr_Name : gostring; fr_Default : Z; fr_DefaultFunc : Z; fr_Type : gostring;
  fr_CheckType : gostring; fr_Doc : gostring }.


Section Codec.
Context (FormatFloat_g : float64 -> gostring) (Quote : gostring -> gostring)
  (FormatPtr : Z -> gostring) (GoType : gostring -> gostring)
  (frozen : Z -> option (gostring * list (gostring * gostring))) (local : Z)
  (RatSetString : gostring -> option Q)
  (shuffle : forall A : Type, list A -> list A)
  (ToLower : gostring -> gostring).

Abbreviation reading f := (f FormatFloat_g Quote FormatPtr GoType frozen local RatSetString).

(** ** [Encode] *)

Definition put_instruction (i : Instruction) : list byte :=
  put_u8 (op_byte i) ++ put_u16 (Line i) ++ put_u16 (Column i)
  ++ put_list put_u64 (Operands i).









(** ** [Decode] *)

Definition read_instruction : rdM Instruction :=
  rd op <- u8; rd line <- u16; rd column <- u16; rd operands <- read_list i64;
  rret (mkInstruction operands op column line).

(** [strings.ToLower(string(r.read(...)))]. *)
Definition read_lower : rdM gostring := rd s <- read_string; rret (ToLower s).

Definition read_function : rdM FunctionInfo :=
  rd name <- read_string; rd doc <- read_string; rd typeParams <- read_list read_string;
  rd constraints <- read_list read_string; rd entry <- i64;
  rd paramNames <- read_list read_lower; rd displayNames <- read_list read_string;
  rd slots <- read_list i64; rd types <- read_list read_string;
  rd displayTypes <- read_list read_string; rd paramDecs <- read_list (reading decoratorMetadata);
  rd returnType <- read_string; rd returnCheck <- read_string; rd defaults <- read_list i64;
  rd upvalues <- i64; rd locals <- i64; rd variadic <- flag; rd async <- flag;
  rd generator <- flag; rd shares <- flag; rd line <- i64; rd column <- i64;
  rd decs <- reading decoratorMetadata;
  rret (mkFunctionInfo name doc typeParams constraints entry paramNames displayNames slots types
          displayTypes paramDecs returnType returnCheck defaults upvalues locals variadic async
          generator shares line column decs).

Definition read_row : rdM FieldRow :=
  rd name <- read_string; rd dflt <- i64; rd func <- i64; rd type <- read_string;
  rd check <- read_string; rd doc <- read_string;
  rret (mkFieldRow name dflt func type check doc).

(** The method tables: names are lowercased as they are read. *)
Definition read_methods : rdM (gmap gostring (list Z)) :=
  rd l <- read_list (rd name <- read_lower; rd indices <- read_indices; rret (name, indices));
  rret (fill_map l).

Definition read_class : rdM ClassInfo :=
  rd name <- read_string; rd doc <- read_string; rd parent <- read_string; rd parentIndex <- i64;
  rd parentArgs <- read_list read_string; rd typeParams <- read_list read_string;
  rd constraints <- read_list read_string; rd rows <- read_list read_row;
  rd constructors <- read_list i64; rd destructor <- i64; rd methods <- read_methods;
  rd staticValues <- read_map i64; rd staticTypes <- read_map read_string;
  rd staticMethods <- read_methods; rd implements <- read_list read_string;
  rd decs <- reading decoratorMetadata; rd methodDecs <- reading decoratorMetadataMap;
  rd staticDecs <- reading decoratorMetadataMap;
  rd fieldDecs <- read_list (reading decoratorMetadata); rd immutable <- flag;
  rd immutableFields <- read_list read_string; rd line <- i64; rd column <- i64;
  rret (mkClassInfo name doc parentIndex parent parentArgs typeParams constraints
          (map fr_Name rows) (map fr_Type rows) (map fr_CheckType rows) (map fr_Doc rows) fieldDecs
          (map fr_Default rows) (map fr_DefaultFunc rows) constructors destructor methods
          staticValues staticTypes staticMethods implements decs methodDecs staticDecs immutable
          immutableFields line column).

Definition read_interface : rdM InterfaceInfo :=
  rd name <- read_string; rd doc <- read_string; rd typeParams <- read_list read_string;
  rd parents <- read_list read_string; rd methods <- read_list (reading functionMetadata);
  rd defaults <- read_map i64; rd rows <- read_list (read_pair read_string);
  rret (mkInterfaceInfo name doc typeParams parents (omap (fun m => m) methods) defaults
          (map fst rows) (map snd rows)).

Definition read_export : rdM ExportInfo :=
  rd name <- read_string; rd slot <- i64; rd functionIndex <- i64; rd classIndex <- i64;
  rd interfaceIndex <- i64; rd overloads <- read_list i64;
  rret (mkExportInfo name slot functionIndex classIndex interfaceIndex overloads).

(** [copy(hash[:], r.read(32))]: zeros where nothing was read. *)
Definition read_hash : rdM (list byte) :=
  rd l <- read 32; rret (take 32 (l ++ replicate 32 Byte.x00)).

Definition read_embed : rdM EmbedRecord :=
  rd path <- read_string; rd hash <- read_hash; rret (mkEmbed path hash).

Definition read_chunk : rdM Chunk :=
  rd hash <- read_hash; rd compiler <- read_string; rd locals <- i64; rd globals <- i64;
  rd globalNames <- read_list32 read_string;
  rd constants <- read_list32 (reading constant);
  rd instructions <- read_list32 read_instruction;
  rd functions <- read_list32 read_function;
  rd classes <- read_list32 read_class;
  rd interfaces <- read_list32 read_interface;
  rd exports <- read_list read_export;
  rd embeds <- read_list read_embed;
  rd aliases <- stringMap; rd imports <- stringMap; rd deps <- stringMap;
  rret (mkChunk hash compiler constants instructions functions classes interfaces exports locals
          globals globalNames embeds aliases imports deps).

Definition with_instructions (c : Chunk) (l : list Instruction) : Chunk :=
  mkChunk (ch_SourceHash c) (ch_Compiler c) (ch_Constants c) l (ch_Functions c) (ch_Classes c)
    (ch_Interfaces c) (ch_Exports c) (ch_TopLevelLocalCount c) (ch_GlobalCount c)
    (ch_GlobalNames c) (ch_Embeds c) (ch_ModuleAliases c) (ch_FromImports c) (ch_TypeAliasDeps c).

(** [Decode]; [Panicked] is a Go panic. *)
Definition Decode (input : list byte) : outcome (result gostring Chunk) :=
  match read (zlen Magic) (mkReader input 0 None) with
  | Panicked => Panicked
  | OutOfFuel => OutOfFuel
  | Returned (r, magic) =>
      if decide (magic <> Magic) then Returned (Err (bs "invalid bytecode magic"))
      else
        match u16 r with
        | Panicked => Panicked
        | OutOfFuel => OutOfFuel
        | Returned (r, version) =>
            if negb (version =? Version)
            then Returned (Err (bs "unsupported bytecode version " ++ FormatInt version))
            else
              match read_chunk r with
              | Panicked => Panicked
              | OutOfFuel => OutOfFuel
              | Returned (r, chunk) =>
                  match err r with
                  | Some e => Returned (Err e)
                  | None =>
                      if negb (pos r =? zlen input) then Returned (Err (bs "trailing bytecode data"))
                      else Returned (Ok (with_instructions chunk
                                           (consolidateOperands (ch_Instructions chunk))))
                  end
              end
        end
  end.
End Codec.

(** ** What can be written and read back *)

Section RoundTrip.
Context (FormatFloat_g : float64 -> gostring) (Quote : gostring -> gostring)
  (FormatPtr : Z -> gostring) (GoType : gostring -> gostring)
  (frozen : Z -> option (gostring * list (gostring * gostring))) (local : Z)
  (RatSetString : gostring -> option Q)
  (shuffle : forall A : Type, list A -> list A)
  (ToLower : gostring -> gostring).
Hypothesis Hshuffle : forall (A : Type) (l : list A), shuffle A l ≡ₚ l.
Hypothesis HRat : forall q, q_reduced q = true -> RatSetString (RatString q) = Some q.

Abbreviation reading f := (f FormatFloat_g Quote FormatPtr GoType frozen local RatSetString).
Abbreviation decorators_ok :=
  (list_ok (decorator_ok FormatFloat_g Quote FormatPtr GoType frozen local)).
Abbreviation known f := (f FormatFloat_g Quote FormatPtr GoType frozen local).

Definition instruction_ok (i : Instruction) : Prop :=
  0 <= op_byte i < 256 /\ 0 <= Line i < 65536 /\ 0 <= Column i < 65536 /\ int64s_ok (Operands i).

(** Lowercased names, as the compiler stores them. *)
Definition lower_ok (l : list gostring) : Prop :=
  list_ok (fun s => str16 s = true /\ ToLower s = s) l.

Definition function_info_ok (f : FunctionInfo) : Prop :=
  str16 (fi_Name f) = true /\ str16 (fi_Doc f) = true /\ strings_ok (fi_TypeParameters f) /\
  strings_ok (fi_TypeParamConstraintExprs f) /\ is_int64 (fi_Entry f) = true /\
  lower_ok (fi_ParamNames f) /\ strings_ok (fi_ParamDisplayNames f) /\
  int64s_ok (fi_ParamSlots f) /\ strings_ok (fi_ParamTypes f) /\
  strings_ok (fi_ParamDisplayTypes f) /\ list_ok decorators_ok (fi_ParamDecorators f) /\
  str16 (fi_ReturnType f) = true /\ str16 (fi_ReturnCheckType f) = true /\
  int64s_ok (fi_DefaultConstants f) /\ is_int64 (fi_UpvalueCount f) = true /\
  is_int64 (fi_LocalCount f) = true /\ is_int64 (fi_DefLine f) = true /\
  is_int64 (fi_DefColumn f) = true /\ decorators_ok (fi_Decorators f).

Definition methods_ok (m : gmap gostring (list Z)) : Prop :=
  map_ok int64s_ok m /\ forall k v, m !! k = Some v -> ToLower k = k.

(** The field tables are parallel to the field names. *)
Definition fields_ok (c : ClassInfo) : Prop :=
  let n := length (ci_FieldNames c) in
  strings_ok (ci_FieldNames c) /\
  (length (ci_FieldDefaults c) = n /\ int64s_ok (ci_FieldDefaults c)) /\
  (length (ci_FieldDefaultFuncs c) = n /\ int64s_ok (ci_FieldDefaultFuncs c)) /\
  (length (ci_FieldTypes c) = n /\ strings_ok (ci_FieldTypes c)) /\
  (length (ci_FieldCheckTypes c) = n /\ strings_ok (ci_FieldCheckTypes c)) /\
  (length (ci_FieldDocs c) = n /\ strings_ok (ci_FieldDocs c)).

Definition class_info_ok (c : ClassInfo) : Prop :=
  str16 (ci_Name c) = true /\ str16 (ci_Doc c) = true /\ str16 (ci_ParentName c) = true /\
  is_int64 (ci_ParentIndex c) = true /\ strings_ok (ci_ParentArguments c) /\
  strings_ok (ci_TypeParameters c) /\ strings_ok (ci_TypeParamConstraintExprs c) /\
  fields_ok c /\ int64s_ok (ci_ConstructorIndices c) /\ is_int64 (ci_DestructorIndex c) = true /\
  methods_ok (ci_Methods c) /\ map_ok (fun z => is_int64 z = true) (ci_StaticValues c) /\
  map_ok (fun s => str16 s = true) (ci_StaticTypes c) /\ methods_ok (ci_StaticMethods c) /\
  strings_ok (ci_Implements c) /\ decorators_ok (ci_Decorators c) /\
  map_ok decorators_ok (ci_MethodDecorators c) /\ map_ok decorators_ok (ci_StaticDecorators c) /\
  list_ok decorators_ok (ci_FieldDecorators c) /\ strings_ok (ci_ImmutableFields c) /\
  is_int64 (ci_DefLine c) = true /\ is_int64 (ci_DefColumn c) = true.

Definition interface_info_ok (i : InterfaceInfo) : Prop :=
  str16 (ii_Name i) = true /\ str16 (ii_Doc i) = true /\ strings_ok (ii_TypeParameters i) /\
  strings_ok (ii_Parents i) /\ list_ok (known function_ok) (ii_Methods i) /\
  map_ok (fun z => is_int64 z = true) (ii_Defaults i) /\ strings_ok (ii_Fields i) /\
  length (ii_FieldTypes i) = length (ii_Fields i) /\ strings_ok (ii_FieldTypes i).

Definition export_ok (e : ExportInfo) : Prop :=
  str16 (ex_Name e) = true /\ is_int64 (ex_Slot e) = true /\ is_int64 (ex_FunctionIndex e) = true /\
  is_int64 (ex_ClassIndex e) = true /\ is_int64 (ex_InterfaceIndex e) = true /\
  int64s_ok (ex_OverloadIndices e).

Definition embed_ok (e : EmbedRecord) : Prop :=
  str16 (em_Path e) = true /\ length (em_Hash e) = 32%nat.

Definition list32_ok {A : Type} (P : A -> Prop) (l : list A) : Prop :=
  zlen l < 2 ^ 32 /\ forall a, a ∈ l -> P a.

Definition chunk_ok (c : Chunk) : Prop :=
  length (ch_SourceHash c) = 32%nat /\ str16 (ch_Compiler c) = true /\
  list32_ok (known constant_ok) (ch_Constants c) /\ list32_ok instruction_ok (ch_Instructions c) /\
  list32_ok function_info_ok (ch_Functions c) /\ list32_ok class_info_ok (ch_Classes c) /\
  list32_ok interface_info_ok (ch_Interfaces c) /\ list_ok export_ok (ch_Exports c) /\
  is_int64 (ch_TopLevelLocalCount c) = true /\ is_int64 (ch_GlobalCount c) = true /\
  list32_ok (fun s => str16 s = true) (ch_GlobalNames c) /\ list_ok embed_ok (ch_Embeds c) /\
  str16_map str16 (ch_ModuleAliases c) = true /\ str16_map str16 (ch_FromImports c) = true /\
  str16_map str16 (ch_TypeAliasDeps c) = true.

(** ** Tables *)






#[local] Transparent put_map.
#[local] Opaque put_map.



















End RoundTrip.

(** ** Termination *)

(** Proves that a composed reader moves forward and ends. *)
Ltac ending :=
  repeat match goal with
  | |- ends (rret _) => apply ends_ret
  | |- ends rpanic => apply ends_panic
  | |- ends (set_err _) => apply ends_set_err
  | |- ends (read _) => apply ends_read
  | |- ends (read_uint _) => apply ends_uint
  | |- ends (read_list _) => apply ends_list
  | |- ends (read_list32 _) => apply ends_list32
  | |- ends (metadataValue _ _ _ _ _ _ _) => apply ends_metadata
  | |- ends (rbind _ _) => apply ends_bind; [|intros ?]
  | |- ends (match ?x with _ => _ end) => destruct x
  | |- ends (if ?x then _ else _) => destruct x
  | |- ends ?m => let h := get_head m in progress unfold h
  end.

(** Decoding ends on every input: a file, an error or a Go panic, but never for
    want of recursion depth. *)
Theorem Decode_terminates (ff : float64 -> gostring) (quote : gostring -> gostring)
    (ptr : Z -> gostring) (gotype : gostring -> gostring)
    (frozen : Z -> option (gostring * list (gostring * gostring))) (local : Z)
    (RatSetString : gostring -> option Q) (ToLower : gostring -> gostring) (input : list byte) :
  Decode ff quote ptr gotype frozen local RatSetString ToLower input <> OutOfFuel.
Proof.
  assert (Hc : ends (read_chunk ff quote ptr gotype frozen local RatSetString ToLower))
    by (unfold read_chunk; ending).
  pose proof (ends_read (zlen Magic)) as [Am Hm]. pose proof (ends_uint 2) as [Av Hv].
  unfold Decode, u16. set (r0 := mkReader input 0 None).
  assert (H0 : in_file r0) by (split; [done|apply zlen_nonneg]).
  specialize (Hm r0 H0). destruct (read (zlen Magic) r0) as [[r1 magic]| |] eqn:E1; [|done..].
  pose proof (follows_in_file _ _ H0 (Am _ _ _ H0 E1)) as H1.
  destruct (decide _); [done|].
  specialize (Hv r1 H1). destruct (read_uint 2 r1) as [[r2 version]| |] eqn:E2; [|done..].
  pose proof (follows_in_file _ _ H1 (Av _ _ _ H1 E2)) as H2.
  destruct (negb _); [done|]. apply Hc in H2.
  destruct (read_chunk _ _ _ _ _ _ _ _ r2) as [[r3 chunk]| |]; [|done..].
  destruct (err r3); [done|]. by destruct (negb _).
Qed.

(** ** The format *)







(** Checks a concrete table against its predicate. *)
Ltac check_ok :=
  repeat first
    [ reflexivity
    | progress unfold chunk_ok, instruction_ok, export_ok, int64s_ok, strings_ok, list_ok, list32_ok
    | match goal with
      | |- _ /\ _ => split
      | |- forall a, a ∈ _ -> _ => let H := fresh in intros ? H; destruct_members H
      end
    | cbn; lia ].


(** A file cut off inside an integer constant makes the decoder panic on a
    nil [big.Int] instead of reporting the truncation. *)
Theorem truncated_integer_panics (ff : float64 -> gostring) (quote : gostring -> gostring)
    (ptr : Z -> gostring) (gotype : gostring -> gostring)
    (frozen : Z -> option (gostring * list (gostring * gostring))) (local : Z)
    (RatSetString : gostring -> option Q) (ToLower : gostring -> gostring) :
  Decode ff quote ptr gotype frozen local RatSetString ToLower
    (Magic ++ put_u16 Version ++ replicate 32 Byte.x00 ++ appendString [] ++ put_u64 0 ++ put_u64 0
     ++ put_u32 0 ++ put_u32 1 ++ put_u8 2) = Panicked.
Proof. vm_compute. reflexivity. Qed.

(** The line of an instruction is kept modulo 65536: a chunk compiled from a
    longer source reports wrapped line numbers after a round trip. *)
Theorem instruction_line_wraps (i : Instruction) (line : Z) :
  instruction_ok i ->
  reads read_instruction (put_instruction (mkInstruction (Operands i) (op_byte i) (Column i) line))
    (mkInstruction (Operands i) (op_byte i) (Column i) (line mod 65536)).
Proof.
  destruct i as [ops op co ln]. intros (H1 & H2 & H3 & H4). cbn [Operands op_byte Line Column] in *.
  unfold read_instruction, put_instruction. cbn [Operands op_byte Line Column].
  apply reads_tag; [done|]. eapply reads_bind; [exact (reads_uint 2 line)|].
  eapply reads_bind; [by apply reads_u16|]. read_fields.
Qed.

Lemma instruction_line_wraps_witness :
  reads read_instruction (put_instruction (mkInstruction [3] 1 0 65537)) (mkInstruction [3] 1 0 1).
Proof.
  apply (instruction_line_wraps (mkInstruction [3] 1 0 0)).
  check_ok.
Defined.
