(* ===== verification/Pool.v ===== *)
(** * Pool: the bounded-concurrency pool

    The pool that caps the handlers in flight of the HTTP and TCP servers
    (src/internal/concurrent/pool.go).  Two buffered channels and three atomic
    counters are shared by any number of goroutines.  One step of a goroutine
    is one [select], one channel operation or one [atomic.Int64.Add]; the steps
    of different goroutines interleave as a schedule says, and a schedule also
    says when a context is cancelled. *)

From S2P Require Import Prelude.
#[local] Open Scope Z_scope.

(** ** The pool *)

(** A buffered [chan struct{}]: how many tokens it holds, of how many. *)
Record chan := mkChan { buffered : Z; capacity : Z }.

(** A send or a receive that is ready, and [None] where it would block. *)
Definition try_send (ch : chan) : option chan :=
  if buffered ch <? capacity ch then Some (mkChan (buffered ch + 1) (capacity ch)) else None.
Definition try_recv (ch : chan) : option chan :=
  if 0 <? buffered ch then Some (mkChan (buffered ch - 1) (capacity ch)) else None.

(** [OverloadPolicy]. *)
Inductive OverloadPolicy := Reject | Wait | Drop.

#[global] Instance OverloadPolicy_eq_dec : EqDecision OverloadPolicy.
Proof. solve_decision. Defined.

(** [Pool]; [None] is a nil channel. *)
Record Pool := mkPool {
  slots : option chan; queue : option chan; policy : OverloadPolicy; max : Z;
  active : Z; queued : Z; rejected : Z }.

(** [NewPool]. *)
Definition NewPool (maxConcurrent queueSize : Z) (policy : OverloadPolicy) : Pool :=
  if maxConcurrent <=? 0 then mkPool None None policy 0 0 0 0
  else
    let queueSize := if queueSize <? 0 then 0 else queueSize in
    mkPool (Some (mkChan 0 maxConcurrent))
      (if 0 <? queueSize then Some (mkChan 0 queueSize) else None) policy maxConcurrent 0 0 0.

(** [Pool.IsUnbounded] (the pool is not nil). *)
Definition IsUnbounded (p : Pool) : bool := match slots p with None => true | Some _ => false end.

(** [ParsePolicy], [Pool.Policy] and [Pool.Stats]. *)
Definition ParsePolicy (s : gostring) : OverloadPolicy :=
  if decide (s = bs "wait") then Wait else if decide (s = bs "drop") then Drop else Reject.
Record PoolStats := mkStats { st_Active : Z; st_Queued : Z; st_Rejected : Z; st_MaxConcurrent : Z }.
Definition Stats (p : Pool) : PoolStats := mkStats (active p) (queued p) (rejected p) (max p).

Definition with_slots (ch : chan) (p : Pool) : Pool :=
  mkPool (Some ch) (queue p) (policy p) (max p) (active p) (queued p) (rejected p).
Definition with_queue (ch : chan) (p : Pool) : Pool :=
  mkPool (slots p) (Some ch) (policy p) (max p) (active p) (queued p) (rejected p).

(** [p.active.Add(d)] and the other counters, [atomic.Int64]. *)
Definition add_active (d : Z) (p : Pool) : Pool :=
  mkPool (slots p) (queue p) (policy p) (max p) (wrap64 (active p + d)) (queued p) (rejected p).
Definition add_queued (d : Z) (p : Pool) : Pool :=
  mkPool (slots p) (queue p) (policy p) (max p) (active p) (wrap64 (queued p + d)) (rejected p).
Definition add_rejected (d : Z) (p : Pool) : Pool :=
  mkPool (slots p) (queue p) (policy p) (max p) (active p) (queued p) (wrap64 (rejected p + d)).

(** ** A goroutine that uses the pool *)

(** What [Acquire] returns: nil, [ErrOverloaded], [ctx.Err()]. *)
Inductive outcome := Acquired | Overloaded | Cancelled.

#[global] Instance outcome_eq_dec : EqDecision outcome.
Proof. solve_decision. Defined.

(** The next action of a goroutine. *)
Inductive pc :=
| Idle                   (* about to call [Acquire] *)
| Acquiring              (* the first select *)
| Waiting                (* the select of the [Wait] policy *)
| Trying                 (* the select that enters the queue *)
| Rejecting              (* [p.rejected.Add(1)] *)
| Counting               (* [p.queued.Add(1)] *)
| Queuing                (* the select of a queued caller *)
| Granted (queued : bool) (* [p.active.Add(1)], with the deferred exit from the queue *)
| Leaving (granted : bool) (* the deferred [<-p.queue] *)
| Left (granted : bool)  (* the deferred [p.queued.Add(-1)] *)
| Holding                (* [Acquire] returned nil: the handler runs *)
| Releasing              (* the select of [Release] *)
| Freed.                 (* [p.active.Add(-1)] *)

#[global] Instance pc_eq_dec : EqDecision pc.
Proof. solve_decision. Defined.

(** [Go] takes the goroutine's next step, [Cancel] the [ctx.Done()] case of its
    select. *)
Inductive choice := Go | Cancel.

(** What a queued caller returns, and what it does next. *)
Definition result_of (granted : bool) : outcome := if granted then Acquired else Cancelled.
Definition after (granted : bool) : pc := if granted then Holding else Idle.

(** One step of [Acquire] or [Release]: the pool, the next action and the
    outcome if [Acquire] returns.  [None] blocks. *)
Definition thread_step (p : Pool) (t : pc) (c : choice) : option (Pool * pc * option outcome) :=
  match t, c with
  | Idle, Go => Some (p, Acquiring, None)
  | Acquiring, Go =>
      match slots p with
      | None => Some (p, Holding, Some Acquired)
      | Some s =>
          match try_send s with
          | Some s' => Some (with_slots s' p, Granted false, None)
          | None =>
              if decide (policy p = Wait) then Some (p, Waiting, None)
              else match queue p with
                   | None => Some (p, Rejecting, None)
                   | Some _ => Some (p, Trying, None)
                   end
          end
      end
  | Waiting, Go =>
      s ← slots p; s' ← try_send s; Some (with_slots s' p, Granted false, None)
  | Waiting, Cancel => Some (p, Idle, Some Cancelled)
  | Trying, Go =>
      q ← queue p;
      match try_send q with
      | Some q' => Some (with_queue q' p, Counting, None)
      | None => Some (p, Rejecting, None)
      end
  | Rejecting, Go => Some (add_rejected 1 p, Idle, Some Overloaded)
  | Counting, Go => Some (add_queued 1 p, Queuing, None)
  | Queuing, Go =>
      s ← slots p; s' ← try_send s; Some (with_slots s' p, Granted true, None)
  | Queuing, Cancel => Some (p, Leaving false, None)
  | Granted false, Go => Some (add_active 1 p, Holding, Some Acquired)
  | Granted true, Go => Some (add_active 1 p, Leaving true, None)
  | Leaving ok, Go => q ← queue p; q' ← try_recv q; Some (with_queue q' p, Left ok, None)
  | Left ok, Go => Some (add_queued (-1) p, after ok, Some (result_of ok))
  | Holding, Go => Some (p, Releasing, None)
  | Releasing, Go =>
      match slots p with
      | None => Some (p, Idle, None)
      | Some s =>
          match try_recv s with
          | Some s' => Some (with_slots s' p, Freed, None)
          | None => Some (p, Idle, None)
          end
      end
  | Freed, Go => Some (add_active (-1) p, Idle, None)
  | _, Cancel => None
  end.

(** ** The goroutines together *)

(** The pool, the goroutines, and the outcomes returned so far. *)
Record system := mkSystem { pool : Pool; threads : list pc; log : list outcome }.

Definition sys_step (i : nat) (c : choice) (s : system) : option system :=
  t ← threads s !! i;
  '(p, t', o) ← thread_step (pool s) t c;
  Some (mkSystem p (<[i := t']> (threads s)) (match o with Some o => o :: log s | None => log s end)).

(** A schedule; a step that is blocked leaves no system. *)
Fixpoint run (schedule : list (nat * choice)) (s : system) : option system :=
  match schedule with
  | [] => Some s
  | (i, c) :: rest => sys_step i c s ≫= run rest
  end.

Definition start (p : Pool) (n : nat) : system := mkSystem p (replicate n Idle) [].

Definition reachable (p : Pool) (n : nat) (s : system) : Prop :=
  exists schedule, run schedule (start p n) = Some s.

(** ** Counting goroutines *)

Definition b2z (b : bool) : Z := if b then 1 else 0.
Fixpoint count {A : Type} (f : A -> bool) (l : list A) : Z :=
  match l with [] => 0 | t :: l' => b2z (f t) + count f l' end.

(** The goroutines that have a token in [p.slots], that [p.active] counts, that
    have a token in [p.queue], that [p.queued] counts, that run a handler. *)
Definition has_slot (t : pc) : bool :=
  match t with Granted _ | Leaving true | Left true | Holding | Releasing => true | _ => false end.
Definition is_active (t : pc) : bool :=
  match t with Leaving true | Left true | Holding | Releasing | Freed => true | _ => false end.
Definition in_queue (t : pc) : bool :=
  match t with Counting | Queuing | Granted true | Leaving _ => true | _ => false end.
Definition is_queued (t : pc) : bool :=
  match t with Queuing | Granted true | Leaving _ | Left _ => true | _ => false end.
Definition is_holding (t : pc) : bool := match t with Holding => true | _ => false end.
Definition is_freed (t : pc) : bool := match t with Freed => true | _ => false end.
Definition is_trying (t : pc) : bool := match t with Trying => true | _ => false end.
Definition is_overloaded (o : outcome) : bool := match o with Overloaded => true | _ => false end.
(** The states that the [Wait] policy never enters. *)
Definition may_reject (t : pc) : bool :=
  match t with
  | Trying | Rejecting | Counting | Queuing | Granted true | Leaving _ | Left _ => true
  | _ => false
  end.

Section Count.
Context {A : Type}.
Implicit Types (f g h : A -> bool) (l : list A).

Lemma count_nonneg f l : 0 <= count f l.
Proof. induction l as [|t l IH]; cbn; [lia|]. destruct (f t); cbn; lia. Qed.

Lemma count_update f l (i : nat) (t t' : A) :
  l !! i = Some t -> count f (<[i := t']> l) = count f l - b2z (f t) + b2z (f t').
Proof.
  revert i. induction l as [|x l IH]; intros [|i]; try done; intros H.
  - cbn in *. simplify_eq. lia.
  - change (b2z (f x) + count f (<[i := t']> l) = b2z (f x) + count f l - b2z (f t) + b2z (f t')).
    rewrite (IH _ H). lia.
Qed.

Lemma count_member f l (i : nat) (t : A) : l !! i = Some t -> f t = true -> 1 <= count f l.
Proof.
  revert i. induction l as [|x l IH]; intros [|i]; cbn; try done; intros H Hf.
  - simplify_eq. rewrite Hf. cbn. pose proof (count_nonneg f l). lia.
  - pose proof (IH _ H Hf). destruct (f x); cbn; lia.
Qed.

Lemma count_pos f l : 0 < count f l -> exists i t, l !! i = Some t /\ f t = true.
Proof.
  induction l as [|x l IH]; cbn; [lia|]. destruct (f x) eqn:E; cbn; intros H.
  - by exists 0%nat, x.
  - destruct IH as (i & t & ? & ?); [lia|]. by exists (S i), t.
Qed.

Lemma count_le f g l : (forall t, f t = true -> g t = true) -> count f l <= count g l.
Proof.
  intros H. induction l as [|x l IH]; cbn; [lia|]. specialize (H x).
  destruct (f x), (g x); cbn; try lia; by discriminate H.
Qed.

Lemma count_le_sum f g h l :
  (forall t, f t = true -> g t = true \/ h t = true) -> count f l <= count g l + count h l.
Proof.
  intros H. induction l as [|x l IH]; cbn; [lia|]. specialize (H x).
  destruct (f x), (g x), (h x); cbn; try lia; by destruct H.
Qed.

Lemma count_length f l : count f l <= zlen l.
Proof. induction l as [|x l IH]; cbn; [done|]. rewrite zlen_cons. destruct (f x); cbn; lia. Qed.

Lemma count_none f l : (forall t, t ∈ l -> f t = false) -> count f l = 0.
Proof.
  induction l as [|x l IH]; cbn; [done|]. intros H. rewrite (H x) by left.
  rewrite IH; [done|]. intros t Ht. apply H. by right.
Qed.
End Count.

Lemma wrap64_plus (a b : Z) : wrap64 (wrap64 a + b) = wrap64 (a + b).
Proof.
  unfold wrap64. f_equal.
  replace ((a + 2 ^ 63) mod 2 ^ 64 - 2 ^ 63 + b + 2 ^ 63) with ((a + 2 ^ 63) mod 2 ^ 64 + b) by lia.
  rewrite Zplus_mod_idemp_l. f_equal. lia.
Qed.

(** ** The invariant *)

(** A channel holds one token per goroutine that [f] selects. *)
Definition chan_holds (ch : option chan) (f : pc -> bool) (ts : list pc) : Prop :=
  match ch with
  | None => count f ts = 0
  | Some ch => buffered ch = count f ts /\ 0 <= buffered ch <= capacity ch
  end.

Record invariant (p0 : Pool) (s : system) : Prop := {
  inv_slots : chan_holds (slots (pool s)) has_slot (threads s);
  inv_queue : chan_holds (queue (pool s)) in_queue (threads s);
  inv_active : active (pool s) = wrap64 (count is_active (threads s));
  inv_queued : queued (pool s) = wrap64 (count is_queued (threads s));
  inv_rejected : rejected (pool s) = wrap64 (count is_overloaded (log s));
  inv_policy : policy (pool s) = policy p0;
  inv_capacity : capacity <$> slots (pool s) = capacity <$> slots p0;
  inv_room : capacity <$> queue (pool s) = capacity <$> queue p0;
  inv_nil : is_Some (slots (pool s)) /\ (is_Some (queue (pool s)) <-> is_Some (queue p0));
  inv_wait : policy p0 = Wait -> count may_reject (threads s) = 0 /\ count is_overloaded (log s) = 0;
  inv_trying : queue p0 = None -> count is_trying (threads s) = 0;
  inv_positive : forall ch, slots p0 = Some ch -> 0 < capacity ch }.

Lemma try_send_spec (ch ch' : chan) :
  try_send ch = Some ch' -> buffered ch' = buffered ch + 1 /\ capacity ch' = capacity ch
                            /\ buffered ch < capacity ch.
Proof. unfold try_send. destruct (Z.ltb_spec (buffered ch) (capacity ch)); intros; by simplify_eq/=. Qed.

Lemma try_recv_spec (ch ch' : chan) :
  try_recv ch = Some ch' -> buffered ch' = buffered ch - 1 /\ capacity ch' = capacity ch
                            /\ 0 < buffered ch.
Proof. unfold try_recv. destruct (Z.ltb_spec 0 (buffered ch)); intros; by simplify_eq/=. Qed.

Lemma try_recv_None (ch : chan) : try_recv ch = None -> buffered ch <= 0.
Proof. unfold try_recv. destruct (Z.ltb_spec 0 (buffered ch)); by intros. Qed.

Lemma step_invariant (p0 : Pool) (i : nat) (c : choice) (s s' : system) :
  invariant p0 s -> sys_step i c s = Some s' -> invariant p0 s'.
Proof.
  intros [I1 I2 I3 I4 I5 I6 I7 I12 I8 I9 I11 I10]. unfold sys_step.
  destruct s as [p ts lg]. cbn [pool threads log] in *.
  destruct (ts !! i) as [t|] eqn:Ht; cbn [mbind option_bind]; [|done].
  destruct (thread_step p t c) as [[[p' t'] o]|] eqn:E; cbn; [|done]. intros [= <-].
  destruct p as [sl qu po mx ac qd rj]. cbn in *. destruct I8 as [[sc ->] I8].
  destruct t as [| | | | | | |[]|oo|oo| | |], c; cbn in E; try discriminate E.
  all: try (unfold mbind, option_bind in E).
  all: repeat match type of E with context [match ?x with _ => _ end] => destruct x eqn:? end; simplify_eq/=.
  all: repeat match goal with
  | H : try_send _ = Some _ |- _ => apply try_send_spec in H as (? & ? & ?)
  | H : try_recv _ = Some _ |- _ => apply try_recv_spec in H as (? & ? & ?)
  | H : try_recv _ = None |- _ =>
      apply try_recv_None in H; pose proof (count_member has_slot _ _ _ Ht eq_refl); exfalso; cbn in I1; lia
  end.
  all: split; cbn [pool threads log slots queue policy active queued rejected chan_holds with_slots
    with_queue add_active add_queued add_rejected fmap option_fmap option_map].
  all: try destruct qu as [qc|]; try destruct oo; cbn [chan_holds after result_of] in *; rewrite ?(count_update _ _ _ _ _ Ht);
    cbn [b2z has_slot in_queue is_active is_queued count is_overloaded may_reject is_trying];
    try (rewrite ?wrap64_plus; f_equal; lia); try lia; try done; try congruence.
  all: try (by intros [= <-]).
  all: try (split; [by eexists|rewrite <- I8; split; by eexists]).
  all: try (intros Hq; specialize (I11 Hq); pose proof (count_member is_trying _ _ _ Ht) as Hm;
    cbn in Hm; try (specialize (Hm eq_refl)); try done; try lia;
    rewrite Hq in I8; destruct I8 as [I8 _]; destruct (I8 ltac:(by eexists)); done).
  all: intros Hw; destruct (I9 Hw); pose proof (count_member may_reject _ _ _ Ht) as Hm;
    cbn in Hm; try (specialize (Hm eq_refl)); try done; lia.
Qed.


Lemma run_invariant (p0 : Pool) (schedule : list (nat * choice)) (s s' : system) :
  invariant p0 s -> run schedule s = Some s' -> invariant p0 s'.
Proof.
  revert s. induction schedule as [|[i c] rest IH]; intros s Hs; cbn [run]; [by intros [= <-]|].
  destruct (sys_step i c s) as [s1|] eqn:E; cbn; [|done]. apply IH. by eapply step_invariant.
Qed.

Lemma count_replicate {A : Type} (f : A -> bool) (n : nat) (t : A) :
  f t = false -> count f (replicate n t) = 0.
Proof. intros H. apply count_none. intros x Hx. apply elem_of_replicate in Hx as [-> _]. done. Qed.

Lemma start_invariant (maxConcurrent queueSize : Z) (pol : OverloadPolicy) (n : nat) :
  0 < maxConcurrent ->
  let p := NewPool maxConcurrent queueSize pol in invariant p (start p n).
Proof.
  intros H. unfold NewPool. rewrite (proj2 (Z.leb_gt _ _)) by lia.
  set (q := if queueSize <? 0 then 0 else queueSize).
  split; cbn; rewrite ?count_replicate by done; try done.
  - lia.
  - destruct (Z.ltb_spec 0 q); cbn; rewrite count_replicate by done; lia.
  - intros ch [= <-]. cbn. lia.
Qed.

Lemma reachable_invariant (maxConcurrent queueSize : Z) (pol : OverloadPolicy) (n : nat) (s : system) :
  0 < maxConcurrent -> reachable (NewPool maxConcurrent queueSize pol) n s ->
  invariant (NewPool maxConcurrent queueSize pol) s.
Proof. intros H [sch E]. eapply run_invariant; [by apply start_invariant|done]. Qed.

Lemma step_length (i : nat) (c : choice) (s s' : system) :
  sys_step i c s = Some s' -> length (threads s') = length (threads s).
Proof.
  unfold sys_step. destruct (threads s !! i) as [t|]; cbn; [|done].
  destruct (thread_step (pool s) t c) as [[[p' t'] o]|]; cbn; [|done].
  intros [= <-]. cbn. apply length_insert.
Qed.

Lemma reachable_length (p : Pool) (n : nat) (s : system) : reachable p n s -> length (threads s) = n.
Proof.
  intros [sch E]. rewrite <- (length_replicate n Idle).
  change (replicate n Idle) with (threads (start p n)). revert E. generalize (start p n).
  induction sch as [|[i c] rest IH]; cbn [run]; [by intros ? [= <-]|].
  intros s0. destruct (sys_step i c s0) as [s1|] eqn:E; cbn; [|done].
  intros E2. rewrite (IH _ E2). by eapply step_length.
Qed.

(** The capacities a new pool keeps. *)
Lemma slots_of_new (maxConcurrent queueSize : Z) (pol : OverloadPolicy) (s : system) :
  0 < maxConcurrent -> invariant (NewPool maxConcurrent queueSize pol) s ->
  slots (pool s) = Some (mkChan (count has_slot (threads s)) maxConcurrent) /\
  count has_slot (threads s) <= maxConcurrent.
Proof.
  intros H I. destruct (inv_nil _ _ I) as [[[b cp] E] _].
  pose proof (inv_slots _ _ I) as I1. pose proof (inv_capacity _ _ I) as I7.
  rewrite E in *. unfold NewPool in I7. rewrite (proj2 (Z.leb_gt _ _)) in I7 by lia.
  cbn in *. injection I7 as ->. destruct I1 as [-> ?]. split; [done|lia].
Qed.

Lemma counter_exact (f : pc -> bool) (ts : list pc) :
  zlen ts < 2 ^ 63 -> wrap64 (count f ts) = count f ts.
Proof.
  intros H. apply wrap64_id, is_int64_iff. pose proof (count_nonneg f ts).
  pose proof (count_length f ts). lia.
Qed.

(** Every goroutine can take its next step, except one that waits for a slot. *)
Lemma enabled (p0 : Pool) (s : system) (i : nat) (t : pc) :
  invariant p0 s -> threads s !! i = Some t -> t <> Waiting -> t <> Queuing ->
  is_Some (sys_step i Go s).
Proof.
  intros I Ht Hw Hq. unfold sys_step. rewrite Ht. cbn [mbind option_bind].
  enough (is_Some (thread_step (pool s) t Go)) as [[[p' t'] o] ->] by (cbn; by eexists).
  destruct (inv_nil _ _ I) as [[sc Es] Hn]. pose proof (inv_queue _ _ I) as I2.
  destruct t as [| | | | | | |[]|ok|ok| | |]; try done; try (by eexists); cbn; rewrite ?Es.
  - destruct (try_send sc); [by eexists|]. case_decide; [by eexists|].
    destruct (queue (pool s)); by eexists.
  - destruct (queue (pool s)) as [q|] eqn:Eq.
    + cbn. destruct (try_send q); by eexists.
    + assert (queue p0 = None) as E0.
      { destruct (queue p0) eqn:E; [|done]. destruct Hn as [_ Hn]. by destruct Hn; [eexists|]. }
      pose proof (count_member is_trying _ _ _ Ht eq_refl). pose proof (inv_trying _ _ I E0). lia.
  - pose proof (count_member in_queue _ _ _ Ht eq_refl). unfold chan_holds in I2.
    destruct (queue (pool s)) as [q|]; [|lia]. cbn. unfold try_recv.
    rewrite (proj2 (Z.ltb_lt _ _)) by lia. cbn. by eexists.
  - destruct (try_recv sc); by eexists.
Qed.

(** ** What the pool promises *)

(** C36: at most [maxConcurrent] handlers run at any time, whatever the order in
    which goroutines take their steps; the counters count exactly the callers
    in the pool and in its queue ([active] exceeds the limit only by callers
    that have given their slot back and not yet decremented it); every
    rejection is counted; the Wait policy never rejects; and when no caller is
    inside the pool all slots are free and the counters are back to zero. *)
Theorem pool_safety (maxConcurrent queueSize : Z) (pol : OverloadPolicy) (n : nat) (s : system) :
  0 < maxConcurrent -> Z.of_nat n < 2 ^ 63 ->
  reachable (NewPool maxConcurrent queueSize pol) n s ->
  count is_holding (threads s) <= maxConcurrent /\
  active (pool s) = count is_active (threads s) /\
  active (pool s) <= maxConcurrent + count is_freed (threads s) /\
  queued (pool s) = count is_queued (threads s) /\
  rejected (pool s) = wrap64 (count is_overloaded (log s)) /\
  (pol = Wait -> count is_overloaded (log s) = 0) /\
  ((forall t, t ∈ threads s -> t = Idle) ->
   slots (pool s) = Some (mkChan 0 maxConcurrent) /\ active (pool s) = 0 /\ queued (pool s) = 0).
Proof.
  intros Hm Hn R. pose proof (reachable_invariant _ _ _ _ _ Hm R) as I.
  pose proof (reachable_length _ _ _ R) as L.
  destruct (slots_of_new _ _ _ _ Hm I) as [Es Hs].
  assert (zlen (threads s) < 2 ^ 63) as Hl by (unfold zlen; lia).
  rewrite (inv_active _ _ I), (inv_queued _ _ I), Es, !counter_exact by done.
  pose proof (count_le is_holding has_slot (threads s) ltac:(by intros [])).
  pose proof (count_le_sum is_active has_slot is_freed (threads s)
    ltac:(intros [| | | | | | |[]|[]|[]| | |]; auto)).
  split_and!; [lia|done|lia|done|apply (inv_rejected _ _ I)| |].
  - intros ->. apply (inv_wait _ _ I). unfold NewPool.
    by destruct (maxConcurrent <=? 0).
  - intros Hi. rewrite !count_none; [done|..]; intros t Ht; by rewrite (Hi t Ht).
Qed.

(** C37: no goroutine is stuck: each one can take its next step, unless it waits
    for a slot, every slot is taken, and a goroutine that has one can take its
    own next step; a caller that releases always frees its slot. *)
Theorem pool_progress (maxConcurrent queueSize : Z) (pol : OverloadPolicy) (n : nat) (s : system)
    (i : nat) (t : pc) :
  0 < maxConcurrent -> reachable (NewPool maxConcurrent queueSize pol) n s ->
  threads s !! i = Some t ->
  (is_Some (sys_step i Go s) \/
   ((t = Waiting \/ t = Queuing) /\ count has_slot (threads s) = maxConcurrent /\
    exists j u, threads s !! j = Some u /\ has_slot u = true /\ is_Some (sys_step j Go s))) /\
  (t = Releasing -> exists s', sys_step i Go s = Some s' /\ threads s' !! i = Some Freed).
Proof.
  intros Hm R Ht. pose proof (reachable_invariant _ _ _ _ _ Hm R) as I.
  destruct (slots_of_new _ _ _ _ Hm I) as [Es Hs]. split.
  - destruct (decide (t = Waiting \/ t = Queuing)) as [Hw|Hw].
    2:{ left. eapply enabled; [done|done|tauto|tauto]. }
    destruct (Z.lt_ge_cases (count has_slot (threads s)) maxConcurrent) as [Hlt|Hge].
    + left. unfold sys_step. rewrite Ht. cbn [mbind option_bind].
      destruct Hw as [-> | ->]; cbn; rewrite Es; cbn; unfold try_send; cbn;
        rewrite (proj2 (Z.ltb_lt _ _)) by done; cbn; by eexists.
    + right. split; [done|]. split; [lia|].
      destruct (count_pos has_slot (threads s)) as (j & u & Hj & Hu); [lia|].
      exists j, u. split_and!; [done|done|]. eapply enabled; [done|done| |]; by intros ->.
  - intros ->. pose proof (count_member has_slot _ _ _ Ht eq_refl).
    unfold sys_step. rewrite Ht. cbn [mbind option_bind thread_step]. rewrite Es.
    unfold try_recv. cbn [buffered]. rewrite (proj2 (Z.ltb_lt _ _)) by lia. cbn.
    eexists. split; [reflexivity|]. cbn. apply list_lookup_insert_eq. by eapply lookup_lt_Some.
Qed.

Lemma queue_of_new (maxConcurrent queueSize : Z) (pol : OverloadPolicy) (s : system) :
  0 < maxConcurrent -> invariant (NewPool maxConcurrent queueSize pol) s ->
  queue (pool s) = if 0 <? queueSize then Some (mkChan (count in_queue (threads s)) queueSize) else None.
Proof.
  intros H I. pose proof (inv_queue _ _ I) as I2. pose proof (inv_room _ _ I) as I7.
  unfold NewPool in I7. rewrite (proj2 (Z.leb_gt _ _)) in I7 by lia. cbn in I7.
  destruct (Z.ltb_spec queueSize 0), (Z.ltb_spec 0 queueSize); try lia; cbn in I7;
    destruct (queue (pool s)) as [[b cp]|]; cbn in *; try done.
  injection I7 as ->. by destruct I2 as [-> _].
Qed.

(** [Acquire] takes a free slot at once; with no free slot it waits under
    the Wait policy, else it joins the queue if the queue has room, and only
    otherwise is it rejected. *)
Theorem acquire_decision (maxConcurrent queueSize : Z) (pol : OverloadPolicy) (n : nat) (s : system)
    (i : nat) (t : pc) :
  0 < maxConcurrent -> reachable (NewPool maxConcurrent queueSize pol) n s ->
  threads s !! i = Some t -> t = Acquiring \/ t = Trying ->
  exists s', sys_step i Go s = Some s' /\
    threads s' !! i = Some (
      if decide (t = Trying) then
        if count in_queue (threads s) <? queueSize then Counting else Rejecting
      else if count has_slot (threads s) <? maxConcurrent then Granted false
      else if decide (pol = Wait) then Waiting
      else if 0 <? queueSize then Trying else Rejecting).
Proof.
  intros Hm R Ht Hc. pose proof (reachable_invariant _ _ _ _ _ Hm R) as I.
  destruct (slots_of_new _ _ _ _ Hm I) as [Es _].
  pose proof (queue_of_new _ _ _ _ Hm I) as Eq. pose proof (lookup_lt_Some _ _ _ Ht) as Hi.
  assert (policy (pool s) = pol) as Ep.
  { rewrite (inv_policy _ _ I). unfold NewPool. by destruct (maxConcurrent <=? 0). }
  unfold sys_step. rewrite Ht. cbn [mbind option_bind].
  destruct Hc as [-> | ->].
  - rewrite decide_False by done. cbn [thread_step]. rewrite Es, Ep, Eq. unfold try_send. cbn [buffered capacity].
    destruct (count has_slot (threads s) <? maxConcurrent); cbn.
    { eexists. split; [reflexivity|]. by apply list_lookup_insert_eq. }
    destruct (decide (pol = Wait)); cbn.
    { eexists. split; [reflexivity|]. by apply list_lookup_insert_eq. }
    destruct (0 <? queueSize); cbn; eexists; (split; [reflexivity|]); by apply list_lookup_insert_eq.
  - rewrite decide_True by done. cbn [thread_step]. rewrite Eq.
    assert ((0 <? queueSize) = true) as ->.
    { destruct (0 <? queueSize) eqn:E; [done|]. pose proof (count_member is_trying _ _ _ Ht eq_refl).
      assert (queue (NewPool maxConcurrent queueSize pol) = None) as E0.
      { destruct (queue (NewPool maxConcurrent queueSize pol)) eqn:E1; [|done].
        destruct (inv_nil _ _ I) as [_ [_ Hn]]. destruct Hn; [by rewrite E1; eexists|].
        congruence. }
      pose proof (inv_trying _ _ I E0). lia. }
    cbn [mbind option_bind]. unfold try_send. cbn [buffered capacity].
    destruct (count in_queue (threads s) <? queueSize); cbn; eexists; (split; [reflexivity|]); by apply list_lookup_insert_eq.
Qed.

(** Two callers of a pool with one slot and a queue of one: the first runs its
    handler, the second waits in the queue. *)
Definition sample_schedule : list (nat * choice) :=
  [(0, Go); (0, Go); (0, Go); (1, Go); (1, Go); (1, Go); (1, Go)]%nat.
Definition sample_system : system :=
  mkSystem (mkPool (Some (mkChan 1 1)) (Some (mkChan 1 1)) Reject 1 1 1 0) [Holding; Queuing] [Acquired].

Lemma sample_reachable : reachable (NewPool 1 1 Reject) 2 sample_system.
Proof. by exists sample_schedule. Defined.

Lemma pool_safety_witness :
  count is_holding (threads sample_system) <= 1 /\
  active (pool sample_system) = count is_active (threads sample_system) /\
  active (pool sample_system) <= 1 + count is_freed (threads sample_system) /\
  queued (pool sample_system) = count is_queued (threads sample_system) /\
  rejected (pool sample_system) = wrap64 (count is_overloaded (log sample_system)) /\
  (Reject = Wait -> count is_overloaded (log sample_system) = 0) /\
  ((forall t, t ∈ threads sample_system -> t = Idle) ->
   slots (pool sample_system) = Some (mkChan 0 1) /\ active (pool sample_system) = 0 /\
   queued (pool sample_system) = 0).
Proof. apply (pool_safety 1 1 Reject 2); [lia|done|exact sample_reachable]. Defined.

Lemma pool_progress_witness :
  (is_Some (sys_step 1 Go sample_system) \/
   ((Queuing = Waiting \/ Queuing = Queuing) /\ count has_slot (threads sample_system) = 1 /\
    exists j u, threads sample_system !! j = Some u /\ has_slot u = true /\
      is_Some (sys_step j Go sample_system))) /\
  (Queuing = Releasing -> exists s', sys_step 1 Go sample_system = Some s' /\
     threads s' !! 1%nat = Some Freed).
Proof. apply (pool_progress 1 1 Reject 2); [lia|exact sample_reachable|reflexivity]. Defined.

Lemma acquire_decision_witness :
  let s := mkSystem (mkPool (Some (mkChan 1 1)) (Some (mkChan 1 1)) Reject 1 1 1 0)
             [Holding; Queuing; Trying] [Acquired] in
  exists s', sys_step 2 Go s = Some s' /\ threads s' !! 2%nat = Some Rejecting.
Proof.
  refine (acquire_decision 1 1 Reject 3 _ 2 Trying _ _ _ _).
  - lia.
  - exists (sample_schedule ++ [(2, Go); (2, Go)]%nat). reflexivity.
  - reflexivity.
  - right. reflexivity.
Defined.
