(* ===== verification/Environment.v ===== *)
(** * Environment: the lexical scopes of the evaluator

    [runtime.Environment] (src/internal/runtime/environment.go): a scope keeps
    its first four names in an inline array and the rest in a map, and points
    to its enclosing scope.  Scopes are shared (closures capture them), so they
    live in a heap; so do the [Frozen] flags of lists and instances, which
    [ShallowFreeze] (freeze.go) sets in place, and the backing arrays of the
    slices of overloads.  The specification is a map of names per scope.  Each
    operation runs alone: the lock a walk drops between two scopes is not
    modelled. *)

From stdpp Require Import sorting fin_map_dom gmap.
From S2P Require Import Prelude GoText Value.
#[local] Open Scope Z_scope.

(** ** Values *)

(** A Go slice of functions: its backing array and its length. *)
Record slice := mkSlice { array : nat; len : nat }.

(** The values that the environment looks into; a list and an instance are
    pointers, a dict and a set are structs with a flag of their own, a function
    is a handle. *)
Inductive EnvValue :=
| EList (ptr : Z)
| EInstance (ptr : Z)
| EDict (data : Z) (Frozen : bool)
| ESet (elements : Z) (Frozen : bool)
| EFunction (fn : Z)
| EOverloadedFunction (Name : gostring) (Overloads : slice)
| EOther (v : Value).

(** [Binding]. *)
Record Binding := mkBinding {
  BValue : EnvValue; Constant : bool; Imported : bool; ImportSource : gostring }.

(** [Environment]; a nil map is [None] or the empty map, a [*TypeRef] is its
    address. *)
Record Environment := mkEnv {
  inline : list (gostring * Binding);
  store : option (gmap gostring Binding);
  typeBindings : gmap gostring gostring;
  typeAliases : gmap gostring Z;
  outer : option nat }.

(** The array sizes are [len(e.inline)]. *)
Definition inlineMax : nat := 4.

(** The heap: the scopes by address, the lists and instances that are frozen,
    the backing arrays with the cells written so far and their capacity. *)
Record heap (E : Type) := mkHeap {
  envs : gmap nat E; next : nat; frozen : gset Z; arrays : gmap nat (list Z * nat) }.
Arguments mkHeap {E}.
Arguments envs {E}.
Arguments next {E}.
Arguments frozen {E}.
Arguments arrays {E}.

(** ** One scope *)

Definition inline_index (name : gostring) (l : list (gostring * Binding)) : option nat :=
  fst <$> list_find (fun p => fst p = name) l.

(** [lookupLocked]. *)
Definition lookupLocked (e : Environment) (name : gostring) : option Binding :=
  match inline_index name (inline e) with
  | Some i => snd <$> inline e !! i
  | None => m ← store e; m !! name
  end.

Definition with_inline (l : list (gostring * Binding)) (e : Environment) : Environment :=
  mkEnv l (store e) (typeBindings e) (typeAliases e) (outer e).
Definition with_store (m : gmap gostring Binding) (e : Environment) : Environment :=
  mkEnv (inline e) (Some m) (typeBindings e) (typeAliases e) (outer e).
Definition with_typeBindings (m : gmap gostring gostring) (e : Environment) : Environment :=
  mkEnv (inline e) (store e) m (typeAliases e) (outer e).
Definition with_typeAliases (m : gmap gostring Z) (e : Environment) : Environment :=
  mkEnv (inline e) (store e) (typeBindings e) m (outer e).

(** [setLocked]. *)
Definition setLocked (name : gostring) (b : Binding) (e : Environment) : Environment :=
  match inline_index name (inline e) with
  | Some i => with_inline (<[i := (name, b)]> (inline e)) e
  | None =>
      match store e with
      | Some m =>
          if decide (is_Some (m !! name)) then with_store (<[name := b]> m) e
          else if (length (inline e) <? inlineMax)%nat then with_inline (inline e ++ [(name, b)]) e
          else with_store (<[name := b]> m) e
      | None =>
          if (length (inline e) <? inlineMax)%nat then with_inline (inline e ++ [(name, b)]) e
          else with_store {[name := b]} e
      end
  end.

(** [deleteLocked]: the last inline entry moves into the gap. *)
Definition remove_inline (i : nat) (l : list (gostring * Binding)) : list (gostring * Binding) :=
  match last l with
  | Some x => removelast (<[i := x]> l)
  | None => l
  end.
Definition deleteLocked (name : gostring) (e : Environment) : Environment * bool :=
  match inline_index name (inline e) with
  | Some i => (with_inline (remove_inline i (inline e)) e, true)
  | None =>
      match store e with
      | Some m => if decide (is_Some (m !! name)) then (with_store (delete name m) e, true) else (e, false)
      | None => (e, false)
      end
  end.

(** [ForEachBinding]'s visits, with the map's entries in the order of
    [map_to_list]. *)
Definition ForEachBinding (e : Environment) : list (gostring * Binding) :=
  inline e ++ map_to_list (default ∅ (store e)).
Definition env_names (e : Environment) : list gostring := map fst (ForEachBinding e).

(** ** What the operations need of a scope

    The operations below are written against this interface; [Environment]
    implements it, and so does the specification, a plain map. *)

Class Scope (E : Type) := {
  sc_new : option nat -> E;
  sc_lookup : E -> gostring -> option Binding;
  sc_set : gostring -> Binding -> E -> E;
  sc_delete : gostring -> E -> E * bool;
  sc_names : E -> list gostring;
  sc_outer : E -> option nat;
  sc_types : E -> gmap gostring gostring;
  sc_set_types : gmap gostring gostring -> E -> E;
  sc_aliases : E -> gmap gostring Z;
  sc_set_aliases : gmap gostring Z -> E -> E }.

#[export] Instance Environment_Scope : Scope Environment := {
  sc_new outer := mkEnv [] None ∅ ∅ outer;
  sc_lookup := lookupLocked;
  sc_set := setLocked;
  sc_delete := deleteLocked;
  sc_names := env_names;
  sc_outer := outer;
  sc_types := typeBindings;
  sc_set_types := with_typeBindings;
  sc_aliases := typeAliases;
  sc_set_aliases := with_typeAliases }.

(** The specification of a scope: its bindings are a map. *)
Record scope := mkScope {
  bindings : gmap gostring Binding; types : gmap gostring gostring; aliases : gmap gostring Z;
  parent : option nat }.

#[export] Instance scope_Scope : Scope scope := {
  sc_new parent := mkScope ∅ ∅ ∅ parent;
  sc_lookup s name := bindings s !! name;
  sc_set name b s := mkScope (<[name := b]> (bindings s)) (types s) (aliases s) (parent s);
  sc_delete name s :=
    (mkScope (delete name (bindings s)) (types s) (aliases s) (parent s),
     bool_decide (is_Some (bindings s !! name)));
  sc_names s := elements (dom (bindings s));
  sc_outer := parent;
  sc_types := types;
  sc_set_types m s := mkScope (bindings s) m (aliases s) (parent s);
  sc_aliases := aliases;
  sc_set_aliases m s := mkScope (bindings s) (types s) m (parent s) }.

(** ** Operations *)

(** The errors, by what their texts say. *)
Inductive EnvError :=
| AlreadyDeclared (name : gostring)
| AssignToConstant (name : gostring)
| NotDeclared (name : gostring).

Section Operations.
(** The representation of a scope, the capacity Go gives to a grown array, and
    [strings.ToLower]. *)
Context {E : Type} `{Scope E} (grow : nat -> nat) (ToLower : gostring -> gostring).
Abbreviation heap := (heap E).

Definition with_env (a : nat) (e : E) (h : heap) : heap :=
  mkHeap (<[a := e]> (envs h)) (next h) (frozen h) (arrays h).

(** [NewEnvironment] and [NewEnclosedEnvironment]. *)
Definition NewEnclosedEnvironment (outer : option nat) (h : heap) : heap * nat :=
  (mkHeap (<[next h := sc_new outer]> (envs h)) (S (next h)) (frozen h) (arrays h), next h).
Definition NewEnvironment (h : heap) : heap * nat := NewEnclosedEnvironment None h.

(** [ShallowFreeze]. *)
Definition freeze_ptr (p : Z) (h : heap) : heap :=
  mkHeap (envs h) (next h) ({[p]} ∪ frozen h) (arrays h).
Definition ShallowFreeze (v : EnvValue) (h : heap) : heap * EnvValue :=
  match v with
  | EList p | EInstance p => (freeze_ptr p h, v)
  | EDict d _ => (h, EDict d true)
  | ESet d _ => (h, ESet d true)
  | _ => (h, v)
  end.

(** [IsFrozen]. *)
Definition IsFrozen (h : heap) (v : EnvValue) : bool :=
  match v with
  | EList p | EInstance p => bool_decide (p ∈ frozen h)
  | EDict _ f | ESet _ f => f
  | _ => true
  end.

(** [[]Function{f, g}], the functions of a slice, and [append]: in place while
    the array has room, whoever else holds a slice of it. *)
Definition new_slice (l : list Z) (h : heap) : heap * slice :=
  let id := fresh (dom (arrays h)) in
  (mkHeap (envs h) (next h) (frozen h) (<[id := (l, length l)]> (arrays h)), mkSlice id (length l)).
Definition cells_of (h : heap) (s : slice) : list Z * nat := default ([], 0%nat) (arrays h !! array s).
Definition overloads_of (h : heap) (s : slice) : list Z := take (len s) (fst (cells_of h s)).
Definition append_slice (s : slice) (fn : Z) (h : heap) : heap * slice :=
  let '(cells, cap) := cells_of h s in
  if (len s <? cap)%nat then
    (mkHeap (envs h) (next h) (frozen h)
       (<[array s := (take (len s) cells ++ fn :: drop (S (len s)) cells, cap)]> (arrays h)),
     mkSlice (array s) (S (len s)))
  else
    let id := fresh (dom (arrays h)) in
    (mkHeap (envs h) (next h) (frozen h)
       (<[id := (take (len s) cells ++ [fn], grow (S (len s)))]> (arrays h)),
     mkSlice id (S (len s))).

(** An operation on an address; [None] dereferences a nil pointer. *)
Abbreviation op A := (heap -> option (heap * A)).

(** [Define]: the value of a constant is frozen. *)
Definition Define (a : nat) (name : gostring) (value : EnvValue) (constant : bool)
    : op (result EnvError unit) := fun h =>
  e ← envs h !! a;
  match sc_lookup e name with
  | Some _ => Some (h, Err (AlreadyDeclared name))
  | None =>
      let '(h, value) := if constant then ShallowFreeze value h else (h, value) in
      Some (with_env a (sc_set name (mkBinding value constant false []) e) h, Ok tt)
  end.

(** [DefineImported]. *)
Definition DefineImported (a : nat) (name : gostring) (value : EnvValue) (source : gostring)
    : op (result EnvError unit) := fun h =>
  e ← envs h !! a;
  match sc_lookup e name with
  | Some existing =>
      if negb (Imported existing && bool_decide (ImportSource existing = source))
      then Some (h, Err (AlreadyDeclared name))
      else
        let '(h, value) := ShallowFreeze value h in
        Some (with_env a (sc_set name (mkBinding value true true source) e) h, Ok tt)
  | None =>
      let '(h, value) := ShallowFreeze value h in
      Some (with_env a (sc_set name (mkBinding value true true source) e) h, Ok tt)
  end.

(** [DefineFunction]: a second function of the name makes an overload set. *)
Definition DefineFunction (a : nat) (name : gostring) (fn : Z) : op (result EnvError unit) := fun h =>
  e ← envs h !! a;
  match sc_lookup e name with
  | Some binding =>
      if Imported binding then Some (h, Err (AlreadyDeclared name))
      else
        match BValue binding with
        | EFunction value =>
            let '(h, s) := new_slice [value; fn] h in
            Some (with_env a (sc_set name (mkBinding (EOverloadedFunction name s) true false []) e) h,
                  Ok tt)
        | EOverloadedFunction n s =>
            let '(h, s) := append_slice s fn h in
            Some (with_env a (sc_set name (mkBinding (EOverloadedFunction n s) true false []) e) h,
                  Ok tt)
        | _ => Some (h, Err (AlreadyDeclared name))
        end
  | None => Some (with_env a (sc_set name (mkBinding (EFunction fn) true false []) e) h, Ok tt)
  end.

(** The walk outwards that the operations below make: the first scope in which
    [f] finds something.  A scope is created after the scope that encloses it,
    so its address bounds the length of the walk. *)
Fixpoint walk {B : Type} (f : E -> option B) (fuel : nat) (a : nat) (h : heap)
    : option (option (nat * B)) :=
  match fuel with
  | O => None
  | S n =>
      e ← envs h !! a;
      match f e with
      | Some b => Some (Some (a, b))
      | None =>
          match sc_outer e with
          | Some o => walk f n o h
          | None => Some None
          end
      end
  end.

(** [Assign]. *)
Definition Assign (a : nat) (name : gostring) (value : EnvValue) : op (result EnvError unit) := fun h =>
  found ← walk (fun e => sc_lookup e name) (S a) a h;
  match found with
  | Some (d, binding) =>
      if Constant binding then Some (h, Err (AssignToConstant name))
      else
        e ← envs h !! d;
        Some (with_env d (sc_set name
                (mkBinding value (Constant binding) (Imported binding) (ImportSource binding)) e) h, Ok tt)
  | None => Some (h, Err (NotDeclared name))
  end.

(** [Get]. *)
Definition Get (a : nat) (name : gostring) (h : heap) : option (option EnvValue) :=
  option_map (option_map (fun p => BValue (snd p))) (walk (fun e => sc_lookup e name) (S a) a h).

(** [Delete]: the binding and the type binding of the name. *)
Definition Delete (a : nat) (name : gostring) : op bool := fun h =>
  found ← walk (fun e => if snd (sc_delete name e) then Some tt else None) (S a) a h;
  match found with
  | Some (d, _) =>
      e ← envs h !! d;
      let e := fst (sc_delete name e) in
      Some (with_env d (sc_set_types (delete name (sc_types e)) e) h, true)
  | None => Some (h, false)
  end.

(** [DefineTypeAlias] and [GetTypeAlias]. *)
Definition DefineTypeAlias (a : nat) (name : gostring) (target : Z) : op unit := fun h =>
  e ← envs h !! a;
  Some (with_env a (sc_set_aliases (<[ToLower name := target]> (sc_aliases e)) e) h, tt).
Definition GetTypeAlias (a : nat) (name : gostring) (h : heap) : option (option Z) :=
  option_map (option_map snd) (walk (fun e => sc_aliases e !! ToLower name) (S a) a h).

(** [DefineTypeBinding] and [GetTypeBinding]: the first definition stays. *)
Definition DefineTypeBinding (a : nat) (name typeName : gostring) : op unit := fun h =>
  e ← envs h !! a;
  match sc_types e !! name with
  | Some _ => Some (h, tt)
  | None => Some (with_env a (sc_set_types (<[name := typeName]> (sc_types e)) e) h, tt)
  end.
Definition GetTypeBinding (a : nat) (name : gostring) (h : heap) : option (option gostring) :=
  option_map (option_map snd) (walk (fun e => sc_types e !! name) (S a) a h).

(** The names of a chain of scopes, each once, inner scopes first;
    [Names], [VisibleNames] and [TypeBindingNames]. *)
Definition add_unseen (names acc : list gostring) : list gostring :=
  fold_left (fun acc n => if decide (n ∈ acc) then acc else acc ++ [n]) names acc.
Fixpoint collect (f : E -> list gostring) (fuel : nat) (a : nat) (h : heap)
    (acc : list gostring) : option (list gostring) :=
  match fuel with
  | O => None
  | S n =>
      e ← envs h !! a;
      let acc := add_unseen (f e) acc in
      match sc_outer e with
      | Some o => collect f n o h acc
      | None => Some acc
      end
  end.
Definition Names (a : nat) (h : heap) : option (list gostring) :=
  e ← envs h !! a; Some (sort_strings (sc_names e)).
Definition VisibleNames (a : nat) (h : heap) : option (list gostring) :=
  sort_strings <$> collect sc_names (S a) a h [].
Definition TypeBindingNames (a : nat) (h : heap) : option (list gostring) :=
  collect (fun e => map fst (map_to_list (sc_types e))) (S a) a h [].
End Operations.

(** ** One scope is a map *)

(** The bindings of a scope. *)
Definition scope_map (e : Environment) : gmap gostring Binding :=
  list_to_map (inline e) ∪ default ∅ (store e).

(** No name is bound twice. *)
Record scope_wf (e : Environment) : Prop := {
  wf_nodup : NoDup (map fst (inline e));
  wf_length : (length (inline e) <= inlineMax)%nat;
  wf_disjoint : forall name, name ∈ map fst (inline e) -> default ∅ (store e) !! name = None }.

Lemma inline_index_Some (name : gostring) (l : list (gostring * Binding)) (i : nat) :
  inline_index name l = Some i -> exists b, l !! i = Some (name, b).
Proof.
  unfold inline_index. destruct (list_find _ l) as [[j [n b]]|] eqn:E; cbn; [|done].
  intros [= <-]. apply list_find_Some in E as (Hl & Hn & _). cbn in Hn. subst. by exists b.
Qed.

Lemma inline_index_None (name : gostring) (l : list (gostring * Binding)) :
  inline_index name l = None -> name ∉ map fst l.
Proof.
  unfold inline_index. destruct (list_find _ l) eqn:E; [done|]. intros _ H.
  apply list_find_None in E. apply list_elem_of_fmap in H as ([n b] & -> & H).
  rewrite Forall_forall in E. by apply (E (n, b)).
Qed.

Lemma list_to_map_absent (name : gostring) (l : list (gostring * Binding)) :
  name ∉ map fst l -> (list_to_map l : gmap gostring Binding) !! name = None.
Proof. intros H. by apply not_elem_of_list_to_map_1. Qed.

Lemma list_to_map_perm (l k : list (gostring * Binding)) :
  NoDup (map fst l) -> l ≡ₚ k -> (list_to_map l : gmap gostring Binding) = list_to_map k.
Proof. intros. by apply list_to_map_proper. Qed.

Lemma lookup_split {A : Type} (l : list A) (i : nat) (x : A) :
  l !! i = Some x -> exists l1 l2, l = l1 ++ x :: l2 /\ length l1 = i.
Proof.
  intros H. exists (take i l), (drop (S i) l). split; [by rewrite take_drop_middle|].
  apply length_take_le. apply lookup_lt_Some in H. lia.
Qed.

Lemma insert_middle {A : Type} (l1 l2 : list A) (x y : A) :
  <[length l1 := y]> (l1 ++ x :: l2) = l1 ++ y :: l2.
Proof. by rewrite insert_app_r_alt, Nat.sub_diag by done. Qed.

Lemma remove_inline_perm (l1 l2 : list (gostring * Binding)) (p : gostring * Binding) :
  remove_inline (length l1) (l1 ++ p :: l2) ≡ₚ l1 ++ l2.
Proof.
  unfold remove_inline. destruct l2 as [|x l2 _] using rev_ind.
  - rewrite last_snoc, insert_middle, removelast_last. by rewrite app_nil_r.
  - rewrite app_comm_cons, app_assoc, last_snoc.
    assert (<[length l1 := x]> ((l1 ++ p :: l2) ++ [x]) = (l1 ++ x :: l2) ++ [x]) as ->
      by (rewrite <- !app_assoc; exact (insert_middle l1 (l2 ++ [x]) p x)).
    rewrite removelast_last, app_assoc. by rewrite <- Permutation_middle, Permutation_cons_append.
Qed.

Lemma lookupLocked_map (e : Environment) (name : gostring) :
  scope_wf e -> lookupLocked e name = scope_map e !! name.
Proof.
  intros [Hnd _ _]. unfold lookupLocked, scope_map.
  destruct (inline_index name (inline e)) as [i|] eqn:E.
  - destruct (inline_index_Some _ _ _ E) as [b Hb]. rewrite Hb. cbn. symmetry.
    apply lookup_union_Some_l, elem_of_list_to_map; [done|]. by eapply list_elem_of_lookup_2.
  - apply inline_index_None in E. rewrite lookup_union_r by by apply list_to_map_absent.
    by destruct (store e).
Qed.

(** The new binding goes to the map, or to the end of the inline array. *)
Lemma set_in_store (name : gostring) (b : Binding) (e : Environment) :
  scope_wf e -> name ∉ map fst (inline e) ->
  let e' := with_store (<[name := b]> (default ∅ (store e))) e in
  scope_wf e' /\ scope_map e' = <[name := b]> (scope_map e).
Proof.
  intros [Hnd Hl Hd] Hn. split.
  - split; cbn; [done|done|]. intros n Hin. rewrite lookup_insert_ne by (by intros ->). by apply Hd.
  - unfold scope_map. cbn. by rewrite insert_union_r by by apply list_to_map_absent.
Qed.

Lemma set_at_end (name : gostring) (b : Binding) (e : Environment) :
  scope_wf e -> name ∉ map fst (inline e) -> default ∅ (store e) !! name = None ->
  (length (inline e) < inlineMax)%nat ->
  let e' := with_inline (inline e ++ [(name, b)]) e in
  scope_wf e' /\ scope_map e' = <[name := b]> (scope_map e).
Proof.
  intros [Hnd Hl Hd] Hn Hs Hlen.
  assert (NoDup (map fst (inline e ++ [(name, b)]))) as Hnd'.
  { rewrite map_app. apply NoDup_app. split_and!; [done| |apply NoDup_singleton].
    intros n Hin H. cbn in H. apply list_elem_of_singleton in H as ->. by apply Hn. }
  split.
  - split; cbn; [done|rewrite length_app; cbn; lia|].
    intros n. rewrite map_app. intros [Hin|Hin]%elem_of_app; [by apply Hd|].
    cbn in Hin. by apply list_elem_of_singleton in Hin as ->.
  - unfold scope_map. cbn.
    rewrite (list_to_map_perm _ ((name, b) :: inline e)) by (done || by rewrite Permutation_app_comm).
    cbn. by rewrite insert_union_l.
Qed.

Lemma setLocked_map (name : gostring) (b : Binding) (e : Environment) :
  scope_wf e -> scope_wf (setLocked name b e) /\ scope_map (setLocked name b e) = <[name := b]> (scope_map e).
Proof.
  intros Hwf. unfold setLocked. destruct (inline_index name (inline e)) as [i|] eqn:E.
  - destruct (inline_index_Some _ _ _ E) as [b0 Hb].
    destruct (lookup_split _ _ _ Hb) as (l1 & l2 & El & <-). destruct Hwf as [Hnd Hl Hd].
    unfold scope_map. cbn [with_inline inline store]. rewrite El, insert_middle in *.
    rewrite map_app in Hnd. split.
    + split; cbn; [by rewrite map_app|rewrite length_app in *; cbn in *; lia|].
      intros n. rewrite map_app. intros Hn. apply Hd. by rewrite map_app.
    + rewrite (list_to_map_perm _ ((name, b) :: l1 ++ l2)) by first [by rewrite map_app | by rewrite Permutation_middle].
      rewrite (list_to_map_perm (l1 ++ (name, b0) :: l2) ((name, b0) :: l1 ++ l2))
        by first [by rewrite map_app | by rewrite Permutation_middle].
      cbn. by rewrite insert_union_l, insert_insert_eq.
  - apply inline_index_None in E. pose proof (set_in_store name b e Hwf E) as Hstore.
    pose proof (set_at_end name b e Hwf E) as Hend. pose proof (wf_length e Hwf).
    destruct (store e) as [m|]; cbn [default from_option id] in *.
    + destruct (decide (is_Some (m !! name))) as [|Hm]; [done|].
      apply eq_None_not_Some in Hm.
      destruct (Nat.ltb_spec (length (inline e)) inlineMax); [by apply Hend|done].
    + destruct (Nat.ltb_spec (length (inline e)) inlineMax); [by apply Hend|done].
Qed.

Lemma deleteLocked_map (name : gostring) (e : Environment) :
  scope_wf e ->
  scope_wf (fst (deleteLocked name e)) /\
  scope_map (fst (deleteLocked name e)) = delete name (scope_map e) /\
  snd (deleteLocked name e) = bool_decide (is_Some (scope_map e !! name)) /\
  outer (fst (deleteLocked name e)) = outer e.
Proof.
  intros Hwf. rewrite <- lookupLocked_map by done. unfold deleteLocked, lookupLocked, scope_map.
  destruct Hwf as [Hnd Hl Hd].
  destruct (inline_index name (inline e)) as [i|] eqn:E.
  - destruct (inline_index_Some _ _ _ E) as [b0 Hb]. rewrite Hb. cbn [fst snd with_inline inline store outer].
    destruct (lookup_split _ _ _ Hb) as (l1 & l2 & El & <-). rewrite El in *.
    pose proof (remove_inline_perm l1 l2 (name, b0)) as P.
    assert (map fst (l1 ++ (name, b0) :: l2) ≡ₚ name :: map fst (l1 ++ l2)) as Pn
      by (by rewrite <- Permutation_middle).
    rewrite Pn in Hnd. apply NoDup_cons in Hnd as [Hnin Hnd].
    split_and!; [|  |by rewrite bool_decide_true by (by eexists)|done].
    + split; cbn; [by rewrite P|rewrite P; rewrite length_app in *; cbn in *; lia|].
      intros n Hn. apply Hd. rewrite P in Hn. rewrite Pn. by right.
    + rewrite delete_union, (delete_id (default ∅ (store e))) by (apply Hd; rewrite Pn; by left).
      f_equal. rewrite (list_to_map_perm _ (l1 ++ l2)) by (by rewrite ?P).
      rewrite (list_to_map_perm (l1 ++ (name, b0) :: l2) ((name, b0) :: l1 ++ l2)).
      * cbn. by rewrite delete_insert_id by by apply list_to_map_absent.
      * rewrite Pn. by constructor.
      * by rewrite Permutation_middle.
  - apply inline_index_None in E. destruct (store e) as [m|] eqn:Em; cbn [default from_option id mbind option_bind].
    + destruct (decide (is_Some (m !! name))) as [Hm|Hm]; cbn.
      * split_and!; [|by rewrite delete_union, (delete_id (list_to_map _)) by by apply list_to_map_absent
                     |by rewrite bool_decide_true|done].
        split; cbn; [done|done|]. intros n Hn. apply lookup_delete_None. right. by apply Hd.
      * rewrite bool_decide_false by done. apply eq_None_not_Some in Hm.
        split_and!; [by split; rewrite ?Em| |done|done]. rewrite Em. cbn.
        rewrite delete_id; [done|]. apply lookup_union_None. split; [by apply list_to_map_absent|done].
    + cbn. split_and!; [by split; rewrite ?Em| |done|done]. rewrite Em. cbn.
      rewrite delete_id; [done|]. rewrite lookup_union, lookup_empty, list_to_map_absent by done. done.
Qed.

Lemma env_names_map (e : Environment) :
  scope_wf e -> NoDup (env_names e) /\ env_names e ≡ₚ elements (dom (scope_map e)).
Proof.
  intros [Hnd Hl Hd].
  assert (NoDup (env_names e)) as Hn.
  { unfold env_names, ForEachBinding. rewrite map_app. apply NoDup_app.
    split_and!; [done| |apply NoDup_fst_map_to_list]. intros n Hn Hm. apply Hd in Hn.
    apply list_elem_of_fmap in Hm as ([n' b] & -> & Hb). apply elem_of_map_to_list in Hb. cbn in Hn. congruence. }
  split; [done|]. apply NoDup_Permutation; [done|apply NoDup_elements|].
  intros n. rewrite elem_of_elements. unfold scope_map.
    rewrite dom_union, dom_list_to_map_L, elem_of_union, elem_of_list_to_set, elem_of_dom.
    unfold env_names, ForEachBinding. rewrite map_app, elem_of_app.
    enough (n ∈ map fst (map_to_list (default ∅ (store e))) <-> is_Some (default ∅ (store e) !! n)) as ->
      by done.
    rewrite list_elem_of_fmap. split.
    + intros ([n' b] & -> & Hb). apply elem_of_map_to_list in Hb. by exists b.
    + intros [b Hb]. exists (n, b). split; [done|]. by apply elem_of_map_to_list.
Qed.

(** ** Running operations *)

Inductive env_op :=
| ONew (outer : option nat)
| ODefine (a : nat) (name : gostring) (value : EnvValue) (constant : bool)
| ODefineImported (a : nat) (name : gostring) (value : EnvValue) (source : gostring)
| ODefineFunction (a : nat) (name : gostring) (fn : Z)
| OAssign (a : nat) (name : gostring) (value : EnvValue)
| OGet (a : nat) (name : gostring)
| ODelete (a : nat) (name : gostring)
| ODefineTypeAlias (a : nat) (name : gostring) (target : Z)
| OGetTypeAlias (a : nat) (name : gostring)
| ODefineTypeBinding (a : nat) (name typeName : gostring)
| OGetTypeBinding (a : nat) (name : gostring)
| ONames (a : nat)
| OVisibleNames (a : nat)
| OTypeBindingNames (a : nat).

Inductive env_out :=
| OutEnv (a : nat)
| OutResult (r : result EnvError unit)
| OutValue (v : option EnvValue)
| OutBool (b : bool)
| OutAlias (t : option Z)
| OutName (n : option gostring)
| OutNames (l : list gostring)
| OutUnit.

Section Run.
Context (grow : nat -> nat) (ToLower : gostring -> gostring).

Definition with_out {E A : Type} (f : A -> env_out) (r : option (heap E * A)) : option (heap E * env_out) :=
  option_map (fun p => (fst p, f (snd p))) r.
Definition keep {E A : Type} (f : A -> env_out) (h : heap E) (r : option A) : option (heap E * env_out) :=
  option_map (fun x => (h, f x)) r.

Definition exec {E : Type} `{Scope E} (o : env_op) (h : heap E) : option (heap E * env_out) :=
  match o with
  | ONew None => let '(h, a) := NewEnvironment h in Some (h, OutEnv a)
  | ONew (Some a) =>
      _ ← envs h !! a; let '(h, a) := NewEnclosedEnvironment (Some a) h in Some (h, OutEnv a)
  | ODefine a n v c => with_out OutResult (Define a n v c h)
  | ODefineImported a n v s => with_out OutResult (DefineImported a n v s h)
  | ODefineFunction a n f => with_out OutResult (DefineFunction grow a n f h)
  | OAssign a n v => with_out OutResult (Assign a n v h)
  | OGet a n => keep OutValue h (Get a n h)
  | ODelete a n => with_out OutBool (Delete a n h)
  | ODefineTypeAlias a n t => with_out (fun _ => OutUnit) (DefineTypeAlias ToLower a n t h)
  | OGetTypeAlias a n => keep OutAlias h (GetTypeAlias ToLower a n h)
  | ODefineTypeBinding a n t => with_out (fun _ => OutUnit) (DefineTypeBinding a n t h)
  | OGetTypeBinding a n => keep OutName h (GetTypeBinding a n h)
  | ONames a => keep OutNames h (Names a h)
  | OVisibleNames a => keep OutNames h (VisibleNames a h)
  | OTypeBindingNames a => keep OutNames h (TypeBindingNames a h)
  end.

(** The addresses an operation is given exist. *)
Definition op_valid {E : Type} (o : env_op) (h : heap E) : Prop :=
  match o with
  | ONew None => True
  | ONew (Some a) | ODefine a _ _ _ | ODefineImported a _ _ _ | ODefineFunction a _ _ | OAssign a _ _
  | OGet a _ | ODelete a _ | ODefineTypeAlias a _ _ | OGetTypeAlias a _ | ODefineTypeBinding a _ _
  | OGetTypeBinding a _ | ONames a | OVisibleNames a | OTypeBindingNames a => is_Some (envs h !! a)
  end.

(** ** The specification of an environment *)

Definition scope_of (e : Environment) : scope :=
  mkScope (scope_map e) (typeBindings e) (typeAliases e) (outer e).
Definition view (h : heap Environment) : heap scope :=
  mkHeap (scope_of <$> envs h) (next h) (frozen h) (arrays h).

(** Scopes are well formed, and each is younger than the scope around it. *)
Definition heap_wf (h : heap Environment) : Prop :=
  forall a e, envs h !! a = Some e ->
    scope_wf e /\ (a < next h)%nat /\
    forall o, outer e = Some o -> (o < a)%nat /\ is_Some (envs h !! o).

Lemma view_lookup (h : heap Environment) (a : nat) : envs (view h) !! a = scope_of <$> envs h !! a.
Proof. apply lookup_fmap. Qed.

Lemma view_with_env (h : heap Environment) (a : nat) (e : Environment) :
  view (with_env a e h) = with_env a (scope_of e) (view h).
Proof. unfold view, with_env. cbn. by rewrite fmap_insert. Qed.

(** A changed scope keeps its enclosing scope. *)
Lemma heap_wf_with_env (h : heap Environment) (a : nat) (e e' : Environment) :
  heap_wf h -> envs h !! a = Some e -> scope_wf e' -> outer e' = outer e -> heap_wf (with_env a e' h).
Proof.
  intros Hh Ha Hw Ho b f. cbn. destruct (Hh _ _ Ha) as (_ & Hn & Hout).
  destruct (decide (b = a)) as [->|Hb].
  - rewrite lookup_insert_eq. intros [= <-]. split_and!; [done|done|]. intros o. rewrite Ho. intros Eo.
    destruct (Hout _ Eo) as [? ?]. split; [done|]. by rewrite lookup_insert_ne by lia.
  - rewrite lookup_insert_ne by done. intros Hf. destruct (Hh _ _ Hf) as (? & ? & Hout').
    split_and!; [done|done|]. intros o Eo. destruct (Hout' _ Eo) as [? ?]. split; [done|].
    destruct (decide (o = a)) as [->|]; [rewrite lookup_insert_eq; by eexists|by rewrite lookup_insert_ne].
Qed.

Lemma setLocked_outer (name : gostring) (b : Binding) (e : Environment) : outer (setLocked name b e) = outer e.
Proof.
  unfold setLocked. destruct (inline_index name (inline e)); [done|].
  destruct (store e); repeat case_match; done.
Qed.

Lemma setLocked_tables (name : gostring) (b : Binding) (e : Environment) :
  typeBindings (setLocked name b e) = typeBindings e /\ typeAliases (setLocked name b e) = typeAliases e.
Proof.
  unfold setLocked. destruct (inline_index name (inline e)); [done|].
  destruct (store e); repeat case_match; done.
Qed.

Lemma scope_of_set (name : gostring) (b : Binding) (e : Environment) :
  scope_wf e -> scope_of (setLocked name b e) = sc_set name b (scope_of e).
Proof.
  intros H. destruct (setLocked_map name b e H) as [_ E]. destruct (setLocked_tables name b e) as [E1 E2].
  unfold scope_of. by rewrite E, E1, E2, setLocked_outer.
Qed.

Lemma set_refines (h : heap Environment) (a : nat) (e : Environment) (name : gostring) (b : Binding) :
  heap_wf h -> envs h !! a = Some e ->
  heap_wf (with_env a (sc_set name b e) h) /\
  view (with_env a (sc_set name b e) h) = with_env a (sc_set name b (scope_of e)) (view h).
Proof.
  intros Hh Ha. destruct (Hh _ _ Ha) as (Hw & _). split.
  - eapply heap_wf_with_env; [done|done|by apply setLocked_map|apply setLocked_outer].
  - rewrite view_with_env. f_equal. by apply scope_of_set.
Qed.

Lemma deleteLocked_tables (name : gostring) (e : Environment) :
  typeBindings (fst (deleteLocked name e)) = typeBindings e /\
  typeAliases (fst (deleteLocked name e)) = typeAliases e.
Proof.
  unfold deleteLocked. destruct (inline_index name (inline e)); [done|].
  destruct (store e); repeat case_match; done.
Qed.

Lemma scope_of_delete (name : gostring) (e : Environment) :
  scope_wf e -> sc_delete name (scope_of e) = (scope_of (fst (deleteLocked name e)), snd (deleteLocked name e)).
Proof.
  intros H. destruct (deleteLocked_map name e H) as (_ & E & E2 & E3).
  destruct (deleteLocked_tables name e) as [E4 E5]. unfold scope_of. by rewrite E, E2, E3, E4, E5.
Qed.

Lemma lookup_refines (h : heap Environment) (a : nat) (e : Environment) (name : gostring) :
  heap_wf h -> envs h !! a = Some e -> sc_lookup e name = sc_lookup (scope_of e) name.
Proof. intros Hh Ha. destruct (Hh _ _ Ha) as (Hw & _). by apply lookupLocked_map. Qed.

(** ** Walks *)

Section Walk.
Context {B : Type} (g : Environment -> option B) (f : scope -> option B).

Lemma walk_view (h : heap Environment) (n a : nat) :
  (forall a e, envs h !! a = Some e -> g e = f (scope_of e)) ->
  walk g n a h = walk f n a (view h).
Proof.
  intros Hg. revert a. induction n as [|n IH]; intros a; [done|]. cbn [walk]. rewrite view_lookup.
  destruct (envs h !! a) as [e|] eqn:Ha; [|done]. cbn [fmap option_fmap option_map mbind option_bind].
  rewrite <- (Hg _ _ Ha). destruct (g e); [done|]. cbn. destruct (outer e); [apply IH|done].
Qed.

Lemma walk_total (h : heap Environment) (n a : nat) :
  heap_wf h -> is_Some (envs h !! a) -> (a < n)%nat -> is_Some (walk g n a h).
Proof.
  intros Hh. revert a. induction n as [|n IH]; intros a [e Ha] Hn; [lia|]. cbn [walk]. rewrite Ha.
  cbn. destruct (g e); [by eexists|]. destruct (outer e) as [o|] eqn:Eo; [|by eexists].
  destruct (Hh _ _ Ha) as (_ & _ & Hout). destruct (Hout _ Eo) as [Ho He]. apply IH; [done|lia].
Qed.

Lemma walk_found (h : heap Environment) (n a d : nat) (b : B) :
  walk g n a h = Some (Some (d, b)) -> exists e, envs h !! d = Some e /\ g e = Some b.
Proof.
  revert a. induction n as [|n IH]; intros a; cbn [walk]; [done|].
  destruct (envs h !! a) as [e|] eqn:Ha; cbn; [|done].
  destruct (g e) eqn:Hg; [intros [= <- <-]; by exists e|]. destruct (outer e); [apply IH|done].
Qed.
End Walk.

Lemma elem_of_add_unseen (names acc : list gostring) (x : gostring) :
  x ∈ add_unseen names acc <-> x ∈ acc \/ x ∈ names.
Proof.
  unfold add_unseen. revert acc. induction names as [|n l IH]; intros acc; cbn [fold_left].
  - rewrite elem_of_nil. tauto.
  - rewrite IH, elem_of_cons. destruct (decide (n ∈ acc)).
    + split; [tauto|]. intros [?|[->|?]]; auto.
    + rewrite elem_of_app, list_elem_of_singleton. tauto.
Qed.

Lemma NoDup_add_unseen (names acc : list gostring) : NoDup acc -> NoDup (add_unseen names acc).
Proof.
  unfold add_unseen. revert acc. induction names as [|n l IH]; intros acc H; cbn [fold_left]; [done|].
  apply IH. destruct (decide (n ∈ acc)); [done|]. apply NoDup_app. split_and!; [done| |apply NoDup_singleton].
  intros x Hx Hn. apply list_elem_of_singleton in Hn as ->. done.
Qed.

Lemma collect_view (f : Environment -> list gostring) (g : scope -> list gostring) (h : heap Environment)
    (n a : nat) (acc acc' : list gostring) :
  (forall a e, envs h !! a = Some e -> forall x, x ∈ f e <-> x ∈ g (scope_of e)) ->
  NoDup acc -> acc ≡ₚ acc' ->
  match collect f n a h acc, collect g n a (view h) acc' with
  | Some l, Some l' => l ≡ₚ l'
  | None, None => True
  | _, _ => False
  end.
Proof.
  intros Hf. revert a acc acc'. induction n as [|n IH]; intros a acc acc' Hnd Hp; [done|].
  cbn [collect]. rewrite view_lookup. destruct (envs h !! a) as [e|] eqn:Ha; [|done]. cbn.
  assert (add_unseen (f e) acc ≡ₚ add_unseen (g (scope_of e)) acc') as Hp'.
  { apply NoDup_Permutation; [by apply NoDup_add_unseen|apply NoDup_add_unseen; by rewrite <- Hp|].
    intros x. rewrite !elem_of_add_unseen, (Hf _ _ Ha x), Hp. done. }
  destruct (outer e); [|done]. apply IH; [by apply NoDup_add_unseen|done].
Qed.

Lemma collect_view_eq (f : Environment -> list gostring) (g : scope -> list gostring) (h : heap Environment)
    (n a : nat) (acc : list gostring) :
  (forall e, f e = g (scope_of e)) -> collect f n a h acc = collect g n a (view h) acc.
Proof.
  intros Hf. revert a acc. induction n as [|n IH]; intros a acc; [done|].
  cbn [collect]. rewrite view_lookup. destruct (envs h !! a) as [e|]; [|done]. cbn.
  rewrite Hf. by destruct (outer e).
Qed.

Lemma collect_is_Some (f : Environment -> list gostring) (h : heap Environment) (n a : nat) acc :
  heap_wf h -> is_Some (envs h !! a) -> (a < n)%nat -> is_Some (collect f n a h acc).
Proof.
  intros Hh. revert a acc. induction n as [|n IH]; intros a acc [e Ha] Hn; [lia|]. cbn [collect]. rewrite Ha.
  cbn. destruct (outer e) as [o|] eqn:Eo; [|by eexists].
  destruct (Hh _ _ Ha) as (_ & _ & Hout). destruct (Hout _ Eo) as [Ho He]. apply IH; [done|lia].
Qed.

(** ** Each operation, on scopes and on maps *)

Definition sim {A : Type} (m : option (heap Environment * A)) (m' : option (heap scope * A)) : Prop :=
  match m with
  | Some (h, x) => heap_wf h /\ m' = Some (view h, x)
  | None => m' = None
  end.

Lemma heap_wf_ext (h h' : heap Environment) :
  envs h' = envs h -> next h' = next h -> heap_wf h -> heap_wf h'.
Proof. intros E1 E2 H. unfold heap_wf. by rewrite E1, E2. Qed.

Lemma sim_set {A : Type} (h : heap Environment) (a : nat) (e : Environment) name b (x : A) :
  heap_wf h -> envs h !! a = Some e ->
  sim (Some (with_env a (sc_set name b e) h, x)) (Some (with_env a (sc_set name b (scope_of e)) (view h), x)).
Proof. intros Hh Ha. destruct (set_refines h a e name b Hh Ha) as [H1 H2]. split; [done|]. by rewrite H2. Qed.

Lemma freeze_frame {E : Type} `{Scope E} (v : EnvValue) (h : heap E) :
  envs (fst (ShallowFreeze v h)) = envs h /\ next (fst (ShallowFreeze v h)) = next h.
Proof. by destruct v. Qed.

Lemma view_freeze (v : EnvValue) (h : heap Environment) :
  ShallowFreeze v (view h) = (view (fst (ShallowFreeze v h)), snd (ShallowFreeze v h)).
Proof. by destruct v. Qed.

Lemma sim_freeze_set (h : heap Environment) (a : nat) (e : Environment) name v (mk : EnvValue -> Binding) :
  heap_wf h -> envs h !! a = Some e ->
  sim (let '(h, v) := ShallowFreeze v h in
       Some (with_env a (sc_set name (mk v) e) h, Ok tt : result EnvError unit))
    (let '(h, v) := ShallowFreeze v (view h) in
     Some (with_env a (sc_set name (mk v) (scope_of e)) h, Ok tt)).
Proof.
  intros Hh Ha. rewrite view_freeze. pose proof (freeze_frame v h) as [E1 E2].
  destruct (ShallowFreeze v h) as [h1 v1]. cbn [fst snd] in *.
  apply sim_set; [by eapply heap_wf_ext|by rewrite E1].
Qed.

Lemma Define_sim (a : nat) name v c (h : heap Environment) :
  heap_wf h -> sim (Define a name v c h) (Define a name v c (view h)).
Proof.
  intros Hh. unfold Define. rewrite view_lookup. destruct (envs h !! a) as [e|] eqn:Ha; [|done].
  cbn [fmap option_fmap option_map mbind option_bind]. rewrite <- (lookup_refines h a e name Hh Ha).
  destruct (sc_lookup e name); [done|]. destruct c; [|by apply sim_set].
  by apply (sim_freeze_set h a e name v (fun v => mkBinding v true false [])).
Qed.

Lemma DefineImported_sim (a : nat) name v src (h : heap Environment) :
  heap_wf h -> sim (DefineImported a name v src h) (DefineImported a name v src (view h)).
Proof.
  intros Hh. unfold DefineImported. rewrite view_lookup. destruct (envs h !! a) as [e|] eqn:Ha; [|done].
  cbn [fmap option_fmap option_map mbind option_bind]. rewrite <- (lookup_refines h a e name Hh Ha).
  pose proof (sim_freeze_set h a e name v (fun v => mkBinding v true true src) Hh Ha).
  destruct (sc_lookup e name); [|done]. by destruct (negb _).
Qed.

Lemma DefineFunction_sim (a : nat) name fn (h : heap Environment) :
  heap_wf h -> sim (DefineFunction grow a name fn h) (DefineFunction grow a name fn (view h)).
Proof.
  intros Hh. unfold DefineFunction. rewrite view_lookup. destruct (envs h !! a) as [e|] eqn:Ha; [|done].
  cbn [fmap option_fmap option_map mbind option_bind]. rewrite <- (lookup_refines h a e name Hh Ha).
  destruct (sc_lookup e name) as [b|]; [|by apply sim_set].
  destruct (Imported b); [done|]. destruct (BValue b); try done.
  - by apply (sim_set (fst (new_slice [fn0; fn] h))).
  - unfold append_slice, cells_of. cbn [view arrays]. destruct (default _ _) as [cells cap].
    destruct (_ <? cap)%nat; by apply (sim_set (mkHeap _ _ _ _)).
Qed.

Lemma Assign_sim (a : nat) name v (h : heap Environment) :
  heap_wf h -> sim (Assign a name v h) (Assign a name v (view h)).
Proof.
  intros Hh. unfold Assign.
  rewrite <- (walk_view (fun e => sc_lookup e name)) by (intros; by eapply lookup_refines).
  destruct (walk _ _ _ _) as [[[d b]|]|] eqn:W; cbn [mbind option_bind]; [|done|done].
  destruct (Constant b); [done|]. rewrite view_lookup.
  destruct (walk_found _ _ _ _ _ _ W) as (e & Hd & _). rewrite Hd. by apply sim_set.
Qed.

Lemma sim_tables {A : Type} (h : heap Environment) (a : nat) (e e' : Environment) (s : scope) (x : A) :
  heap_wf h -> envs h !! a = Some e -> scope_wf e' -> outer e' = outer e -> scope_of e' = s ->
  sim (Some (with_env a e' h, x)) (Some (with_env a s (view h), x)).
Proof.
  intros Hh Ha Hw Ho <-. split; [by eapply heap_wf_with_env|]. by rewrite view_with_env.
Qed.

Lemma Delete_sim (a : nat) name (h : heap Environment) :
  heap_wf h -> sim (Delete a name h) (Delete a name (view h)).
Proof.
  intros Hh. unfold Delete.
  rewrite <- (walk_view (fun e => if snd (sc_delete name e) then Some tt else None)).
  2:{ intros b e Ha. destruct (Hh _ _ Ha) as [Hw _]. by rewrite scope_of_delete. }
  destruct (walk _ _ _ _) as [[[d b]|]|] eqn:W; cbn [mbind option_bind]; [|done|done].
  rewrite view_lookup. destruct (walk_found _ _ _ _ _ _ W) as (e & Hd & _). rewrite Hd.
  cbn [fmap option_fmap option_map]. destruct (Hh _ _ Hd) as [Hw _].
  destruct (deleteLocked_map name e Hw) as (Hw' & _ & _ & Ho).
  destruct (deleteLocked_tables name e) as [E1 E2].
  apply (sim_tables h d e); [done|done|by destruct Hw'; split|done|].
  rewrite scope_of_delete by done. cbn. unfold scope_of. cbn. by rewrite E1.
Qed.

Lemma scope_wf_tables (e : Environment) m1 m2 :
  scope_wf e -> scope_wf (with_typeBindings m1 e) /\ scope_wf (with_typeAliases m2 e).
Proof. intros [? ? ?]. by split. Qed.

Lemma DefineTypeAlias_sim (a : nat) name t (h : heap Environment) :
  heap_wf h -> sim (DefineTypeAlias ToLower a name t h) (DefineTypeAlias ToLower a name t (view h)).
Proof.
  intros Hh. unfold DefineTypeAlias. rewrite view_lookup. destruct (envs h !! a) as [e|] eqn:Ha; [|done].
  cbn [fmap option_fmap option_map mbind option_bind]. destruct (Hh _ _ Ha) as [Hw _].
  apply (sim_tables h a e); [done|done|by apply (scope_wf_tables e ∅)|done|done].
Qed.

Lemma DefineTypeBinding_sim (a : nat) name t (h : heap Environment) :
  heap_wf h -> sim (DefineTypeBinding a name t h) (DefineTypeBinding a name t (view h)).
Proof.
  intros Hh. unfold DefineTypeBinding. rewrite view_lookup. destruct (envs h !! a) as [e|] eqn:Ha; [|done].
  cbn [fmap option_fmap option_map mbind option_bind sc_types scope_Scope types scope_of].
  change (sc_types e) with (typeBindings e). destruct (typeBindings e !! name); [done|].
  destruct (Hh _ _ Ha) as [Hw _].
  apply (sim_tables h a e); [done|done|by apply (scope_wf_tables e _ ∅)|done|done].
Qed.

Lemma New_sim (o : option nat) (h : heap Environment) :
  heap_wf h -> (forall a, o = Some a -> is_Some (envs h !! a)) ->
  sim (Some (NewEnclosedEnvironment o h)) (Some (NewEnclosedEnvironment o (view h))).
Proof.
  intros Hh Ho. unfold NewEnclosedEnvironment. split.
  - intros b e. cbn. destruct (decide (b = next h)) as [->|Hb].
    + rewrite lookup_insert_eq. intros [= <-]. split_and!; [split; cbn; [constructor|lia|done]|lia|].
      cbn. intros p ->. destruct (Ho p eq_refl) as [f Hf]. destruct (Hh _ _ Hf) as (_ & ? & _).
      split; [lia|]. rewrite lookup_insert_ne by lia. by exists f.
    + rewrite lookup_insert_ne by done. intros He. destruct (Hh _ _ He) as (? & ? & Hout).
      split_and!; [done|lia|]. intros p Ep. destruct (Hout _ Ep) as [? [f Hf]]. split; [done|].
      destruct (Hh _ _ Hf) as (_ & ? & _). rewrite lookup_insert_ne by lia. by exists f.
  - unfold view. cbn. rewrite fmap_insert. unfold scope_of, scope_map. cbn. by rewrite map_union_empty.
Qed.

Lemma Names_sim (a : nat) (h : heap Environment) : heap_wf h -> Names a h = Names a (view h).
Proof.
  intros Hh. unfold Names. rewrite view_lookup. destruct (envs h !! a) as [e|] eqn:Ha; [|done]. cbn.
  f_equal. apply sort_strings_unique. destruct (Hh _ _ Ha) as [Hw _]. by apply env_names_map.
Qed.

Lemma VisibleNames_sim (a : nat) (h : heap Environment) :
  heap_wf h -> VisibleNames a h = VisibleNames a (view h).
Proof.
  intros Hh. unfold VisibleNames.
  pose proof (collect_view sc_names sc_names h (S a) a [] []) as C.
  destruct (collect sc_names (S a) a h []) as [l|], (collect sc_names (S a) a (view h) []) as [l'|]; cbn;
    try (destruct C; [|constructor|done]; intros b e Hb x; destruct (Hh _ _ Hb) as [Hw _];
         by rewrite (proj2 (env_names_map e Hw))).
  - f_equal. apply sort_strings_unique, C; [|constructor|done]. intros b e Hb x.
    destruct (Hh _ _ Hb) as [Hw _]. cbn. by rewrite (proj2 (env_names_map e Hw)).
  - done.
Qed.

(** ** The refinement *)

Lemma keep_sim {A : Type} (f : A -> env_out) (h : heap Environment) (r r' : option A) :
  heap_wf h -> r = r' -> sim (keep f h r) (keep f (view h) r').
Proof. intros Hh <-. by destruct r. Qed.

Lemma with_out_sim {A : Type} (f : A -> env_out) (m : option (heap Environment * A)) m' :
  sim m m' -> sim (with_out f m) (with_out f m').
Proof. destruct m as [[h x]|]; cbn; [|by intros ->]. by intros [? ->]. Qed.

Lemma exec_sim (o : env_op) (h : heap Environment) : heap_wf h -> sim (exec o h) (exec o (view h)).
Proof.
  intros Hh. destruct o as [[p|]| | | | | | | | | | | | |]; cbn [exec];
    try (apply with_out_sim; by auto using Define_sim, DefineImported_sim, DefineFunction_sim, Assign_sim,
           Delete_sim, DefineTypeAlias_sim, DefineTypeBinding_sim);
    try (apply keep_sim; [done|]); auto using Names_sim, VisibleNames_sim.
  - rewrite view_lookup. destruct (envs h !! p) as [e|] eqn:Hp; [|done].
    destruct (New_sim (Some p) h Hh) as [H1 H2]; [intros a [= <-]; by eexists|].
    cbn [fmap option_fmap option_map mbind option_bind]. split; [exact H1|].
    exact (f_equal (option_map (fun q => (fst q, OutEnv (snd q)))) H2).
  - destruct (New_sim None h Hh) as [H1 H2]; [done|]. split; [exact H1|]. exact (f_equal (option_map (fun q => (fst q, OutEnv (snd q)))) H2).
  - unfold Get. f_equal. apply walk_view. intros. by eapply lookup_refines.
  - unfold GetTypeAlias. f_equal. by apply walk_view.
  - unfold GetTypeBinding. f_equal. by apply walk_view.
  - unfold TypeBindingNames. by apply collect_view_eq.
Qed.

Fixpoint exec_all {E : Type} `{Scope E} (ops : list env_op) (h : heap E) : option (heap E * list env_out) :=
  match ops with
  | [] => Some (h, [])
  | o :: rest =>
      '(h, x) ← exec o h; '(h, l) ← exec_all rest h; Some (h, x :: l)
  end.

Definition empty_heap {E : Type} : heap E := mkHeap ∅ 0 ∅ ∅.

Lemma exec_all_sim (ops : list env_op) (h : heap Environment) :
  heap_wf h -> sim (exec_all ops h) (exec_all ops (view h)).
Proof.
  revert h. induction ops as [|o rest IH]; intros h Hh; [done|]. cbn [exec_all].
  pose proof (exec_sim o h Hh) as S1. unfold sim in S1. destruct (exec o h) as [[h1 x]|]; cbn [mbind option_bind].
  - destruct S1 as [H1 ->]. cbn. specialize (IH h1 H1). unfold sim in IH.
    destruct (exec_all rest h1) as [[h2 l]|]; cbn; [by destruct IH as [? ->]|by rewrite IH].
  - by rewrite S1.
Qed.
End Run.

(** ** What the evaluator relies on *)

Section Promises.
Context (grow : nat -> nat) (ToLower : gostring -> gostring).

Lemma empty_wf : heap_wf empty_heap.
Proof. intros a e H. cbn in H. by rewrite lookup_empty in H. Qed.

Lemma run_wf (ops : list env_op) (h : heap Environment) (outs : list env_out) :
  exec_all grow ToLower ops empty_heap = Some (h, outs) -> heap_wf h.
Proof.
  intros E. pose proof (exec_all_sim grow ToLower ops empty_heap empty_wf) as S1.
  rewrite E in S1. by destruct S1.
Qed.

Lemma option_map_total {A B : Type} (f : A -> B) (m : option A) : is_Some m -> is_Some (option_map f m).
Proof. intros [x ->]. by eexists. Qed.

Lemma exec_total (o : env_op) (h : heap Environment) :
  heap_wf h -> op_valid o h -> is_Some (exec grow ToLower o h).
Proof.
  intros Hh. destruct o as [[p|]| | | | | | | | | | | | |]; cbn [exec op_valid];
    try (intros Hv; apply option_map_total);
    try (destruct Hv as [e He]; unfold Define, DefineImported, DefineFunction, DefineTypeAlias,
           DefineTypeBinding, Names; rewrite He; cbn [mbind option_bind];
         repeat case_match; by eexists).
  - done.
  - unfold Assign. destruct (walk_total (fun e => sc_lookup e name) h (S a) a Hh Hv) as [[[d b]|] W]; [lia| |];
      rewrite W; cbn; [|by eexists].
    destruct (Constant b); [by eexists|]. destruct (walk_found _ _ _ _ _ _ W) as (e & -> & _). by eexists.
  - by apply option_map_total, walk_total; [| |lia].
  - unfold Delete.
    destruct (walk_total (fun e => if snd (sc_delete name e) then Some tt else None) h (S a) a Hh Hv)
      as [[[d b]|] W]; [lia| |]; rewrite W; cbn; [|by eexists].
    destruct (walk_found _ _ _ _ _ _ W) as (e & -> & _). by eexists.
  - by apply option_map_total, walk_total; [| |lia].
  - by apply option_map_total, walk_total; [| |lia].
  - unfold VisibleNames. destruct (collect_is_Some sc_names h (S a) a [] Hh Hv) as [l ->]; [lia|]. by eexists.
  - apply collect_is_Some; [done|done|lia].
Qed.

(** C33: a tree of scopes with inline arrays and overflow maps behaves, for every
    sequence of operations, exactly as one with a plain map per scope: the same
    values, errors and name lists come out, no operation on an existing scope
    fails to return, and no name is ever bound twice in a scope. *)
Theorem environment_refines_maps (ops : list env_op) :
  exec_all grow ToLower ops (empty_heap : heap scope)
  = option_map (fun p => (view (fst p), snd p)) (exec_all grow ToLower ops (empty_heap : heap Environment)) /\
  forall h outs, exec_all grow ToLower ops empty_heap = Some (h, outs) ->
    heap_wf h /\ forall o, op_valid o h -> is_Some (exec grow ToLower o h).
Proof.
  split.
  - pose proof (exec_all_sim grow ToLower ops empty_heap empty_wf) as S1. unfold sim in S1.
    assert (view empty_heap = empty_heap) as E by (unfold view; cbn; by rewrite fmap_empty).
    rewrite E in S1. destruct (exec_all grow ToLower ops empty_heap) as [[h l]|]; [by destruct S1 as [_ ->]|done].
  - intros h outs E. pose proof (run_wf _ _ _ E) as Hh. split; [done|]. intros o. by apply exec_total.
Qed.

(** The innermost scope around [a] that binds [name], and its binding. *)
Inductive innermost (name : gostring) (sc : gmap nat scope) : nat -> option (nat * Binding) -> Prop :=
| inner_here a s b :
    sc !! a = Some s -> bindings s !! name = Some b -> innermost name sc a (Some (a, b))
| inner_outer a s o r :
    sc !! a = Some s -> bindings s !! name = None -> parent s = Some o ->
    innermost name sc o r -> innermost name sc a r
| inner_top a s :
    sc !! a = Some s -> bindings s !! name = None -> parent s = None -> innermost name sc a None.

Lemma walk_innermost (name : gostring) (h : heap scope) (n a : nat) (r : option (nat * Binding)) :
  walk (fun s => sc_lookup s name) n a h = Some r -> innermost name (envs h) a r.
Proof.
  revert a. induction n as [|n IH]; intros a; cbn [walk]; [done|].
  destruct (envs h !! a) as [s|] eqn:Ha; cbn; [|done].
  destruct (bindings s !! name) as [b|] eqn:Hb; [intros [= <-]; by eapply inner_here|].
  destruct (parent s) as [o|] eqn:Ho; [|intros [= <-]; by eapply inner_top].
  intros W. eapply inner_outer; eauto.
Qed.

(** C34: names are lexically scoped: reading a name gives the innermost binding
    around the scope; assigning to it changes the value of exactly that binding,
    in exactly that scope, and is refused when it is a constant or when no scope
    binds the name. *)
Theorem lexical_scoping (ops : list env_op) (h : heap Environment) (outs : list env_out)
    (a : nat) (name : gostring) (v : EnvValue) :
  exec_all grow ToLower ops empty_heap = Some (h, outs) -> is_Some (envs h !! a) ->
  exists r, innermost name (envs (view h)) a r /\
    Get a name h = Some (option_map (fun p => BValue (snd p)) r) /\
    match r with
    | None => Assign a name v h = Some (h, Err (NotDeclared name))
    | Some (d, b) =>
        if Constant b then Assign a name v h = Some (h, Err (AssignToConstant name))
        else exists h', Assign a name v h = Some (h', Ok tt) /\
               view h' = mkHeap (alter (sc_set name (mkBinding v false (Imported b) (ImportSource b))) d
                                   (envs (view h))) (next h) (frozen h) (arrays h)
    end.
Proof.
  intros E Ha. pose proof (run_wf _ _ _ E) as Hh.
  destruct (walk_total (fun e => sc_lookup e name) h (S a) a Hh Ha ltac:(lia)) as [r W].
  exists r. split; [|split].
  - apply (walk_innermost name (view h) (S a)). rewrite <- W. symmetry.
    apply walk_view. intros. by eapply lookup_refines.
  - unfold Get. by rewrite W.
  - destruct r as [[d b]|]; unfold Assign; rewrite W; cbn [mbind option_bind]; [|done].
    destruct (Constant b) eqn:Hc; [done|]. destruct (walk_found _ _ _ _ _ _ W) as (e & Hd & _).
    rewrite Hd. cbn. eexists. split; [reflexivity|].
    destruct (set_refines h d e name (mkBinding v false (Imported b) (ImportSource b)) Hh Hd) as [_ R].
    cbn in R. rewrite R. unfold with_env. f_equal. apply map_eq. intros i.
    destruct (decide (i = d)) as [->|].
    + rewrite lookup_insert_eq, lookup_alter_eq. change (envs (view h)) with (scope_of <$> envs h).
      by rewrite lookup_fmap, Hd.
    + by rewrite lookup_insert_ne, lookup_alter_ne by done.
Qed.

(** The binding [b] of [name] in the scope [a]. *)
Definition binds (h : heap scope) (a : nat) (name : gostring) (b : Binding) : Prop :=
  exists s, envs h !! a = Some s /\ bindings s !! name = Some b.

Lemma binds_with_env (h h1 : heap scope) (a d : nat) (name : gostring) (b : Binding) (t : scope) :
  binds h a name b -> envs h1 = envs h -> (d = a -> bindings t !! name = Some b) ->
  binds (with_env d t h1) a name b.
Proof.
  intros (s & Ha & Hb) E Ht. unfold binds. cbn. rewrite E. destruct (decide (d = a)) as [->|].
  - rewrite lookup_insert_eq. exists t. auto.
  - rewrite lookup_insert_ne by done. by exists s.
Qed.

Lemma binds_lookup (h : heap scope) (a : nat) (name : gostring) (b : Binding) (s : scope) :
  binds h a name b -> envs h !! a = Some s -> bindings s !! name = Some b.
Proof. intros (s' & Ha & Hb) E. congruence. Qed.

(** Setting another name, or a name that is not bound, keeps a binding. *)
Lemma binds_set (h h1 : heap scope) (a d : nat) (name n : gostring) (b b' : Binding) (s : scope) :
  binds h a name b -> envs h1 = envs h -> envs h !! d = Some s ->
  (d = a -> n <> name) -> binds (with_env d (sc_set n b' s) h1) a name b.
Proof.
  intros Hb E Hd Hn. eapply binds_with_env; [done|done|]. intros ->. cbn.
  rewrite lookup_insert_ne by auto. by eapply binds_lookup.
Qed.

(** The operations that may replace a constant. *)
Definition may_replace (o : env_op) (a : nat) (name : gostring) (b : Binding) : Prop :=
  match o with
  | ODelete _ n => n = name
  | ODefineFunction d n _ => d = a /\ n = name /\ Imported b = false
  | ODefineImported d n _ src => d = a /\ n = name /\ Imported b = true /\ ImportSource b = src
  | _ => False
  end.

Lemma walk_found_map {B : Type} (f : scope -> option B) (h : heap scope) (n a d : nat) (x : B) :
  walk f n a h = Some (Some (d, x)) -> exists s, envs h !! d = Some s /\ f s = Some x.
Proof.
  revert a. induction n as [|n IH]; intros a; cbn [walk]; [done|].
  destruct (envs h !! a) as [s|] eqn:Ha; cbn; [|done].
  destruct (f s) eqn:Hf; [intros [= <- <-]; by exists s|]. destruct (parent s); [apply IH|done].
Qed.

(** An operation that sets [n] in [d], from a heap with the same scopes. *)
Lemma binds_set_or (h h1 : heap scope) (a d : nat) (name n : gostring) (b b' : Binding) (s : scope) (P : Prop) :
  binds h a name b -> envs h1 = envs h -> envs h !! d = Some s ->
  (d = a -> n = name -> bindings s !! n = Some b -> P) ->
  binds (with_env d (sc_set n b' s) h1) a name b \/ P.
Proof.
  intros Hb E Hd HP. destruct (decide (d = a /\ n = name)) as [[-> ->]|Hn].
  - right. apply HP; [done|done|]. by eapply binds_lookup.
  - left. eapply binds_set; [done|done|done|]. intros -> ->. by apply Hn.
Qed.

Lemma constant_defined (o : env_op) (h h' : heap scope) (out : env_out) (a : nat) (name : gostring) (b : Binding) :
  match o with ODefine _ _ _ _ | ODefineImported _ _ _ _ | ODefineFunction _ _ _ => True | _ => False end ->
  binds h a name b -> exec grow ToLower o h = Some (h', out) -> binds h' a name b \/ may_replace o a name b.
Proof.
  intros Ho Hb. destruct o as [|d n v c|d n v src|d n fn| | | | | | | | | |]; try done; cbn [exec]; unfold with_out;
    unfold Define, DefineImported, DefineFunction;
    (destruct (envs h !! d) as [s|] eqn:Hd; cbn [mbind option_bind option_map]; [|done]);
    cbn [sc_lookup scope_Scope]; destruct (bindings s !! n) as [b0|] eqn:Hn; try (intros [= <- <-]; by left).
  - pose proof (freeze_frame v h) as [E _]. destruct c, (ShallowFreeze v h) as [h1 v1]; cbn in E;
      intros [= <- <-]; eapply binds_set_or; try done; intros _ _; by rewrite Hn.
  - destruct (negb _) eqn:Hi; [intros [= <- <-]; by left|].
    pose proof (freeze_frame v h) as [E _]. destruct (ShallowFreeze v h) as [h1 v1]; cbn in E.
    intros [= <- <-]. eapply binds_set_or; [done|done|done|]. intros -> -> Hn'. rewrite Hn in Hn'.
    injection Hn' as ->. apply negb_false_iff, andb_true_iff in Hi as [? Hs].
    apply bool_decide_eq_true in Hs. by split_and!.
  - pose proof (freeze_frame v h) as [E _]. destruct (ShallowFreeze v h) as [h1 v1]; cbn in E.
    intros [= <- <-]. eapply binds_set_or; try done. intros _ _. by rewrite Hn.
  - destruct (Imported b0) eqn:Hi; [intros [= <- <-]; by left|].
    assert (d = a -> n = name -> bindings s !! n = Some b -> may_replace (ODefineFunction d n fn) a name b) as HP.
    { intros -> -> Hn'. cbn. split_and!; [done|done|]. by simplify_eq. }
    destruct (BValue b0); try (intros [= <- <-]; by left).
    + intros [= <- <-]. by eapply binds_set_or.
    + unfold append_slice. destruct (cells_of h _) as [cells cap].
      destruct (_ <? cap)%nat; intros [= <- <-]; by eapply binds_set_or.
  - intros [= <- <-]. eapply binds_set_or; try done. intros _ _. by rewrite Hn.
Qed.

Lemma spec_constant (o : env_op) (h h' : heap scope) (out : env_out) (a : nat) (name : gostring) (b : Binding) :
  (forall d s, envs h !! d = Some s -> (d < next h)%nat) ->
  binds h a name b -> Constant b = true -> exec grow ToLower o h = Some (h', out) ->
  binds h' a name b \/ may_replace o a name b.
Proof.
  intros Hnext Hb Hc. destruct o as [p|d n v c|d n v src|d n fn|d n v|d n|d n|d n t|d n|d n t|d n|d|d|d];
    try (intros E; by eapply constant_defined); cbn [exec]; unfold with_out, keep;
    try (destruct (Get _ _ _) || destruct (GetTypeAlias _ _ _ _) || destruct (GetTypeBinding _ _ _)
         || destruct (Names _ _) || destruct (VisibleNames _ _) || destruct (TypeBindingNames _ _);
         cbn; [|done]; intros [= <- <-]; by left).
  - assert (forall q, binds (fst (NewEnclosedEnvironment q h)) a name b) as HN.
    { intros q. destruct Hb as (s & Ha & Hb). exists s. split; [|done]. cbn.
      rewrite lookup_insert_ne; [done|]. specialize (Hnext _ _ Ha). lia. }
    destruct p as [p|]; [destruct (envs h !! p); cbn; [|done]|]; intros [= <- <-]; left; apply HN.
  - unfold Assign. destruct (walk _ _ _ _) as [[[e b0]|]|] eqn:W; cbn [mbind option_bind option_map];
      [|intros [= <- <-]; by left|done].
    destruct (Constant b0) eqn:Hc0; [intros [= <- <-]; by left|].
    destruct (walk_found_map _ _ _ _ _ _ W) as (s & Hs & Hn). rewrite Hs. cbn. intros [= <- <-].
    eapply binds_set_or; [done|done|done|]. intros _ _. cbn in Hn. rewrite Hn. intros [= ->]. congruence.
  - unfold Delete. destruct (walk _ _ _ _) as [[[e b0]|]|] eqn:W; cbn [mbind option_bind option_map];
      [|intros [= <- <-]; by left|done].
    destruct (walk_found_map _ _ _ _ _ _ W) as (s & Hs & _). rewrite Hs. cbn. intros [= <- <-].
    destruct (decide (n = name)) as [->|Hn]; [by right|]. left.
    eapply binds_with_env; [done|done|]. intros ->. cbn. rewrite lookup_delete_ne by done. by eapply binds_lookup.
  - unfold DefineTypeAlias. destruct (envs h !! d) as [s|] eqn:Hd; cbn; [|done]. intros [= <- <-]. left.
    eapply binds_with_env; [done|done|]. intros ->. cbn. by eapply binds_lookup.
  - unfold DefineTypeBinding. destruct (envs h !! d) as [s|] eqn:Hd; cbn; [|done].
    destruct (types s !! n); cbn; intros [= <- <-]; left; [done|].
    eapply binds_with_env; [done|done|]. intros ->. cbn. by eapply binds_lookup.
Qed.

(** Only the declaration of a function writes to the arrays of overload sets. *)
Definition declares_function (o : env_op) : bool := match o with ODefineFunction _ _ _ => true | _ => false end.
Lemma exec_arrays (o : env_op) (h h' : heap Environment) (out : env_out) :
  declares_function o = false -> exec grow ToLower o h = Some (h', out) -> arrays h' = arrays h.
Proof.
  intros Ho. destruct o; try discriminate Ho; cbn [exec]; unfold with_out, keep, option_map, NewEnvironment,
    NewEnclosedEnvironment, Define, DefineImported, Assign, Delete, DefineTypeAlias, DefineTypeBinding, mbind,
    option_bind, ShallowFreeze; intros E; repeat (case_match; simplify_eq/=); done.
Qed.

(** C35: a constant binding is never changed: after any operation it is still there with its value, unless
    the operation deletes the name, adds an overload to a function of the name in its scope, or imports again
    the very symbol that the name was imported from.  The value of an overload set is a slice of functions;
    the array under it is written by no operation but the declaration of a function, so with any other
    operation a constant overload set keeps its functions as well.  (A declaration under another name that
    shares the array does change them: [overload_arrays_shared].) *)
Theorem constants_stay (ops : list env_op) (h h' : heap Environment) (outs : list env_out) (o : env_op)
    (out : env_out) (a : nat) (e : Environment) (name : gostring) (b : Binding) :
  exec_all grow ToLower ops empty_heap = Some (h, outs) ->
  envs h !! a = Some e -> lookupLocked e name = Some b -> Constant b = true ->
  exec grow ToLower o h = Some (h', out) ->
  ((exists e', envs h' !! a = Some e' /\ lookupLocked e' name = Some b) \/ may_replace o a name b) /\
  (declares_function o = false -> forall fs, overloads_of h' fs = overloads_of h fs).
Proof.
  intros E Ha Hn Hc X. split.
  2:{ intros Ho fs. unfold overloads_of, cells_of. by rewrite (exec_arrays _ _ _ _ Ho X). }
  pose proof (run_wf _ _ _ E) as Hh.
  pose proof (exec_sim grow ToLower o h Hh) as S1. rewrite X in S1. destruct S1 as [Hh' X'].
  destruct (spec_constant o (view h) (view h') out a name b) as [(s & Hs & Hb)|?]; [| |done|done| |by right].
  - intros d s. rewrite view_lookup. intros (f & Hf & _)%fmap_Some. by apply (Hh _ _ Hf).
  - exists (scope_of e). rewrite view_lookup, Ha. split; [done|]. cbn.
    rewrite <- lookupLocked_map by (by apply (Hh _ _ Ha)). done.
  - left. rewrite view_lookup in Hs. apply fmap_Some in Hs as (e' & He' & ->). exists e'. split; [done|].
    rewrite lookupLocked_map by (by apply (Hh' _ _ He')). exact Hb.
Qed.
End Promises.

(** ** Overload sets *)

(** The declared name always ends with its new overload. *)
Lemma append_slice_spec (grow : nat -> nat) (s : slice) (fn : Z) (h : heap Environment) :
  (len s <= length (fst (cells_of h s)))%nat ->
  let '(h', s') := append_slice grow s fn h in overloads_of h' s' = overloads_of h s ++ [fn].
Proof.
  unfold overloads_of, append_slice. intros Hl. destruct (cells_of h s) as [cells cap] eqn:E. cbn [fst] in *.
  assert (length (take (len s) cells) = len s) as HL by (rewrite length_take; lia).
  destruct (len s <? cap)%nat; unfold cells_of; cbn [arrays array len]; rewrite lookup_insert_eq; cbn [from_option fst id].
  - rewrite take_app, HL. replace (S (len s) - len s)%nat with 1%nat by lia. cbn. rewrite firstn_all2; [done|lia].
  - rewrite firstn_all2; [done|]. rewrite length_app, HL. cbn. lia.
Qed.

(** Growing by doubling leaves room behind three functions: a second name for
    the overload set shares the array, and a function declared under each name
    is written to the same cell. *)
Definition shared_overloads : list env_op :=
  [ONew None; ODefineFunction 0 (bs "f") 1; ODefineFunction 0 (bs "f") 2; ODefineFunction 0 (bs "f") 3;
   ODefine 0 (bs "g") (EOverloadedFunction (bs "f") (mkSlice 1 3)) false;
   ODefineFunction 0 (bs "f") 4; ODefineFunction 0 (bs "g") 5].

Theorem overload_arrays_shared (ToLower : gostring -> gostring) :
  exists h outs e b s,
    exec_all (fun n => n + (n - 2))%nat ToLower shared_overloads (empty_heap : heap Environment) = Some (h, outs) /\
    envs h !! 0%nat = Some e /\ lookupLocked e (bs "f") = Some b /\
    BValue b = EOverloadedFunction (bs "f") s /\ overloads_of h s = [1; 2; 3; 5].
Proof. do 5 eexists. split; [vm_compute; reflexivity|]. split_and!; vm_compute; reflexivity. Qed.

(** A global constant, and a scope around it that shadows a variable. *)
Definition sample_ops : list env_op :=
  [ONew None; ODefine 0 (bs "limit") (EList 7) true; ODefine 0 (bs "x") (EFunction 1) false;
   ONew (Some 0%nat); ODefine 1 (bs "x") (EFunction 2) false].

Lemma lexical_scoping_witness :
  exists h outs, exec_all (fun n => n) (fun s => s) sample_ops (empty_heap : heap Environment) = Some (h, outs) /\
    exists r, innermost (bs "x") (envs (view h)) 1 r /\
      Get 1 (bs "x") h = Some (option_map (fun p => BValue (snd p)) r) /\
      match r with
      | None => Assign 1 (bs "x") (EFunction 3) h = Some (h, Err (NotDeclared (bs "x")))
      | Some (d, b) =>
          if Constant b then Assign 1 (bs "x") (EFunction 3) h = Some (h, Err (AssignToConstant (bs "x")))
          else exists h', Assign 1 (bs "x") (EFunction 3) h = Some (h', Ok tt) /\
                 view h' = mkHeap (alter (sc_set (bs "x")
                   (mkBinding (EFunction 3) false (Imported b) (ImportSource b))) d (envs (view h)))
                   (next h) (frozen h) (arrays h)
      end.
Proof.
  do 2 eexists. split; [vm_compute; reflexivity|].
  eapply (lexical_scoping (fun n => n) (fun s => s) sample_ops); [vm_compute; reflexivity|by eexists].
Defined.

Definition heap_after (ops : list env_op) : heap Environment :=
  match exec_all (fun n => n) (fun s => s) ops empty_heap with Some (h, _) => h | None => empty_heap end.

Lemma constants_stay_witness :
  let h' := heap_after (sample_ops ++ [OAssign 1 (bs "limit") (EList 8)]) in
  let b := mkBinding (EList 7) true false [] in
  ((exists e', envs h' !! 0%nat = Some e' /\ lookupLocked e' (bs "limit") = Some b)
   \/ may_replace (OAssign 1 (bs "limit") (EList 8)) 0 (bs "limit") b) /\
  (declares_function (OAssign 1 (bs "limit") (EList 8)) = false ->
   forall fs, overloads_of h' fs = overloads_of (heap_after sample_ops) fs).
Proof.
  intros h' b.
  eapply (constants_stay (fun n => n) (fun s => s) sample_ops (heap_after sample_ops) h' _
            (OAssign 1 (bs "limit") (EList 8)) _ 0 _ (bs "limit") b).
  - vm_compute. reflexivity.
  - vm_compute. reflexivity.
  - vm_compute. reflexivity.
  - reflexivity.
  - vm_compute. reflexivity.
Defined.
