(* ===== verification/Binding.v ===== *)
(** * Binding: call arguments to parameter slots

    The argument binder shared by the bytecode compiler, the VM's run-time
    call paths and the evaluator (src/internal/binding/binding.go): a call's
    positional and named arguments are mapped to the callee's parameter slots,
    honouring defaults and a trailing variadic parameter, and a native callee
    receives the arguments back in parameter order. *)

From S2P Require Import Prelude GoText.
#[local] Open Scope Z_scope.

(** ** Data *)

(** [Signature]. *)
Record Signature := mkSignature {
  FuncName : gostring; ParamNames : list gostring; HasDefault : list bool; Variadic : bool }.

(** [Arg]: the name is empty for a positional argument. *)
Record Arg := mkArg { Arg_Name : gostring }.

(** [DefaultSlot]. *)
Definition DefaultSlot : Z := -1.

(** [Result]: per parameter the index of the argument that fills it, and the
    positional overflow of a variadic call. *)
Record Result := mkResult { Slots : list Z; TailArgs : list Z }.

#[global] Instance Result_eq_dec : EqDecision Result.
Proof. solve_decision. Defined.

(** The errors, one constructor for each format string of [Order] and
    [NativeArgOrder]. *)
Inductive BindError :=
| MissingArgument (fn param : gostring)
| ExpectsAtMost (fn : gostring) (limit got : Z)
| NoParameter (fn param : gostring)
| PassedMoreThanOnce (fn param : gostring).

#[global] Instance BindError_eq_dec : EqDecision BindError.
Proof. solve_decision. Defined.

(** [DisplayName]. *)
Definition DisplayName (name : gostring) : gostring :=
  match name with [] => bs "<closure>" | _ => name end.

(** The text of an error. *)
Definition BindError_text (e : BindError) : gostring :=
  match e with
  | MissingArgument fn p => DisplayName fn ++ bs " missing argument " ++ p
  | ExpectsAtMost fn n m =>
      DisplayName fn ++ bs " expects at most " ++ FormatInt n ++ bs " arguments, got " ++ FormatInt m
  | NoParameter fn p => DisplayName fn ++ bs " has no parameter " ++ p
  | PassedMoreThanOnce fn p => DisplayName fn ++ bs " parameter " ++ p ++ bs " passed more than once"
  end.

(** ** Operations *)

(** [Signature.hasDefaultAt]. *)
Definition hasDefaultAt (sig : Signature) (i : nat) : bool :=
  match HasDefault sig !! i with Some b => b | None => false end.

(** [Signature.variadicIndex]; [None] is the code's -1. *)
Definition variadicIndex (sig : Signature) : option nat :=
  if Variadic sig && negb (length (ParamNames sig) =? 0)%nat
  then Some (length (ParamNames sig) - 1)%nat else None.

Definition param_name (sig : Signature) (i : nat) : gostring :=
  match ParamNames sig !! i with Some n => n | None => [] end.

Section Order.
(** [strings.ToLower]. *)
Variable ToLower : gostring -> gostring.

(** The loop over the fixed parameters of a call without named arguments:
    [n] parameters from [i] on. *)
Fixpoint fill_fixed (sig : Signature) (argc i n : nat) : result BindError (list Z) :=
  match n with
  | O => Ok []
  | S n =>
      if (i <? argc)%nat then
        let* rest := fill_fixed sig argc (S i) n in Ok (Z.of_nat i :: rest)
      else if negb (hasDefaultAt sig i) then Err (MissingArgument (FuncName sig) (param_name sig i))
      else let* rest := fill_fixed sig argc (S i) n in Ok (DefaultSlot :: rest)
  end.

(** [Order] without named arguments: lines of the [!hasNamed] branch. *)
Definition order_positional (sig : Signature) (argc : nat) : result BindError Result :=
  let paramCount := length (ParamNames sig) in
  let fixedCount := match variadicIndex sig with Some _ => (paramCount - 1)%nat | None => paramCount end in
  if (fixedCount <? argc)%nat && negb (bool_decide (is_Some (variadicIndex sig))) then
    Err (ExpectsAtMost (FuncName sig) (Z.of_nat fixedCount) (Z.of_nat argc))
  else
    let* fixed := fill_fixed sig argc 0 fixedCount in
    let tail := map Z.of_nat (seq fixedCount (argc - fixedCount)) in
    Ok (mkResult (fixed ++ replicate (paramCount - fixedCount) DefaultSlot) tail).

(** [positions]: later parameters of the same lowered name win. *)
Definition positions_from (k : nat) (names : list gostring) (m : gmap gostring nat) :
  gmap gostring nat :=
  snd (fold_left (fun '(i, m) name => (S i, <[ToLower name := i]> m)) names (k, m)).
Definition positions (sig : Signature) : gmap gostring nat := positions_from 0 (ParamNames sig) ∅.

(** [for nextPositional < paramCount && Slots[nextPositional] != DefaultSlot]. *)
Fixpoint skip_filled (slots : list Z) (k : nat) : nat :=
  match slots with
  | s :: slots => if negb (s =? DefaultSlot) then skip_filled slots (S k) else k
  | [] => k
  end.

(** The loop over the arguments of a call with a named argument. *)
Fixpoint fill_named (sig : Signature) (argc : nat) (args : list Arg) (argIndex nextPositional : nat)
    (slots : list Z) : result BindError (list Z) :=
  match args with
  | [] => Ok slots
  | arg :: args =>
      match Arg_Name arg with
      | [] =>
          let next := skip_filled (drop nextPositional slots) nextPositional in
          if (length (ParamNames sig) <=? next)%nat then
            Err (ExpectsAtMost (FuncName sig) (zlen (ParamNames sig)) (Z.of_nat argc))
          else fill_named sig argc args (S argIndex) (S next) (<[next := Z.of_nat argIndex]> slots)
      | name =>
          match positions sig !! ToLower name with
          | None => Err (NoParameter (FuncName sig) name)
          | Some position =>
              match slots !! position with
              | Some s =>
                  if negb (s =? DefaultSlot) then Err (PassedMoreThanOnce (FuncName sig) name)
                  else fill_named sig argc args (S argIndex) nextPositional
                         (<[position := Z.of_nat argIndex]> slots)
              | None => fill_named sig argc args (S argIndex) nextPositional slots
              end
          end
      end
  end.

(** The final loop: every unfilled parameter must have a default. *)
Fixpoint check_defaults (sig : Signature) (i : nat) (slots : list Z) : option BindError :=
  match slots with
  | [] => None
  | s :: slots =>
      if bool_decide (variadicIndex sig = Some i) || negb (s =? DefaultSlot)
      then check_defaults sig (S i) slots
      else if negb (hasDefaultAt sig i) then Some (MissingArgument (FuncName sig) (param_name sig i))
      else check_defaults sig (S i) slots
  end.

Definition order_named (sig : Signature) (args : list Arg) : result BindError Result :=
  let* slots := fill_named sig (length args) args 0 0
                  (replicate (length (ParamNames sig)) DefaultSlot) in
  match check_defaults sig 0 slots with
  | Some e => Err e
  | None => Ok (mkResult slots [])
  end.

Definition is_named (a : Arg) : bool := match Arg_Name a with [] => false | _ => true end.

(** [Order]. *)
Definition Order (sig : Signature) (args : list Arg) : result BindError Result :=
  if existsb is_named args then order_named sig args else order_positional sig (length args).
End Order.

(** The loop of [NativeArgOrder] over the slots. *)
Fixpoint native_slots (sig : Signature) (i : nat) (slots : list Z) (gapAt : option nat) :
  result BindError (list Z * option nat) :=
  match slots with
  | [] => Ok ([], gapAt)
  | slot :: slots =>
      if bool_decide (variadicIndex sig = Some i) then native_slots sig (S i) slots gapAt
      else if 0 <=? slot then
        match gapAt with
        | Some g => Err (MissingArgument (FuncName sig) (param_name sig g))
        | None => let* r := native_slots sig (S i) slots gapAt in Ok (slot :: fst r, snd r)
        end
      else native_slots sig (S i) slots (match gapAt with Some g => Some g | None => Some i end)
  end.

(** [NativeArgOrder]. *)
Definition NativeArgOrder (sig : Signature) (r : Result) : result BindError (list Z) :=
  let* p := native_slots sig 0 (Slots r) None in
  let '(indices, gapAt) := p in
  let* indices :=
    match variadicIndex sig with
    | Some v =>
        match Slots r !! v with
        | Some s =>
            if 0 <=? s then
              match gapAt with
              | Some g => Err (MissingArgument (FuncName sig) (param_name sig g))
              | None => Ok (indices ++ [s])
              end
            else Ok indices
        | None => Ok indices
        end
    | None => Ok indices
    end in
  Ok (indices ++ TailArgs r).

(** ** The binding a successful call gets *)

(** The slots that hold an argument. *)
Definition filled (slots : list Z) : list Z := filter (fun s => s <> DefaultSlot) slots.

Lemma filled_insert (slots : list Z) (i : nat) (z : Z) :
  slots !! i = Some DefaultSlot -> z <> DefaultSlot -> filled (<[i := z]> slots) ≡ₚ z :: filled slots.
Proof.
  intros Hi Hz. unfold filled.
  rewrite <- (take_drop_middle _ _ _ Hi) at 2.
  rewrite insert_take_drop by (by eapply lookup_lt_Some).
  rewrite !filter_app, filter_cons_True by done.
  rewrite (filter_cons_False _ DefaultSlot) by (intros H; by apply H).
  symmetry. apply Permutation_middle.
Qed.

Lemma filled_replicate (n : nat) : filled (replicate n DefaultSlot) = [].
Proof.
  unfold filled. induction n; [done|]. cbn [replicate].
  rewrite filter_cons_False by (intros H; by apply H). done.
Qed.

Lemma filled_all (slots : list Z) :
  (forall i, slots !! i <> Some DefaultSlot) -> filled slots = slots.
Proof.
  unfold filled. induction slots as [|s slots IH]; intros H; [done|].
  rewrite filter_cons_True by (intros ->; by apply (H 0%nat)).
  f_equal. apply IH. intros i. apply (H (S i)).
Qed.

Lemma skip_filled_spec (slots : list Z) (k : nat) :
  (k <= skip_filled slots k <= k + length slots)%nat /\
  (forall i, (k <= i < skip_filled slots k)%nat -> exists s, slots !! (i - k)%nat = Some s /\ s <> DefaultSlot) /\
  ((skip_filled slots k < k + length slots)%nat ->
   slots !! (skip_filled slots k - k)%nat = Some DefaultSlot).
Proof.
  revert k. induction slots as [|s slots IH]; intros k; cbn [skip_filled length].
  { split_and!; intros; lia. }
  destruct (Z.eqb_spec s DefaultSlot) as [->|Hs]; cbn [negb].
  { split_and!; intros; try lia. by rewrite Nat.sub_diag. }
  destruct (IH (S k)) as (H1 & H2 & H3). split_and!; [lia|lia| |].
  - intros i Hi. destruct (decide (i = k)) as [->|].
    + exists s. by rewrite Nat.sub_diag.
    + replace (i - k)%nat with (S (i - S k)) by lia. apply H2. lia.
  - intros H. replace (skip_filled slots (S k) - k)%nat with (S (skip_filled slots (S k) - S k)) by lia.
    apply H3. lia.
Qed.

Lemma check_defaults_spec (sig : Signature) (slots : list Z) (k : nat) :
  match check_defaults sig k slots with
  | None => forall i, slots !! i = Some DefaultSlot ->
              variadicIndex sig = Some (k + i)%nat \/ hasDefaultAt sig (k + i) = true
  | Some e => exists i, slots !! i = Some DefaultSlot /\ variadicIndex sig <> Some (k + i)%nat /\
              hasDefaultAt sig (k + i) = false /\ e = MissingArgument (FuncName sig) (param_name sig (k + i))
  end.
Proof.
  revert k. induction slots as [|s slots IH]; intros k; cbn [check_defaults]; [done|].
  assert (Hrec : bool_decide (variadicIndex sig = Some k) || negb (s =? DefaultSlot) || hasDefaultAt sig k = true ->
    match check_defaults sig (S k) slots with
    | None => forall i, (s :: slots) !! i = Some DefaultSlot ->
              variadicIndex sig = Some (k + i)%nat \/ hasDefaultAt sig (k + i) = true
    | Some e => exists i, (s :: slots) !! i = Some DefaultSlot /\ variadicIndex sig <> Some (k + i)%nat /\
              hasDefaultAt sig (k + i) = false /\ e = MissingArgument (FuncName sig) (param_name sig (k + i))
    end).
  { intros Hs. specialize (IH (S k)). destruct (check_defaults sig (S k) slots) as [e|].
    - destruct IH as (i & H). exists (S i). by rewrite <- Nat.add_succ_comm.
    - intros [|i] Hi; [|rewrite <- Nat.add_succ_comm; by apply IH].
      injection Hi as ->. rewrite Nat.add_0_r. rewrite Z.eqb_refl, orb_false_r in Hs.
      apply orb_true_iff in Hs as [Hs|Hs]; [left; by apply bool_decide_eq_true in Hs|by right]. }
  destruct (bool_decide (variadicIndex sig = Some k)) eqn:Ev; cbn [orb] in *; [by apply Hrec|].
  destruct (Z.eqb_spec s DefaultSlot) as [->|]; cbn [negb orb] in *; [|by apply Hrec].
  destruct (hasDefaultAt sig k) eqn:Ed; cbn [negb]; [by apply Hrec|].
  exists 0%nat. rewrite Nat.add_0_r. apply bool_decide_eq_false in Ev. done.
Qed.

Section Sound.
Variable ToLower : gostring -> gostring.

Lemma positions_from_sound (names : list gostring) (k : nat) (m : gmap gostring nat) (s : gostring) (p : nat) :
  positions_from ToLower k names m !! s = Some p ->
  m !! s = Some p \/ exists n, names !! (p - k)%nat = Some n /\ ToLower n = s /\ (k <= p < k + length names)%nat.
Proof.
  revert k m. induction names as [|n names IH]; intros k m; [by left|].
  intros H. apply (IH (S k)) in H as [H|(n' & H1 & H2 & H3)].
  - rewrite lookup_insert_Some in H. destruct H as [(<- & <-)|(_ & H)]; [|by left].
    right. exists n. rewrite Nat.sub_diag. split_and!; simpl; done || lia.
  - right. exists n'. replace (p - k)%nat with (S (p - S k)) by lia.
    cbn [length]. split_and!; done || lia.
Qed.

Lemma positions_from_complete (names : list gostring) (k : nat) (m : gmap gostring nat) (s : gostring) :
  is_Some (m !! s) \/ s ∈ map ToLower names -> is_Some (positions_from ToLower k names m !! s).
Proof.
  revert k m. induction names as [|n names IH]; intros k m H.
  - destruct H as [H|H]; [done|]. by apply elem_of_nil in H.
  - apply (IH (S k)). cbn [map] in H. rewrite elem_of_cons in H.
    destruct (decide (ToLower n = s)) as [<-|Hn].
    + left. rewrite lookup_insert_eq. eauto.
    + rewrite lookup_insert_ne by done. destruct H as [H|[H|H]]; [by left|congruence|by right].
Qed.

Lemma positions_sound (sig : Signature) (s : gostring) (p : nat) :
  positions ToLower sig !! s = Some p -> exists n, ParamNames sig !! p = Some n /\ ToLower n = s.
Proof.
  intros H. apply positions_from_sound in H as [H|(n & H1 & H2 & _)]; [by rewrite lookup_empty in H|].
  rewrite Nat.sub_0_r in H1. eauto.
Qed.

(** Where the arguments of a call go, without the slots: argument [j] goes to
    parameter [ps !! j].  A named argument goes to the parameter of its name,
    an unnamed one to the first parameter that no earlier argument went to, and
    no parameter receives two arguments. *)
Inductive placed (sig : Signature) : list Arg -> list nat -> Prop :=
  | placed_nil : placed sig [] []
  | placed_named (d : list Arg) (ps : list nat) (a : Arg) (p : nat) :
      placed sig d ps -> is_named a = true ->
      positions ToLower sig !! ToLower (Arg_Name a) = Some p -> p ∉ ps ->
      placed sig (d ++ [a]) (ps ++ [p])
  | placed_positional (d : list Arg) (ps : list nat) (a : Arg) (p : nat) :
      placed sig d ps -> is_named a = false ->
      (p < length (ParamNames sig))%nat -> p ∉ ps -> (forall q, (q < p)%nat -> q ∈ ps) ->
      placed sig (d ++ [a]) (ps ++ [p]).

Lemma placed_length (sig : Signature) (d : list Arg) (ps : list nat) :
  placed sig d ps -> length ps = length d.
Proof. induction 1; [done|rewrite !length_app; simpl; lia..]. Qed.

(** Unnamed arguments go to the parameters from the first on. *)
Lemma placed_unnamed (sig : Signature) (d : list Arg) :
  existsb is_named d = false -> (length d <= length (ParamNames sig))%nat ->
  placed sig d (seq 0 (length d)).
Proof.
  induction d as [|a d IH] using rev_ind; intros Hno Hl; [constructor|].
  rewrite existsb_app in Hno. apply orb_false_iff in Hno as [Hno Ha]. cbn in Ha.
  rewrite orb_false_r in Ha. rewrite length_app in *. cbn [length] in *.
  rewrite Nat.add_1_r, seq_S. cbn [Nat.add]. apply placed_positional; [apply IH; done || lia|done|lia|..].
  - rewrite elem_of_seq. lia.
  - intros q Hq. rewrite elem_of_seq. lia.
Qed.

(** With more unnamed arguments than parameters, one has no parameter left. *)
Lemma surplus_unnamed (sig : Signature) (args : list Arg) :
  existsb is_named args = false -> (length (ParamNames sig) < length args)%nat ->
  exists d a rest ps, args = (d ++ a :: rest) /\ is_named a = false /\ placed sig d ps /\
    (forall i, (i < length (ParamNames sig))%nat -> i ∈ ps).
Proof.
  intros Hno Hlt. set (n := length (ParamNames sig)) in *.
  destruct (lookup_lt_is_Some_2 args n Hlt) as [a Ha].
  pose proof (take_drop_middle _ _ _ Ha) as E. rewrite <- E, existsb_app in Hno.
  apply orb_false_iff in Hno as [Hno Hno2]. cbn in Hno2. apply orb_false_iff in Hno2 as [Hno2 _].
  assert (Hl : length (take n args) = n) by (rewrite length_take; lia).
  exists (take n args), a, (drop (S n) args), (seq 0 n). split_and!; [done..| |].
  - rewrite <- Hl at 2. apply placed_unnamed; done || lia.
  - intros i Hi. rewrite elem_of_seq. lia.
Qed.

(** The slots hold the arguments where they are placed, and no others. *)
Definition slots_hold (ps : list nat) (slots : list Z) : Prop :=
  (forall j p, ps !! j = Some p -> slots !! p = Some (Z.of_nat j)) /\
  (forall p s, slots !! p = Some s -> s <> DefaultSlot -> p ∈ ps).

Lemma slots_hold_default (ps : list nat) (slots : list Z) (p : nat) :
  slots_hold ps slots -> slots !! p = Some DefaultSlot -> p ∉ ps.
Proof.
  intros [H _] Hp Hin. apply list_elem_of_lookup_1 in Hin as (j & Hj).
  apply H in Hj. rewrite Hp in Hj. injection Hj as Hj. unfold DefaultSlot in Hj. lia.
Qed.

Lemma slots_hold_insert (ps : list nat) (slots : list Z) (p : nat) :
  slots_hold ps slots -> slots !! p = Some DefaultSlot ->
  slots_hold (ps ++ [p]) (<[p := Z.of_nat (length ps)]> slots).
Proof.
  intros Hh Hp. pose proof (slots_hold_default _ _ _ Hh Hp) as Hnew.
  pose proof (lookup_lt_Some _ _ _ Hp) as Hlt. destruct Hh as [H1 H2]. split.
  - intros j q Hj. apply lookup_app_Some in Hj as [Hj|[Hj1 Hj2]].
    + rewrite list_lookup_insert_ne; [by apply H1|]. intros ->. apply Hnew. by eapply list_elem_of_lookup_2.
    + apply list_lookup_singleton_Some in Hj2 as [Hj2 <-].
      rewrite list_lookup_insert_eq by done. do 2 f_equal. lia.
  - intros q s Hq Hs. apply elem_of_app. destruct (decide (q = p)) as [->|Hne].
    + right. by apply list_elem_of_singleton.
    + left. rewrite list_lookup_insert_ne in Hq by done. by eapply H2.
Qed.

(** The invariant of the loop over the arguments, before argument [j]. *)
Record slots_inv (sig : Signature) (done_ : list Arg) (ps : list nat) (next : nat) (slots : list Z) : Prop := {
  inv_length : length slots = length (ParamNames sig);
  inv_filled : filled slots ≡ₚ map Z.of_nat (seq 0 (length done_));
  inv_next : forall i, (i < next)%nat -> slots !! i <> Some DefaultSlot;
  inv_bound : (next <= length (ParamNames sig))%nat;
  inv_placed : placed sig done_ ps;
  inv_hold : slots_hold ps slots;
  inv_named : forall j a, done_ !! j = Some a -> is_named a = true ->
    exists p, slots !! p = Some (Z.of_nat j) /\
              positions ToLower sig !! ToLower (Arg_Name a) = Some p }.

Lemma slots_inv_init (sig : Signature) :
  slots_inv sig [] [] 0 (replicate (length (ParamNames sig)) DefaultSlot).
Proof.
  split; [by rewrite length_replicate|by rewrite filled_replicate|lia|lia|constructor| |done].
  split; [done|]. intros p s Hp Hs. by apply lookup_replicate in Hp as [-> _].
Qed.

Lemma slots_inv_step (sig : Signature) (d : list Arg) (ps : list nat) (a : Arg) (next next' : nat)
    (slots : list Z) (p : nat) :
  slots_inv sig d ps next slots -> slots !! p = Some DefaultSlot ->
  (is_named a = false -> forall i, (i < p)%nat -> slots !! i <> Some DefaultSlot) ->
  (is_named a = true -> positions ToLower sig !! ToLower (Arg_Name a) = Some p) ->
  (forall i, (i < next')%nat -> i = p \/ slots !! i <> Some DefaultSlot) ->
  (next' <= length (ParamNames sig))%nat ->
  slots_inv sig (d ++ [a]) (ps ++ [p]) next' (<[p := Z.of_nat (length d)]> slots).
Proof.
  intros [Hl Hf Hn Hb Hpl Hh Hna] Hp Hbelow Ha Hn' Hb'.
  assert (Hz : Z.of_nat (length d) <> DefaultSlot) by (unfold DefaultSlot; lia).
  pose proof (lookup_lt_Some _ _ _ Hp) as Hlt.
  split.
  - by rewrite length_insert.
  - rewrite filled_insert by done. rewrite Hf, length_app. cbn [length].
    rewrite Nat.add_1_r, seq_S, map_app, Nat.add_0_l. cbn [map].
    apply Permutation_cons_append.
  - intros i Hi H. destruct (decide (i = p)) as [->|Hip].
    + rewrite list_lookup_insert_eq in H by done. by injection H.
    + rewrite list_lookup_insert_ne in H by done. destruct (Hn' i Hi); congruence.
  - done.
  - pose proof (slots_hold_default _ _ _ Hh Hp) as Hnew.
    destruct (is_named a) eqn:Ea; [apply placed_named; auto|].
    apply placed_positional; [done..|lia|done|].
    intros q Hq. destruct (lookup_lt_is_Some_2 slots q ltac:(lia)) as [s Hs].
    apply (proj2 Hh q s Hs). intros ->. by apply (Hbelow eq_refl q Hq).
  - rewrite <- (placed_length _ _ _ Hpl). by apply slots_hold_insert.
  - intros j b Hj Hb2. apply lookup_app_Some in Hj as [Hj|[Hj1 Hj2]].
    + destruct (Hna j b Hj Hb2) as (q & Hq & Hpos). exists q. split; [|done].
      rewrite list_lookup_insert_ne; [done|]. intros ->. rewrite Hp in Hq.
      injection Hq as Hq. unfold DefaultSlot in Hq. lia.
    + apply list_lookup_singleton_Some in Hj2 as [Hj2 <-].
      exists p. split; [|by apply Ha].
      rewrite list_lookup_insert_eq by done. do 2 f_equal. lia.
Qed.

(** What an error says of the call: which argument or parameter it is about
    and why that one cannot be bound, the arguments before it being placed. *)
Definition bind_error_ok (sig : Signature) (args : list Arg) (e : BindError) : Prop :=
  match e with
  | MissingArgument fn n =>
      exists ps i, fn = FuncName sig /\ ParamNames sig !! i = Some n /\ placed sig args ps /\ (i ∉ ps) /\
        variadicIndex sig <> Some i /\ hasDefaultAt sig i = false
  | ExpectsAtMost fn n m =>
      fn = FuncName sig /\ n = zlen (ParamNames sig) /\ m = zlen args /\ n < m /\
      (existsb is_named args = false -> variadicIndex sig = None) /\
      exists d a rest ps, args = d ++ a :: rest /\ is_named a = false /\ placed sig d ps /\
        (forall i, (i < length (ParamNames sig))%nat -> i ∈ ps)
  | NoParameter fn n =>
      fn = FuncName sig /\ n <> [] /\ (ToLower n ∉ map ToLower (ParamNames sig)) /\
      exists d rest ps, args = d ++ mkArg n :: rest /\ placed sig d ps
  | PassedMoreThanOnce fn n =>
      fn = FuncName sig /\ n <> [] /\
      exists d rest ps i m, args = d ++ mkArg n :: rest /\ placed sig d ps /\ i ∈ ps /\
        positions ToLower sig !! ToLower n = Some i /\
        ParamNames sig !! i = Some m /\ ToLower m = ToLower n
  end.

Lemma fill_named_spec (sig : Signature) (d args : list Arg) (ps : list nat) (next : nat) (slots : list Z) :
  slots_inv sig d ps next slots -> existsb is_named (d ++ args) = true ->
  match fill_named ToLower sig (length (d ++ args)) args (length d) next slots with
  | Ok slots' => exists ps' next', slots_inv sig (d ++ args) ps' next' slots'
  | Err e => bind_error_ok sig (d ++ args) e
  end.
Proof.
  revert d ps next slots. induction args as [|a args IH]; intros d ps next slots Hinv Hsome.
  { cbn. rewrite app_nil_r. eauto. }
  assert (Hgo : forall ps' next' slots', slots_inv sig (d ++ [a]) ps' next' slots' ->
    match fill_named ToLower sig (length (d ++ a :: args)) args (S (length d)) next' slots' with
    | Ok slots' => exists ps' next', slots_inv sig (d ++ a :: args) ps' next' slots'
    | Err e => bind_error_ok sig (d ++ a :: args) e
    end).
  { intros ps' next' slots' H. specialize (IH (d ++ [a]) ps' next' slots' H).
    rewrite <- app_assoc in IH. specialize (IH Hsome). cbn [app] in IH.
    by rewrite (length_app d [a]), Nat.add_1_r in IH. }
  pose proof Hinv as [Hl Hf Hn Hb Hpl Hh Hna].
  assert (Hcount : (length (filled slots) = length d)%nat)
    by (rewrite Hf, length_map; apply length_seq).
  cbn [fill_named]. destruct a as [nm]. cbn [Arg_Name]. destruct nm as [|c nm].
  - pose proof (skip_filled_spec (drop next slots) next) as (H1 & H2 & H3).
    rewrite length_drop in H1, H3.
    set (nx := skip_filled (drop next slots) next) in *.
    assert (Hpre : forall i, (i < nx)%nat -> slots !! i <> Some DefaultSlot).
    { intros i Hi. destruct (decide (i < next)%nat); [by apply Hn|].
      destruct (H2 i ltac:(lia)) as (s & Hs & Hd). rewrite lookup_drop in Hs.
      replace (next + (i - next))%nat with i in Hs by lia. congruence. }
    destruct (Nat.leb_spec (length (ParamNames sig)) nx) as [Hle|Hlt].
    + assert (Hall : filled slots = slots).
      { apply filled_all. intros i Hi. apply (Hpre i); [|done]. apply lookup_lt_Some in Hi. lia. }
      rewrite Hall in Hcount. unfold bind_error_ok, zlen. split_and!; try done.
      * rewrite length_app. cbn [length]. lia.
      * congruence.
      * exists d, (mkArg []), args, ps. split_and!; try done. intros i Hi.
        destruct (lookup_lt_is_Some_2 slots i ltac:(lia)) as [s Hs].
        apply (proj2 Hh i s Hs). intros ->. apply (Hpre i); [lia|done].
    + apply (Hgo (ps ++ [nx])). apply (slots_inv_step sig d ps (mkArg []) next); [done| | |done| |lia].
      * specialize (H3 ltac:(lia)). rewrite lookup_drop in H3.
        by replace (next + (nx - next))%nat with nx in H3 by lia.
      * intros _. apply Hpre.
      * intros i Hi. destruct (decide (i = nx)); [by left|]. right. apply Hpre. lia.
  - destruct (positions ToLower sig !! ToLower (c :: nm)) as [p|] eqn:Ep.
    + destruct (positions_sound _ _ _ Ep) as (pn & Hpn & Elow).
      pose proof (lookup_lt_Some _ _ _ Hpn) as Hp.
      destruct (lookup_lt_is_Some_2 slots p ltac:(lia)) as (s & Hs). rewrite Hs.
      destruct (Z.eqb_spec s DefaultSlot) as [->|Hne]; cbn [negb].
      * apply (Hgo (ps ++ [p])). apply (slots_inv_step sig d ps _ next); try done.
        intros i Hi. right. by apply Hn.
      * split_and!; [done..|]. exists d, args, ps, p, pn. split_and!; try done.
        by apply (proj2 Hh p s).
    + split_and!; [done..| |by exists d, args, ps].
      intros Hin. destruct (positions_from_complete (ParamNames sig) 0 ∅ _ (or_intror Hin)) as (q & Hq).
        unfold positions in Ep. congruence.
Qed.

(** The shape of a successful binding. *)
Definition binding_ok (sig : Signature) (args : list Arg) (r : Result) : Prop :=
  length (Slots r) = length (ParamNames sig) /\
  filled (Slots r) ++ TailArgs r ≡ₚ map Z.of_nat (seq 0 (length args)) /\
  (TailArgs r <> [] -> is_Some (variadicIndex sig)) /\
  (forall j a, args !! j = Some a -> is_named a = true ->
    exists p n, Slots r !! p = Some (Z.of_nat j) /\ ParamNames sig !! p = Some n /\
                ToLower n = ToLower (Arg_Name a)) /\
  (forall p, Slots r !! p = Some DefaultSlot ->
    variadicIndex sig = Some p \/ hasDefaultAt sig p = true) /\
  (existsb is_named args = true -> exists ps, placed sig args ps /\ slots_hold ps (Slots r)) /\
  (existsb is_named args = false ->
    forall p j, Slots r !! p = Some j -> j <> DefaultSlot -> j = Z.of_nat p).

Lemma order_named_spec (sig : Signature) (args : list Arg) :
  existsb is_named args = true ->
  match order_named ToLower sig args with
  | Ok r => binding_ok sig args r
  | Err e => bind_error_ok sig args e
  end.
Proof.
  intros Hnamed. unfold order_named.
  pose proof (fill_named_spec sig [] args [] 0 _ (slots_inv_init sig) Hnamed) as H.
  cbn [app length] in H.
  destruct (fill_named _ _ _ _ _ _ _) as [slots|e]; cbn [res_bind]; [|done].
  destruct H as (ps & next & [Hl Hf _ _ Hpl Hh Hna]).
  pose proof (check_defaults_spec sig slots 0) as Hd. cbn [Nat.add] in Hd.
  destruct (check_defaults sig 0 slots) as [e|].
  - destruct Hd as (i & Hi & Hv & Hdef & ->).
    pose proof (lookup_lt_Some _ _ _ Hi) as Hlt. rewrite Hl in Hlt.
    apply lookup_lt_is_Some in Hlt as [p Hp].
    exists ps, i. unfold param_name. rewrite Hp. split_and!; try done.
    by eapply slots_hold_default.
  - unfold binding_ok. cbn [Slots TailArgs]. rewrite app_nil_r. split_and!; try done.
    + intros j a Hj Hnm. destruct (Hna j a Hj Hnm) as (p & Hp & Hpos).
      destruct (positions_sound _ _ _ Hpos) as (n & Hn & E). eauto.
    + by exists ps.
    + congruence.
Qed.
End Sound.

Lemma fill_fixed_spec (sig : Signature) (argc i n : nat) :
  match fill_fixed sig argc i n with
  | Ok l => l = map (fun k => if (k <? argc)%nat then Z.of_nat k else DefaultSlot) (seq i n) /\
            (forall k, (i <= k < i + n)%nat -> (argc <= k)%nat -> hasDefaultAt sig k = true)
  | Err e => exists k, (i <= k < i + n)%nat /\ (argc <= k)%nat /\ hasDefaultAt sig k = false /\
               e = MissingArgument (FuncName sig) (param_name sig k)
  end.
Proof.
  revert i. induction n as [|n IH]; intros i; cbn [fill_fixed seq map].
  { split; [done|lia]. }
  specialize (IH (S i)). destruct (Nat.ltb_spec i argc).
  - destruct (fill_fixed sig argc (S i) n) as [l|e]; cbn [res_bind].
    + destruct IH as [-> IH]. split; [done|]. intros k ? ?. apply IH; lia.
    + destruct IH as (k & ? & IH). exists k. split; [lia|done].
  - destruct (hasDefaultAt sig i) eqn:E; cbn [negb].
    + destruct (fill_fixed sig argc (S i) n) as [l|e]; cbn [res_bind].
      * destruct IH as [-> IH]. split; [done|]. intros k ? ?.
        destruct (decide (k = i)) as [->|]; [done|]. apply IH; lia.
      * destruct IH as (k & ? & IH). exists k. split; [lia|done].
    + exists i. split_and!; done || lia.
Qed.


Lemma filled_fixed (argc i n : nat) :
  filled (map (fun k => if (k <? argc)%nat then Z.of_nat k else DefaultSlot) (seq i n))
  = map Z.of_nat (seq i (Nat.min (argc - i) n)).
Proof.
  unfold filled. revert i. induction n as [|n IH]; intros i; [by rewrite Nat.min_0_r|].
  cbn [seq map]. destruct (Nat.ltb_spec i argc).
  - rewrite filter_cons_True by (unfold DefaultSlot; lia). rewrite IH.
    replace (Nat.min (argc - i) (S n)) with (S (Nat.min (argc - S i) n)) by lia. done.
  - rewrite filter_cons_False by (intros E; by apply E). rewrite IH.
    by replace (argc - S i)%nat with 0%nat by lia; replace (argc - i)%nat with 0%nat by lia.
Qed.

Lemma variadicIndex_last (sig : Signature) (v : nat) :
  variadicIndex sig = Some v -> S v = length (ParamNames sig).
Proof.
  unfold variadicIndex. destruct (Variadic sig); [|done].
  destruct (Nat.eqb_spec (length (ParamNames sig)) 0); [done|]. intros [= <-]. lia.
Qed.

Lemma existsb_named_false (args : list Arg) (a : Arg) :
  existsb is_named args = false -> a ∈ args -> is_named a = false.
Proof.
  intros H Ha. destruct (is_named a) eqn:E; [|done].
  assert (existsb is_named args = true)
    by (apply existsb_exists; exists a; split; [by apply list_elem_of_In|done]).
  congruence.
Qed.

(** The slots of a call without named arguments. *)
Definition positional_result (sig : Signature) (argc : nat) : Result :=
  let fixed := (length (ParamNames sig) - (if decide (is_Some (variadicIndex sig)) then 1 else 0))%nat in
  mkResult (map (fun k => if (k <? Nat.min argc fixed)%nat then Z.of_nat k else DefaultSlot)
              (seq 0 (length (ParamNames sig))))
           (map Z.of_nat (seq fixed (argc - fixed))).

Lemma order_positional_value (sig : Signature) (argc : nat) :
  match order_positional sig argc with
  | Ok r => r = positional_result sig argc /\
      (variadicIndex sig = None -> (argc <= length (ParamNames sig))%nat) /\
      (forall k, (argc <= k < length (ParamNames sig))%nat ->
         variadicIndex sig = Some k \/ hasDefaultAt sig k = true)
  | Err (ExpectsAtMost fn n m) =>
      fn = FuncName sig /\ m = Z.of_nat argc /\ n = zlen (ParamNames sig) /\ n < m /\ variadicIndex sig = None
  | Err e => exists k, (argc <= k < length (ParamNames sig))%nat /\ hasDefaultAt sig k = false /\
      variadicIndex sig <> Some k /\ e = MissingArgument (FuncName sig) (param_name sig k)
  end.
Proof.
  unfold order_positional, positional_result. cbv zeta.
  set (n := length (ParamNames sig)).
  destruct (variadicIndex sig) as [v|] eqn:Ev.
  - apply variadicIndex_last in Ev. fold n in Ev.
    rewrite bool_decide_eq_true_2 by eauto. rewrite andb_false_r.
    destruct (decide (is_Some (Some v))) as [_|Hx]; [|by destruct Hx; eauto].
    pose proof (fill_fixed_spec sig argc 0 (n - 1)) as H.
    destruct (fill_fixed sig argc 0 (n - 1)) as [l|e]; cbn [res_bind].
    + destruct H as [-> H]. split_and!; [|done|].
      * f_equal. replace (seq 0 n) with (seq 0 (n - 1 + 1)) by (f_equal; lia).
        rewrite seq_app, map_app. replace (n - (n - 1))%nat with 1%nat by lia. f_equal.
        -- apply map_ext_in. intros k Hk%in_seq.
           destruct (Nat.ltb_spec k argc), (Nat.ltb_spec k (Nat.min argc (n - 1))); done || lia.
        -- cbn [seq map Nat.add replicate].
           destruct (Nat.ltb_spec (n - 1) (Nat.min argc (n - 1))); [lia|done].
      * intros k Hk. destruct (decide (k = v)) as [->|]; [by left|].
        right. apply H; lia.
    + destruct H as (k & ? & ? & ? & ->). exists k. split_and!; try done; [lia..|].
      intros [= <-]. lia.
  - destruct (decide (is_Some None)) as [Hx|_]; [by destruct Hx|].
    rewrite bool_decide_eq_false_2 by (by intros []). rewrite andb_true_r, Nat.sub_0_r.
    destruct (Nat.ltb_spec n argc).
    + unfold zlen. fold n. split_and!; done || lia.
    + pose proof (fill_fixed_spec sig argc 0 n) as H1.
      destruct (fill_fixed sig argc 0 n) as [l|e]; cbn [res_bind].
      * destruct H1 as [-> H1]. split_and!; [|done|].
        -- f_equal. rewrite Nat.sub_diag. cbn [replicate]. rewrite app_nil_r.
           by rewrite Nat.min_l by lia.
        -- intros k Hk. right. apply H1; lia.
      * destruct H1 as (k & ? & ? & ? & ->). exists k. split_and!; done || lia.
Qed.

Lemma slot_lookup (m n p : nat) (z : Z) :
  map (fun k => if (k <? m)%nat then Z.of_nat k else DefaultSlot) (seq 0 n) !! p = Some z ->
  (p < n)%nat /\ z = if (p <? m)%nat then Z.of_nat p else DefaultSlot.
Proof.
  intros Hp. apply list_lookup_fmap_Some in Hp as (k & -> & Hk).
  by apply lookup_seq in Hk as [-> Hk].
Qed.

(** The arguments of a positional call, in order. *)
Lemma positional_filled (fixed n argc : nat) :
  (fixed <= n)%nat ->
  filled (map (fun k => if (k <? Nat.min argc fixed)%nat then Z.of_nat k else DefaultSlot) (seq 0 n))
    ++ map Z.of_nat (seq fixed (argc - fixed))
  = map Z.of_nat (seq 0 argc).
Proof.
  intros Hf. rewrite filled_fixed, Nat.sub_0_r, (Nat.min_l _ n), <- map_app by lia.
  destruct (Nat.le_gt_cases argc fixed).
  - rewrite Nat.min_l by lia. replace (argc - fixed)%nat with 0%nat by lia. by rewrite app_nil_r.
  - rewrite Nat.min_r by lia.
    replace (seq 0 argc) with (seq 0 (fixed + (argc - fixed))) by (f_equal; lia).
    by rewrite seq_app.
Qed.

Lemma positional_result_ok (sig : Signature) (args : list Arg) :
  existsb is_named args = false ->
  (variadicIndex sig = None -> (length args <= length (ParamNames sig))%nat) ->
  (forall k, (length args <= k < length (ParamNames sig))%nat ->
         variadicIndex sig = Some k \/ hasDefaultAt sig k = true) ->
  forall ToLower, binding_ok ToLower sig args (positional_result sig (length args)).
Proof.
  intros Hno Hv Hd ToLower. unfold binding_ok, positional_result.
  set (n := length (ParamNames sig)) in *. set (argc := length args) in *.
  set (fixed := (n - if decide (is_Some (variadicIndex sig)) then 1 else 0)%nat).
  assert (Hf : (fixed <= n)%nat /\
    ((fixed < argc)%nat -> is_Some (variadicIndex sig)) /\
    (forall k, (Nat.min argc fixed <= k < n)%nat -> (argc <= k)%nat \/ variadicIndex sig = Some k)).
  { unfold fixed. destruct (decide _) as [[v Ev]|Hv'].
    - pose proof (variadicIndex_last sig v Ev) as Hlast. fold n in Hlast.
      split_and!; [lia|by eexists|]. intros k Hk. rewrite Ev.
      destruct (decide (v = k)); [right; by f_equal|left; lia].
    - assert (Hn : variadicIndex sig = None)
        by (destruct (variadicIndex sig); [destruct Hv'; eauto|done]).
      specialize (Hv Hn). split_and!; [lia|lia|]. intros k Hk. left. lia. }
  destruct Hf as (Hf & Hf2 & Hf3). cbn [Slots TailArgs]. split_and!.
  - by rewrite length_map, length_seq.
  - by rewrite positional_filled.
  - intros Ht. apply Hf2. destruct (Nat.le_gt_cases argc fixed); [|done].
    replace (argc - fixed)%nat with 0%nat in Ht by lia. done.
  - intros j a Hj Ha. apply list_elem_of_lookup_2, (existsb_named_false _ _ Hno) in Hj. congruence.
  - intros p Hp. apply slot_lookup in Hp as [Hp E].
    destruct (Nat.ltb_spec p (Nat.min argc fixed)); [unfold DefaultSlot in E; lia|].
    destruct (Hf3 p) as [?|?]; [lia| |by left]. apply Hd. lia.
  - congruence.
  - intros _ p j Hp Hne. apply slot_lookup in Hp as [_ ->]. by destruct (p <? _)%nat.
Qed.

(** ** Native callees *)

(** A gap: an unfilled parameter, the variadic one aside, before a filled one. *)
Definition has_gap (sig : Signature) (slots : list Z) : Prop :=
  exists i j s, (i < j)%nat /\ variadicIndex sig <> Some i /\
    slots !! i = Some DefaultSlot /\ slots !! j = Some s /\ s <> DefaultSlot.

(** The slots of a binding hold argument indices or the default. *)
Definition slots_wf (slots : list Z) : Prop := Forall (fun s => s = DefaultSlot \/ 0 <= s) slots.

(** No slot of the segment at [i] is the variadic one. *)
Definition plain (sig : Signature) (i n : nat) : Prop :=
  forall k, (k < n)%nat -> variadicIndex sig <> Some (i + k)%nat.

Lemma plain_cons (sig : Signature) (i n : nat) :
  plain sig i (S n) -> bool_decide (variadicIndex sig = Some i) = false /\ plain sig (S i) n.
Proof.
  intros H. split.
  - apply bool_decide_eq_false. rewrite <- (Nat.add_0_r i). apply H. lia.
  - intros k Hk. rewrite Nat.add_succ_comm. apply H. lia.
Qed.

(** The loop after a gap, and from the start, on plain slots followed by [more]. *)
Lemma native_slots_gap (sig : Signature) (slots more : list Z) (i g : nat) :
  slots_wf slots -> plain sig i (length slots) ->
  (slots = replicate (length slots) DefaultSlot /\
   native_slots sig i (slots ++ more) (Some g) = native_slots sig (i + length slots) more (Some g)) \/
  (native_slots sig i (slots ++ more) (Some g) = Err (MissingArgument (FuncName sig) (param_name sig g)) /\
   exists j s, slots !! j = Some s /\ s <> DefaultSlot).
Proof.
  intros Hwf. revert i. induction Hwf as [|s slots Hs Hwf IH]; intros i Hp.
  { left. by rewrite Nat.add_0_r. }
  apply plain_cons in Hp as [Hv Hp]. cbn [app native_slots length replicate]. rewrite Hv.
  destruct Hs as [->|Hs].
  - change (0 <=? DefaultSlot) with false. cbn match.
    destruct (IH _ Hp) as [(E & ->)|(-> & j & s & Hj)].
    + left. split; [by f_equal|]. by rewrite Nat.add_succ_comm.
    + right. split; [done|]. by exists (S j), s.
  - rewrite (proj2 (Z.leb_le _ _) Hs). right. split; [done|].
    exists 0%nat, s. split; [done|]. unfold DefaultSlot. lia.
Qed.

Lemma native_slots_none (sig : Signature) (slots more : list Z) (i : nat) :
  slots_wf slots -> plain sig i (length slots) ->
  (exists l n, slots = l ++ replicate n DefaultSlot /\ Forall (Z.le 0) l /\
   native_slots sig i (slots ++ more) None =
     let* r := native_slots sig (i + length slots) more
                 (if (n =? 0)%nat then None else Some (i + length l)%nat) in
     Ok (l ++ fst r, snd r)) \/
  (exists e j k s, native_slots sig i (slots ++ more) None = Err e /\
   (j < k)%nat /\ slots !! j = Some DefaultSlot /\ slots !! k = Some s /\ s <> DefaultSlot).
Proof.
  intros Hwf. revert i. induction Hwf as [|s slots Hs Hwf IH]; intros i Hp.
  { left. exists [], 0%nat. split_and!; [done|constructor|]. cbn. rewrite Nat.add_0_r.
    by destruct (native_slots sig i more None) as [[]|]. }
  apply plain_cons in Hp as [Hv Hp]. cbn [app native_slots length]. rewrite Hv.
  destruct Hs as [->|Hs].
  - change (0 <=? DefaultSlot) with false. cbn match.
    destruct (native_slots_gap sig slots more (S i) i Hwf Hp) as [(E & ->)|(-> & j & s & Hj & Hs)].
    + left. exists [], (S (length slots)). split_and!; [by rewrite E at 1|constructor|].
      cbn. rewrite Nat.add_0_r, Nat.add_succ_r. by destruct (native_slots _ _ more _) as [[]|].
    + right. eexists _, 0%nat, (S j), s. split_and!; done || lia.
  - rewrite (proj2 (Z.leb_le _ _) Hs).
    destruct (IH _ Hp) as [(l & n & E & Hl & ->)|(e & j & k & t & -> & Hj)].
    + left. exists (s :: l), n. split_and!; [by rewrite E|by constructor|].
      cbn [length app]. rewrite !Nat.add_succ_r.
      by destruct (native_slots _ _ more _) as [[]|].
    + right. destruct Hj as (Hj & H1 & H2 & H3).
      exists e, (S j), (S k), t. split_and!; done || lia.
Qed.

Lemma filled_prefix (l : list Z) (n : nat) : Forall (Z.le 0) l -> filled (l ++ replicate n DefaultSlot) = l.
Proof.
  intros H. unfold filled. rewrite filter_app. fold (filled (replicate n DefaultSlot)).
  rewrite filled_replicate, app_nil_r. apply filled_all.
  intros i Hi. rewrite Forall_lookup in H. specialize (H i _ Hi). unfold DefaultSlot in H. lia.
Qed.

Lemma no_gap_prefix (sig : Signature) (l more : list Z) (n : nat) (s : Z) :
  (0 < n)%nat -> variadicIndex sig <> Some (length l) -> s <> DefaultSlot ->
  s ∈ more -> has_gap sig ((l ++ replicate n DefaultSlot) ++ more).
Proof.
  intros Hn Hv Hs Hm. apply list_elem_of_lookup_1 in Hm as (j & Hj).
  exists (length l), (length l + n + j)%nat, s. split_and!; [lia|done| | |done].
  - rewrite <- app_assoc, lookup_app_r, Nat.sub_diag by done. by destruct n; [lia|].
  - rewrite lookup_app_r by (rewrite length_app, length_replicate; lia).
    rewrite length_app, length_replicate. replace _ with j by lia. done.
Qed.

Lemma gap_free (sig : Signature) (l : list Z) (n : nat) :
  Forall (Z.le 0) l -> ~ has_gap sig (l ++ replicate n DefaultSlot).
Proof.
  intros Hl (i & j & s & Hij & _ & Hi & Hj & Hs).
  rewrite lookup_app in Hi. destruct (l !! i) as [x|] eqn:E.
  - injection Hi as ->. rewrite Forall_lookup in Hl. specialize (Hl i _ E). unfold DefaultSlot in Hl. lia.
  - apply lookup_ge_None in E. rewrite lookup_app_r in Hj by lia.
    apply lookup_replicate in Hj as [-> _]. done.
Qed.

Lemma NativeArgOrder_spec (sig : Signature) (r : Result) :
  length (Slots r) = length (ParamNames sig) -> slots_wf (Slots r) ->
  match NativeArgOrder sig r with
  | Ok l => l = filled (Slots r) ++ TailArgs r /\ ~ has_gap sig (Slots r)
  | Err _ => has_gap sig (Slots r)
  end.
Proof.
  intros Hlen Hwf. unfold NativeArgOrder.
  destruct (variadicIndex sig) as [v|] eqn:Ev.
  - apply variadicIndex_last in Ev as Hlast.
    destruct (Slots r) as [|s front _] eqn:Es using rev_ind; [simpl in *; lia|].
    rewrite length_app in Hlen. cbn [length] in Hlen.
    assert (Hv : v = length front) by lia. subst v.
    apply Forall_app in Hwf as [Hwf Hs]. apply Forall_inv in Hs.
    assert (Hp : plain sig 0 (length front)) by (intros k Hk E; rewrite Ev in E; injection E; lia).
    destruct (native_slots_none sig front [s] 0 Hwf Hp) as [(l & n & -> & Hl & ->)|(e & j & k & t & -> & Hj & H1 & H2 & H3)].
    + cbn [native_slots Nat.add]. rewrite bool_decide_eq_true_2 by done.
      cbn [res_bind fst snd]. rewrite app_nil_r, lookup_app_r, Nat.sub_diag by done. cbn [lookup list_lookup].
      destruct Hs as [->|Hs].
      * change (0 <=? DefaultSlot) with false. cbn [res_bind].
        rewrite <- app_assoc. replace (replicate n DefaultSlot ++ [DefaultSlot]) with (replicate (S n) DefaultSlot)
          by apply replicate_cons_app.
        split; [by rewrite filled_prefix|by apply gap_free].
      * rewrite (proj2 (Z.leb_le _ _) Hs). destruct (Nat.eqb_spec n 0) as [->|Hn].
        -- cbn [replicate res_bind]. rewrite app_nil_r.
           assert (Hl' : Forall (Z.le 0) (l ++ [s])) by (apply Forall_app; split; [done|by constructor]).
           pose proof (filled_prefix _ 0 Hl') as F. pose proof (gap_free sig _ 0 Hl') as G.
           cbn [replicate] in F, G. rewrite app_nil_r in F, G. by rewrite F.
        -- cbn [res_bind]. apply (no_gap_prefix sig l [s] n s); [lia| |unfold DefaultSlot; lia|set_solver].
           rewrite Ev, length_app, length_replicate. intros [= E]. lia.
    + assert (G : has_gap sig (front ++ [s])).
      { exists j, k, t. apply lookup_lt_Some in H1 as L1. apply lookup_lt_Some in H2 as L2.
        split_and!; [done| |by rewrite lookup_app_l|by rewrite lookup_app_l|done].
        rewrite Ev. intros [= E]. lia. }
      exact G.
  - assert (Hp : plain sig 0 (length (Slots r))) by (intros k Hk; by rewrite Ev).
    destruct (native_slots_none sig (Slots r) [] 0 Hwf Hp) as [(l & n & E & Hl & H)|(e & j & k & t & H & Hj & H1 & H2 & H3)];
      rewrite app_nil_r in H; rewrite H; cbn [native_slots res_bind fst snd].
    + rewrite app_nil_r, E. split; [by rewrite filled_prefix|by apply gap_free].
    + exists j, k, t. by rewrite Ev.
Qed.

(** ** The properties *)

(** C38: every accepted call is bound correctly and every rejection is
    justified.  When [Order] succeeds, each argument of the call is used
    exactly once, in one slot or in the variadic tail; a named argument fills
    a parameter of that name up to letter case; an unfilled parameter has a
    default or is the variadic one; and without named arguments, argument [i]
    fills parameter [i].  In a call with a named argument the slots hold exactly
    the placement of [placed]: a named argument at the parameter of its name,
    an unnamed one at the first parameter no earlier argument took.  When
    [Order] fails, the arguments before the culprit are placed the same way
    and: a missing argument is that of a parameter at which no argument of the
    call is placed, which has no default and is not the variadic one; a
    parameter passed more than once is one at which an earlier argument
    is placed already; an unknown parameter's name is, up to letter case, that of
    no parameter; and [expects at most n, got m] is reported with the number of
    parameters and the number of arguments, [n < m], when an unnamed argument
    finds every parameter taken, and without named arguments only for a
    signature that is not variadic. *)
Theorem Order_correct (ToLower : gostring -> gostring) (sig : Signature) (args : list Arg) :
  match Order ToLower sig args with
  | Ok r => binding_ok ToLower sig args r
  | Err e => bind_error_ok ToLower sig args e
  end.
Proof.
  unfold Order. destruct (existsb is_named args) eqn:Hn; [by apply order_named_spec|].
  pose proof (order_positional_value sig (length args)) as H.
  destruct (order_positional sig (length args)) as [r|e].
  - destruct H as (-> & H1 & H2). by apply positional_result_ok.
  - assert (Hm : forall k, (length args <= k < length (ParamNames sig))%nat ->
      hasDefaultAt sig k = false -> variadicIndex sig <> Some k ->
      bind_error_ok ToLower sig args (MissingArgument (FuncName sig) (param_name sig k))).
    { intros k Hk Hd Hv. destruct (lookup_lt_is_Some_2 (ParamNames sig) k ltac:(lia)) as [p Hp].
      exists (seq 0 (length args)), k. unfold param_name. rewrite Hp.
      split_and!; try done; [apply placed_unnamed; done || lia|]. rewrite elem_of_seq. lia. }
    destruct e as [fn p|fn n m|fn p|fn p];
      [destruct H as (k & ? & ? & ? & E); rewrite E; by apply Hm| |
       destruct H as (? & ? & ? & ? & [=])..].
    destruct H as (-> & -> & -> & Hlt & Hv). unfold zlen in Hlt. split_and!; try done.
    by apply surplus_unnamed; [|lia].
Qed.

(** A native callee receives every argument once, in parameter order with
    the variadic ones last, and the call fails exactly when an omitted
    parameter comes before a supplied one; a call without named arguments
    never fails and passes its arguments as they are written. *)
Theorem NativeArgOrder_exact (ToLower : gostring -> gostring) (sig : Signature) (args : list Arg) (r : Result) :
  Order ToLower sig args = Ok r ->
  match NativeArgOrder sig r with
  | Ok l => l = filled (Slots r) ++ TailArgs r /\ l ≡ₚ map Z.of_nat (seq 0 (length args)) /\
            ~ has_gap sig (Slots r)
  | Err _ => has_gap sig (Slots r)
  end /\
  (existsb is_named args = false ->
   NativeArgOrder sig r = Ok (map Z.of_nat (seq 0 (length args)))).
Proof.
  intros HO.
  assert (Hok : binding_ok ToLower sig args r /\
    (existsb is_named args = false -> r = positional_result sig (length args))).
  { unfold Order in HO. destruct (existsb is_named args) eqn:Hn.
    - pose proof (order_named_spec ToLower sig args Hn) as H. by rewrite HO in H.
    - pose proof (order_positional_value sig (length args)) as H. rewrite HO in H.
      destruct H as (-> & H1 & H2). split; [by apply positional_result_ok|done]. }
  destruct Hok as [(Hl & Hf & _ & _ & _ & _ & Hpos) Hr].
  assert (Hwf : slots_wf (Slots r)).
  { apply Forall_forall. intros s Hs. destruct (decide (s = DefaultSlot)) as [|Hne]; [by left|right].
    assert (Hin : s ∈ filled (Slots r)) by (by apply list_elem_of_filter).
    assert (Hin2 : s ∈ map Z.of_nat (seq 0 (length args))) by (rewrite <- Hf; set_solver).
    apply list_elem_of_fmap in Hin2 as (k & -> & _). lia. }
  pose proof (NativeArgOrder_spec sig r Hl Hwf) as H.
  split.
  - destruct (NativeArgOrder sig r) as [l|e]; [|done]. destruct H as [-> H]. done.
  - intros Hn. specialize (Hr Hn). destruct (NativeArgOrder sig r) as [l|e].
    + destruct H as [-> _]. f_equal. rewrite Hr. unfold positional_result. cbn [Slots TailArgs].
      apply positional_filled. destruct (decide _); lia.
    + exfalso. destruct H as (i & j & s & Hij & Hv & Hi & Hj & Hs).
      pose proof (Hpos Hn j s Hj Hs) as Es. rewrite Hr in Hi, Hj.
      apply slot_lookup in Hi as [Hi E1]. apply slot_lookup in Hj as [Hj E2].
      destruct (Nat.ltb_spec i (Nat.min (length args) (length (ParamNames sig) - (if decide (is_Some (variadicIndex sig)) then 1 else 0)))) as [L1|L1].
      { unfold DefaultSlot in E1. lia. }
      destruct (Nat.ltb_spec j (Nat.min (length args) (length (ParamNames sig) - (if decide (is_Some (variadicIndex sig)) then 1 else 0)))) as [L2|L2].
      { lia. }
      done.
Qed.

Definition example_signature : Signature :=
  mkSignature (bs "draw") [bs "shape"; bs "Width"; bs "rest"] [false; true; false] true.

Lemma NativeArgOrder_exact_witness :
  NativeArgOrder example_signature (mkResult [1; 0; 2] []) = Ok [1; 0; 2] /\
  ~ has_gap example_signature [1; 0; 2].
Proof.
  pose proof (NativeArgOrder_exact ascii_lower example_signature
    [mkArg (bs "width"); mkArg []; mkArg []] (mkResult [1; 0; 2] []) ltac:(by vm_compute)) as [H _].
  vm_compute (NativeArgOrder _ _) in H. split; [by vm_compute|apply H].
Defined.
