(* ===== verification/Token.v ===== *)
(** * Token: the tokens of the language

    The token types with the names error messages show, the token record and
    the reserved words (src/internal/token/token.go). *)

From S2P Require Import Prelude GoText.
#[local] Open Scope Z_scope.

(** [Type], in the order of the source's [iota]. *)
Variant Type_ :=
  | T_Illegal | T_EOF | T_Ident | T_Int | T_Decimal | T_Float | T_String | T_Assign
  | T_Plus | T_Minus | T_Bang | T_Asterisk | T_Slash | T_IntDiv | T_Percent | T_Power
  | T_LT | T_GT | T_LTE | T_GTE | T_Eq | T_NotEq | T_And | T_Or | T_BitAnd | T_BitOr
  | T_BitXor | T_BitNot | T_LShift | T_RShift | T_Inc | T_Dec | T_Pipe | T_Dot
  | T_Ellipsis | T_OptionalChain | T_Range | T_RangeExcl | T_Comma | T_Colon
  | T_Semicolon | T_Question | T_NullCoalesce | T_PlusAssign | T_MinusAssign
  | T_MulAssign | T_DivAssign | T_IntDivAssign | T_ModAssign | T_PowerAssign
  | T_BitAndAssign | T_BitOrAssign | T_BitXorAssign | T_LShiftAssign | T_RShiftAssign
  | T_NullCoalesceAssign | T_Arrow | T_At | T_LParen | T_RParen | T_LBrace | T_RBrace
  | T_LBracket | T_RBracket | T_As | T_Async | T_Await | T_Bool | T_Break | T_Case
  | T_Catch | T_Class | T_Const | T_Continue | T_Default | T_Defer | T_Else | T_ElseIf
  | T_Extends | T_Export | T_False | T_Finally | T_For | T_Func | T_If | T_Implements
  | T_Import | T_In | T_Init | T_InstanceOf | T_Interface | T_Is | T_Let | T_Match
  | T_Module | T_Not | T_Null | T_Parent | T_Return | T_Static | T_This | T_Throw
  | T_TypeKw | T_True | T_Try | T_While | T_Xor | T_Yield | T_By | T_Enum | T_With
  | T_Del | T_Select.

#[global] Instance Type_eq_dec : EqDecision Type_.
Proof. solve_decision. Defined.

(** [typeNames] and [Type.String] (every type has a name). *)
Definition Type_String (t : Type_) : gostring :=
  match t with
  | T_Illegal => bs "ILLEGAL"
  | T_EOF => bs "EOF"
  | T_Ident => bs "IDENT"
  | T_Int => bs "INT"
  | T_Decimal => bs "DECIMAL"
  | T_Float => bs "FLOAT"
  | T_String => bs "STRING"
  | T_Assign => bs "="
  | T_Plus => bs "+"
  | T_Minus => bs "-"
  | T_Bang => bs "!"
  | T_Asterisk => bs "*"
  | T_Slash => bs "/"
  | T_IntDiv => bs "//"
  | T_Percent => bs "%"
  | T_Power => bs "**"
  | T_LT => bs "<"
  | T_GT => bs ">"
  | T_LTE => bs "<="
  | T_GTE => bs ">="
  | T_Eq => bs "=="
  | T_NotEq => bs "!="
  | T_And => bs "&&"
  | T_Or => bs "||"
  | T_BitAnd => bs "&"
  | T_BitOr => bs "|"
  | T_BitXor => bs "^"
  | T_BitNot => bs "~"
  | T_LShift => bs "<<"
  | T_RShift => bs ">>"
  | T_Inc => bs "++"
  | T_Dec => bs "--"
  | T_Pipe => bs "|>"
  | T_Dot => bs "."
  | T_Ellipsis => bs "..."
  | T_OptionalChain => bs "?."
  | T_Range => bs ".."
  | T_RangeExcl => bs "..<"
  | T_Comma => bs ","
  | T_Colon => bs ":"
  | T_Semicolon => bs ";"
  | T_Question => bs "?"
  | T_NullCoalesce => bs "??"
  | T_PlusAssign => bs "+="
  | T_MinusAssign => bs "-="
  | T_MulAssign => bs "*="
  | T_DivAssign => bs "/="
  | T_IntDivAssign => bs "//="
  | T_ModAssign => bs "%="
  | T_PowerAssign => bs "**="
  | T_BitAndAssign => bs "&="
  | T_BitOrAssign => bs "|="
  | T_BitXorAssign => bs "^="
  | T_LShiftAssign => bs "<<="
  | T_RShiftAssign => bs ">>="
  | T_NullCoalesceAssign => bs "??="
  | T_Arrow => bs "=>"
  | T_At => bs "@"
  | T_LParen => bs "("
  | T_RParen => bs ")"
  | T_LBrace => bs "{"
  | T_RBrace => bs "}"
  | T_LBracket => bs "["
  | T_RBracket => bs "]"
  | T_As => bs "AS"
  | T_Async => bs "ASYNC"
  | T_Await => bs "AWAIT"
  | T_Bool => bs "BOOL"
  | T_Break => bs "BREAK"
  | T_Case => bs "CASE"
  | T_Catch => bs "CATCH"
  | T_Class => bs "CLASS"
  | T_Const => bs "CONST"
  | T_Continue => bs "CONTINUE"
  | T_Default => bs "DEFAULT"
  | T_Defer => bs "DEFER"
  | T_Else => bs "ELSE"
  | T_ElseIf => bs "ELSEIF"
  | T_Extends => bs "EXTENDS"
  | T_Export => bs "EXPORT"
  | T_False => bs "FALSE"
  | T_Finally => bs "FINALLY"
  | T_For => bs "FOR"
  | T_Func => bs "FUNC"
  | T_If => bs "IF"
  | T_Implements => bs "IMPLEMENTS"
  | T_Import => bs "IMPORT"
  | T_In => bs "IN"
  | T_Init => bs "INIT"
  | T_InstanceOf => bs "INSTANCEOF"
  | T_Interface => bs "INTERFACE"
  | T_Is => bs "IS"
  | T_Let => bs "LET"
  | T_Match => bs "MATCH"
  | T_Module => bs "MODULE"
  | T_Not => bs "NOT"
  | T_Null => bs "NULL"
  | T_Parent => bs "PARENT"
  | T_Return => bs "RETURN"
  | T_Static => bs "STATIC"
  | T_This => bs "THIS"
  | T_Throw => bs "THROW"
  | T_TypeKw => bs "TYPE"
  | T_True => bs "TRUE"
  | T_Try => bs "TRY"
  | T_While => bs "WHILE"
  | T_Xor => bs "XOR"
  | T_Yield => bs "YIELD"
  | T_By => bs "BY"
  | T_Enum => bs "ENUM"
  | T_With => bs "WITH"
  | T_Del => bs "DEL"
  | T_Select => bs "SELECT"
  end.

(** [Token]; [Quote] is 0 where the code leaves it unset. *)
Record Token := mkToken {
  tok_Type : Type_; Literal : gostring; Raw : gostring; Quote : Z; Triple : bool;
  Interpolated : bool; Line : Z; Column : Z; Doc : gostring }.

(** [keywords]. *)
Definition keywords : list (gostring * Type_) :=
  [(bs "as", T_As); (bs "async", T_Async); (bs "await", T_Await); (bs "bool", T_Bool);
   (bs "break", T_Break); (bs "by", T_By); (bs "case", T_Case); (bs "catch", T_Catch);
   (bs "class", T_Class); (bs "const", T_Const); (bs "continue", T_Continue);
   (bs "default", T_Default); (bs "defer", T_Defer); (bs "else", T_Else);
   (bs "elseif", T_ElseIf); (bs "extends", T_Extends); (bs "export", T_Export);
   (bs "false", T_False); (bs "finally", T_Finally); (bs "for", T_For);
   (bs "func", T_Func); (bs "if", T_If); (bs "implements", T_Implements);
   (bs "import", T_Import); (bs "in", T_In); (bs "init", T_Init);
   (bs "instanceof", T_InstanceOf); (bs "interface", T_Interface); (bs "is", T_Is);
   (bs "let", T_Let); (bs "match", T_Match); (bs "module", T_Module);
   (bs "not", T_Not); (bs "null", T_Null); (bs "parent", T_Parent);
   (bs "return", T_Return); (bs "static", T_Static); (bs "this", T_This);
   (bs "throw", T_Throw); (bs "type", T_TypeKw); (bs "true", T_True);
   (bs "try", T_Try); (bs "while", T_While); (bs "xor", T_Xor); (bs "yield", T_Yield);
   (bs "enum", T_Enum); (bs "with", T_With); (bs "del", T_Del)].

Fixpoint lookup_keyword (l : list (gostring * Type_)) (literal : gostring) : option Type_ :=
  match l with
  | [] => None
  | (k, t) :: l => if decide (k = literal) then Some t else lookup_keyword l literal
  end.

(** [LookupIdent]. *)
Definition LookupIdent (literal : gostring) : Type_ :=
  match lookup_keyword keywords literal with Some t => t | None => T_Ident end.

(** [Keywords]: the code lists the map in an unspecified order. *)
Definition Keywords : list gostring := map fst keywords.

(** A reserved word is found under its own spelling, and no other word is. *)
Lemma LookupIdent_keyword (k : gostring) (t : Type_) :
  (k, t) ∈ keywords -> LookupIdent k = t.
Proof.
  intros H. unfold keywords in H.
  repeat (apply elem_of_cons in H as [E|H]; [injection E as -> ->; by vm_compute|]).
  by apply elem_of_nil in H.
Qed.

Lemma lookup_keyword_None (l : list (gostring * Type_)) (s : gostring) :
  s ∉ map fst l -> lookup_keyword l s = None.
Proof.
  induction l as [|[k t] l IH]; [done|]. cbn [map fst lookup_keyword]. intros H.
  rewrite decide_False by set_solver. apply IH. set_solver.
Qed.

Lemma LookupIdent_ident (s : gostring) : s ∉ Keywords -> LookupIdent s = T_Ident.
Proof. intros H. unfold LookupIdent. by rewrite lookup_keyword_None. Qed.

Lemma LookupIdent_cases (s : gostring) :
  LookupIdent s = T_Ident \/ (s, LookupIdent s) ∈ keywords.
Proof.
  destruct (decide (s ∈ Keywords)) as [H|H]; [|left; by apply LookupIdent_ident].
  right. unfold Keywords in H. apply list_elem_of_fmap in H as ([k t] & -> & H).
  cbn [fst]. by rewrite (LookupIdent_keyword _ _ H).
Qed.
