(* ===== verification/Lexer.v ===== *)
(** * Lexer: from source text to tokens

    The hand-written scanner (src/internal/lexer/lexer.go): a cursor over the
    bytes of the source that decodes one rune at a time, the operators, words,
    numbers, strings and comments it recognises, and the decoding of escapes,
    which the parser shares for interpolated strings.  [unicode.IsLetter] is a
    parameter; its values on ASCII are those the standard library documents. *)

From S2P Require Import Prelude GoText Utf8 Literal Token.
#[local] Open Scope Z_scope.

(** ** Runes *)

(** A character literal of the source. *)
Definition ch_ (b : byte) : Z := byte_val b.

(** [unicode.IsSpace]. *)
Definition IsSpace (r : Z) : bool :=
  between 9 13 r || (r =? 32) || (r =? 133) || (r =? 160) || (r =? 5760) || between 8192 8202 r
  || (r =? 8232) || (r =? 8233) || (r =? 8239) || (r =? 8287) || (r =? 12288).

(** [strings.TrimLeftFunc], [TrimRightFunc] and [TrimSpace] on the runes of a
    string. *)
Fixpoint drop_while {A : Type} (p : A -> bool) (l : list A) : list A :=
  match l with
  | [] => []
  | a :: l' => if p a then drop_while p l' else l
  end.
Definition drop_while_end {A : Type} (p : A -> bool) (l : list A) : list A :=
  rev (drop_while p (rev l)).
Definition TrimSpace (s : gostring) : gostring :=
  concat (map snd (drop_while_end (fun x => IsSpace (fst x))
                     (drop_while (fun x => IsSpace (fst x)) (segments s)))).

(** [strings.Split] at a newline. *)
Fixpoint split_lines (s : gostring) : list gostring :=
  match s with
  | [] => [[]]
  | b :: s =>
      if decide (b = Byte.x0a) then [] :: split_lines s
      else match split_lines s with
           | [] => [[b]]
           | l :: ls => (b :: l) :: ls
           end
  end.

Definition is_blank_byte (b : byte) : bool := bool_decide (b = Byte.x20 \/ b = Byte.x09).

(** [cleanBlockDoc]. *)
Definition clean_line (line : gostring) : gostring :=
  let line := drop_while is_blank_byte (drop_while_end is_blank_byte line) in
  match line with
  | Byte.x2a :: rest => drop_while is_blank_byte rest
  | _ => line
  end.
Definition is_blank_line (line : gostring) : bool :=
  match TrimSpace line with [] => true | _ => false end.
Definition cleanBlockDoc (text : gostring) : gostring :=
  join [Byte.x0a]
    (drop_while_end is_blank_line (drop_while is_blank_line (map clean_line (split_lines text)))).

(** [isDigit], [isBasePrefix], [isBaseLiteralPart]. *)
Definition isDigit (ch : Z) : bool := between 48 57 ch.
Definition isBasePrefix (ch : Z) : bool :=
  (ch =? 98) || (ch =? 66) || (ch =? 111) || (ch =? 79) || (ch =? 120) || (ch =? 88).
Definition isBaseLiteralPart (ch : Z) : bool :=
  isDigit ch || between 97 102 ch || between 65 70 ch || (ch =? 95).

(** ** State *)

(** [Comment]. *)
Record Comment := mkComment { comment_Kind : gostring; comment_Text : gostring; comment_Line : Z }.

(** [Lexer]. *)
Record Lexer := mkLexer {
  input : gostring; position : nat; readPosition : nat; ch : Z; line : Z; column : Z;
  pendingDocs : list gostring; comments : list Comment }.

Definition set_cursor (l : Lexer) (p rp : nat) (c ln col : Z) : Lexer :=
  mkLexer (input l) p rp c ln col (pendingDocs l) (comments l).

(** [readChar]. *)
Definition readChar (l : Lexer) : Lexer :=
  if (length (input l) <=? readPosition l)%nat then
    set_cursor l (readPosition l) (readPosition l) 0 (line l) (column l)
  else
    let (c, width) := DecodeRune (drop (readPosition l) (input l)) in
    if c =? 10 then set_cursor l (readPosition l) (readPosition l + width) c (line l + 1) 0
    else set_cursor l (readPosition l) (readPosition l + width) c (line l) (column l + 1).

(** [New]. *)
Definition New (src : gostring) : Lexer := readChar (mkLexer src 0 0 0 1 0 [] []).

(** [peekChar], [peekSecondChar]. *)
Definition peekChar (l : Lexer) : Z :=
  if (length (input l) <=? readPosition l)%nat then 0
  else fst (DecodeRune (drop (readPosition l) (input l))).
Definition peekSecondChar (l : Lexer) : Z :=
  if (length (input l) <=? readPosition l)%nat then 0
  else
    let next := (readPosition l + snd (DecodeRune (drop (readPosition l) (input l))))%nat in
    if (length (input l) <=? next)%nat then 0 else fst (DecodeRune (drop next (input l))).

(** [l.input[from:l.position]]. *)
Definition text_from (from : nat) (l : Lexer) : gostring :=
  take (position l - from) (drop from (input l)).

(** The characters the cursor can still read, the bound of every loop. *)
Definition unread (l : Lexer) : nat := length (input l) - readPosition l.

(** [for p(l.ch) { l.readChar() }]. *)
Fixpoint read_while_n (n : nat) (p : Z -> bool) (l : Lexer) : Lexer :=
  match n with
  | O => l
  | S n => if p (ch l) then read_while_n n p (readChar l) else l
  end.
Definition read_while (p : Z -> bool) (l : Lexer) : Lexer := read_while_n (S (unread l)) p l.

(** The same, collecting the characters: [text.WriteRune(l.ch); l.readChar()]. *)
Fixpoint collect_while_n (n : nat) (p : Lexer -> bool) (l : Lexer) : gostring * Lexer :=
  match n with
  | O => ([], l)
  | S n =>
      if p l then
        let (t, l') := collect_while_n n p (readChar l) in (EncodeRune (ch l) ++ t, l')
      else ([], l)
  end.
Definition collect_while (p : Lexer -> bool) (l : Lexer) : gostring * Lexer :=
  collect_while_n (S (unread l)) p l.

(** ** Tokens from one or two characters *)

Definition plain_token (t : Type_) (lit raw : gostring) (ln col : Z) : Token :=
  mkToken t lit raw 0 false false ln col [].

(** [newToken]. *)
Definition newToken (l : Lexer) (t : Type_) : Token :=
  plain_token t (EncodeRune (ch l)) (EncodeRune (ch l)) (line l) (column l).

(** [twoCharToken]. *)
Definition twoCharToken (l : Lexer) (t : Type_) : Token * Lexer :=
  let l' := readChar l in
  let lit := EncodeRune (ch l) ++ EncodeRune (ch l') in
  (plain_token t lit lit (line l) (column l), l').

(** [matchToken]. *)
Definition matchToken (l : Lexer) (next : Z) (two one : Type_) : Token * Lexer :=
  if peekChar l =? next then twoCharToken l two else (newToken l one, l).

(** [tok.Type = t; tok.Literal = lit; tok.Raw = lit]. *)
Definition retype (tok : Token) (t : Type_) (lit : gostring) : Token :=
  mkToken t lit lit (Quote tok) (Triple tok) (Interpolated tok) (Line tok) (Column tok) (Doc tok).

(** [attachDoc]. *)
Definition attachDoc (tok : Token) (l : Lexer) : Token * Lexer :=
  match pendingDocs l with
  | [] => (tok, l)
  | docs =>
      (mkToken (tok_Type tok) (Literal tok) (Raw tok) (Quote tok) (Triple tok) (Interpolated tok)
         (Line tok) (Column tok) (join [Byte.x0a] docs),
       mkLexer (input l) (position l) (readPosition l) (ch l) (line l) (column l) [] (comments l))
  end.

(** ** Comments *)

Definition add_comment (l : Lexer) (docs : list gostring) (c : Comment) : Lexer :=
  mkLexer (input l) (position l) (readPosition l) (ch l) (line l) (column l)
    (pendingDocs l ++ docs) (comments l ++ [c]).

(** [for l.peekChar() == ' ' || l.peekChar() == '\t' { l.readChar() }]. *)
Fixpoint skip_peeked_n (n : nat) (l : Lexer) : Lexer :=
  match n with
  | O => l
  | S n => if (peekChar l =? 32) || (peekChar l =? 9) then skip_peeked_n n (readChar l) else l
  end.

(** [skipLineComment]. *)
Definition skipLineComment (l : Lexer) : Lexer :=
  let startLine := line l in
  let doc := peekChar l =? ch_ Byte.x23 in
  let l := if doc then readChar l else l in
  let l := readChar (skip_peeked_n (S (unread l)) l) in
  let (text, l) := collect_while (fun l => negb (ch l =? 10) && negb (ch l =? 0)) l in
  let content := TrimSpace text in
  if doc then add_comment l [content] (mkComment (bs "doc-line") content startLine)
  else add_comment l [] (mkComment (bs "line") content startLine).

(** [skipBlockComment]. *)
Definition at_close (l : Lexer) : bool := (ch l =? 42) && (peekChar l =? 47).
Definition skipBlockComment (l : Lexer) : Lexer :=
  let startLine := line l in
  let l := readChar (readChar l) in
  let doc := ch l =? 42 in
  let l := if doc then readChar l else l in
  let (raw, l) := collect_while (fun l => negb (ch l =? 0) && negb (at_close l)) l in
  let l := if ch l =? 0 then l else readChar (readChar l) in
  if doc then add_comment l [cleanBlockDoc raw] (mkComment (bs "doc-block") raw startLine)
  else add_comment l [] (mkComment (bs "block") raw startLine).

(** [skipIgnored]; [None] when the bound on its rounds is exceeded. *)
Definition is_blank (c : Z) : bool := (c =? 32) || (c =? 9) || (c =? 10) || (c =? 13).
Fixpoint skipIgnored_n (n : nat) (l : Lexer) : option Lexer :=
  match n with
  | O => None
  | S n =>
      let l := read_while is_blank l in
      if ch l =? ch_ Byte.x23 then skipIgnored_n n (skipLineComment l)
      else if (ch l =? 47) && (peekChar l =? 42) then skipIgnored_n n (skipBlockComment l)
      else Some l
  end.
Definition skipIgnored (l : Lexer) : option Lexer := skipIgnored_n (S (S (unread l))) l.

(** ** Escapes *)

(** [strconv.Unquote] on a double-quoted string that is one backslash and one
    character: the escapes that need no more characters. *)
Definition unquote_escape (c : Z) : option Z :=
  if c =? 97 then Some 7 else if c =? 98 then Some 8 else if c =? 102 then Some 12
  else if c =? 110 then Some 10 else if c =? 114 then Some 13 else if c =? 116 then Some 9
  else if c =? 118 then Some 11 else if c =? 92 then Some 92 else if c =? 34 then Some 34
  else None.

(** What an escape stands for: its character, or the two characters themselves. *)
Definition escape_value (c : Z) : gostring :=
  match unquote_escape c with
  | Some r => EncodeRune r
  | None => Byte.x5c :: EncodeRune c
  end.

(** The errors of [decodeUnicodeEscape] and its callers. *)
Inductive EscapeError := EmptyEscape | InvalidCodepoint (hex : gostring) | UnterminatedEscape.
#[global] Instance EscapeError_eq_dec : EqDecision EscapeError.
Proof. solve_decision. Defined.

Definition EscapeError_text (e : EscapeError) : gostring :=
  match e with
  | EmptyEscape => bs "empty \u{} escape"
  | InvalidCodepoint hex => bs "invalid unicode codepoint \u{" ++ hex ++ bs "}"
  | UnterminatedEscape => bs "unterminated \u{...} escape"
  end.

(** [strconv.ParseInt(hex, 16, 32)]. *)
Definition ParseHex32 (hex : gostring) : option Z :=
  match BigIntSetString hex 16 with
  | Some z => if (- 2 ^ 31 <=? z) && (z <? 2 ^ 31) then Some z else None
  | None => None
  end.

(** [decodeUnicodeEscape]. *)
Definition decodeUnicodeEscape (hex : gostring) : result EscapeError Z :=
  match hex with
  | [] => Err EmptyEscape
  | _ =>
      match ParseHex32 hex with
      | Some code => if is_scalar code then Ok code else Err (InvalidCodepoint hex)
      | None => Err (InvalidCodepoint hex)
      end
  end.

(** The characters up to a closing brace, and what follows it. *)
Fixpoint split_brace (rs : list Z) : list Z * option (list Z) :=
  match rs with
  | [] => ([], None)
  | r :: rs => if r =? 125 then ([], Some rs) else let (h, rest) := split_brace rs in (r :: h, rest)
  end.

(** [UnescapeDoubleQuoted] on the runes of the content. *)
Fixpoint unescape_n (n : nat) (rs : list Z) : option (result EscapeError gostring) :=
  match n with
  | O => None
  | S n =>
      let emit (s : gostring) rest :=
        option_map (fun r => let* t := r in Ok (s ++ t)) (unescape_n n rest) in
      match rs with
      | [] => Some (Ok [])
      | [r] => emit (EncodeRune r) []
      | r :: ((next :: rest') as rest) =>
          if negb (r =? 92) then emit (EncodeRune r) rest
          else if (next =? 117) && bool_decide (head rest' = Some 123) then
            match split_brace (tail rest') with
            | (_, None) => Some (Err UnterminatedEscape)
            | (hex, Some rest'') =>
                match decodeUnicodeEscape (string_of_runes hex) with
                | Err e => Some (Err e)
                | Ok r => emit (EncodeRune r) rest''
                end
            end
          else emit (escape_value next) rest'
      end
  end.
Definition UnescapeDoubleQuoted (content : gostring) : option (result EscapeError gostring) :=
  unescape_n (S (length (runes content))) (runes content).

(** ** Strings *)

Definition at_position (ln col : Z) : gostring :=
  bs " at " ++ FormatInt ln ++ bs ":" ++ FormatInt col.
Definition illegal (msg : gostring) (ln col : Z) : Token := plain_token T_Illegal msg [] ln col.

(** The builders of a string token: the raw and the decoded text, and whether
    an interpolation was seen. *)
Record Builders := mkBuilders { raw_ : gostring; value_ : gostring; interpolated_ : bool }.
Definition add_raw (b : Builders) (s : gostring) : Builders :=
  mkBuilders (raw_ b ++ s) (value_ b) (interpolated_ b).
Definition add_value (b : Builders) (s : gostring) : Builders :=
  mkBuilders (raw_ b) (value_ b ++ s) (interpolated_ b).

(** [raw.WriteRune(l.ch)] after [l.readChar()]. *)
Definition read_raw (lb : Lexer * Builders) : Lexer * Builders :=
  let l := readChar (fst lb) in (l, add_raw (snd lb) (EncodeRune (ch l))).

(** [for l.peekChar() != '}' && l.peekChar() != 0]: the digits of an escape. *)
Fixpoint read_hex_n (n : nat) (lb : Lexer * Builders) (hex : gostring) : Lexer * Builders * gostring :=
  match n with
  | O => (lb, hex)
  | S n =>
      if negb (peekChar (fst lb) =? 125) && negb (peekChar (fst lb) =? 0)
      then let lb := read_raw lb in read_hex_n n lb (hex ++ EncodeRune (ch (fst lb)))
      else (lb, hex)
  end.

(** The nested quotes inside an interpolation. *)
Fixpoint skip_quoted_n (n : nat) (strQ : Z) (lb : Lexer * Builders) : Lexer * Builders :=
  match n with
  | O => lb
  | S n =>
      let l := readChar (fst lb) in
      if (ch l =? 0) || (ch l =? 10) then (l, snd lb)
      else
        let b := add_raw (snd lb) (EncodeRune (ch l)) in
        if ch l =? 92 then
          let l := readChar l in
          skip_quoted_n n strQ (l, if negb (ch l =? 0) then add_raw b (EncodeRune (ch l)) else b)
        else if ch l =? strQ then (l, b)
        else skip_quoted_n n strQ (l, b)
  end.

(** The loop over the text of an interpolation, at nesting [depth]. *)
Fixpoint skip_interpolation_n (n : nat) (depth : Z) (lb : Lexer * Builders) : Lexer * Builders :=
  match n with
  | O => lb
  | S n =>
      if 0 <? depth then
        let l := readChar (fst lb) in
        if ch l =? 0 then (l, snd lb)
        else
          let lb := (l, add_raw (snd lb) (EncodeRune (ch l))) in
          if (ch l =? 39) || (ch l =? 34) then
            skip_interpolation_n n depth (skip_quoted_n (S (unread l)) (ch l) lb)
          else if ch l =? 123 then skip_interpolation_n n (depth + 1) lb
          else if ch l =? 125 then skip_interpolation_n n (depth - 1) lb
          else skip_interpolation_n n depth lb
      else lb
  end.

(** One round of the loop of [readStringToken] either goes on, or ends at the
    closing quote, or returns an illegal token. *)
Inductive StringStep := SGo (l : Lexer) (b : Builders) | SEnd (l : Lexer) (b : Builders) | SBad (t : Token) (l : Lexer).

Definition string_step (quote : Z) (triple : bool) (ln col : Z) (l : Lexer) (b : Builders) : StringStep :=
  let l := readChar l in
  if (ch l =? 0) || (negb triple && (ch l =? 10)) then
    SBad (illegal (bs "unterminated string" ++ at_position ln col) ln col) l
  else if (ch l =? quote) && negb triple then SEnd l b
  else if (ch l =? quote) && (peekChar l =? quote) && (peekSecondChar l =? quote) then
    SEnd (readChar (readChar l)) b
  else
    let b := add_raw b (EncodeRune (ch l)) in
    if (quote =? 34) && (ch l =? 92) then
      if peekChar l =? 0 then SGo l b
      else
        let (l, b) := read_raw (l, b) in
        if (ch l =? 117) && (peekChar l =? 123) then
          let '(l, b, hex) := read_hex_n (S (unread l)) (read_raw (l, b)) [] in
          if negb (peekChar l =? 125) then
            SBad (illegal (bs "unterminated \u{...} escape" ++ at_position ln col) ln col) l
          else
            let (l, b) := read_raw (l, b) in
            match decodeUnicodeEscape hex with
            | Err e => SBad (illegal (EscapeError_text e ++ at_position ln col) ln col) l
            | Ok r => SGo l (add_value b (EncodeRune r))
            end
        else SGo l (add_value b (escape_value (ch l)))
    else if (quote =? 34) && (ch l =? 36) && (peekChar l =? 123) then
      let (l, b) := read_raw (l, mkBuilders (raw_ b) (value_ b) true) in
      let (l, b) := skip_interpolation_n (S (S (unread l))) 1 (l, b) in
      SGo l b
    else SGo l (add_value b (EncodeRune (ch l))).

Fixpoint string_loop_n (n : nat) (quote : Z) (triple : bool) (ln col : Z) (l : Lexer) (b : Builders) :
  option (Lexer * result Token Builders) :=
  match n with
  | O => None
  | S n =>
      match string_step quote triple ln col l b with
      | SGo l b => string_loop_n n quote triple ln col l b
      | SEnd l b => Some (l, Ok b)
      | SBad t l => Some (l, Err t)
      end
  end.

(** [readStringToken]. *)
Definition readStringToken (l : Lexer) (quote : Z) : option (Token * Lexer) :=
  let '(ln, col) := (line l, column l) in
  let triple := (peekChar l =? quote) && (peekSecondChar l =? quote) in
  let l := if triple then readChar (readChar l) else l in
  match string_loop_n (S (S (unread l))) quote triple ln col l (mkBuilders [] [] false) with
  | None => None
  | Some (l, Err t) => Some (t, l)
  | Some (l, Ok b) =>
      Some (attachDoc (mkToken T_String (value_ b) (raw_ b) quote triple (interpolated_ b) ln col [])
              (readChar l))
  end.

(** ** Words and numbers *)

Class UnicodeLetters := {
  IsLetter : Z -> bool;
  IsLetter_ascii : forall r, 0 <= r < 128 -> IsLetter r = between 65 90 r || between 97 122 r }.

Section Letters.
Context `{UnicodeLetters}.

(** [isLetter]. *)
Definition isLetter (c : Z) : bool := (c =? 95) || IsLetter c.

(** [readIdentifier]. *)
Definition readIdentifier (l : Lexer) : gostring * Lexer :=
  let from := position l in
  let l := read_while (fun c => isLetter c || isDigit c) l in
  (text_from from l, l).

(** [readNumberToken]. *)
Definition digit_or_underscore (c : Z) : bool := isDigit c || (c =? 95).
Definition read_fraction (l : Lexer) (t : Type_) : Lexer * Type_ :=
  if (ch l =? 46) && isDigit (peekChar l)
  then (read_while digit_or_underscore (readChar l), T_Decimal) else (l, t).
Definition read_exponent (l : Lexer) (t : Type_) : Lexer * Type_ :=
  if ((ch l =? 101) || (ch l =? 69))
     && (isDigit (peekChar l)
         || (((peekChar l =? 43) || (peekChar l =? 45)) && isDigit (peekSecondChar l)))
  then
    let l := readChar l in
    let l := if (ch l =? 43) || (ch l =? 45) then readChar l else l in
    (read_while isDigit l, T_Decimal)
  else (l, t).
Definition readNumberToken (l : Lexer) : Token * Lexer :=
  let '(ln, col, from) := (line l, column l, position l) in
  if (ch l =? 48) && isBasePrefix (peekChar l) then
    let l := read_while isBaseLiteralPart (readChar (readChar l)) in
    (plain_token T_Int (text_from from l) (text_from from l) ln col, l)
  else
    let l := read_while digit_or_underscore l in
    let (l, t) := read_fraction l T_Int in
    let (l, t) := read_exponent l t in
    let (l, t) := if ch l =? 102 then (readChar l, T_Float) else (l, t) in
    (plain_token t (text_from from l) (text_from from l) ln col, l).

(** ** Operators *)

(** [if l.peekChar() == c { l.readChar(); tok.Type = t; ... }]. *)
Definition extend (c : Z) (t : Type_) (lit : gostring) (tl : Token * Lexer) : Token * Lexer :=
  if peekChar (snd tl) =? c then (retype (fst tl) t lit, readChar (snd tl)) else tl.
Definition extend_if (old : Type_) (c : Z) (t : Type_) (lit : gostring) (tl : Token * Lexer) : Token * Lexer :=
  if decide (tok_Type (fst tl) = old) then extend c t lit tl else tl.

(** The cases of [NextToken] for operators and punctuation; [None] is the
    default case. *)
Definition operator_token (l : Lexer) : option (Token * Lexer) :=
  let one t := Some (newToken l t, l) in
  let c := ch l in
  if c =? 61 then Some (extend_if T_Assign 62 T_Arrow (bs "=>") (matchToken l 61 T_Eq T_Assign))
  else if c =? 43 then Some (extend_if T_Plus 61 T_PlusAssign (bs "+=") (matchToken l 43 T_Inc T_Plus))
  else if c =? 45 then Some (extend_if T_Minus 61 T_MinusAssign (bs "-=") (matchToken l 45 T_Dec T_Minus))
  else if c =? 33 then Some (matchToken l 61 T_NotEq T_Bang)
  else if c =? 42 then
    let tl := matchToken l 42 T_Power T_Asterisk in
    Some (if decide (tok_Type (fst tl) = T_Power) then extend 61 T_PowerAssign (bs "**=") tl
          else extend 61 T_MulAssign (bs "*=") tl)
  else if c =? 47 then
    let tl := matchToken l 47 T_IntDiv T_Slash in
    Some (if decide (tok_Type (fst tl) = T_IntDiv) then extend 61 T_IntDivAssign (bs "//=") tl
          else extend 61 T_DivAssign (bs "/=") tl)
  else if c =? 37 then Some (extend 61 T_ModAssign (bs "%=") (newToken l T_Percent, l))
  else if c =? 60 then
    Some (if peekChar l =? 61 then twoCharToken l T_LTE
          else if peekChar l =? 60 then extend 61 T_LShiftAssign (bs "<<=") (twoCharToken l T_LShift)
          else (newToken l T_LT, l))
  else if c =? 62 then
    Some (if peekChar l =? 61 then twoCharToken l T_GTE
          else if peekChar l =? 62 then extend 61 T_RShiftAssign (bs ">>=") (twoCharToken l T_RShift)
          else (newToken l T_GT, l))
  else if c =? 38 then Some (extend_if T_BitAnd 61 T_BitAndAssign (bs "&=") (matchToken l 38 T_And T_BitAnd))
  else if c =? 124 then
    let tl := matchToken l 124 T_Or T_BitOr in
    Some (if bool_decide (tok_Type (fst tl) = T_BitOr) && (peekChar (snd tl) =? 61)
          then extend 61 T_BitOrAssign (bs "|=") tl
          else extend_if T_BitOr 62 T_Pipe (bs "|>") tl)
  else if c =? 94 then Some (extend 61 T_BitXorAssign (bs "^=") (newToken l T_BitXor, l))
  else if c =? 126 then one T_BitNot
  else if c =? 46 then
    Some (if peekChar l =? 46 then
            let l1 := readChar l in
            let tok t s := plain_token t s s (line l) (column l) in
            if peekChar l1 =? 46 then (tok T_Ellipsis (bs "..."), readChar l1)
            else extend 60 T_RangeExcl (bs "..<") (tok T_Range (bs ".."), l1)
          else (newToken l T_Dot, l))
  else if c =? 44 then one T_Comma
  else if c =? 58 then one T_Colon
  else if c =? 59 then one T_Semicolon
  else if c =? 63 then
    Some (if peekChar l =? 63 then extend 61 T_NullCoalesceAssign (bs "??=") (twoCharToken l T_NullCoalesce)
          else if peekChar l =? 46 then twoCharToken l T_OptionalChain
          else (newToken l T_Question, l))
  else if c =? 64 then one T_At
  else if c =? 40 then one T_LParen
  else if c =? 41 then one T_RParen
  else if c =? 123 then one T_LBrace
  else if c =? 125 then one T_RBrace
  else if c =? 91 then one T_LBracket
  else if c =? 93 then one T_RBracket
  else None.

(** The tail of [NextToken]: [l.attachDoc(&tok); l.readChar()]. *)
Definition finish (tl : Token * Lexer) : Token * Lexer :=
  let (tok, l) := attachDoc (fst tl) (snd tl) in (tok, readChar l).

(** [NextToken]; [None] when a bound on a loop is exceeded. *)
Definition NextToken (l : Lexer) : option (Token * Lexer) :=
  match skipIgnored l with
  | None => None
  | Some l =>
      if ch l =? 0 then Some (finish (plain_token T_EOF [] [] (line l) (column l), l))
      else
        match operator_token l with
        | Some tl => Some (finish tl)
        | None =>
            if (ch l =? 34) || (ch l =? 39) then readStringToken l (ch l)
            else if isLetter (ch l) then
              let '(ln, col) := (line l, column l) in
              let (lit, l) := readIdentifier l in
              Some (attachDoc (plain_token (LookupIdent lit) lit [] ln col) l)
            else if isDigit (ch l) then
              let (tok, l) := readNumberToken l in Some (attachDoc tok l)
            else Some (finish (newToken l T_Illegal, l))
        end
  end.

(** The loop of the parser's constructor ([parser.New] in
    src/internal/parser/parser.go): every token up to the first end of file. *)
Fixpoint tokens_n (n : nat) (l : Lexer) : option (list Token) :=
  match n with
  | O => None
  | S n =>
      match NextToken l with
      | None => None
      | Some (tok, l) =>
          if decide (tok_Type tok = T_EOF) then Some [tok]
          else option_map (cons tok) (tokens_n n l)
      end
  end.
Definition tokens (src : gostring) : option (list Token) := tokens_n (S (S (length src))) (New src).
End Letters.

(** The letters of ASCII only. *)
#[global] Instance ascii_letters : UnicodeLetters :=
  {| IsLetter := fun r => between 65 90 r || between 97 122 r; IsLetter_ascii := fun r _ => eq_refl |}.
