(* ===== verification/Scanning.v ===== *)
(** * Scanning: what the lexer does to its source

    The lexer's cursor seen as a position in the list of runes of the source,
    and the theorems about the scanner: its loops end, every token is the text
    at its position, operators are the longest that match, a rendered list of
    tokens scans back to itself, and strings decode as the parser's
    interpolation code decodes them. *)

From S2P Require Import Prelude GoText Utf8 Literal Token Lexer.
#[local] Open Scope Z_scope.

(** ** Segments of a string *)

Lemma cons_inj {A : Type} (x y : A) (l k : list A) : x :: l = y :: k -> x = y /\ l = k.
Proof. by intros [= -> ->]. Qed.

(** The bytes of the first [k] runes. *)
Definition offset (s : gostring) (k : nat) : nat :=
  length (concat (map snd (take k (segments s)))).

Lemma segments_drop (s : gostring) (k : nat) : segments (drop (offset s k) s) = drop k (segments s).
Proof.
  revert k. induction s as [|b s IH] using string_ind_segments; intros k.
  - unfold offset. cbn. by destruct k.
  - destruct k as [|k]; [done|]. unfold offset. rewrite segments_cons. cbn [firstn map snd concat].
    pose proof (DecodeRune_width b s) as Hw.
    rewrite length_app, length_take, Nat.min_l by lia.
    rewrite <- drop_drop. cbn [drop]. apply IH.
Qed.

Lemma drop_offset (s : gostring) (k : nat) :
  drop (offset s k) s = concat (map snd (drop k (segments s))).
Proof. by rewrite <- segments_drop, concat_segments. Qed.

Lemma offset_all (s : gostring) (k : nat) : (length (segments s) <= k)%nat -> offset s k = length s.
Proof. intros H. unfold offset. rewrite take_ge by done. by rewrite concat_segments. Qed.

Lemma segment_width (s : gostring) (r : Z) (t : gostring) : (r, t) ∈ segments s -> (1 <= length t)%nat.
Proof.
  induction s as [|b s IH] using string_ind_segments; [by intros ?%elem_of_nil|].
  rewrite segments_cons. intros [H|H]%elem_of_cons; [|by apply IH].
  apply pair_equal_spec in H as [-> ->]. pose proof (DecodeRune_width b s). rewrite length_take. lia.
Qed.

(** The source after the first [k] runes is at least as long as their number. *)
Lemma concat_segments_length (s : gostring) (k : nat) :
  (length (segments s) - k <= length s - offset s k)%nat.
Proof.
  pose proof (f_equal length (drop_offset s k)) as H. rewrite length_drop in H. rewrite H.
  rewrite <- length_drop.
  assert (Hw : forall x, x ∈ drop k (segments s) -> (1 <= length (snd x))%nat).
  { intros [r t] Hx. apply (segment_width s r). apply list_elem_of_In.
    rewrite <- (take_drop k (segments s)). apply in_or_app. right. by apply list_elem_of_In. }
  clear H. induction (drop k (segments s)) as [|x l IH]; [done|].
  cbn [map concat length]. rewrite length_app.
  pose proof (Hw x ltac:(left)). specialize (IH ltac:(intros; apply Hw; by right)). lia.
Qed.

Lemma DecodeRune_segments (s : gostring) (k : nat) (r : Z) (t : gostring) :
  segments s !! k = Some (r, t) ->
  DecodeRune (drop (offset s k) s) = (r, length t) /\ (offset s k < length s)%nat /\
  offset s (S k) = (offset s k + length t)%nat.
Proof.
  intros H. pose proof (segments_drop s k) as E.
  rewrite (drop_S _ _ _ H) in E.
  destruct (drop (offset s k) s) as [|b u] eqn:D; [done|].
  rewrite segments_cons in E. apply cons_inj in E as [E _]. apply pair_equal_spec in E as [E1 E2].
  pose proof (DecodeRune_width b u) as Hw.
  assert (Hlen : length t = snd (DecodeRune (b :: u)))
    by (rewrite <- E2, length_take; lia).
  split; [|split].
  - rewrite Hlen, <- E1. by destruct (DecodeRune (b :: u)).
  - apply (f_equal length) in D. rewrite length_drop in D. simpl in D. lia.
  - unfold offset. rewrite (take_S_r _ _ _ H), map_app, concat_app, length_app. cbn.
    by rewrite app_nil_r.
Qed.

(** A rune of ASCII is its byte. *)
Lemma segment_ascii (s : gostring) (r : Z) (t : gostring) :
  (r, t) ∈ segments s -> r < 128 -> t = EncodeRune r /\ 0 <= r.
Proof.
  induction s as [|b s IH] using string_ind_segments; [by intros ?%elem_of_nil|].
  rewrite segments_cons. intros [H|H]%elem_of_cons; [|by apply IH].
  apply pair_equal_spec in H as [-> ->]. intros Hr.
  pose proof (DecodeRune_scalar (b :: s)) as Hs. unfold is_scalar in Hs.
  rewrite orb_true_iff, !between_true in Hs. split; [|lia].
  symmetry. apply EncodeRune_decode. unfold DecodeRune in *. cbv zeta in *. unfold RuneSelf in *.
  destruct (Z.ltb_spec (byte_val b) 128); [done|].
  repeat case_match; cbn [fst snd] in *; intros; try done; try (unfold RuneError in *; lia).
Qed.

(** ** The cursor *)

(** [rune_at s k] is the [k]-th rune of the source, 0 at its end and beyond;
    [text s k e] is the source between two runes. *)
Definition rune_at (s : gostring) (k : nat) : Z := nth k (runes s) 0.
Definition runes_len (s : gostring) : nat := length (segments s).
Definition text (s : gostring) (k e : nat) : gostring :=
  concat (map snd (take (e - k) (drop k (segments s)))).

(** The line and column after reading some runes: lines are counted from 1 at
    each newline, columns by the runes since. *)
Definition not_newline (r : Z) : bool := negb (r =? 10).
Fixpoint take_while {A : Type} (p : A -> bool) (l : list A) : list A :=
  match l with
  | [] => []
  | a :: l => if p a then a :: take_while p l else []
  end.
Definition place (rs : list Z) : Z * Z :=
  (1 + zlen (filter (fun r => r = 10) rs), zlen (take_while not_newline (rev rs))).

(** The cursor is on the [k]-th rune, or at the end. *)
Record at_rune (l : Lexer) (k : nat) : Prop := {
  at_bound : (k <= runes_len (input l))%nat;
  at_position : position l = offset (input l) k;
  at_read : readPosition l = offset (input l) (S k);
  at_ch : ch l = rune_at (input l) k;
  at_place : (line l, column l) = place (take (S k) (runes (input l))) }.

(** Two cursors over one source with the same comments seen. *)
Definition same_source (l l' : Lexer) : Prop :=
  input l' = input l /\ pendingDocs l' = pendingDocs l /\ comments l' = comments l.

Lemma same_source_refl (l : Lexer) : same_source l l.
Proof. done. Qed.
Lemma same_source_trans (a b c : Lexer) : same_source a b -> same_source b c -> same_source a c.
Proof. intros (E1 & E2 & E3) (F1 & F2 & F3). unfold same_source. by rewrite F1, F2, F3. Qed.

Lemma runes_length (s : gostring) : length (runes s) = runes_len s.
Proof. apply length_map. Qed.

Lemma rune_at_end (s : gostring) (k : nat) : (runes_len s <= k)%nat -> rune_at s k = 0.
Proof. intros H. apply nth_overflow. by rewrite runes_length. Qed.

Lemma segments_at (s : gostring) (k : nat) :
  (k < runes_len s)%nat -> exists t, segments s !! k = Some (rune_at s k, t).
Proof.
  intros H. destruct (lookup_lt_is_Some_2 (segments s) k H) as [[r t] E]. exists t. rewrite E.
  do 2 f_equal. unfold rune_at, runes. rewrite nth_lookup, list_lookup_fmap, E. done.
Qed.

Lemma rune_at_lookup (s : gostring) (k : nat) :
  (k < runes_len s)%nat -> runes s !! k = Some (rune_at s k).
Proof.
  intros H. destruct (segments_at s k H) as [t E]. unfold runes. by rewrite list_lookup_fmap, E.
Qed.

Lemma place_snoc (rs : list Z) (r : Z) :
  place (rs ++ [r]) = if r =? 10 then (fst (place rs) + 1, 0) else (fst (place rs), snd (place rs) + 1).
Proof.
  unfold place. rewrite filter_app, rev_app_distr, zlen_app. cbn [rev app take_while fst snd].
  unfold not_newline at 1. destruct (Z.eqb_spec r 10) as [->|Hr]; cbn [negb].
  - replace (filter (fun r => r = 10) [10]) with [10] by done. change (zlen [10]) with 1.
    f_equal. lia.
  - rewrite filter_cons_False, filter_nil by done. rewrite zlen_cons, zlen_nil. f_equal; lia.
Qed.

Lemma offset_le_length (s : gostring) (k : nat) : (offset s k <= length s)%nat.
Proof.
  rewrite <- (concat_segments s) at 2. unfold offset.
  rewrite <- (take_drop k (segments s)) at 2. rewrite map_app, concat_app, length_app. lia.
Qed.

Lemma at_readChar (l : Lexer) (k : nat) :
  at_rune l k ->
  at_rune (readChar l) (Nat.min (S k) (runes_len (input l))) /\ same_source l (readChar l).
Proof.
  intros [Hb Hp Hr Hc Hpl]. unfold readChar. rewrite Hr.
  destruct (Nat.leb_spec (length (input l)) (offset (input l) (S k))) as [H|H].
  - assert (Hk : (runes_len (input l) <= S k)%nat).
    { destruct (Nat.le_gt_cases (runes_len (input l)) (S k)) as [|Hlt]; [done|].
      destruct (segments_at _ _ Hlt) as [t E].
      apply DecodeRune_segments in E as (_ & E & _). lia. }
    rewrite Nat.min_r by done. split; [|done].
    assert (E : offset (input l) (S k) = length (input l)) by (pose proof (offset_le_length (input l) (S k)); lia).
    split; cbn [set_cursor input position readPosition ch line column].
    + done.
    + rewrite E. symmetry. by apply offset_all.
    + rewrite E. symmetry. apply offset_all. unfold runes_len. lia.
    + symmetry. by apply rune_at_end.
    + rewrite Hpl. f_equal. by rewrite !take_ge by (rewrite runes_length; lia).
  - assert (Hk : (S k < runes_len (input l))%nat).
    { destruct (Nat.le_gt_cases (runes_len (input l)) (S k)) as [Hle|]; [|done].
      unfold runes_len in Hle. apply offset_all in Hle. lia. }
    rewrite Nat.min_l by lia.
    destruct (segments_at _ _ Hk) as [t E]. pose proof (DecodeRune_segments _ _ _ _ E) as (-> & _ & Eo).
    pose proof (place_snoc (take (S k) (runes (input l))) (rune_at (input l) (S k))) as Hs.
    rewrite <- take_S_r in Hs by (by apply rune_at_lookup). rewrite <- Hpl in Hs. cbn [fst snd] in Hs.
    destruct (rune_at (input l) (S k) =? 10); (split; [|done]);
      (split; cbn [set_cursor input position readPosition ch line column]; [lia|done|by rewrite Eo|done|by rewrite Hs]).
Qed.

Lemma at_New (src : gostring) : at_rune (New src) 0 /\ input (New src) = src.
Proof.
  unfold New, readChar. cbn [readPosition input].
  destruct (Nat.leb_spec (length src) 0) as [H|H].
  - destruct src; [|simpl in H; lia]. done.
  - destruct src as [|b s]; [simpl in H; lia|].
    assert (Hk : (0 < runes_len (b :: s))%nat) by (unfold runes_len; rewrite segments_cons; simpl; lia).
    destruct (segments_at _ _ Hk) as [t E]. pose proof (DecodeRune_segments _ _ _ _ E) as (D & _ & Eo).
    change (offset (b :: s) 0) with 0%nat in *. rewrite D.
    pose proof (place_snoc [] (rune_at (b :: s) 0)) as Hs.
    assert (Et : take 1 (runes (b :: s)) = [rune_at (b :: s) 0])
      by (rewrite (take_S_r _ 0 (rune_at (b :: s) 0)) by (by apply rune_at_lookup); done).
    cbn [app] in Hs. change (place []) with (1, 0) in Hs. cbn [fst snd] in Hs.
    destruct (rune_at (b :: s) 0 =? 10); (split; [|done]);
      (split; cbn [set_cursor input position readPosition ch line column];
        [lia|done|by rewrite Eo|done|by rewrite Et, Hs]).
Qed.

Lemma at_peek (l : Lexer) (k : nat) : at_rune l k -> peekChar l = rune_at (input l) (S k).
Proof.
  intros [Hb Hp Hr Hc Hpl]. unfold peekChar. rewrite Hr.
  destruct (Nat.leb_spec (length (input l)) (offset (input l) (S k))) as [H|H].
  - symmetry. destruct (Nat.le_gt_cases (runes_len (input l)) (S k)) as [|Hlt]; [by apply rune_at_end|].
    destruct (segments_at _ _ Hlt) as [t E]. apply DecodeRune_segments in E as (_ & E & _). lia.
  - destruct (Nat.le_gt_cases (runes_len (input l)) (S k)) as [Hle|Hlt].
    { unfold runes_len in Hle. apply offset_all in Hle. lia. }
    destruct (segments_at _ _ Hlt) as [t E]. by apply DecodeRune_segments in E as (-> & _).
Qed.

Lemma at_peek2 (l : Lexer) (k : nat) : at_rune l k -> peekSecondChar l = rune_at (input l) (S (S k)).
Proof.
  intros Hat. pose proof (at_readChar l k Hat) as [H1 (Hi & _)].
  destruct (Nat.le_gt_cases (runes_len (input l)) (S k)) as [Hle|Hlt].
  - rewrite rune_at_end by lia. unfold peekSecondChar. rewrite (at_read l k Hat).
    rewrite offset_all by done. by rewrite Nat.leb_refl.
  - rewrite Nat.min_l in H1 by lia. apply at_peek in H1. rewrite Hi in H1. rewrite <- H1.
    destruct (segments_at _ _ Hlt) as [t E]. pose proof (DecodeRune_segments _ _ _ _ E) as (D & Hl & Eo).
    unfold peekSecondChar, peekChar, readChar. rewrite (at_read l k Hat).
    rewrite (proj2 (Nat.leb_gt _ _)) by done. rewrite D. cbn [snd].
    destruct (_ =? 10); done.
Qed.

(** The bound of the loops is enough. *)
Lemma at_unread (l : Lexer) (k : nat) : at_rune l k -> (runes_len (input l) - S k <= unread l)%nat.
Proof. intros [? ? Hr _ _]. unfold unread. rewrite Hr. apply concat_segments_length. Qed.

(** ** Loops *)

(** The runes of the source from [k] to [e]. *)
Definition span (s : gostring) (k e : nat) : list Z := take (e - k) (drop k (runes s)).

Lemma span_nil (s : gostring) (k : nat) : span s k k = [].
Proof. unfold span. by rewrite Nat.sub_diag. Qed.

Lemma span_cons (s : gostring) (k e : nat) :
  (k < e)%nat -> (k < runes_len s)%nat -> span s k e = rune_at s k :: span s (S k) e.
Proof.
  intros H Hk. unfold span. rewrite (drop_S _ (rune_at s k) k) by (by apply rune_at_lookup).
  replace (e - k)%nat with (S (e - S k)) by lia. done.
Qed.

(** A loop whose test is a property of the current position stops at the first
    position that fails it. *)
Lemma at_collect_while_n (q : Lexer -> bool) (Q : nat -> bool) (n : nat) (l : Lexer) (k : nat) :
  (forall l' k', same_source l l' -> at_rune l' k' -> q l' = Q k') ->
  (forall k', (runes_len (input l) <= k')%nat -> Q k' = false) ->
  (runes_len (input l) - k <= n)%nat -> at_rune l k ->
  exists j, (k <= j)%nat /\ at_rune (snd (collect_while_n n q l)) j /\
    same_source l (snd (collect_while_n n q l)) /\
    fst (collect_while_n n q l) = string_of_runes (span (input l) k j) /\
    (forall i, (k <= i < j)%nat -> Q i = true) /\ Q j = false.
Proof.
  revert l k. induction n as [|n IH]; intros l k Hq HQ Hn Hat; cbn [collect_while_n].
  { exists k. rewrite span_nil. pose proof (at_bound l k Hat). split_and!; try done; [lia|]. apply HQ. lia. }
  rewrite (Hq l k (same_source_refl l) Hat). destruct (Q k) eqn:E.
  2: { exists k. rewrite span_nil. split_and!; try done. lia. }
  assert (Hk : (k < runes_len (input l))%nat).
  { destruct (Nat.le_gt_cases (runes_len (input l)) k) as [H|]; [|done]. rewrite HQ in E by done. done. }
  pose proof (at_readChar l k Hat) as [Hat' Hs]. rewrite Nat.min_l in Hat' by lia.
  assert (Ei : input (readChar l) = input l) by apply Hs.
  destruct (IH (readChar l) (S k)) as (j & H1 & H2 & H3 & H4 & H5 & H6); rewrite ?Ei; try done; [|lia|].
  { intros l' k' Hs' Ha'. apply Hq; [|done]. by eapply same_source_trans. }
  destruct (collect_while_n n q (readChar l)) as [t l'] eqn:Ec. cbn [fst snd] in *.
  exists j. split_and!; try done; [lia|by eapply same_source_trans| |].
  - rewrite H4, Ei, (span_cons _ k) by lia. cbn. by rewrite (at_ch l k Hat).
  - intros i Hi. destruct (decide (i = k)) as [->|]; [done|]. apply H5. lia.
Qed.

Lemma at_collect_while (q : Lexer -> bool) (Q : nat -> bool) (l : Lexer) (k : nat) :
  (forall l' k', same_source l l' -> at_rune l' k' -> q l' = Q k') ->
  (forall k', (runes_len (input l) <= k')%nat -> Q k' = false) ->
  at_rune l k ->
  exists j, (k <= j)%nat /\ at_rune (snd (collect_while q l)) j /\
    same_source l (snd (collect_while q l)) /\
    fst (collect_while q l) = string_of_runes (span (input l) k j) /\
    (forall i, (k <= i < j)%nat -> Q i = true) /\ Q j = false.
Proof.
  intros Hq HQ Hat. apply at_collect_while_n; try done.
  pose proof (at_unread l k Hat). pose proof (at_bound l k Hat). lia.
Qed.

Lemma read_while_collect (n : nat) (p : Z -> bool) (l : Lexer) :
  read_while_n n p l = snd (collect_while_n n (fun l => p (ch l)) l).
Proof.
  revert l. induction n as [|n IH]; intros l; [done|]. cbn [read_while_n collect_while_n].
  destruct (p (ch l)); [|done]. rewrite IH. by destruct (collect_while_n _ _ _).
Qed.

Lemma skip_peeked_collect (n : nat) (l : Lexer) :
  skip_peeked_n n l = snd (collect_while_n n (fun l => (peekChar l =? 32) || (peekChar l =? 9)) l).
Proof.
  revert l. induction n as [|n IH]; intros l; [done|]. cbn [skip_peeked_n collect_while_n].
  destruct (_ || _); [|done]. rewrite IH. by destruct (collect_while_n _ _ _).
Qed.

Lemma at_read_while (p : Z -> bool) (l : Lexer) (k : nat) :
  p 0 = false -> at_rune l k ->
  exists j, (k <= j)%nat /\ at_rune (read_while p l) j /\ same_source l (read_while p l) /\
    (forall i, (k <= i < j)%nat -> p (rune_at (input l) i) = true) /\ p (rune_at (input l) j) = false.
Proof.
  intros H0 Hat. unfold read_while. rewrite read_while_collect.
  destruct (at_collect_while (fun l => p (ch l)) (fun i => p (rune_at (input l) i)) l k)
    as (j & H1 & H2 & H3 & _ & H4); try done; [| |by exists j].
  - intros l' k' (Ei & _) Ha. by rewrite (at_ch _ _ Ha), Ei.
  - intros k' Hk. by rewrite rune_at_end.
Qed.

(** ** What the scanner skips *)

(** No [*/] inside. *)
Definition no_close (rs : list Z) : Prop :=
  forall i, rs !! i = Some 42 -> rs !! S i <> Some 47.
Definition stops (rs : list Z) : Prop := head rs = None \/ head rs = Some 0.

Definition unclosed (body : list Z) : Prop :=
  match body with
  | [] => True
  | 42 :: u => no_close u
  | _ => no_close body
  end.

(** [skips t r]: [r] is what remains of [t] after blanks and comments.  A
    comment that opens with [/**] is searched for its end from the character
    after the second star. *)
Inductive skips : list Z -> list Z -> Prop :=
| sk_done t : skips t t
| sk_blank c t r : is_blank c = true -> skips t r -> skips (c :: t) r
| sk_line body t r :
    Forall (fun c => c <> 10 /\ c <> 0) body -> (stops t \/ head t = Some 10) ->
    skips t r -> skips (35 :: body ++ t) r
| sk_block c body t r :
    c <> 42 -> no_close (c :: body ++ [42]) -> Forall (fun x => x <> 0) (c :: body) ->
    skips t r -> skips (47 :: 42 :: c :: body ++ 42 :: 47 :: t) r
| sk_doc body t r :
    no_close (body ++ [42]) -> Forall (fun x => x <> 0) body ->
    skips t r -> skips (47 :: 42 :: 42 :: body ++ 42 :: 47 :: t) r
| sk_open body t :
    unclosed body -> Forall (fun x => x <> 0) body -> stops t -> skips (47 :: 42 :: body ++ t) t.

(** What stands where a token begins. *)
Definition at_token (rs : list Z) : Prop :=
  match rs with
  | [] => True
  | c :: rs => is_blank c = false /\ c <> 35 /\ ~ (c = 47 /\ head rs = Some 42)
  end.

Lemma drop_span (s : gostring) (k e : nat) :
  (k <= e)%nat -> drop k (runes s) = span s k e ++ drop e (runes s).
Proof.
  intros H. unfold span. rewrite <- (take_drop (e - k) (drop k (runes s))) at 1.
  rewrite drop_drop. by replace (k + (e - k))%nat with e by lia.
Qed.

Lemma span_lookup (s : gostring) (k e i : nat) (c : Z) :
  span s k e !! i = Some c -> (k + i < e)%nat /\ (k + i < runes_len s)%nat /\ c = rune_at s (k + i).
Proof.
  unfold span. intros H. apply lookup_take_Some in H as [H Hi]. rewrite lookup_drop in H.
  pose proof (lookup_lt_Some _ _ _ H) as Hl. rewrite runes_length in Hl.
  split_and!; [lia|done|]. rewrite rune_at_lookup in H by done. congruence.
Qed.

Lemma Forall_span (P : Z -> Prop) (s : gostring) (k e : nat) :
  (forall i, (k <= i < e)%nat -> (i < runes_len s)%nat -> P (rune_at s i)) -> Forall P (span s k e).
Proof.
  intros H. apply Forall_lookup. intros i c Hc. apply span_lookup in Hc as (H1 & H2 & ->).
  apply H; lia.
Qed.

Lemma drop_rune (s : gostring) (k : nat) :
  (k < runes_len s)%nat -> drop k (runes s) = rune_at s k :: drop (S k) (runes s).
Proof. intros H. apply drop_S. by apply rune_at_lookup. Qed.

Lemma rune_in (s : gostring) (k : nat) : rune_at s k <> 0 -> (k < runes_len s)%nat.
Proof. intros H. destruct (Nat.lt_ge_cases k (runes_len s)); [done|]. by rewrite rune_at_end in H. Qed.

Lemma head_drop (s : gostring) (k : nat) :
  (k <= runes_len s)%nat -> head (drop k (runes s)) = if decide (k = runes_len s) then None else Some (rune_at s k).
Proof.
  intros H. destruct (decide (k = runes_len s)) as [->|].
  - by rewrite drop_ge by (by rewrite runes_length).
  - rewrite drop_rune by lia. done.
Qed.

Lemma stops_at (s : gostring) (k : nat) : (k <= runes_len s)%nat -> rune_at s k = 0 -> stops (drop k (runes s)).
Proof.
  intros H H0. unfold stops. rewrite head_drop by done. destruct (decide _); [by left|]. rewrite H0. by right.
Qed.

(** [readChar] inside the source. *)
Lemma at_next (l : Lexer) (k : nat) :
  at_rune l k -> (k < runes_len (input l))%nat -> at_rune (readChar l) (S k) /\ same_source l (readChar l).
Proof. intros H Hk. apply at_readChar in H. by rewrite Nat.min_l in H by lia. Qed.

(** A block comment's end. *)
Lemma no_close_span (s : gostring) (k j : nat) :
  (forall i, (k <= i)%nat -> (S i < j)%nat -> ~ (rune_at s i = 42 /\ rune_at s (S i) = 47)) ->
  no_close (span s k j).
Proof.
  intros H i Hi Hi'. apply span_lookup in Hi as (H1 & H2 & E1). apply span_lookup in Hi' as (H3 & H4 & E2).
  apply (H (k + i)%nat); [lia|lia|]. split; [done|]. by rewrite <- Nat.add_succ_r.
Qed.

Lemma at_skipLineComment (l : Lexer) (k : nat) :
  at_rune l k -> rune_at (input l) k = 35 ->
  exists j, (k < j)%nat /\ at_rune (skipLineComment l) j /\ input (skipLineComment l) = input l /\
    (forall r, skips (drop j (runes (input l))) r -> skips (drop k (runes (input l))) r).
Proof.
  intros Hat Hk. set (s := input l) in *.
  assert (Hkn : (k < runes_len s)%nat) by (apply rune_in; lia).
  unfold skipLineComment. rewrite (at_peek l k Hat). fold s. change (ch_ Byte.x23) with 35.
  set (l1 := if rune_at s (S k) =? 35 then readChar l else l).
  assert (H1 : exists k1, (k <= k1)%nat /\ (k1 < runes_len s)%nat /\ at_rune l1 k1 /\ same_source l l1 /\
    (forall i, (k < i <= k1)%nat -> rune_at s i = 35)).
  { unfold l1. destruct (Z.eqb_spec (rune_at s (S k)) 35) as [E|E].
    - apply at_next in Hat as [Ha Hs]; [|done]. exists (S k). split_and!; try done; [lia|apply rune_in; lia|].
      intros i Hi. by replace i with (S k) by lia.
    - exists k. split_and!; try done; [lia..|]. intros; lia. }
  clearbody l1. destruct H1 as (k1 & Hk1 & Hn1 & Hat1 & Hs1 & Hr1).
  rewrite skip_peeked_collect.
  assert (Ei1 : input l1 = s) by apply Hs1.
  destruct (at_collect_while (fun l => (peekChar l =? 32) || (peekChar l =? 9))
    (fun i => (rune_at s (S i) =? 32) || (rune_at s (S i) =? 9)) l1 k1) as (k2 & Hk2 & Hat2 & Hs2 & _ & Hr2 & _).
  { intros l' k' (Ei & _) Ha. by rewrite (at_peek _ _ Ha), Ei, Ei1. }
  { intros k' Hk'. rewrite Ei1 in Hk'. rewrite rune_at_end by lia. done. }
  { done. }
  unfold collect_while in Hat2, Hs2. set (l2 := snd (collect_while_n _ _ l1)) in *. clearbody l2.
  apply at_readChar in Hat2 as [Hat3 Hs3].
  assert (Ei2 : input l2 = s) by (by rewrite <- Ei1; apply Hs2).
  assert (Ei3 : input (readChar l2) = s) by (by rewrite <- Ei2; apply Hs3).
  rewrite Ei2 in Hat3. set (l3 := readChar l2) in *. set (k3 := Nat.min (S k2) (runes_len s)) in *.
  destruct (at_collect_while (fun l => negb (ch l =? 10) && negb (ch l =? 0))
    (fun i => negb (rune_at s i =? 10) && negb (rune_at s i =? 0)) l3 k3) as (j & Hj & Hat4 & Hs4 & _ & Hr4 & Hstop).
  { intros l' k' (Ei & _) Ha. by rewrite (at_ch _ _ Ha), Ei, Ei3. }
  { intros k' Hk'. rewrite Ei3 in Hk'. rewrite rune_at_end by lia. done. }
  { done. }
  destruct (collect_while _ l3) as [t l4]. cbn [fst snd] in *.
  assert (Ei4 : input l4 = s) by (by rewrite <- Ei3; apply Hs4).
  assert (Hjn : (j <= runes_len s)%nat) by (rewrite <- Ei4; apply (at_bound _ _ Hat4)).
  assert (Hconc : (k < j)%nat /\ (forall r, skips (drop j (runes s)) r -> skips (drop k (runes s)) r)).
  { split; [unfold k3 in *; lia|]. intros r Hr.
    rewrite (drop_rune s k Hkn), Hk, (drop_span s (S k) j) by (unfold k3 in *; lia).
    apply sk_line; [|..|done].
    - apply Forall_span. intros i Hi Hin.
      destruct (decide (i <= k1)%nat); [by rewrite Hr1 by lia|].
      destruct (decide (i < k3)%nat).
      + specialize (Hr2 (i - 1)%nat ltac:(unfold k3 in *; lia)).
        replace (S (i - 1)) with i in Hr2 by lia. lia.
      + specialize (Hr4 i ltac:(lia)). lia.
    - destruct (Z.eqb_spec (rune_at s j) 0) as [E|E]; [left; by apply stops_at|].
      right. rewrite head_drop by done. assert (Hj10 : rune_at s j = 10) by lia.
      rewrite decide_False; [by rewrite Hj10|]. intros ->. by rewrite rune_at_end in E. }
  destruct Hconc as [Hc1 Hc2].
  exists j. destruct (rune_at s (S k) =? 35); (split_and!; [done| |by rewrite <- Ei4|done]);
    destruct Hat4 as [B1 B2 B3 B4 B5]; split; done.
Qed.

Lemma span_snoc (s : gostring) (k j : nat) :
  (k <= j)%nat -> (j < runes_len s)%nat -> span s k (S j) = span s k j ++ [rune_at s j].
Proof.
  intros H Hj. unfold span. replace (S j - k)%nat with (S (j - k)) by lia.
  apply take_S_r. rewrite lookup_drop. replace (k + (j - k))%nat with j by lia.
  by apply rune_at_lookup.
Qed.

Lemma skips_stops (t r : list Z) : stops t -> skips t r -> r = t.
Proof.
  intros Hs H. destruct H; try done; try (by destruct Hs as [[=]|[=]]).
  destruct Hs as [[=]|[= ->]]. done.
Qed.

Definition close_at (s : gostring) (i : nat) : bool := (rune_at s i =? 42) && (rune_at s (S i) =? 47).

(** The parts of a block comment, from the opening at [k] to the position [j]
    where the search that started at [b] stopped. *)
Lemma block_parts (s : gostring) (k b j : nat) (r : list Z) :
  rune_at s k = 47 -> rune_at s (S k) = 42 ->
  b = (if rune_at s (S (S k)) =? 42 then S (S (S k)) else S (S k)) ->
  (b <= j)%nat -> (j <= runes_len s)%nat ->
  (forall i, (b <= i < j)%nat -> rune_at s i <> 0 /\ close_at s i = false) ->
  rune_at s j = 0 \/ close_at s j = true ->
  skips (drop (if rune_at s j =? 0 then j else S (S j)) (runes s)) r -> skips (drop k (runes s)) r.
Proof.
  intros Hk Hk1 Hb Hbj Hjn Hin Hstop Hr.
  assert (Hnk : (k < runes_len s)%nat) by (apply rune_in; lia).
  assert (Hnk1 : (S k < runes_len s)%nat) by (apply rune_in; lia).
  rewrite (drop_rune s k Hnk), (drop_rune s (S k) Hnk1), Hk, Hk1.
  assert (Hb2 : (S (S k) <= b)%nat) by (destruct (_ =? 42); lia).
  assert (Hnz : Forall (fun x => x <> 0) (span s (S (S k)) j)).
  { apply Forall_span. intros i Hi _. destruct (decide (b <= i)%nat); [apply Hin; lia|].
    destruct (Z.eqb_spec (rune_at s (S (S k))) 42); [|lia]. replace i with (S (S k)) by lia. lia. }
  assert (Hclose : forall e, (e <= S j)%nat -> no_close (span s b e)).
  { intros e He. apply no_close_span. intros i H1 H2 [H3 H4].
    destruct (Hin i ltac:(lia)) as [_ Hc]. unfold close_at in Hc. rewrite H3, H4 in Hc. done. }
  rewrite (drop_span s (S (S k)) j) by lia.
  destruct (Z.eqb_spec (rune_at s j) 0) as [E0|E0].
  - apply skips_stops in Hr; [subst r|by apply stops_at].
    apply sk_open; [|done|by apply stops_at].
    destruct (decide (S (S k) < j)%nat) as [Hlt|].
    + rewrite span_cons by lia. destruct (Z.eqb_spec (rune_at s (S (S k))) 42) as [E|E].
      * rewrite E. cbn. rewrite <- Hb. apply Hclose. lia.
      * assert (Hg : no_close (rune_at s (S (S k)) :: span s (S (S (S k))) j)).
        { rewrite <- span_cons by lia. rewrite <- Hb. apply Hclose. lia. }
        unfold unclosed. repeat case_match; done.
    + replace j with (S (S k)) by lia. by rewrite span_nil.
  - destruct Hstop as [|Hc]; [done|].
    assert (Hc' := Hc). unfold close_at in Hc. apply andb_true_iff in Hc as [C1%Z.eqb_eq C2%Z.eqb_eq].
    assert (Hnj : (j < runes_len s)%nat) by (apply rune_in; lia).
    assert (Hnj1 : (S j < runes_len s)%nat) by (apply rune_in; lia).
    rewrite (drop_rune s j Hnj), (drop_rune s (S j) Hnj1), C1, C2.
    destruct (Z.eqb_spec (rune_at s (S (S k))) 42) as [E|E].
    + rewrite span_cons, E in * by lia. cbn [app]. apply sk_doc; [|by apply Forall_inv_tail in Hnz|done].
      rewrite <- Hb. rewrite <- C1. rewrite <- span_snoc by lia. apply Hclose. lia.
    + assert (Hlt : (S (S k) < j)%nat) by (destruct (decide (j = S (S k))) as [->|]; [congruence|lia]).
      rewrite span_cons in * by lia. cbn [app]. apply sk_block; [done| |done|done].
      rewrite app_comm_cons, <- span_cons by lia. rewrite <- Hb, <- C1, <- span_snoc by lia. apply Hclose. lia.
Qed.

Lemma at_skipBlockComment (l : Lexer) (k : nat) :
  at_rune l k -> rune_at (input l) k = 47 -> rune_at (input l) (S k) = 42 ->
  exists j, (k < j)%nat /\ at_rune (skipBlockComment l) j /\ input (skipBlockComment l) = input l /\
    (forall r, skips (drop j (runes (input l))) r -> skips (drop k (runes (input l))) r).
Proof.
  intros Hat Hk Hk1. set (s := input l) in *.
  assert (Hnk : (k < runes_len s)%nat) by (apply rune_in; lia).
  assert (Hnk1 : (S k < runes_len s)%nat) by (apply rune_in; lia).
  unfold skipBlockComment.
  pose proof (at_next l k Hat Hnk) as [Hat1 Hs1].
  assert (Ei1 : input (readChar l) = s) by apply Hs1.
  pose proof (at_next _ _ Hat1 ltac:(by rewrite Ei1)) as [Hat2 Hs2].
  assert (Ei2 : input (readChar (readChar l)) = s) by (rewrite <- Ei1; apply Hs2).
  set (l2 := readChar (readChar l)) in *. clearbody l2.
  rewrite (at_ch _ _ Hat2), Ei2. cbv zeta.
  set (doc := rune_at s (S (S k)) =? 42).
  set (l3 := if doc then readChar l2 else l2).
  set (b := if doc then S (S (S k)) else S (S k)).
  assert (H3 : at_rune l3 b /\ input l3 = s).
  { unfold l3, b, doc. destruct (Z.eqb_spec (rune_at s (S (S k))) 42) as [E|E]; [|done].
    apply at_next in Hat2 as [Ha Hs]; [|rewrite Ei2; apply rune_in; lia].
    split; [done|]. rewrite <- Ei2. apply Hs. }
  destruct H3 as [Hat3 Ei3]. clearbody l3.
  destruct (at_collect_while (fun l => negb (ch l =? 0) && negb (at_close l))
    (fun i => negb (rune_at s i =? 0) && negb (close_at s i)) l3 b) as (j & Hj & Hat4 & Hs4 & _ & Hr4 & Hstop).
  { intros l' k' (Ei & _) Ha. unfold at_close. by rewrite (at_ch _ _ Ha), (at_peek _ _ Ha), Ei, Ei3. }
  { intros k' Hk'. rewrite Ei3 in Hk'. rewrite (rune_at_end s k') by lia. done. }
  { done. }
  destruct (collect_while _ l3) as [t l4]. cbn [fst snd] in *.
  assert (Ei4 : input l4 = s) by (by rewrite <- Ei3; apply Hs4).
  assert (Hjn : (j <= runes_len s)%nat) by (rewrite <- Ei4; apply (at_bound _ _ Hat4)).
  assert (Hkb : (k < b)%nat) by (unfold b; destruct doc; lia).
  set (l5 := if ch l4 =? 0 then l4 else readChar (readChar l4)).
  set (e := if rune_at s j =? 0 then j else S (S j)).
  assert (H5 : at_rune l5 e /\ input l5 = s /\ (k < e)%nat).
  { unfold l5, e. rewrite (at_ch _ _ Hat4), Ei4.
    destruct (Z.eqb_spec (rune_at s j) 0) as [E0|E0]; [split_and!; done || lia|].
    assert (Hc : close_at s j = true) by (destruct (close_at s j); [done|]; lia).
    unfold close_at in Hc. apply andb_true_iff in Hc as [C1%Z.eqb_eq C2%Z.eqb_eq].
    apply at_next in Hat4 as [Ha1 Hb1]; [|rewrite Ei4; apply rune_in; lia].
    assert (F1 : input (readChar l4) = s) by (rewrite <- Ei4; apply Hb1).
    apply at_next in Ha1 as [Ha2 Hb2]; [|rewrite F1; apply rune_in; lia].
    split_and!; [done|rewrite <- F1; apply Hb2|lia]. }
  destruct H5 as (Hat5 & Ei5 & Hke). clearbody l5.
  assert (Hsk : forall r, skips (drop e (runes s)) r -> skips (drop k (runes s)) r).
  { intros r. unfold e. apply (block_parts s k b j); try done.
    - intros i Hi. specialize (Hr4 i Hi). destruct (close_at s i); lia.
    - destruct (close_at s j); [by right|left]. lia. }
  exists e. destruct doc; (split_and!; [done| |done|done]);
    destruct Hat5 as [B1 B2 B3 B4 B5]; split; done.
Qed.

(** Where the scanner stops skipping, a token begins. *)
Lemma skipIgnored_n_spec (n : nat) (l : Lexer) (k : nat) :
  at_rune l k -> (runes_len (input l) - k < n)%nat ->
  exists l' j, skipIgnored_n n l = Some l' /\ (k <= j)%nat /\ at_rune l' j /\ input l' = input l /\
    skips (drop k (runes (input l))) (drop j (runes (input l))) /\ at_token (drop j (runes (input l))).
Proof.
  revert l k. induction n as [|n IH]; intros l k Hat Hn; [lia|]. cbn [skipIgnored_n].
  destruct (at_read_while is_blank l k eq_refl Hat) as (k1 & Hk1 & Hat1 & Hs1 & Hblank & Hnb).
  set (s := input l) in *. set (l1 := read_while is_blank l) in *. clearbody l1.
  assert (Ei1 : input l1 = s) by apply Hs1.
  assert (Hn1 : (k1 <= runes_len s)%nat) by (rewrite <- Ei1; apply (at_bound _ _ Hat1)).
  assert (Hsk : forall r, skips (drop k1 (runes s)) r -> skips (drop k (runes s)) r).
  { intros r Hr. clear -Hblank Hk1 Hr Hn1. remember (k1 - k)%nat as d eqn:Ed. revert k Hblank Hk1 Ed.
    induction d as [|d IHd]; intros k Hblank Hk1 Ed; [by replace k with k1 by lia|].
    rewrite drop_rune by lia. apply sk_blank; [apply Hblank; lia|].
    apply IHd; [|lia|lia]. intros i Hi. apply Hblank. lia. }
  assert (Hrec : forall l' j, (k1 < j)%nat -> at_rune l' j -> input l' = s ->
    (forall r, skips (drop j (runes s)) r -> skips (drop k1 (runes s)) r) ->
    exists l'' j', skipIgnored_n n l' = Some l'' /\ (k <= j')%nat /\ at_rune l'' j' /\ input l'' = s /\
      skips (drop k (runes s)) (drop j' (runes s)) /\ at_token (drop j' (runes s))).
  { intros l' j Hj Ha Ei Hr. pose proof (at_bound _ _ Ha) as Hb. rewrite Ei in Hb.
    destruct (IH l' j Ha) as (l'' & j' & H1 & H2 & H3 & H4 & H5 & H6); [rewrite Ei; lia|].
    rewrite Ei in *. exists l'', j'. split_and!; try done; [lia|]. by apply Hsk, Hr. }
  rewrite (at_ch _ _ Hat1), (at_peek _ _ Hat1), Ei1. change (ch_ Byte.x23) with 35.
  destruct (Z.eqb_spec (rune_at s k1) 35) as [E35|E35].
  { destruct (at_skipLineComment l1 k1 Hat1) as (j & H1 & H2 & H3 & H4); [by rewrite Ei1|].
    rewrite Ei1 in *. by apply (Hrec _ j). }
  destruct ((rune_at s k1 =? 47) && (rune_at s (S k1) =? 42)) eqn:Eb.
  { apply andb_true_iff in Eb as [E1%Z.eqb_eq E2%Z.eqb_eq].
    destruct (at_skipBlockComment l1 k1 Hat1) as (j & H1 & H2 & H3 & H4); [by rewrite Ei1..|].
    rewrite Ei1 in *. by apply (Hrec _ j). }
  exists l1, k1. split_and!; try done; [by apply Hsk, sk_done|].
  destruct (decide (k1 = runes_len s)) as [->|Hne].
  - by rewrite drop_ge by (by rewrite runes_length).
  - rewrite drop_rune by lia. cbn [at_token]. split_and!; [done|done|]. intros [E1 E2].
    assert (Hs : (S k1 < runes_len s)%nat).
    { destruct (decide (S k1 = runes_len s)) as [E|]; [|lia].
      rewrite E, drop_ge in E2 by (by rewrite runes_length). done. }
    rewrite drop_rune in E2 by done. injection E2 as E2. rewrite E1, E2 in Eb. done.
Qed.

Lemma skipIgnored_spec (l : Lexer) (k : nat) :
  at_rune l k ->
  exists l' j, skipIgnored l = Some l' /\ (k <= j)%nat /\ at_rune l' j /\ input l' = input l /\
    skips (drop k (runes (input l))) (drop j (runes (input l))) /\ at_token (drop j (runes (input l))).
Proof.
  intros Hat. apply skipIgnored_n_spec; [done|].
  pose proof (at_unread l k Hat). pose proof (at_bound l k Hat). lia.
Qed.

(** ** Operators *)

(** Every operator and punctuation mark, the longer first. *)
Definition operators : list (gostring * Type_) :=
  [(bs "**=", T_PowerAssign); (bs "//=", T_IntDivAssign); (bs "<<=", T_LShiftAssign);
   (bs ">>=", T_RShiftAssign); (bs "??=", T_NullCoalesceAssign); (bs "...", T_Ellipsis);
   (bs "..<", T_RangeExcl);
   (bs "==", T_Eq); (bs "=>", T_Arrow); (bs "++", T_Inc); (bs "+=", T_PlusAssign);
   (bs "--", T_Dec); (bs "-=", T_MinusAssign); (bs "!=", T_NotEq); (bs "**", T_Power);
   (bs "*=", T_MulAssign); (bs "//", T_IntDiv); (bs "/=", T_DivAssign); (bs "%=", T_ModAssign);
   (bs "<=", T_LTE); (bs "<<", T_LShift); (bs ">=", T_GTE); (bs ">>", T_RShift);
   (bs "&&", T_And); (bs "&=", T_BitAndAssign); (bs "||", T_Or); (bs "|=", T_BitOrAssign);
   (bs "|>", T_Pipe); (bs "^=", T_BitXorAssign); (bs "..", T_Range); (bs "??", T_NullCoalesce);
   (bs "?.", T_OptionalChain);
   (bs "=", T_Assign); (bs "+", T_Plus); (bs "-", T_Minus); (bs "!", T_Bang); (bs "*", T_Asterisk);
   (bs "/", T_Slash); (bs "%", T_Percent); (bs "<", T_LT); (bs ">", T_GT); (bs "&", T_BitAnd);
   (bs "|", T_BitOr); (bs "^", T_BitXor); (bs "~", T_BitNot); (bs ".", T_Dot); (bs ",", T_Comma);
   (bs ":", T_Colon); (bs ";", T_Semicolon); (bs "?", T_Question); (bs "@", T_At);
   (bs "(", T_LParen); (bs ")", T_RParen); (bs "{", T_LBrace); (bs "}", T_RBrace);
   (bs "[", T_LBracket); (bs "]", T_RBracket)].

Fixpoint begins (op : gostring) (rs : list Z) : bool :=
  match op, rs with
  | [], _ => true
  | b :: op, r :: rs => (r =? byte_val b) && begins op rs
  | _ :: _, [] => false
  end.

(** The longest operator that the text begins with. *)
Definition longest_operator (rs : list Z) : option (gostring * Type_) :=
  find (fun o => begins (fst o) rs) operators.


(** Reads the test of the scanner on the text ahead. *)
Ltac read_ahead H1 :=
  match goal with
  | |- context [if ?c =? ?x then _ else _] =>
      is_var c; destruct (Z.eqb_spec c x) as [->|?];
      [try (destruct (H1 ltac:(lia)) as [Hch Hpk])|]
  end.
Ltac false_tests :=
  repeat match goal with
  | E : ?a <> ?b |- context [?a =? ?b] => rewrite (proj2 (Z.eqb_neq a b) E)
  end.
Ltac operator_leaf :=
  do 2 eexists; split;
    [ unfold longest_operator, operators; cbn [find begins fst bs String.list_byte_of_string];
      cbn; false_tests; cbn; false_tests; reflexivity
    | split; reflexivity ].

Lemma operator_token_spec (l : Lexer) (c0 c1 c2 : Z) :
  ch l = c0 -> peekChar l = c1 -> (c1 <> 0 -> ch (readChar l) = c1 /\ peekChar (readChar l) = c2) ->
  match operator_token l with
  | None => longest_operator [c0; c1; c2] = None
  | Some (t, l') => exists lit T, longest_operator [c0; c1; c2] = Some (lit, T) /\
      t = plain_token T lit lit (line l) (column l) /\ l' = Nat.iter (length lit - 1) readChar l
  end.
Proof.
  intros Hc Hp H1. unfold operator_token, matchToken, extend_if, extend, twoCharToken, newToken.
  rewrite Hc, Hp. cbv zeta.
  repeat match goal with
  | |- match (if c0 =? ?x then _ else _) with _ => _ end =>
      destruct (Z.eqb_spec c0 x) as [->|?];
      [ solve [ cbn; repeat (first [rewrite Hch | rewrite Hp | rewrite Hpk | read_ahead H1]; cbn);
                operator_leaf ] | ]
  end.
  unfold longest_operator, operators. cbn. false_tests. done.
Qed.

(** ** Words and numbers *)

Ltac in_list := rewrite !elem_of_cons in *; intuition auto.

(** [l'] is [l] moved forward from rune [k] to rune [j]. *)
Definition moved (l : Lexer) (k : nat) (l' : Lexer) (j : nat) : Prop :=
  (k <= j)%nat /\ at_rune l' j /\ same_source l l'.

Lemma moved_trans (a b c : Lexer) (i j k : nat) : moved a i b j -> moved b j c k -> moved a i c k.
Proof.
  intros (? & ? & ?) (? & ? & ?). split_and!; [lia|done|by eapply same_source_trans].
Qed.

Lemma moved_refl (l : Lexer) (k : nat) : at_rune l k -> moved l k l k.
Proof. done. Qed.

Lemma moved_next (l : Lexer) (k : nat) : at_rune l k -> ch l <> 0 -> moved l k (readChar l) (S k).
Proof.
  intros H H0. rewrite (at_ch _ _ H) in H0. apply rune_in in H0.
  destruct (at_next l k H H0). split_and!; [lia|done..].
Qed.

Lemma moved_any (l : Lexer) (k : nat) :
  at_rune l k -> moved l k (readChar l) (Nat.min (S k) (runes_len (input l))).
Proof.
  intros H. pose proof (at_bound _ _ H). destruct (at_readChar l k H). split_and!; [lia|done..].
Qed.

Lemma moved_input (l l' : Lexer) (k j : nat) : moved l k l' j -> input l' = input l.
Proof. by intros (_ & _ & E & _). Qed.

Lemma moved_ch (l l' : Lexer) (k j : nat) : moved l k l' j -> ch l' = rune_at (input l) j.
Proof. intros (_ & H & E & _). by rewrite (at_ch _ _ H), E. Qed.

Lemma moved_peek (l l' : Lexer) (k j : nat) : moved l k l' j -> peekChar l' = rune_at (input l) (S j).
Proof. intros (_ & H & E & _). by rewrite (at_peek _ _ H), E. Qed.

(** Reading a character that turns out not to be the end. *)
Lemma moved_read (l : Lexer) (k : nat) :
  at_rune l k -> ch (readChar l) <> 0 -> moved l k (readChar l) (S k).
Proof.
  intros H H0. pose proof (moved_any l k H) as M. rewrite (moved_ch _ _ _ _ M) in H0.
  apply rune_in in H0. by rewrite Nat.min_l in M by lia.
Qed.

Lemma moved_read_ch (l : Lexer) (k : nat) : at_rune l k -> ch (readChar l) = rune_at (input l) (S k).
Proof.
  intros H. pose proof (moved_any l k H) as M. rewrite (moved_ch _ _ _ _ M).
  destruct (Nat.le_gt_cases (S k) (runes_len (input l))); [by rewrite Nat.min_l|].
  rewrite Nat.min_r by lia. by rewrite !rune_at_end by lia.
Qed.

Lemma moved_while (p : Z -> bool) (l : Lexer) (k : nat) :
  p 0 = false -> at_rune l k ->
  exists j, moved l k (read_while p l) j /\
    (forall i, (k <= i < j)%nat -> p (rune_at (input l) i) = true) /\ p (rune_at (input l) j) = false.
Proof.
  intros H0 H. destruct (at_read_while p l k H0 H) as (j & ? & ? & ? & ? & ?). by exists j.
Qed.

Lemma offset_text (s : gostring) (k j : nat) :
  (k <= j)%nat -> offset s j = (offset s k + length (text s k j))%nat.
Proof.
  intros H. unfold offset, text. rewrite <- length_app, <- concat_app, <- map_app.
  do 3 f_equal. rewrite <- (take_drop k (take j (segments s))).
  rewrite take_take, Nat.min_l by done. f_equal. rewrite skipn_firstn_comm. done.
Qed.

Lemma text_from_at (l : Lexer) (k j : nat) :
  (k <= j)%nat -> at_rune l j -> text_from (offset (input l) k) l = text (input l) k j.
Proof.
  intros H Ha. unfold text_from. rewrite (at_position _ _ Ha), (offset_text _ k j H), drop_offset.
  replace (offset (input l) k + _ - _)%nat with (length (text (input l) k j)) by lia.
  unfold text. rewrite <- (take_drop (j - k) (drop k (segments (input l)))) at 2.
  rewrite map_app, concat_app. apply take_app_length.
Qed.

(** The position after the longest run of characters that satisfy [p]. *)
Definition while_end (s : gostring) (p : Z -> bool) (k : nat) : nat :=
  (k + length (take_while p (drop k (runes s))))%nat.

(** Where the number literal that starts at rune [k] ends, and its type. *)
Definition fraction_end (s : gostring) (j : nat) (t : Type_) : nat * Type_ :=
  if (rune_at s j =? 46) && isDigit (rune_at s (S j))
  then (while_end s digit_or_underscore (S j), T_Decimal) else (j, t).
Definition exponent_end (s : gostring) (j : nat) (t : Type_) : nat * Type_ :=
  let sign := (rune_at s (S j) =? 43) || (rune_at s (S j) =? 45) in
  if ((rune_at s j =? 101) || (rune_at s j =? 69))
     && (isDigit (rune_at s (S j)) || (sign && isDigit (rune_at s (S (S j)))))
  then (while_end s isDigit (if sign then S (S j) else S j), T_Decimal) else (j, t).
Definition suffix_end (s : gostring) (j : nat) (t : Type_) : nat * Type_ :=
  if rune_at s j =? 102 then (S j, T_Float) else (j, t).
Definition number_end (s : gostring) (k : nat) : nat * Type_ :=
  if (rune_at s k =? 48) && isBasePrefix (rune_at s (S k))
  then (while_end s isBaseLiteralPart (S (S k)), T_Int)
  else
    let '(j, t) := fraction_end s (while_end s digit_or_underscore k) T_Int in
    let '(j, t) := exponent_end s j t in
    suffix_end s j t.

Lemma while_end_eq (s : gostring) (p : Z -> bool) (k j : nat) :
  p 0 = false -> (k <= j)%nat -> (forall i, (k <= i < j)%nat -> p (rune_at s i) = true) ->
  p (rune_at s j) = false -> while_end s p k = j.
Proof.
  intros H0 Hkj Hall Hj. unfold while_end.
  assert (Hin : forall i, (k <= i < j)%nat -> (i < runes_len s)%nat).
  { intros i Hi. apply rune_in. intros E. specialize (Hall i Hi). rewrite E, H0 in Hall. done. }
  remember (j - k)%nat as d eqn:Ed. revert k Hkj Hall Hin Ed. induction d as [|d IH]; intros k Hkj Hall Hin Ed.
  - replace k with j by lia. destruct (decide (j < runes_len s)%nat) as [Hlt|].
    + rewrite drop_rune by done. cbn [take_while]. rewrite Hj. cbn. lia.
    + rewrite drop_ge by (rewrite runes_length; lia). cbn. lia.
  - specialize (IH (S k) ltac:(lia) ltac:(intros; apply Hall; lia) ltac:(intros; apply Hin; lia) ltac:(lia)).
    rewrite drop_rune by (apply Hin; lia). cbn [take_while]. rewrite Hall by lia. cbn [length]. lia.
Qed.

Lemma moved_while_end (p : Z -> bool) (l : Lexer) (k : nat) :
  p 0 = false -> at_rune l k -> moved l k (read_while p l) (while_end (input l) p k).
Proof.
  intros H0 Ha. destruct (moved_while p l k H0 Ha) as (j & M & H1 & H2).
  by rewrite (while_end_eq _ p k j H0 (proj1 M) H1 H2).
Qed.

Lemma read_fraction_spec (l : Lexer) (k : nat) (t : Type_) :
  at_rune l k ->
  exists l', read_fraction l t = (l', snd (fraction_end (input l) k t)) /\
    moved l k l' (fst (fraction_end (input l) k t)).
Proof.
  intros Ha. unfold read_fraction, fraction_end. rewrite (at_ch _ _ Ha), (at_peek _ _ Ha).
  destruct (_ && _) eqn:E; [|exists l; split; [done|by apply moved_refl]].
  pose proof (moved_next l k Ha ltac:(rewrite (at_ch _ _ Ha); lia)) as M1.
  eexists. split; [reflexivity|]. eapply moved_trans; [exact M1|].
  rewrite <- (moved_input _ _ _ _ M1). by apply moved_while_end; [|apply M1].
Qed.

Lemma read_exponent_spec (l : Lexer) (k : nat) (t : Type_) :
  at_rune l k ->
  exists l', read_exponent l t = (l', snd (exponent_end (input l) k t)) /\
    moved l k l' (fst (exponent_end (input l) k t)).
Proof.
  intros Ha. unfold read_exponent, exponent_end. cbv zeta.
  rewrite (at_ch _ _ Ha), (at_peek _ _ Ha), (at_peek2 _ _ Ha).
  destruct (((rune_at (input l) k =? 101) || (rune_at (input l) k =? 69)) && _) eqn:E;
    [|exists l; split; [done|by apply moved_refl]].
  pose proof (moved_next l k Ha ltac:(rewrite (at_ch _ _ Ha); lia)) as M1.
  rewrite (moved_ch _ _ _ _ M1). eexists. split; [reflexivity|]. cbn [fst].
  destruct ((rune_at (input l) (S k) =? 43) || (rune_at (input l) (S k) =? 45)) eqn:Es.
  - assert (M2 : moved l k (readChar (readChar l)) (S (S k))).
    { eapply moved_trans; [exact M1|]. apply moved_next; [apply M1|]. rewrite (moved_ch _ _ _ _ M1). lia. }
    eapply moved_trans; [exact M2|].
    rewrite <- (moved_input _ _ _ _ M2). by apply moved_while_end; [|apply M2].
  - eapply moved_trans; [exact M1|].
    rewrite <- (moved_input _ _ _ _ M1). by apply moved_while_end; [|apply M1].
Qed.

Lemma readNumberToken_spec (l : Lexer) (k : nat) :
  at_rune l k -> isDigit (ch l) = true ->
  exists t l' j, readNumberToken l =
      (plain_token t (text (input l) k j) (text (input l) k j) (line l) (column l), l') /\
    moved l k l' j /\ (k < j)%nat /\ number_end (input l) k = (j, t).
Proof.
  intros Ha Hd. unfold readNumberToken, number_end. rewrite (at_position _ _ Ha).
  pose proof (at_ch _ _ Ha) as Hch. rewrite Hch, (at_peek _ _ Ha). set (s := input l) in *.
  assert (Hgo : forall l' j t, moved l k l' j -> (k < j)%nat ->
    exists t0 l0 j0, (plain_token t (text_from (offset s k) l') (text_from (offset s k) l') (line l) (column l), l') =
      (plain_token t0 (text s k j0) (text s k j0) (line l) (column l), l0) /\
      moved l k l0 j0 /\ (k < j0)%nat /\ (j, t) = (j0, t0)).
  { intros l' j t M Hj. exists t, l', j. split; [|done].
    pose proof (moved_input _ _ _ _ M) as Ei. fold s in Ei. rewrite <- Ei.
    by rewrite (text_from_at l' k j) by (apply M || lia). }
  destruct ((rune_at s k =? 48) && isBasePrefix (rune_at s (S k))) eqn:Eb.
  - apply andb_true_iff in Eb as [E0%Z.eqb_eq Ep].
    assert (M1 : moved l k (readChar l) (S k)) by (apply moved_next; [done|lia]).
    assert (M2 : moved l k (readChar (readChar l)) (S (S k))).
    { eapply moved_trans; [exact M1|]. apply moved_next; [apply M1|]. rewrite (moved_ch _ _ _ _ M1).
      fold s. intros E. by rewrite E in Ep. }
    pose proof (moved_while_end isBaseLiteralPart _ _ eq_refl (proj1 (proj2 M2))) as M3.
    rewrite (moved_input _ _ _ _ M2) in M3. fold s in M3.
    apply Hgo; [by eapply moved_trans|]. pose proof (proj1 M3). lia.
  - pose proof (moved_while_end digit_or_underscore l k eq_refl Ha) as M1. fold s in M1.
    assert (Hkj : (k < while_end s digit_or_underscore k)%nat).
    { unfold while_end. rewrite drop_rune by (apply rune_in; intros E; by rewrite Hch, E in Hd).
      cbn [take_while]. unfold digit_or_underscore at 1. rewrite <- Hch, Hd. cbn. lia. }
    set (l1 := read_while digit_or_underscore l) in *. set (j1 := while_end s digit_or_underscore k) in *.
    assert (E1 : input l1 = s) by (by apply moved_input in M1).
    destruct (read_fraction_spec l1 j1 T_Int (proj1 (proj2 M1))) as (l2 & -> & M2). rewrite E1 in *.
    destruct (fraction_end s j1 T_Int) as [j2 t2]. cbn [fst snd] in *.
    pose proof (moved_trans _ _ _ _ _ _ M1 M2) as M12.
    assert (E2 : input l2 = s) by (by apply moved_input in M12).
    destruct (read_exponent_spec l2 j2 t2 (proj1 (proj2 M12))) as (l3 & -> & M3). rewrite E2 in *.
    destruct (exponent_end s j2 t2) as [j3 t3]. cbn [fst snd] in *.
    pose proof (moved_trans _ _ _ _ _ _ M12 M3) as M13. pose proof (proj1 M2). pose proof (proj1 M3).
    unfold suffix_end. rewrite (moved_ch _ _ _ _ M13). fold s.
    destruct (Z.eqb_spec (rune_at s j3) 102) as [E|]; [|apply Hgo; [done|lia]].
    apply Hgo; [|lia]. eapply moved_trans; [exact M13|]. apply moved_next; [apply M13|].
    rewrite (moved_ch _ _ _ _ M13). fold s. lia.
Qed.

Lemma number_end_type (s : gostring) (k : nat) : snd (number_end s k) ∈ [T_Int; T_Decimal; T_Float].
Proof.
  unfold number_end, suffix_end, exponent_end, fraction_end. cbv zeta.
  repeat case_match; simplify_eq; cbn [snd]; in_list.
Qed.

Section Words.
Context {letters : UnicodeLetters}.

Lemma isLetter_0 : isLetter 0 = false.
Proof. unfold isLetter. rewrite IsLetter_ascii by lia. done. Qed.

Lemma readIdentifier_spec (l : Lexer) (k : nat) :
  at_rune l k -> isLetter (ch l) = true ->
  exists l' j, readIdentifier l = (text (input l) k j, l') /\ moved l k l' j /\ (k < j)%nat /\
    (forall i, (k <= i < j)%nat -> isLetter (rune_at (input l) i) || isDigit (rune_at (input l) i) = true) /\
    isLetter (rune_at (input l) j) || isDigit (rune_at (input l) j) = false.
Proof.
  intros Ha Hl. unfold readIdentifier. rewrite (at_position _ _ Ha).
  destruct (moved_while (fun c => isLetter c || isDigit c) l k) as (j & M & H1 & H2).
  { by rewrite isLetter_0. }
  { done. }
  assert (Hkj : (k < j)%nat).
  { destruct (decide (j = k)) as [->|]; [|destruct M; lia].
    rewrite <- (at_ch _ _ Ha), Hl in H2. done. }
  eexists _, j. split_and!; try done. destruct M as (_ & M & E & _). rewrite <- E.
  by rewrite (text_from_at _ k j) by (done || lia).
Qed.
End Words.

(** ** Strings *)

Lemma span_one (s : gostring) (k : nat) : (k < runes_len s)%nat -> span s k (S k) = [rune_at s k].
Proof. intros H. by rewrite span_cons, span_nil by lia. Qed.

Lemma span_app (s : gostring) (k j e : nat) :
  (k <= j)%nat -> (j <= e)%nat -> span s k e = span s k j ++ span s j e.
Proof.
  intros H1 H2. unfold span. replace (e - k)%nat with ((j - k) + (e - j))%nat by lia.
  rewrite <- take_take_drop, drop_drop. by replace (k + (j - k))%nat with j by lia.
Qed.

Lemma string_of_runes_app (a b : list Z) : string_of_runes (a ++ b) = string_of_runes a ++ string_of_runes b.
Proof. apply flat_map_app. Qed.

Lemma string_of_runes_one (r : Z) : string_of_runes [r] = EncodeRune r.
Proof. cbn. apply app_nil_r. Qed.

(** Builders that grew by the runes of a span, with the decoded text [v]. *)
Definition grew (b b' : Builders) (rs : list Z) (v : gostring) : Prop :=
  raw_ b' = raw_ b ++ string_of_runes rs /\ value_ b' = value_ b ++ v /\
  interpolated_ b' = interpolated_ b.

Lemma grew_refl (b : Builders) : grew b b [] [].
Proof. unfold grew. cbn. by rewrite !app_nil_r. Qed.

Lemma read_hex_n_spec (n : nat) (l : Lexer) (b : Builders) (hex : gostring) (k : nat) :
  at_rune l k -> (runes_len (input l) - k <= n)%nat ->
  exists l' b' j, read_hex_n n (l, b) hex = (l', b', hex ++ string_of_runes (span (input l) (S k) (S j))) /\
    moved l k l' j /\ grew b b' (span (input l) (S k) (S j)) [] /\
    Forall (fun c => c <> 125) (span (input l) (S k) (S j)) /\
    (peekChar l' = 125 \/ peekChar l' = 0).
Proof.
  revert l b hex k. induction n as [|n IH]; intros l b hex k Ha Hn; cbn [read_hex_n fst].
  { exists l, b, k. rewrite span_nil, app_nil_r.
    split; [done|split; [by apply moved_refl|split; [apply grew_refl|split; [done|]]]].
    right. rewrite (at_peek _ _ Ha). apply rune_at_end. lia. }
  destruct (negb (peekChar l =? 125) && negb (peekChar l =? 0)) eqn:E.
  - change (read_raw (l, b)) with (readChar l, add_raw b (EncodeRune (ch (readChar l)))).
    cbn [fst]. rewrite (at_peek _ _ Ha) in E.
    assert (Hin : (S k < runes_len (input l))%nat) by (apply rune_in; lia).
    assert (M : moved l k (readChar l) (S k)) by (apply moved_read; [done|rewrite (moved_read_ch _ _ Ha); lia]).
    pose proof (moved_input _ _ _ _ M) as Ei. rewrite (moved_read_ch _ _ Ha).
    destruct (IH (readChar l) (add_raw b (EncodeRune (rune_at (input l) (S k))))
      (hex ++ EncodeRune (rune_at (input l) (S k))) (S k)) as (l' & b' & j & H1 & M2 & (G1 & G2 & G3) & H3 & H4);
      [apply M|rewrite Ei; lia|].
    rewrite H1, Ei. rewrite Ei in G1, H3. exists l', b', j.
    assert (Hs : span (input l) (S k) (S j) = rune_at (input l) (S k) :: span (input l) (S (S k)) (S j)).
    { rewrite span_cons; [done| |done]. destruct M2. lia. }
    rewrite Hs. change (string_of_runes (?r :: ?t)) with (EncodeRune r ++ string_of_runes t).
    split; [by rewrite <- app_assoc|split; [by eapply moved_trans|split; [|split; [constructor; [lia|done]|done]]]].
    split; [|split; done]. rewrite G1. cbn [add_raw raw_]. by rewrite <- app_assoc.
  - exists l, b, k. rewrite span_nil, app_nil_r.
    split; [done|split; [by apply moved_refl|split; [apply grew_refl|split; [done|]]]].
    destruct (Z.eqb_spec (peekChar l) 125); [by left|right]. lia.
Qed.

(** The loops inside an interpolation only move forward, and their bounds do
    not cut them short. *)
Lemma skip_quoted_n_spec (n m : nat) (q : Z) (l : Lexer) (b : Builders) (k : nat) :
  at_rune l k -> (runes_len (input l) - k <= n)%nat -> (n <= m)%nat -> (1 <= n)%nat ->
  skip_quoted_n m q (l, b) = skip_quoted_n n q (l, b) /\
  exists j, moved l k (fst (skip_quoted_n n q (l, b))) j /\
    interpolated_ (snd (skip_quoted_n n q (l, b))) = interpolated_ b.
Proof.
  revert m l b k. induction n as [|n IH]; intros m l b k Ha Hn Hm H1; [lia|].
  destruct m as [|m]; [lia|]. cbn [skip_quoted_n fst snd].
  pose proof (moved_any l k Ha) as M. pose proof (moved_input _ _ _ _ M) as Ei.
  destruct ((ch (readChar l) =? 0) || (ch (readChar l) =? 10)) eqn:E0.
  { split; [done|]. eexists. by split; [exact M|]. }
  assert (Hin : (S k < runes_len (input l))%nat)
    by (apply rune_in; rewrite <- (moved_read_ch _ _ Ha); lia).
  rewrite Nat.min_l in M by lia.
  destruct (ch (readChar l) =? 92).
  - pose proof (moved_any _ _ (proj1 (proj2 M))) as M2. pose proof (moved_input _ _ _ _ M2) as Ei2.
    rewrite Ei in M2.
    set (b2 := if negb (ch (readChar (readChar l)) =? 0) then _ else _).
    assert (Hi : interpolated_ b2 = interpolated_ b) by (unfold b2; by destruct (negb _)).
    clearbody b2. destruct n as [|n]; [lia|].
    destruct (IH m (readChar (readChar l)) b2 _ (proj1 (proj2 M2))) as (E1 & j & M3 & E3);
      [rewrite Ei2, Ei; lia|lia|lia|].
    split; [exact E1|]. exists j. split; [|congruence].
    eapply moved_trans; [exact M|]. by eapply moved_trans.
  - destruct (ch (readChar l) =? q); [split; [done|]; eexists; by split; [exact M|]|].
    destruct n as [|n]; [lia|].
    destruct (IH m (readChar l) (add_raw b (EncodeRune (ch (readChar l)))) _ (proj1 (proj2 M))) as (E1 & j & M3 & E3);
      [rewrite Ei; lia|lia|lia|].
    split; [exact E1|]. exists j. split; [by eapply moved_trans|done].
Qed.

Lemma skip_interpolation_n_spec (n m : nat) (depth : Z) (l : Lexer) (b : Builders) (k : nat) :
  at_rune l k -> (runes_len (input l) - k < n)%nat -> (n <= m)%nat ->
  skip_interpolation_n m depth (l, b) = skip_interpolation_n n depth (l, b) /\
  exists j, moved l k (fst (skip_interpolation_n n depth (l, b))) j /\
    interpolated_ (snd (skip_interpolation_n n depth (l, b))) = interpolated_ b.
Proof.
  revert m depth l b k. induction n as [|n IH]; intros m depth l b k Ha Hn Hm; [lia|].
  destruct m as [|m]; [lia|]. cbn [skip_interpolation_n fst snd].
  destruct (0 <? depth); [|split; [done|]; exists k; by split; [apply moved_refl|]].
  pose proof (moved_any l k Ha) as M. pose proof (moved_input _ _ _ _ M) as Ei.
  destruct (ch (readChar l) =? 0) eqn:E0; [split; [done|]; eexists; by split; [exact M|]|].
  assert (Hin : (S k < runes_len (input l))%nat)
    by (apply rune_in; rewrite <- (moved_read_ch _ _ Ha); lia).
  rewrite Nat.min_l in M by lia.
  assert (Hgo : forall depth' l' b' j, moved l k l' j -> (k < j)%nat -> interpolated_ b' = interpolated_ b ->
    skip_interpolation_n m depth' (l', b') = skip_interpolation_n n depth' (l', b') /\
    exists j, moved l k (fst (skip_interpolation_n n depth' (l', b'))) j /\
      interpolated_ (snd (skip_interpolation_n n depth' (l', b'))) = interpolated_ b).
  { intros depth' l' b' j M' Hj Hi. destruct (IH m depth' l' b' j) as (E1 & j' & M2 & E2);
      [apply M'|rewrite (moved_input _ _ _ _ M'); lia|lia|].
    split; [done|]. exists j'. split; [by eapply moved_trans|congruence]. }
  destruct (_ || _).
  - set (b1 := add_raw b _).
    destruct (skip_quoted_n_spec (S (unread (readChar l))) (S (unread (readChar l))) (ch (readChar l))
      (readChar l) b1 (S k)) as (_ & j & M2 & E2); [apply M| |lia|lia|].
    { pose proof (at_unread _ _ (proj1 (proj2 M))). lia. }
    destruct (skip_quoted_n _ _ _) as [l2 b2]. cbn [fst snd] in M2, E2.
    apply (Hgo _ _ _ j); [by eapply moved_trans|destruct M2; lia|done].
  - destruct (_ =? 123); [|destruct (_ =? 125)]; (apply (Hgo _ _ _ (S k)); [exact M|lia|done]).
Qed.

(** *** Decoding *)

(** [rs] decodes to [v] before [rest] in a string with the given quote: escapes
    are decoded between double quotes only. *)
Definition decodes (quote : Z) (rs : list Z) (v : gostring) (rest : list Z) : Prop :=
  if quote =? 34 then
    forall n, unescape_n (S n) (rs ++ rest)
              = option_map (fun r => let* t := r in Ok (v ++ t)) (unescape_n n rest)
  else v = string_of_runes rs.

Lemma decodes_rune (quote c : Z) (rest : list Z) :
  (quote = 34 -> c <> 92) -> decodes quote [c] (EncodeRune c) rest.
Proof.
  intros H. unfold decodes. destruct (Z.eqb_spec quote 34) as [E|]; [|by rewrite string_of_runes_one].
  specialize (H E). intros n. cbn [app unescape_n]. destruct rest as [|next rest]; [done|].
  by rewrite (proj2 (Z.eqb_neq c 92) H).
Qed.

Lemma decodes_escape (c : Z) (rest : list Z) :
  (c = 117 -> head rest <> Some 123) -> decodes 34 [92; c] (escape_value c) rest.
Proof.
  intros H n. cbn [app unescape_n]. change (negb (92 =? 92)) with false. cbn match.
  destruct (Z.eqb_spec c 117) as [E|]; cbn [andb]; [|done].
  by rewrite bool_decide_eq_false_2 by auto.
Qed.

Lemma split_brace_app (hex rest : list Z) :
  Forall (fun c => c <> 125) hex -> split_brace (hex ++ 125 :: rest) = (hex, Some rest).
Proof.
  induction 1 as [|c hex Hc _ IH]; [done|]. cbn [app split_brace].
  rewrite (proj2 (Z.eqb_neq c 125) Hc). by rewrite IH.
Qed.

Lemma decodes_unicode (hex rest : list Z) (r : Z) :
  Forall (fun c => c <> 125) hex -> decodeUnicodeEscape (string_of_runes hex) = Ok r ->
  decodes 34 (92 :: 117 :: 123 :: hex ++ [125]) (EncodeRune r) rest.
Proof.
  intros Hh Hr n. cbn [app unescape_n]. change (negb (92 =? 92)) with false.
  change (117 =? 117) with true. cbn match. rewrite bool_decide_eq_true_2 by done. cbn [andb tail].
  rewrite <- app_assoc. cbn [app]. by rewrite split_brace_app, Hr.
Qed.

(** What a round of the string loop does from rune [k]. *)
Definition step_ok (s : gostring) (quote : Z) (k : nat) (b b' : Builders) (j : nat) : Prop :=
  interpolated_ b' = false ->
  interpolated_ b = false /\
  (rune_at s (S j) = 0 \/
   exists v, grew b b' (span s (S k) (S j)) v /\
     forall e, (j < e)%nat -> (e <= runes_len s)%nat -> decodes quote (span s (S k) (S j)) v (span s (S j) e)).

Lemma read_raw_eq (l : Lexer) (b : Builders) :
  read_raw (l, b) = (readChar l, add_raw b (EncodeRune (ch (readChar l)))).
Proof. done. Qed.

Lemma head_span (s : gostring) (k e : nat) (c : Z) :
  (k <= e)%nat -> head (span s k e) = Some c -> rune_at s k = c.
Proof.
  intros He H. destruct (span s k e) as [|x t] eqn:E; [done|]. injection H as ->.
  assert (Hl : span s k e !! 0%nat = Some c) by (by rewrite E).
  apply span_lookup in Hl as (_ & _ & ->). by rewrite Nat.add_0_r.
Qed.

Lemma grew_add (b : Builders) (c : Z) (v : gostring) : grew b (add_value (add_raw b (EncodeRune c)) v) [c] v.
Proof. unfold grew. by rewrite string_of_runes_one. Qed.

Lemma string_step_spec (quote : Z) (triple : bool) (ln col : Z) (l : Lexer) (b : Builders) (k : nat) :
  quote <> 0 -> at_rune l k ->
  match string_step quote triple ln col l b with
  | SBad t l' => exists j, moved l k l' j /\ (k < j \/ k = runes_len (input l))%nat /\
                   tok_Type t = T_Illegal /\ (Line t, Column t) = (ln, col) /\ Doc t = []
  | SEnd l' b' => b' = b /\ exists j, moved l k l' j /\ rune_at (input l) (S k) = quote /\
      (j = if triple then S (S (S k)) else S k) /\ (j < runes_len (input l))%nat /\
      (triple = true -> rune_at (input l) (S (S k)) = quote /\ rune_at (input l) (S (S (S k))) = quote)
  | SGo l' b' => exists j, moved l k l' j /\ (k < j)%nat /\ rune_at (input l) (S k) <> 0 /\
      step_ok (input l) quote k b b' j
  end.
Proof.
  intros Hq Ha. set (s := input l) in *. unfold string_step.
  pose proof (moved_any l k Ha) as M0. rewrite (moved_read_ch _ _ Ha). fold s in M0 |- *.
  pose proof (at_bound _ _ Ha) as Hb. fold s in Hb.
  assert (Hprog : (k < Nat.min (S k) (runes_len s) \/ k = runes_len s)%nat) by lia.
  destruct ((rune_at s (S k) =? 0) || _) eqn:E0; [by exists (Nat.min (S k) (runes_len s))|].
  assert (Hc : rune_at s (S k) <> 0) by lia. assert (Hin : (S k < runes_len s)%nat) by (by apply rune_in).
  rewrite Nat.min_l in * by lia. clear E0 Hprog.
  assert (Ei : input (readChar l) = s) by apply (moved_input _ _ _ _ M0).
  destruct ((rune_at s (S k) =? quote) && negb triple) eqn:E1.
  { apply andb_true_iff in E1 as [E1%Z.eqb_eq ->%negb_true_iff]. split; [done|]. exists (S k). done. }
  rewrite (moved_peek _ _ _ _ M0), (at_peek2 _ _ (proj1 (proj2 M0))), Ei. fold s.
  destruct ((rune_at s (S k) =? quote) && (rune_at s (S (S k)) =? quote) && (rune_at s (S (S (S k))) =? quote)) eqn:E2.
  { rewrite !andb_true_iff, !Z.eqb_eq in E2. destruct E2 as [[E2 E3] E4]. split; [done|].
    assert (Ht : triple = true) by (rewrite E2, Z.eqb_refl in E1; by destruct triple). subst triple.
    exists (S (S (S k))). pose proof (rune_in s (S (S (S k))) ltac:(congruence)).
    split; [|split_and!; done].
    eapply moved_trans; [exact M0|]. eapply moved_trans; apply moved_next.
    - apply M0.
    - rewrite (moved_ch _ _ _ _ M0). fold s. congruence.
    - eapply moved_next; [apply M0|]. rewrite (moved_ch _ _ _ _ M0). fold s. congruence.
    - rewrite (moved_read_ch _ _ (proj1 (proj2 M0))), Ei. congruence. }
  clear E1 E2. set (b1 := add_raw b (EncodeRune (rune_at s (S k)))).
  destruct ((quote =? 34) && (rune_at s (S k) =? 92)) eqn:E92.
  - apply andb_true_iff in E92 as [->%Z.eqb_eq E92%Z.eqb_eq].
    destruct (Z.eqb_spec (rune_at s (S (S k))) 0) as [Ez|Ez].
    { exists (S k). split_and!; [done|lia|done|]. intros Hi. split; [done|]. by left. }
    assert (Hin2 : (S (S k) < runes_len s)%nat) by (by apply rune_in).
    assert (M1 : moved l k (readChar (readChar l)) (S (S k))).
    { eapply moved_trans; [exact M0|]. apply moved_next; [apply M0|]. rewrite (moved_ch _ _ _ _ M0). done. }
    rewrite read_raw_eq. rewrite (moved_ch _ _ _ _ M1), (moved_peek _ _ _ _ M1). fold s.
    set (l2 := readChar (readChar l)) in *. set (b2 := add_raw b1 (EncodeRune (rune_at s (S (S k))))).
    destruct ((rune_at s (S (S k)) =? 117) && (rune_at s (S (S (S k))) =? 123)) eqn:Eu.
    + apply andb_true_iff in Eu as [Eu%Z.eqb_eq Ebr%Z.eqb_eq].
      assert (Hin3 : (S (S (S k)) < runes_len s)%nat) by (apply rune_in; lia).
      assert (M2 : moved l k (readChar l2) (S (S (S k)))).
      { eapply moved_trans; [exact M1|]. apply moved_next; [apply M1|]. rewrite (moved_ch _ _ _ _ M1). done. }
      rewrite read_raw_eq, (moved_ch _ _ _ _ M2). fold s. set (b3 := add_raw b2 (EncodeRune (rune_at s (S (S (S k)))))).
      assert (Ei2 : input (readChar l2) = s) by apply (moved_input _ _ _ _ M2).
      destruct (read_hex_n_spec (S (unread l2)) (readChar l2) b3 [] (S (S (S k))))
        as (l4 & b4 & j1 & -> & M3 & (G1 & G2 & G3) & Hh & Hpk); [apply M2| |].
      { rewrite Ei2. pose proof (at_unread _ _ (proj1 (proj2 M1))) as Hu.
        rewrite (moved_input _ _ _ _ M1) in Hu. fold s in Hu. lia. }
      rewrite Ei2 in *. rewrite (moved_peek _ _ _ _ M3) in *. rewrite Ei2 in *.
      assert (M4 : moved l k l4 j1) by (by eapply moved_trans).
      assert (Hj1 : (S (S (S k)) <= j1)%nat) by apply M3.
      destruct (Z.eqb_spec (rune_at s (S j1)) 125) as [Eend|Eend]; cbn [negb].
      2: { exists j1. split_and!; try done. lia. }
      assert (Hin4 : (S j1 < runes_len s)%nat) by (apply rune_in; lia).
      assert (M5 : moved l k (readChar l4) (S j1)).
      { eapply moved_trans; [exact M4|]. apply moved_read; [apply M4|].
        rewrite (moved_read_ch _ _ (proj1 (proj2 M4))), (moved_input _ _ _ _ M4). fold s. lia. }
      rewrite read_raw_eq. cbn [app].
      set (hex := span s (S (S (S (S k)))) (S j1)) in *.
      destruct (decodeUnicodeEscape (string_of_runes hex)) as [r|e] eqn:Er.
      2: { exists (S j1). split_and!; try done. lia. }
      exists (S j1). split_and!; [done|lia|done|]. intros Hi. split; [cbn in Hi; by rewrite G3 in Hi|]. right.
      exists (EncodeRune r).
      assert (Hspan : span s (S k) (S (S j1)) = 92 :: 117 :: 123 :: hex ++ [125]).
      { rewrite (span_snoc s (S k) (S j1)), Eend by lia.
        rewrite (span_cons s (S k)), E92 by lia. rewrite (span_cons s (S (S k))), Eu by lia.
        rewrite (span_cons s (S (S (S k)))), Ebr by lia. done. }
      rewrite Hspan. split.
      * split_and!; [| |done].
        -- cbn [add_value add_raw raw_]. rewrite G1, (moved_ch _ _ _ _ M5). fold s. rewrite Eend.
           unfold b3, b2, b1. cbn [add_raw raw_]. rewrite E92, Eu, Ebr.
           change (92 :: 117 :: 123 :: hex ++ [125]) with ([92] ++ [117] ++ [123] ++ hex ++ [125]).
           rewrite !string_of_runes_app, !string_of_runes_one, <- !app_assoc. done.
        -- cbn [add_value add_raw value_]. by rewrite G2, app_nil_r.
      * intros e _ _. by apply decodes_unicode.
    + exists (S (S k)). split_and!; [done|lia|done|]. intros Hi. split; [done|]. right.
      exists (escape_value (rune_at s (S (S k)))).
      assert (Hspan : span s (S k) (S (S (S k))) = [92; rune_at s (S (S k))]).
      { rewrite (span_cons s (S k)), span_one, E92 by lia. done. }
      rewrite Hspan. split.
      * split_and!; [|done|done]. unfold b2, b1. cbn [add_value add_raw raw_]. rewrite E92.
        change [92; rune_at s (S (S k))] with ([92] ++ [rune_at s (S (S k))]).
        rewrite !string_of_runes_app, !string_of_runes_one, <- !app_assoc. done.
      * intros e He _. apply decodes_escape. intros E117 Hhd. apply head_span in Hhd; [|lia].
        rewrite E117, Hhd in Eu. done.
  - destruct ((quote =? 34) && (rune_at s (S k) =? 36) && (rune_at s (S (S k)) =? 123)) eqn:Ei2.
    + rewrite !andb_true_iff, !Z.eqb_eq in Ei2. destruct Ei2 as [[_ _] Ebr].
      assert (M1 : moved l k (readChar (readChar l)) (S (S k))).
      { eapply moved_trans; [exact M0|]. apply moved_next; [apply M0|]. rewrite (moved_ch _ _ _ _ M0). done. }
      rewrite read_raw_eq. set (l2 := readChar (readChar l)) in *.
      set (b2 := add_raw _ _).
      destruct (skip_interpolation_n_spec (S (S (unread l2))) (S (S (unread l2))) 1 l2 b2 (S (S k)))
        as (_ & j & M2 & E2); [apply M1| |lia|].
      { pose proof (at_unread _ _ (proj1 (proj2 M1))). pose proof (at_bound _ _ (proj1 (proj2 M1))). lia. }
      destruct (skip_interpolation_n _ _ _) as [l3 b3]. cbn [fst snd] in M2, E2.
      exists j. split_and!; [by eapply moved_trans|destruct M2; lia|done|].
      intros Hi. rewrite E2 in Hi. done.
    + exists (S k). split_and!; [done|lia|done|]. intros Hi. split; [done|]. right.
      exists (EncodeRune (rune_at s (S k))). rewrite span_one by lia. split; [apply grew_add|].
      intros e _ _. apply decodes_rune. intros -> E. rewrite E in E92. done.
Qed.

(** [rs] is the text of a string with the given quote and [v] its value. *)
Definition string_value (quote : Z) (rs : list Z) (v : gostring) : Prop :=
  if quote =? 34 then forall n, (length rs < n)%nat -> unescape_n n rs = Some (Ok v)
  else v = string_of_runes rs.

Lemma string_value_nil (quote : Z) : string_value quote [] [].
Proof.
  unfold string_value. destruct (quote =? 34); [|done]. intros [|n] H; [simpl in H; lia|done].
Qed.

Lemma string_value_app (quote : Z) (rs rest : list Z) (v w : gostring) :
  rs <> [] -> decodes quote rs v rest -> string_value quote rest w -> string_value quote (rs ++ rest) (v ++ w).
Proof.
  unfold decodes, string_value. intros Hne Hd Hw. destruct (quote =? 34).
  - intros [|n] Hn; [simpl in Hn; lia|]. rewrite Hd, Hw; [done|].
    rewrite length_app in Hn. destruct rs; [done|]. simpl in Hn. lia.
  - rewrite string_of_runes_app. by subst.
Qed.

Lemma string_loop_n_spec (quote : Z) (triple : bool) (ln col : Z) (n : nat) (l : Lexer) (b : Builders) (k : nat) :
  quote <> 0 -> at_rune l k -> (runes_len (input l) - k < n)%nat ->
  exists l' res j, string_loop_n n quote triple ln col l b = Some (l', res) /\ moved l k l' j /\
  match res with
  | Err t => (k < j \/ k = runes_len (input l))%nat /\ tok_Type t = T_Illegal /\
             (Line t, Column t) = (ln, col) /\ Doc t = []
  | Ok b' => exists e, (k < e)%nat /\ j = (if triple then S (S e) else e) /\ (j < runes_len (input l))%nat /\
      rune_at (input l) (S k) <> 0 /\ rune_at (input l) e = quote /\
      (triple = true -> rune_at (input l) (S e) = quote /\ rune_at (input l) (S (S e)) = quote) /\
      (interpolated_ b' = false -> interpolated_ b = false /\
       exists v, grew b b' (span (input l) (S k) e) v /\ string_value quote (span (input l) (S k) e) v)
  end.
Proof.
  intros Hq. revert l b k. induction n as [|n IH]; intros l b k Ha Hn; [lia|]. cbn [string_loop_n].
  pose proof (string_step_spec quote triple ln col l b k Hq Ha) as Hstep.
  destruct (string_step quote triple ln col l b) as [l1 b1|l1 b1|t l1].
  - destruct Hstep as (j1 & M1 & Hj1 & Hnz & Hok). pose proof (moved_input _ _ _ _ M1) as Ei.
    pose proof (rune_in _ _ Hnz).
    destruct (IH l1 b1 j1) as (l' & res & j & -> & M2 & Hres); [apply M1|rewrite Ei; lia|].
    rewrite Ei in *. exists l', res, j. split; [done|]. split; [by eapply moved_trans|].
    destruct res as [b'|t].
    + destruct Hres as (e & He & Hje & Hjn & Hnz2 & Hqe & Htr & Hres). exists e.
      split; [lia|]. split; [done|]. split; [done|]. split; [done|]. split; [done|]. split; [done|].
      intros Hi. destruct (Hres Hi) as (Hi1 & v2 & (G1 & G2 & G3) & Hv2).
      destruct (Hok Hi1) as [Hi0 [Hz|(v1 & (F1 & F2 & F3) & Hv1)]]; [done|].
      split; [done|]. exists (v1 ++ v2). rewrite (span_app _ (S k) (S j1) e) by lia. split.
      * split_and!; [by rewrite G1, F1, string_of_runes_app, app_assoc|by rewrite G2, F2, app_assoc|congruence].
      * apply string_value_app; [|apply Hv1; destruct triple; lia|done].
        rewrite span_cons by lia. done.
    + destruct Hres as (H1 & H2). split; [|done]. destruct M2. lia.
  - destruct Hstep as (-> & j & M & Hqe & Hj & Hjn & Htr). exists l1, (Ok b), j. split; [done|]. split; [done|].
    exists (S k). split; [lia|]. split; [done|]. split; [done|]. split; [congruence|]. split; [done|]. split; [done|].
    intros Hi. split; [done|]. exists [].
    rewrite span_nil. split; [apply grew_refl|apply string_value_nil].
  - destruct Hstep as (j & M & H). exists l1, (Err t), j. done.
Qed.

(** ** Tokens *)

(** The text of a string token between rune [k], its opening quote, and rune
    [e], the one after its closing quote. *)
Definition string_at (s : gostring) (t : Token) (k e : nat) : Prop :=
  let q := if Triple t then 3%nat else 1%nat in
  (k + q + q <= e)%nat /\
  (forall i, (i < q)%nat -> rune_at s (k + i) = Quote t /\ rune_at s (e - q + i) = Quote t) /\
  (Quote t = 34 \/ Quote t = 39) /\
  (Interpolated t = false ->
   Raw t = string_of_runes (span s (k + q) (e - q)) /\
   if Quote t =? 34 then UnescapeDoubleQuoted (Raw t) = Some (Ok (Literal t)) else Literal t = Raw t).

Lemma runes_span (s : gostring) (k e : nat) : runes (string_of_runes (span s k e)) = span s k e.
Proof.
  apply runes_string_of_runes. unfold span. apply Forall_take, Forall_drop, runes_scalar.
Qed.

Lemma same_cursor_docs (l l' : Lexer) (k j : nat) (d : list gostring) (c : list Comment) :
  moved l k l' j ->
  (k <= j)%nat /\ at_rune (mkLexer (input l') (position l') (readPosition l') (ch l') (line l') (column l') d c) j /\
  input l' = input l.
Proof. intros (H1 & [B1 B2 B3 B4 B5] & (H3 & _)). split_and!; [done|split; done|done]. Qed.

(** [l'] is further in the same source; documentation may have been collected. *)
Definition advanced (l : Lexer) (k : nat) (l' : Lexer) (j : nat) : Prop :=
  (k <= j)%nat /\ at_rune l' j /\ input l' = input l.

Lemma moved_advanced (l l' : Lexer) (k j : nat) : moved l k l' j -> advanced l k l' j.
Proof. intros (H1 & H2 & (H3 & _)). done. Qed.

Lemma attachDoc_spec (t : Token) (l : Lexer) (j : nat) :
  at_rune l j ->
  exists d l', attachDoc t l = (mkToken (tok_Type t) (Literal t) (Raw t) (Quote t) (Triple t) (Interpolated t)
       (Line t) (Column t) d, l') /\ advanced l j l' j.
Proof.
  intros Ha. unfold attachDoc. destruct (pendingDocs l) as [|x docs] eqn:E.
  - exists (Doc t), l. by destruct t.
  - do 2 eexists. split; [reflexivity|]. destruct Ha as [B1 B2 B3 B4 B5].
    split_and!; [done|split; done|done].
Qed.

Lemma readStringToken_spec (l : Lexer) (k : nat) :
  at_rune l k -> ch l = 34 \/ ch l = 39 ->
  exists t l' e, readStringToken l (ch l) = Some (t, l') /\ advanced l k l' e /\ (k < e)%nat /\
    (Line t, Column t) = (line l, column l) /\
    (tok_Type t = T_Illegal \/ tok_Type t = T_String /\ string_at (input l) t k e).
Proof.
  intros Ha Hq. set (s := input l) in *. set (q := ch l) in *.
  assert (Hq0 : q <> 0) by lia. assert (Hqk : rune_at s k = q) by (symmetry; apply (at_ch _ _ Ha)).
  assert (Hkn : (k < runes_len s)%nat) by (apply rune_in; congruence).
  unfold readStringToken. rewrite (at_peek _ _ Ha), (at_peek2 _ _ Ha). fold s.
  set (triple := (rune_at s (S k) =? q) && (rune_at s (S (S k)) =? q)).
  set (l1 := if triple then readChar (readChar l) else l).
  set (k1 := if triple then S (S k) else k).
  assert (M1 : moved l k l1 k1 /\ (triple = true -> rune_at s (S k) = q /\ rune_at s (S (S k)) = q)).
  { unfold l1, k1. destruct triple eqn:Et; [|split; [by apply moved_refl|done]].
    apply andb_true_iff in Et as [E1%Z.eqb_eq E2%Z.eqb_eq]. split; [|done].
    assert (M : moved l k (readChar l) (S k)) by (apply moved_next; [done|fold q; lia]).
    eapply moved_trans; [exact M|]. apply moved_next; [apply M|]. rewrite (moved_ch _ _ _ _ M). fold s. lia. }
  destruct M1 as [M1 Ht]. clearbody l1. pose proof (moved_input _ _ _ _ M1) as Ei. fold s in Ei.
  destruct (string_loop_n_spec q triple (line l) (column l) (S (S (unread l1))) l1 (mkBuilders [] [] false) k1)
    as (l2 & res & j & -> & M2 & Hres); [done|apply M1| |].
  { pose proof (at_unread _ _ (proj1 (proj2 M1))). rewrite Ei in *. lia. }
  rewrite Ei in *. pose proof (moved_trans _ _ _ _ _ _ M1 M2) as M3.
  destruct res as [b|t].
  - destruct Hres as (e & He & Hj & Hjn & _ & Hqe & Htr & Hval).
    assert (M4 : moved l k (readChar l2) (S j)).
    { eapply moved_trans; [exact M3|]. apply moved_next; [apply M2|].
      rewrite (moved_ch _ _ _ _ M3). fold s. subst j. destruct triple; [|congruence].
      rewrite (proj2 (Htr eq_refl)). done. }
    set (t := mkToken _ _ _ _ _ _ _ _ _).
    destruct (attachDoc_spec t (readChar l2) (S j) (proj1 (proj2 M4))) as (d & l3 & -> & Hadv).
    exists (mkToken T_String (value_ b) (raw_ b) q triple (interpolated_ b) (line l) (column l) d), l3, (S j).
    split; [done|]. destruct M4 as (H1 & H2 & (H3 & _)). destruct Hadv as (_ & H4 & H5).
    split; [split_and!; [done|done|by rewrite H5]|]. split; [pose proof (proj1 M3); lia|]. split; [done|]. right. split; [done|].
    unfold string_at. cbn [Triple Quote Interpolated Raw Literal].
    assert (Hval' : interpolated_ b = false -> raw_ b = string_of_runes (span s (S k1) e) /\
      if q =? 34 then UnescapeDoubleQuoted (raw_ b) = Some (Ok (value_ b)) else value_ b = raw_ b).
    { intros Hi. destruct (Hval Hi) as (_ & v & (G1 & G2 & _) & Hv). cbn in G1, G2. split; [done|].
      unfold string_value in Hv. rewrite G1, G2. destruct (q =? 34); [|done].
      unfold UnescapeDoubleQuoted. rewrite runes_span. apply Hv. lia. }
    unfold k1 in *. destruct triple.
    + destruct (Ht eq_refl) as [T1 T2]. destruct (Htr eq_refl) as [T3 T4]. subst j. split; [lia|]. split; [|split; [lia|]].
      * intros i Hi. replace (S (S (S e)) - 3)%nat with e by lia.
        assert (i = 0 \/ i = 1 \/ i = 2)%nat as [->|[->| ->]] by lia;
          rewrite ?Nat.add_0_r, ?Nat.add_1_r; try done. replace (k + 2)%nat with (S (S k)) by lia.
        by replace (e + 2)%nat with (S (S e)) by lia.
      * replace (S (S (S e)) - 3)%nat with e by lia. by replace (k + 3)%nat with (S (S (S k))) by lia.
    + subst j. split; [lia|]. split; [|split; [lia|]].
      * intros i Hi. replace i with 0%nat by lia. rewrite !Nat.add_0_r.
        by replace (S e - 1)%nat with e by lia.
      * replace (S e - 1)%nat with e by lia. by rewrite Nat.add_1_r.
  - destruct Hres as (H1 & H2 & H3 & H4). exists t, l2, j. split; [done|].
    split; [by apply moved_advanced|]. split; [|split; [done|by left]].
    unfold k1 in *. destruct triple; [destruct M2; lia|lia].
Qed.

Lemma advanced_trans (a b c : Lexer) (i j k : nat) :
  advanced a i b j -> advanced b j c k -> advanced a i c k.
Proof. intros (? & ? & E) (? & ? & F). split_and!; [lia|done|by rewrite F]. Qed.

Lemma finish_spec (t : Token) (l : Lexer) (j : nat) :
  at_rune l j ->
  exists d l', finish (t, l) = (mkToken (tok_Type t) (Literal t) (Raw t) (Quote t) (Triple t) (Interpolated t)
       (Line t) (Column t) d, l') /\ advanced l j l' (Nat.min (S j) (runes_len (input l))).
Proof.
  intros Ha. unfold finish. cbn [fst snd]. destruct (attachDoc_spec t l j Ha) as (d & l' & -> & Hadv).
  exists d, (readChar l'). split; [done|]. eapply advanced_trans; [exact Hadv|].
  destruct Hadv as (_ & Ha' & E). rewrite <- E. apply moved_advanced, moved_any, Ha'.
Qed.

(** The characters an operator can use. *)
Definition ahead (s : gostring) (k : nat) : list Z :=
  [rune_at s k; rune_at s (S k); rune_at s (S (S k))].

Lemma begins_span (s : gostring) (op : gostring) (k : nat) :
  Forall (fun b => byte_val b <> 0) op -> (1 <= length op <= 3)%nat -> begins op (ahead s k) = true ->
  (k + length op <= runes_len s)%nat /\ span s k (k + length op) = map byte_val op /\
  forall i b, op !! i = Some b -> rune_at s (k + i) = byte_val b.
Proof.
  intros Hnz Hlen Hb.
  assert (Hat : forall i b, op !! i = Some b -> rune_at s (k + i) = byte_val b).
  { unfold ahead in Hb. intros i b Hi.
    destruct op as [|b0 [|b1 [|b2 [|]]]]; cbn [begins length] in *; try lia;
      rewrite ?andb_true_iff, ?Z.eqb_eq in Hb;
      (destruct i as [|[|[|i]]]; cbn in Hi; try discriminate; injection Hi as <-;
       replace (k + 0)%nat with k by lia; replace (k + 1)%nat with (S k) by lia;
       replace (k + 2)%nat with (S (S k)) by lia; tauto). }
  assert (Hin : forall i b, op !! i = Some b -> (k + i < runes_len s)%nat).
  { intros i b Hi. apply rune_in. rewrite (Hat _ _ Hi). rewrite Forall_lookup in Hnz. by eapply Hnz. }
  assert (Hle : (k + length op <= runes_len s)%nat).
  { destruct (lookup_lt_is_Some_2 op (length op - 1) ltac:(lia)) as [b Eb].
    specialize (Hin _ _ Eb). lia. }
  split_and!; [done| |done]. apply list_eq. intros i.
  destruct (decide (i < length op)%nat) as [Hi|Hi].
  - destruct (lookup_lt_is_Some_2 op i Hi) as [b Eb]. rewrite list_lookup_fmap, Eb. cbn.
    unfold span. rewrite lookup_take_lt, lookup_drop by lia.
    rewrite rune_at_lookup by lia. by rewrite (Hat _ _ Eb).
  - rewrite !lookup_ge_None_2; [done|by rewrite length_map; lia|].
    unfold span. rewrite length_take. lia.
Qed.

(** A span of ASCII characters is its bytes. *)
Lemma text_ascii (s : gostring) (k e : nat) (op : gostring) :
  span s k e = map byte_val op -> Forall (fun b => byte_val b < 128) op -> text s k e = op.
Proof.
  intros Hs Hop. unfold text. unfold span, runes in Hs.
  rewrite skipn_map, firstn_map in Hs.
  assert (Hin : forall x, x ∈ take (e - k) (drop k (segments s)) -> x ∈ segments s).
  { intros x Hx%list_elem_of_In. apply list_elem_of_In.
    rewrite <- (take_drop k (segments s)). apply in_or_app. right.
    rewrite <- (take_drop (e - k) (drop k (segments s))). apply in_or_app. by left. }
  revert op Hs Hop. induction (take (e - k) (drop k (segments s))) as [|[r t] l IH];
    intros [|b op] Hs Hop; try done.
  cbn [map fst] in Hs. injection Hs as -> Hs. cbn [map snd concat].
  destruct (segment_ascii s (byte_val b) t) as [-> _]; [apply Hin; left|by apply Forall_inv in Hop|].
  rewrite (IH ltac:(intros; apply Hin; by right) op Hs) by (by apply Forall_inv_tail in Hop).
  unfold EncodeRune. pose proof (byte_val_range b). apply Forall_inv in Hop as Hb.
  replace (is_scalar (byte_val b)) with true by (symmetry; unfold is_scalar; rewrite orb_true_iff, !between_true; lia).
  rewrite (proj2 (Z.ltb_lt _ 128)) by done. by rewrite byte_of_val.
Qed.

Lemma operators_ascii :
  Forall (fun o => (1 <= length (fst o) <= 3)%nat /\
    Forall (fun b => byte_val b <> 0 /\ byte_val b < 128) (fst o) /\
    snd o ∉ [T_EOF; T_Illegal; T_String]) operators.
Proof. apply (bool_decide_unpack _). by vm_compute. Qed.

Lemma longest_operator_in (rs : list Z) (lit : gostring) (T : Type_) :
  longest_operator rs = Some (lit, T) -> (lit, T) ∈ operators /\ begins lit rs = true.
Proof.
  intros H. apply find_some in H as [H1 H2]. split; [by apply list_elem_of_In|done].
Qed.

Lemma moved_iter (l : Lexer) (k n : nat) :
  at_rune l k -> (forall i, (i < n)%nat -> rune_at (input l) (k + i) <> 0) ->
  moved l k (Nat.iter n readChar l) (k + n).
Proof.
  intros Ha. induction n as [|n IH]; intros Hn.
  - rewrite Nat.add_0_r. by apply moved_refl.
  - specialize (IH ltac:(intros; apply Hn; lia)). change (Nat.iter (S n) readChar l) with (readChar (Nat.iter n readChar l)). rewrite Nat.add_succ_r.
    eapply moved_trans; [exact IH|]. apply moved_next; [apply IH|].
    rewrite (moved_ch _ _ _ _ IH). apply Hn. lia.
Qed.

Section Tokens.
Context {letters : UnicodeLetters}.

(** A word, number or operator token is the text at its place, and its type
    is what that text calls for. *)
Definition lexeme_at (s : gostring) (t : Token) (k e : nat) : Prop :=
  Literal t = text s k e /\
  (longest_operator (ahead s k) = Some (Literal t, tok_Type t) \/
   longest_operator (ahead s k) = None /\
   (isLetter (rune_at s k) = true /\
    (forall i, (k <= i < e)%nat -> isLetter (rune_at s i) || isDigit (rune_at s i) = true) /\
    isLetter (rune_at s e) || isDigit (rune_at s e) = false /\ tok_Type t = LookupIdent (Literal t) \/
    isLetter (rune_at s k) = false /\ isDigit (rune_at s k) = true /\
    number_end s k = (e, tok_Type t))).

(** Token [t] stands between runes [k] and [e]. *)
Definition token_at (s : gostring) (t : Token) (k e : nat) : Prop :=
  (Line t, Column t) = place (take (S k) (runes s)) /\
  match tok_Type t with
  | T_EOF => rune_at s k = 0 /\ Literal t = []
  | T_Illegal =>
      (k < e)%nat /\ rune_at s k <> 0 /\
      (rune_at s k = 34 \/ rune_at s k = 39 \/
       longest_operator (ahead s k) = None /\ isLetter (rune_at s k) = false /\ isDigit (rune_at s k) = false)
  | T_String => (k < e)%nat /\ string_at s t k e
  | _ => (k < e)%nat /\ lexeme_at s t k e
  end.

(** [toks] is the tokens of the source from rune [k] on, with blanks and
    comments between them, up to the end of the source or a NUL character. *)
Inductive scanned (s : gostring) : nat -> list Token -> Prop :=
| scanned_end k j t :
    skips (drop k (runes s)) (drop j (runes s)) -> (k <= j)%nat -> at_token (drop j (runes s)) ->
    tok_Type t = T_EOF -> token_at s t j j -> scanned s k [t]
| scanned_token k j e t toks :
    skips (drop k (runes s)) (drop j (runes s)) -> (k <= j)%nat -> at_token (drop j (runes s)) ->
    tok_Type t <> T_EOF -> token_at s t j e -> scanned s e toks -> scanned s k (t :: toks).

Lemma token_at_doc (s : gostring) (t : Token) (d : gostring) (k e : nat) :
  token_at s t k e ->
  token_at s (mkToken (tok_Type t) (Literal t) (Raw t) (Quote t) (Triple t) (Interpolated t)
                (Line t) (Column t) d) k e.
Proof. by destruct t. Qed.

Lemma lexeme_token (s : gostring) (t : Token) (k e : nat) :
  (Line t, Column t) = place (take (S k) (runes s)) -> (k < e)%nat -> lexeme_at s t k e ->
  tok_Type t ∉ [T_EOF; T_Illegal; T_String] -> token_at s t k e.
Proof.
  intros Hp Hk Hl Hn. split; [done|]. destruct (tok_Type t); try done; exfalso; apply Hn;
    rewrite !elem_of_cons; tauto.
Qed.

Lemma LookupIdent_type (s : gostring) : LookupIdent s ∉ [T_EOF; T_Illegal; T_String].
Proof.
  destruct (LookupIdent_cases s) as [->|Hk]; [by rewrite !elem_of_cons, elem_of_nil; intuition discriminate|].
  assert (Hall : Forall (fun p => snd p ∉ [T_EOF; T_Illegal; T_String]) keywords)
    by (apply (bool_decide_unpack _); by vm_compute).
  rewrite Forall_forall in Hall. by apply (Hall _ Hk).
Qed.

Lemma operator_at (l : Lexer) (k : nat) (t : Token) (l' : Lexer) :
  at_rune l k -> operator_token l = Some (t, l') ->
  exists e, token_at (input l) t k (S e) /\ tok_Type t <> T_EOF /\ moved l k l' e /\
    (S e <= runes_len (input l))%nat.
Proof.
  intros Ha Hop. set (s := input l).
  pose proof (operator_token_spec l (rune_at s k) (rune_at s (S k)) (rune_at s (S (S k)))
    (at_ch _ _ Ha) (at_peek _ _ Ha)) as Hspec.
  rewrite Hop in Hspec. destruct Hspec as (lit & T & Hlong & -> & ->).
  { intros Hc. assert (M : moved l k (readChar l) (S k))
      by (apply moved_read; [done|by rewrite (moved_read_ch _ _ Ha)]).
    by rewrite (moved_ch _ _ _ _ M), (moved_peek _ _ _ _ M). }
  pose proof (longest_operator_in _ _ _ Hlong) as [Hin Hbeg].
  pose proof operators_ascii as Hall. rewrite Forall_forall in Hall.
  destruct (Hall _ Hin) as (Hlen & Hchars & Htype). cbn [fst snd] in *.
  assert (Hnz : Forall (fun b => byte_val b <> 0) lit) by (by eapply Forall_impl; [exact Hchars|]; intros ? []).
  assert (Has : Forall (fun b => byte_val b < 128) lit) by (by eapply Forall_impl; [exact Hchars|]; intros ? []).
  destruct (begins_span s lit k Hnz Hlen Hbeg) as (Hle & Hspan & Hat).
  exists (k + (length lit - 1))%nat. replace (S (k + (length lit - 1))) with (k + length lit)%nat by lia.
  split; [|split; [|split; [|done]]].
  - apply lexeme_token; [exact (at_place _ _ Ha)|lia| |done].
    split; [|by left]. cbn [Literal plain_token]. symmetry. by apply text_ascii.
  - intros E. apply Htype. cbn in E. subst. left.
  - apply moved_iter; [done|]. intros i Hi.
    destruct (lookup_lt_is_Some_2 lit i ltac:(lia)) as [b Eb]. fold s. rewrite (Hat _ _ Eb).
    rewrite Forall_lookup in Hnz. by eapply Hnz.
Qed.

Lemma operator_none (l : Lexer) (k : nat) :
  at_rune l k -> operator_token l = None -> longest_operator (ahead (input l) k) = None.
Proof.
  intros Ha Hop.
  pose proof (operator_token_spec l _ _ (rune_at (input l) (S (S k))) (at_ch _ _ Ha) (at_peek _ _ Ha)) as Hspec.
  rewrite Hop in Hspec. apply Hspec. intros Hc.
  assert (M : moved l k (readChar l) (S k))
    by (apply moved_read; [done|by rewrite (moved_read_ch _ _ Ha)]).
  by rewrite (moved_ch _ _ _ _ M), (moved_peek _ _ _ _ M).
Qed.

Lemma NextToken_spec (l : Lexer) (k : nat) :
  at_rune l k ->
  exists t l' j e, NextToken l = Some (t, l') /\ input l' = input l /\ (k <= j)%nat /\
    skips (drop k (runes (input l))) (drop j (runes (input l))) /\ at_token (drop j (runes (input l))) /\
    (tok_Type t = T_EOF /\ token_at (input l) t j j \/
     tok_Type t <> T_EOF /\ token_at (input l) t j e /\ (j < e)%nat /\ at_rune l' e).
Proof.
  intros Ha. unfold NextToken.
  destruct (skipIgnored_spec l k Ha) as (l1 & j & -> & Hkj & Ha1 & E1 & Hsk & Htok).
  rewrite <- E1 in *. pose proof (at_ch _ _ Ha1) as Hch1. set (s := input l1) in *.
  destruct (Z.eqb_spec (ch l1) 0) as [E0|E0].
  { destruct (finish_spec (plain_token T_EOF [] [] (line l1) (column l1)) l1 j Ha1) as (d & l' & -> & Hadv).
    exists (mkToken T_EOF [] [] 0 false false (line l1) (column l1) d), l', j, j.
    split; [done|]. split; [apply Hadv|]. split_and!; try done. left. split; [done|].
    split; [exact (at_place _ _ Ha1)|]. split; [|done]. by rewrite <- Hch1. }
  destruct (operator_token l1) as [[t l2]|] eqn:Eop.
  { destruct (operator_at l1 j t l2 Ha1 Eop) as (e & Ht & Hn & M & He).
    destruct (finish_spec t l2 e (proj1 (proj2 M))) as (d & l' & -> & Hadv).
    rewrite (moved_input _ _ _ _ M), Nat.min_l in Hadv by done.
    eexists _, l', j, (S e). split; [done|]. destruct Hadv as (A1 & A2 & A3).
    split; [by rewrite A3, (moved_input _ _ _ _ M)|]. split_and!; try done. right.
    split; [done|]. split; [by apply token_at_doc|]. split; [pose proof (proj1 M); lia|done]. }
  pose proof (operator_none l1 j Ha1 Eop) as Hnone. fold s in Hnone.
  destruct ((ch l1 =? 34) || (ch l1 =? 39)) eqn:Eq.
  { destruct (readStringToken_spec l1 j Ha1 ltac:(lia)) as (t & l' & e & -> & (A1 & A2 & A3) & Hje & Hpl & Hty).
    exists t, l', j, e. split; [done|]. split; [done|]. split_and!; try done. right.
    assert (Hp : (Line t, Column t) = place (take (S j) (runes s))) by (rewrite Hpl; exact (at_place _ _ Ha1)).
    unfold token_at. destruct Hty as [Hty|[Hty Hst]]; rewrite Hty.
    - split; [discriminate|]. split; [|done]. split; [done|]. split; [done|]. rewrite <- Hch1. lia.
    - by split_and!. }
  destruct (isLetter (ch l1)) eqn:El.
  { destruct (readIdentifier_spec l1 j Ha1 El) as (l2 & e & -> & M & Hje & Hall & Hend).
    fold s in Hall, Hend |- *. cbn beta iota.
    destruct (attachDoc_spec (plain_token (LookupIdent (text s j e)) (text s j e) [] (line l1) (column l1)) l2 e)
      as (d & l' & -> & (A1 & A2 & A3)); [apply M|].
    eexists _, l', j, e. split; [done|]. split; [by rewrite A3, (moved_input _ _ _ _ M)|].
    split_and!; try done. right. pose proof (LookupIdent_type (text s j e)) as Hty. split.
    { intros E. apply Hty. cbn in E. rewrite E. left. }
    split; [|done]. apply token_at_doc. apply lexeme_token; [exact (at_place _ _ Ha1)|done| |done].
    split; [done|]. right. split; [done|]. left. rewrite <- Hch1. done. }
  destruct (isDigit (ch l1)) eqn:Ed.
  { destruct (readNumberToken_spec l1 j Ha1 Ed) as (T & l2 & e & -> & M & Hje & HT).
    fold s in HT |- *. cbn beta iota.
    destruct (attachDoc_spec (plain_token T (text s j e) (text s j e) (line l1) (column l1)) l2 e)
      as (d & l' & -> & (A1 & A2 & A3)); [apply M|].
    eexists _, l', j, e. split; [done|]. split; [by rewrite A3, (moved_input _ _ _ _ M)|].
    split_and!; try done. right.
    assert (Hn : T ∉ [T_EOF; T_Illegal; T_String])
      by (pose proof (number_end_type s j) as Hx; rewrite HT in Hx; cbn [snd] in Hx; intros Hy;
          rewrite !elem_of_cons, elem_of_nil in *; intuition congruence).
    split. { intros E. apply Hn. cbn in E. rewrite E. left. }
    split; [|done]. apply token_at_doc. apply lexeme_token; [exact (at_place _ _ Ha1)|done| |done].
    split; [done|]. right. split; [done|]. right. rewrite <- Hch1. done. }
  destruct (finish_spec (newToken l1 T_Illegal) l1 j Ha1) as (d & l' & -> & (A1 & A2 & A3)).
  assert (Hj : (j < runes_len s)%nat) by (apply rune_in; by rewrite <- Hch1).
  fold s in A2. rewrite Nat.min_l in A2 by lia.
  eexists _, l', j, (S j). split; [done|]. split; [done|]. split_and!; try done. right.
  split; [done|]. split; [|split; [lia|done]]. apply token_at_doc.
  split; [exact (at_place _ _ Ha1)|]. cbn [tok_Type newToken plain_token].
  rewrite <- Hch1. split_and!; [lia|done|]. by right; right.
Qed.

Lemma tokens_n_spec (n : nat) (l : Lexer) (k : nat) :
  at_rune l k -> (runes_len (input l) - k < n)%nat ->
  exists toks, tokens_n n l = Some toks /\ scanned (input l) k toks.
Proof.
  revert l k. induction n as [|n IH]; intros l k Ha Hn; [lia|]. cbn [tokens_n].
  destruct (NextToken_spec l k Ha) as (t & l' & j & e & -> & Ei & Hkj & Hsk & Htok & [(Hty & Hat)|(Hty & Hat & Hje & Ha')]).
  - rewrite decide_True by done. eexists. split; [done|]. by eapply scanned_end.
  - rewrite decide_False by done. pose proof (at_bound _ _ Ha') as Hb. rewrite Ei in Hb.
    destruct (IH l' e Ha') as (toks & -> & Hs); [rewrite Ei; lia|]. rewrite Ei in Hs.
    eexists. split; [done|]. by eapply scanned_token.
Qed.

Lemma runes_len_le (s : gostring) : (runes_len s <= length s)%nat.
Proof. pose proof (concat_segments_length s 0). unfold runes_len. lia. Qed.

(** C39: every source text scans, and its tokens account for all of it: each
    token stands at the line and column of its first character; a word, number
    or operator is exactly the text at its place (an operator the longest one
    that matches, a word the longest run of letters and digits, a number as far
    as its grammar goes); a string is
    delimited by its quotes and, without interpolation, its raw text is the text
    between them; and between two tokens there is nothing but blanks and
    comments.  The last token is the end of the source, or its first NUL. *)
Theorem tokens_cover_source (src : gostring) :
  exists toks, tokens src = Some toks /\ scanned src 0 toks.
Proof.
  destruct (at_New src) as [Ha Ei]. unfold tokens.
  destruct (tokens_n_spec (S (S (length src))) (New src) 0 Ha) as (toks & H1 & H2).
  - rewrite Ei. pose proof (runes_len_le src). lia.
  - rewrite Ei in H2. by exists toks.
Qed.

(** ** Printing and scanning *)

(** The lexemes whose text is their own source: operators, words of ASCII
    letters and digits, and decimal integers. *)
Definition word_byte (b : byte) : bool :=
  let c := byte_val b in between 65 90 c || between 97 122 c || (c =? 95) || between 48 57 c.
Inductive simple_lexeme : gostring -> Type_ -> Prop :=
| simple_operator lit T : (lit, T) ∈ operators -> simple_lexeme lit T
| simple_word b lit :
    word_byte b = true -> is_digit b = false -> Forall (fun b => word_byte b = true) lit ->
    simple_lexeme (b :: lit) (LookupIdent (b :: lit))
| simple_int b lit :
    is_digit b = true -> Forall (fun b => is_digit b = true) lit -> simple_lexeme (b :: lit) T_Int.

(** A list of lexemes, a space after each. *)
Definition render (ls : list (gostring * Type_)) : gostring :=
  concat (map (fun l => fst l ++ [Byte.x20]) ls).

(** *** ASCII sources *)

Lemma ascii_runes (s : gostring) : is_ascii s = true -> runes s = map byte_val s.
Proof. intros H. unfold runes. rewrite segments_ascii by done. by rewrite map_map. Qed.

Lemma ascii_runes_len (s : gostring) : is_ascii s = true -> runes_len s = length s.
Proof. intros H. unfold runes_len. rewrite segments_ascii by done. apply length_map. Qed.

Lemma ascii_rune_at (s : gostring) (k : nat) (b : byte) :
  is_ascii s = true -> s !! k = Some b -> rune_at s k = byte_val b.
Proof.
  intros H E. unfold rune_at. rewrite ascii_runes, nth_lookup, list_lookup_fmap by done. by rewrite E.
Qed.

Lemma ascii_drop (s : gostring) (k : nat) :
  is_ascii s = true -> drop k (runes s) = map byte_val (drop k s).
Proof. intros H. rewrite ascii_runes by done. by rewrite skipn_map. Qed.

Lemma ascii_text (s : gostring) (k e : nat) : is_ascii s = true -> text s k e = take (e - k) (drop k s).
Proof.
  intros H. unfold text. rewrite segments_ascii by done. rewrite skipn_map, firstn_map, map_map. cbn [snd].
  induction (take (e - k) (drop k s)) as [|b l IH]; [done|]. cbn. by rewrite IH.
Qed.

(** *** Skipping at a lexeme *)

Lemma skips_at_token (t r : list Z) : at_token t -> skips t r -> r = t.
Proof.
  intros Ht H. destruct H; try done; exfalso; cbn in Ht; destruct Ht as (A1 & A2 & A3); try done;
    first [by apply A3 | congruence].
Qed.

Lemma skips_space (t r : list Z) : at_token r -> skips (32 :: t) r -> skips t r.
Proof. intros Hr H. inversion H; subst; [|done]. by destruct Hr. Qed.

Lemma at_token_inv (t : list Z) (c : Z) :
  is_blank c = false -> c <> 35 -> c <> 47 -> at_token (c :: t).
Proof. intros H1 H2 H3. split_and!; [done|done|]. intros [? _]. done. Qed.

Lemma longest_operator_none (c : Z) (rs : list Z) :
  between 65 90 c || between 97 122 c || (c =? 95) || between 48 57 c || (c =? 0) || (c =? 34) || (c =? 39) = true ->
  longest_operator (c :: rs) = None.
Proof.
  intros Hc. unfold longest_operator.
  assert (Hall : Forall (fun o => exists b t, fst o = b :: t /\
    negb (word_byte b) && negb (byte_val b =? 0) && negb (byte_val b =? 34) && negb (byte_val b =? 39) = true) operators).
  { unfold operators. repeat (constructor; [do 2 eexists; split; [reflexivity|reflexivity]|]). constructor. }
  induction Hall as [|o os (b & t & E & Hb) _ IH]; [done|]. cbn [find]. rewrite E. cbn [begins].
  destruct (Z.eqb_spec c (byte_val b)) as [->|]; [|exact IH].
  unfold word_byte in Hb. cbv zeta in Hb. unfold between in *. lia.
Qed.

(** The text after a lexeme starts with a space. *)
Lemma ahead_drop (s : gostring) (k : nat) (t : gostring) :
  is_ascii s = true -> drop k s = t ->
  ahead s k = [nth 0 (map byte_val t) 0; nth 1 (map byte_val t) 0; nth 2 (map byte_val t) 0].
Proof.
  intros H <-. unfold ahead, rune_at. rewrite ascii_runes by done.
  assert (E : forall i, nth i (map byte_val (drop k s)) 0 = nth (k + i) (map byte_val s) 0).
  { intros i. by rewrite !nth_lookup, !list_lookup_fmap, lookup_drop. }
  rewrite !E, Nat.add_0_r. by rewrite Nat.add_1_r, (Nat.add_comm k 2).
Qed.

Lemma operator_found (lit rest : gostring) (T : Type_) :
  (lit, T) ∈ operators ->
  let rs := map byte_val (lit ++ Byte.x20 :: rest) in
  longest_operator [nth 0 rs 0; nth 1 rs 0; nth 2 rs 0] = Some (lit, T).
Proof.
  intros H. unfold operators in H.
  repeat (apply elem_of_cons in H as [H|H]; [injection H as -> ->; reflexivity|]).
  by apply elem_of_nil in H.
Qed.

(** *** One lexeme *)

Lemma isLetter_ascii_byte (b : byte) : byte_val b < 128 ->
  isLetter (byte_val b) = between 65 90 (byte_val b) || between 97 122 (byte_val b) || (byte_val b =? 95).
Proof.
  intros H. unfold isLetter. pose proof (byte_val_range b). rewrite IsLetter_ascii by lia.
  by rewrite orb_comm.
Qed.

Lemma word_byte_ascii (b : byte) : word_byte b = true -> byte_val b < 128 /\ byte_val b <> 0.
Proof. unfold word_byte, between. cbv zeta. lia. Qed.

Lemma word_byte_letter (b : byte) : word_byte b = true ->
  isLetter (byte_val b) || isDigit (byte_val b) = true /\
  isLetter (byte_val b) = negb (isDigit (byte_val b)).
Proof.
  intros H. rewrite isLetter_ascii_byte by (by apply word_byte_ascii).
  unfold word_byte, isDigit, between in *. cbv zeta in H. lia.
Qed.

Lemma is_digit_word (b : byte) : is_digit b = true -> word_byte b = true.
Proof. unfold is_digit, word_byte, between. cbv zeta. lia. Qed.

(** The run of characters from [j] that satisfy [p] is the lexeme. *)
Lemma lexeme_run (s lit rest : gostring) (j : nat) (p : Z -> bool) :
  is_ascii s = true -> drop j s = lit ++ Byte.x20 :: rest -> p 0 = false -> p 32 = false ->
  Forall (fun b => p (byte_val b) = true) lit -> while_end s p j = (j + length lit)%nat.
Proof.
  intros Ha Hd H0 H32 Hp. apply while_end_eq; [done|lia|..].
  - intros i Hi. destruct (lookup_lt_is_Some_2 lit (i - j) ltac:(lia)) as [b Eb].
    rewrite (ascii_rune_at s i b Ha).
    + rewrite Forall_lookup in Hp. by eapply Hp.
    + replace i with (j + (i - j))%nat by lia. rewrite <- lookup_drop, Hd. by apply lookup_app_l_Some.
  - rewrite (ascii_rune_at s _ Byte.x20 Ha); [done|].
    rewrite <- lookup_drop, Hd, lookup_app_r, Nat.sub_diag by done. done.
Qed.

Lemma while_end_unique (s : gostring) (p : Z -> bool) (k e : nat) :
  p 0 = false -> (k <= e)%nat -> (forall i, (k <= i < e)%nat -> p (rune_at s i) = true) ->
  p (rune_at s e) = false -> e = while_end s p k.
Proof. intros. symmetry. by apply while_end_eq. Qed.

(** The first character of a simple lexeme starts a token. *)
Lemma simple_first (lit : gostring) (T : Type_) :
  simple_lexeme lit T ->
  exists b t, lit = b :: t /\ byte_val b <> 0 /\ byte_val b <> 34 /\ byte_val b <> 39 /\
    is_blank (byte_val b) = false /\ byte_val b <> 35 /\
    (forall rest, at_token (map byte_val (lit ++ Byte.x20 :: rest))) /\
    Forall (fun b => byte_val b < 128) lit.
Proof.
  destruct 1 as [lit T Hop|b lit Hb Hd Hl|b lit Hb Hl].
  - unfold operators in Hop.
    repeat (apply elem_of_cons in Hop as [Hop|Hop];
      [injection Hop as -> ->; do 2 eexists; split; [reflexivity|];
       split_and!; try discriminate; try reflexivity;
       [intros rest; cbn; split_and!; [reflexivity|discriminate|intros [? ?]; discriminate]
       |repeat (constructor; [reflexivity|]); constructor]|]).
    by apply elem_of_nil in Hop.
  - exists b, lit. unfold word_byte, between in Hb. cbv zeta in Hb. unfold is_blank.
    split_and!; try done; [lia..| |].
    + intros rest. cbn [app map]. apply at_token_inv; unfold is_blank; lia.
    + constructor; [lia|]. eapply Forall_impl; [exact Hl|]. intros x Hx. by apply word_byte_ascii.
  - exists b, lit. pose proof (is_digit_word b Hb) as Hw. unfold word_byte, between in Hw. cbv zeta in Hw.
    unfold is_digit in Hb. unfold is_blank.
    split_and!; try done; [lia..| |].
    + intros rest. cbn [app map]. apply at_token_inv; unfold is_blank; lia.
    + constructor; [lia|]. eapply Forall_impl; [exact Hl|]. intros x Hx. by apply word_byte_ascii, is_digit_word.
Qed.

Lemma number_end_int (s : gostring) (b : byte) (lit rest : gostring) (j : nat) :
  is_ascii s = true -> drop j s = (b :: lit) ++ Byte.x20 :: rest ->
  Forall (fun b => is_digit b = true) (b :: lit) -> number_end s j = ((j + length (b :: lit))%nat, T_Int).
Proof.
  intros Ha Hd Hall. unfold number_end.
  assert (Hrun : while_end s digit_or_underscore j = (j + length (b :: lit))%nat).
  { apply (lexeme_run s (b :: lit) rest); try done. eapply Forall_impl; [exact Hall|].
    intros x Hx. unfold is_digit in Hx. unfold digit_or_underscore, isDigit, between. lia. }
  assert (Hnext : isBasePrefix (rune_at s (S j)) = false).
  { assert (E : exists c, s !! S j = Some c /\ isBasePrefix (byte_val c) = false).
    { rewrite <- Nat.add_1_r. destruct lit as [|c lit].
      - exists Byte.x20. by rewrite <- lookup_drop, Hd.
      - exists c. rewrite <- lookup_drop, Hd. split; [done|].
        apply Forall_inv_tail, Forall_inv in Hall. unfold is_digit in Hall. unfold isBasePrefix. lia. }
    destruct E as (c & Ec & Hc). by rewrite (ascii_rune_at s _ c). }
  rewrite Hnext, andb_false_r, Hrun.
  assert (Hend : rune_at s (j + length (b :: lit)) = 32).
  { rewrite (ascii_rune_at s _ Byte.x20); [done|done|].
    by rewrite <- lookup_drop, Hd, lookup_app_r, Nat.sub_diag. }
  set (e := (j + length (b :: lit))%nat) in *. clearbody e.
  unfold fraction_end. rewrite Hend. change (32 =? 46) with false. cbn [andb].
  unfold exponent_end. cbv zeta. rewrite Hend. change ((32 =? 101) || (32 =? 69)) with false. cbn [andb].
  unfold suffix_end. by rewrite Hend.
Qed.

Lemma take_lexeme (n : nat) (lit rest : gostring) (b : byte) :
  take n (lit ++ b :: rest) = lit -> n = length lit.
Proof.
  intros H. apply (f_equal length) in H. rewrite length_take, length_app in H. cbn [length] in H. lia.
Qed.

Lemma simple_token (s lit rest : gostring) (T : Type_) (t : Token) (j e : nat) :
  is_ascii s = true -> simple_lexeme lit T -> drop j s = lit ++ Byte.x20 :: rest ->
  token_at s t j e -> tok_Type t <> T_EOF ->
  Literal t = lit /\ tok_Type t = T /\ e = (j + length lit)%nat.
Proof.
  intros Ha Hs Hd [_ Ht] Hne.
  destruct (simple_first lit T Hs) as (b0 & t0 & El & F1 & F2 & F3 & _ & _ & _ & _).
  assert (Hb : rune_at s j = byte_val b0).
  { apply ascii_rune_at; [done|]. rewrite <- (Nat.add_0_r j), <- lookup_drop, Hd, El. done. }
  pose proof (ahead_drop s j _ Ha Hd) as Hahead.
  assert (Hlex : (j < e)%nat /\ lexeme_at s t j e).
  { assert (Hill : ~ (tok_Type t = T_Illegal)).
    { intros E. rewrite E in Ht. destruct Ht as (_ & _ & [Hq|[Hq|(Hn & Hl & Hdg)]]); [congruence..|].
      destruct Hs as [lit T Hop|b lit Hb' Hd' Hl'|b lit Hb' Hl'].
      - rewrite Hahead, (operator_found lit rest T Hop) in Hn. done.
      - injection El as -> ->. rewrite Hb in *. pose proof (word_byte_letter b0 Hb') as [Hw _].
        rewrite Hl, Hdg in Hw. done.
      - injection El as -> ->. rewrite Hb in Hdg. unfold is_digit in Hb'. unfold isDigit, between in Hdg. lia. }
    assert (Hstr : ~ (tok_Type t = T_String)).
    { intros E. rewrite E in Ht. destruct Ht as (_ & _ & Hq & [Hq1|Hq1] & _);
        destruct (Hq 0%nat) as [Hq2 _]; try (destruct (Triple t); lia); rewrite Nat.add_0_r in Hq2; congruence. }
    destruct (tok_Type t); try done. }
  clear Ht. destruct Hlex as [Hje [Htext Hkind]]. rewrite ascii_text, Hd in Htext by done.
  destruct Hs as [lit T Hop|b lit Hb' Hd' Hl'|b lit Hb' Hl'].
  - rewrite Hahead, (operator_found lit rest T Hop) in Hkind.
    destruct Hkind as [Hk|[Hk _]]; [|done]. injection Hk as E1 E2. split; [done|]. split; [done|].
    rewrite <- E1 in Htext. symmetry in Htext. apply take_lexeme in Htext. lia.
  - injection El as -> ->. pose proof (word_byte_letter b0 Hb') as [Hw1 Hw2].
    assert (Hn : longest_operator (ahead s j) = None).
    { unfold ahead. rewrite Hb. apply longest_operator_none. unfold word_byte in Hb'. cbv zeta in Hb'. unfold between in *. lia. }
    assert (Hdg : isDigit (byte_val b0) = false)
      by (unfold is_digit in Hd'; unfold isDigit, between; lia).
    assert (Hrun : while_end s (fun c => isLetter c || isDigit c) j = (j + length (b0 :: t0))%nat).
    { apply (lexeme_run s (b0 :: t0) rest); [done|done|by rewrite isLetter_0| |].
      - change 32 with (byte_val Byte.x20). by rewrite isLetter_ascii_byte.
      - constructor; [done|]. eapply Forall_impl; [exact Hl'|]. intros x Hx. by apply word_byte_letter. }
    rewrite Hn in Hkind. destruct Hkind as [?|[_ [(_ & Hall & Hend & Hty)|(Hnl & _)]]]; [done| |].
    + assert (He : e = (j + length (b0 :: t0))%nat).
      { rewrite <- Hrun. apply while_end_unique; [by rewrite isLetter_0|lia|done|done]. }
      assert (E : Literal t = b0 :: t0).
      { rewrite Htext, He. replace (j + length (b0 :: t0) - j)%nat with (length (b0 :: t0)) by lia.
        apply take_app_length. }
      split; [done|]. split; [by rewrite Hty, E|done].
    + rewrite Hb, Hw2, Hdg in Hnl. done.
  - injection El as -> ->.
    assert (Hn : longest_operator (ahead s j) = None).
    { unfold ahead. rewrite Hb. apply longest_operator_none. apply is_digit_word in Hb'.
      unfold word_byte in Hb'. cbv zeta in Hb'. unfold between in *. lia. }
    pose proof (word_byte_letter b0 (is_digit_word _ Hb')) as [_ Hw2].
    assert (Hdg : isDigit (byte_val b0) = true)
      by (unfold is_digit in Hb'; unfold isDigit, between; lia).
    rewrite Hn in Hkind. destruct Hkind as [?|[_ [(Hl & _)|(_ & _ & Hnum)]]]; [done| |].
    + rewrite Hb, Hw2, Hdg in Hl. done.
    + rewrite (number_end_int s b0 t0 rest j Ha Hd) in Hnum by (by constructor).
      injection Hnum as He Hty. split; [|done].
      rewrite Htext, <- He. replace (j + _ - j)%nat with (length (b0 :: t0)) by (cbn [length]; lia).
      apply take_app_length.
Qed.

Lemma render_cons (lit : gostring) (T : Type_) (ls : list (gostring * Type_)) :
  render ((lit, T) :: ls) = lit ++ Byte.x20 :: render ls.
Proof. unfold render. cbn. by rewrite <- app_assoc. Qed.

Lemma render_ascii (ls : list (gostring * Type_)) :
  Forall (fun l => simple_lexeme (fst l) (snd l)) ls -> is_ascii (render ls) = true.
Proof.
  induction 1 as [|[lit T] ls Hl _ IH]; [done|]. rewrite render_cons.
  destruct (simple_first lit T Hl) as (_ & _ & _ & _ & _ & _ & _ & _ & _ & Hlit).
  unfold is_ascii in *. rewrite forallb_app. cbn [forallb]. rewrite IH.
  replace (forallb _ lit) with true; [done|]. symmetry. apply forallb_forall.
  intros b Hb%list_elem_of_In. rewrite Forall_forall in Hlit. specialize (Hlit b Hb). unfold RuneSelf. lia.
Qed.

Lemma drop_eq_length {A : Type} (l : list A) (i j : nat) (t : list A) :
  t <> [] -> drop i l = t -> drop j l = t -> i = j.
Proof.
  intros Ht H1 H2. pose proof (f_equal length H1) as E1. pose proof (f_equal length H2) as E2.
  rewrite length_drop in E1, E2. destruct t; [done|]. cbn [length] in *. lia.
Qed.

Lemma map_byte_val_inj (a b : list byte) : map byte_val a = map byte_val b -> a = b.
Proof.
  revert b. induction a as [|x a IH]; intros [|y b] H; try done. cbn [map] in H.
  apply cons_inj in H as [H1 H2]. by rewrite (byte_val_inj _ _ H1), (IH _ H2).
Qed.

Lemma scanned_render (s : gostring) (k : nat) (toks : list Token) (ls : list (gostring * Type_)) (pre : gostring) :
  is_ascii s = true -> Forall (fun l => simple_lexeme (fst l) (snd l)) ls ->
  (pre = [] \/ pre = [Byte.x20]) -> drop k s = pre ++ render ls -> scanned s k toks ->
  map (fun t => (Literal t, tok_Type t)) toks = ls ++ [([], T_EOF)].
Proof.
  intros Ha Hls. revert k toks pre. induction Hls as [|[lit T] ls Hl _ IH]; intros k toks pre Hpre Hd Hscan.
  - assert (Hskip : forall j, skips (drop k (runes s)) (drop j (runes s)) -> at_token (drop j (runes s)) ->
      (runes_len s <= j)%nat).
    { intros j Hsk Htok. rewrite ascii_drop, Hd in Hsk by done. change (render []) with (@nil byte) in Hsk.
      rewrite app_nil_r in Hsk.
      assert (E : drop j (runes s) = []).
      { destruct Hpre as [-> | ->]; [|apply skips_space in Hsk; [|done]];
          (apply skips_at_token in Hsk; [done|exact I]). }
      apply (f_equal length) in E. rewrite length_drop, runes_length in E. simpl in E. lia. }
    destruct Hscan as [k j t Hsk Hkj Htok Hty Hat|k j e t toks Hsk Hkj Htok Hty Hat Hscan].
    + destruct Hat as [_ Hat]. rewrite Hty in Hat. destruct Hat as [_ E]. cbn. by rewrite E, Hty.
    + exfalso. specialize (Hskip j Hsk Htok). pose proof (rune_at_end s j Hskip) as H0.
      assert (Hn : longest_operator (ahead s j) = None)
        by (unfold ahead; rewrite H0; by apply longest_operator_none).
      destruct Hat as [_ Hat].
      assert (Hlex : ~ lexeme_at s t j e).
      { intros [_ [H|[_ [(H & _)|(_ & H & _)]]]]; [congruence|by rewrite H0, isLetter_0 in H|by rewrite H0 in H]. }
      destruct (tok_Type t); try done; try (by destruct Hat as [_ Hat]).
      * by destruct Hat as (_ & Hat & _).
      * destruct Hat as (_ & _ & Hq & [Hq1|Hq1] & _);
          destruct (Hq 0%nat) as [Hq2 _]; try (destruct (Triple t); lia); rewrite Nat.add_0_r in Hq2; congruence.
  - cbn [fst snd] in Hl. rewrite render_cons in Hd.
    destruct (simple_first lit T Hl) as (b0 & t0 & El & F1 & _ & _ & _ & _ & Hat0 & _).
    assert (Hskip : forall j, skips (drop k (runes s)) (drop j (runes s)) -> at_token (drop j (runes s)) ->
      drop j s = lit ++ Byte.x20 :: render ls).
    { intros j Hsk Htok. rewrite (ascii_drop s k), Hd in Hsk by done.
      assert (E : drop j (runes s) = map byte_val (lit ++ Byte.x20 :: render ls)).
      { destruct Hpre as [-> | ->]; [|apply skips_space in Hsk; [|done]];
          (apply skips_at_token in Hsk; [done|apply Hat0]). }
      rewrite ascii_drop in E by done. by apply map_byte_val_inj. }
    destruct Hscan as [k j t Hsk Hkj Htok Hty Hat|k j e t toks Hsk Hkj Htok Hty Hat Hscan].
    + exfalso. specialize (Hskip j Hsk Htok). destruct Hat as [_ Hat]. rewrite Hty in Hat. destruct Hat as [Hz _].
      rewrite (ascii_rune_at s j b0) in Hz; [done|done|].
      rewrite <- (Nat.add_0_r j), <- lookup_drop, Hskip, El. done.
    + specialize (Hskip j Hsk Htok).
      destruct (simple_token s lit (render ls) T t j e Ha Hl Hskip Hat Hty) as (E1 & E2 & ->).
      cbn [map app]. rewrite E1, E2. f_equal. apply (IH (j + length lit)%nat toks [Byte.x20]); [by right| |done].
      by rewrite <- drop_drop, Hskip, drop_app_length.
Qed.

(** C40: scanning inverts printing: a list of operators, words of ASCII letters
    and digits, and decimal integers, written with a space after each, scans to
    exactly those lexemes with their types (reserved words with theirs), and
    then the end of the source. *)
Theorem scan_render (ls : list (gostring * Type_)) :
  Forall (fun l => simple_lexeme (fst l) (snd l)) ls ->
  exists toks, tokens (render ls) = Some toks /\
    map (fun t => (Literal t, tok_Type t)) toks = ls ++ [([], T_EOF)].
Proof.
  intros Hls. destruct (at_New (render ls)) as [Ha Ei].
  destruct (tokens_n_spec (S (S (length (render ls)))) (New (render ls)) 0 Ha) as (toks & H1 & H2).
  { rewrite Ei. pose proof (runes_len_le (render ls)). lia. }
  exists toks. split; [exact H1|]. rewrite Ei in H2.
  apply (scanned_render (render ls) 0 toks ls []); [by apply render_ascii|done|by left|done|done].
Qed.
End Tokens.

Definition example_lexemes : list (gostring * Type_) :=
  [(bs "let", T_Let); (bs "x9", T_Ident); (bs "??=", T_NullCoalesceAssign); (bs "0420", T_Int);
   (bs "..<", T_RangeExcl); (bs "_", T_Ident)].

Lemma scan_render_witness :
  exists toks, tokens (render example_lexemes) = Some toks /\
    map (fun t => (Literal t, tok_Type t)) toks = example_lexemes ++ [([], T_EOF)].
Proof.
  apply (scan_render (letters := ascii_letters)).
  repeat (constructor;
    [first [ apply simple_operator; apply (bool_decide_unpack _); by vm_compute
           | apply simple_int; [reflexivity|by repeat constructor]
           | apply (simple_word Byte.x6c); [reflexivity|reflexivity|by repeat constructor]
           | apply (simple_word Byte.x78); [reflexivity|reflexivity|by repeat constructor]
           | apply (simple_word Byte.x5f); [reflexivity|reflexivity|by repeat constructor]]|]).
  constructor.
Defined.

(** An empty block comment does not end: its second star is taken for the mark
    of a documentation comment and the search for the end starts after it, so
    the rest of the source is swallowed. *)
Lemma empty_block_comment (l : UnicodeLetters) :
  option_map (map tok_Type) (tokens (bs "/**/ let x = 1;")) = Some [T_EOF].
Proof. by vm_compute. Qed.

(** A NUL character ends the source. *)
Lemma nul_ends_source (l : UnicodeLetters) :
  option_map (map tok_Type) (tokens (bs "+ " ++ [Byte.x00] ++ bs " + +")) = Some [T_Plus; T_EOF].
Proof. by vm_compute. Qed.
