(* ===== verification/Dispatch.v ===== *)
(** * Dispatch: the dispatch loop of the bytecode VM

    [dispatchLoop] of src/internal/bytecode/vm.go over the instructions whose
    operations the other files model: constants, variables, arithmetic,
    comparisons, branches and the superinstructions.  An instruction outside
    this set (calls, objects, exceptions, containers) stops the model with no
    answer, so a theorem about a run also says that it stays inside the set. *)

From S2P Require Import Prelude Float64 GoText Value Ops Machine Arith Compare Slots.
#[local] Open Scope Z_scope.

(** The code of other components that instructions call: library functions,
    operators of native value classes, and methods of user classes. *)
Class Externals := {
  math_Pow : float64 -> float64 -> float64;
  FormatFloat_g : float64 -> gostring;
  RatSetString : gostring -> option QArith_base.Q;
  nativeBinary : gostring -> Value -> Value -> result VMError Value;
  nativeNegate : Value -> result VMError Value;
  instanceOperator : Op -> Value -> list Value -> option (vmM unit);
  payloadEq : Z -> Z -> bool;
  instanceDeepEqual : Value -> Value -> result VMError bool;
  instanceCompare : Op -> Value -> Value -> option (vmM unit);
  instanceEqual : Value -> Value -> option (vmM unit) }.

Section Dispatch.
Context `{Externals}.

Definition vm_add : vmM unit := add math_Pow FormatFloat_g RatSetString nativeBinary instanceOperator.
Definition vm_binary : Op -> vmM unit :=
  binaryNumeric math_Pow FormatFloat_g RatSetString nativeBinary instanceOperator.
Definition vm_fused : Op -> vmM unit :=
  fusedIntBinary math_Pow FormatFloat_g RatSetString nativeBinary instanceOperator.
Definition vm_compare : Op -> vmM unit := compare nativeBinary instanceCompare.
Definition vm_equal : vmM unit := equal payloadEq instanceDeepEqual instanceEqual.

(** [instruction.Operands[i]]. *)
Definition operand (ins : Instruction) (i : Z) : vmM Z := at_index (Operands ins) i.

(** [case OpConstant]: [None] for a class, which is looked up among the
    decorated classes. *)
Definition constant_push (value : Value) : option (vmM unit) :=
  match value with
  | VSmallInt x => Some (pushVM (VMValueSmallInt x))
  | VBool x => Some (pushVM (VMValueBool x))
  | VNull => Some (pushVM VMValueNull)
  | VBytecodeClass _ _ _ => None
  | _ => Some (push value)
  end.

Definition execConstant (constants : list Value) (ins : Instruction) : option (vmM unit) :=
  match Operands ins with
  | [] => Some (fail GoPanic)
  | index :: _ =>
      match zlookup constants index with
      | None => Some (fail (RuntimeError (bs "constant index out of range")))
      | Some value => constant_push value
      end
  end.

(** [case OpAddStringConst]. *)
Definition execAddStringConst (constants : list Value) (ins : Instruction) : vmM unit := fun vm =>
  match stack vm with
  | [] => (vm, Err (Fatal (bs "stack underflow")))
  | leftVM :: rest =>
      match Operands ins with
      | [] => (vm, Err GoPanic)
      | constIdx :: _ =>
          match zlookup constants constIdx with
          | None => (vm, Err (RuntimeError (bs "constant index out of range")))
          | Some (VString lit) =>
              match Kind leftVM, Boxed leftVM with
              | VMKindBoxed, Some (VString l) =>
                  (set_stack (mkVM VMKindBoxed 0 (Some (VString (l ++ lit))) :: rest) vm, Ok tt)
              | _, _ => (do_ pushVM (VMValueFromValue (VString lit)); vm_add) vm
              end
          | Some _ => (vm, Err (RuntimeError (bs "OpAddStringConst literal must be string")))
          end
      end
  end.

(** [case OpAddString]. *)
Definition execAddString : vmM unit := fun vm =>
  match stack vm with
  | rightVM :: leftVM :: rest =>
      match Kind leftVM, Boxed leftVM, Kind rightVM, Boxed rightVM with
      | VMKindBoxed, Some (VString l), VMKindBoxed, Some (VString r) =>
          (set_stack (mkVM VMKindBoxed 0 (Some (VString (l ++ r))) :: rest) vm, Ok tt)
      | _, _, _, _ => vm_add vm
      end
  | _ => (vm, Err (Fatal (bs "stack underflow")))
  end.

(** [case OpLessInt] to [OpEqualInt]: the fast path on two small integers, and
    the opcode that they fall back to. *)
Definition compare_small (op : Op) (li ri : Z) : bool :=
  match op with
  | OpLessInt => li <? ri
  | OpGreaterInt => ri <? li
  | OpLessEqualInt => li <=? ri
  | OpGreaterEqualInt => ri <=? li
  | OpEqualInt => li =? ri
  | _ => false
  end.
Definition generic_compare (op : Op) : Op :=
  match op with
  | OpLessInt => OpLess
  | OpGreaterInt => OpGreater
  | OpLessEqualInt => OpLessEqual
  | OpGreaterEqualInt => OpGreaterEqual
  | OpEqualInt => OpEqual
  | _ => op
  end.
Definition execCompareInt (op : Op) : vmM unit := fun vm =>
  match stack vm with
  | rightVM :: leftVM :: rest =>
      if decide (Kind leftVM = VMKindSmallInt /\ Kind rightVM = VMKindSmallInt) then
        (set_stack (VMValueBool (compare_small op (I64 leftVM) (I64 rightVM)) :: rest) vm, Ok tt)
      else if decide (op = OpEqualInt) then vm_equal vm
      else vm_compare (generic_compare op) vm
  | _ => (vm, Err (Fatal (bs "stack underflow")))
  end.

(** [case OpJump]; profiling is not modelled. *)
Definition execJump (ins : Instruction) (ip : Z) : vmM Z :=
  do target <- operand ins 0; ret (target - 1).

(** [case OpJumpIfFalse]. *)
Definition condition_error (value : Value) : VMError :=
  Thrown (bs "TypeError") (bs "condition must be bool, got " ++ TypeName value).
Definition execJumpIfFalse (ins : Instruction) (ip : Z) : vmM Z :=
  do value <- reframe popVM;
  match AsBool value with
  | None => fail (condition_error (ToValue value))
  | Some true => ret ip
  | Some false => do target <- operand ins 0; ret (target - 1)
  end.

(** [case OpPop] and [OpDup]. *)
Definition execPop : vmM unit := do _ <- reframe popVM; ret tt.
Definition execDup : vmM unit := fun vm =>
  match stack vm with
  | [] => (vm, Err (Fatal (bs "stack underflow")))
  | v :: _ => pushVM v vm
  end.

(** [case OpNullCoalesce]. *)
Definition execNullCoalesce (ins : Instruction) (ip : Z) : vmM Z :=
  do top <- reframe peekVM;
  if decide (Kind top <> VMKindNull /\ Kind top <> VMKindUnset)
  then do target <- operand ins 0; ret (target - 1)
  else do _ <- reframe popVM; ret ip.

(** One turn of the loop: the instruction pointer it leaves, before the
    increment. *)
Definition goes_on (ip : Z) (m : vmM unit) : vmM Z := do_ m; ret ip.

Definition exec (constants : list Value) (ins : Instruction) (ip : Z) : option (vmM Z) :=
  match op_of_code (op_byte ins) with
  | None => None
  | Some op =>
      match op with
      | OpNoop => Some (ret ip)
      | OpConstant => goes_on ip <$> execConstant constants ins
      | OpAdd => Some (goes_on ip vm_add)
      | OpAddStringConst => Some (goes_on ip (execAddStringConst constants ins))
      | OpAddString => Some (goes_on ip execAddString)
      | OpSub | OpMul | OpDiv | OpIntDiv | OpMod | OpPow => Some (goes_on ip (vm_binary op))
      | OpAddInt | OpSubInt | OpMulInt | OpModInt => Some (goes_on ip (vm_fused op))
      | OpLessInt | OpGreaterInt | OpLessEqualInt | OpGreaterEqualInt | OpEqualInt =>
          Some (goes_on ip (execCompareInt op))
      | OpIncLocalInt | OpDecLocalInt =>
          Some (goes_on ip (do slot <- operand ins 0; execIncDecLocal op slot))
      | OpIncGlobalInt | OpDecGlobalInt =>
          Some (goes_on ip (do slot <- operand ins 0; execIncDecGlobal op slot))
      | OpJumpIfNotLessInt | OpJumpIfNotLessEqualInt | OpJumpIfNotGreaterInt
      | OpJumpIfNotGreaterEqualInt | OpJumpIfNotEqualInt | OpJumpIfEqualInt =>
          Some (do target <- operand ins 0;
                execCompareJump nativeBinary payloadEq instanceDeepEqual instanceCompare
                  instanceEqual op target ip)
      | OpJumpIfModNotZero | OpJumpIfModZero => Some (execModJump op (Operands ins) ip)
      | OpAddLocalIntLocal | OpSubLocalIntLocal | OpAddLocalIntConst | OpSubLocalIntConst
      | OpAddLocalIntGlobal | OpSubLocalIntGlobal | OpAddGlobalIntGlobal | OpSubGlobalIntGlobal
      | OpAddGlobalIntConst | OpSubGlobalIntConst | OpAddGlobalIntLocal | OpSubGlobalIntLocal =>
          Some (goes_on ip (execSelfArith op (Operands ins)))
      | OpEqual => Some (goes_on ip vm_equal)
      | OpLess | OpGreater | OpLessEqual | OpGreaterEqual => Some (goes_on ip (vm_compare op))
      | OpNot => Some (goes_on ip (not instanceOperator))
      | OpBoolXor => Some (goes_on ip boolXor)
      | OpNegate => Some (goes_on ip (negate nativeNegate instanceOperator))
      | OpDefineGlobal => Some (goes_on ip (do slot <- operand ins 0; execDefineGlobal slot))
      | OpGetGlobal => Some (goes_on ip (do slot <- operand ins 0; execGetGlobal slot))
      | OpSetGlobal => Some (goes_on ip (do slot <- operand ins 0; execSetGlobal slot))
      | OpDefineLocal => Some (goes_on ip (do slot <- operand ins 0; execDefineLocal slot))
      | OpGetLocal => Some (goes_on ip (do slot <- operand ins 0; execGetLocal slot))
      | OpSetLocal => Some (goes_on ip (do slot <- operand ins 0; execSetLocal slot))
      | OpJump => Some (execJump ins ip)
      | OpJumpIfFalse => Some (execJumpIfFalse ins ip)
      | OpPop => Some (goes_on ip execPop)
      | OpDup => Some (goes_on ip execDup)
      | OpBitAnd | OpBitOr | OpBitXor | OpLShift | OpRShift =>
          Some (goes_on ip (bitwiseInfix instanceOperator op))
      | OpBitNot => Some (goes_on ip (bitwiseNot instanceOperator))
      | OpNullCoalesce => Some (execNullCoalesce ins ip)
      | _ => None
      end
  end.

(** [vm.dispatchLoop] from an instruction pointer: it ends behind the last
    instruction or with a fault.  [None] when the fuel runs out or an
    instruction outside the set is reached; a negative pointer panics. *)
Fixpoint dispatchLoop (fuel : nat) (constants : list Value) (instructions : list Instruction)
    (ip : Z) (vm : VM) : option (VM * result VMError unit) :=
  match fuel with
  | O => None
  | S f =>
      if zlen instructions <=? ip then Some (vm, Ok tt)
      else match zlookup instructions ip with
           | None => Some (vm, Err GoPanic)
           | Some ins =>
               match exec constants ins ip with
               | None => None
               | Some m =>
                   match m vm with
                   | (vm', Ok ip') => dispatchLoop f constants instructions (ip' + 1) vm'
                   | (vm', Err e) => Some (vm', Err e)
                   end
               end
           end
  end.
End Dispatch.
