(* ===== verification/Compile.v ===== *)
(** * Compile: the bytecode compiler's translation of scalar expressions

    Literals, identifiers, infix and prefix operators, [??], the short-circuit
    operators and the conditional expression, as
    src/internal/bytecode/compiler_expressions.go translates them: with the
    constants it folds, the type-specialised opcodes it selects, the branches
    it fuses, and the jumps it patches (compiler.go).  Calls, objects,
    containers, interpolation and [instanceof] are not part of the expressions
    here. *)

From S2P Require Import Prelude Float64 GoText Literal Value Ops Machine Arith.
#[local] Open Scope Z_scope.

(** ** The syntax tree (src/internal/ast/ast.go) *)

(** [Token.Line] and [Token.Column]. *)
Record Pos := mkPos { pos_Line : Z; pos_Column : Z }.

Inductive Operator :=
| InfixIn | InfixPlus | InfixMinus | InfixTimes | InfixDiv | InfixIntDiv | InfixMod | InfixPow
| InfixEq | InfixNe | InfixLt | InfixLe | InfixGt | InfixGe
| InfixAnd | InfixOr | InfixXor
| InfixBitAnd | InfixBitOr | InfixBitXor | InfixShl | InfixShr
| InfixCoalesce | InfixIs | InfixIsNot.

#[global] Instance Operator_eq_dec : EqDecision Operator.
Proof. solve_decision. Defined.

Inductive PrefixOperator := PrefixNot | PrefixMinus | PrefixBitNot.

(** [ast.Expression]; an [EBool] or [ENull] is an [ast.Literal]. *)
Inductive Expression :=
| IntegerLiteral (t : Pos) (text : gostring)
| DecimalLiteral (t : Pos) (text : gostring)
| FloatLiteral (t : Pos) (text : gostring)
| StringLiteral (t : Pos) (triple : bool) (value : gostring)
| BoolLiteral (t : Pos) (b : bool)
| NullLiteral (t : Pos)
| Identifier (t : Pos) (name : gostring)
| InfixExpression (t : Pos) (op : Operator) (left right : Expression)
| PrefixExpression (t : Pos) (op : PrefixOperator) (right : Expression)
| TernaryExpression (t : Pos) (condition thenExpr elseExpr : Expression).

(** [ast.IsIntegerLiteral]. *)
Fixpoint IsIntegerLiteral (e : Expression) : bool :=
  match e with
  | PrefixExpression _ PrefixMinus (IntegerLiteral _ _) => true
  | TernaryExpression _ _ a b => IsIntegerLiteral a && IsIntegerLiteral b
  | IntegerLiteral _ _ => true
  | _ => false
  end.

(** ** [strconv.ParseInt(s, 0, 64)] (standard library)

    The base comes from the prefix, a leading zero alone selects octal, and an
    underscore may only separate digits. *)

Definition lower_byte (b : byte) : byte :=
  let z := byte_val b in if (65 <=? z) && (z <=? 90) then byte_of (z + 32) else b.

Inductive DigitClass := ClassStart | ClassDigit | ClassUnderscore | ClassOther.

Fixpoint underscore_scan (hex : bool) (prev : DigitClass) (s : gostring) : bool :=
  match s with
  | [] => match prev with ClassUnderscore => false | _ => true end
  | b :: s' =>
      let v := digit_value b in
      if (v <? 10) || (hex && (v <? 16)) then underscore_scan hex ClassDigit s'
      else if decide (b = Byte.x5f) then
        match prev with ClassDigit => underscore_scan hex ClassUnderscore s' | _ => false end
      else match prev with ClassUnderscore => false | _ => underscore_scan hex ClassOther s' end
  end.

Definition underscoreOK (s : gostring) : bool :=
  match s with
  | Byte.x30 :: c :: rest =>
      let c := lower_byte c in
      if decide (c = Byte.x62 \/ c = Byte.x6f) then underscore_scan false ClassDigit rest
      else if decide (c = Byte.x78) then underscore_scan true ClassDigit rest
      else underscore_scan false ClassStart s
  | _ => underscore_scan false ClassStart s
  end.

(** The base and digits that [ParseUint] reads when the base is 0. *)
Definition auto_base (s : gostring) : Z * gostring :=
  match s with
  | Byte.x30 :: rest =>
      match rest with
      | c :: (_ :: _) as body =>
          let c := lower_byte c in
          if decide (c = Byte.x62) then (2, drop 1 body)
          else if decide (c = Byte.x6f) then (8, drop 1 body)
          else if decide (c = Byte.x78) then (16, drop 1 body)
          else (8, rest)
      | _ => (8, rest)
      end
  | _ => (10, s)
  end.

Definition ParseUint0 (s : gostring) : option Z :=
  match s with
  | [] => None
  | _ =>
      let (base, digits) := auto_base s in
      if underscoreOK s then digits_value base 0 (strip_underscores digits) else None
  end.

Definition ParseInt0 (s : gostring) : option Z :=
  let signed (z : option Z) : option Z :=
    match z with Some z => if is_int64 z then Some z else None | None => None end in
  match s with
  | Byte.x2d :: s' => signed (option_map Z.opp (ParseUint0 s'))
  | Byte.x2b :: s' => signed (ParseUint0 s')
  | _ => signed (ParseUint0 s)
  end.

(** ** Constant folding *)

Section Folding.
(** [strconv.ParseFloat(s, 64)]. *)
Variable ParseFloat : gostring -> option float64.

(** [intLiteralValue], [floatLiteralValue], [stringLiteralValue] and
    [boolLiteralValue]. *)
Definition intLiteralValue (e : Expression) : option Z :=
  match e with IntegerLiteral _ text => ParseInt0 text | _ => None end.
Definition floatLiteralValue (e : Expression) : option float64 :=
  match e with FloatLiteral _ text => ParseFloat text | _ => None end.
Definition stringLiteralValue (e : Expression) : option gostring :=
  match e with StringLiteral _ triple s => if triple then None else Some s | _ => None end.
Definition boolLiteralValue (e : Expression) : option bool :=
  match e with BoolLiteral _ b => Some b | _ => None end.

(** [foldIntInt]; a division by a literal zero is left to run time. *)
Definition foldIntInt (op : Operator) (l r : Z) : option Value :=
  match op with
  | InfixPlus => Some (VInt (l + r))
  | InfixMinus => Some (VInt (l - r))
  | InfixTimes => Some (VInt (l * r))
  | InfixIntDiv =>
      if r =? 0 then None
      else if (l =? min_int64) && (r =? -1) then Some (VInt (- l))
      else
        let q := go_div64 l r in
        Some (VInt (if (Z.lxor l r <? 0) && negb (wrap64 (q * r) =? l) then wrap64 (q - 1) else q))
  | InfixMod =>
      if r =? 0 then None
      else
        let m := go_rem64 l r in
        Some (VInt (if negb (m =? 0) && (Z.lxor m r <? 0) then wrap64 (m + r) else m))
  | InfixEq => Some (VBool (l =? r))
  | InfixNe => Some (VBool (negb (l =? r)))
  | InfixLt => Some (VBool (l <? r))
  | InfixLe => Some (VBool (l <=? r))
  | InfixGt => Some (VBool (r <? l))
  | InfixGe => Some (VBool (r <=? l))
  | _ => None
  end.

(** [foldFloatFloat]. *)
Definition foldFloatFloat (op : Operator) (l r : float64) : option Value :=
  match op with
  | InfixPlus => Some (VFloat (f64_add l r))
  | InfixMinus => Some (VFloat (f64_sub l r))
  | InfixTimes => Some (VFloat (f64_mul l r))
  | InfixEq => Some (VBool (f64_eqb l r))
  | InfixNe => Some (VBool (negb (f64_eqb l r)))
  | InfixLt => Some (VBool (f64_ltb l r))
  | InfixLe => Some (VBool (f64_ltb l r || f64_eqb l r))
  | InfixGt => Some (VBool (f64_ltb r l))
  | InfixGe => Some (VBool (f64_ltb r l || f64_eqb r l))
  | _ => None
  end.

(** [foldStringString]. *)
Definition foldStringString (op : Operator) (l r : gostring) : option Value :=
  match op with
  | InfixPlus => Some (VString (l ++ r))
  | InfixEq => Some (VBool (bool_decide (l = r)))
  | InfixNe => Some (VBool (negb (bool_decide (l = r))))
  | InfixLt => Some (VBool (match str_compare l r with Lt => true | _ => false end))
  | InfixLe => Some (VBool (match str_compare l r with Gt => false | _ => true end))
  | InfixGt => Some (VBool (match str_compare l r with Gt => true | _ => false end))
  | InfixGe => Some (VBool (match str_compare l r with Lt => false | _ => true end))
  | _ => None
  end.

(** [foldBoolBool]. *)
Definition foldBoolBool (op : Operator) (l r : bool) : option Value :=
  match op with
  | InfixEq => Some (VBool (Bool.eqb l r))
  | InfixNe => Some (VBool (negb (Bool.eqb l r)))
  | _ => None
  end.

(** [foldConstantBinary]: the first pair of literal kinds that matches
    decides, also when it folds nothing. *)
Definition foldConstantBinary (op : Operator) (left right : Expression) : option Value :=
  match intLiteralValue left, intLiteralValue right, floatLiteralValue right with
  | Some l, Some r, _ => foldIntInt op l r
  | Some l, None, Some r => foldFloatFloat op (f64_of_Z l) r
  | _, _, _ =>
      match floatLiteralValue left, floatLiteralValue right, intLiteralValue right with
      | Some l, Some r, _ => foldFloatFloat op l r
      | Some l, None, Some r => foldFloatFloat op l (f64_of_Z r)
      | _, _, _ =>
          match stringLiteralValue left, stringLiteralValue right with
          | Some l, Some r => foldStringString op l r
          | _, _ =>
              match boolLiteralValue left, boolLiteralValue right with
              | Some l, Some r => foldBoolBool op l r
              | _, _ => None
              end
          end
      end
  end.
End Folding.

(** ** The compiler's state (compiler.go) *)

(** [binding]: a name's kind, slot and declared type. *)
Record binding := mkBinding { bind_local : bool; bind_slot : Z; bind_typ : gostring }.

(** [scopes] has the outermost scope first; scope 0 is the global one, which
    [globals] and [globalTypes] describe. *)
Record Compiler := mkCompiler {
  Constants : list Value;
  Instructions : list Instruction;
  scopes : list (gmap gostring binding);
  globalSlots : gmap gostring Z;
  globalTypes : gmap gostring gostring;
  expectedTypes : list gostring;
  TypeAliasDeps : gmap gostring gostring }.

Definition with_code (constants : list Value) (code : list Instruction) (c : Compiler) : Compiler :=
  mkCompiler constants code (scopes c) (globalSlots c) (globalTypes c) (expectedTypes c)
    (TypeAliasDeps c).
Definition with_expected (types : list gostring) (c : Compiler) : Compiler :=
  mkCompiler (Constants c) (Instructions c) (scopes c) (globalSlots c) (globalTypes c) types
    (TypeAliasDeps c).
Definition with_deps (deps : gmap gostring gostring) (c : Compiler) : Compiler :=
  mkCompiler (Constants c) (Instructions c) (scopes c) (globalSlots c) (globalTypes c)
    (expectedTypes c) deps.

(** [int32(line)]. *)
Definition int32_of (z : Z) : Z := (z + 2 ^ 31) mod 2 ^ 32 - 2 ^ 31.

(** [c.emitAt], [c.emitConstant], [c.emitJump] and [c.patchJump]. *)
Definition instruction (op : Op) (t : Pos) (operands : list Z) : Instruction :=
  mkInstruction operands (op_code op) (clampColumn (pos_Column t)) (int32_of (pos_Line t)).
Definition emitAt (op : Op) (t : Pos) (operands : list Z) (c : Compiler) : Compiler :=
  with_code (Constants c) (Instructions c ++ [instruction op t operands]) c.
Definition emitConstant (value : Value) (t : Pos) (c : Compiler) : Compiler :=
  emitAt OpConstant t [zlen (Constants c)]
    (with_code (Constants c ++ [value]) (Instructions c) c).
Definition emitJump (op : Op) (t : Pos) (c : Compiler) : Z * Compiler :=
  (zlen (Instructions c), emitAt op t [-1] c).
Definition set_target (target : Z) (ins : Instruction) : Instruction :=
  mkInstruction (zinsert 0 target (Operands ins)) (op_byte ins) (Column ins) (Line ins).
Definition patchJump (index : Z) (c : Compiler) : Compiler :=
  with_code (Constants c)
    (alter (set_target (zlen (Instructions c))) (Z.to_nat index) (Instructions c)) c.

(** [c.resolveName]: the innermost scope that has the name, then the
    globals. *)
Definition lookup_scopes (name : gostring) (l : list (gmap gostring binding)) : option binding :=
  fold_left (fun found scope => match scope !! name with Some b => Some b | None => found end)
    l None.
Definition resolveName (c : Compiler) (name : gostring) : option binding :=
  match lookup_scopes name (drop 1 (scopes c)) with
  | Some b => Some b
  | None =>
      match globalSlots c !! name with
      | Some slot => Some (mkBinding false slot (default [] (globalTypes c !! name)))
      | None => None
      end
  end.

(** [c.currentExpectedType]. *)
Definition currentExpectedType (c : Compiler) : gostring := default [] (last (expectedTypes c)).

(** [strings.TrimPrefix]. *)
Definition TrimPrefix (s prefix : gostring) : gostring :=
  if decide (take (length prefix) s = prefix) then drop (length prefix) s else s.

(** ** Static types *)

(** [c.staticIntExpr] and [c.staticStringExpr]. *)
Fixpoint staticIntExpr (c : Compiler) (e : Expression) : bool :=
  match e with
  | IntegerLiteral _ _ => true
  | Identifier _ name =>
      match resolveName c name with Some b => bool_decide (bind_typ b = bs "int") | None => false end
  | InfixExpression _ op l r =>
      match op with
      | InfixPlus | InfixMinus | InfixTimes | InfixIntDiv | InfixMod =>
          staticIntExpr c l && staticIntExpr c r
      | _ => false
      end
  | PrefixExpression _ PrefixMinus r => staticIntExpr c r
  | _ => false
  end.

Fixpoint staticStringExpr (c : Compiler) (e : Expression) : bool :=
  match e with
  | StringLiteral _ _ _ => true
  | Identifier _ name =>
      match resolveName c name with Some b => bool_decide (bind_typ b = bs "string") | None => false end
  | InfixExpression _ InfixPlus l r => staticStringExpr c l && staticStringExpr c r
  | _ => false
  end.

(** ** Fused branches *)

(** [isIntZeroLiteral] and [c.tryFuseModZeroBranch]: the slot, the divisor and
    the opcode of a test such as [x % 3 == 0]. *)
Definition isIntZeroLiteral (e : Expression) : bool :=
  match e with
  | IntegerLiteral _ text => match Atoi text with Some v => v =? 0 | None => false end
  | _ => false
  end.

Definition tryFuseModZeroBranch (c : Compiler) (op : Operator) (left right : Expression)
    : option (Z * Z * Op) :=
  match op with
  | InfixEq | InfixNe =>
      match (if isIntZeroLiteral right then Some left
             else if isIntZeroLiteral left then Some right else None) with
      | Some (InfixExpression _ InfixMod (Identifier _ name) (IntegerLiteral _ text)) =>
          match resolveName c name with
          | Some b =>
              if bind_local b && bool_decide (bind_typ b = bs "int") then
                match Atoi text with
                | Some divisor =>
                    if divisor =? 0 then None
                    else Some (bind_slot b, divisor,
                               match op with InfixNe => OpJumpIfModZero | _ => OpJumpIfModNotZero end)
                | None => None
                end
              else None
          | None => None
          end
      | _ => None
      end
  | _ => None
  end.

(** [fusedCompareJumpOpFor]. *)
Definition fusedCompareJumpOpFor (op : Operator) : option Op :=
  match op with
  | InfixLt => Some OpJumpIfNotLessInt
  | InfixLe => Some OpJumpIfNotLessEqualInt
  | InfixGt => Some OpJumpIfNotGreaterInt
  | InfixGe => Some OpJumpIfNotGreaterEqualInt
  | InfixEq => Some OpJumpIfNotEqualInt
  | InfixNe => Some OpJumpIfEqualInt
  | _ => None
  end.

(** The instructions that end an infix expression. *)
Definition infix_opcodes (op : Operator) (bothInt bothString : bool) : list Op :=
  match op with
  | InfixIn => [OpContains]
  | InfixPlus => [if bothInt then OpAddInt else if bothString then OpAddString else OpAdd]
  | InfixMinus => [if bothInt then OpSubInt else OpSub]
  | InfixTimes => [if bothInt then OpMulInt else OpMul]
  | InfixDiv => [OpDiv]
  | InfixIntDiv => [OpIntDiv]
  | InfixMod => [if bothInt then OpModInt else OpMod]
  | InfixPow => [OpPow]
  | InfixEq => [if bothInt then OpEqualInt else OpEqual]
  | InfixNe => [if bothInt then OpEqualInt else OpEqual; OpNot]
  | InfixLt => [if bothInt then OpLessInt else OpLess]
  | InfixLe => [if bothInt then OpLessEqualInt else OpLessEqual]
  | InfixGt => [if bothInt then OpGreaterInt else OpGreater]
  | InfixGe => [if bothInt then OpGreaterEqualInt else OpGreaterEqual]
  | InfixXor => [OpBoolXor]
  | InfixBitAnd => [OpBitAnd]
  | InfixBitOr => [OpBitOr]
  | InfixBitXor => [OpBitXor]
  | InfixShl => [OpLShift]
  | InfixShr => [OpRShift]
  | InfixIs => [OpIdentical]
  | InfixIsNot => [OpIdentical; OpNot]
  | InfixAnd | InfixOr | InfixCoalesce => []
  end.

Definition emit_all (ops : list Op) (t : Pos) (c : Compiler) : Compiler :=
  fold_left (fun c op => emitAt op t [] c) ops c.

Definition prefix_opcode (op : PrefixOperator) : Op :=
  match op with PrefixNot => OpNot | PrefixMinus => OpNegate | PrefixBitNot => OpBitNot end.

(** ** The translation *)

Section Translation.
(** [big.Rat.SetString] and [strconv.ParseFloat(s, 64)]. *)
Variable RatSetString : gostring -> option QArith_base.Q.
Variable ParseFloat : gostring -> option float64.
(** [typealias.ExpandString] with the compiler's alias table; [None] when there
    is none. *)
Variable typeAliasLookup : option (gostring -> gostring).
(** What the compiler makes of a name that is no variable: a class, a function
    or a built-in type. *)
Variable unresolvedName : Pos -> gostring -> Compiler -> result gostring Compiler.

(** [c.expandRecordedTypeAlias]. *)
Definition expandRecordedTypeAlias (typ : gostring) (c : Compiler) : gostring * Compiler :=
  match typeAliasLookup with
  | None => (typ, c)
  | Some expand =>
      if decide (typ = []) then (typ, c)
      else
        let expanded := expand typ in
        if decide (expanded = typ) then (expanded, c)
        else (expanded, with_deps (<[typ := expanded]> (TypeAliasDeps c)) c)
  end.

Definition invalid_literal (kind : String.string) (text : gostring) : gostring :=
  bs "invalid " ++ bs kind ++ bs " literal " ++ [Byte.x22] ++ text ++ [Byte.x22].

(** [case *ast.IntegerLiteral]: the expected type makes a decimal or a float
    of it. *)
Definition compileIntegerLiteral (t : Pos) (text : gostring) (c : Compiler)
    : result gostring Compiler :=
  match ParseIntLiteral text with
  | None => Err (invalid_literal "integer" text)
  | Some value =>
      let '(expected, c) := expandRecordedTypeAlias (currentExpectedType c) c in
      let expected := TrimPrefix expected (bs "?") in
      if decide (expected = bs "decimal") then
        Ok (emitConstant (VDecimal (IntToDecimal value)) t c)
      else if decide (expected = bs "float") then
        Ok (emitConstant (VFloat (f64_of_Z value)) t c)
      else if is_int64 value then Ok (emitConstant (VSmallInt value) t c)
      else Ok (emitConstant (VInt value) t c)
  end.

Definition compileIdentifier (t : Pos) (name : gostring) (c : Compiler) : result gostring Compiler :=
  match resolveName c name with
  | None => unresolvedName t name c
  | Some b => Ok (emitAt (if bind_local b then OpGetLocal else OpGetGlobal) t [bind_slot b] c)
  end.

Definition isStringLiteral (e : Expression) : bool :=
  match e with StringLiteral _ _ _ => true | _ => false end.

(** [c.compileExpressionWithExpected], given the translation [inner]. *)
Definition with_expected_type (expected : gostring) (inner : Compiler -> result gostring Compiler)
    (c : Compiler) : result gostring Compiler :=
  let* c' := inner (with_expected (expectedTypes c ++ [expected]) c) in
  Ok (with_expected (removelast (expectedTypes c')) c').

(** [c.compileConditionAndJumpIfFalse], given [c.compileExpression]. *)
Definition compileCondition (compile : Expression -> Compiler -> result gostring Compiler)
    (cond : Expression) (t : Pos) (c : Compiler) : result gostring (Z * Compiler) :=
  let plain :=
    let* c := compile cond c in
    Ok (emitJump OpJumpIfFalse t c) in
  match cond with
  | InfixExpression _ op l r =>
      match tryFuseModZeroBranch c op l r with
      | Some (slot, divisor, jump) =>
          Ok (zlen (Instructions c), emitAt jump t [-1; slot; divisor] c)
      | None =>
          match fusedCompareJumpOpFor op with
          | Some fusedOp =>
              if staticIntExpr c l && staticIntExpr c r then
                let* c := compile l c in
                let* c := compile r c in
                Ok (emitJump fusedOp t c)
              else plain
          | None => plain
          end
      end
  | _ => plain
  end.

(** [c.compileShortCircuitExpression]. *)
Definition compileShortCircuit (compile : Expression -> Compiler -> result gostring Compiler)
    (t : Pos) (is_and : bool) (l r : Expression) (c : Compiler) : result gostring Compiler :=
  let* c := compile l c in
  if is_and then
    let '(falseJump, c) := emitJump OpJumpIfFalse t c in
    let* c := compile r c in
    let '(rightFalseJump, c) := emitJump OpJumpIfFalse t c in
    let c := emitConstant (VBool true) t c in
    let '(endJump, c) := emitJump OpJump t c in
    let c := patchJump rightFalseJump (patchJump falseJump c) in
    let c := emitConstant (VBool false) t c in
    Ok (patchJump endJump c)
  else
    let '(rightJump, c) := emitJump OpJumpIfFalse t c in
    let c := emitConstant (VBool true) t c in
    let '(endJump, c) := emitJump OpJump t c in
    let c := patchJump rightJump c in
    let* c := compile r c in
    let '(rightFalseJump, c) := emitJump OpJumpIfFalse t c in
    let c := emitConstant (VBool true) t c in
    let '(rightEndJump, c) := emitJump OpJump t c in
    let c := patchJump rightFalseJump c in
    let c := emitConstant (VBool false) t c in
    Ok (patchJump rightEndJump (patchJump endJump c)).

(** [case *ast.InfixExpression] for an operator that evaluates both operands. *)
Definition compileInfix (compile : Expression -> Compiler -> result gostring Compiler)
    (t : Pos) (op : Operator) (l r : Expression) (c : Compiler) : result gostring Compiler :=
  match foldConstantBinary ParseFloat op l r with
  | Some folded => Ok (emitConstant folded t c)
  | None =>
      let bothInt := staticIntExpr c l && staticIntExpr c r in
      let bothString :=
        negb bothInt && bool_decide (op = InfixPlus) && staticStringExpr c l && staticStringExpr c r in
      match r with
      | StringLiteral _ _ lit =>
          if bothString && negb (isStringLiteral l) then
            let* c := compile l c in
            let constIdx := zlen (Constants c) in
            let c := with_code (Constants c ++ [VString lit]) (Instructions c) c in
            Ok (emitAt OpAddStringConst t [constIdx] c)
          else
            let* c := compile l c in
            let* c := compile r c in
            Ok (emit_all (infix_opcodes op bothInt bothString) t c)
      | _ =>
          let* c := compile l c in
          let* c := compile r c in
          Ok (emit_all (infix_opcodes op bothInt bothString) t c)
      end
  end.

(** [c.compileExpressionInner]. *)
Fixpoint compileExpressionInner (e : Expression) (c : Compiler) {struct e}
    : result gostring Compiler :=
  let compile (e : Expression) := with_expected_type [] (compileExpressionInner e) in
  match e with
  | IntegerLiteral t text => compileIntegerLiteral t text c
  | DecimalLiteral t text =>
      match ParseDecimalLiteral RatSetString text with
      | None => Err (invalid_literal "decimal" text)
      | Some q => Ok (emitConstant (VDecimal q) t c)
      end
  | FloatLiteral t text =>
      match ParseFloat (strip_underscores (removelast text)) with
      | None => Err (invalid_literal "float" text)
      | Some f => Ok (emitConstant (VFloat f) t c)
      end
  | StringLiteral t _ value => Ok (emitConstant (VString value) t c)
  | BoolLiteral t b => Ok (emitConstant (VBool b) t c)
  | NullLiteral t => Ok (emitConstant VNull t c)
  | Identifier t name => compileIdentifier t name c
  | InfixExpression t op l r =>
      match op with
      | InfixIs | InfixIsNot =>
          let* c := compile l c in
          let* c := compile r c in
          Ok (emit_all (infix_opcodes op false false) t c)
      | InfixAnd => compileShortCircuit compile t true l r c
      | InfixOr => compileShortCircuit compile t false l r c
      | InfixCoalesce =>
          let expected := currentExpectedType c in
          let* c := with_expected_type expected (compileExpressionInner l) c in
          let '(endJump, c) := emitJump OpNullCoalesce t c in
          let* c := with_expected_type expected (compileExpressionInner r) c in
          Ok (patchJump endJump c)
      | _ => compileInfix compile t op l r c
      end
  | PrefixExpression t op r =>
      let operandExpected :=
        match op with
        | PrefixMinus => if IsIntegerLiteral e then currentExpectedType c else []
        | _ => []
        end in
      let* c := with_expected_type operandExpected (compileExpressionInner r) c in
      Ok (emitAt (prefix_opcode op) t [] c)
  | TernaryExpression t cond a b =>
      let* r := compileCondition compile cond t c in
      let '(jumpFalsePos, c) := r in
      let expected := currentExpectedType c in
      let* c := with_expected_type expected (compileExpressionInner a) c in
      let '(jumpPos, c) := emitJump OpJump t c in
      let c := patchJump jumpFalsePos c in
      let* c := with_expected_type expected (compileExpressionInner b) c in
      Ok (patchJump jumpPos c)
  end.

(** [c.compileExpressionWithExpected] and [c.compileExpression]. *)
Definition compileExpressionWithExpected (e : Expression) (expected : gostring)
    : Compiler -> result gostring Compiler :=
  with_expected_type expected (compileExpressionInner e).
Definition compileExpression (e : Expression) : Compiler -> result gostring Compiler :=
  compileExpressionWithExpected e [].
End Translation.
