(* ===== verification/Meaning.v ===== *)
(** * Meaning: what a scalar expression evaluates to

    A reference semantics for the expressions of Compile.v, on values whose
    integers have one representation: no folding, no specialised opcodes, no
    jumps.  The lemmas say that the VM's operations compute it whichever
    representation their operands have. *)

From S2P Require Import Prelude Float64 GoText Literal Value Ops Machine Arith Compare Slots.
From S2P Require Import Dispatch Compile.
#[local] Open Scope Z_scope.

(** ** Settled values

    [held] is a value as the stack gives it back, [widen] forgets whether an
    integer is small or big. *)

Definition held (v : Value) : Value := ToValue (VMValueFromValue v).
Definition widen (v : Value) : Value := match v with VSmallInt i => VInt i | _ => v end.
Definition settle (v : Value) : Value := widen (held v).
Definition settle_result (r : result VMError Value) : result VMError Value :=
  match r with Ok v => Ok (settle v) | Err e => Err e end.

(** The values whose operators run no code of other components. *)
Definition scalar (v : Value) : bool :=
  match v with
  | VNull | VBool _ | VInt _ | VDecimal _ | VFloat _ | VString _ => true
  | VSmallInt i => is_int64 i
  | _ => false
  end.

Section Meaning.
Context `{Externals}.
Variable ParseFloat : gostring -> option float64.
Variable typeAliasLookup : option (gostring -> gostring).

(** ** Operators *)

Definition numeric_value (op : Op) (l r : Value) : result VMError Value :=
  binaryNumericValues math_Pow FormatFloat_g RatSetString nativeBinary op l r.

Definition add_value (l r : Value) : result VMError Value :=
  match l, r with
  | VString a, VString b => Ok (VString (a ++ b))
  | VString _, _ =>
      Err (callPropagate (UnsupportedOperandsError (bs "+") (TypeName l) (TypeName r)))
  | _, _ => numeric_value OpAdd l r
  end.

Definition equal_value (l r : Value) : result VMError Value :=
  match deepEqual payloadEq instanceDeepEqual l r with
  | Ok b => Ok (VBool b)
  | Err e => Err (callPropagate e)
  end.
Definition not_value (v : Value) : result VMError Value :=
  match v with
  | VBool b => Ok (VBool (negb b))
  | _ => Err (Thrown (bs "TypeError") (bs "! expects bool, got " ++ TypeName v))
  end.
Definition compare_value (op : Op) (l r : Value) : result VMError Value :=
  match NumericCompare l r with
  | Ok cmp => Ok (VBool (compare_result op cmp))
  | Err e => Err (callPropagate e)
  end.
Definition xor_value (l r : Value) : result VMError Value :=
  match l, r with
  | VBool a, VBool b => Ok (VBool (negb (Bool.eqb a b)))
  | VBool _, _ => Err (Thrown (bs "TypeError") (bs "right operand must be bool"))
  | _, _ => Err (Thrown (bs "TypeError") (bs "left operand must be bool"))
  end.
Definition bitnot_value (v : Value) : result VMError Value :=
  match intToBigInt v with
  | Some z => Ok (int_value (Z.lnot z))
  | None => Err (Thrown (bs "TypeError") (bs "~ expects int, got " ++ TypeName v))
  end.

(** What an opcode on two operands, or on one, leaves. *)
Definition opcode2_value (op : Op) (l r : Value) : result VMError Value :=
  match op with
  | OpAdd => add_value l r
  | OpEqual => equal_value l r
  | OpLess | OpLessEqual | OpGreater | OpGreaterEqual => compare_value op l r
  | OpBoolXor => xor_value l r
  | OpBitAnd | OpBitOr | OpBitXor | OpLShift | OpRShift => bitwise_value op l r
  | _ => numeric_value op l r
  end.
Definition opcode1_value (op : Op) (v : Value) : result VMError Value :=
  match op with
  | OpNot => not_value v
  | OpNegate => negate_value nativeNegate v
  | _ => bitnot_value v
  end.

(** The product that the small-integer multiplication gets wrong. *)
Definition product_trap (op : Operator) (l r : Value) : bool :=
  match op, l, r with
  | InfixTimes, VInt a, VInt b => (a =? -1) && (b =? min_int64)
  | _, _, _ => false
  end.

(** An infix operator on settled operands; [None] leaves the membership and
    identity operators unspecified. *)
Definition infix_meaning (op : Operator) (l r : Value) : option (result VMError Value) :=
  match infix_opcodes op false false with
  | [OpContains] | [OpIdentical] | [OpIdentical; _] => None
  | [o] => Some (settle_result (opcode2_value o l r))
  | [o; o'] => Some (let* v := opcode2_value o l r in settle_result (opcode1_value o' v))
  | _ => None
  end.
(** The same, unspecified as well on the product above. *)
Definition infix_value (op : Operator) (l r : Value) : option (result VMError Value) :=
  if product_trap op l r then None else infix_meaning op l r.

(** ** Expressions *)

(** The compiler's names, the settled values of the variables, and the local
    slots that hold an uncaptured small integer. *)
Variable names : Compiler.
Variable env : gostring -> option Value.
Variable unboxed : Z -> bool.

Definition int_literal_value (expected : gostring) (z : Z) : Value :=
  let typ := TrimPrefix (fst (expandRecordedTypeAlias typeAliasLookup expected names)) (bs "?") in
  if decide (typ = bs "decimal") then VDecimal (IntToDecimal z)
  else if decide (typ = bs "float") then settle (VFloat (f64_of_Z z))
  else VInt z.

(** A remainder test on a local that the fused branch cannot read. *)
Definition branch_trap (cond : Expression) : bool :=
  match cond with
  | InfixExpression _ op l r =>
      match tryFuseModZeroBranch names op l r with
      | Some (slot, _, _) => negb (unboxed slot)
      | None => false
      end
  | _ => false
  end.

(** Continue with the value of an operand, or with its truth value. *)
Definition on_value (m : option (result VMError Value))
    (k : Value -> option (result VMError Value)) : option (result VMError Value) :=
  match m with
  | Some (Ok v) => k v
  | Some (Err e) => Some (Err e)
  | None => None
  end.
Definition on_condition (m : option (result VMError Value))
    (k : bool -> option (result VMError Value)) : option (result VMError Value) :=
  on_value m (fun v => match v with
                       | VBool b => k b
                       | _ => Some (Err (condition_error v))
                       end).

Fixpoint eval (expected : gostring) (e : Expression) : option (result VMError Value) :=
  match e with
  | IntegerLiteral _ text => (fun z => Ok (int_literal_value expected z)) <$> ParseIntLiteral text
  | DecimalLiteral _ text => (fun q => Ok (VDecimal q)) <$> ParseDecimalLiteral RatSetString text
  | FloatLiteral _ text =>
      (fun f => Ok (settle (VFloat f))) <$> ParseFloat (strip_underscores (removelast text))
  | StringLiteral _ _ s => Some (Ok (VString s))
  | BoolLiteral _ b => Some (Ok (VBool b))
  | NullLiteral _ => Some (Ok VNull)
  | Identifier _ name => Ok <$> env name
  | InfixExpression _ op l r =>
      match op with
      | InfixAnd =>
          on_condition (eval [] l) (fun a =>
            if a then on_condition (eval [] r) (fun b => Some (Ok (VBool b)))
            else Some (Ok (VBool false)))
      | InfixOr =>
          on_condition (eval [] l) (fun a =>
            if a then Some (Ok (VBool true))
            else on_condition (eval [] r) (fun b => Some (Ok (VBool b))))
      | InfixCoalesce =>
          on_value (eval expected l) (fun v => if IsNull v then eval expected r else Some (Ok v))
      | _ => on_value (eval [] l) (fun a => on_value (eval [] r) (infix_value op a))
      end
  | PrefixExpression _ op r =>
      let operandExpected :=
        match op with
        | PrefixMinus => if IsIntegerLiteral e then expected else []
        | _ => []
        end in
      on_value (eval operandExpected r) (fun v =>
        Some (settle_result (opcode1_value (prefix_opcode op) v)))
  | TernaryExpression _ cond a b =>
      if branch_trap cond then None
      else on_condition (eval [] cond) (fun t => if t then eval expected a else eval expected b)
  end.

(** The value an expression means, with nothing left out: [eval] is its
    restriction to the evaluations that meet neither of the two traps. *)
Fixpoint value_of (expected : gostring) (e : Expression) : option (result VMError Value) :=
  match e with
  | InfixExpression _ op l r =>
      match op with
      | InfixAnd =>
          on_condition (value_of [] l) (fun a =>
            if a then on_condition (value_of [] r) (fun b => Some (Ok (VBool b)))
            else Some (Ok (VBool false)))
      | InfixOr =>
          on_condition (value_of [] l) (fun a =>
            if a then Some (Ok (VBool true))
            else on_condition (value_of [] r) (fun b => Some (Ok (VBool b))))
      | InfixCoalesce =>
          on_value (value_of expected l) (fun v => if IsNull v then value_of expected r else Some (Ok v))
      | _ => on_value (value_of [] l) (fun a => on_value (value_of [] r) (infix_meaning op a))
      end
  | PrefixExpression _ op r =>
      let operandExpected :=
        match op with
        | PrefixMinus => if IsIntegerLiteral e then expected else []
        | _ => []
        end in
      on_value (value_of operandExpected r) (fun v =>
        Some (settle_result (opcode1_value (prefix_opcode op) v)))
  | TernaryExpression _ cond a b =>
      on_condition (value_of [] cond) (fun t => if t then value_of expected a else value_of expected b)
  | _ => eval expected e
  end.

(** The evaluation of the expression meets the product that the small-integer
    multiplication gets wrong, or a remainder test the fused branch rejects. *)
Definition holds (m : option (result VMError Value)) (P : Value -> bool) : bool :=
  match m with Some (Ok v) => P v | _ => false end.
Fixpoint trapped (expected : gostring) (e : Expression) : bool :=
  match e with
  | InfixExpression _ op l r =>
      match op with
      | InfixAnd =>
          trapped [] l || holds (value_of [] l) (fun v => match v with VBool true => trapped [] r | _ => false end)
      | InfixOr =>
          trapped [] l || holds (value_of [] l) (fun v => match v with VBool false => trapped [] r | _ => false end)
      | InfixCoalesce =>
          trapped expected l || holds (value_of expected l) (fun v => IsNull v && trapped expected r)
      | _ =>
          trapped [] l ||
          holds (value_of [] l) (fun a => trapped [] r || holds (value_of [] r) (product_trap op a))
      end
  | PrefixExpression _ op r =>
      trapped (match op with PrefixMinus => if IsIntegerLiteral e then expected else [] | _ => [] end) r
  | TernaryExpression _ cond a b =>
      branch_trap cond || trapped [] cond ||
      holds (value_of [] cond) (fun v =>
        match v with VBool true => trapped expected a | VBool false => trapped expected b | _ => false end)
  | _ => false
  end.

Lemma on_value_agree (m : option (result VMError Value)) (k h : Value -> option (result VMError Value)) :
  (forall v, m = Some (Ok v) -> k v = h v) -> on_value m k = on_value m h.
Proof. intros Hk. destruct m as [[v|]|]; [by apply Hk|done..]. Qed.
Lemma on_condition_agree (m : option (result VMError Value)) (k h : bool -> option (result VMError Value)) :
  (forall b, m = Some (Ok (VBool b)) -> k b = h b) -> on_condition m k = on_condition m h.
Proof. intros Hk. apply on_value_agree. intros v Hm. destruct v; try done. by apply Hk. Qed.

Lemma value_of_eval (e : Expression) : forall expected,
  trapped expected e = false -> eval expected e = value_of expected e.
Proof.
  induction e as [ | | | | | | |p op l IHl r IHr|p op r IHr|p c IHc a IHa b IHb]; intros expected Ht; try reflexivity.
  - cbn [eval value_of trapped] in *.
    assert (Hplain : trapped [] l || holds (value_of [] l) (fun a => trapped [] r || holds (value_of [] r) (product_trap op a)) = false ->
              on_value (eval [] l) (fun a => on_value (eval [] r) (infix_value op a)) =
              on_value (value_of [] l) (fun a => on_value (value_of [] r) (infix_meaning op a))).
    { intros Hall. apply orb_false_iff in Hall as [Hl Hr]. rewrite IHl by done. apply on_value_agree. intros v Hv.
      rewrite Hv in Hr. cbn [holds] in Hr. apply orb_false_iff in Hr as [Hr Hp]. rewrite IHr by done.
      apply on_value_agree. intros w Hw. rewrite Hw in Hp. unfold infix_value. cbn [holds] in Hp. by rewrite Hp. }
    destruct op; try by apply Hplain. all: apply orb_false_iff in Ht as [Hl Hr]; rewrite IHl by done.
    1,2: apply on_condition_agree; intros b Hb; rewrite Hb in Hr; cbn [holds] in Hr; destruct b; try done;
      by rewrite IHr.
    apply on_value_agree. intros v Hv. rewrite Hv in Hr. cbn [holds] in Hr. destruct (IsNull v); [by apply IHr|done].
  - cbn [eval value_of trapped] in *. by rewrite IHr.
  - cbn [eval value_of trapped] in *. apply orb_false_iff in Ht as [Ht Hbr]. apply orb_false_iff in Ht as [Htrap Hc].
    rewrite Htrap, IHc by done. apply on_condition_agree. intros t Hv. rewrite Hv in Hbr. cbn [holds] in Hbr.
    destruct t; [by apply IHa|by apply IHb].
Qed.
End Meaning.

(** ** Representation independence *)

Lemma held_scalar (v : Value) : scalar v = true -> scalar (held v) = true.
Proof. intros Hv. destruct v; try done. by destruct b. Qed.

Lemma held_plain (v : Value) : (forall f, v <> VFloat f) -> held v = v.
Proof. intros Hf. destruct v; try done; [by destruct b|by destruct (Hf f)]. Qed.

Lemma TypeName_widen (v : Value) : TypeName (widen v) = TypeName v.
Proof. by destruct v. Qed.
Lemma intToBigInt_widen (v : Value) : intToBigInt (widen v) = intToBigInt v.
Proof. by destruct v. Qed.
Lemma IsNull_widen (v : Value) : IsNull (widen v) = IsNull v.
Proof. by destruct v. Qed.

Section Agreement.
Context `{Externals}.

(** The small-integer operators and the big ones compute the same integer. *)
Lemma small_big_agree (op : Op) (l r : Z) :
  is_int64 l = true -> is_int64 r = true ->
  ~ (op = OpMul /\ l = -1 /\ r = min_int64) ->
  settle_result (smallIntBinary math_Pow FormatFloat_g RatSetString op l r)
  = settle_result (intBinary math_Pow FormatFloat_g RatSetString op l r).
Proof.
  intros Hl Hr Hne. destruct op; try reflexivity; cbn [smallIntBinary intBinary].
  - rewrite add_overflow_spec by done. destruct (is_int64 (l + r)) eqn:E; [|done].
    cbn [negb]. by rewrite wrap64_id.
  - rewrite sub_overflow_spec by done. destruct (is_int64 (l - r)) eqn:E; [|done].
    cbn [negb]. by rewrite wrap64_id.
  - rewrite mul_overflow_spec by naive_solver. destruct (is_int64 (l * r)) eqn:E; [|done].
    cbn [negb]. by rewrite wrap64_id.
  - destruct (Z.eqb_spec r 0) as [->|Hr0]; [done|].
    rewrite (proj2 (Z.eqb_neq (Z.sgn r) 0)) by lia.
    rewrite intFloorDivMod_spec by done. cbn [fst].
    destruct ((l =? min_int64) && (r =? -1)) eqn:E.
    + apply andb_prop in E as [->%Z.eqb_eq ->%Z.eqb_eq]. done.
    + pose proof (small_div_spec l r Hl Hr Hr0) as Hs. cbv zeta in Hs.
      rewrite <- Hs; [cbv zeta; by destruct (negb _ && _)|].
      intros [= -> ->]. by rewrite !Z.eqb_refl in E.
  - destruct (Z.eqb_spec r 0) as [->|Hr0]; [done|].
    rewrite (proj2 (Z.eqb_neq (Z.sgn r) 0)) by lia.
    rewrite intFloorDivMod_spec by done. cbn [snd].
    pose proof (small_mod_spec l r Hl Hr Hr0) as Hs. cbv zeta in Hs.
    rewrite <- Hs. cbv zeta. by destruct (negb _ && _).
  - rewrite Hr. cbn [negb orb].
    destruct (Z.ltb_spec r 0), (Z.ltb_spec (Z.sgn r) 0); try lia; try done.
    by destruct (is_int64 (l ^ r)).
Qed.

Ltac scalar_cases v :=
  destruct v; try discriminate.

(** An arithmetic opcode does not see how an integer is represented. *)
Lemma numeric_agree (op : Op) (l r : Value) :
  scalar l = true -> scalar r = true ->
  ~ (op = OpMul /\ widen l = VInt (-1) /\ widen r = VInt min_int64) ->
  settle_result (numeric_value op l r) = settle_result (numeric_value op (widen l) (widen r)).
Proof.
  intros Hl Hr Hne. unfold numeric_value.
  scalar_cases l; scalar_cases r; try reflexivity.
  cbn [binaryNumericValues widen]. apply small_big_agree; [done..|].
  intros (->&->&->). by apply Hne.
Qed.

Definition scalar_result (r : result VMError Value) : Prop :=
  forall v, r = Ok v -> scalar v = true.

Lemma small_result (ov : bool) (z z' : Z) :
  is_int64 z' = true -> scalar_result (Ok (if ov then VInt z else VSmallInt z')).
Proof. intros Hz v [= <-]. by destruct ov. Qed.

Lemma decimal_scalar (op : Op) (l r : QArith_base.Q) :
  scalar_result (decimalBinary math_Pow FormatFloat_g RatSetString op l r).
Proof.
  intros v. unfold decimalBinary.
  destruct op; try discriminate; repeat case_match; intros [= <-]; done.
Qed.

Lemma smallIntBinary_scalar (op : Op) (l r : Z) :
  is_int64 l = true -> is_int64 r = true ->
  scalar_result (smallIntBinary math_Pow FormatFloat_g RatSetString op l r).
Proof.
  intros Hl Hr. destruct op; try (by intros ? [=]); cbn [smallIntBinary];
    try (apply small_result, wrap64_range); try apply decimal_scalar.
  - case_match; [by intros ? [=]|]. case_match; [by intros ? [= <-]|].
    intros v. case_match; intros [= <-]; [apply wrap64_range|apply wrap64_range].
  - case_match; [by intros ? [=]|]. intros v. case_match; intros [= <-]; apply wrap64_range.
  - case_match; [by intros ? [=]|]. intros v. cbv zeta. case_match; intros [= <-]; done.
Qed.

Lemma intBinary_scalar (op : Op) (l r : Z) :
  scalar_result (intBinary math_Pow FormatFloat_g RatSetString op l r).
Proof.
  destruct op; try (by intros ? [=]); cbn [intBinary]; try (by intros ? [= <-]);
    try apply decimal_scalar; case_match; try (by intros ? [=]); by intros ? [= <-].
Qed.

Lemma float_scalar (op : Op) (l r : float64) : scalar_result (floatBinary math_Pow op l r).
Proof.
  intros v. unfold floatBinary. destruct op; try discriminate; repeat case_match; by intros [= <-].
Qed.

Lemma numeric_scalar (op : Op) (l r : Value) :
  scalar l = true -> scalar r = true -> scalar_result (numeric_value op l r).
Proof.
  intros Hl Hr. unfold numeric_value.
  scalar_cases l; scalar_cases r; try (by intros ? [=]); cbn [binaryNumericValues];
    first [by apply smallIntBinary_scalar|apply intBinary_scalar|apply decimal_scalar|apply float_scalar].
Qed.

(** ** The same for comparisons, equality and bits *)

Lemma compare_widen (l r : Value) :
  scalar l = true -> scalar r = true -> NumericCompare (widen l) (widen r) = NumericCompare l r.
Proof.
  intros Hl Hr. scalar_cases l; scalar_cases r; try reflexivity; simpl in Hl, Hr;
    unfold NumericCompare, numericCompareIntFast, widen; rewrite ?cmp_to_Z_compare; try done.
  - destruct (is_int64 i0) eqn:E; [done|]. by rewrite compare_by_sign.
  - destruct (is_int64 i) eqn:E; [done|]. rewrite compareInt64_antisym.
    by rewrite compare_by_sign, Z.opp_involutive.
Qed.

Lemma equal_widen (l r : Value) :
  scalar l = true -> scalar r = true ->
  deepEqual payloadEq instanceDeepEqual (widen l) (widen r)
  = deepEqual payloadEq instanceDeepEqual l r.
Proof. intros Hl Hr. scalar_cases l; scalar_cases r; reflexivity. Qed.

Lemma bitwise_agree (op : Op) (l r : Value) :
  scalar l = true -> scalar r = true ->
  settle_result (bitwise_value op l r) = settle_result (bitwise_value op (widen l) (widen r)).
Proof. intros Hl Hr. unfold bitwise_value. by rewrite !intToBigInt_widen, !TypeName_widen. Qed.

Lemma int_value_scalar (z : Z) : scalar (int_value z) = true.
Proof. unfold int_value. by destruct (is_int64 z) eqn:E. Qed.

Lemma bitwise_scalar (op : Op) (l r : Value) : scalar_result (bitwise_value op l r).
Proof.
  intros v. unfold bitwise_value. destruct (intToBigInt l), (intToBigInt r); try discriminate.
  destruct op; try discriminate; try case_match; try discriminate;
    intros [= <-]; apply int_value_scalar.
Qed.

Lemma opcode2_agree (op : Op) (l r : Value) :
  scalar l = true -> scalar r = true ->
  ~ (op = OpMul /\ widen l = VInt (-1) /\ widen r = VInt min_int64) ->
  settle_result (opcode2_value op l r) = settle_result (opcode2_value op (widen l) (widen r)).
Proof.
  intros Hl Hr Hne.
  destruct op; try (by apply numeric_agree); cbn [opcode2_value];
    try (by apply bitwise_agree); unfold compare_value, equal_value;
    rewrite ?compare_widen, ?equal_widen by done; try done.
  - assert (Hn := numeric_agree OpAdd l r Hl Hr ltac:(by intros [??])).
    scalar_cases l; try exact Hn; scalar_cases r; done.
  - unfold xor_value. by scalar_cases l; scalar_cases r.
Qed.

Lemma opcode2_scalar (op : Op) (l r : Value) :
  scalar l = true -> scalar r = true -> scalar_result (opcode2_value op l r).
Proof.
  intros Hl Hr.
  destruct op; try (by apply numeric_scalar); cbn [opcode2_value]; try apply bitwise_scalar;
    unfold compare_value, equal_value; try (case_match; by intros ? [= <-]).
  - pose proof (numeric_scalar OpAdd l r Hl Hr) as Hn.
    scalar_cases l; try exact Hn; scalar_cases r; intros ? [=]; subst; try done.
  - unfold xor_value. scalar_cases l; scalar_cases r; intros ? [= <-]; done.
Qed.

Lemma opcode1_agree (op : Op) (v : Value) :
  scalar v = true ->
  settle_result (opcode1_value op v) = settle_result (opcode1_value op (widen v)).
Proof.
  intros Hv. destruct op; cbn [opcode1_value]; unfold bitnot_value;
    rewrite ?intToBigInt_widen, ?TypeName_widen; try done; scalar_cases v; try done.
  cbn [negate_value widen]. destruct (i =? min_int64) eqn:E; [done|].
  simpl in Hv. rewrite wrap64_id; [done|]. apply Z.eqb_neq in E. int64_range. apply is_int64_iff.
  unfold min_int64 in E. lia.
Qed.

Lemma opcode1_scalar (op : Op) (v : Value) :
  scalar v = true -> scalar_result (opcode1_value op v).
Proof.
  intros Hv. destruct op; cbn [opcode1_value]; unfold bitnot_value;
    try (case_match; intros ? [= <-]; first [apply int_value_scalar|done]);
    scalar_cases v; intros ? [= <-]; try done.
  case_match; [done|]. apply wrap64_range.
Qed.
End Agreement.
