(* ===== verification/Runs.v ===== *)
(** * Runs: what instructions leave on the stack

    The facts about the VM that the compiler's correctness rests on: each
    opcode leaves the value of its operator (Meaning.v), reading a variable
    keeps every variable, and runs of the dispatch loop compose. *)

From S2P Require Import Prelude Float64 GoText Literal Value Ops Machine Arith Compare Slots.
From S2P Require Import Dispatch Compile Meaning.
#[local] Open Scope Z_scope.

(** ** Values on the stack *)

Definition repr (w : VMValue) (v : Value) : Prop :=
  exists u, w = VMValueFromValue u /\ scalar u = true /\ v = settle u.

Lemma repr_intro (u : Value) : scalar u = true -> repr (VMValueFromValue u) (settle u).
Proof. intros Hu. by exists u. Qed.

(** The outcome of an operation that replaces its operands by its result. *)
Definition finishes (m : vmM unit) (vm : VM) (s : list VMValue) (r : result VMError Value) : Prop :=
  match r with
  | Ok v => exists w, m vm = (set_stack (w :: s) vm, Ok tt) /\ repr w v
  | Err e => exists vm', m vm = (vm', Err e)
  end.

(** It pushes a result, or fails with its error. *)
Definition pushes (m : vmM unit) (vm : VM) (s : list VMValue) (p : result VMError Value) : Prop :=
  match p with
  | Ok v => m vm = (set_stack (VMValueFromValue v :: s) vm, Ok tt)
  | Err e => snd (m vm) = Err e
  end.

Lemma pushes_result (m : vmM unit) (vm : VM) (s : list VMValue) (p : result VMError Value) :
  m vm = push_result p (set_stack s vm) -> pushes m vm s p.
Proof. destruct p; simpl; intros ->; done. Qed.

Lemma pushes_finishes (m : vmM unit) (vm : VM) (s : list VMValue) (p r : result VMError Value) :
  pushes m vm s p -> scalar_result p -> settle_result p = r -> finishes m vm s r.
Proof.
  intros Hm Hp <-. destruct p as [v|e]; simpl in *.
  - exists (VMValueFromValue v). split; [done|]. by apply repr_intro, Hp.
  - destruct (m vm) as [vm' ?]. exists vm'. simpl in Hm. by subst.
Qed.

Ltac scalar_cases v :=
  destruct v; try discriminate; try match goal with b : bool |- _ => destruct b end.

Section Opcodes.
Context `{Externals}.

(** Two operands popped, one result pushed; and one operand. *)
Definition pushes2 (m : vmM unit) (f : Value -> Value -> result VMError Value) : Prop :=
  forall vm s l r, scalar l = true -> scalar r = true ->
    stack vm = VMValueFromValue r :: VMValueFromValue l :: s ->
    pushes m vm s (f (held l) (held r)).
Definition pushes1 (m : vmM unit) (f : Value -> result VMError Value) : Prop :=
  forall vm s v, scalar v = true -> stack vm = VMValueFromValue v :: s ->
    pushes m vm s (f (held v)).

Lemma small_kind_inv (v : Value) :
  scalar v = true -> Kind (VMValueFromValue v) = VMKindSmallInt -> exists i, v = VSmallInt i.
Proof. intros Hv Hk. scalar_cases v; try discriminate; eauto. Qed.

Lemma float_kind_inv (v : Value) :
  scalar v = true -> Kind (VMValueFromValue v) = VMKindFloat -> exists f, v = VFloat f.
Proof. intros Hv Hk. scalar_cases v; try discriminate; eauto. Qed.

Lemma scalar_plain (v : Value) : scalar v = true ->
  is_instance v = false /\ is_native_operand v = false /\
  (forall op a, callOperatorMethod instanceOperator op v a = None).
Proof. intros Hv. by destruct v. Qed.

Lemma vm_binary_pushes (op : Op) : pushes2 (vm_binary op) (numeric_value op).
Proof.
  intros vm s l r Hl Hr Hs. apply pushes_result.
  unfold vm_binary, binaryNumeric, bind, propagate, popVM. rewrite Hs. cbn [stack set_stack].
  case_decide as Hk.
  { destruct Hk as [[i ->]%(small_kind_inv _ Hl) [j ->]%(small_kind_inv _ Hr)]. reflexivity. }
  case_decide as Hf.
  { destruct Hf as [[i ->]%(float_kind_inv _ Hl) [j ->]%(float_kind_inv _ Hr)]. reflexivity. }
  destruct (scalar_plain _ (held_scalar _ Hl)) as (_&_&C). fold (held l) (held r). by rewrite C.
Qed.

Lemma small_add_push (l r : Z) (vm : VM) :
  (let result := wrap64 (l + r) in
   if 0 <=? Z.land (Z.lxor l result) (Z.lxor r result)
   then pushVM (VMValueSmallInt result)
   else pushVM (mkVM VMKindBoxed 0 (Some (VInt (l + r))))) vm
  = push_result (numeric_value OpAdd (VSmallInt l) (VSmallInt r)) vm.
Proof.
  unfold numeric_value. cbn [binaryNumericValues smallIntBinary]. cbv zeta.
  unfold add_overflow. cbv zeta. rewrite Z.leb_antisym. by destruct (_ <? 0).
Qed.

Lemma vm_add_pushes : pushes2 vm_add add_value.
Proof.
  intros vm s l r Hl Hr Hs. apply pushes_result.
  unfold vm_add, add, bind, propagate, popVM. rewrite Hs. cbn [stack set_stack].
  case_decide as Hk.
  { destruct Hk as [[i ->]%(small_kind_inv _ Hl) [j ->]%(small_kind_inv _ Hr)]. apply small_add_push. }
  case_decide as Hf.
  { destruct Hf as [[i ->]%(float_kind_inv _ Hl) [j ->]%(float_kind_inv _ Hr)]. reflexivity. }
  fold (held l) (held r). apply held_scalar in Hl, Hr.
  destruct (scalar_plain _ Hl) as (_&_&C). rewrite C. unfold add_value.
  destruct (held l); try reflexivity; destruct (held r); reflexivity.
Qed.

Lemma fused_small (op : Op) (i j : Z) :
  op ∈ [OpAddInt; OpSubInt; OpMulInt; OpModInt] ->
  match numeric_value (genericOp op) (VSmallInt i) (VSmallInt j) with
  | Ok v => fusedSmallInt op i j = Ok (VMValueFromValue v)
  | Err e => fusedSmallInt op i j = Err e
  end.
Proof.
  intros Hop. destruct_members Hop; unfold numeric_value;
    cbn [genericOp binaryNumericValues smallIntBinary fusedSmallInt].
  - by destruct (add_overflow i j).
  - by destruct (sub_overflow i j).
  - by destruct (mul_overflow i j).
  - destruct (j =? 0); [done|]. cbv zeta. by destruct (negb _ && _).
Qed.

Lemma vm_fused_pushes (op : Op) :
  op ∈ [OpAddInt; OpSubInt; OpMulInt; OpModInt] ->
  pushes2 (vm_fused op) (numeric_value (genericOp op)).
Proof.
  intros Hop vm s l r Hl Hr Hs.
  assert (Hsmall := fun i j => fused_small op i j Hop).
  scalar_cases l; scalar_cases r;
    try (apply pushes_result; unfold vm_fused, fusedIntBinary; rewrite Hs; reflexivity).
  change (held (VSmallInt i)) with (VSmallInt i). change (held (VSmallInt i0)) with (VSmallInt i0).
  specialize (Hsmall i i0). unfold pushes, vm_fused, fusedIntBinary. rewrite Hs.
  cbn [VMValueFromValue Kind I64]. rewrite decide_True by done.
  destruct (numeric_value (genericOp op) (VSmallInt i) (VSmallInt i0)); by rewrite Hsmall.
Qed.

Lemma pop2 {A : Type} (k : Value -> Value -> vmM A) (vm : VM) (s : list VMValue) (l r : Value) :
  stack vm = VMValueFromValue r :: VMValueFromValue l :: s ->
  (do rhs <- propagate pop; do lhs <- propagate pop; k lhs rhs) vm
  = k (held l) (held r) (set_stack s vm).
Proof. intros Hs. unfold bind at 1, propagate at 1, pop at 1, bind at 1, popVM. by rewrite Hs. Qed.

Lemma pop1 {A : Type} (k : Value -> vmM A) (vm : VM) (s : list VMValue) (v : Value) :
  stack vm = VMValueFromValue v :: s ->
  (do x <- propagate pop; k x) vm = k (held v) (set_stack s vm).
Proof. intros Hs. unfold bind at 1, propagate, pop, bind, popVM. by rewrite Hs. Qed.

Lemma vm_compare_pushes (op : Op) :
  op ∈ [OpLess; OpLessEqual; OpGreater; OpGreaterEqual] ->
  pushes2 (vm_compare op) (compare_value op).
Proof.
  intros Hop vm s l r Hl Hr Hs. apply pushes_result.
  apply held_scalar in Hl as (Il&Nl&_)%scalar_plain, Hr as (Ir&Nr&_)%scalar_plain.
  etransitivity; [apply (pop2 _ vm s l r Hs)|]. cbv beta.
  rewrite decide_True by (by destruct_members Hop; set_solver).
  rewrite Il, Ir. unfold BinaryOperatorValue. rewrite Nl, Nr. cbn [orb].
  unfold compare_value. by destruct (NumericCompare _ _).
Qed.

Lemma vm_equal_pushes : pushes2 vm_equal equal_value.
Proof.
  intros vm s l r Hl Hr Hs. apply pushes_result.
  apply held_scalar in Hl, Hr. etransitivity; [apply (pop2 _ vm s l r Hs)|]. cbv beta.
  unfold equal_value. destruct (scalar_plain _ Hl) as (Il&_). rewrite Il.
  destruct (IsNull (held l) || IsNull (held r)) eqn:E.
  - destruct (held l); try discriminate; by destruct (held r).
  - by destruct (deepEqual _ _ _ _).
Qed.

Lemma vm_bitwise_pushes (op : Op) : pushes2 (bitwiseInfix instanceOperator op) (bitwise_value op).
Proof.
  intros vm s l r Hl Hr Hs. apply pushes_result.
  apply held_scalar in Hl as (_&_&Cl)%scalar_plain.
  etransitivity; [apply (pop2 _ vm s l r Hs)|]. cbv beta. by rewrite Cl.
Qed.

Lemma vm_xor_pushes : pushes2 boolXor xor_value.
Proof.
  intros vm s l r Hl Hr Hs. apply pushes_result.
  etransitivity; [apply (pop2 _ vm s l r Hs)|]. cbv beta.
  apply held_scalar in Hl, Hr. destruct (held l); try discriminate; try done.
  by destruct (held r).
Qed.

(** The fast path of a fused comparison decides what the generic opcode
    does. *)
Lemma compare_small_value (op : Op) (i j : Z) :
  op ∈ [OpLessInt; OpLessEqualInt; OpGreaterInt; OpGreaterEqualInt; OpEqualInt] ->
  opcode2_value (generic_compare op) (VSmallInt i) (VSmallInt j)
  = Ok (VBool (compare_small op i j)).
Proof.
  intros Hop. destruct_members Hop; cbn [generic_compare opcode2_value compare_small];
    unfold compare_value, equal_value; cbn [NumericCompare]; unfold compareInt64.
  1-4: destruct (Z.ltb_spec i j), (Z.ltb_spec j i), (Z.leb_spec i j), (Z.leb_spec j i);
    try lia; reflexivity.
  cbn. unfold NumericValuesEqual. cbn. rewrite Qcompare_inject.
  destruct (Z.compare_spec i j), (Z.eqb_spec i j); try lia; reflexivity.
Qed.

Lemma generic_compare_pushes (op : Op) :
  op ∈ [OpLessInt; OpLessEqualInt; OpGreaterInt; OpGreaterEqualInt; OpEqualInt] ->
  pushes2 (if decide (op = OpEqualInt) then vm_equal else vm_compare (generic_compare op))
    (opcode2_value (generic_compare op)).
Proof.
  intros Hop. destruct_members Hop;
    first [rewrite decide_True by done; exact vm_equal_pushes
          |rewrite decide_False by done; apply vm_compare_pushes; set_solver].
Qed.

Lemma vm_compareInt_pushes (op : Op) :
  op ∈ [OpLessInt; OpLessEqualInt; OpGreaterInt; OpGreaterEqualInt; OpEqualInt] ->
  pushes2 (execCompareInt op) (opcode2_value (generic_compare op)).
Proof.
  intros Hop vm s l r Hl Hr Hs.
  destruct (decide (Kind (VMValueFromValue l) = VMKindSmallInt /\
                    Kind (VMValueFromValue r) = VMKindSmallInt)) as [Hk|Hk].
  - destruct Hk as [[i ->]%(small_kind_inv _ Hl) [j ->]%(small_kind_inv _ Hr)].
    change (held (VSmallInt i)) with (VSmallInt i). change (held (VSmallInt j)) with (VSmallInt j).
    rewrite compare_small_value by done. unfold pushes, execCompareInt. by rewrite Hs.
  - assert (He : execCompareInt op vm
                 = (if decide (op = OpEqualInt) then vm_equal else vm_compare (generic_compare op)) vm).
    { unfold execCompareInt. rewrite Hs, decide_False by done. by case_decide. }
    pose proof (generic_compare_pushes op Hop vm s l r Hl Hr Hs) as Hp.
    unfold pushes in *. by rewrite He.
Qed.

Lemma vm_addString_pushes : pushes2 execAddString add_value.
Proof.
  intros vm s l r Hl Hr Hs. pose proof (vm_add_pushes vm s l r Hl Hr Hs) as Ha.
  unfold pushes, execAddString in *. rewrite Hs.
  scalar_cases l; try exact Ha; scalar_cases r; try exact Ha. done.
Qed.

Lemma vm_not_pushes : pushes1 (not instanceOperator) not_value.
Proof.
  intros vm s v Hv Hs. apply pushes_result.
  apply held_scalar in Hv. destruct (scalar_plain _ Hv) as (_&_&C).
  etransitivity; [apply (pop1 _ vm s v Hs)|]. cbv beta. rewrite C. by destruct (held v).
Qed.

Lemma vm_negate_pushes : pushes1 (negate nativeNegate instanceOperator) (negate_value nativeNegate).
Proof.
  intros vm s v Hv Hs. apply pushes_result.
  apply held_scalar in Hv. destruct (scalar_plain _ Hv) as (_&_&C).
  etransitivity; [apply (pop1 _ vm s v Hs)|]. cbv beta. by rewrite C.
Qed.

Lemma vm_bitnot_pushes : pushes1 (bitwiseNot instanceOperator) bitnot_value.
Proof.
  intros vm s v Hv Hs. apply pushes_result.
  apply held_scalar in Hv. destruct (scalar_plain _ Hv) as (_&_&C).
  etransitivity; [apply (pop1 _ vm s v Hs)|]. cbv beta. rewrite C.
  unfold bitnot_value. by destruct (intToBigInt (held v)).
Qed.
End Opcodes.

(** ** Variables

    Reading a variable may replace a string under construction by the string,
    and changes nothing else. *)

Definition slot_kept (vm : VM) (a b : Slot) : Prop :=
  b = a \/ exists p, a = SAcc p /\ b = SVal (Materialize vm p).
Definition gslot_kept (vm : VM) (a b : GSlot) : Prop :=
  b = a \/ exists p, a = GAcc p /\ b = GVal (Materialize vm p).

Record preserves (vm vm' : VM) : Prop := {
  kept_frame : currentFrameBP vm' = currentFrameBP vm;
  kept_cells : cells vm' = cells vm;
  kept_accs : accs vm' = accs vm;
  kept_locals : Forall2 (slot_kept vm) (localsStack vm) (localsStack vm');
  kept_globals : Forall2 (gslot_kept vm) (globals vm) (globals vm') }.

#[local] Instance slot_kept_refl vm : Reflexive (slot_kept vm).
Proof. intros a. by left. Qed.
#[local] Instance gslot_kept_refl vm : Reflexive (gslot_kept vm).
Proof. intros a. by left. Qed.

Lemma preserves_stack (vm : VM) (s : list VMValue) : preserves vm (set_stack s vm).
Proof. split; done. Qed.

Lemma preserves_refl (vm : VM) : preserves vm vm.
Proof. split; done. Qed.

Lemma Forall2_zlookup {A B : Type} (R : A -> B -> Prop) (l : list A) (k : list B) (i : Z) (a : A) :
  Forall2 R l k -> zlookup l i = Some a -> exists b, zlookup k i = Some b /\ R a b.
Proof. unfold zlookup. destruct (i <? 0); [done|]. apply Forall2_lookup_l. Qed.

Lemma Forall2_compose {A B C : Type} (P : A -> B -> Prop) (Q : B -> C -> Prop) (R : A -> C -> Prop)
    (l : list A) (k : list B) (m : list C) :
  (forall x y z, P x y -> Q y z -> R x z) -> Forall2 P l k -> Forall2 Q k m -> Forall2 R l m.
Proof.
  intros HR Hl. revert m. induction Hl; intros m Hm; inversion Hm; subst; constructor; eauto.
Qed.

Lemma preserves_trans (vm1 vm2 vm3 : VM) :
  preserves vm1 vm2 -> preserves vm2 vm3 -> preserves vm1 vm3.
Proof.
  intros [F1 C1 A1 L1 G1] [F2 C2 A2 L2 G2]. split; [congruence..| |].
  - eapply Forall2_compose; [|exact L1|exact L2]. unfold slot_kept, Materialize.
    rewrite A1. intros x y z [->|(p&->&->)] [->|(q&E&->)]; try discriminate; eauto 6.
  - eapply Forall2_compose; [|exact G1|exact G2]. unfold gslot_kept, Materialize.
    rewrite A1. intros x y z [->|(p&->&->)] [->|(q&E&->)]; try discriminate; eauto 6.
Qed.

Definition slot_holds (vm : VM) (s : Slot) (v : Value) : Prop :=
  match s with
  | SVal w => repr w v
  | SCell p => exists u, cells vm !! p = Some (Some u) /\ repr (VMValueFromValue u) v
  | SAcc p => v = VString (default [] (accs vm !! p))
  end.
Definition gslot_holds (vm : VM) (s : GSlot) (v : Value) : Prop :=
  match s with
  | GVal w => repr w v
  | GAcc p => v = VString (default [] (accs vm !! p))
  end.

(** The variable that a binding names has the value [v]. *)
Definition reads (vm : VM) (b : binding) (v : Value) : Prop :=
  if bind_local b then
    exists s, zlookup (localsStack vm) (local_index (bind_slot b) vm) = Some s /\ slot_holds vm s v
  else exists s, zlookup (globals vm) (bind_slot b) = Some s /\ gslot_holds vm s v.

Lemma Materialize_repr (vm : VM) (p : Z) :
  repr (Materialize vm p) (VString (default [] (accs vm !! p))).
Proof. by apply (repr_intro (VString _)). Qed.

Lemma reads_preserved (vm vm' : VM) (b : binding) (v : Value) :
  preserves vm vm' -> reads vm b v -> reads vm' b v.
Proof.
  intros [F C A L G]. unfold reads, local_index. rewrite F. destruct (bind_local b).
  - intros (s&Hs&Hv). destruct (Forall2_zlookup _ _ _ _ _ L Hs) as (s'&Hs'&[->|(p&->&->)]).
    + exists s. split; [done|]. unfold slot_holds. by rewrite C, A.
    + exists (SVal (Materialize vm p)). split; [done|]. simpl in Hv. subst. apply Materialize_repr.
  - intros (s&Hs&Hv). destruct (Forall2_zlookup _ _ _ _ _ G Hs) as (s'&Hs'&[->|(p&->&->)]).
    + exists s. split; [done|]. unfold gslot_holds. by rewrite A.
    + exists (GVal (Materialize vm p)). split; [done|]. simpl in Hv. subst. apply Materialize_repr.
Qed.

Lemma zlookup_bound {A : Type} (l : list A) (i : Z) (a : A) :
  zlookup l i = Some a -> 0 <= i < zlen l.
Proof.
  unfold zlookup, zlen. destruct (Z.ltb_spec i 0); [done|]. intros ?%lookup_lt_Some. lia.
Qed.

Lemma repr_kind (w : VMValue) (v : Value) : repr w v -> Kind w <> VMKindUnset.
Proof. intros (u&->&Hu&_). by scalar_cases u. Qed.

(** A read pushes the value and keeps every variable. *)
Definition reads_push (m : vmM unit) (vm : VM) (v : Value) : Prop :=
  exists w vm', m vm = (vm', Ok tt) /\ stack vm' = w :: stack vm /\ repr w v /\ preserves vm vm'.

Lemma zinsert_kept (vm : VM) (i p : Z) :
  zlookup (localsStack vm) i = Some (SAcc p) ->
  Forall2 (slot_kept vm) (localsStack vm) (zinsert i (SVal (Materialize vm p)) (localsStack vm)).
Proof.
  unfold zlookup, zinsert. destruct (i <? 0); [done|]. intros Hi.
  rewrite <- (list_insert_id (localsStack vm) _ _ Hi) at 1.
  apply Forall2_insert; [done|]. right. eauto.
Qed.
Lemma zinsert_gkept (vm : VM) (i p : Z) :
  zlookup (globals vm) i = Some (GAcc p) ->
  Forall2 (gslot_kept vm) (globals vm) (zinsert i (GVal (Materialize vm p)) (globals vm)).
Proof.
  unfold zlookup, zinsert. destruct (i <? 0); [done|]. intros Hi.
  rewrite <- (list_insert_id (globals vm) _ _ Hi) at 1.
  apply Forall2_insert; [done|]. right. eauto.
Qed.

Lemma execGetLocal_reads (vm : VM) (slot : Z) (t : gostring) (v : Value) :
  reads vm (mkBinding true slot t) v -> reads_push (execGetLocal slot) vm v.
Proof.
  intros (s&Hs&Hv). simpl in Hs. pose proof (zlookup_bound _ _ _ Hs) as Hb.
  assert (Hg : grow_local slot vm = (vm, Ok tt)).
  { unfold grow_local, bind, get. rewrite (proj2 (Z.leb_gt _ _)) by lia. done. }
  unfold reads_push, execGetLocal, bind, get.
  rewrite (proj2 (Z.ltb_lt _ _)) by lia. unfold at_index at 1. rewrite Hs. cbn [ret].
  assert (Hread : forall w, (match s with
                  | SVal v => if decide (Kind v = VMKindUnset) then fail (Plain (bs "local is undefined")) else ret v
                  | SCell p => match cells vm !! p with
                               | Some (Some v) => ret (VMValueFromValue v)
                               | _ => fail (Plain (bs "local is undefined")) end
                  | SAcc p => do_ write_local slot (SVal (Materialize vm p)); ret (Materialize vm p)
                  end) vm = w -> getLocalVM slot vm = w).
  { intros w <-. unfold getLocalVM, bind. rewrite Hg. cbn [get]. unfold at_index. by rewrite Hs. }
  destruct s as [w|p|p]; simpl in Hv.
  - rewrite decide_False in Hread by (by eapply repr_kind).
    exists w, (set_stack (w :: stack vm) vm).
    split_and!; [|done|done|apply preserves_stack].
    case_decide; [done|]. unfold reframe. by rewrite (Hread _ eq_refl).
  - destruct Hv as (u&Hu&Hv). rewrite Hu in Hread.
    exists (VMValueFromValue u), (set_stack (VMValueFromValue u :: stack vm) vm).
    split_and!; [|done|done|apply preserves_stack].
    unfold reframe. by rewrite (Hread _ eq_refl).
  - subst v. set (vm1 := set_locals (zinsert (local_index slot vm) (SVal (Materialize vm p)) (localsStack vm)) vm).
    exists (Materialize vm p), (set_stack (Materialize vm p :: stack vm) vm1).
    split_and!; [|done|apply Materialize_repr|].
    + unfold reframe. rewrite (Hread (vm1, Ok (Materialize vm p))); [done|].
      unfold write_local, bind, get, at_index. by rewrite Hs.
    + split; try done. by apply zinsert_kept.
Qed.

Lemma execGetGlobal_reads (vm : VM) (slot : Z) (t : gostring) (v : Value) :
  reads vm (mkBinding false slot t) v -> reads_push (execGetGlobal slot) vm v.
Proof.
  intros (s&Hs&Hv). simpl in Hs. pose proof (zlookup_bound _ _ _ Hs) as Hb.
  assert (Hg : grow_global slot vm = (vm, Ok tt)).
  { unfold grow_global, bind, get. rewrite (proj2 (Z.leb_gt _ _)) by lia. done. }
  unfold reads_push, execGetGlobal, bind, get.
  rewrite (proj2 (Z.ltb_lt _ _)) by lia. unfold at_index at 1. rewrite Hs. cbn [ret].
  assert (Hread : forall w, (match s with
                  | GVal v => if decide (Kind v = VMKindUnset) then fail (undefinedGlobalError slot vm) else ret v
                  | GAcc p => do_ write_global slot (GVal (Materialize vm p)); ret (Materialize vm p)
                  end) vm = w -> getGlobalVM slot vm = w).
  { intros w <-. unfold getGlobalVM, bind. rewrite Hg. cbn [get]. unfold at_index. by rewrite Hs. }
  destruct s as [w|p]; simpl in Hv.
  - rewrite decide_False in Hread by (by eapply repr_kind).
    exists w, (set_stack (w :: stack vm) vm).
    split_and!; [|done|done|apply preserves_stack].
    case_decide; [done|]. unfold reframe. by rewrite (Hread _ eq_refl).
  - subst v. set (vm1 := set_globals (zinsert slot (GVal (Materialize vm p)) (globals vm)) vm).
    exists (Materialize vm p), (set_stack (Materialize vm p :: stack vm) vm1).
    split_and!; [|done|apply Materialize_repr|].
    + unfold reframe. rewrite (Hread (vm1, Ok (Materialize vm p))); [done|].
      unfold write_global, bind, get, at_index. by rewrite Hs.
    + split; try done. by apply zinsert_gkept.
Qed.

(** ** Runs *)

Section Runs.
Context `{Externals}.
Variable constants : list Value.
Variable code : list Instruction.

(** The program has the instructions [seg] from [pc] on. *)
Definition code_at (pc : Z) (seg : list Instruction) : Prop :=
  forall k ins, seg !! k = Some ins -> zlookup code (pc + Z.of_nat k) = Some ins.

Lemma code_at_app (pc : Z) (a b : list Instruction) :
  code_at pc (a ++ b) <-> code_at pc a /\ code_at (pc + zlen a) b.
Proof.
  split.
  - intros Hc. split; intros k ins Hk.
    + apply Hc. by apply lookup_app_l_Some.
    + unfold zlen. rewrite <- Z.add_assoc, <- Nat2Z.inj_add. apply Hc.
      by rewrite lookup_app_r, Nat.add_comm, Nat.add_sub by lia.
  - intros [Ha Hb] k ins [Hk|[Hl Hk]]%lookup_app_Some; [by apply Ha|].
    specialize (Hb _ _ Hk). rewrite <- Hb. f_equal. unfold zlen. lia.
Qed.

Lemma code_at_one (pc : Z) (ins : Instruction) : code_at pc [ins] -> zlookup code pc = Some ins.
Proof. intros Hc. by rewrite <- (Hc 0%nat ins eq_refl), Z.add_0_r. Qed.

(** [n] turns of the loop lead from one point to another, or to a fault. *)
Definition reaches (n : nat) (pc : Z) (vm : VM) (pc' : Z) (vm' : VM) : Prop :=
  forall f, dispatchLoop (n + f) constants code pc vm = dispatchLoop f constants code pc' vm'.
Definition stops (n : nat) (pc : Z) (vm : VM) (e : VMError) : Prop :=
  exists vm', forall f, dispatchLoop (n + f) constants code pc vm = Some (vm', Err e).

Lemma reaches_refl (pc : Z) (vm : VM) : reaches 0 pc vm pc vm.
Proof. done. Qed.

Lemma reaches_trans (n m : nat) (pc1 pc2 pc3 : Z) (vm1 vm2 vm3 : VM) :
  reaches n pc1 vm1 pc2 vm2 -> reaches m pc2 vm2 pc3 vm3 -> reaches (n + m) pc1 vm1 pc3 vm3.
Proof. intros H1 H2 f. by rewrite <- Nat.add_assoc, H1. Qed.

Lemma reaches_stops (n m : nat) (pc1 pc2 : Z) (vm1 vm2 : VM) (e : VMError) :
  reaches n pc1 vm1 pc2 vm2 -> stops m pc2 vm2 e -> stops (n + m) pc1 vm1 e.
Proof. intros H1 (vm'&H2). exists vm'. intros f. by rewrite <- Nat.add_assoc, H1. Qed.

Lemma one_turn (pc : Z) (ins : Instruction) (m : vmM Z) (vm : VM) (f : nat) :
  zlookup code pc = Some ins -> exec constants ins pc = Some m ->
  dispatchLoop (S f) constants code pc vm
  = match m vm with
    | (vm', Ok ip') => dispatchLoop f constants code (ip' + 1) vm'
    | (vm', Err e) => Some (vm', Err e)
    end.
Proof.
  intros Hi Hx. simpl. pose proof (zlookup_bound _ _ _ Hi).
  rewrite (proj2 (Z.leb_gt _ _)) by lia. by rewrite Hi, Hx.
Qed.

Lemma turn_reaches (pc pc' : Z) (ins : Instruction) (m : vmM Z) (vm vm' : VM) :
  zlookup code pc = Some ins -> exec constants ins pc = Some m -> m vm = (vm', Ok (pc' - 1)) ->
  reaches 1 pc vm pc' vm'.
Proof.
  intros Hi Hx Hm f. change (1 + f)%nat with (S f). rewrite (one_turn pc ins m vm f Hi Hx), Hm. f_equal. lia.
Qed.

Lemma turn_stops (pc : Z) (ins : Instruction) (m : vmM Z) (vm vm' : VM) (e : VMError) :
  zlookup code pc = Some ins -> exec constants ins pc = Some m -> m vm = (vm', Err e) ->
  stops 1 pc vm e.
Proof. intros Hi Hx Hm. exists vm'. intros f. change (1 + f)%nat with (S f). by rewrite (one_turn pc ins m vm f Hi Hx), Hm. Qed.

(** The code [seg] at [pc] computes the result [r]: within as many turns as it
    has instructions the value is on top of the stack [s] behind the code, with
    every variable as before, or the fault is raised. *)
Definition leaves (pc : Z) (seg : list Instruction) (vm : VM) (s : list VMValue)
    (r : result VMError Value) : Prop :=
  match r with
  | Ok v => exists n w vm', (n <= length seg)%nat /\ reaches n pc vm (pc + zlen seg) vm' /\
              stack vm' = w :: s /\ repr w v /\ preserves vm vm'
  | Err e => exists n, (n <= length seg)%nat /\ stops n pc vm e
  end.
Definition computes (pc : Z) (seg : list Instruction) (vm : VM) : result VMError Value -> Prop :=
  leaves pc seg vm (stack vm).

Lemma leaves_bind (pc : Z) (a b : list Instruction) (vm : VM) (s0 s : list VMValue) (v : Value)
    (r : result VMError Value) :
  leaves pc a vm s0 (Ok v) ->
  (forall w vm', stack vm' = w :: s0 -> repr w v -> preserves vm vm' ->
     leaves (pc + zlen a) b vm' s r) ->
  leaves pc (a ++ b) vm s r.
Proof.
  intros (n&w&vm'&Hn&Hr&Hs&Hw&Hp) Hk. specialize (Hk w vm' Hs Hw Hp).
  destruct r as [v'|e]; simpl in *.
  - destruct Hk as (m&w'&vm2&Hm&Hr2&Hs2&Hw2&Hp2). exists (n + m)%nat, w', vm2.
    rewrite length_app, zlen_app, Z.add_assoc.
    split_and!; [lia|by eapply reaches_trans|done|done|by eapply preserves_trans].
  - destruct Hk as (m&Hm&Hst). exists (n + m)%nat. rewrite length_app.
    split; [lia|]. by eapply reaches_stops.
Qed.

Lemma leaves_error (pc : Z) (a b : list Instruction) (vm : VM) (s s' : list VMValue) (e : VMError) :
  leaves pc a vm s (Err e) -> leaves pc (a ++ b) vm s' (Err e).
Proof. intros (n&Hn&Hs). exists n. rewrite length_app. split; [lia|done]. Qed.

(** The instruction that ends an operator. *)
Lemma finishes_leaves (pc : Z) (ins : Instruction) (m : vmM unit) (vm : VM)
    (s : list VMValue) (r : result VMError Value) :
  zlookup code pc = Some ins -> exec constants ins pc = Some (goes_on pc m) ->
  finishes m vm s r -> leaves pc [ins] vm s r.
Proof.
  intros Hi Hx Hf. destruct r as [v|e]; simpl in *.
  - destruct Hf as (w&Hm&Hw). exists 1%nat, w, (set_stack (w :: s) vm).
    split_and!; [lia| |done|done|apply preserves_stack].
    eapply turn_reaches; [done..|]. unfold goes_on, bind. rewrite Hm.
    unfold ret. do 2 f_equal. unfold zlen. simpl. lia.
  - destruct Hf as (vm'&Hm). exists 1%nat. split; [lia|].
    eapply turn_stops; [done..|]. unfold goes_on, bind. by rewrite Hm.
Qed.
End Runs.

