(* ===== verification/Compiled.v ===== *)
(** * Compiled: the compiler's code computes the value of the expression

    What the VM does with the code of Compile.v: each construct's code leaves
    the value of the construct (Meaning.v), whichever opcodes the compiler
    selected. *)

From S2P Require Import Prelude Float64 GoText Literal Value Ops Machine Arith Compare Slots.
From S2P Require Import Dispatch Compile Meaning Runs.
#[local] Open Scope Z_scope.

(** ** What the compiler appends *)

Record emits (c c' : Compiler) (seg : list Instruction) : Prop := {
  emits_code : Instructions c' = Instructions c ++ seg;
  emits_constants : Constants c `prefix_of` Constants c';
  emits_scopes : scopes c' = scopes c;
  emits_slots : globalSlots c' = globalSlots c;
  emits_types : globalTypes c' = globalTypes c;
  emits_expected : expectedTypes c' = expectedTypes c }.

(** The position behind the code so far. *)
Definition here (c : Compiler) : Z := zlen (Instructions c).

Lemma emits_here (c c' : Compiler) (seg : list Instruction) :
  emits c c' seg -> here c' = here c + zlen seg.
Proof. intros E. unfold here. by rewrite (emits_code _ _ _ E), zlen_app. Qed.

Lemma emits_refl (c : Compiler) : emits c c [].
Proof. split; try done. by rewrite app_nil_r. Qed.

Lemma emits_trans (c1 c2 c3 : Compiler) (a b : list Instruction) :
  emits c1 c2 a -> emits c2 c3 b -> emits c1 c3 (a ++ b).
Proof.
  intros [C1 K1 S1 G1 T1 E1] [C2 K2 S2 G2 T2 E2]. split; [|by etrans|congruence..].
  by rewrite C2, C1, app_assoc.
Qed.

Lemma emits_at (op : Op) (t : Pos) (operands : list Z) (c : Compiler) :
  emits c (emitAt op t operands c) [instruction op t operands].
Proof. by split. Qed.

Lemma emits_constant (v : Value) (t : Pos) (c : Compiler) :
  emits c (emitConstant v t c) [instruction OpConstant t [zlen (Constants c)]].
Proof. split; try done. by apply prefix_app_r. Qed.

Lemma emits_deps (deps : gmap gostring gostring) (c : Compiler) : emits c (with_deps deps c) [].
Proof. split; try done. simpl. by rewrite app_nil_r. Qed.

Lemma emits_extra_constant (v : Value) (c : Compiler) :
  emits c (with_code (Constants c ++ [v]) (Instructions c) c) [].
Proof. split; simpl; rewrite ?app_nil_r; try done. by apply prefix_app_r. Qed.

Lemma alter_middle {A : Type} (f : A -> A) (l k : list A) (x : A) (n : nat) :
  n = length l -> alter f n (l ++ x :: k) = l ++ f x :: k.
Proof. intros ->. induction l as [|y l IH]; simpl; [done|]. by f_equal. Qed.

Lemma emits_patch (c c' : Compiler) (a b : list Instruction) (ins : Instruction) (j : Z) :
  emits c c' (a ++ [ins] ++ b) -> j = here c + zlen a ->
  emits c (patchJump j c') (a ++ [set_target (here c') ins] ++ b).
Proof.
  intros [C K S G T E] ->. split; try done. simpl. rewrite C.
  replace (Instructions c ++ a ++ [ins] ++ b) with ((Instructions c ++ a) ++ ins :: b)
    by by rewrite <- app_assoc.
  rewrite alter_middle by (unfold here, zlen; rewrite length_app; lia).
  rewrite <- app_assoc. unfold here. by rewrite C, <- app_assoc.
Qed.

Lemma emits_with_expected (e : gostring) (c c' : Compiler) (seg : list Instruction) :
  emits (with_expected (expectedTypes c ++ [e]) c) c' seg ->
  emits c (with_expected (removelast (expectedTypes c')) c') seg.
Proof.
  intros [C K S G T E]. split; try done. simpl. rewrite E. simpl. apply removelast_last.
Qed.

(** ** Correct translations *)

Section Correct.
Context `{Externals}.
Variable ParseFloat : gostring -> option float64.
Variable typeAliasLookup : option (gostring -> gostring).
Variable names : Compiler.
Variable env : gostring -> option Value.
Variable unboxed : Z -> bool.

Definition same_names (c : Compiler) : Prop :=
  scopes c = scopes names /\ globalSlots c = globalSlots names /\ globalTypes c = globalTypes names.

Lemma resolve_same (c : Compiler) (name : gostring) :
  same_names c -> resolveName c name = resolveName names name.
Proof. intros (S&G&T). unfold resolveName. by rewrite S, G, T. Qed.

Lemma same_names_emits (c c' : Compiler) (seg : list Instruction) :
  emits c c' seg -> same_names c -> same_names c'.
Proof. intros [_ _ S G T _] (S'&G'&T'). repeat split; congruence. Qed.

(** The variables have the values of [env] and their declared types, and the
    slots of [unboxed] hold small integers. *)
Definition vars_ok (vm : VM) : Prop :=
  forall name b v, resolveName names name = Some b -> env name = Some v ->
    reads vm b v
    /\ (bind_typ b = bs "int" -> exists z, v = VInt z)
    /\ (bind_local b = true -> unboxed (bind_slot b) = true ->
        exists i, zlookup (localsStack vm) (local_index (bind_slot b) vm)
                  = Some (SVal (VMValueFromValue (VSmallInt i)))
                  /\ is_int64 i = true /\ v = VInt i).

Lemma vars_ok_preserved (vm vm' : VM) : preserves vm vm' -> vars_ok vm -> vars_ok vm'.
Proof.
  intros Hp Hv name b v Hb He. destruct (Hv name b v Hb He) as (Hr&Ht&Hu).
  split_and!; [by eapply reads_preserved|done|]. intros Hl Hub.
  destruct (Hu Hl Hub) as (i&Hi&Hw&Hz). exists i. split; [|done].
  destruct Hp as [F _ _ L _]. unfold local_index in *. rewrite F.
  destruct (Forall2_zlookup _ _ _ _ _ L Hi) as (s&Hs&[->|(p&?&_)]); done.
Qed.

(** The code that turns [c] into [c'] computes [meaning]. *)
Definition correct (c c' : Compiler) (meaning : option (result VMError Value)) : Prop :=
  exists seg, emits c c' seg /\
    forall constants code vm r, Constants c' `prefix_of` constants ->
      code_at code (here c) seg -> vars_ok vm -> meaning = Some r ->
      computes constants code (here c) seg vm r.

Lemma op_of_instruction (op : Op) (t : Pos) (operands : list Z) :
  op_of_code (op_byte (instruction op t operands)) = Some op.
Proof. apply op_of_code_code. Qed.

Lemma exec_instruction constants (op : Op) (t : Pos) (operands : list Z) (ip : Z) :
  exec constants (instruction op t operands) ip
  = exec constants (mkInstruction operands (op_code op) 0 0) ip.
Proof. done. Qed.

(** A constant. *)
Lemma correct_constant (v : Value) (t : Pos) (c : Compiler) :
  scalar v = true -> correct c (emitConstant v t c) (Some (Ok (settle v))).
Proof.
  intros Hv. eexists. split; [apply emits_constant|].
  intros constants code vm r Hk Hc%code_at_one Hvars [= <-].
  assert (Hx : exec constants (instruction OpConstant t [zlen (Constants c)]) (here c)
               = Some (goes_on (here c) (pushVM (VMValueFromValue v)))).
  { unfold exec. rewrite op_of_instruction. cbn [fmap option_fmap option_map].
    unfold execConstant. cbn [Operands instruction].
    replace (zlookup constants (zlen (Constants c))) with (Some v).
    - cbn [option_map]. by destruct v.
    - destruct Hk as [ks ->]. simpl. unfold zlookup, zlen.
      rewrite (proj2 (Z.ltb_ge _ _)) by lia.
      rewrite Nat2Z.id, <- app_assoc. symmetry. by apply list_lookup_middle. }
  unfold computes, leaves.
  exists 1%nat, (VMValueFromValue v), (set_stack (VMValueFromValue v :: stack vm) vm).
  split_and!; [done| |done|by apply repr_intro|apply preserves_stack].
  eapply turn_reaches; [done..|]. unfold goes_on, bind, pushVM, modify, ret.
  do 2 f_equal. unfold zlen. simpl. lia.
Qed.

(** A variable. *)
Lemma correct_variable (t : Pos) (name : gostring) (b : binding) (c : Compiler) :
  same_names c -> resolveName names name = Some b ->
  correct c (emitAt (if bind_local b then OpGetLocal else OpGetGlobal) t [bind_slot b] c)
    (Ok <$> env name).
Proof.
  intros Hn Hb. eexists. split; [apply emits_at|].
  intros constants code vm r Hk Hc%code_at_one Hvars Hr.
  destruct (env name) as [v|] eqn:He; [|done]. injection Hr as <-.
  destruct (Hvars name b v Hb He) as (Hread&_&_).
  set (m := if bind_local b then execGetLocal (bind_slot b) else execGetGlobal (bind_slot b)).
  assert (Hm : reads_push m vm v).
  { subst m. destruct b as [l s ty]. simpl. destruct l;
      [by eapply execGetLocal_reads|by eapply execGetGlobal_reads]. }
  destruct Hm as (w&vm'&Hm&Hs&Hw&Hp). exists 1%nat, w, vm'. split_and!; [done| |done..].
  eapply (turn_reaches _ _ _ _ _ (goes_on (here c) (do slot <- ret (bind_slot b); m))); [done| |].
  - unfold exec. rewrite op_of_instruction. subst m. by destruct (bind_local b).
  - unfold goes_on, bind, ret. rewrite Hm. do 2 f_equal. unfold zlen. simpl. lia.
Qed.

(** The expected type in force around a translation. *)
Lemma correct_expected (expected : gostring) (inner : Compiler -> result gostring Compiler)
    (f : gostring -> option (result VMError Value)) (c c' : Compiler) :
  (forall c1 c1', same_names c1 -> inner c1 = Ok c1' -> correct c1 c1' (f (currentExpectedType c1))) ->
  same_names c -> with_expected_type expected inner c = Ok c' -> correct c c' (f expected).
Proof.
  intros Hi Hn. unfold with_expected_type. intros (c1&Hc1&[= <-])%res_bind_ok.
  destruct (Hi (with_expected (expectedTypes c ++ [expected]) c) c1 Hn Hc1) as (seg&E&Hs).
  exists seg. split; [by eapply emits_with_expected|].
  intros constants code vm r Hk Hc Hv Hr. apply Hs; [done..|].
  unfold currentExpectedType. simpl. by rewrite last_snoc.
Qed.

Ltac in_list := match goal with |- ?P => refine (bool_decide_unpack P _); reflexivity end.

(** Two operands and what consumes them. *)
Lemma correct_then2 (c c1 c2 c3 : Compiler) (m1 m2 : option (result VMError Value))
    (k : Value -> Value -> option (result VMError Value)) (seg3 : list Instruction) :
  correct c c1 m1 -> correct c1 c2 m2 -> emits c2 c3 seg3 ->
  (forall constants code vm s wl wr a b r, Constants c3 `prefix_of` constants ->
     code_at code (here c2) seg3 -> vars_ok vm -> stack vm = wr :: wl :: s ->
     m1 = Some (Ok a) -> m2 = Some (Ok b) -> repr wl a -> repr wr b -> k a b = Some r ->
     leaves constants code (here c2) seg3 vm s r) ->
  correct c c3 (on_value m1 (fun a => on_value m2 (k a))).
Proof.
  intros (s1&E1&H1) (s2&E2&H2) E3 H3. exists (s1 ++ s2 ++ seg3).
  split; [by eapply emits_trans, emits_trans|].
  intros constants code vm r Hk [Hc1 [Hc2 Hc3]%code_at_app]%code_at_app Hv Hr.
  rewrite <- (emits_here _ _ _ E1) in Hc2, Hc3. rewrite <- (emits_here _ _ _ E2) in Hc3.
  pose proof (emits_constants _ _ _ E2) as K2. pose proof (emits_constants _ _ _ E3) as K3.
  assert (K23 : Constants c2 `prefix_of` constants) by (by etrans).
  destruct m1 as [[a|e]|]; [| |done]; simpl in Hr.
  2:{ injection Hr as <-. apply (leaves_error _ _ _ _ _ _ (stack vm)).
      eapply (H1 constants code vm (Err e)); try done. by do 2 etrans. }
  apply (leaves_bind _ _ _ _ _ _ (stack vm) _ a r); [eapply H1; try done; by do 2 etrans|].
  intros wl vm1 St1 Wl P1. apply (vars_ok_preserved _ _ P1) in Hv.
  rewrite <- (emits_here _ _ _ E1).
  destruct m2 as [[b|e]|]; [| |done]; simpl in Hr.
  2:{ injection Hr as <-. apply (leaves_error _ _ _ _ _ _ (stack vm1)).
      by eapply (H2 constants code vm1 (Err e)). }
  apply (leaves_bind _ _ _ _ _ _ (stack vm1) _ b r); [by eapply H2|].
  intros wr vm2 St2 Wr P2. apply (vars_ok_preserved _ _ P2) in Hv.
  rewrite <- (emits_here _ _ _ E2). eapply H3; try done. by rewrite St2, St1.
Qed.

(** One operand and what consumes it. *)
Lemma correct_then1 (c c1 c2 : Compiler) (m1 : option (result VMError Value))
    (k : Value -> option (result VMError Value)) (seg2 : list Instruction) :
  correct c c1 m1 -> emits c1 c2 seg2 ->
  (forall constants code vm s w a r, Constants c2 `prefix_of` constants ->
     code_at code (here c1) seg2 -> vars_ok vm -> stack vm = w :: s ->
     m1 = Some (Ok a) -> repr w a -> k a = Some r ->
     leaves constants code (here c1) seg2 vm s r) ->
  correct c c2 (on_value m1 k).
Proof.
  intros (s1&E1&H1) E2 H2. exists (s1 ++ seg2). split; [by eapply emits_trans|].
  intros constants code vm r Hk [Hc1 Hc2]%code_at_app Hv Hr.
  rewrite <- (emits_here _ _ _ E1) in Hc2. pose proof (emits_constants _ _ _ E2) as K2.
  destruct m1 as [[a|e]|]; [| |done]; simpl in Hr.
  2:{ injection Hr as <-. apply (leaves_error _ _ _ _ _ _ (stack vm)).
      eapply (H1 constants code vm (Err e)); try done. by etrans. }
  apply (leaves_bind _ _ _ _ _ _ (stack vm) _ a r); [eapply H1; try done; by etrans|].
  intros w vm1 St1 W P1. apply (vars_ok_preserved _ _ P1) in Hv.
  rewrite <- (emits_here _ _ _ E1). by eapply H2.
Qed.

(** An instruction that pushes what an operator computes. *)
Lemma leaves_op constants code (op : Op) (t : Pos) (operands : list Z) (m : vmM unit) (pc : Z)
    (vm : VM) (s : list VMValue) (p r : result VMError Value) :
  code_at code pc [instruction op t operands] ->
  exec constants (instruction op t operands) pc = Some (goes_on pc m) ->
  pushes m vm s p -> scalar_result p -> settle_result p = r ->
  leaves constants code pc [instruction op t operands] vm s r.
Proof.
  intros Hc%code_at_one Hx Hm Hp Hr. eapply finishes_leaves; [done..|].
  by eapply pushes_finishes.
Qed.

(** The generic opcode of a specialised one. *)
Definition generic_opcode (op : Op) : Op :=
  match op with
  | OpAddInt | OpAddString => OpAdd
  | OpSubInt => OpSub
  | OpMulInt => OpMul
  | OpModInt => OpMod
  | _ => generic_compare op
  end.

Definition opcodes2 : list Op :=
  [OpAdd; OpAddInt; OpAddString; OpSub; OpSubInt; OpMul; OpMulInt; OpDiv; OpIntDiv; OpMod; OpModInt;
   OpPow; OpEqual; OpEqualInt; OpLess; OpLessInt; OpLessEqual; OpLessEqualInt; OpGreater;
   OpGreaterInt; OpGreaterEqual; OpGreaterEqualInt; OpBoolXor; OpBitAnd; OpBitOr; OpBitXor;
   OpLShift; OpRShift].

(** Every opcode on two operands pushes what its generic opcode computes; the
    integer addition does so on operands that are no strings. *)
Lemma opcode2_pushes constants (o : Op) (t : Pos) (pc : Z) :
  o ∈ opcodes2 ->
  exists m, exec constants (instruction o t []) pc = Some (goes_on pc m) /\
    forall vm s l r, scalar l = true -> scalar r = true ->
      stack vm = VMValueFromValue r :: VMValueFromValue l :: s ->
      (o = OpAddInt -> isNumericValue l = true) ->
      pushes m vm s (opcode2_value (generic_opcode o) (held l) (held r)).
Proof.
  intros Ho. unfold exec. rewrite op_of_instruction.
  assert (Hany : forall m, pushes2 m (opcode2_value (generic_opcode o)) ->
            forall vm s l r, scalar l = true -> scalar r = true ->
              stack vm = VMValueFromValue r :: VMValueFromValue l :: s ->
              (o = OpAddInt -> isNumericValue l = true) ->
              pushes m vm s (opcode2_value (generic_opcode o) (held l) (held r))).
  { intros m Hm vm s l r Hl Hr Hs _. by apply Hm. }
  unfold opcodes2 in Ho. destruct_members Ho; (eexists; split; [reflexivity|]);
    [apply Hany, vm_add_pushes
    |intros vm s l r Hl Hr Hs Hadd;
     pose proof (vm_fused_pushes OpAddInt ltac:(in_list) vm s l r Hl Hr Hs) as Hp;
     specialize (Hadd eq_refl); scalar_cases l; exact Hp
    |apply Hany, vm_addString_pushes
    |apply Hany, vm_binary_pushes
    |apply Hany, (vm_fused_pushes OpSubInt ltac:(in_list))
    |apply Hany, vm_binary_pushes
    |apply Hany, (vm_fused_pushes OpMulInt ltac:(in_list))
    |apply Hany, vm_binary_pushes
    |apply Hany, vm_binary_pushes
    |apply Hany, vm_binary_pushes
    |apply Hany, (vm_fused_pushes OpModInt ltac:(in_list))
    |apply Hany, vm_binary_pushes
    |apply Hany, vm_equal_pushes
    |apply Hany, (vm_compareInt_pushes OpEqualInt ltac:(in_list))
    |apply Hany, (vm_compare_pushes OpLess ltac:(in_list))
    |apply Hany, (vm_compareInt_pushes OpLessInt ltac:(in_list))
    |apply Hany, (vm_compare_pushes OpLessEqual ltac:(in_list))
    |apply Hany, (vm_compareInt_pushes OpLessEqualInt ltac:(in_list))
    |apply Hany, (vm_compare_pushes OpGreater ltac:(in_list))
    |apply Hany, (vm_compareInt_pushes OpGreaterInt ltac:(in_list))
    |apply Hany, (vm_compare_pushes OpGreaterEqual ltac:(in_list))
    |apply Hany, (vm_compareInt_pushes OpGreaterEqualInt ltac:(in_list))
    |apply Hany, vm_xor_pushes
    |apply Hany, vm_bitwise_pushes..].
Qed.

Lemma opcode1_pushes constants (o : Op) (t : Pos) (pc : Z) :
  o ∈ [OpNot; OpNegate; OpBitNot] ->
  exists m, exec constants (instruction o t []) pc = Some (goes_on pc m) /\
    pushes1 m (opcode1_value o).
Proof.
  intros Ho. destruct_members Ho; eexists; (split; [reflexivity|]).
  - apply vm_not_pushes.
  - apply vm_negate_pushes.
  - apply vm_bitnot_pushes.
Qed.

Lemma settle_widen (u : Value) : settle u = widen (held u).
Proof. done. Qed.

Lemma leaves_opcode2 constants code (o : Op) (t : Pos) (pc : Z) (vm : VM) (s : list VMValue)
    (wl wr : VMValue) (a b : Value) :
  o ∈ opcodes2 -> code_at code pc [instruction o t []] ->
  stack vm = wr :: wl :: s -> repr wl a -> repr wr b ->
  (o = OpAddInt -> exists z, a = VInt z) ->
  ~ (generic_opcode o = OpMul /\ a = VInt (-1) /\ b = VInt min_int64) ->
  leaves constants code pc [instruction o t []] vm s
    (settle_result (opcode2_value (generic_opcode o) a b)).
Proof.
  intros Ho Hc Hs (l&->&Hl&->) (r&->&Hr&->) Hadd Htrap.
  destruct (opcode2_pushes constants o t pc Ho) as (m&Hx&Hm).
  apply held_scalar in Hl as Hl'. apply held_scalar in Hr as Hr'.
  eapply leaves_op; [done|done|apply (Hm vm s l r Hl Hr Hs)| |].
  - intros E. destruct (Hadd E) as [z Hz]. scalar_cases l; done.
  - by apply opcode2_scalar.
  - by rewrite opcode2_agree by done.
Qed.

Lemma leaves_opcode1 constants code (o : Op) (t : Pos) (pc : Z) (vm : VM) (s : list VMValue)
    (w : VMValue) (a : Value) :
  o ∈ [OpNot; OpNegate; OpBitNot] -> code_at code pc [instruction o t []] ->
  stack vm = w :: s -> repr w a ->
  leaves constants code pc [instruction o t []] vm s (settle_result (opcode1_value o a)).
Proof.
  intros Ho Hc Hs (u&->&Hu&->).
  destruct (opcode1_pushes constants o t pc Ho) as (m&Hx&Hm).
  apply held_scalar in Hu as Hu'. eapply leaves_op; [done|done|exact (Hm vm s u Hu Hs)| |].
  - by apply opcode1_scalar.
  - by rewrite opcode1_agree by done.
Qed.

(** ** Static types *)

Abbreviation meaning := (eval ParseFloat typeAliasLookup names env unboxed).

Definition typed_env : Prop :=
  forall name b v, resolveName names name = Some b -> env name = Some v ->
    bind_typ b = bs "int" -> exists z, v = VInt z.

Lemma vars_typed (vm : VM) : vars_ok vm -> typed_env.
Proof. intros Hv name b v Hb He. by destruct (Hv name b v Hb He) as (_&Ht&_). Qed.

Lemma on_value_Ok (m : option (result VMError Value)) k (v : Value) :
  on_value m k = Some (Ok v) -> exists a, m = Some (Ok a) /\ k a = Some (Ok v).
Proof. destruct m as [[a|e]|]; try done. eauto. Qed.

Lemma int_literal_plain (z : Z) : int_literal_value typeAliasLookup names [] z = VInt z.
Proof. unfold int_literal_value, expandRecordedTypeAlias. by destruct typeAliasLookup. Qed.

(** The compiler's static integer type is sound. *)
Lemma static_int_sound (c : Compiler) (e : Expression) (v : Value) :
  same_names c -> typed_env -> staticIntExpr c e = true -> meaning [] e = Some (Ok v) ->
  exists z, v = VInt z.
Proof.
  intros Hn Ht. revert v.
  induction e as [? text|? text|? text|? ? s|? b|?|? name|? op l IHl r IHr|? op r IHr|? cond IHc a IHa b IHb];
    intros v Hs He; try discriminate.
  - cbn [eval] in He. destruct (ParseIntLiteral text); [|done]. injection He as <-.
    rewrite int_literal_plain. eauto.
  - cbn [eval staticIntExpr] in *. rewrite resolve_same in Hs by done.
    destruct (resolveName names name) as [b|] eqn:Eb; [|done].
    destruct (env name) as [w|] eqn:Ee; [|done]. injection He as <-.
    apply bool_decide_eq_true in Hs. by eapply Ht.
  - cbn [staticIntExpr] in Hs.
    destruct op; try discriminate; cbn [eval] in He; apply andb_prop in Hs as [Hl Hr];
      apply on_value_Ok in He as (a&Ha&He); apply on_value_Ok in He as (b&Hb&He);
      destruct (IHl a Hl Ha) as [x ->], (IHr b Hr Hb) as [y ->];
      unfold infix_value, infix_meaning in He; destruct (product_trap _ _ _); try discriminate;
      cbn in He; try case_match; try discriminate; injection He as <-; eauto.
  - destruct op; try discriminate. cbn [eval staticIntExpr] in *.
    apply on_value_Ok in He as (a&Ha&He).
    destruct (IHr a Hs) as [x ->]; [by destruct (IsIntegerLiteral _)|].
    cbn in He. injection He as <-. eauto.
Qed.

(** ** Folding *)

Definition literals_ok (e : Expression) : bool :=
  match e with
  | IntegerLiteral _ text =>
      match ParseInt0 text with
      | Some n => bool_decide (ParseIntLiteral text = Some n)
      | None => true
      end
  | FloatLiteral _ text => bool_decide (ParseFloat text = None)
  | _ => true
  end.

Lemma fold_div (l r : Z) :
  is_int64 l = true -> is_int64 r = true -> r <> 0 -> (l, r) <> (min_int64, -1) ->
  (if (Z.lxor l r <? 0) && negb (wrap64 (go_div64 l r * r) =? l)
   then wrap64 (go_div64 l r - 1) else go_div64 l r) = l / r.
Proof.
  intros Hl Hr Hr0 Hne. pose proof (small_div_spec l r Hl Hr Hr0 Hne) as Hs. cbv zeta in Hs.
  rewrite <- Hs. pose proof (Z.lxor_nonneg l r) as Hx.
  replace (Z.lxor l r <? 0) with (xorb (l <? 0) (r <? 0)) by
    (destruct (Z.ltb_spec l 0), (Z.ltb_spec r 0), (Z.ltb_spec (Z.lxor l r) 0); simpl; lia).
  replace (wrap64 (l - wrap64 (go_div64 l r * r)) =? 0)
    with (wrap64 (go_div64 l r * r) =? l); [by rewrite andb_comm|].
  pose proof (wrap64_range (go_div64 l r * r)) as Hw. set (p := wrap64 (go_div64 l r * r)) in *.
  destruct (Z.eqb_spec p l) as [->|Hp]; [by rewrite Z.sub_diag|].
  symmetry. apply Z.eqb_neq. intros E. apply Hp.
  destruct (wrap64_congr (l - p)) as [k Hk]. rewrite E in Hk. int64_range. lia.
Qed.

Lemma fold_mod (l r : Z) :
  is_int64 l = true -> is_int64 r = true -> r <> 0 ->
  (if negb (go_rem64 l r =? 0) && (Z.lxor (go_rem64 l r) r <? 0)
   then wrap64 (go_rem64 l r + r) else go_rem64 l r) = l mod r.
Proof.
  intros Hl Hr Hr0. pose proof (small_mod_spec l r Hl Hr Hr0) as Hs. cbv zeta in Hs.
  rewrite <- Hs. unfold go_rem64. rewrite wrap64_id by (by apply rem_int64).
  destruct (Z.eqb_spec (Z.rem l r) 0) as [E|E]; [done|]. cbn [negb andb].
  pose proof (Z.lxor_nonneg (Z.rem l r) r) as Hx. pose proof (Z.rem_sign_nz l r Hr0 E) as Hsg.
  replace (Z.lxor (Z.rem l r) r <? 0) with (xorb (l <? 0) (r <? 0)); [done|].
  destruct (Z.ltb_spec l 0), (Z.ltb_spec r 0), (Z.ltb_spec (Z.lxor (Z.rem l r) r) 0);
    simpl; lia.
Qed.

(** A literal of a kind that folds has the value that folding reads. *)
Lemma int_literal_ok (e : Expression) (n : Z) :
  intLiteralValue e = Some n -> literals_ok e = true ->
  is_int64 n = true /\ meaning [] e = Some (Ok (VInt n)).
Proof.
  destruct e; try discriminate. cbn [intLiteralValue literals_ok eval]. intros Hn Hok.
  rewrite Hn in Hok. apply bool_decide_eq_true in Hok. rewrite Hok. cbn.
  rewrite int_literal_plain. split; [|done].
  clear Hok. revert Hn. unfold ParseInt0. repeat case_match; try discriminate; by intros [= <-].
Qed.

Lemma float_literal_none (e : Expression) :
  literals_ok e = true -> floatLiteralValue ParseFloat e = None.
Proof. destruct e; try done. cbn. apply bool_decide_eq_true. Qed.

Lemma fold_compare (op : Operator) (l r : Z) (b : bool) :
  foldIntInt op l r = Some (VBool b) ->
  infix_value op (VInt l) (VInt r) = Some (Ok (VBool b)).
Proof.
  unfold foldIntInt, infix_value.
  destruct op; try discriminate; try (repeat case_match; discriminate);
    intros [= <-]; cbn [product_trap infix_opcodes opcode2_value opcode1_value];
    unfold compare_value, equal_value; cbn.
  1-2: unfold NumericValuesEqual; cbn; rewrite Qcompare_inject;
    destruct (Z.compare_spec l r), (Z.eqb_spec l r); try lia; reflexivity.
  all: unfold NumericCompare; cbn;
    destruct (Z.compare_spec l r), (Z.ltb_spec l r), (Z.ltb_spec r l),
      (Z.leb_spec l r), (Z.leb_spec r l); try lia; reflexivity.
Qed.

Lemma fold_int_ok (op : Operator) (l r : Z) (folded : Value) (res : result VMError Value) :
  is_int64 l = true -> is_int64 r = true -> foldIntInt op l r = Some folded ->
  infix_value op (VInt l) (VInt r) = Some res -> scalar folded = true /\ res = Ok (settle folded).
Proof.
  intros Hl Hr Hf Hres.
  assert (Hd : (exists b, folded = VBool b) \/ ~ exists b, folded = VBool b)
    by (destruct folded; eauto; right; by intros [? ?]).
  destruct Hd as [[b ->]|Hnb].
  { rewrite (fold_compare op l r b Hf) in Hres. injection Hres as <-. by destruct b. }
  unfold infix_value, infix_meaning in Hres. destruct (product_trap _ _ _); [done|].
  destruct op; try discriminate; cbn in Hf, Hres; try (injection Hf as <-);
    try (by destruct Hnb; eauto); try (by injection Hres as <-).
  - destruct (Z.eqb_spec r 0) as [->|Hr0]; [done|].
    rewrite (proj2 (Z.eqb_neq (Z.sgn r) 0)) in Hres by lia.
    rewrite intFloorDivMod_spec in Hres by done. injection Hres as <-.
    destruct ((l =? min_int64) && (r =? -1)) eqn:E.
    + apply andb_prop in E as [->%Z.eqb_eq ->%Z.eqb_eq]. by injection Hf as <-.
    + injection Hf as <-. rewrite fold_div; try done.
      intros [= -> ->]. by rewrite !Z.eqb_refl in E.
  - destruct (Z.eqb_spec r 0) as [->|Hr0]; [done|].
    rewrite (proj2 (Z.eqb_neq (Z.sgn r) 0)) in Hres by lia.
    rewrite intFloorDivMod_spec in Hres by done. injection Hres as <-. injection Hf as <-.
    by rewrite fold_mod.
Qed.

Lemma fold_string_ok (op : Operator) (l r : gostring) (folded : Value) (res : result VMError Value) :
  foldStringString op l r = Some folded -> infix_value op (VString l) (VString r) = Some res ->
  scalar folded = true /\ res = Ok (settle folded).
Proof.
  unfold infix_value, infix_meaning. destruct op; try discriminate; cbn; intros [= <-];
    unfold compare_value, equal_value; cbn; try (by intros [= <-]).
  all: by destruct (str_compare l r); intros [= <-].
Qed.

Lemma fold_bool_ok (op : Operator) (l r : bool) (folded : Value) (res : result VMError Value) :
  foldBoolBool op l r = Some folded -> infix_value op (VBool l) (VBool r) = Some res ->
  scalar folded = true /\ res = Ok (settle folded).
Proof. destruct op; try discriminate; intros [= <-]; destruct l, r; by intros [= <-]. Qed.

(** Folding a constant gives what evaluating the operator gives. *)
Lemma fold_ok (op : Operator) (l r : Expression) (folded : Value) (res : result VMError Value) :
  literals_ok l = true -> literals_ok r = true ->
  foldConstantBinary ParseFloat op l r = Some folded ->
  on_value (meaning [] l) (fun a => on_value (meaning [] r) (infix_value op a)) = Some res ->
  scalar folded = true /\ res = Ok (settle folded).
Proof.
  intros Hl Hr. unfold foldConstantBinary.
  rewrite (float_literal_none l), (float_literal_none r) by done.
  destruct (intLiteralValue l) as [x|] eqn:El; [destruct (intLiteralValue r) as [y|] eqn:Er|].
  - destruct (int_literal_ok l x El Hl) as [Hx ->], (int_literal_ok r y Er Hr) as [Hy ->].
    intros Hf He. exact (fold_int_ok op x y folded res Hx Hy Hf He).
  - by destruct l.
  - clear El. destruct (stringLiteralValue l) as [x|] eqn:El.
    + destruct l; try discriminate. cbn in El. destruct triple; [done|]. injection El as ->.
      destruct r; try done. destruct triple; [done|]. cbn. apply fold_string_ok.
    + destruct l; try done. destruct r; try done. cbn. apply fold_bool_ok.
Qed.


(** ** Infix operators *)

Definition code_of (ops : list Op) (t : Pos) : list Instruction :=
  map (fun op => instruction op t []) ops.

Lemma emits_all (ops : list Op) (t : Pos) (c : Compiler) :
  emits c (emit_all ops t c) (code_of ops t).
Proof.
  revert c. induction ops as [|op ops IH]; intros c; [apply emits_refl|].
  apply (emits_trans _ (emitAt op t [] c) _ [_]); [apply emits_at|apply IH].
Qed.

Lemma infix_no_trap (op : Operator) (a b : Value) (r : result VMError Value) (o : Op) :
  infix_value op a b = Some r -> (o = OpMul -> op = InfixTimes) ->
  ~ (o = OpMul /\ a = VInt (-1) /\ b = VInt min_int64).
Proof. intros Hi Ho (->&->&->). by rewrite Ho in Hi. Qed.

Lemma leaves_not_equal constants code (o : Op) (t : Pos) (pc : Z) (vm : VM) (s : list VMValue)
    (wl wr : VMValue) (a b : Value) :
  o ∈ [OpEqual; OpEqualInt] -> code_at code pc [instruction o t []; instruction OpNot t []] ->
  stack vm = wr :: wl :: s -> repr wl a -> repr wr b ->
  leaves constants code pc [instruction o t []; instruction OpNot t []] vm s
    (let* v := opcode2_value OpEqual a b in settle_result (opcode1_value OpNot v)).
Proof.
  intros Ho [Hc1 Hc2]%(code_at_app _ _ [_] [_]) Hs Hl Hr.
  assert (Hg : generic_opcode o = OpEqual) by (by destruct_members Ho).
  assert (H2 : leaves constants code pc [instruction o t []] vm s
                 (settle_result (opcode2_value OpEqual a b))).
  { rewrite <- Hg. eapply leaves_opcode2; try done; [|by intros ->; destruct_members Ho|].
    - destruct_members Ho; in_list.
    - rewrite Hg. by intros []. }
  cbn [opcode2_value] in *. unfold equal_value in *.
  destruct (deepEqual _ _ a b) as [eq|e]; cbn [settle_result res_bind] in *.
  - apply (leaves_bind _ _ _ [_] [_] vm s _ _ _ H2). intros w vm' Hs' Hw Hp.
    replace (settle (VBool eq)) with (VBool eq) in Hw by (by destruct eq).
    by eapply leaves_opcode1; [in_list|..].
  - by apply (leaves_error _ _ _ [_] [_] vm s).
Qed.

Lemma leaves_infix constants code (t : Pos) (op : Operator) (bothInt bothString : bool) (pc : Z)
    (vm : VM) (s : list VMValue) (wl wr : VMValue) (a b : Value) (r : result VMError Value) :
  (bothInt = true -> exists z, a = VInt z) ->
  code_at code pc (code_of (infix_opcodes op bothInt bothString) t) ->
  stack vm = wr :: wl :: s -> repr wl a -> repr wr b -> infix_value op a b = Some r ->
  leaves constants code pc (code_of (infix_opcodes op bothInt bothString) t) vm s r.
Proof.
  intros Hint Hc Hs Hl Hr Hi.
  assert (Hno := fun o => infix_no_trap op a b r o Hi).
  assert (Hone : forall o, infix_opcodes op bothInt bothString = [o] -> o ∈ opcodes2 ->
            r = settle_result (opcode2_value (generic_opcode o) a b) ->
            (generic_opcode o = OpMul -> op = InfixTimes) -> (o = OpAddInt -> bothInt = true) ->
            leaves constants code pc (code_of (infix_opcodes op bothInt bothString) t) vm s r).
  { intros o Eo Ho -> Hm Ha. rewrite Eo in *. eapply leaves_opcode2; try done; eauto. }
  unfold infix_value, infix_meaning in Hi. destruct (product_trap op a b); [done|].
  destruct op; try discriminate; cbn [infix_opcodes] in *;
    try (by injection Hi as <-; eapply leaves_not_equal; try done; destruct bothInt; in_list);
    (eapply Hone; [reflexivity| | | |]);
    try (by destruct bothInt; [in_list|try destruct bothString; in_list]);
    try (by injection Hi as <-; destruct bothInt; [|try destruct bothString]);
    try (by destruct bothInt; [|try destruct bothString]).
Qed.

(** The appended literal of [acc + "literal"]. *)
Lemma addStringConst_pushes constants (t : Pos) (i : Z) (lit : gostring) :
  zlookup constants i = Some (VString lit) ->
  pushes1 (execAddStringConst constants (instruction OpAddStringConst t [i]))
    (fun a => add_value a (VString lit)).
Proof.
  intros Hi vm s v Hv Hs.
  pose proof (vm_add_pushes (set_stack (VMValueFromValue (VString lit) :: stack vm) vm) s v
                (VString lit) Hv eq_refl ltac:(simpl; by rewrite Hs)) as Ha.
  unfold pushes, execAddStringConst in *. rewrite Hs. cbn [Operands instruction]. rewrite Hi.
  scalar_cases v; exact Ha || done.
Qed.

Lemma last_constant (c : Compiler) (v : Value) (constants : list Value) :
  (Constants c ++ [v]) `prefix_of` constants -> zlookup constants (zlen (Constants c)) = Some v.
Proof.
  intros [ks ->]. unfold zlookup, zlen. rewrite (proj2 (Z.ltb_ge _ _)) by lia.
  rewrite Nat2Z.id, <- app_assoc. by apply list_lookup_middle.
Qed.

Lemma correct_infix (compile : Expression -> Compiler -> result gostring Compiler)
    (t : Pos) (op : Operator) (l r : Expression) (c c' : Compiler) :
  (forall e c1 c1', e = l \/ e = r -> same_names c1 -> compile e c1 = Ok c1' ->
     correct c1 c1' (meaning [] e)) ->
  literals_ok l = true -> literals_ok r = true -> same_names c ->
  compileInfix ParseFloat compile t op l r c = Ok c' ->
  correct c c' (on_value (meaning [] l) (fun a => on_value (meaning [] r) (infix_value op a))).
Proof.
  intros Hsub Ll Lr Hn. unfold compileInfix.
  destruct (foldConstantBinary ParseFloat op l r) as [folded|] eqn:Ef.
  { intros [= <-]. destruct (on_value (meaning [] l) _) as [res|] eqn:Eres.
    - destruct (fold_ok op l r folded res Ll Lr Ef Eres) as [Hsc ->]. by apply correct_constant.
    - eexists. split; [apply emits_constant|]. done. }
  set (bothInt := staticIntExpr c l && staticIntExpr c r).
  set (bothString := negb bothInt && _ && _ && _).
  assert (Hplain : forall c1 c2, compile l c = Ok c1 -> compile r c1 = Ok c2 ->
            correct c (emit_all (infix_opcodes op bothInt bothString) t c2)
              (on_value (meaning [] l) (fun a => on_value (meaning [] r) (infix_value op a)))).
  { intros c1 c2 H1 H2. apply Hsub in H1; [|auto|done].
    assert (Hn1 : same_names c1) by (destruct H1 as (?&E&_); by eapply same_names_emits).
    apply Hsub in H2; [|auto|done]. eapply correct_then2; [done..|apply emits_all|].
    intros constants code vm s wl wr a b res _ Hc Hv Hs Ha Hb Wl Wr Hi.
    eapply leaves_infix; try done. intros Hint.
    apply andb_prop in Hint as [Hint _].
    exact (static_int_sound c l a Hn (vars_typed vm Hv) Hint Ha). }
  destruct r as [| | |tr triple lit| | | | | |];
    try (intros (c1&H1&(c2&H2&[= <-])%res_bind_ok)%res_bind_ok; by eapply Hplain).
  destruct (bothString && negb (isStringLiteral l)) eqn:Eb;
    [|intros (c1&H1&(c2&H2&[= <-])%res_bind_ok)%res_bind_ok; by eapply Hplain].
  intros (c1&H1&[= <-])%res_bind_ok. apply Hsub in H1; [|auto|done].
  apply andb_prop in Eb as [[[[_ ->%bool_decide_eq_true]%andb_prop _]%andb_prop _]%andb_prop _].
  eapply correct_then1; [exact H1| |].
  { eapply emits_trans; [apply emits_extra_constant|apply emits_at]. }
  cbn [app]. intros constants code vm s w a res Hk Hc Hv Hs Ha Hw Hi.
  apply last_constant in Hk. destruct Hw as (u&->&Hu&->).
  eapply leaves_op; [done|reflexivity|by apply (addStringConst_pushes _ t _ lit Hk)| |].
  - apply (opcode2_scalar OpAdd); [by apply held_scalar|done].
  - cbn [on_value eval] in Hi. unfold infix_value, infix_meaning in Hi.
    replace (product_trap _ _ _) with false in Hi by (by destruct (settle u)).
    injection Hi as <-. apply (opcode2_agree OpAdd (held u) (VString lit)); [by apply held_scalar|done|].
    by intros [? _].
Qed.

(** ** Branches *)

(** The code at [pc] goes on to [next] or to [target] by the truth value, with
    the stack as it was; any other value is a fault. *)
Definition branches constants code (pc : Z) (bound : nat) (next target : Z) (vm : VM)
    (r : result VMError Value) : Prop :=
  match r with
  | Ok (VBool b) => exists n vm', (n <= bound)%nat /\
      reaches constants code n pc vm (if b then next else target) vm' /\
      stack vm' = stack vm /\ preserves vm vm'
  | Ok v => exists n, (n <= bound)%nat /\ stops constants code n pc vm (condition_error v)
  | Err e => exists n, (n <= bound)%nat /\ stops constants code n pc vm e
  end.

(** The code that turns [c] into [c'] ends with a jump, at [j], whose target is
    patched later. *)
Definition branch_code (c c' : Compiler) (j : Z) (cond : option (result VMError Value)) : Prop :=
  exists seg ins, emits c c' (seg ++ [ins]) /\ j = here c + zlen seg /\
    forall constants code target vm r, Constants c' `prefix_of` constants ->
      code_at code (here c) (seg ++ [set_target target ins]) -> vars_ok vm -> cond = Some r ->
      branches constants code (here c) (length seg + 1) (here c + zlen seg + 1) target vm r.

(** The turn that ends a condition, after [n] turns that leave its operands. *)
Lemma branch_turn constants code (n : nat) (pc pc1 target : Z) (bound : nat) (vm vm1 vm2 : VM)
    (ins : Instruction) (m : vmM Z) (b : bool) :
  (n + 1 <= bound)%nat -> reaches constants code n pc vm pc1 vm1 ->
  zlookup code pc1 = Some ins -> exec constants ins pc1 = Some m ->
  m vm1 = (vm2, Ok (if b then pc1 else target - 1)) ->
  stack vm2 = stack vm -> preserves vm vm2 ->
  branches constants code pc bound (pc1 + 1) target vm (Ok (VBool b)).
Proof.
  intros Hn Hr Hi Hx Hm Hs Hp. exists (n + 1)%nat, vm2. split_and!; [done| |done..].
  eapply reaches_trans; [done|]. eapply turn_reaches; [done..|]. rewrite Hm.
  destruct b; do 2 f_equal; lia.
Qed.

Lemma branch_stop constants code (n : nat) (pc pc1 next target : Z) (bound : nat) (vm vm1 : VM)
    (ins : Instruction) (m : vmM Z) (r : result VMError Value) (e : VMError) :
  (n + 1 <= bound)%nat -> reaches constants code n pc vm pc1 vm1 ->
  zlookup code pc1 = Some ins -> exec constants ins pc1 = Some m ->
  snd (m vm1) = Err e ->
  match r with Ok (VBool _) => False | Ok v => e = condition_error v | Err e' => e = e' end ->
  branches constants code pc bound next target vm r.
Proof.
  intros Hn Hr Hi Hx Hm He.
  assert (Hst : stops constants code (n + 1) pc vm e).
  { eapply reaches_stops; [done|]. destruct (m vm1) as [vm2 res] eqn:Em. simpl in Hm.
    subst res. by eapply turn_stops. }
  destruct r as [v|e']; [|subst; by exists (n + 1)%nat].
  destruct v; try done; subst; by exists (n + 1)%nat.
Qed.

Lemma branches_error constants code (pc next target : Z) (seg : list Instruction) (bound : nat)
    (vm : VM) (s : list VMValue) (e : VMError) :
  (length seg <= bound)%nat -> leaves constants code pc seg vm s (Err e) ->
  branches constants code pc bound next target vm (Err e).
Proof. intros Hb (n&Hn&Hs). exists n. split; [lia|done]. Qed.

Lemma condition_error_widen (v : Value) : condition_error (widen v) = condition_error v.
Proof. unfold condition_error. by rewrite TypeName_widen. Qed.

(** A condition followed by [OpJumpIfFalse]. *)
Lemma branch_plain (t : Pos) (c c1 : Compiler) (cond : option (result VMError Value)) :
  correct c c1 cond -> branch_code c (emitAt OpJumpIfFalse t [-1] c1) (here c1) cond.
Proof.
  intros (seg&E&Hc). exists seg, (instruction OpJumpIfFalse t [-1]).
  split_and!; [by eapply emits_trans, emits_at|by apply emits_here|].
  intros constants code target vm r Hk [Hc1 Hj%code_at_one]%code_at_app Hv Hr.
  specialize (Hc constants code vm r Hk Hc1 Hv Hr).
  destruct r as [v|e]; [|apply (branches_error _ _ _ _ _ seg _ _ (stack vm)); [lia|exact Hc]].
  destruct Hc as (n&w&vm1&Hn&Hre&Hs&(u&->&Hu&->)&Hp).
  set (m := execJumpIfFalse (set_target target (instruction OpJumpIfFalse t [-1])) (here c + zlen seg)).
  assert (Hx : exec constants (set_target target (instruction OpJumpIfFalse t [-1])) (here c + zlen seg)
               = Some m) by done.
  assert (Hm : m vm1 = match settle u with
                       | VBool b => (set_stack (stack vm) vm1, Ok (if b then here c + zlen seg else target - 1))
                       | v => (set_stack (stack vm) vm1, Err (condition_error v))
                       end).
  { subst m. unfold execJumpIfFalse, bind, reframe, popVM. rewrite Hs.
    scalar_cases u; try reflexivity. }
  destruct (settle u) eqn:Eu;
    try (eapply branch_stop; [|done|done|done|by rewrite Hm|done]; lia).
  eapply branch_turn; [|done|done|done|exact Hm|done|]; [lia|].
  eapply preserves_trans; [done|apply preserves_stack].
Qed.

(** The opcode whose result a fused comparison tests, and whether it jumps when
    that holds. *)
Lemma jump_small_generic (f g : Op) (jumpIfTrue : bool) (i j : Z) :
  jump_compare_op f = Some (g, jumpIfTrue) ->
  opcode2_value g (VSmallInt i) (VSmallInt j)
  = Ok (VBool (if jumpIfTrue then jump_small f i j else negb (jump_small f i j))).
Proof.
  intros Hf. destruct f; try discriminate; injection Hf as <- <-; cbn [jump_small].
  - by rewrite negb_involutive; exact (compare_small_value OpLessInt i j ltac:(in_list)).
  - by rewrite negb_involutive; exact (compare_small_value OpLessEqualInt i j ltac:(in_list)).
  - by rewrite negb_involutive; exact (compare_small_value OpGreaterInt i j ltac:(in_list)).
  - by rewrite negb_involutive; exact (compare_small_value OpGreaterEqualInt i j ltac:(in_list)).
  - by rewrite negb_involutive; exact (compare_small_value OpEqualInt i j ltac:(in_list)).
  - exact (compare_small_value OpEqualInt i j ltac:(in_list)).
Qed.

Lemma bind_err_of {A B : Type} (m : vmM A) (k : A -> vmM B) (vm : VM) (e : VMError) :
  snd (m vm) = Err e -> snd (bind m k vm) = Err e.
Proof. unfold bind. destruct (m vm) as [vm' r]. simpl. by intros ->. Qed.

Definition fused_jump (f : Op) (target ip : Z) : vmM Z :=
  execCompareJump nativeBinary payloadEq instanceDeepEqual instanceCompare instanceEqual f target ip.

Lemma fused_jump_result (f g : Op) (jumpIfTrue : bool) (target ip : Z) (vm : VM)
    (s : list VMValue) (l r : Value) :
  jump_compare_op f = Some (g, jumpIfTrue) -> scalar l = true -> scalar r = true ->
  stack vm = VMValueFromValue r :: VMValueFromValue l :: s ->
  match opcode2_value g (held l) (held r) with
  | Ok (VBool b) =>
      fused_jump f target ip vm
      = (set_stack s vm, Ok (if xorb b jumpIfTrue then ip else target - 1))
  | Ok _ => False
  | Err e => snd (fused_jump f target ip vm) = Err e
  end.
Proof.
  intros Hf Hl Hr Hs.
  destruct (decide (Kind (VMValueFromValue l) = VMKindSmallInt /\
                    Kind (VMValueFromValue r) = VMKindSmallInt)) as [Hk|Hk].
  - destruct Hk as [[i ->]%(small_kind_inv _ Hl) [j ->]%(small_kind_inv _ Hr)].
    change (held (VSmallInt i)) with (VSmallInt i). change (held (VSmallInt j)) with (VSmallInt j).
    rewrite (jump_small_generic f g jumpIfTrue) by done.
    unfold fused_jump, execCompareJump. rewrite Hs. cbn [Kind VMValueFromValue I64].
    rewrite decide_True by done. by destruct jumpIfTrue, (jump_small f i j).
  - assert (Hfall : fused_jump f target ip vm = (do_ (if decide (g = OpEqual) then vm_equal else vm_compare g);
              do value <- propagate pop;
              match value with
              | VBool b => ret (branch (if jumpIfTrue then b else negb b) target ip)
              | _ => fail (RuntimeError (bs "compare result must be bool"))
              end) vm).
    { unfold fused_jump, execCompareJump. rewrite Hs, decide_False by done.
      unfold compareJumpIntFallback. by rewrite Hf. }
    assert (Hp : pushes (if decide (g = OpEqual) then vm_equal else vm_compare g) vm s
                   (opcode2_value g (held l) (held r))).
    { destruct f; try discriminate; injection Hf as <- <-; cbn [opcode2_value];
        first [by apply vm_equal_pushes | by apply vm_compare_pushes; [in_list|..]]. }
    rewrite Hfall.
    assert (Hb : match opcode2_value g (held l) (held r) with Ok (VBool _) | Err _ => True | _ => False end).
    { destruct f; try discriminate; injection Hf as <- <-; cbn [opcode2_value];
        unfold equal_value, compare_value;
        first [by destruct (NumericCompare _ _) | by destruct (deepEqual _ _ _ _)]. }
    destruct (opcode2_value g (held l) (held r)) as [v|e]; unfold pushes in Hp.
    + destruct v; try done. rewrite (bind_ok _ _ _ _ _ Hp).
      rewrite (pop1 _ _ s (VBool b)) by done. by destruct b, jumpIfTrue.
    + by apply bind_err_of.
Qed.

Lemma settle_bool (w : Value) (b : bool) : settle w = VBool b -> w = VBool b.
Proof.
  destruct w; try discriminate. match goal with x : bool, y : bool |- _ => by destruct x, y end.
Qed.

Lemma exec_fused_jump constants (f g : Op) (jumpIfTrue : bool) (t : Pos) (target ip : Z) :
  jump_compare_op f = Some (g, jumpIfTrue) ->
  exec constants (set_target target (instruction f t [-1])) ip
  = Some (do x <- operand (set_target target (instruction f t [-1])) 0; fused_jump f x ip).
Proof. intros Hf. destruct f; try discriminate; reflexivity. Qed.

Lemma fused_opcode (op : Operator) (f : Op) :
  fusedCompareJumpOpFor op = Some f ->
  exists g jumpIfTrue, jump_compare_op f = Some (g, jumpIfTrue) /\ g <> OpMul /\
    (forall a b, product_trap op a b = false) /\
    forall a b, infix_value op a b
      = Some (match opcode2_value g a b with
              | Ok (VBool x) => Ok (VBool (xorb x jumpIfTrue))
              | Ok v => settle_result (Ok v)
              | Err e => Err e
              end).
Proof.
  intros Hf. destruct op; try discriminate; injection Hf as <-;
    (eexists _, _; split_and!; [reflexivity|done|done|]);
    intros a b; unfold infix_value, infix_meaning; cbn [product_trap infix_opcodes opcode2_value opcode1_value];
    unfold equal_value, compare_value;
    first [destruct (NumericCompare _ _) | destruct (deepEqual _ _ _ _)]; cbn [settle_result res_bind]; try done;
    match goal with |- context [VBool ?x] => destruct x end; reflexivity.
Qed.

(** Two integer operands followed by a fused comparison. *)
Lemma branch_fused (t : Pos) (op : Operator) (f : Op) (c c1 c2 : Compiler)
    (m1 m2 : option (result VMError Value)) :
  fusedCompareJumpOpFor op = Some f -> correct c c1 m1 -> correct c1 c2 m2 ->
  branch_code c (emitAt f t [-1] c2) (here c2)
    (on_value m1 (fun a => on_value m2 (infix_value op a))).
Proof.
  intros Hf (s1&E1&H1) (s2&E2&H2).
  destruct (fused_opcode op f Hf) as (g&jt&Hg&Hmul&Htrap&Hval).
  pose proof (emits_trans _ _ _ _ _ E1 E2) as E12.
  exists (s1 ++ s2), (instruction f t [-1]).
  split_and!; [by eapply emits_trans, emits_at|by apply emits_here|].
  intros constants code target vm r Hk [[Hc1 Hc2]%code_at_app Hj%code_at_one]%code_at_app Hv Hr.
  rewrite <- (emits_here _ _ _ E1) in Hc2. pose proof (emits_constants _ _ _ E2) as K2.
  assert (K1 : Constants c1 `prefix_of` constants) by (by etrans).
  destruct m1 as [[a|e]|]; [| |done]; simpl in Hr.
  2:{ injection Hr as <-. apply (branches_error _ _ _ _ _ s1 _ _ (stack vm));
        [rewrite length_app; lia|]. by apply (H1 constants code vm (Err e)). }
  destruct (H1 constants code vm (Ok a) K1 Hc1 Hv eq_refl) as (n1&wl&vm1&Hn1&R1&St1&(l&->&Hl&->)&P1).
  rewrite <- (emits_here _ _ _ E1) in R1.
  apply (vars_ok_preserved _ _ P1) in Hv.
  destruct m2 as [[b|e]|]; [| |done]; simpl in Hr.
  2:{ injection Hr as <-.
      destruct (H2 constants code vm1 (Err e) Hk Hc2 Hv eq_refl) as (n2&Hn2&S2).
      exists (n1 + n2)%nat. rewrite length_app. split; [lia|]. by eapply reaches_stops. }
  destruct (H2 constants code vm1 (Ok b) Hk Hc2 Hv eq_refl) as (n2&wr&vm2&Hn2&R2&St2&(u&->&Hu&->)&P2).
  rewrite <- (emits_here _ _ _ E2) in R2. rewrite <- (emits_here _ _ _ E12) in *.
  pose proof (reaches_trans _ _ _ _ _ _ _ _ _ _ R1 R2) as R.
  rewrite St1 in St2. rewrite Hval in Hr. injection Hr as <-.
  assert (Hag : settle_result (opcode2_value g (held l) (held u))
                = settle_result (opcode2_value g (settle l) (settle u))).
  { apply opcode2_agree; [by apply held_scalar..|]. by intros []. }
  pose proof (fused_jump_result f g jt target (here c2) vm2 (stack vm) l u Hg Hl Hu St2) as Hres.
  pose proof (exec_fused_jump constants f g jt t target (here c2) Hg) as Hx.
  assert (Hb : (n1 + n2 + 1 <= length (s1 ++ s2) + 1)%nat) by (rewrite length_app; lia).
  destruct (opcode2_value g (held l) (held u)) as [v|e].
  - destruct v; try done. simpl in Hag.
    replace (opcode2_value g (settle l) (settle u)) with (@Ok VMError Value (VBool b)).
    2:{ destruct (opcode2_value g (settle l) (settle u)) as [w|]; [|done].
        f_equal. symmetry. apply settle_bool. injection Hag as <-. by destruct b. }
    eapply branch_turn; [exact Hb|exact R|exact Hj|exact Hx|exact Hres|done|].
    eapply preserves_trans; [exact P1|]. eapply preserves_trans; [exact P2|apply preserves_stack].
  - destruct (opcode2_value g (settle l) (settle u)); [done|]. injection Hag as <-.
    by eapply branch_stop; [exact Hb|exact R|exact Hj|exact Hx|exact Hres|].
Qed.

(** A decimal literal that [strconv] reads is read alike by the literal parser. *)
Lemma digits_decimal (s : gostring) (acc z : Z) :
  digits_value 10 acc s = Some z -> Forall (fun b => digit_value b < 10) s.
Proof.
  revert acc. induction s as [|b s IH]; intros acc Hs; [done|]. cbn [digits_value] in Hs.
  destruct (Z.ltb_spec (digit_value b) 10); [|done]. constructor; [done|]. by eapply IH.
Qed.

Lemma decimal_no_underscore (s : gostring) :
  Forall (fun b => digit_value b < 10 \/ b = Byte.x2d \/ b = Byte.x2b) s -> strip_underscores s = s.
Proof.
  unfold strip_underscores. induction 1 as [|b s Hb _ IH]; [done|].
  rewrite filter_cons_True; [by rewrite IH|]. intros ->. by destruct Hb as [?|[?|?]].
Qed.

Lemma Atoi_ParseIntLiteral (text : gostring) (z : Z) :
  Atoi text = Some z -> is_int64 z = true /\ ParseIntLiteral text = Some z.
Proof.
  unfold Atoi. destruct (BigIntSetString text 10) as [w|] eqn:E; [|done].
  destruct (is_int64 w) eqn:Ew; [|done]. intros [= <-]. split; [done|].
  assert (Hd : Forall (fun b => digit_value b < 10 \/ b = Byte.x2d \/ b = Byte.x2b) text /\
               literal_base text = (10, text) /\ text <> []).
  { assert (Hdig : forall s v, unsigned_value 10 s = Some v ->
              Forall (fun b => digit_value b < 10) s /\ s <> []).
    { intros [|b s] v; [done|]. intros Hv. split; [by eapply digits_decimal|done]. }
    assert (Hw : forall s, Forall (fun b => digit_value b < 10) s ->
              Forall (fun b => digit_value b < 10 \/ b = Byte.x2d \/ b = Byte.x2b) s).
    { intros s Hs. eapply Forall_impl; [exact Hs|]. auto. }
    destruct text as [|b s]; [done|].
    destruct (decide (b = Byte.x2d \/ b = Byte.x2b)) as [Hb|Hb].
    - assert (exists v, unsigned_value 10 s = Some v) as [v Hv].
      { destruct Hb as [-> | ->]; cbn in E; [|eauto]. destruct (unsigned_value 10 s); [eauto|done]. }
      apply Hdig in Hv as [Hv _]. split_and!; [constructor; auto| |done].
      by destruct Hb as [-> | ->].
    - assert (E' : unsigned_value 10 (b :: s) = Some w) by (destruct b; try exact E; exfalso; apply Hb; auto).
      apply Hdig in E' as [Hv _]. split_and!; [by apply Hw| |done].
      destruct s as [|b2 [|b3 s]]; [by destruct b..|].
      inversion_clear Hv as [|?? Hv1 Hv2]. inversion_clear Hv2 as [|?? Hv3 _].
      unfold literal_base. destruct (decide (b = Byte.x30)) as [->|Hn]; [|by destruct b].
      rewrite !decide_False; [done|..]; intros [-> | ->]; done. }
  destruct Hd as (Hd&Hb&Hne). unfold ParseIntLiteral.
  rewrite decimal_no_underscore, Hb by done. by destruct text.
Qed.

Lemma zero_literal (e : Expression) :
  isIntZeroLiteral e = true -> meaning [] e = Some (Ok (VInt 0)).
Proof.
  destruct e; try done. cbn [isIntZeroLiteral eval].
  destruct (Atoi text) as [v|] eqn:E; [|done]. intros ->%Z.eqb_eq.
  apply Atoi_ParseIntLiteral in E as [_ ->]. cbn. by rewrite int_literal_plain.
Qed.

(** What the fused remainder test matches. *)
Lemma tryFuse_inv (op : Operator) (l r : Expression) (slot divisor : Z) (f : Op) :
  tryFuseModZeroBranch names op l r = Some (slot, divisor, f) ->
  exists t1 t2 t3 name text b,
    let test := InfixExpression t1 InfixMod (Identifier t2 name) (IntegerLiteral t3 text) in
    ((l = test /\ isIntZeroLiteral r = true) \/ (r = test /\ isIntZeroLiteral l = true)) /\
    resolveName names name = Some b /\ bind_local b = true /\ bind_typ b = bs "int" /\
    bind_slot b = slot /\ Atoi text = Some divisor /\ divisor <> 0 /\
    ((op = InfixEq /\ f = OpJumpIfModNotZero) \/ (op = InfixNe /\ f = OpJumpIfModZero)).
Proof.
  unfold tryFuseModZeroBranch. intros Hf.
  assert (Hside : exists e, (if isIntZeroLiteral r then Some l
             else if isIntZeroLiteral l then Some r else None) = Some e /\
             ((l = e /\ isIntZeroLiteral r = true) \/ (r = e /\ isIntZeroLiteral l = true))).
  { destruct (isIntZeroLiteral r), (isIntZeroLiteral l); eauto; by destruct op. }
  destruct Hside as (e&He&Hside). rewrite He in Hf.
  assert (Hop : op = InfixEq \/ op = InfixNe) by (destruct op; auto; done).
  destruct e as [| | | | | | |t1 [] l1 r1| |]; try (by destruct op).
  destruct l1 as [| | | | | |t2 name| | |]; try (by destruct op).
  destruct r1 as [t3 text| | | | | | | | |]; try (by destruct op).
  destruct (resolveName names name) as [b|] eqn:Eb; [|by destruct op].
  destruct (bind_local b) eqn:El; [|by destruct op]. cbn [andb] in Hf.
  destruct (bool_decide_reflect (bind_typ b = bs "int")) as [Et|Et]; [|by destruct op].
  destruct (Atoi text) as [d|] eqn:Ea; [|by destruct op].
  destruct (Z.eqb_spec d 0) as [->|Hd]; [by destruct op|].
  exists t1, t2, t3, name, text, b. cbv zeta.
  destruct Hop as [-> | ->]; injection Hf as <- <- <-; split_and!; auto.
Qed.

(** The value of [x % d == 0] and of [0 == x % d]. *)
Lemma mod_test_value (op : Operator) (i d : Z) (a b : Value) :
  d <> 0 -> (a = VInt (i mod d) /\ b = VInt 0) \/ (a = VInt 0 /\ b = VInt (i mod d)) ->
  op = InfixEq \/ op = InfixNe ->
  infix_value op a b
  = Some (Ok (VBool (match op with InfixNe => negb (i mod d =? 0) | _ => i mod d =? 0 end))).
Proof.
  intros Hd Hab Hop. set (m := i mod d) in *.
  assert (He : equal_value a b = Ok (VBool (m =? 0))).
  { unfold equal_value. destruct Hab as [[-> ->]|[-> ->]]; cbn; unfold NumericValuesEqual; cbn;
      rewrite Qcompare_inject; do 2 f_equal;
      destruct (Z.eqb_spec m 0) as [->|Hm]; try done;
      by match goal with |- context [?x ?= ?y] => destruct (Z.compare_spec x y); try lia end. }
  unfold infix_value, infix_meaning. destruct Hop as [-> | ->]; cbn [product_trap infix_opcodes opcode2_value];
    rewrite He; by destruct (m =? 0).
Qed.

Lemma mod_value (i d : Z) :
  d <> 0 -> infix_value InfixMod (VInt i) (VInt d) = Some (Ok (VInt (i mod d))).
Proof.
  intros Hd. unfold infix_value, infix_meaning. cbn.
  rewrite (proj2 (Z.eqb_neq (Z.sgn d) 0)) by lia. by rewrite intFloorDivMod_spec.
Qed.

(** The fused remainder test on an uncaptured small integer. *)
Lemma branch_mod (t t' : Pos) (op : Operator) (l r : Expression) (slot divisor : Z) (f : Op)
    (c : Compiler) :
  tryFuseModZeroBranch names op l r = Some (slot, divisor, f) -> unboxed slot = true ->
  branch_code c (emitAt f t [-1; slot; divisor] c) (here c) (meaning [] (InfixExpression t' op l r)).
Proof.
  intros (t1&t2&t3&name&text&b&Hside&Hb&Hloc&Htyp&Hslot&Htext&Hd&Hop)%tryFuse_inv Hub.
  apply Atoi_ParseIntLiteral in Htext as [Hd64 Htext].
  exists [], (instruction f t [-1; slot; divisor]).
  split_and!; [apply emits_at|unfold zlen; simpl; lia|].
  intros constants code target vm r' Hk Hc%code_at_one Hv Hr.
  set (test := InfixExpression t1 InfixMod (Identifier t2 name) (IntegerLiteral t3 text)) in *.
  destruct (env name) as [v|] eqn:He.
  2:{ exfalso. assert (Htest : meaning [] test = None) by (cbn; by rewrite He).
      destruct Hside as [[-> Hz]|[-> Hz]]; apply zero_literal in Hz;
        destruct Hop as [[-> _]|[-> _]]; cbn [eval] in Hr; by rewrite ?Hz, Htest in Hr. }
  destruct (Hv name b v Hb He) as (_&_&Hu). subst slot.
  destruct (Hu Hloc Hub) as (i&Hi&Hi64&->).
  assert (Htest : meaning [] test = Some (Ok (VInt (i mod divisor)))).
  { cbn [eval test]. rewrite He, Htext. cbn [fmap option_fmap option_map on_value].
    rewrite int_literal_plain. by apply mod_value. }
  assert (Hval : r' = Ok (VBool (match op with InfixNe => negb (i mod divisor =? 0)
                                 | _ => i mod divisor =? 0 end))).
  { assert (Hop' : op = InfixEq \/ op = InfixNe) by (destruct Hop as [[]|[]]; auto).
    assert (Hinf : meaning [] (InfixExpression t' op l r)
      = on_value (meaning [] l) (fun a => on_value (meaning [] r) (infix_value op a)))
      by (by destruct Hop' as [-> | ->]).
    rewrite Hinf in Hr.
    destruct Hside as [[-> Hz]|[-> Hz]]; apply zero_literal in Hz; rewrite Hz, Htest in Hr;
      cbn [on_value] in Hr; rewrite (mod_test_value op i divisor) in Hr; auto; congruence. }
  subst r'. replace (here c + zlen [] + 1) with (here c + 1) by (unfold zlen; simpl; lia).
  pose proof (zlookup_bound _ _ _ Hi) as Hbound.
  eapply (branch_turn _ _ 0 _ _ _ _ _ _ vm
            (set_target target (instruction f t [-1; bind_slot b; divisor]))
            (execModJump f [target; bind_slot b; divisor] (here c)));
    [simpl; lia|apply reaches_refl|done|by destruct Hop as [[_ ->]|[_ ->]]| |done|apply preserves_refl].
  unfold execModJump, bind, get.
  rewrite (proj2 (Z.ltb_ge _ _)), (proj2 (Z.leb_gt _ _)) by lia. cbn [orb].
  unfold at_index. rewrite Hi. cbn [ret VMValueFromValue Kind I64].
  rewrite (proj2 (Z.eqb_neq divisor 0)) by done. rewrite decide_True by done.
  pose proof (small_mod_spec i divisor Hi64 Hd64 Hd) as Hm. cbv zeta in Hm |- *. rewrite Hm.
  destruct Hop as [[-> ->]|[-> ->]]; cbn; unfold ret, branch; by destruct (i mod divisor =? 0).
Qed.

(** ** Jumps *)

(** A run from [pc] to [pc'] within [bound] turns that leaves [r] on [s]. *)
Definition ends constants code (bound : nat) (pc : Z) (vm : VM) (pc' : Z) (s : list VMValue)
    (r : result VMError Value) : Prop :=
  match r with
  | Ok v => exists n w vm', (n <= bound)%nat /\ reaches constants code n pc vm pc' vm' /\
              stack vm' = w :: s /\ repr w v /\ preserves vm vm'
  | Err e => exists n, (n <= bound)%nat /\ stops constants code n pc vm e
  end.

Lemma leaves_ends constants code (pc pc' : Z) (seg : list Instruction) (vm : VM) (s : list VMValue)
    (r : result VMError Value) :
  pc' = pc + zlen seg -> leaves constants code pc seg vm s r ->
  ends constants code (length seg) pc vm pc' s r.
Proof. by intros ->. Qed.

Lemma ends_leaves constants code (bound : nat) (pc pc' : Z) (seg : list Instruction) (vm : VM)
    (s : list VMValue) (r : result VMError Value) :
  ends constants code bound pc vm pc' s r -> (bound <= length seg)%nat -> pc' = pc + zlen seg ->
  leaves constants code pc seg vm s r.
Proof.
  intros He Hb ->. destruct r as [v|e].
  - destruct He as (n&w&vm'&Hn&Hx). exists n, w, vm'. split; [lia|done].
  - destruct He as (n&Hn&Hx). exists n. split; [lia|done].
Qed.

Lemma ends_weaken constants code (b b' : nat) (pc : Z) (vm : VM) (pc' : Z) (s : list VMValue)
    (r : result VMError Value) :
  ends constants code b pc vm pc' s r -> (b <= b')%nat -> ends constants code b' pc vm pc' s r.
Proof.
  intros He Hb. destruct r as [v|e].
  - destruct He as (n&w&vm'&Hn&Hx). exists n, w, vm'. split; [lia|done].
  - destruct He as (n&Hn&Hx). exists n. split; [lia|done].
Qed.

(** A condition, then the run from where it leads. *)
Lemma branches_ends constants code (b1 b2 : nat) (pc next target pc' : Z) (vm : VM)
    (r0 r : result VMError Value) :
  branches constants code pc b1 next target vm r0 ->
  match r0 with
  | Ok (VBool x) => forall vm', stack vm' = stack vm -> preserves vm vm' ->
      ends constants code b2 (if x then next else target) vm' pc' (stack vm) r
  | Ok v => r = Err (condition_error v)
  | Err e => r = Err e
  end ->
  ends constants code (b1 + b2) pc vm pc' (stack vm) r.
Proof.
  intros Hb Hr.
  assert (Hstop : forall e, r = Err e -> (exists n, (n <= b1)%nat /\ stops constants code n pc vm e) ->
            ends constants code (b1 + b2) pc vm pc' (stack vm) r).
  { intros e -> (n&Hn&Hs). exists n. split; [lia|done]. }
  destruct r0 as [v|e]; [|by eapply Hstop].
  destruct v; try (by eapply Hstop).
  destruct Hb as (n&vm1&Hn&Hre&Hs&Hp). specialize (Hr vm1 Hs Hp).
  destruct r as [v|e]; simpl in *.
  - destruct Hr as (m&w&vm2&Hm&Hre2&Hs2&Hw&Hp2). exists (n + m)%nat, w, vm2.
    split_and!; [lia|by eapply reaches_trans|done|done|by eapply preserves_trans].
  - destruct Hr as (m&Hm&Hst). exists (n + m)%nat. split; [lia|by eapply reaches_stops].
Qed.

Lemma ends_jump constants code (b : nat) (pc p target : Z) (t : Pos) (vm : VM) (s : list VMValue)
    (r : result VMError Value) :
  zlookup code p = Some (set_target target (instruction OpJump t [-1])) ->
  ends constants code b pc vm p s r -> ends constants code (b + 1) pc vm target s r.
Proof.
  intros Hj He. destruct r as [v|e]; simpl in *.
  - destruct He as (n&w&vm'&Hn&Hre&Hx). exists (n + 1)%nat, w, vm'. split; [lia|]. split; [|done].
    eapply reaches_trans; [done|]. by eapply turn_reaches.
  - destruct He as (n&Hn&Hst). exists n. split; [lia|done].
Qed.

Lemma ends_constant constants code (t : Pos) (i pc : Z) (v : Value) (vm : VM) :
  zlookup code pc = Some (instruction OpConstant t [i]) -> zlookup constants i = Some v ->
  scalar v = true -> ends constants code 1 pc vm (pc + 1) (stack vm) (Ok (settle v)).
Proof.
  intros Hi Hk Hv.
  exists 1%nat, (VMValueFromValue v), (set_stack (VMValueFromValue v :: stack vm) vm).
  split_and!; [done| |done|by apply repr_intro|apply preserves_stack].
  eapply (turn_reaches _ _ _ _ _ (goes_on pc (pushVM (VMValueFromValue v)))); [done| |].
  - unfold exec. rewrite op_of_instruction. unfold execConstant. cbn [Operands instruction].
    rewrite Hk. destruct v; try discriminate; reflexivity.
  - unfold goes_on, bind, pushVM, modify, ret. do 2 f_equal. lia.
Qed.

Lemma prefix_constant (c c' : Compiler) (v : Value) (constants : list Value) (t : Pos) (seg : list Instruction) :
  emits (emitConstant v t c) c' seg -> Constants c' `prefix_of` constants ->
  zlookup constants (zlen (Constants c)) = Some v.
Proof.
  intros E Hk. apply (last_constant c). etrans; [|exact Hk].
  apply (emits_constants _ _ _ E).
Qed.

(** Positions in a sequence of code. *)
Ltac zlens := rewrite ?zlen_app, ?zlen_cons, ?zlen_nil in *.
Ltac code_parts H :=
  repeat match type of H with
    | code_at _ _ (_ ++ _) =>
        let H1 := fresh "Hc" in apply code_at_app in H as [H1 H]
    end.

Lemma emits_jump (op : Op) (t : Pos) (c : Compiler) :
  emits c (snd (emitJump op t c)) [instruction op t [-1]].
Proof. apply emits_at. Qed.

Lemma here_patch (j : Z) (c : Compiler) : here (patchJump j c) = here c.
Proof. unfold here, zlen. simpl. by rewrite length_alter. Qed.

(** Patching inside a sequence that is written as it stands. *)
Lemma emits_patch_at (c c' : Compiler) (seg a b : list Instruction) (ins : Instruction)
    (j target : Z) :
  emits c c' seg -> seg = a ++ [ins] ++ b -> j = here c + zlen a -> target = here c' ->
  emits c (patchJump j c') (a ++ [set_target target ins] ++ b).
Proof. intros E -> Hj ->. by apply emits_patch. Qed.

Ltac at_pos H p := match type of H with code_at _ ?q _ => replace q with p in H by lia end.
Ltac reassoc := repeat rewrite <- app_assoc; reflexivity.

Lemma correct_and (t : Pos) (c c1 c3 : Compiler) (m1 m2 : option (result VMError Value)) :
  let c2 := emitAt OpJumpIfFalse t [-1] c1 in
  let c4 := emitAt OpJumpIfFalse t [-1] c3 in
  let c6 := emitAt OpJump t [-1] (emitConstant (VBool true) t c4) in
  let c8 := patchJump (here c3) (patchJump (here c1) c6) in
  correct c c1 m1 -> correct c2 c3 m2 ->
  correct c (patchJump (here (emitConstant (VBool true) t c4)) (emitConstant (VBool false) t c8))
    (on_condition m1 (fun a => if a then on_condition m2 (fun b => Some (Ok (VBool b)))
                               else Some (Ok (VBool false)))).
Proof.
  intros c2 c4 c6 c8 H1 H2.
  destruct (branch_plain t c c1 m1 H1) as (s1&i1&E1&J1&R1).
  destruct (branch_plain t c2 c3 m2 H2) as (s2&i2&E2&J2&R2). fold c2 in E1, R1. fold c4 in E2, R2.
  pose proof (emits_constant (VBool true) t c4) as E3. set (k1 := instruction OpConstant _ _) in E3.
  set (c5 := emitConstant (VBool true) t c4) in *.
  pose proof (emits_at OpJump t [-1] c5) as E4. fold c6 in E4.
  pose proof (emits_trans _ _ _ _ _ E1 (emits_trans _ _ _ _ _ E2 (emits_trans _ _ _ _ _ E3 E4))) as E.
  pose proof (emits_here _ _ _ E1) as P2. pose proof (emits_here _ _ _ E2) as P4.
  pose proof (emits_here _ _ _ E3) as P5. pose proof (emits_here _ _ _ E4) as P6. zlens.
  assert (E7 : emits c (patchJump (here c1) c6)
                 (s1 ++ [set_target (here c6) i1] ++ (s2 ++ [i2]) ++ [k1] ++ [instruction OpJump t [-1]])).
  { eapply emits_patch_at; [exact E|reassoc|lia|first [reflexivity|by rewrite here_patch]]. }
  assert (E8 : emits c c8
                 ((s1 ++ [set_target (here c6) i1] ++ s2) ++ [set_target (here c6) i2]
                  ++ [k1] ++ [instruction OpJump t [-1]])).
  { subst c8.
    eapply emits_patch_at; [exact E7|reassoc|zlens; lia|first [reflexivity|by rewrite here_patch]]. }
  pose proof (emits_here _ _ _ E8) as P8. zlens.
  pose proof (emits_constant (VBool false) t c8) as E9. set (k2 := instruction OpConstant _ _) in E9.
  set (c9 := emitConstant (VBool false) t c8) in *.
  pose proof (emits_here _ _ _ E9) as P9. zlens.
  pose proof (emits_trans _ _ _ _ _ E8 E9) as E89.
  eexists. split.
  { eapply (emits_patch_at _ _ _ ((s1 ++ [set_target (here c6) i1] ++ s2) ++ [set_target (here c6) i2] ++ [k1])
              [k2]); [exact E89|reassoc|zlens; lia|first [reflexivity|by rewrite here_patch]]. }
  assert (K2 : Constants c2 `prefix_of` Constants c9).
  { etrans; [exact (emits_constants _ _ _ E2)|].
    etrans; [exact (emits_constants _ _ _ E3)|]. by apply prefix_app_r. }
  assert (K4 : Constants c4 `prefix_of` Constants c9).
  { etrans; [exact (emits_constants _ _ _ E3)|]. by apply prefix_app_r. }
  intros constants code vm r Hk Hc Hv Hr. change (Constants _) with (Constants c9) in Hk.
  repeat rewrite <- app_assoc in Hc.
  apply code_at_app in Hc as [Hc1 Hc]. apply code_at_app in Hc as [Hj1 Hc].
  apply code_at_app in Hc as [Hc2 Hc]. apply code_at_app in Hc as [Hj2 Hc].
  apply code_at_app in Hc as [Hk1 Hc]. apply code_at_app in Hc as [Hj Hk2]. zlens.
  at_pos Hc2 (here c2). at_pos Hj2 (here c3). at_pos Hk1 (here c4). at_pos Hj (here c5).
  at_pos Hk2 (here c6). rewrite <- J1 in Hj1.
  apply (ends_leaves _ _ (length s1 + 1 + (length s2 + 1 + 2)) _ (here c9));
    [|rewrite !length_app; simpl; lia|zlens; lia].
  assert (Hfalse : forall vm, ends constants code 2 (here c6) vm (here c9) (stack vm) (Ok (VBool false))).
  { intros vm'. eapply ends_weaken; [|apply le_S, le_n].
    replace (here c9) with (here c6 + 1) by lia.
    eapply (ends_constant _ _ t _ _ (VBool false)); [by apply code_at_one| |done].
    by apply (last_constant c8). }
  assert (Htrue : forall vm, ends constants code 2 (here c4) vm (here c9) (stack vm) (Ok (VBool true))).
  { intros vm'. apply (ends_jump _ _ 1 _ (here c5) _ t); [by apply code_at_one|].
    replace (here c5) with (here c4 + 1) by lia.
    eapply (ends_constant _ _ t _ _ (VBool true)); [by apply code_at_one| |done].
    apply (last_constant c4). etrans; [|exact Hk]. by exists [VBool false]. }
  destruct m1 as [r1|]; [|done].
  rewrite J1 in Hj1. rewrite J2 in Hj2.
  eapply branches_ends.
  { apply (R1 constants code (here c6) vm r1); [by etrans|by apply code_at_app|done|done]. }
  destruct r1 as [v|e]; [|by injection Hr as <-]. destruct v; try (by injection Hr as <-).
  intros vm1 St1 P1. cbn [on_condition on_value] in Hr. rewrite <- St1.
  destruct b; [|injection Hr as <-; eapply ends_weaken; [apply Hfalse|lia]].
  destruct m2 as [r2|]; [|done]. replace (here c + zlen s1 + 1) with (here c2) by lia.
  eapply branches_ends.
  { apply (R2 constants code (here c6) vm1 r2); [by etrans|by apply code_at_app| |done].
    by eapply vars_ok_preserved. }
  destruct r2 as [v|e]; [|by injection Hr as <-]. destruct v; try (by injection Hr as <-).
  intros vm2 St2 P2'. cbn [on_condition on_value] in Hr. injection Hr as <-. rewrite <- St2.
  replace (here c2 + zlen s2 + 1) with (here c4) by lia. destruct b; [apply Htrue|apply Hfalse].
Qed.

Lemma correct_or (t : Pos) (c c1 c6 : Compiler) (m1 m2 : option (result VMError Value)) :
  let c2 := emitAt OpJumpIfFalse t [-1] c1 in
  let c3 := emitConstant (VBool true) t c2 in
  let c4 := emitAt OpJump t [-1] c3 in
  let c5 := patchJump (here c1) c4 in
  let c7 := emitAt OpJumpIfFalse t [-1] c6 in
  let c8 := emitConstant (VBool true) t c7 in
  let c9 := emitAt OpJump t [-1] c8 in
  let c11 := emitConstant (VBool false) t (patchJump (here c6) c9) in
  correct c c1 m1 -> correct c5 c6 m2 ->
  correct c (patchJump (here c8) (patchJump (here c3) c11))
    (on_condition m1 (fun a => if a then Some (Ok (VBool true))
                               else on_condition m2 (fun b => Some (Ok (VBool b))))).
Proof.
  intros c2 c3 c4 c5 c7 c8 c9 c11 H1 H2.
  destruct (branch_plain t c c1 m1 H1) as (s1&i1&E1&J1&R1). fold c2 in E1, R1.
  destruct (branch_plain t c5 c6 m2 H2) as (s2&i2&E2&J2&R2). fold c7 in E2, R2.
  pose proof (emits_constant (VBool true) t c2) as E3. fold c3 in E3.
  set (k1 := instruction OpConstant _ _) in E3.
  pose proof (emits_at OpJump t [-1] c3) as E4. fold c4 in E4.
  pose proof (emits_constant (VBool true) t c7) as E8. fold c8 in E8.
  set (k2 := instruction OpConstant _ _) in E8.
  pose proof (emits_at OpJump t [-1] c8) as E9. fold c9 in E9.
  set (jmp := instruction OpJump t [-1]) in *.
  assert (E5 : emits c c5 (s1 ++ [set_target (here c4) i1] ++ [k1] ++ [jmp])).
  { eapply emits_patch_at; [exact (emits_trans _ _ _ _ _ E1 (emits_trans _ _ _ _ _ E3 E4))|reassoc|lia|first [reflexivity|by rewrite here_patch]]. }
  pose proof (emits_trans _ _ _ _ _ E2 (emits_trans _ _ _ _ _ E8 E9)) as E79.
  assert (E10 : emits c5 (patchJump (here c6) c9) (s2 ++ [set_target (here c9) i2] ++ [k2] ++ [jmp])).
  { eapply emits_patch_at; [exact E79|reassoc|lia|first [reflexivity|by rewrite here_patch]]. }
  pose proof (emits_constant (VBool false) t (patchJump (here c6) c9)) as E11. fold c11 in E11.
  set (k3 := instruction OpConstant _ _) in E11.
  pose proof (emits_trans _ _ _ _ _ E5 (emits_trans _ _ _ _ _ E10 E11)) as Eall.
  pose proof (emits_here _ _ _ E1) as P2. pose proof (emits_here _ _ _ E3) as P3.
  pose proof (emits_here _ _ _ E4) as P4. pose proof (emits_here _ _ _ E2) as P7.
  pose proof (emits_here _ _ _ E8) as P8. pose proof (emits_here _ _ _ E9) as P9.
  pose proof (emits_here _ _ _ E11) as P11. pose proof (here_patch (here c1) c4) as P5. fold c5 in P5.
  rewrite here_patch in P11. zlens.
  assert (E12 : emits c (patchJump (here c3) c11)
            ((s1 ++ [set_target (here c4) i1] ++ [k1]) ++ [set_target (here c11) jmp]
             ++ s2 ++ [set_target (here c9) i2] ++ [k2] ++ [jmp] ++ [k3])).
  { eapply emits_patch_at; [exact Eall|reassoc|zlens; lia|first [reflexivity|by rewrite here_patch]]. }
  assert (E13 : emits c (patchJump (here c8) (patchJump (here c3) c11))
            ((s1 ++ [set_target (here c4) i1] ++ [k1] ++ [set_target (here c11) jmp]
             ++ s2 ++ [set_target (here c9) i2] ++ [k2]) ++ [set_target (here c11) jmp] ++ [k3])).
  { eapply emits_patch_at; [exact E12|reassoc|zlens; lia|first [reflexivity|by rewrite here_patch]]. }
  eexists. split; [exact E13|].
  assert (K7 : Constants c7 `prefix_of` Constants c11) by (exists [VBool true; VBool false];
    cbn [Constants c11 c9 c8 emitConstant emitAt with_code patchJump]; by rewrite <- app_assoc).
  assert (K3 : Constants c3 `prefix_of` Constants c11)
    by (etrans; [|exact K7]; exact (emits_constants _ _ _ E2)).
  assert (K2 : Constants c2 `prefix_of` Constants c11)
    by (etrans; [exact (emits_constants _ _ _ E3)|exact K3]).
  intros constants code vm r Hk Hc Hv Hr. change (Constants (patchJump _ _)) with (Constants c11) in Hk.
  repeat rewrite <- app_assoc in Hc.
  apply code_at_app in Hc as [Hc1 Hc]. apply code_at_app in Hc as [Hj1 Hc].
  apply code_at_app in Hc as [Hk1 Hc]. apply code_at_app in Hc as [Hjt Hc].
  apply code_at_app in Hc as [Hc2 Hc]. apply code_at_app in Hc as [Hj2 Hc].
  apply code_at_app in Hc as [Hk2 Hc]. apply code_at_app in Hc as [Hje Hk3]. zlens.
  at_pos Hk1 (here c2). at_pos Hjt (here c3). at_pos Hc2 (here c5).
  at_pos Hj2 (here c5 + zlen s2). at_pos Hk2 (here c7). at_pos Hje (here c8). at_pos Hk3 (here c9).
  apply (ends_leaves _ _ (length s1 + 1 + (length s2 + 1 + 2)) _ (here c11));
    [|rewrite !length_app; simpl; lia|zlens; lia].
  assert (Htrue1 : forall vm, ends constants code 2 (here c2) vm (here c11) (stack vm) (Ok (VBool true))).
  { intros vm'. apply (ends_jump _ _ 1 _ (here c3) _ t); [by apply code_at_one|].
    replace (here c3) with (here c2 + 1) by lia.
    eapply (ends_constant _ _ t _ _ (VBool true)); [by apply code_at_one| |done].
    apply (last_constant c2). etrans; [exact K3|exact Hk]. }
  assert (Htrue2 : forall vm, ends constants code 2 (here c7) vm (here c11) (stack vm) (Ok (VBool true))).
  { intros vm'. apply (ends_jump _ _ 1 _ (here c8) _ t); [by apply code_at_one|].
    replace (here c8) with (here c7 + 1) by lia.
    eapply (ends_constant _ _ t _ _ (VBool true)); [by apply code_at_one| |done].
    apply (last_constant c7). etrans; [|exact Hk]. by exists [VBool false]. }
  assert (Hfalse : forall vm, ends constants code 2 (here c9) vm (here c11) (stack vm) (Ok (VBool false))).
  { intros vm'. eapply ends_weaken; [|apply le_S, le_n].
    replace (here c11) with (here c9 + 1) by lia.
    eapply (ends_constant _ _ t _ _ (VBool false)); [by apply code_at_one| |done].
    by apply (last_constant (patchJump (here c6) c9)). }
  destruct m1 as [r1|]; [|done]. eapply branches_ends.
  { apply (R1 constants code (here c4) vm r1); [by etrans|by apply code_at_app|done|done]. }
  destruct r1 as [v|e]; [|by injection Hr as <-]. destruct v; try (by injection Hr as <-).
  intros vm1 St1 P1. cbn [on_condition on_value] in Hr. rewrite <- St1.
  replace (here c + zlen s1 + 1) with (here c2) by lia.
  destruct b; [injection Hr as <-; eapply ends_weaken; [apply Htrue1|lia]|].
  destruct m2 as [r2|]; [|done]. replace (here c4) with (here c5) by lia.
  eapply branches_ends.
  { apply (R2 constants code (here c9) vm1 r2); [by etrans|by apply code_at_app| |done].
    by eapply vars_ok_preserved. }
  destruct r2 as [v|e]; [|by injection Hr as <-]. destruct v; try (by injection Hr as <-).
  intros vm2 St2 P2'. cbn [on_condition on_value] in Hr. injection Hr as <-. rewrite <- St2.
  replace (here c5 + zlen s2 + 1) with (here c7) by lia. destruct b; [apply Htrue2|apply Hfalse].
Qed.

Lemma correct_coalesce (t : Pos) (c c1 c3 : Compiler) (m1 m2 : option (result VMError Value)) :
  let c2 := emitAt OpNullCoalesce t [-1] c1 in
  correct c c1 m1 -> correct c2 c3 m2 ->
  correct c (patchJump (here c1) c3)
    (on_value m1 (fun v => if IsNull v then m2 else Some (Ok v))).
Proof.
  intros c2 (s1&E1&R1) (s2&E2&R2).
  pose proof (emits_at OpNullCoalesce t [-1] c1) as Ej. fold c2 in Ej.
  set (nc := instruction OpNullCoalesce t [-1]) in *.
  pose proof (emits_trans _ _ _ _ _ E1 (emits_trans _ _ _ _ _ Ej E2)) as E.
  pose proof (emits_here _ _ _ E1) as P1. pose proof (emits_here _ _ _ Ej) as P2.
  pose proof (emits_here _ _ _ E2) as P3. zlens.
  eexists. split; [eapply (emits_patch_at _ _ _ s1 s2); [exact E|reassoc|lia|first [reflexivity|by rewrite here_patch]]|].
  intros constants code vm r Hk Hc Hv Hr. change (Constants (patchJump _ _)) with (Constants c3) in Hk.
  apply code_at_app in Hc as [Hc1 Hc]. apply code_at_app in Hc as [Hj Hc2]. zlens.
  at_pos Hc2 (here c2). at_pos Hj (here c1). apply code_at_one in Hj.
  assert (K1 : Constants c1 `prefix_of` constants).
  { etrans; [exact (emits_constants _ _ _ Ej)|]. etrans; [exact (emits_constants _ _ _ E2)|done]. }
  destruct m1 as [[v|e]|]; [| |done]; simpl in Hr.
  2:{ injection Hr as <-. apply (leaves_error _ _ _ _ _ _ (stack vm)).
      by apply (R1 constants code vm (Err e)). }
  destruct (R1 constants code vm (Ok v) K1 Hc1 Hv eq_refl) as (n&w&vm1&Hn&Hre&Hs&(u&->&Hu&->)&Hp).
  rewrite <- P1 in Hre.
  set (m := execNullCoalesce (set_target (here c3) nc) (here c1)).
  assert (Hx : exec constants (set_target (here c3) nc) (here c1) = Some m) by done.
  apply (ends_leaves _ _ (length s1 + 1 + length s2) _ (here c3));
    [|rewrite !length_app; simpl; lia|zlens; lia].
  destruct (IsNull (settle u)) eqn:Enull.
  - assert (u = VNull) as -> by (by scalar_cases u).
    assert (Hm : m vm1 = (set_stack (stack vm) vm1, Ok (here c2 - 1))).
    { subst m. unfold execNullCoalesce, bind, reframe, peekVM. rewrite Hs. simpl.
      unfold popVM. rewrite Hs. unfold ret. do 2 f_equal. lia. }
    assert (Hre2 := reaches_trans _ _ _ _ _ _ _ _ _ _ Hre (turn_reaches _ _ _ _ _ _ _ _ Hj Hx Hm)).
    set (vm2 := set_stack (stack vm) vm1) in *.
    assert (Hp2 : preserves vm vm2) by (eapply preserves_trans; [done|apply preserves_stack]).
    pose proof (R2 constants code vm2 r Hk Hc2 (vars_ok_preserved _ _ Hp2 Hv) Hr) as H2.
    destruct r as [v|e]; simpl in H2 |- *.
    + destruct H2 as (n2&w&vm3&Hn2&Hre3&Hs3&Hw&Hp3). exists (n + 1 + n2)%nat, w, vm3.
      rewrite <- P3 in Hre3.
      split_and!; [lia|by eapply reaches_trans|done|done|by eapply preserves_trans].
    + destruct H2 as (n2&Hn2&Hst). exists (n + 1 + n2)%nat. split; [lia|by eapply reaches_stops].
  - injection Hr as <-.
    assert (Hm : m vm1 = (vm1, Ok (here c3 - 1))).
    { subst m. unfold execNullCoalesce, bind, reframe, peekVM. rewrite Hs.
      scalar_cases u; reflexivity. }
    exists (n + 1)%nat, (VMValueFromValue u), vm1. split_and!; [lia| |done|by exists u|done].
    eapply reaches_trans; [exact Hre|]. by eapply turn_reaches.
Qed.

Lemma correct_ternary (t : Pos) (c c1 c2 c5 : Compiler) (j : Z)
    (mc ma mb : option (result VMError Value)) :
  let c3 := emitAt OpJump t [-1] c2 in
  let c4 := patchJump j c3 in
  branch_code c c1 j mc -> correct c1 c2 ma -> correct c4 c5 mb ->
  correct c (patchJump (here c2) c5) (on_condition mc (fun b => if b then ma else mb)).
Proof.
  intros c3 c4 (s0&i0&E0&->&R0) (s1&E1&R1) (s2&E2&R2).
  pose proof (emits_at OpJump t [-1] c2) as Ej. fold c3 in Ej.
  set (jmp := instruction OpJump t [-1]) in *.
  pose proof (emits_here _ _ _ E0) as P0. pose proof (emits_here _ _ _ E1) as P1.
  pose proof (emits_here _ _ _ Ej) as P3. pose proof (emits_here _ _ _ E2) as P5.
  pose proof (here_patch (here c + zlen s0) c3) as P4. fold c4 in P4. zlens.
  assert (E4 : emits c c4 (s0 ++ [set_target (here c3) i0] ++ s1 ++ [jmp])).
  { eapply emits_patch_at; [exact (emits_trans _ _ _ _ _ E0 (emits_trans _ _ _ _ _ E1 Ej))|reassoc|lia|first [reflexivity|by rewrite here_patch]]. }
  pose proof (emits_trans _ _ _ _ _ E4 E2) as E.
  eexists. split.
  { eapply (emits_patch_at _ _ _ (s0 ++ [set_target (here c3) i0] ++ s1) s2);
      [exact E|reassoc|zlens; lia|first [reflexivity|by rewrite here_patch]]. }
  intros constants code vm r Hk Hc Hv Hr. change (Constants (patchJump _ _)) with (Constants c5) in Hk.
  repeat rewrite <- app_assoc in Hc.
  apply code_at_app in Hc as [Hc0 Hc]. apply code_at_app in Hc as [Hi Hc].
  apply code_at_app in Hc as [Hc1 Hc]. apply code_at_app in Hc as [Hj Hc2]. zlens.
  assert (K2 : Constants c2 `prefix_of` constants) by (etrans; [exact (emits_constants _ _ _ E2)|done]).
  assert (K1 : Constants c1 `prefix_of` constants) by (etrans; [exact (emits_constants _ _ _ E1)|done]).
  at_pos Hc1 (here c1). at_pos Hj (here c2). at_pos Hc2 (here c4). apply code_at_one in Hj.
  apply (ends_leaves _ _ (length s0 + 1 + (length s1 + 1 + length s2)) _ (here c5));
    [|rewrite !length_app; simpl; lia|zlens; lia].
  destruct mc as [r0|]; [|done]. eapply branches_ends.
  { apply (R0 constants code (here c3) vm r0); [done|by apply code_at_app|done|done]. }
  destruct r0 as [v|e]; [|by injection Hr as <-]. destruct v; try (by injection Hr as <-).
  intros vm1 St1 Q1. cbn [on_condition on_value] in Hr. rewrite <- St1.
  apply (vars_ok_preserved _ _ Q1) in Hv. destruct b.
  - eapply (ends_weaken _ _ (length s1 + 1)); [|lia]. eapply ends_jump; [exact Hj|].
    replace (here c + zlen s0 + 1) with (here c1) by lia.
    apply leaves_ends; [lia|]. by apply R1.
  - eapply (ends_weaken _ _ (length s2)); [|lia]. replace (here c3) with (here c4) by lia.
    apply leaves_ends; [lia|]. by apply R2.
Qed.

(** ** Expressions *)

(** The names are variables, and the literals that folding reads are read by
    the literal parser alike. *)
Fixpoint source_ok (e : Expression) : bool :=
  match e with
  | Identifier _ name => match resolveName names name with Some _ => true | None => false end
  | InfixExpression _ _ l r => literals_ok l && literals_ok r && source_ok l && source_ok r
  | PrefixExpression _ _ r => source_ok r
  | TernaryExpression _ cond a b => source_ok cond && source_ok a && source_ok b
  | _ => true
  end.

Variable unresolvedName : Pos -> gostring -> Compiler -> result gostring Compiler.

Abbreviation compileInner :=
  (compileExpressionInner RatSetString ParseFloat typeAliasLookup unresolvedName).

Lemma correct_names (c c' : Compiler) (m : option (result VMError Value)) :
  correct c c' m -> same_names c -> same_names c'.
Proof. intros (seg&E&_). by eapply same_names_emits. Qed.

Lemma correct_emits (c c' : Compiler) (seg : list Instruction) :
  emits c c' seg -> correct c c' None.
Proof. intros E. by exists seg. Qed.

Lemma correct_int_literal (t : Pos) (text : gostring) (c c' : Compiler) :
  compileIntegerLiteral typeAliasLookup t text c = Ok c' ->
  correct c c' (meaning (currentExpectedType c) (IntegerLiteral t text)).
Proof.
  unfold compileIntegerLiteral. cbn [eval].
  destruct (ParseIntLiteral text) as [z|]; [|done]. cbn [fmap option_fmap option_map].
  unfold int_literal_value.
  set (x := currentExpectedType c).
  assert (Hx : exists deps, expandRecordedTypeAlias typeAliasLookup x c
                 = (fst (expandRecordedTypeAlias typeAliasLookup x names), with_deps deps c)).
  { unfold expandRecordedTypeAlias.
    assert (Hc : c = with_deps (TypeAliasDeps c) c) by (by destruct c).
    destruct typeAliasLookup; [|by exists (TypeAliasDeps c); rewrite <- Hc].
    case_decide; [by exists (TypeAliasDeps c); rewrite <- Hc|].
    case_decide; [by exists (TypeAliasDeps c); rewrite <- Hc|]. eauto. }
  destruct Hx as [deps ->]. set (c1 := with_deps deps c).
  assert (Hk : forall v, scalar v = true -> correct c (emitConstant v t c1) (Some (Ok (settle v)))).
  { intros v Hv. destruct (correct_constant v t c1 Hv) as (seg&E&R). exists seg.
    split; [by eapply (emits_trans _ _ _ []), E; apply emits_deps|exact R]. }
  set (typ := TrimPrefix _ _).
  case_decide; [intros [= <-]; by apply (Hk (VDecimal _))|].
  case_decide; [intros [= <-]; by apply (Hk (VFloat _))|].
  destruct (is_int64 z) eqn:Ez; intros [= <-]; [by apply (Hk (VSmallInt z))|by apply (Hk (VInt z))].
Qed.

Lemma tryFuse_same (c : Compiler) (op : Operator) (l r : Expression) :
  same_names c -> tryFuseModZeroBranch c op l r = tryFuseModZeroBranch names op l r.
Proof.
  intros (S&G&T). unfold tryFuseModZeroBranch, resolveName. by rewrite S, G, T.
Qed.

(** Operands of a condition. *)
Definition inside (e cond : Expression) : Prop :=
  e = cond \/ match cond with InfixExpression _ _ l r => e = l \/ e = r | _ => False end.

Lemma correct_condition (compile : Expression -> Compiler -> result gostring Compiler)
    (t : Pos) (cond : Expression) (c c' : Compiler) (j : Z) :
  (forall e c1 c1', inside e cond -> same_names c1 -> compile e c1 = Ok c1' ->
     correct c1 c1' (meaning [] e)) ->
  same_names c -> compileCondition compile cond t c = Ok (j, c') ->
  branch_code c c' j (if branch_trap names unboxed cond then None else meaning [] cond).
Proof.
  intros Hsub Hn.
  assert (Hplain : (let* c1 := compile cond c in Ok (emitJump OpJumpIfFalse t c1)) = Ok (j, c') ->
            branch_code c c' j (meaning [] cond)).
  { intros (c1&H1&Hj)%res_bind_ok. injection Hj as <- <-. apply branch_plain.
    apply Hsub; [by left|done..]. }
  destruct cond as [| | | | | | |t1 op l r| |]; try exact Hplain.
  cbn [compileCondition branch_trap]. rewrite tryFuse_same by done.
  destruct (tryFuseModZeroBranch names op l r) as [[[slot divisor] f]|] eqn:Ef.
  - intros [= <- <-]. destruct (unboxed slot) eqn:Eu; cbn [negb].
    + by apply branch_mod.
    + exists [], (instruction f t [-1; slot; divisor]).
      split_and!; [apply emits_at|unfold here, zlen; simpl; lia|done].
  - destruct (fusedCompareJumpOpFor op) as [f|] eqn:Eo; [|exact Hplain].
    destruct (staticIntExpr c l && staticIntExpr c r); [|exact Hplain].
    intros (c1&H1&(c2&H2&Hj)%res_bind_ok)%res_bind_ok. injection Hj as <- <-.
    apply Hsub in H1; [|right; auto|done].
    apply Hsub in H2; [|right; auto|by eapply correct_names].
    replace (meaning [] (InfixExpression t1 op l r))
      with (on_value (meaning [] l) (fun a => on_value (meaning [] r) (infix_value op a)))
      by (by destruct op).
    by eapply branch_fused.
Qed.

Fixpoint esize (e : Expression) : nat :=
  match e with
  | InfixExpression _ _ l r => S (esize l + esize r)
  | PrefixExpression _ _ r => S (esize r)
  | TernaryExpression _ cond a b => S (esize cond + esize a + esize b)
  | _ => 1
  end.

Lemma correct_weaken (c c' : Compiler) (m m' : option (result VMError Value)) :
  correct c c' m -> (forall r, m' = Some r -> m = Some r) -> correct c c' m'.
Proof. intros (seg&E&R) Hm. exists seg. split; [done|]. intros. apply R; auto. Qed.

Lemma source_ok_inside (e cond : Expression) :
  inside e cond -> source_ok cond = true -> source_ok e = true /\ (esize e <= esize cond)%nat.
Proof.
  intros [->|Hin] Hs; [done|]. destruct cond; try done. cbn [source_ok esize] in *.
  apply andb_prop in Hs as [[[_ _]%andb_prop Hl]%andb_prop Hr]. destruct Hin as [-> | ->];
    (split; [done|lia]).
Qed.

(** The code of an expression computes the value of the expression. *)
Lemma compile_inner_correct (e : Expression) (c c' : Compiler) :
  source_ok e = true -> same_names c -> compileInner e c = Ok c' ->
  correct c c' (meaning (currentExpectedType c) e).
Proof.
  remember (esize e) as n eqn:En. revert e c c' En.
  induction n as [n IH] using lt_wf_ind. intros e c c' -> Hs Hn Hc.
  assert (Hexp : forall x expected c1 c1', (esize x < esize e)%nat -> source_ok x = true ->
            same_names c1 -> with_expected_type expected (compileInner x) c1 = Ok c1' ->
            correct c1 c1' (meaning expected x)).
  { intros x expected c1 c1' Hx Hsx Hn1 Hw.
    apply (correct_expected expected (compileInner x) (fun ex => meaning ex x)); [|done..].
    intros c2 c2' Hn2 Hc2. by eapply IH. }
  destruct e as [t text|t text|t text|t triple s|t b|t|t name|t op l r|t op r|t cond a b];
    cbn [compileExpressionInner] in Hc; cbn [source_ok esize] in *.
  - by apply correct_int_literal.
  - cbn [eval]. destruct (ParseDecimalLiteral RatSetString text); [|done].
    injection Hc as <-. by apply (correct_constant (VDecimal _)).
  - cbn [eval]. destruct (ParseFloat _); [|done]. injection Hc as <-.
    by apply (correct_constant (VFloat _)).
  - injection Hc as <-. by apply (correct_constant (VString s)).
  - injection Hc as <-. destruct b;
    [exact (correct_constant (VBool true) t c eq_refl)|exact (correct_constant (VBool false) t c eq_refl)].
  - injection Hc as <-. by apply (correct_constant VNull).
  - unfold compileIdentifier in Hc. rewrite resolve_same in Hc by done.
    destruct (resolveName names name) as [b|] eqn:Eb; [|done]. injection Hc as <-.
    by apply correct_variable.
  - apply andb_prop in Hs as [[[Ll Lr]%andb_prop Hl]%andb_prop Hr].
    assert (Hsub : forall x c1 c1', x = l \/ x = r -> same_names c1 ->
              with_expected_type [] (compileInner x) c1 = Ok c1' -> correct c1 c1' (meaning [] x)).
    { intros x c1 c1' [-> | ->]; apply Hexp; (lia || done). }
    assert (Hgen : compileInfix ParseFloat (fun x => with_expected_type [] (compileInner x)) t op l r c = Ok c' ->
              correct c c' (on_value (meaning [] l) (fun a => on_value (meaning [] r) (infix_value op a)))).
    { by apply correct_infix. }
    destruct op; try (by apply Hgen); cbn [eval].
    + apply res_bind_ok in Hc as (c1&H1&(c3&H3&Hc)%res_bind_ok). injection Hc as <-.
      apply Hsub in H1; [|auto|done].
      apply Hsub in H3; [|auto|by apply (correct_names c1 _ _ (correct_emits _ _ _ (emits_at _ _ _ _))), (correct_names _ _ _ H1)].
      by apply correct_and.
    + apply res_bind_ok in Hc as (c1&H1&(c6&H6&Hc)%res_bind_ok). injection Hc as <-.
      apply Hsub in H1; [|auto|done]. apply Hsub in H6; [|auto|by apply (correct_names _ _ _ H1)].
      by apply correct_or.
    + apply res_bind_ok in Hc as (c1&H1&(c3&H3&Hc)%res_bind_ok). injection Hc as <-.
      apply Hexp in H1; [|lia|done..]. apply Hexp in H3; [|lia|done|by apply (correct_names _ _ _ H1)].
      exact (correct_coalesce t c c1 c3 _ _ H1 H3).
    + apply res_bind_ok in Hc as (c1&H1&(c2&H2&Hc)%res_bind_ok). injection Hc as <-.
      apply Hsub in H1; [|auto|done]. apply Hsub in H2; [|auto|by apply (correct_names _ _ _ H1)].
      eapply (correct_then2 _ _ _ _ _ _ (infix_value InfixIs)); [done..|apply (emits_all [OpIdentical])|].
      intros constants code vm s wl wr a b res _ _ _ _ _ _ _ _ Hi. discriminate.
    + apply res_bind_ok in Hc as (c1&H1&(c2&H2&Hc)%res_bind_ok). injection Hc as <-.
      apply Hsub in H1; [|auto|done]. apply Hsub in H2; [|auto|by apply (correct_names _ _ _ H1)].
      eapply (correct_then2 _ _ _ _ _ _ (infix_value InfixIsNot)); [done..|apply (emits_all [OpIdentical; OpNot])|].
      intros constants code vm s wl wr a b res _ _ _ _ _ _ _ _ Hi. discriminate.
  - apply res_bind_ok in Hc as (c1&H1&Hc). injection Hc as <-. apply Hexp in H1; [|lia|done..].
    cbn [eval]. eapply correct_then1; [exact H1|apply emits_at|].
    intros constants code vm s w a res _ Hcode _ Hstk _ Hw Hres. injection Hres as <-.
    by eapply leaves_opcode1; [by destruct op; in_list|..].
  - apply res_bind_ok in Hc as ([j c1]&H1&(c2&H2&(c5&H5&Hc)%res_bind_ok)%res_bind_ok).
    injection Hc as <-. apply andb_prop in Hs as [[Hsc Hsa]%andb_prop Hsb].
    apply correct_condition in H1; [| |done].
    2:{ intros x c3 c3' Hin Hn3. destruct (source_ok_inside x cond Hin Hsc) as [Hx Hsz].
        apply Hexp; [lia|done..]. }
    assert (Hn1 : same_names c1) by (destruct H1 as (?&?&E&_); by eapply same_names_emits).
    apply Hexp in H2; [|lia|done..].
    apply Hexp in H5; [|lia|done|by apply (correct_names _ _ _ H2)].
    assert (Hx : currentExpectedType c1 = currentExpectedType c).
    { destruct H1 as (?&?&E&_). unfold currentExpectedType. by rewrite (emits_expected _ _ _ E). }
    rewrite Hx in *. pose proof (correct_ternary t c c1 c2 c5 j _ _ _ H1 H2 H5) as Ht.
    cbn [eval]. by destruct (branch_trap names unboxed cond).
Qed.
End Correct.

(** ** Whole programs *)

Section Program.
Context `{Externals}.

(** Correct code that starts a program, run by the machine. *)
Lemma correct_runs (env : gostring -> option Value) (unboxed : Z -> bool) (c c' : Compiler) (vm : VM)
    (m : option (result VMError Value)) (r : result VMError Value) :
  correct c env unboxed c c' m -> Instructions c = [] -> vars_ok c env unboxed vm -> m = Some r ->
  exists vm',
    dispatchLoop (S (length (Instructions c'))) (Constants c') (Instructions c') 0 vm
      = Some (vm', match r with Ok _ => Ok tt | Err err => Err err end) /\
    match r with
    | Ok v => exists w, stack vm' = w :: stack vm /\ repr w v /\ preserves vm vm'
    | Err _ => True
    end.
Proof.
  intros Hcor Hnil Hv Hr.
  destruct Hcor as (seg&E&R). pose proof (emits_code _ _ _ E) as Hcode. rewrite Hnil in Hcode.
  simpl in Hcode. subst seg. assert (H0 : here c = 0) by (unfold here; by rewrite Hnil).
  rewrite H0 in R. set (code := Instructions c') in *.
  assert (Hat : code_at code 0 code).
  { intros k ins Hk. unfold zlookup. rewrite (proj2 (Z.ltb_ge _ _)) by lia. by rewrite Z.add_0_l, Nat2Z.id. }
  specialize (R (Constants c') code vm r (reflexivity _) Hat Hv Hr).
  destruct r as [v|err].
  - destruct R as (n&w&vm'&Hn&Hre&Hst&Hw&Hp). exists vm'. split; [|by exists w].
    replace (S (length code)) with (n + S (length code - n))%nat by lia.
    rewrite (Hre (S (length code - n))). simpl. by rewrite (proj2 (Z.leb_le _ _)) by done.
  - destruct R as (n&Hn&vm'&Hst). exists vm'. split; [|done].
    replace (S (length code)) with (n + S (length code - n))%nat by lia. apply Hst.
Qed.

(** What the compiler makes of an expression is correct. *)
Lemma expression_correct ParseFloat typeAliasLookup unresolvedName (env : gostring -> option Value)
    (unboxed : Z -> bool) (e : Expression) (expected : gostring) (c c' : Compiler) :
  source_ok ParseFloat c e = true ->
  compileExpressionWithExpected RatSetString ParseFloat typeAliasLookup unresolvedName e expected c
    = Ok c' ->
  correct c env unboxed c c' (eval ParseFloat typeAliasLookup c env unboxed expected e).
Proof.
  intros Hs Hc.
  eapply (correct_expected c env unboxed expected _
            (fun ex => eval ParseFloat typeAliasLookup c env unboxed ex e)); [|done|exact Hc].
  intros c1 c1' Hn Hc1. by eapply compile_inner_correct.
Qed.

(** C1: compiled expressions compute what they mean.  When the compiler turns an expression (literals,
    variables, infix and prefix operators, [&&], [||], [??] and conditionals, nested at will) into a program,
    running the program on the VM ends within one turn per instruction; if the expression has a value, that
    value is on top of the old stack and every variable still has its own value, and if evaluation fails the
    run ends with exactly that error.  Three things are excluded by name, because the compiled code departs
    from the meaning there: an operation on two literals one of which the folder reads otherwise than the
    language (a leading zero, which it takes for octal: [source_ok], [leading_zero_folds_as_octal]); an
    evaluation that multiplies -1 by -2^63; and one that meets a fused remainder test on a local that is
    captured or holds a big integer ([trapped], [fused_mod_rejects]).  [source_ok] also asks that every name is a
    variable of the compiler.  The meaning [value_of] has no value for variables outside the scope, malformed literals, and the operators [in] and [is]. *)
Theorem compile_correct ParseFloat typeAliasLookup unresolvedName (env : gostring -> option Value)
    (unboxed : Z -> bool) (e : Expression) (expected : gostring) (c c' : Compiler) (vm : VM)
    (r : result VMError Value) :
  Instructions c = [] ->
  source_ok ParseFloat c e = true ->
  compileExpressionWithExpected RatSetString ParseFloat typeAliasLookup unresolvedName e expected c
    = Ok c' ->
  vars_ok c env unboxed vm ->
  trapped ParseFloat typeAliasLookup c env unboxed expected e = false ->
  value_of ParseFloat typeAliasLookup c env unboxed expected e = Some r ->
  exists vm',
    dispatchLoop (S (length (Instructions c'))) (Constants c') (Instructions c') 0 vm
      = Some (vm', match r with Ok _ => Ok tt | Err err => Err err end) /\
    match r with
    | Ok v => exists w, stack vm' = w :: stack vm /\ repr w v /\ preserves vm vm'
    | Err _ => True
    end.
Proof.
  intros Hnil Hs Hc Hv Ht Hr. rewrite <- value_of_eval in Hr by exact Ht. eapply correct_runs; [|exact Hnil|exact Hv|exact Hr]. by eapply expression_correct.
Qed.
End Program.

(** ** A concrete run *)

Definition plain_externals : Externals := {|
  math_Pow := fun a _ => a;
  FormatFloat_g := fun _ => [];
  RatSetString := fun _ => None;
  nativeBinary := fun _ a _ => Ok a;
  nativeNegate := fun v => Ok v;
  instanceOperator := fun _ _ _ => None;
  payloadEq := Z.eqb;
  instanceDeepEqual := fun _ _ => Ok false;
  instanceCompare := fun _ _ _ => None;
  instanceEqual := fun _ _ => None |}.

(** [x] is the first local and [s] the first global. *)
Definition sample_compiler : Compiler :=
  mkCompiler [] [] [∅; {[bs "x" := mkBinding true 0 (bs "int")]}] {[bs "s" := 0]}
    {[bs "s" := bs "string"]} [] ∅.
Definition sample_env (name : gostring) : option Value :=
  if decide (name = bs "x") then Some (VInt 7)
  else if decide (name = bs "s") then Some (VString (bs "hi")) else None.
Definition sample_vm (x : Slot) : VM :=
  mkState [VMValueNull] [x] 0 [GVal (VMValueFromValue (VString (bs "hi")))] [] false false [] [] 
    {[0 := Some (VSmallInt 7)]} ∅.

(** [x % 3 == 1 && s + "!" == "hi!" ? 2 * 3 + x : null ?? 0]. *)
Definition at0 : Pos := mkPos 1 1.
Definition sample_expression : Expression :=
  let int (s : String.string) := IntegerLiteral at0 (bs s) in
  let str (s : String.string) := StringLiteral at0 false (bs s) in
  let infix := InfixExpression at0 in
  TernaryExpression at0
    (infix InfixAnd
       (infix InfixEq (infix InfixMod (Identifier at0 (bs "x")) (int "3")) (int "1"))
       (infix InfixEq (infix InfixPlus (Identifier at0 (bs "s")) (str "!")) (str "hi!")))
    (infix InfixPlus (infix InfixTimes (int "2") (int "3")) (Identifier at0 (bs "x")))
    (infix InfixCoalesce (NullLiteral at0) (int "0")).

Definition sample_program : Compiler :=
  match @compileExpressionWithExpected (fun _ => None) (fun _ => None) None (fun _ _ c => Ok c)
          sample_expression [] sample_compiler with
  | Ok c => c
  | Err _ => sample_compiler
  end.

Lemma sample_vars : vars_ok sample_compiler sample_env (fun _ => true)
                      (sample_vm (SVal (VMValueFromValue (VSmallInt 7)))).
Proof.
  intros name b v Hb He. unfold sample_env in He.
  destruct (decide (name = bs "x")) as [->|Hx].
  - injection He as <-. vm_compute in Hb. injection Hb as <-. split_and!.
    + eexists. split; [reflexivity|]. by exists (VSmallInt 7).
    + eauto.
    + intros _ _. by exists 7.
  - destruct (decide (name = bs "s")) as [->|Hs]; [|done]. injection He as <-.
    vm_compute in Hb. injection Hb as <-. split_and!; [|done..].
    eexists. split; [reflexivity|]. by exists (VString (bs "hi")).
Qed.

Lemma compile_correct_witness :
  exists vm', @dispatchLoop plain_externals (S (length (Instructions sample_program)))
                (Constants sample_program)
                (Instructions sample_program) 0 (sample_vm (SVal (VMValueFromValue (VSmallInt 7))))
              = Some (vm', Ok tt) /\
    exists w, stack vm' = w :: [VMValueNull] /\ repr w (VInt 13) /\
      preserves (sample_vm (SVal (VMValueFromValue (VSmallInt 7)))) vm'.
Proof.
  apply (@compile_correct plain_externals (fun _ => None) None (fun _ _ c => Ok c) sample_env
           (fun _ => true) sample_expression [] sample_compiler sample_program
           (sample_vm (SVal (VMValueFromValue (VSmallInt 7)))) (Ok (VInt 13)));
    [reflexivity|vm_compute; reflexivity|vm_compute; reflexivity|apply sample_vars|
     vm_compute; reflexivity|vm_compute; reflexivity].
Defined.

(** ** Where compiled code departs from the expression *)

(** C30: a fused remainder test rejects integers.  A condition such as
    [x % 3 == 0] on a local of static type [int] compiles to a single
    instruction; when the local is captured by a closure, or holds an integer
    beyond 64 bits, that instruction fails with a run-time error, although the
    test itself has a truth value. *)
Theorem fused_mod_rejects `{Externals} ParseFloat aliases (env : gostring -> option Value) unboxed
    compile (t t1 : Pos) (op : Operator) (l r : Expression) (c : Compiler) (slot divisor : Z) (f : Op) :
  tryFuseModZeroBranch c op l r = Some (slot, divisor, f) ->
  (forall name v, env name = Some v -> exists i, v = VInt i) ->
  (forall name b, resolveName c name = Some b -> env name <> None) ->
  (exists b, eval ParseFloat aliases c env unboxed [] (InfixExpression t1 op l r) = Some (Ok (VBool b)))
  /\ exists ins c', compileCondition compile (InfixExpression t1 op l r) t c = Ok (here c, c')
     /\ Instructions c' = Instructions c ++ [ins]
     /\ forall constants target ip vm s,
          zlookup (localsStack vm) (local_index slot vm) = Some s ->
          (forall i, s <> SVal (VMValueSmallInt i)) ->
          (forall w, s = SVal w -> exists u, w = VMValueFromValue u) ->
          exists m, exec constants (set_target target ins) ip = Some m
            /\ m vm = (vm, Err (RuntimeError (bs "mod-jump fast path requires int local"))).
Proof.
  intros Hf Hint Hdef.
  pose proof (tryFuse_inv c op l r slot divisor f Hf)
    as (t2&t3&t4&name&text&b&Hside&Hb&Hloc&Htyp&Hslot&Htext&Hd&Hop).
  apply Atoi_ParseIntLiteral in Htext as [Hd64 Htext]. split.
  - destruct (env name) as [v|] eqn:He; [|by destruct (Hdef name b Hb)].
    destruct (Hint name v He) as [i ->].
    set (test := InfixExpression t2 InfixMod (Identifier t3 name) (IntegerLiteral t4 text)) in *.
    assert (Htest : eval ParseFloat aliases c env unboxed [] test = Some (Ok (VInt (i mod divisor)))).
    { cbn [eval test]. rewrite He, Htext. cbn [fmap option_fmap option_map on_value].
      rewrite int_literal_plain. by apply mod_value. }
    assert (Hop' : op = InfixEq \/ op = InfixNe) by (destruct Hop as [[]|[]]; auto).
    replace (eval _ _ _ _ _ _ (InfixExpression t1 op l r))
      with (on_value (eval ParseFloat aliases c env unboxed [] l) (fun a =>
              on_value (eval ParseFloat aliases c env unboxed [] r) (infix_value op a)))
      by (by destruct Hop' as [-> | ->]).
    destruct Hside as [[-> Hz]|[-> Hz]];
      apply (zero_literal ParseFloat aliases c env unboxed) in Hz; rewrite Hz, Htest; cbn [on_value];
      rewrite (mod_test_value op i divisor) by auto; eauto.
  - cbn [compileCondition]. rewrite Hf. eexists _, _. split_and!; [reflexivity..|].
    intros constants target ip vm s Hs Hsmall Hcanon. exists (execModJump f [target; slot; divisor] ip).
    split; [by destruct Hop as [[_ ->]|[_ ->]]|].
    pose proof (zlookup_bound _ _ _ Hs) as Hbound. unfold execModJump, bind, get.
    rewrite (proj2 (Z.ltb_ge _ _)), (proj2 (Z.leb_gt _ _)) by lia. cbn [orb].
    unfold at_index. rewrite Hs. cbn [ret]. destruct s as [w|p|p]; try done.
    case_decide as Hk; [|done]. exfalso. destruct (Hcanon w eq_refl) as [u ->].
    destruct u; try discriminate; [by destruct b0|]. by apply (Hsmall i).
Qed.

Lemma fused_mod_rejects_witness :
  let cond := InfixExpression at0 InfixEq
                (InfixExpression at0 InfixMod (Identifier at0 (bs "x")) (IntegerLiteral at0 (bs "3")))
                (IntegerLiteral at0 (bs "0")) in
  exists ins c', compileCondition (fun _ c => Ok c) cond at0 sample_compiler = Ok (0, c')
    /\ Instructions c' = [ins]
    /\ exists m, @exec plain_externals [] (set_target 5 ins) 0 = Some m
         /\ m (sample_vm (SCell 0))
            = (sample_vm (SCell 0), Err (RuntimeError (bs "mod-jump fast path requires int local"))).
Proof.
  intros cond.
  destruct (@fused_mod_rejects plain_externals (fun _ => None) None
              (fun name => if decide (name = bs "x") then Some (VInt 7) else Some (VInt 0)) (fun _ => false)
              (fun _ c => Ok c) at0 at0 InfixEq
              (InfixExpression at0 InfixMod (Identifier at0 (bs "x")) (IntegerLiteral at0 (bs "3")))
              (IntegerLiteral at0 (bs "0")) sample_compiler 0 3 OpJumpIfModNotZero)
    as [_ (ins&c'&Hc&Hi&Hx)].
  - reflexivity.
  - intros name v. destruct (decide (name = bs "x")); intros [= <-]; eauto.
  - intros name b _. by destruct (decide (name = bs "x")).
  - exists ins, c'. split; [exact Hc|]. split; [exact Hi|].
    by apply (Hx [] 5 0 (sample_vm (SCell 0)) (SCell 0)).
Defined.

(** Folding reads a literal with a leading zero as octal, while the literal
    alone, and its value at run time, are decimal. *)
Lemma leading_zero_folds_as_octal :
  let text := bs "010" in
  let sum := InfixExpression at0 InfixPlus (IntegerLiteral at0 text) (IntegerLiteral at0 (bs "1")) in
  ParseIntLiteral text = Some 10 /\
  foldConstantBinary (fun _ => None) InfixPlus (IntegerLiteral at0 text) (IntegerLiteral at0 (bs "1"))
    = Some (VInt 9) /\
  @eval plain_externals (fun _ => None) None sample_compiler sample_env (fun _ => true) [] sum
    = Some (Ok (VInt 11)).
Proof. split_and!; vm_compute; reflexivity. Qed.
