(* ===== verification/Ast.v ===== *)
(** * Ast: the syntax tree

    The nodes the parser builds (src/internal/ast/ast.go), and the printing of
    types.  A pointer or an interface that can be nil is an [option], except
    for [Expression] and [Statement], whose nil is a constructor of its own. *)

From S2P Require Import Prelude GoText Token.
#[local] Open Scope Z_scope.

(** [TypeRef]; the two fields that only the evaluator sets are left out. *)
#[warnings="-register-all"]
Inductive TypeRef := mkTypeRef {
  type_Token : Token; type_Name : gostring; Nullable : bool; type_Arguments : list TypeRef;
  ListAlias : bool; type_Left : option TypeRef; type_Operator : gostring; type_Right : option TypeRef }.

(** [TypeRef.String]; [String] of the nil pointer is empty. *)
Fixpoint TypeRef_String (t : TypeRef) : gostring :=
  let string_of (t : option TypeRef) := match t with Some t => TypeRef_String t | None => [] end in
  match type_Operator t with
  | _ :: _ =>
      string_of (type_Left t) ++ bs " " ++ type_Operator t ++ bs " " ++ string_of (type_Right t)
  | [] =>
      (if Nullable t then bs "?" else []) ++ type_Name t ++
      match type_Arguments t with
      | [] => []
      | args => bs "<" ++ join (bs ", ") (map TypeRef_String args) ++ bs ">"
      end ++
      (if ListAlias t then bs "[]" else [])
  end.

Record Identifier := mkIdent { ident_Token : Token; ident_Value : gostring }.

Record TypeParam := mkTypeParam { param_Name : Identifier; Constraint : option TypeRef }.
Record EnumPayloadParam := mkPayload { payload_Type : TypeRef; payload_Name : Identifier }.
Record EnumVariantPattern := mkVariantPattern {
  pattern_Token : Token; pattern_Enum : Identifier; pattern_Variant : Identifier;
  pattern_Params : list EnumPayloadParam }.
Record FromImportName := mkImportName { import_Name : Identifier; import_Alias : option Identifier }.

(** [Expression] and [Statement], with the structs they contain. *)
#[warnings="-register-all"]
Inductive Expression : Set :=
| NilExpression
| Ident (i : Identifier)
| Literal_ (t : Token) (value : option bool)
| StringLiteral (t : Token) (value raw : gostring) (quote : Z) (triple segment : bool)
| InterpolatedString (t : Token) (parts : list Expression)
| FormattedInterpolation (t : Token) (value : Expression) (spec : gostring)
| IntegerLiteral (t : Token) (value : gostring)
| DecimalLiteral (t : Token) (value : gostring)
| FloatLiteral (t : Token) (value : gostring)
| PrefixExpression (t : Token) (operator : gostring) (right : Expression) (parenthesized : bool)
| PostfixExpression (t : Token) (left : Expression) (operator : gostring)
| InfixExpression (t : Token) (left : Expression) (operator : gostring) (right : Expression)
    (rightType : option TypeRef) (parenthesized : bool)
| AssignmentExpression (t : Token) (left value : Expression)
| SelectorExpression (t : Token) (object : Expression) (name : Identifier) (optional parenthesized : bool)
| CallExpression (t : Token) (typeArguments : list TypeRef) (callee : Expression)
    (arguments : list CallArgument) (end_ : Token)
| PartialExpression (t : Token) (typeArguments : list TypeRef) (callee : Expression)
    (arguments : list CallArgument) (end_ : Token)
| IndexExpression (t : Token) (left index : Expression)
| ListLiteral (t : Token) (elements : list Expression) (bare : bool) (end_ : Token)
| DictLiteral (t : Token) (entries : list DictEntry) (end_ : Token)
| SetLiteral (t : Token) (elements : list Expression) (end_ : Token)
| ListComprehension (t : Token) (body : Expression) (clauses : list ComprehensionClause)
| SetComprehension (t : Token) (body : Expression) (clauses : list ComprehensionClause)
| DictComprehension (t : Token) (keyBody valueBody : Expression) (clauses : list ComprehensionClause)
| PipeExpression (t : Token) (left right : Expression)
| RangeExpression (t : Token) (start end_ : Expression) (exclusive : bool) (step : Expression)
| FunctionLiteral (t : Token) (async : bool) (parameters : list Param)
    (returnType : option TypeRef) (body : option BlockStatement)
| MatchExpression (t : Token) (expr : Expression) (cases : list MatchCase)
| AwaitExpression (t : Token) (value : Expression)
| CastExpression (t : Token) (value : Expression) (type_ : TypeRef) (parenthesized : bool)
| TernaryExpression (t : Token) (condition thenExpr elseExpr : Expression) (parenthesized : bool)
| SpreadExpression (t : Token) (value : Expression)
with CallArgument : Set :=
| mkArgument (name : option Identifier) (value : Expression) (spread hole : bool)
with DictEntry : Set :=
| mkEntry (key value : Expression) (spread : bool)
with ComprehensionClause : Set :=
| ComprehensionFor (t : Token) (varType : option TypeRef) (varName : option Identifier)
    (varNames : list Identifier) (iterable : Expression)
| ComprehensionIf (t : Token) (filter : Expression)
with Param : Set :=
| mkParameter (name : Identifier) (type_ : TypeRef) (default : Expression) (variadic isConst : bool)
    (decorators : list Decorator)
with Decorator : Set :=
| mkDecorator (t : Token) (name : Identifier) (arguments : list CallArgument)
with ListPatternBinding : Set :=
| mkBinding (type_ : option TypeRef) (name : option Identifier) (literal : Expression)
with ListPatternMatch : Set :=
| mkListPattern (t : Token) (bindings : list ListPatternBinding)
with MatchCase : Set :=
| mkMatchCase (t : Token) (pattern : Expression) (type_ : option TypeRef) (name : option Identifier)
    (guard : Expression) (body : option BlockStatement) (value : Expression) (default : bool)
    (enumVariant : option EnumVariantPattern) (listPattern : option ListPatternMatch)
    (alternates : list Expression)
with BlockStatement : Set :=
| mkBlock (t : Token) (end_ : Token) (statements : list Statement)
with FunctionStatement : Set :=
| mkFunction (t : Token) (async static : bool) (doc : gostring) (decorators : list Decorator)
    (name : option Identifier) (generics : list TypeParam) (parameters : list Param)
    (returnType : option TypeRef) (body : option BlockStatement)
with FunctionSignature : Set :=
| mkSignature (t : Token) (doc : gostring) (name : Identifier) (generics : list TypeParam)
    (parameters : list Param) (returnType : option TypeRef)
with DeclarationStatement : Set :=
| mkDeclaration (t : Token) (kind : gostring) (type_ : option TypeRef) (name : option Identifier)
    (value : Expression) (doc : gostring) (decorators : list Decorator)
with ClassStatement : Set :=
| mkClass (t : Token) (doc : gostring) (decorators : list Decorator) (name : option Identifier)
    (generics : list TypeParam) (extends : option TypeRef) (implements : list TypeRef)
    (members : list Statement) (destructor : option FunctionStatement)
    (fieldDecorators : list (gostring * list Decorator))
with InterfaceStatement : Set :=
| mkInterface (t : Token) (doc : gostring) (name : option Identifier) (generics : list TypeParam)
    (parents : list TypeRef) (methods : list FunctionSignature) (defaults : list FunctionStatement)
    (fields : list DeclarationStatement)
with EnumVariantDef : Set :=
| mkVariant (name : Identifier) (fieldTypes : list TypeRef) (backingValue : Expression)
with EnumStatement : Set :=
| mkEnum (t : Token) (name : option Identifier) (backingType : option TypeRef)
    (variants : list EnumVariantDef) (implements : list TypeRef) (methods : list FunctionStatement)
with ElseIfClause : Set :=
| mkElseIf (condition : Expression) (body : BlockStatement)
with CatchClause : Set :=
| mkCatch (type_ : option TypeRef) (name : option Identifier) (body : BlockStatement)
with SelectCase : Set :=
| mkSelectCase (kind : gostring) (channel : Expression) (binding : gostring) (value : Expression)
    (body : BlockStatement) (t : Token)
with Statement : Set :=
| NilStatement
| ModuleStatement (t : Token) (path : list gostring)
| ImportStatement (t : Token) (path : list gostring) (alias : option Identifier) (forceBuiltin : bool)
| FromImportStatement (t : Token) (path : list gostring) (names : list FromImportName) (forceBuiltin : bool)
| ExportStatement (t : Token) (statement : Statement)
| InitStatement (t : Token) (body : option BlockStatement)
| TypeAliasStatement (t : Token) (name : option Identifier) (type_ : option TypeRef)
| Declaration (d : DeclarationStatement)
| DestructuringStatement (t : Token) (names : list Identifier) (keys : list gostring)
    (isList define bare : bool) (value : Expression)
| ExpressionStatement (t : Token) (expression : Expression)
| ReturnStatement (t : Token) (value : Expression)
| YieldStatement (t : Token) (value : Expression)
| SimpleStatement (t : Token) (kind : gostring) (value : Expression)
| IfStatement (t : Token) (condition : Expression) (consequence : option BlockStatement)
    (elseIfs : list ElseIfClause) (alternative : option BlockStatement)
| WhileStatement (t : Token) (condition : Expression) (body : option BlockStatement)
| DelStatement (t : Token) (target : option Identifier)
| WithStatement (t : Token) (name : option Identifier) (value : Expression) (body : option BlockStatement)
| ForStatement (t : Token) (init : Statement) (condition : Expression) (update : Statement)
    (varType : option TypeRef) (varName : option Identifier) (varNames : list Identifier)
    (iterable step : Expression) (body : option BlockStatement)
| Function_ (f : FunctionStatement)
| Class_ (c : ClassStatement)
| Interface_ (i : InterfaceStatement)
| TryStatement (t : Token) (body : option BlockStatement) (catches : list CatchClause)
    (finally : option BlockStatement)
| Enum_ (e : EnumStatement)
| MatchStatement (t : Token) (expr : Expression) (cases : list MatchCase)
| SelectStatement (t : Token) (cases : list SelectCase) (default : option BlockStatement).

(** [Program]. *)
Record Program := mkProgram { Statements : list Statement }.

(** [ReservedModuleNamespace] and [NormalizeReservedImportPath]. *)
Definition ReservedModuleNamespace : gostring := bs "geblang".
Definition NormalizeReservedImportPath (path : list gostring) : list gostring * bool :=
  match path with
  | first :: ((_ :: _) as rest) =>
      if decide (first = ReservedModuleNamespace) then (rest, true) else (path, false)
  | _ => (path, false)
  end.
