(* ===== verification/Parsing.v ===== *)
(** * Parsing: the parser's state and primitives

    The token cursor of src/internal/parser/parser.go with its error list, the
    binding powers of the operators, and the look-ahead that decides between
    readings.  A parsing action either returns with a new state, or panics
    (an index of a Go slice out of range), or runs out of the fuel that bounds
    its recursion and its loops. *)

From S2P Require Import Prelude GoText Token Lexer Ast.
#[local] Open Scope Z_scope.

(** ** Binding powers *)

Definition lowest : nat := 1.
Definition assign : nat := 2.
Definition pipe : nat := 3.
Definition ternary : nat := 4.
Definition nullCoalesce : nat := 5.
Definition logicalOr : nat := 6.
Definition logicalAnd : nat := 7.
Definition bitOr : nat := 8.
Definition bitXor : nat := 9.
Definition bitAnd : nat := 10.
Definition equality : nat := 11.
Definition compare : nat := 12.
Definition shift : nat := 13.
Definition sum : nat := 14.
Definition product : nat := 15.
Definition power : nat := 16.
Definition prefix : nat := 17.
Definition postfix : nat := 18.
Definition call : nat := 19.

(** [precedences], with [lowest] for a type the map does not hold. *)
Definition precedence_of (t : Type_) : nat :=
  match t with
  | T_Assign | T_PlusAssign | T_MinusAssign | T_MulAssign | T_DivAssign | T_IntDivAssign
  | T_ModAssign | T_PowerAssign | T_BitAndAssign | T_BitOrAssign | T_BitXorAssign
  | T_LShiftAssign | T_RShiftAssign | T_NullCoalesceAssign => assign
  | T_Question => ternary
  | T_Pipe => pipe
  | T_NullCoalesce => nullCoalesce
  | T_Or | T_Xor => logicalOr
  | T_And => logicalAnd
  | T_BitOr => bitOr
  | T_BitXor => bitXor
  | T_BitAnd => bitAnd
  | T_Eq | T_NotEq | T_Is | T_InstanceOf => equality
  | T_In | T_LT | T_LTE | T_GT | T_GTE | T_Range | T_RangeExcl | T_As => compare
  | T_LShift | T_RShift => shift
  | T_Plus | T_Minus => sum
  | T_Asterisk | T_Slash | T_IntDiv | T_Percent => product
  | T_Power => power
  | T_Dot | T_OptionalChain | T_LParen | T_LBracket => call
  | T_Inc | T_Dec => postfix
  | _ => lowest
  end.

(** ** The state *)

(** [Parser]; [position] is the index of the token after [peekToken]. *)
Record Parser := mkParser {
  toks : list Token; position : nat; errors : list gostring;
  curToken : Token; peekToken : Token }.

(** The zero [token.Token], and the one past the end of the slice. *)
Definition zero_token : Token := mkToken T_Illegal [] [] 0 false false 0 0 [].
Definition eof_token : Token := mkToken T_EOF [] [] 0 false false 0 0 [].

Inductive Outcome (A : Type) := Done (a : A) (p : Parser) | Panicked | NoFuel.
Arguments Done {A} a p.
Arguments Panicked {A}.
Arguments NoFuel {A}.

Definition M (A : Type) : Type := Parser -> Outcome A.
Definition ret {A : Type} (a : A) : M A := Done a.
Definition bind {A B : Type} (m : M A) (k : A -> M B) : M B :=
  fun p => match m p with Done a p => k a p | Panicked => Panicked | NoFuel => NoFuel end.
Definition get : M Parser := fun p => Done p p.
Definition panic {A : Type} : M A := fun _ => Panicked.
Definition no_fuel {A : Type} : M A := fun _ => NoFuel.

Declare Scope parser_scope.
Notation "'let_' x <- m ; k" := (bind m (fun x => k))
  (at level 10, x name, m at level 100, k at level 200) : parser_scope.
Notation "'do_' m ; k" := (bind m (fun _ => k))
  (at level 10, m at level 100, k at level 200) : parser_scope.
#[local] Open Scope parser_scope.

(** [for { ... }]: a round either goes on with [inl] or leaves with [inr]. *)
Fixpoint loop {S A : Type} (n : nat) (body : S -> M (S + A)) (s : S) : M A :=
  match n with
  | O => no_fuel
  | S n => let_ r <- body s; match r with inl s => loop n body s | inr a => ret a end
  end.

(** ** Errors and the cursor *)

(** [errorAt] and [errorf]. *)
Definition errorAt (tok : Token) (msg : gostring) : gostring :=
  FormatInt (Line tok) ++ bs ":" ++ FormatInt (Column tok) ++ bs ": " ++ msg.
Definition add_error (e : gostring) (p : Parser) : Parser :=
  mkParser (toks p) (position p) (errors p ++ [e]) (curToken p) (peekToken p).
Definition errorf (tok : Token) (msg : gostring) : M unit :=
  fun p => Done tt (add_error (errorAt tok msg) p).

(** [nextToken]; a token the lexer rejected is reported when it is seen. *)
Definition advance (p : Parser) : Parser :=
  match nth_error (toks p) (position p) with
  | Some t => mkParser (toks p) (S (position p)) (errors p) (peekToken p) t
  | None => mkParser (toks p) (position p) (errors p) (peekToken p) eof_token
  end.
Definition nextToken : M unit := fun p =>
  let p := advance p in
  Done tt (if decide (tok_Type (peekToken p) = T_Illegal)
           then add_error (errorAt (peekToken p) (Literal (peekToken p))) p else p).

(** [rewindOne]. *)
Definition rewindOne : M unit := fun p =>
  Done tt (match position p with
           | S n => mkParser (toks p) n (errors p) (curToken p) (curToken p)
           | O => p
           end).

Definition cur : M Token := fun p => Done (curToken p) p.
Definition peek : M Token := fun p => Done (peekToken p) p.

(** [curTokenIs], [peekTokenIs] and [peekNextTokenIs]. *)
Definition tok_is (t : Token) (k : Type_) : bool := bool_decide (tok_Type t = k).
Definition curTokenIs (k : Type_) : M bool := fun p => Done (tok_is (curToken p) k) p.
Definition peekTokenIs (k : Type_) : M bool := fun p => Done (tok_is (peekToken p) k) p.
Definition peekNextTokenIs (k : Type_) : M bool := fun p =>
  Done (match nth_error (toks p) (position p) with
        | Some t => tok_is t k
        | None => bool_decide (k = T_EOF)
        end) p.

(** [isTypeStartToken] and [isIdentifierNameToken]. *)
Definition isTypeStartToken (t : Type_) : bool :=
  match t with T_Ident | T_Bool | T_Func | T_TypeKw => true | _ => false end.
Definition isIdentifierNameToken (t : Type_) : bool :=
  match t with
  | T_Ident | T_As | T_Async | T_Await | T_Bool | T_Break | T_By | T_Case | T_Catch | T_Class
  | T_Const | T_Continue | T_Default | T_Defer | T_Else | T_ElseIf | T_Extends | T_Export
  | T_False | T_Finally | T_For | T_Func | T_If | T_Implements | T_Import | T_In | T_Init
  | T_InstanceOf | T_Interface | T_Is | T_Let | T_Match | T_Module | T_Not | T_Null | T_Parent
  | T_Return | T_Static | T_This | T_Throw | T_TypeKw | T_True | T_Try | T_While | T_With
  | T_Del | T_Xor | T_Yield => true
  | _ => false
  end.

(** [expectPeek], [expectPeekIdentifierName] and [synchronize]. *)
Definition next_error (want : gostring) (got : Token) : M bool :=
  do_ errorf got (bs "expected next token to be " ++ want ++ bs ", got " ++ Type_String (tok_Type got));
  ret false.
Definition expectPeek (k : Type_) : M bool :=
  let_ t <- peek;
  if tok_is t k then (do_ nextToken; ret true) else next_error (Type_String k) t.
Definition expectPeekIdentifierName : M bool :=
  let_ t <- peek;
  if isIdentifierNameToken (tok_Type t) then (do_ nextToken; ret true)
  else next_error (bs "identifier name") t.
Definition synchronize (n : nat) : M unit :=
  loop n (fun _ =>
    let_ t <- cur;
    if tok_is t T_Semicolon || tok_is t T_RBrace || tok_is t T_EOF then ret (inr tt)
    else (do_ nextToken; ret (inl tt))) tt.

(** An identifier made of a token. *)
Definition ident_of (t : Token) : Identifier := mkIdent t (Literal t).

(** ** Look-ahead *)

(** The token types from index [i] on. *)
Definition types_from (i : nat) (p : Parser) : list Type_ := map tok_Type (drop i (toks p)).

(** [lookaheadToken]. *)
Definition lookaheadToken (n : nat) (p : Parser) : Token :=
  if (position p + n <? 2)%nat then eof_token
  else match nth_error (toks p) (position p + n - 2) with Some t => t | None => eof_token end.

(** [isEnumDestructuringPattern]: [i] runs over the dotted path. *)
Fixpoint dotted_path (l : list Type_) : nat * list Type_ :=
  match l with
  | T_Dot :: T_Ident :: l => let (n, r) := dotted_path l in (S n, r)
  | _ => (O, l)
  end.
Definition isEnumDestructuringPattern (p : Parser) : bool :=
  tok_is (curToken p) T_Ident &&
  (let (n, r) := dotted_path (types_from (position p - 1) p) in
   (1 <=? n)%nat && bool_decide (head r = Some T_LParen)).

(** [isConstraintComma]. *)
Definition isConstraintComma (p : Parser) : bool := negb (tok_is (lookaheadToken 3 p) T_Implements).

(** [looksLikeGenericCallTypeArgs]: the scan after the [<]. *)
Fixpoint generic_args_scan (depth : nat) (l : list Type_) : bool :=
  match l with
  | [] => false
  | t :: l =>
      match t with
      | T_LT => generic_args_scan (S depth) l
      | T_GT =>
          match depth with
          | S (S _ as d) => generic_args_scan d l
          | _ => bool_decide (head l = Some T_LParen)
          end
      | T_RShift =>
          match depth with
          | S (S (S _ as d)) => generic_args_scan d l
          | S (S O) => bool_decide (head l = Some T_LParen)
          | _ => false
          end
      | T_Ident | T_Bool | T_TypeKw | T_Comma | T_Dot | T_Question | T_LBracket | T_RBracket
      | T_BitOr | T_BitAnd => generic_args_scan depth l
      | _ => false
      end
  end.
Definition looksLikeGenericCallTypeArgs (p : Parser) : bool :=
  tok_is (curToken p) T_LT && generic_args_scan 1 (types_from (position p - 1) p).

(** [looksLikeTypedDeclaration]: the scans over a dotted name and over a type
    argument list, which a [>>] may close twice. *)
Fixpoint skip_dotted (l : list Type_) : list Type_ :=
  match l with T_Dot :: T_Ident :: l => skip_dotted l | _ => l end.
Fixpoint skip_type_args (depth : Z) (l : list Type_) : list Type_ :=
  if depth <=? 0 then l
  else match l with
       | [] => []
       | t :: l =>
           skip_type_args (match t with T_LT => depth + 1 | T_GT => depth - 1 | T_RShift => depth - 2 | _ => depth end) l
       end.
Definition typed_declaration_scan (l : list Type_) : bool :=
  let l := match l with T_Question :: l => l | _ => l end in
  match l with
  | t :: l =>
      if isTypeStartToken t then
        let l := skip_dotted l in
        let l := match l with T_LT :: l => skip_type_args 1 l | _ => l end in
        let l := match l with T_LBracket :: T_RBracket :: l => l | _ => l end in
        bool_decide (head l = Some T_Ident)
      else false
  | [] => false
  end.
Definition looksLikeTypedDeclaration (p : Parser) : bool :=
  (2 <=? position p)%nat && typed_declaration_scan (types_from (position p - 2) p).

(** [looksLikeFromImport]. *)
Fixpoint import_path_scan (l : list Type_) : bool :=
  match l with
  | T_Dot :: t :: l => isIdentifierNameToken t && import_path_scan l
  | T_Import :: _ => true
  | _ => false
  end.
Definition looksLikeFromImport (p : Parser) : bool :=
  tok_is (curToken p) T_Ident && bool_decide (Literal (curToken p) = bs "from") &&
  isIdentifierNameToken (tok_Type (peekToken p)) && import_path_scan (types_from (position p) p).

(** [looksLikeMultiAssign]. *)
Fixpoint multi_assign_scan (l : list Type_) : bool :=
  match l with
  | T_Comma :: T_Ident :: l => multi_assign_scan l
  | T_Assign :: _ => true
  | _ => false
  end.
Definition looksLikeMultiAssign (p : Parser) : bool :=
  tok_is (curToken p) T_Ident && tok_is (peekToken p) T_Comma && (1 <=? position p)%nat &&
  multi_assign_scan (types_from (position p - 1) p).

(** [isTypePattern]. *)
Definition isTypePattern (p : Parser) : bool :=
  tok_is (curToken p) T_Question || (tok_is (curToken p) T_Ident && tok_is (peekToken p) T_Ident) ||
  isTypeStartToken (tok_Type (curToken p)).

(** [canStartFieldDeclaration]. *)
Definition canStartFieldDeclaration (p : Parser) : bool :=
  tok_is (curToken p) T_Question || isTypeStartToken (tok_Type (curToken p)).

(** [isForInClause]: the tokens up to the closing parenthesis are visited with
    [nextToken] and the cursor is put back; the errors it reports stay. *)
Definition isForInClause (n : nat) : M bool :=
  let_ saved <- get;
  let_ found <- loop n (fun _ =>
    let_ p <- get;
    if tok_is (curToken p) T_RParen || tok_is (curToken p) T_Semicolon || tok_is (curToken p) T_EOF
    then ret (inr false)
    else if tok_is (curToken p) T_In || tok_is (peekToken p) T_In then ret (inr true)
    else (do_ nextToken; ret (inl tt))) tt;
  fun p => Done found (mkParser (toks p) (position saved) (errors p) (curToken saved) (peekToken saved)).

(** [New] on the tokens of the source: the cursor starts before the first. *)
Definition New_tokens (ts : list Token) : Parser :=
  let start := mkParser ts 0 [] zero_token zero_token in
  match (do_ nextToken; nextToken) start with Done _ p => p | _ => start end.
Definition New `{UnicodeLetters} (src : gostring) : option Parser :=
  option_map New_tokens (tokens src).
