(* ===== verification/TypeParser.v ===== *)
(** * TypeParser: parsing type expressions

    [parseTypeRefFromCurrent] and what it uses, with the splitting of a [>>]
    that closes two argument lists (src/internal/parser/parser.go). *)

From S2P Require Import Prelude GoText Token Lexer Ast Parsing.
#[local] Open Scope Z_scope.
#[local] Open Scope parser_scope.

(** [isNonGenericTypeName]. *)
Definition isNonGenericTypeName (name : gostring) : bool :=
  bool_decide (name ∈ [bs "int"; bs "string"; bs "bool"; bs "float"; bs "decimal"; bs "bytes";
                       bs "void"; bs "any"; bs "null"]).

(** [expectPeekGTInGeneric]. *)
Definition gt_token (line_ column_ : Z) : Token :=
  mkToken T_GT (bs ">") (bs ">") 0 false false line_ column_ [].
Definition split_rshift (p : Parser) : option Parser :=
  match position p with
  | S idx =>
      if (idx <? length (toks p))%nat then
        let gt1 := gt_token (Line (peekToken p)) (Column (peekToken p)) in
        let gt2 := gt_token (Line (peekToken p)) (Column (peekToken p) + 1) in
        Some (mkParser (take idx (toks p) ++ [gt1; gt2] ++ drop (S idx) (toks p))
                (position p) (errors p) (curToken p) gt1)
      else None
  | O => None
  end.
Definition expectPeekGTInGeneric : M bool :=
  let_ t <- peek;
  if tok_is t T_GT then (do_ nextToken; ret true)
  else if tok_is t T_RShift then
    do_ (fun p => match split_rshift p with Some p => Done tt p | None => Panicked end);
    do_ nextToken; ret true
  else next_error (Type_String T_GT) t.

(** The dotted name that follows its first part; [false] when the code returns
    from inside the loop. *)
Definition dotted_name (n : nat) (first : gostring) : M (gostring * bool) :=
  loop n (fun name =>
    let_ t <- peek;
    if tok_is t T_Dot then
      do_ nextToken;
      let_ ok <- expectPeekIdentifierName;
      if ok then (let_ t <- cur; ret (inl (name ++ bs "." ++ Literal t))) else ret (inr (name, false))
    else ret (inr (name, true))) first.

Definition named_type (t : Token) (name : gostring) (nullable : bool) : TypeRef :=
  mkTypeRef t name nullable [] false None [] None.

(** [{Token: left.Token, Left: left, Operator: op, Right: right}]. *)
Definition operator_type (left : TypeRef) (op : gostring) (right : TypeRef) : TypeRef :=
  mkTypeRef (type_Token left) [] false [] false (Some left) op (Some right).

Section Types.
Variable n : nat.
Variable parseTypeRef_ : M TypeRef.

(** [parseTypeArgumentsFromCurrent] and [parseTypeArguments]. *)
Definition type_arguments_body : M (list TypeRef) :=
  let_ args <- loop n (fun args =>
    do_ nextToken;
    let_ t <- parseTypeRef_;
    let_ more <- peekTokenIs T_Comma;
    if more then (do_ nextToken; ret (inl (args ++ [t]))) else ret (inr (args ++ [t]))) [];
  do_ expectPeekGTInGeneric;
  ret args.

(** The suffixes of a name: its type arguments and the list brackets. *)
Definition type_suffixes (t : Token) (name : gostring) (nullable : bool) : M TypeRef :=
  let_ lt <- peekTokenIs T_LT;
  let_ args <- (if lt && negb (isNonGenericTypeName name)
              then (do_ nextToken; type_arguments_body) else ret []);
  let_ bracket <- peekTokenIs T_LBracket;
  let_ list_ <- (if bracket then (do_ nextToken; expectPeek T_RBracket) else ret false);
  ret (mkTypeRef t name nullable args list_ None [] None).

(** The union and intersection types. *)
Definition type_operators (left : TypeRef) : M TypeRef :=
  loop n (fun left =>
    let_ t <- peek;
    if tok_is t T_BitOr || tok_is t T_BitAnd then
      do_ nextToken;
      let_ op <- cur;
      do_ nextToken;
      let_ right <- parseTypeRef_;
      ret (inl (operator_type left (Literal op) right))
    else ret (inr left)) left.

Definition parseTypeRef_body : M TypeRef :=
  let_ nullable <- curTokenIs T_Question;
  do_ (if nullable then nextToken else ret tt);
  let_ t <- cur;
  let_ next <- peek;
  if negb (isTypeStartToken (tok_Type t)) && negb (isIdentifierNameToken (tok_Type t) && tok_is next T_Dot)
  then
    do_ errorf t (bs "expected type, got " ++ Type_String (tok_Type t));
    ret (named_type t (Literal t) nullable)
  else
    let_ name <- dotted_name n (Literal t);
    if snd name then
      let_ left <- type_suffixes t (fst name) nullable;
      type_operators left
    else ret (named_type t (fst name) nullable).
End Types.

(** [parseTypeRefFromCurrent], with [n] as the bound of its recursion and of
    its loops. *)
Fixpoint parseTypeRefFromCurrent (n : nat) : M TypeRef :=
  match n with
  | O => no_fuel
  | S n => parseTypeRef_body n (parseTypeRefFromCurrent n)
  end.

Definition parseTypeArgumentsFromCurrent (n : nat) : M (list TypeRef) :=
  type_arguments_body n (parseTypeRefFromCurrent n).
Definition parseTypeArguments (n : nat) : M (list TypeRef) :=
  do_ nextToken; parseTypeArgumentsFromCurrent n.

(** [parseTypeList]. *)
Definition parseTypeList (n : nat) : M (list TypeRef) :=
  loop n (fun types =>
    do_ nextToken;
    let_ t <- parseTypeRefFromCurrent n;
    let_ more <- peekTokenIs T_Comma;
    if more then (do_ nextToken; ret (inl (types ++ [t]))) else ret (inr (types ++ [t]))) [].

(** [ParseTypeRef]; the error is the list of messages that the code joins. *)
Definition ParseTypeRef `{UnicodeLetters} (n : nat) (source : gostring) :
    option (result (list gostring) TypeRef) :=
  match New source with
  | None => None
  | Some p =>
      match parseTypeRefFromCurrent n p with
      | Done ref p =>
          let errs :=
            match errors p with
            | [] => if tok_is (peekToken p) T_EOF then []
                    else [bs "unexpected " ++ Literal (peekToken p) ++ bs " after type"]
            | errs => errs
            end in
          Some (match errs with [] => Ok ref | _ => Err errs end)
      | _ => None
      end
  end.

Example parse_generic :
  option_map (fun r => match r with Ok t => TypeRef_String t | Err e => join (bs "; ") e end)
    (ParseTypeRef 20 (bs "?dict<string,list<list<int>>> | a.B[] & func"))
  = Some (bs "?dict<string, list<list<int>>> | a.B[] & func").
Proof. vm_compute. reflexivity. Qed.
