(* ===== verification/ExprParser.v ===== *)
(** * ExprParser: parsing expressions

    The expression half of src/internal/parser/parser.go: the precedence
    climbing loop, prefix and infix forms, calls, subscripts, literals,
    comprehensions, interpolated strings, function literals and match
    expressions.  The functions call the parser of expressions and of
    statements through the Section's variables, which StmtParser.v ties. *)

From S2P Require Import Prelude GoText Token Lexer Ast Parsing TypeParser.
#[local] Open Scope Z_scope.
#[local] Open Scope parser_scope.

(** ** Interpolated strings: the text *)

(** The text before the first [${] and the text after it. *)
Fixpoint cut_interpolation (s : gostring) : option (gostring * gostring) :=
  match s with
  | [] => None
  | Byte.x24 :: Byte.x7b :: s => Some ([], s)
  | b :: s => option_map (fun '(h, t) => (b :: h, t)) (cut_interpolation s)
  end.

(** The loop that finds the matching brace: the index where it stops, which
    a backslash at the end of a nested string puts past the text. *)
Fixpoint matching_brace (depth : nat) (quoted : option byte) (s : gostring) (i : nat) : nat :=
  match quoted, s with
  | _, [] => i
  | Some q, ch :: s =>
      if decide (ch = Byte.x5c) then
        match s with
        | [] => S (S i)
        | _ :: s => matching_brace depth (Some q) s (S (S i))
        end
      else matching_brace depth (if decide (ch = q) then None else Some q) s (S i)
  | None, ch :: s =>
      if decide (ch = Byte.x27 \/ ch = Byte.x22) then matching_brace depth (Some ch) s (S i)
      else if decide (ch = Byte.x7b) then matching_brace (S depth) None s (S i)
      else if decide (ch = Byte.x7d) then
        match depth with
        | S (S _ as d) => matching_brace d None s (S i)
        | _ => i
        end
      else matching_brace depth None s (S i)
  end.

(** [exprSrc := raw[start+2 : i]; raw = raw[i+1:]], a panic past the end. *)
Definition take_interpolation (s : gostring) : option (gostring * gostring) :=
  let i := matching_brace 1 None s 0 in
  if (i <? length s)%nat then Some (take i s, drop (S i) s) else None.

(** [splitInterpolationSpec]; [before] is the text passed so far. *)
Fixpoint split_spec (depth ternary : Z) (inStr : option byte) (before s : gostring) :
    option (gostring * gostring) :=
  match s with
  | [] => None
  | ch :: rest =>
      match inStr with
      | Some q =>
          match rest with
          | next :: rest' =>
              if decide (ch = Byte.x5c)
              then split_spec depth ternary inStr (before ++ [ch; next]) rest'
              else split_spec depth ternary (if decide (ch = q) then None else inStr) (before ++ [ch]) rest
          | [] => None
          end
      | None =>
          if decide (ch = Byte.x27 \/ ch = Byte.x22) then
            split_spec depth ternary (Some ch) (before ++ [ch]) rest
          else if decide (ch ∈ bs "([{") then split_spec (depth + 1) ternary None (before ++ [ch]) rest
          else if decide (ch ∈ bs ")]}") then split_spec (depth - 1) ternary None (before ++ [ch]) rest
          else if decide (ch = Byte.x3f) then
            split_spec depth (if depth =? 0 then ternary + 1 else ternary) None (before ++ [ch]) rest
          else if bool_decide (ch = Byte.x3a) && (depth =? 0) then
            if 0 <? ternary then split_spec depth (ternary - 1) None (before ++ [ch]) rest
            else Some (before, rest)
          else split_spec depth ternary None (before ++ [ch]) rest
      end
  end.
Definition splitInterpolationSpec (src : gostring) : gostring * option gostring :=
  match split_spec 0 0 None [] src with
  | Some (expr, spec) => (expr, Some spec)
  | None => (src, None)
  end.

(** [interpolationLiteral]. *)
Definition segment_literal (tok : Token) (value seg : gostring) : Expression :=
  StringLiteral tok value seg (Quote tok) false true.
Definition interpolationLiteral (tok : Token) (seg : gostring) : M Expression :=
  match UnescapeDoubleQuoted seg with
  | None => no_fuel
  | Some (Ok value) => ret (segment_literal tok value seg)
  | Some (Err e) => do_ errorf tok (EscapeError_text e); ret (segment_literal tok seg seg)
  end.

(** ** Shapes of expressions *)

(** The marking of an expression in parentheses. *)
Definition mark_parenthesized (e : Expression) : Expression :=
  match e with
  | SelectorExpression t o n opt _ => SelectorExpression t o n opt true
  | InfixExpression t l op r rt _ => InfixExpression t l op r rt true
  | CastExpression t v ty _ => CastExpression t v ty true
  | TernaryExpression t c a b _ => TernaryExpression t c a b true
  | PrefixExpression t op r _ => PrefixExpression t op r true
  | e => e
  end.

(** [canBeGenericCallCallee]. *)
Definition canBeGenericCallCallee (e : Expression) : bool :=
  match e with Ident _ | SelectorExpression _ _ _ _ _ => true | _ => false end.

Definition is_nil (e : Expression) : bool := match e with NilExpression => true | _ => false end.

(** [emptySetForType]; [strings.EqualFold] also takes the long s for an [s]. *)
Definition equal_fold_set (name : gostring) : bool :=
  bool_decide (ascii_lower name = bs "set" \/ ascii_lower name = [Byte.xc5; Byte.xbf] ++ bs "et").
Definition emptySetForType (typ : option TypeRef) (value : Expression) : Expression :=
  match value, typ with
  | DictLiteral t [] end_, Some typ =>
      if bool_decide (type_Operator typ = []) && equal_fold_set (type_Name typ)
      then SetLiteral t [] end_ else value
  | _, _ => value
  end.

(** The operator of a compound assignment. *)
Definition compound_operator (t : Type_) : option (Type_ * gostring) :=
  match t with
  | T_PlusAssign => Some (T_Plus, bs "+")
  | T_MinusAssign => Some (T_Minus, bs "-")
  | T_MulAssign => Some (T_Asterisk, bs "*")
  | T_DivAssign => Some (T_Slash, bs "/")
  | T_IntDivAssign => Some (T_IntDiv, bs "//")
  | T_ModAssign => Some (T_Percent, bs "%")
  | T_PowerAssign => Some (T_Power, bs "**")
  | T_BitAndAssign => Some (T_BitAnd, bs "&")
  | T_BitOrAssign => Some (T_BitOr, bs "|")
  | T_BitXorAssign => Some (T_BitXor, bs "^")
  | T_LShiftAssign => Some (T_LShift, bs "<<")
  | T_RShiftAssign => Some (T_RShift, bs ">>")
  | T_NullCoalesceAssign => Some (T_NullCoalesce, bs "??")
  | _ => None
  end.

(** [atBodyEnd]. *)
Definition atBodyEnd : M bool :=
  let_ t <- cur;
  if tok_is t T_EOF then (do_ errorf t (bs "expected } before end of input"); ret true)
  else ret (tok_is t T_RBrace).

Section Expressions.
Context `{UnicodeLetters}.
Variable n : nat.
Variable parseExpression_ : nat -> M Expression.
Variable parseStatement_ : M Statement.

(** ** Pieces *)

(** An expression after the current token. *)
Definition next_expression : M Expression := do_ nextToken; parseExpression_ lowest.

(** [parseParenthesizedExpression]. *)
Definition parseParenthesizedExpression : M Expression :=
  let_ ok <- expectPeek T_LParen;
  if ok then (let_ e <- next_expression; do_ expectPeek T_RParen; ret e) else ret NilExpression.

(** [parseBlockStatement]. *)
Definition nested_declaration (s : Statement) : option (Token * gostring) :=
  match s with
  | Class_ (mkClass t _ _ _ _ _ _ _ _ _) => Some (t, bs "class")
  | Interface_ (mkInterface t _ _ _ _ _ _ _) => Some (t, bs "interface")
  | Enum_ (mkEnum t _ _ _ _ _) => Some (t, bs "enum")
  | _ => None
  end.
Definition parseBlockStatement : M BlockStatement :=
  let_ open <- cur;
  let_ stmts <- loop n (fun stmts =>
    do_ nextToken;
    let_ ended <- atBodyEnd;
    if ended then ret (inr stmts)
    else
      let_ s <- parseStatement_;
      match s with
      | NilStatement => ret (inl stmts)
      | _ =>
          do_ match nested_declaration s with
              | Some (t, kind) =>
                  errorf t (kind ++ bs " declaration is only allowed at the top level, not inside a block")
              | None => ret tt
              end;
          ret (inl (stmts ++ [s]))
      end) [];
  let_ close <- cur;
  ret (mkBlock open close stmts).

(** The statements of a case without braces, up to the next case; the cursor
    is left before the token that ended them. *)
Definition parse_case_body : M BlockStatement :=
  let_ open <- cur;
  let_ stmts <- loop n (fun stmts =>
    let_ t <- cur;
    if tok_is t T_Case || tok_is t T_Default || tok_is t T_RBrace || tok_is t T_EOF
    then ret (inr stmts)
    else
      let_ s <- parseStatement_;
      do_ nextToken;
      ret (inl (match s with NilStatement => stmts | _ => stmts ++ [s] end))) [];
  do_ rewindOne;
  ret (mkBlock open zero_token stmts).

(** ** Calls *)

(** [parseCallArguments]. *)
Definition is_hole (e : Expression) : bool :=
  match e with Ident i => bool_decide (ident_Value i = bs "_") | _ => false end.
Definition parse_argument : M CallArgument :=
  let_ t <- cur;
  let_ next <- peek;
  if tok_is t T_Ellipsis then
    let_ e <- next_expression; ret (mkArgument None e true (is_hole e))
  else if tok_is t T_Ident && tok_is next T_Colon then
    do_ nextToken;
    let_ e <- next_expression; ret (mkArgument (Some (ident_of t)) e false (is_hole e))
  else let_ e <- parseExpression_ lowest; ret (mkArgument None e false (is_hole e)).
Definition parseCallArguments : M (list CallArgument) :=
  let_ empty <- peekTokenIs T_RParen;
  if empty then (do_ nextToken; ret [])
  else
    let_ args <- loop n (fun args =>
      do_ nextToken;
      let_ a <- parse_argument;
      let_ more <- peekTokenIs T_Comma;
      if more then (do_ nextToken; ret (inl (args ++ [a]))) else ret (inr (args ++ [a]))) [];
    do_ expectPeek T_RParen;
    ret args.

(** [buildCallOrPartial]. *)
Definition arg_hole (a : CallArgument) : bool := let 'mkArgument _ _ _ h := a in h.
Definition arg_spread (a : CallArgument) : bool := let 'mkArgument _ _ s _ := a in s.
Definition buildCallOrPartial (callee : Expression) (typeArgs : list TypeRef)
    (args : list CallArgument) (tok end_ : Token) : M Expression :=
  if existsb arg_hole args then
    do_ (if existsb arg_spread args
         then errorf tok (bs "cannot combine a partial-application hole (_) with spread (...) in the same call")
         else ret tt);
    ret (PartialExpression tok typeArgs callee args end_)
  else ret (CallExpression tok typeArgs callee args end_).

(** [parseCallExpression] and [parseGenericCall]. *)
Definition parse_call (callee : Expression) (typeArgs : list TypeRef) : M Expression :=
  let_ tok <- cur;
  let_ args <- parseCallArguments;
  let_ end_ <- cur;
  buildCallOrPartial callee typeArgs args tok end_.
Definition parseCallExpression (callee : Expression) : M Expression := parse_call callee [].
Definition parseGenericCall (callee : Expression) : M Expression :=
  let_ typeArgs <- parseTypeArgumentsFromCurrent n;
  let_ ok <- expectPeek T_LParen;
  if ok then parse_call callee typeArgs else ret callee.

(** ** Subscripts *)

(** [parseOptionalSliceStep]: the step, if there is one. *)
Definition parseOptionalSliceStep : M Expression :=
  let_ colon <- peekTokenIs T_Colon;
  if colon then
    do_ nextToken;
    let_ ended <- peekTokenIs T_RBracket;
    if ended then ret NilExpression else next_expression
  else ret NilExpression.

(** The end and the step of a slice, from its first colon. *)
Definition parse_slice (t : Token) (left start : Expression) : M Expression :=
  do_ nextToken;
  let_ colon <- cur;
  let_ next <- peek;
  let_ stop <- (if tok_is next T_RBracket || tok_is next T_Colon then ret NilExpression else next_expression);
  let_ step <- parseOptionalSliceStep;
  do_ expectPeek T_RBracket;
  ret (IndexExpression t left (RangeExpression colon start stop true step)).

(** [parseIndexExpression]. *)
Definition parseIndexExpression (left : Expression) : M Expression :=
  let_ t <- cur;
  let_ next <- peek;
  if tok_is next T_Range || tok_is next T_RangeExcl then
    do_ nextToken;
    let_ dots <- cur;
    let_ ended <- peekTokenIs T_RBracket;
    let_ stop <- (if ended then ret NilExpression else next_expression);
    do_ expectPeek T_RBracket;
    ret (IndexExpression t left
           (RangeExpression dots NilExpression stop (tok_is dots T_RangeExcl) NilExpression))
  else if tok_is next T_RBracket then
    do_ expectPeek T_RBracket;
    ret (IndexExpression t left (RangeExpression t NilExpression NilExpression false NilExpression))
  else if tok_is next T_Colon then parse_slice t left NilExpression
  else
    let_ first <- next_expression;
    let_ colon <- peekTokenIs T_Colon;
    if colon then parse_slice t left first
    else (do_ expectPeek T_RBracket; ret (IndexExpression t left first)).

(** ** Comprehensions *)

(** The names [a, b, c] whose first is the current token; [false] when one of
    them is not a name. *)
Definition parse_names (first : Identifier) : M (list Identifier * bool) :=
  loop n (fun names =>
    let_ comma <- peekTokenIs T_Comma;
    if comma then
      do_ nextToken;
      let_ ok <- expectPeek T_Ident;
      if ok then (let_ t <- cur; ret (inl (names ++ [ident_of t]))) else ret (inr (names, false))
    else ret (inr (names, true))) [first].

(** [parseComprehensionFor] and [parseComprehensionIf]. *)
Definition parseComprehensionFor : M ComprehensionClause :=
  let_ for_ <- cur;
  do_ nextToken;
  let_ t <- cur;
  let_ next <- peek;
  if tok_is t T_Ident && tok_is next T_Comma then
    let_ names <- parse_names (ident_of t);
    if snd names then
      let_ ok <- expectPeek T_In;
      if ok then
        let_ e <- next_expression; ret (ComprehensionFor for_ None None (fst names) e)
      else ret (ComprehensionFor for_ None None (fst names) NilExpression)
    else ret (ComprehensionFor for_ None None (fst names) NilExpression)
  else if tok_is t T_Ident && tok_is next T_In then
    do_ expectPeek T_In;
    let_ e <- next_expression;
    ret (ComprehensionFor for_ None (Some (ident_of t)) [] e)
  else
    let_ ty <- parseTypeRefFromCurrent n;
    let_ ok <- expectPeek T_Ident;
    if ok then
      let_ name <- cur;
      let_ ok <- expectPeek T_In;
      if ok then
        let_ e <- next_expression; ret (ComprehensionFor for_ (Some ty) (Some (ident_of name)) [] e)
      else ret (ComprehensionFor for_ (Some ty) (Some (ident_of name)) [] NilExpression)
    else ret (ComprehensionFor for_ (Some ty) None [] NilExpression).
Definition parseComprehensionIf : M ComprehensionClause :=
  let_ t <- cur;
  let_ e <- next_expression;
  ret (ComprehensionIf t e).

(** [parseComprehensionTail]. *)
Definition parseComprehensionTail : M (list ComprehensionClause) :=
  loop n (fun clauses =>
    let_ t <- peek;
    if tok_is t T_For then
      do_ nextToken; let_ c <- parseComprehensionFor; ret (inl (clauses ++ [c]))
    else if tok_is t T_If then
      do_ nextToken; let_ c <- parseComprehensionIf; ret (inl (clauses ++ [c]))
    else ret (inr clauses)) [].

(** ** Lists, dicts and sets *)

(** An element [e] or [...e] at the current token. *)
Definition parse_element : M Expression :=
  let_ t <- cur;
  if tok_is t T_Ellipsis then (let_ e <- next_expression; ret (SpreadExpression t e))
  else parseExpression_ lowest.

(** The elements after the first, up to [close] (a comma may precede it). *)
Definition more_elements (close : Type_) (first : Expression) : M (list Expression) :=
  loop n (fun elements =>
    let_ comma <- peekTokenIs T_Comma;
    if comma then
      do_ nextToken;
      let_ ended <- peekTokenIs close;
      if ended then ret (inr elements)
      else (do_ nextToken; let_ e <- parse_element; ret (inl (elements ++ [e])))
    else ret (inr elements)) [first].

(** [parseListLiteral]. *)
Definition parseListLiteral : M Expression :=
  let_ open <- cur;
  let_ empty <- peekTokenIs T_RBracket;
  if empty then (do_ nextToken; let_ end_ <- cur; ret (ListLiteral open [] false end_))
  else
    do_ nextToken;
    let_ first <- parse_element;
    let_ comprehension <- peekTokenIs T_For;
    if comprehension then
      let_ clauses <- parseComprehensionTail;
      do_ expectPeek T_RBracket;
      ret (ListComprehension open first clauses)
    else
      let_ elements <- more_elements T_RBracket first;
      do_ expectPeek T_RBracket;
      let_ end_ <- cur;
      ret (ListLiteral open elements false end_).

(** [continueSetLiteral] and [continueDictLiteral]. *)
Definition continueSetLiteral (open : Token) (first : Expression) : M Expression :=
  let_ elements <- more_elements T_RBrace first;
  do_ expectPeek T_RBrace;
  let_ end_ <- cur;
  ret (SetLiteral open elements end_).
Definition key_value (key : Expression) : M DictEntry :=
  do_ expectPeek T_Colon;
  let_ value <- next_expression;
  ret (mkEntry key value false).
Definition spread_entry : M DictEntry :=
  let_ e <- next_expression; ret (mkEntry NilExpression e true).
Definition continueDictLiteral (open : Token) (head_ : list DictEntry) : M Expression :=
  let_ entries <- loop n (fun entries =>
    let_ comma <- peekTokenIs T_Comma;
    if comma then
      do_ nextToken;
      let_ ended <- peekTokenIs T_RBrace;
      if ended then ret (inr entries)
      else
        do_ nextToken;
        let_ spread <- curTokenIs T_Ellipsis;
        let_ entry <- (if spread then spread_entry else (let_ key <- parseExpression_ lowest; key_value key));
        ret (inl (entries ++ [entry]))
    else ret (inr entries)) head_;
  do_ expectPeek T_RBrace;
  let_ end_ <- cur;
  ret (DictLiteral open entries end_).

(** [parseSpreadBuffer] and [continueDictOrSetAfterSpread]: entries [...e]
    ([true]) and [e] ([false]) until one with a colon makes it a dict. *)
Definition buffered_entry (b : bool * Expression) : DictEntry :=
  if fst b && negb (is_nil (snd b)) then mkEntry NilExpression (snd b) true
  else mkEntry (if fst b then NilExpression else snd b) NilExpression false.
Definition buffered_element (open : Token) (b : bool * Expression) : Expression :=
  if fst b && negb (is_nil (snd b)) then SpreadExpression open (snd b)
  else if fst b then NilExpression else snd b.
Definition finish_spread_literal (open : Token) (entries : list (bool * Expression)) : M Expression :=
  do_ expectPeek T_RBrace;
  let_ end_ <- cur;
  if forallb (fun b => fst b && negb (is_nil (snd b))) entries
  then ret (DictLiteral open (map (fun b => mkEntry NilExpression (snd b) true) entries) end_)
  else ret (SetLiteral open (map (buffered_element open) entries) end_).
Definition continueDictOrSetAfterSpread (open : Token) (firstSpread : Expression) : M Expression :=
  let_ r <- loop n (fun entries =>
    let_ comma <- peekTokenIs T_Comma;
    if comma then
      do_ nextToken;
      let_ ended <- peekTokenIs T_RBrace;
      if ended then ret (inr (inl entries))
      else
        do_ nextToken;
        let_ spread <- curTokenIs T_Ellipsis;
        if spread then (let_ e <- next_expression; ret (inl (entries ++ [(true, e)])))
        else
          let_ e <- parseExpression_ lowest;
          let_ colon <- peekTokenIs T_Colon;
          if colon then
            let_ entry <- key_value e;
            let_ lit <- continueDictLiteral open (map buffered_entry entries ++ [entry]);
            ret (inr (inr lit))
          else ret (inl (entries ++ [(false, e)]))
    else ret (inr (inl entries))) [(true, firstSpread)];
  match r with
  | inl entries => finish_spread_literal open entries
  | inr lit => ret lit
  end.

(** [parseDictLiteral]. *)
Definition parseDictLiteral : M Expression :=
  let_ open <- cur;
  let_ empty <- peekTokenIs T_RBrace;
  if empty then (do_ nextToken; let_ end_ <- cur; ret (DictLiteral open [] end_))
  else
    do_ nextToken;
    let_ spread <- curTokenIs T_Ellipsis;
    if spread then
      let_ value <- next_expression;
      let_ ended <- peekTokenIs T_RBrace;
      if ended then
        do_ nextToken; let_ end_ <- cur; ret (DictLiteral open [mkEntry NilExpression value true] end_)
      else continueDictOrSetAfterSpread open value
    else
      let_ first <- parseExpression_ lowest;
      let_ colon <- peekTokenIs T_Colon;
      let_ comprehension <- peekTokenIs T_For;
      if negb colon then
        if comprehension then
          let_ clauses <- parseComprehensionTail;
          do_ expectPeek T_RBrace;
          ret (SetComprehension open first clauses)
        else continueSetLiteral open first
      else
        do_ expectPeek T_Colon;
        let_ value <- next_expression;
        let_ comprehension <- peekTokenIs T_For;
        if comprehension then
          let_ clauses <- parseComprehensionTail;
          do_ expectPeek T_RBrace;
          ret (DictComprehension open first value clauses)
        else continueDictLiteral open [mkEntry first value false].

(** ** Interpolated strings *)

(** [New(lexer.New(exprText)).parseExpression(lowest)]: a parser of its own,
    whose errors and whose remaining tokens nothing looks at. *)
Definition sub_expression (exprText : gostring) : M Expression := fun p =>
  match New exprText with
  | None => NoFuel
  | Some sub =>
      match parseExpression_ lowest sub with
      | Done e _ => Done e p
      | Panicked => Panicked
      | NoFuel => NoFuel
      end
  end.

(** [parseInterpolatedString]. *)
Definition parse_interpolation (tok : Token) (body : gostring) : M Expression :=
  let (text, spec) := splitInterpolationSpec body in
  let_ e <- sub_expression text;
  ret (match spec with Some spec => FormattedInterpolation tok e spec | None => e end).
Definition parseInterpolatedString (tok : Token) : M Expression :=
  let_ parts <- loop (S (length (Raw tok))) (fun '(raw, parts) =>
    match raw with
    | [] => ret (inr parts)
    | _ =>
        match cut_interpolation raw with
        | None => let_ lit <- interpolationLiteral tok raw; ret (inr (parts ++ [lit]))
        | Some (before, after) =>
            let_ parts <- match before with
                        | [] => ret parts
                        | _ => let_ lit <- interpolationLiteral tok before; ret (parts ++ [lit])
                        end;
            match take_interpolation after with
            | None => panic
            | Some (body, raw) =>
                let_ e <- parse_interpolation tok body;
                ret (inl (raw, parts ++ [e]))
            end
        end
    end) (Raw tok, []);
  ret (InterpolatedString tok parts).

(** ** Parameters and function literals *)

(** The dotted name of a decorator. *)
Definition parse_decorator : M (option Decorator) :=
  let_ at_ <- cur;
  let_ ok <- expectPeek T_Ident;
  if ok then
    let_ nameToken <- cur;
    let_ name <- dotted_name n (Literal nameToken);
    if snd name then
      let_ paren <- peekTokenIs T_LParen;
      let_ args <- (if paren then (do_ nextToken; parseCallArguments) else ret []);
      ret (Some (mkDecorator at_ (mkIdent nameToken (fst name)) args))
    else ret None
  else ret None.

(** The decorators at the current token; [false] when one is malformed. *)
Definition parse_decorators : M (list Decorator * bool) :=
  loop n (fun decorators =>
    let_ at_ <- curTokenIs T_At;
    if at_ then
      let_ d <- parse_decorator;
      match d with
      | Some d => do_ nextToken; ret (inl (decorators ++ [d]))
      | None => ret (inr (decorators, false))
      end
    else ret (inr (decorators, true))) [].

(** [parseParameterDecorators]. *)
Definition parseParameterDecorators : M (list Decorator) := let_ ds <- parse_decorators; ret (fst ds).

(** [parseParameterList]: one parameter, [None] when it has no name, and
    whether it is variadic. *)
Definition parse_parameter : M (option (Param * bool)) :=
  let_ decorators <- parseParameterDecorators;
  let_ isConst <- curTokenIs T_Const;
  do_ (if isConst then nextToken else ret tt);
  let_ paramType <- parseTypeRefFromCurrent n;
  let_ variadic <- peekTokenIs T_Ellipsis;
  do_ (if variadic then nextToken else ret tt);
  let_ ok <- expectPeek T_Ident;
  if ok then
    let_ name <- cur;
    let_ eq <- peekTokenIs T_Assign;
    let_ default <- (if negb variadic && eq
                   then (do_ nextToken; let_ e <- next_expression; ret (emptySetForType (Some paramType) e))
                   else ret NilExpression);
    ret (Some (mkParameter (ident_of name) paramType default variadic isConst decorators, variadic))
  else ret None.
Definition parseParameterList : M (list Param) :=
  let_ ok <- expectPeek T_LParen;
  let_ empty <- peekTokenIs T_RParen;
  if negb ok then ret []
  else if empty then (do_ nextToken; ret [])
  else
    let_ params <- loop n (fun params =>
      do_ nextToken;
      let_ param <- parse_parameter;
      match param with
      | None => ret (inr (params, false))
      | Some (param, variadic) =>
          let_ comma <- peekTokenIs T_Comma;
          if variadic || negb comma then ret (inr (params ++ [param], true))
          else (do_ nextToken; ret (inl (params ++ [param])))
      end) [];
    do_ (if snd params then (do_ expectPeek T_RParen; ret tt) else ret tt);
    ret (fst params).

(** A return type after a colon, and a body in braces. *)
Definition parse_return_type : M (option TypeRef) :=
  let_ colon <- peekTokenIs T_Colon;
  if colon then
    do_ nextToken; do_ nextToken; let_ t <- parseTypeRefFromCurrent n; ret (Some t)
  else ret None.
Definition parse_body : M (option BlockStatement) :=
  let_ ok <- expectPeek T_LBrace;
  if ok then (let_ b <- parseBlockStatement; ret (Some b)) else ret None.

(** [parseFunctionLiteral]. *)
Definition parseFunctionLiteral (async : bool) : M Expression :=
  let_ t <- cur;
  let_ params <- parseParameterList;
  let_ ret_ <- parse_return_type;
  let_ body <- parse_body;
  ret (FunctionLiteral t async params ret_ body).

(** ** Match expressions *)

(** [parseEnumVariantPattern]. *)
Definition parseEnumVariantPattern : M EnumVariantPattern :=
  let_ first <- cur;
  let_ segments <- loop n (fun segments =>
    let_ dot <- peekTokenIs T_Dot;
    if dot then
      do_ nextToken; do_ nextToken; let_ t <- cur; ret (inl (segments ++ [Literal t]))
    else ret (inr segments)) [Literal first];
  let_ last_ <- cur;
  let enum := mkIdent first (join (bs ".") (removelast segments)) in
  let_ ok <- expectPeek T_LParen;
  if ok then
    let_ params <- loop n (fun params =>
      let_ t <- peek;
      if tok_is t T_RParen || tok_is t T_EOF then ret (inr params)
      else
        do_ nextToken;
        let_ ty <- parseTypeRefFromCurrent n;
        let_ ok <- expectPeek T_Ident;
        if ok then
          let_ name <- cur;
          let params := params ++ [mkPayload ty (ident_of name)] in
          let_ comma <- peekTokenIs T_Comma;
          if comma then (do_ nextToken; ret (inl params)) else ret (inr params)
        else ret (inr params)) [];
    do_ expectPeek T_RParen;
    ret (mkVariantPattern first enum (ident_of last_) params)
  else ret (mkVariantPattern first enum (ident_of last_) []).

(** [parseMatchListPattern]: one binding, [None] after an error. *)
Definition parse_binding : M (option ListPatternBinding) :=
  let_ t <- cur;
  let_ next <- peek;
  let_ ty <- (if isTypeStartToken (tok_Type t) && tok_is next T_Ident
            then (let_ ty <- parseTypeRefFromCurrent n; do_ nextToken; ret (Some ty)) else ret None);
  let_ t <- cur;
  match ty with
  | None =>
      if tok_is t T_Ident then ret (Some (mkBinding None (Some (ident_of t)) NilExpression))
      else
        let_ literal <- parseExpression_ bitOr;
        if is_nil literal then
          let_ t <- cur;
          do_ errorf t (bs "expected list-pattern binding name or literal, got " ++ Type_String (tok_Type t));
          ret None
        else ret (Some (mkBinding None None literal))
  | Some ty =>
      if tok_is t T_Ident then ret (Some (mkBinding (Some ty) (Some (ident_of t)) NilExpression))
      else
        do_ errorf t (bs "expected list-pattern binding name, got " ++ Type_String (tok_Type t));
        ret None
  end.
Definition parseMatchListPattern : M ListPatternMatch :=
  let_ open <- cur;
  let_ empty <- peekTokenIs T_RBracket;
  if empty then (do_ nextToken; ret (mkListPattern open []))
  else
    let_ bindings <- loop n (fun bindings =>
      do_ nextToken;
      let_ b <- parse_binding;
      match b with
      | None => ret (inr bindings)
      | Some b =>
          let_ comma <- peekTokenIs T_Comma;
          if comma then (do_ nextToken; ret (inl (bindings ++ [b])))
          else (do_ expectPeek T_RBracket; ret (inr (bindings ++ [b])))
      end) [];
    ret (mkListPattern open bindings).

(** The pattern of a case: pattern, type, name, enum variant and list pattern. *)
Record CasePattern := mkCasePattern {
  case_Pattern : Expression; case_Type : option TypeRef; case_Name : option Identifier;
  case_Variant : option EnumVariantPattern; case_List : option ListPatternMatch }.
Definition parse_case_pattern : M CasePattern :=
  let_ p <- get;
  if isEnumDestructuringPattern p then
    let_ v <- parseEnumVariantPattern; ret (mkCasePattern NilExpression None None (Some v) None)
  else if tok_is (curToken p) T_LBracket then
    let_ l <- parseMatchListPattern; ret (mkCasePattern NilExpression None None None (Some l))
  else if isTypePattern p then
    let_ ty <- parseTypeRefFromCurrent n;
    let_ named <- peekTokenIs T_Ident;
    let_ name <- (if named then (do_ nextToken; let_ t <- cur; ret (Some (ident_of t))) else ret None);
    ret (mkCasePattern NilExpression (Some ty) name None None)
  else
    let_ e <- parseExpression_ bitOr; ret (mkCasePattern e None None None None).

(** The alternates after the first pattern. *)
Definition parse_alternate : M Expression :=
  let_ p <- get;
  if isTypePattern p then
    let_ ty <- parseTypeRefFromCurrent n;
    let_ t <- peek;
    do_ (if tok_is t T_Ident then errorf t (bs "or-pattern alternates cannot introduce bindings") else ret tt);
    ret (Ident (mkIdent (curToken p) (type_Name ty)))
  else parseExpression_ bitOr.
Definition parse_alternates (c : CasePattern) : M (list Expression) :=
  let_ t <- peek;
  if tok_is t T_BitOr then
    do_ (match case_Name c with
         | Some _ => errorf t (bs "or-pattern alternates cannot introduce bindings")
         | None => ret tt
         end);
    do_ (match case_List c, case_Variant c with
         | None, None => ret tt
         | _, _ => errorf t (bs "or-pattern alternates are only allowed for literal, bare-type, and enum-no-payload patterns")
         end);
    loop n (fun alternates =>
      let_ more <- peekTokenIs T_BitOr;
      if more then
        do_ nextToken; do_ nextToken; let_ e <- parse_alternate; ret (inl (alternates ++ [e]))
      else ret (inr alternates)) []
  else ret [].

(** The value or the body of a case. *)
Definition parse_case_result : M (Expression * option BlockStatement) :=
  let_ arrow <- peekTokenIs T_Arrow;
  if arrow then
    do_ nextToken;
    let_ e <- next_expression;
    do_ expectPeek T_Semicolon;
    ret (e, None)
  else
    do_ expectPeek T_Colon;
    do_ nextToken;
    let_ braces <- curTokenIs T_LBrace;
    let_ b <- (if braces then parseBlockStatement else parse_case_body);
    ret (NilExpression, Some b).

(** One case, or [None] when the current token starts none. *)
Definition parse_match_case : M (option MatchCase) :=
  let_ t <- cur;
  if tok_is t T_Default then
    let_ r <- parse_case_result;
    ret (Some (mkMatchCase t NilExpression None None NilExpression (snd r) (fst r) true None None []))
  else if tok_is t T_Case then
    do_ nextToken;
    let_ c <- parse_case_pattern;
    let_ alternates <- parse_alternates c;
    let_ if_ <- peekTokenIs T_If;
    let_ guard <- (if if_ then (do_ nextToken; parseParenthesizedExpression) else ret NilExpression);
    let_ r <- parse_case_result;
    ret (Some (mkMatchCase t (case_Pattern c) (case_Type c) (case_Name c) guard (snd r) (fst r) false
                 (case_Variant c) (case_List c) alternates))
  else
    do_ errorf t (bs "expected case or default, got " ++ Type_String (tok_Type t));
    do_ synchronize n;
    ret None.

(** [parseMatchExpression]: its token, subject and cases. *)
Definition parse_match : M (Token * Expression * list MatchCase) :=
  let_ t <- cur;
  let_ e <- parseParenthesizedExpression;
  let_ ok <- expectPeek T_LBrace;
  if ok then
    let_ cases <- loop n (fun cases =>
      do_ nextToken;
      let_ ended <- atBodyEnd;
      if ended then ret (inr cases)
      else
        let_ c <- parse_match_case;
        ret (inl (match c with Some c => cases ++ [c] | None => cases end))) [];
    ret (t, e, cases)
  else ret (t, e, []).
Definition parseMatchExpression : M Expression :=
  let_ m <- parse_match; ret (MatchExpression (fst (fst m)) (snd (fst m)) (snd m)).

(** ** Prefix and infix forms *)

(** [parsePrefix]. *)
Definition parsePrefix : M Expression :=
  let_ t <- cur;
  match tok_Type t with
  | T_Ident | T_This | T_Parent | T_Bool => ret (Ident (ident_of t))
  | T_Int => ret (IntegerLiteral t (Literal t))
  | T_Decimal => ret (DecimalLiteral t (Literal t))
  | T_Float => ret (FloatLiteral t (Literal t))
  | T_String =>
      if Interpolated t then parseInterpolatedString t
      else ret (StringLiteral t (Literal t) (Raw t) (Quote t) (Triple t) false)
  | T_True => ret (Literal_ t (Some true))
  | T_False => ret (Literal_ t (Some false))
  | T_Null => ret (Literal_ t None)
  | T_Bang | T_Minus | T_BitNot | T_Inc | T_Dec =>
      do_ nextToken;
      let_ right <- parseExpression_ prefix;
      ret (PrefixExpression t (Literal t) right false)
  | T_Await =>
      do_ nextToken;
      let_ value <- parseExpression_ prefix;
      ret (AwaitExpression t value)
  | T_LParen =>
      let_ e <- next_expression;
      do_ expectPeek T_RParen;
      ret (mark_parenthesized e)
  | T_LBracket => parseListLiteral
  | T_LBrace => parseDictLiteral
  | T_Func => parseFunctionLiteral false
  | T_Async =>
      let_ func <- peekTokenIs T_Func;
      if func then (do_ nextToken; parseFunctionLiteral true) else ret (Ident (ident_of t))
  | T_Match => parseMatchExpression
  | _ =>
      do_ errorf t (bs "expected expression, got " ++ Type_String (tok_Type t));
      ret NilExpression
  end.

(** [parseDefaultInfix]. *)
Definition parseDefaultInfix (left : Expression) : M Expression :=
  let_ t <- cur;
  let_ next <- peek;
  let precedence := precedence_of (tok_Type t) in
  let precedence := if tok_is t T_Power then (precedence - 1)%nat else precedence in
  let is_not := tok_is t T_Is && tok_is next T_Not in
  do_ (if is_not then nextToken else ret tt);
  if tok_is t T_InstanceOf then
    do_ nextToken;
    let_ typ <- parseTypeRefFromCurrent n;
    ret (InfixExpression t left (Literal t) (Ident (mkIdent t (TypeRef_String typ))) (Some typ) false)
  else
    do_ nextToken;
    let_ right <- parseExpression_ precedence;
    ret (InfixExpression t left (if is_not then bs "is not" else Literal t) right None false).

(** [parseTernaryExpression]. *)
Definition parseTernaryExpression (left : Expression) : M Expression :=
  let_ t <- cur;
  let_ thenExpr <- next_expression;
  let_ ok <- expectPeek T_Colon;
  if ok then
    let_ elseExpr <- next_expression;
    ret (TernaryExpression t left thenExpr elseExpr false)
  else ret NilExpression.

(** [parseCompoundAssignment]. *)
Definition operator_token_at (t : Token) (opType : Type_) (opLit : gostring) : Token :=
  mkToken opType opLit [] 0 false false (Line t) (Column t) [].
Definition parseCompoundAssignment (left : Expression) (opType : Type_) (opLit : gostring) :
    M Expression :=
  let_ t <- cur;
  do_ nextToken;
  let_ rhs <- parseExpression_ (assign - 1)%nat;
  ret (AssignmentExpression t left
         (InfixExpression (operator_token_at t opType opLit) left opLit rhs None false)).

(** A selector [left.name] or [left?.name]; without a name it is [left]. *)
Definition parse_selector (left : Expression) (optional : bool) : M Expression :=
  let_ ok <- expectPeekIdentifierName;
  if ok then (let_ t <- cur; ret (SelectorExpression t left (ident_of t) optional false)) else ret left.

(** A range; its end is left out before a bracket, a parenthesis and [by]. *)
Definition parse_range (left : Expression) (exclusive : bool) : M Expression :=
  let_ t <- cur;
  let_ next <- peek;
  let_ stop <- (if tok_is next T_RBracket || tok_is next T_RParen || tok_is next T_By
              then ret NilExpression else (do_ nextToken; parseExpression_ compare));
  let_ by_ <- peekTokenIs T_By;
  let_ step <- (if by_ then (do_ nextToken; do_ nextToken; parseExpression_ compare) else ret NilExpression);
  ret (RangeExpression t left stop exclusive step).

(** [parseInfix]. *)
Definition parseInfix (left : Expression) : M Expression :=
  let_ p <- get;
  let t := curToken p in
  match compound_operator (tok_Type t) with
  | Some (opType, opLit) => parseCompoundAssignment left opType opLit
  | None =>
      match tok_Type t with
      | T_Dot => parse_selector left false
      | T_OptionalChain => parse_selector left true
      | T_LParen => parseCallExpression left
      | T_LBracket => parseIndexExpression left
      | T_LT =>
          if canBeGenericCallCallee left && looksLikeGenericCallTypeArgs p
          then parseGenericCall left else parseDefaultInfix left
      | T_Assign =>
          do_ nextToken;
          let_ value <- parseExpression_ (assign - 1)%nat;
          ret (AssignmentExpression t left value)
      | T_Inc | T_Dec => ret (PostfixExpression t left (Literal t))
      | T_As =>
          do_ nextToken;
          let_ ty <- parseTypeRefFromCurrent n;
          ret (CastExpression t left ty false)
      | T_Range => parse_range left false
      | T_RangeExcl => parse_range left true
      | T_Question => parseTernaryExpression left
      | T_Pipe =>
          do_ nextToken;
          let_ right <- parseExpression_ pipe;
          ret (PipeExpression t left right)
      | _ => parseDefaultInfix left
      end
  end.

(** [parseExpression]: the tokens that end an expression whatever their
    precedence, and the loop over the operators that bind tighter. *)
Definition ends_expression (t : Type_) : bool :=
  match t with
  | T_Semicolon | T_RParen | T_RBracket | T_Comma | T_Colon | T_Arrow => true
  | _ => false
  end.
Definition climb (precedence : nat) (left : Expression) : M Expression :=
  loop n (fun left =>
    let_ t <- peek;
    if negb (ends_expression (tok_Type t)) && (precedence <? precedence_of (tok_Type t))%nat then
      do_ nextToken;
      let_ left <- parseInfix left;
      ret (if is_nil left then inr left else inl left)
    else ret (inr left)) left.
Definition parse_expression_body (precedence : nat) : M Expression :=
  let_ left <- parsePrefix;
  if is_nil left then ret left else climb precedence left.
End Expressions.
