(* ===== verification/StmtParser.v ===== *)
(** * StmtParser: parsing statements and programs

    The statement half of src/internal/parser/parser.go, the knot between
    expressions and statements, and [ParseProgram]. *)

From S2P Require Import Prelude GoText Token Lexer Ast Parsing TypeParser ExprParser.
#[local] Open Scope Z_scope.
#[local] Open Scope parser_scope.

(** [fmt]'s [%q] on a name: letters and digits print as they are. *)
Definition quote_name (s : gostring) : gostring := [Byte.x22] ++ s ++ [Byte.x22].

(** [applyDocComment], and the documentation that a declaration takes from its
    decorators. *)
Definition or_doc (own doc : gostring) : gostring := match own with [] => doc | _ => own end.
Definition function_doc (f : FunctionStatement) (doc : gostring) : FunctionStatement :=
  let 'mkFunction t a st d ds nm g ps r b := f in mkFunction t a st (or_doc d doc) ds nm g ps r b.
Definition class_doc (c : ClassStatement) (doc : gostring) : ClassStatement :=
  let 'mkClass t d ds nm g e i m dt fd := c in mkClass t (or_doc d doc) ds nm g e i m dt fd.
Definition interface_doc (i : InterfaceStatement) (doc : gostring) : InterfaceStatement :=
  let 'mkInterface t d nm g ps ms ds fs := i in mkInterface t (or_doc d doc) nm g ps ms ds fs.
Definition applyDocComment (s : Statement) (doc : gostring) : Statement :=
  match s with
  | Function_ f => Function_ (function_doc f doc)
  | Class_ c => Class_ (class_doc c doc)
  | Interface_ i => Interface_ (interface_doc i doc)
  | s => s
  end.

Definition decorate_function (f : FunctionStatement) (ds : list Decorator) (doc : gostring) :=
  let 'mkFunction t a st d _ nm g ps r b := f in mkFunction t a st (or_doc d doc) ds nm g ps r b.
Definition decorate_class (c : ClassStatement) (ds : list Decorator) (doc : gostring) :=
  let 'mkClass t d _ nm g e i m dt fd := c in mkClass t (or_doc d doc) ds nm g e i m dt fd.
Definition decorate_declaration (d : DeclarationStatement) (ds : list Decorator) (doc : gostring) :=
  let 'mkDeclaration t k ty nm v d' _ := d in mkDeclaration t k ty nm v (or_doc d' doc) ds.

(** A map entry [m[k] = v]: the map of a class is kept in order of insertion. *)
Fixpoint assoc_set (k : gostring) (v : list Decorator) (l : list (gostring * list Decorator)) :
    list (gostring * list Decorator) :=
  match l with
  | [] => [(k, v)]
  | (k', v') :: l => if decide (k = k') then (k, v) :: l else (k', v') :: assoc_set k v l
  end.

(** ** The statements that contain no expression and no statement *)

Section Simple.
Variable n : nat.

(** [parsePath] and [parsePathHere]. *)
Definition parse_path_rest (first : gostring) : M (list gostring) :=
  loop n (fun path =>
    let_ dot <- peekTokenIs T_Dot;
    if dot then
      do_ nextToken;
      let_ ok <- expectPeekIdentifierName;
      if ok then (let_ t <- cur; ret (inl (path ++ [Literal t]))) else ret (inr path)
    else ret (inr path)) [first].
Definition parsePath : M (list gostring) :=
  let_ ok <- expectPeekIdentifierName;
  if ok then (let_ t <- cur; parse_path_rest (Literal t)) else ret [].
Definition parsePathHere : M (list gostring) := let_ t <- cur; parse_path_rest (Literal t).

(** [parseModuleStatement] and [parseImportStatement]. *)
Definition parseModuleStatement : M Statement :=
  let_ t <- cur;
  let_ path <- parsePath;
  do_ expectPeek T_Semicolon;
  ret (ModuleStatement t path).
Definition parse_alias : M (option Identifier * bool) :=
  let_ as_ <- peekTokenIs T_As;
  if as_ then
    do_ nextToken;
    let_ ok <- expectPeek T_Ident;
    if ok then (let_ t <- cur; ret (Some (ident_of t), true)) else ret (None, false)
  else ret (None, true).
Definition parseImportStatement : M Statement :=
  let_ t <- cur;
  let_ path <- parsePath;
  let_ alias <- parse_alias;
  do_ expectPeek T_Semicolon;
  let (path, builtin) := NormalizeReservedImportPath path in
  ret (ImportStatement t path (fst alias) builtin).

(** [parseFromImportStatement]. *)
Definition parseFromImportStatement : M Statement :=
  let_ t <- cur;
  do_ nextToken;
  let_ path <- parsePathHere;
  let (path, builtin) := NormalizeReservedImportPath path in
  let_ ok <- expectPeek T_Import;
  if ok then
    let_ names <- loop n (fun names =>
      let_ ok <- expectPeek T_Ident;
      if ok then
        let_ name <- cur;
        let_ alias <- parse_alias;
        if snd alias then
          let names := names ++ [mkImportName (ident_of name) (fst alias)] in
          let_ comma <- peekTokenIs T_Comma;
          if comma then (do_ nextToken; ret (inl names)) else ret (inr (names, true))
        else ret (inr (names, false))
      else ret (inr (names, false))) [];
    do_ (if snd names then (do_ expectPeek T_Semicolon; ret tt) else ret tt);
    ret (FromImportStatement t path (fst names) builtin)
  else ret (FromImportStatement t path [] builtin).

(** [parseTypeAliasStatement]. *)
Definition parseTypeAliasStatement : M Statement :=
  let_ t <- cur;
  let_ ok <- expectPeek T_Ident;
  if ok then
    let_ name <- cur;
    let_ ok <- expectPeek T_Assign;
    if ok then
      do_ nextToken;
      let_ ty <- parseTypeRefFromCurrent n;
      do_ expectPeek T_Semicolon;
      ret (TypeAliasStatement t (Some (ident_of name)) (Some ty))
    else ret (TypeAliasStatement t (Some (ident_of name)) None)
  else ret (TypeAliasStatement t None None).

(** [parseDestructuringPattern]: the names up to the closing token. *)
Definition pattern_names (close : Type_) : M (list Identifier) :=
  do_ nextToken;
  loop n (fun names =>
    let_ t <- cur;
    if tok_is t close || tok_is t T_EOF then ret (inr names)
    else
      do_ nextToken;
      let_ comma <- curTokenIs T_Comma;
      do_ (if comma then nextToken else ret tt);
      ret (inl (if tok_is t T_Ident then names ++ [ident_of t] else names))) [].
Definition parseDestructuringPattern : M (list Identifier * list gostring * bool) :=
  let_ list_ <- curTokenIs T_LBracket;
  if list_ then (let_ names <- pattern_names T_RBracket; ret (names, [], true))
  else (let_ names <- pattern_names T_RBrace; ret (names, map ident_Value names, false)).

(** [parseGenericNames]. *)
Definition parse_constraint : M (option TypeRef) :=
  let_ next <- peek;
  if tok_is next T_Implements then
    do_ nextToken;
    do_ nextToken;
    let_ first <- parseTypeRefFromCurrent n;
    let_ ty <- loop n (fun ty =>
      let_ p <- get;
      if tok_is (peekToken p) T_Comma && isConstraintComma p then
        do_ nextToken;
        do_ nextToken;
        let_ more <- parseTypeRefFromCurrent n;
        ret (inl (mkTypeRef zero_token [] false [] false (Some ty) (bs "&") (Some more)))
      else ret (inr ty)) first;
    ret (Some ty)
  else if tok_is next T_Ident || tok_is next T_Question then
    do_ nextToken;
    let_ ty <- parseTypeRefFromCurrent n;
    ret (Some ty)
  else ret None.
Definition parseGenericNames : M (list TypeParam) :=
  let_ lt <- peekTokenIs T_LT;
  if lt then
    do_ nextToken;
    let_ params <- loop n (fun params =>
      let_ ok <- expectPeek T_Ident;
      if ok then
        let_ name <- cur;
        let_ constraint <- parse_constraint;
        let params := params ++ [mkTypeParam (ident_of name) constraint] in
        let_ comma <- peekTokenIs T_Comma;
        if comma then (do_ nextToken; ret (inl params)) else ret (inr (params, true))
      else ret (inr (params, false))) [];
    do_ (if snd params then (do_ expectPeek T_GT; ret tt) else ret tt);
    ret (fst params)
  else ret [].

(** [parseKeywordOnlyStatement] and [parseDelStatement]. *)
Definition parseKeywordOnlyStatement : M Statement :=
  let_ t <- cur;
  do_ expectPeek T_Semicolon;
  ret (SimpleStatement t (Literal t) NilExpression).
Definition parseDelStatement : M Statement :=
  let_ t <- cur;
  let_ ok <- expectPeek T_Ident;
  if ok then
    let_ target <- cur;
    let_ next <- peek;
    do_ (if tok_is next T_Dot || tok_is next T_LBracket then
           do_ errorf next (bs "del only supports identifiers, not field selectors or index expressions");
           loop n (fun _ =>
             let_ t <- peek;
             if tok_is t T_Semicolon || tok_is t T_EOF then ret (inr tt)
             else (do_ nextToken; ret (inl tt))) tt
         else ret tt);
    ret (DelStatement t (Some (ident_of target)))
  else ret (DelStatement t None).

(** [parseInterfaceField]. *)
Definition parseInterfaceField : M (option DeclarationStatement) :=
  let_ t <- cur;
  let_ ty <- parseTypeRefFromCurrent n;
  let_ ok <- expectPeek T_Ident;
  if ok then
    let_ name <- cur;
    do_ expectPeek T_Semicolon;
    ret (Some (mkDeclaration t [] (Some ty) (Some (ident_of name)) NilExpression [] []))
  else ret None.

(** A name after the current token. *)
Definition parse_name : M (option Identifier) :=
  let_ ok <- expectPeek T_Ident;
  if ok then (let_ t <- cur; ret (Some (ident_of t))) else ret None.
End Simple.

(** ** The statements *)

Section Statements.
Context `{UnicodeLetters}.
Variable n : nat.
Variable parseExpression_ : nat -> M Expression.
Variable parseStatement_ : M Statement.

Abbreviation value_after := (next_expression parseExpression_).
Abbreviation condition_ := (parseParenthesizedExpression parseExpression_).
Abbreviation block_ := (parseBlockStatement n parseStatement_).
Abbreviation body_ := (parse_body n parseStatement_).
Abbreviation parameters_ := (parseParameterList n parseExpression_).

(** The right-hand side [e] or [e, f, ...], a bare list at [t]. *)
Definition parse_values (t : Token) : M Expression :=
  let_ first <- value_after;
  let_ comma <- peekTokenIs T_Comma;
  if comma then
    let_ elements <- loop n (fun elements =>
      let_ comma <- peekTokenIs T_Comma;
      if comma then (do_ nextToken; let_ e <- value_after; ret (inl (elements ++ [e])))
      else ret (inr elements)) [first];
    ret (ListLiteral t elements true zero_token)
  else ret first.

(** [parseMultiAssignStatement]: the targets, [false] after an error. *)
Definition multi_targets : M (list Identifier * bool) :=
  loop n (fun names =>
    let_ t <- cur;
    if tok_is t T_Ident then
      let names := names ++ [ident_of t] in
      let_ comma <- peekTokenIs T_Comma;
      if comma then (do_ nextToken; do_ nextToken; ret (inl names)) else ret (inr (names, true))
    else
      do_ errorf t (bs "expected identifier in multi-assignment target");
      ret (inr (names, false))) [].
(** [= values;] for the names of a destructuring. *)
Definition finish_destructuring (t : Token) (names : list Identifier) (keys : list gostring)
    (isList define bare : bool) (values : M Expression) : M Statement :=
  let_ ok <- expectPeek T_Assign;
  if ok then
    let_ value <- values;
    do_ expectPeek T_Semicolon;
    ret (DestructuringStatement t names keys isList define bare value)
  else ret (DestructuringStatement t names keys isList define bare NilExpression).
Definition parseMultiAssignStatement : M Statement :=
  let_ t <- cur;
  let_ names <- multi_targets;
  if snd names then finish_destructuring t (fst names) [] true false true (parse_values t)
  else ret (DestructuringStatement t (fst names) [] true false true NilExpression).

(** [parseDestructuringStatement] and [parseDestructuringAssignmentStatement]. *)
Definition parse_destructuring (t : Token) (define : bool) : M Statement :=
  let_ pat <- parseDestructuringPattern n;
  finish_destructuring t (fst (fst pat)) (snd (fst pat)) (snd pat) define false value_after.
Definition parseDestructuringStatement (letTok : Token) : M Statement :=
  do_ nextToken; parse_destructuring letTok true.
Definition parseDestructuringAssignmentStatement : M Statement :=
  let_ t <- cur; parse_destructuring t false.

(** [parseDeclarationStatement].  The value and the semicolon come last. *)
Definition finish_declaration (t : Token) (kind : gostring) (ty : option TypeRef)
    (name : Identifier) (doc : gostring) : M Statement :=
  let_ eq <- peekTokenIs T_Assign;
  let_ value <- (if eq then (do_ nextToken; let_ e <- value_after; ret (emptySetForType ty e))
               else ret NilExpression);
  do_ expectPeek T_Semicolon;
  ret (Declaration (mkDeclaration t kind ty (Some name) value doc [])).
Definition unnamed_declaration (t : Token) (kind : gostring) (ty : option TypeRef) (doc : gostring) :
    Statement :=
  Declaration (mkDeclaration t kind ty None NilExpression doc []).
(** [let a, b = ...], after the first name. *)
Definition parse_bare_names (t : Token) (first : Identifier) : M Statement :=
  let_ names <- parse_names n first;
  if snd names then finish_destructuring t (fst names) [] true true true (parse_values t)
  else ret (DestructuringStatement t (fst names) [] true true true NilExpression).
(** A type at the current token and the name it declares. *)
Definition parse_typed_name (t : Token) (kind kind' doc : gostring) : M Statement :=
  let_ ty <- parseTypeRefFromCurrent n;
  let_ ok <- expectPeek T_Ident;
  if ok then (let_ name <- cur; finish_declaration t kind' (Some ty) (ident_of name) doc)
  else ret (unnamed_declaration t kind (Some ty) doc).
Definition parseDeclarationStatement : M Statement :=
  let_ first <- cur;
  let static := tok_is first T_Static in
  do_ (if static then nextToken else ret tt);
  let_ t <- cur;
  let doc := Doc first in
  if tok_is t T_Const || tok_is t T_Let then
    let kind := (if static then bs "static " else []) ++ Literal t in
    let_ next <- peek;
    if negb static && (tok_is next T_LBracket || tok_is next T_LBrace) then parseDestructuringStatement t
    else
      let_ ok <- expectPeek T_Ident;
      if ok then
        let_ name <- cur;
        let_ next <- peek;
        if tok_is next T_Comma then parse_bare_names t (ident_of name)
        else if tok_is next T_Assign || tok_is next T_Semicolon
        then finish_declaration t kind None (ident_of name) doc
        else parse_typed_name t kind kind doc
      else ret (unnamed_declaration t kind None doc)
  else parse_typed_name t [] (if static then bs "static let" else []) doc.

(** [parseInitStatement] and [parseExportStatement]. *)
Definition parseInitStatement : M Statement :=
  let_ t <- cur; let_ body <- body_; ret (InitStatement t body).
Definition parseExportStatement : M Statement :=
  let_ t <- cur;
  do_ nextToken;
  let_ s <- parseStatement_;
  ret (ExportStatement t (applyDocComment s (Doc t))).

(** [parseDecoratedStatement]. *)
Definition decorator_error : M unit :=
  let_ t <- cur; errorf t (bs "decorators can only be applied to functions, classes, or fields").
Definition decorate (s : Statement) (ds : list Decorator) (doc : gostring) : M Statement :=
  match s with
  | Function_ f => ret (Function_ (decorate_function f ds doc))
  | Class_ c => ret (Class_ (decorate_class c ds doc))
  | Declaration d => ret (Declaration (decorate_declaration d ds doc))
  | ExportStatement t (Function_ f) => ret (ExportStatement t (Function_ (decorate_function f ds doc)))
  | ExportStatement t (Class_ c) => ret (ExportStatement t (Class_ (decorate_class c ds doc)))
  | s => do_ decorator_error; ret s
  end.
Definition parseDecoratedStatement : M Statement :=
  let_ t <- cur;
  let_ ds <- parse_decorators n parseExpression_;
  if snd ds then (let_ s <- parseStatement_; decorate s (fst ds) (Doc t)) else ret NilStatement.

(** [parseFunctionStatement]. *)
Definition parseFunctionStatement (static : bool) : M Statement :=
  let_ first <- cur;
  let_ static_ <- curTokenIs T_Static;
  do_ (if static_ then nextToken else ret tt);
  let_ async <- curTokenIs T_Async;
  do_ (if async then nextToken else ret tt);
  let_ t <- cur;
  let static := static || static_ in
  let doc := or_doc (Doc first) (Doc t) in
  let stop name := ret (Function_ (mkFunction t async static doc [] name [] [] None None)) in
  if tok_is t T_Func then
    let_ ok <- expectPeekIdentifierName;
    if ok then
      let_ name <- cur;
      let_ generics <- parseGenericNames n;
      let_ params <- parameters_;
      let_ ret_ <- parse_return_type n;
      let_ body <- body_;
      ret (Function_ (mkFunction t async static doc [] (Some (ident_of name)) generics params ret_ body))
    else stop None
  else
    do_ errorf t (bs "expected func, got " ++ Type_String (tok_Type t));
    stop None.

(** [parseDestructorStatement]. *)
Definition destructor_name_error (name expected : gostring) : gostring :=
  bs "destructor name " ++ quote_name name ++ bs " does not match enclosing class " ++ quote_name expected.
Definition parseDestructorStatement (expectedName : gostring) : M (option FunctionStatement) :=
  let_ t <- cur;
  let_ ok <- expectPeek T_BitNot;
  let_ name <- (if ok then parse_name else ret None);
  match name with
  | None => ret None
  | Some name =>
      do_ (if decide (ident_Value name = expectedName) then ret tt
           else errorf (ident_Token name) (destructor_name_error (ident_Value name) expectedName));
      let_ params <- parameters_;
      do_ match params with
          | [] => ret tt
          | _ => errorf t (bs "destructor " ++ ident_Value name ++ bs " must take no arguments")
          end;
      let_ ret_ <- parse_return_type n;
      let_ body <- body_;
      ret (Some (mkFunction t false false (Doc t) [] (Some name) [] params ret_ body))
  end.

(** [parseClassStatement]: the members, the destructor and the decorators of
    the fields. *)
Record ClassBody := mkClassBody {
  body_Members : list Statement; body_Destructor : option FunctionStatement;
  body_Decorators : list (gostring * list Decorator) }.
Definition lift_decorators (s : Statement) (fd : list (gostring * list Decorator)) :=
  match s with
  | Declaration (mkDeclaration _ _ _ (Some name) _ _ ((_ :: _) as ds)) => assoc_set (ident_Value name) ds fd
  | _ => fd
  end.
Definition function_token (f : FunctionStatement) : Token := let 'mkFunction t _ _ _ _ _ _ _ _ _ := f in t.
Definition parse_class_member (className : gostring) (b : ClassBody) : M ClassBody :=
  let_ t <- cur;
  let_ next <- peek;
  if tok_is t T_Func && tok_is next T_BitNot then
    let_ dtor <- parseDestructorStatement className;
    match dtor, body_Destructor b with
    | Some d, Some _ =>
        do_ errorf (function_token d) (bs "class " ++ className ++ bs " may declare only one destructor");
        ret b
    | Some d, None => ret (mkClassBody (body_Members b) (Some d) (body_Decorators b))
    | None, _ => ret b
    end
  else
    let_ s <- parseStatement_;
    match s with
    | NilStatement => ret b
    | _ => ret (mkClassBody (body_Members b ++ [s]) (body_Destructor b) (lift_decorators s (body_Decorators b)))
    end.
Definition parseClassStatement : M Statement :=
  let_ t <- cur;
  let_ name <- parse_name;
  match name with
  | None => ret (Class_ (mkClass t (Doc t) [] None [] None [] [] None []))
  | Some name =>
      let_ generics <- parseGenericNames n;
      let_ ext <- peekTokenIs T_Extends;
      let_ extends <- (if ext then (do_ nextToken; do_ nextToken; let_ ty <- parseTypeRefFromCurrent n; ret (Some ty))
                     else ret None);
      let_ impl <- peekTokenIs T_Implements;
      let_ implements <- (if impl then (do_ nextToken; parseTypeList n) else ret []);
      let_ ok <- expectPeek T_LBrace;
      if ok then
        let_ b <- loop n (fun b =>
          do_ nextToken;
          let_ ended <- atBodyEnd;
          if ended then ret (inr b)
          else (let_ b <- parse_class_member (ident_Value name) b; ret (inl b))) (mkClassBody [] None []);
        ret (Class_ (mkClass t (Doc t) [] (Some name) generics extends implements
                       (body_Members b) (body_Destructor b) (body_Decorators b)))
      else ret (Class_ (mkClass t (Doc t) [] (Some name) generics extends implements [] None []))
  end.

(** [parseInterfaceMember] and [parseInterfaceStatement]. *)
Definition parse_interface_function : M (option (FunctionStatement + FunctionSignature)) :=
  let_ t <- cur;
  let_ ok <- expectPeekIdentifierName;
  if ok then
    let_ name <- cur;
    let_ generics <- parseGenericNames n;
    let_ params <- parameters_;
    let_ ret_ <- parse_return_type n;
    let_ brace <- peekTokenIs T_LBrace;
    if brace then
      do_ nextToken;
      let_ body <- block_;
      ret (Some (inl (mkFunction t false false (Doc t) [] (Some (ident_of name)) generics params ret_ (Some body))))
    else
      do_ expectPeek T_Semicolon;
      ret (Some (inr (mkSignature t (Doc t) (ident_of name) generics params ret_)))
  else ret None.
Record InterfaceBody := mkInterfaceBody {
  body_Methods : list FunctionSignature; body_Defaults : list FunctionStatement;
  body_Fields : list DeclarationStatement }.
Definition parse_interface_member (b : InterfaceBody) : M InterfaceBody :=
  let_ p <- get;
  if tok_is (curToken p) T_Func then
    let_ f <- parse_interface_function;
    ret (match f with
         | Some (inl d) => mkInterfaceBody (body_Methods b) (body_Defaults b ++ [d]) (body_Fields b)
         | Some (inr s) => mkInterfaceBody (body_Methods b ++ [s]) (body_Defaults b) (body_Fields b)
         | None => b
         end)
  else if canStartFieldDeclaration p then
    let_ f <- parseInterfaceField n;
    ret (match f with
         | Some f => mkInterfaceBody (body_Methods b) (body_Defaults b) (body_Fields b ++ [f])
         | None => b
         end)
  else
    do_ errorf (curToken p) (bs "expected interface method signature, default method, or field, got "
                             ++ Type_String (tok_Type (curToken p)));
    do_ synchronize n;
    ret b.
Definition parseInterfaceStatement : M Statement :=
  let_ t <- cur;
  let_ name <- parse_name;
  match name with
  | None => ret (Interface_ (mkInterface t (Doc t) None [] [] [] [] []))
  | Some name =>
      let_ generics <- parseGenericNames n;
      let_ ext <- peekTokenIs T_Extends;
      let_ parents <- (if ext then (do_ nextToken; parseTypeList n) else ret []);
      let_ ok <- expectPeek T_LBrace;
      if ok then
        let_ b <- loop n (fun b =>
          do_ nextToken;
          let_ ended <- atBodyEnd;
          if ended then ret (inr b) else (let_ b <- parse_interface_member b; ret (inl b)))
          (mkInterfaceBody [] [] []);
        ret (Interface_ (mkInterface t (Doc t) (Some name) generics parents
                           (body_Methods b) (body_Defaults b) (body_Fields b)))
      else ret (Interface_ (mkInterface t (Doc t) (Some name) generics parents [] [] []))
  end.

(** [parseIfStatement]: the else-ifs, [false] when one has no body. *)
Definition parse_else_ifs : M (list ElseIfClause * bool) :=
  loop n (fun clauses =>
    let_ next <- peek;
    let_ if_ <- peekNextTokenIs T_If;
    let else_if := tok_is next T_Else && if_ in
    if tok_is next T_ElseIf || else_if then
      do_ (if tok_is next T_Else then nextToken else ret tt);
      do_ nextToken;
      let_ c <- condition_;
      let_ body <- body_;
      ret (match body with
           | Some b => inl (clauses ++ [mkElseIf c b])
           | None => inr (clauses, false)
           end)
    else ret (inr (clauses, true))) [].
Definition parseIfStatement : M Statement :=
  let_ t <- cur;
  let_ c <- condition_;
  let_ body <- body_;
  match body with
  | None => ret (IfStatement t c None [] None)
  | Some body =>
      let_ clauses <- parse_else_ifs;
      let_ else_ <- peekTokenIs T_Else;
      let_ alternative <- (if snd clauses && else_ then (do_ nextToken; body_) else ret None);
      ret (IfStatement t c (Some body) (fst clauses) alternative)
  end.

(** [parseWhileStatement] and [parseWithStatement]. *)
Definition parseWhileStatement : M Statement :=
  let_ t <- cur;
  let_ c <- condition_;
  let_ body <- body_;
  ret (WhileStatement t c body).
Definition parseWithStatement : M Statement :=
  let_ t <- cur;
  let_ ok <- expectPeek T_LParen;
  if ok then
    do_ nextToken;
    let_ first <- cur;
    let_ next <- peek;
    let named := tok_is first T_Ident && tok_is next T_Assign in
    do_ (if named then (do_ nextToken; nextToken) else ret tt);
    let_ value <- parseExpression_ lowest;
    let name := if named then Some (ident_of first) else None in
    let_ ok <- expectPeek T_RParen;
    let_ body <- (if ok then body_ else ret None);
    ret (WithStatement t name value body)
  else ret (WithStatement t None NilExpression None).

(** [parseExpressionStatement]. *)
Definition parseExpressionStatement (requireSemicolon : bool) : M Statement :=
  let_ t <- cur;
  let_ e <- parseExpression_ lowest;
  do_ (if requireSemicolon then (do_ expectPeek T_Semicolon; ret tt) else ret tt);
  ret (ExpressionStatement t e).

(** [parseForStatement].  The part of a [for ... in] before its body: type,
    name, names and, unless the header is malformed, iterable and step. *)
Record ForIn := mkForIn {
  for_Type : option TypeRef; for_Name : option Identifier; for_Names : list Identifier;
  for_Source : option (Expression * Expression) }.
Definition for_source : M (option (Expression * Expression)) :=
  let_ e <- value_after;
  let_ by_ <- peekTokenIs T_By;
  let_ step <- (if by_ then (do_ nextToken; value_after) else ret NilExpression);
  do_ expectPeek T_RParen;
  ret (Some (e, step)).
Definition parse_for_in : M ForIn :=
  let_ t <- cur;
  let_ next <- peek;
  if tok_is t T_Ident && tok_is next T_Comma then
    let_ names <- parse_names n (ident_of t);
    let_ ok <- (if snd names then expectPeek T_In else ret false);
    let_ src <- (if ok then for_source else ret None);
    ret (mkForIn None None (fst names) src)
  else if tok_is t T_Ident && tok_is next T_In then
    do_ expectPeek T_In;
    let_ src <- for_source;
    ret (mkForIn None (Some (ident_of t)) [] src)
  else
    let_ ty <- parseTypeRefFromCurrent n;
    let_ name <- parse_name;
    match name with
    | None => ret (mkForIn (Some ty) None [] None)
    | Some name =>
        do_ expectPeek T_In;
        let_ src <- for_source;
        ret (mkForIn (Some ty) (Some name) [] src)
    end.
Definition starts_declaration (t next : Token) : bool :=
  tok_is t T_Let || tok_is t T_Const || tok_is t T_Question ||
  (tok_is t T_Ident && (tok_is next T_Ident || tok_is next T_LT || tok_is next T_LBracket)).
(** The three parts of the other form. *)
Definition parse_for_header : M (Statement * Expression * Statement) :=
  let_ t <- cur;
  let_ next <- peek;
  let_ init <- (if tok_is t T_Semicolon then ret NilStatement
              else if starts_declaration t next then parseDeclarationStatement
              else (let_ s <- parseExpressionStatement false; do_ expectPeek T_Semicolon; ret s));
  let_ at_semicolon <- curTokenIs T_Semicolon;
  do_ (if at_semicolon then nextToken else ret tt);
  let_ no_condition <- curTokenIs T_Semicolon;
  let_ condition <- (if no_condition then ret NilExpression else parseExpression_ lowest);
  do_ expectPeek T_Semicolon;
  do_ nextToken;
  let_ no_update <- curTokenIs T_RParen;
  let_ update <- (if no_update then ret NilStatement else parseExpressionStatement false);
  let_ closed <- curTokenIs T_RParen;
  do_ (if closed then ret true else expectPeek T_RParen);
  ret (init, condition, update).
Definition parseForStatement : M Statement :=
  let_ t <- cur;
  let_ ok <- expectPeek T_LParen;
  if ok then
    do_ nextToken;
    let_ in_ <- isForInClause n;
    if in_ then
      let_ f <- parse_for_in;
      match for_Source f with
      | None =>
          ret (ForStatement t NilStatement NilExpression NilStatement (for_Type f) (for_Name f)
                 (for_Names f) NilExpression NilExpression None)
      | Some (iterable, step) =>
          let_ body <- body_;
          ret (ForStatement t NilStatement NilExpression NilStatement (for_Type f) (for_Name f)
                 (for_Names f) iterable step body)
      end
    else
      let_ h <- parse_for_header;
      let_ body <- body_;
      ret (ForStatement t (fst (fst h)) (snd (fst h)) (snd h) None None [] NilExpression NilExpression body)
  else ret (ForStatement t NilStatement NilExpression NilStatement None None [] NilExpression NilExpression None).

(** [parseReturnStatement], [parseYieldStatement] and [parseSimpleValueStatement]. *)
Definition parseReturnStatement : M Statement :=
  let_ t <- cur;
  let_ empty <- peekTokenIs T_Semicolon;
  if empty then (do_ nextToken; ret (ReturnStatement t NilExpression))
  else (let_ e <- parse_values t; do_ expectPeek T_Semicolon; ret (ReturnStatement t e)).
Definition parseYieldStatement : M Statement :=
  let_ t <- cur;
  let_ empty <- peekTokenIs T_Semicolon;
  if empty then (do_ nextToken; ret (YieldStatement t NilExpression))
  else (let_ e <- value_after; do_ expectPeek T_Semicolon; ret (YieldStatement t e)).
Definition parseSimpleValueStatement : M Statement :=
  let_ t <- cur;
  let_ e <- value_after;
  do_ expectPeek T_Semicolon;
  ret (SimpleStatement t (Literal t) e).

(** [parseTryStatement]: the catches, [false] when one has no body. *)
Definition parse_catch_head : M (option TypeRef * option Identifier) :=
  let_ paren <- peekTokenIs T_LParen;
  if paren then
    do_ nextToken;
    do_ nextToken;
    let_ ty <- parseTypeRefFromCurrent n;
    let_ named <- peekTokenIs T_Ident;
    let_ name <- (if named then (do_ nextToken; let_ t <- cur; ret (Some (ident_of t))) else ret None);
    do_ expectPeek T_RParen;
    ret (Some ty, name)
  else ret (None, None).
Definition parse_catches : M (list CatchClause * bool) :=
  loop n (fun catches =>
    let_ catch <- peekTokenIs T_Catch;
    if catch then
      do_ nextToken;
      let_ head_ <- parse_catch_head;
      let_ body <- body_;
      ret (match body with
           | Some b => inl (catches ++ [mkCatch (fst head_) (snd head_) b])
           | None => inr (catches, false)
           end)
    else ret (inr (catches, true))) [].
Definition parseTryStatement : M Statement :=
  let_ t <- cur;
  let_ body <- body_;
  match body with
  | None => ret (TryStatement t None [] None)
  | Some body =>
      let_ catches <- parse_catches;
      let_ finally_ <- peekTokenIs T_Finally;
      let_ finally <- (if snd catches && finally_ then (do_ nextToken; body_) else ret None);
      ret (TryStatement t (Some body) (fst catches) finally)
  end.

(** [parseMatchStatement]. *)
Definition parseMatchStatement : M Statement :=
  let_ m <- parse_match n parseExpression_ parseStatement_;
  ret (MatchStatement (fst (fst m)) (snd (fst m)) (snd m)).

(** [parseSelectCaseBody] and [parseSelectStatement]. *)
Definition parseSelectCaseBody : M BlockStatement :=
  let_ brace <- curTokenIs T_LBrace;
  if brace then block_ else parse_case_body n parseStatement_.
(** The head of a case: what it does with which channel, or its error. *)
Definition select_operation (e : Expression) (bound : bool) :
    result gostring (gostring * Expression * Expression) :=
  match e with
  | CallExpression _ _ (SelectorExpression _ object name _ _) args _ =>
      let op := ident_Value name in
      if decide (op = bs "recv") then
        match args with
        | [] => Ok (bs "recv", object, NilExpression)
        | _ => Err (bs "recv() takes no arguments")
        end
      else if decide (op = bs "send") then
        if bound then Err (bs "send case cannot bind a variable")
        else match args with
             | [mkArgument _ value _ _] => Ok (bs "send", object, value)
             | _ => Err (bs "send(value) takes exactly one argument")
             end
      else Err (bs "select case must be .recv() or .send(...), got ." ++ op)
  | CallExpression _ _ _ _ _ => Err (bs "select case head must be a method call")
  | _ => Err (bs "select case head must be a channel.recv() or channel.send(...) call")
  end.
(** The binding [let name =] of a case; [None] after an error. *)
Definition parse_select_binding : M (option gostring) :=
  let_ isLet <- curTokenIs T_Let;
  if isLet then
    let_ name <- parse_name;
    match name with
    | None => ret None
    | Some name =>
        let_ ok <- expectPeek T_Assign;
        if ok then (do_ nextToken; ret (Some (ident_Value name))) else ret None
    end
  else ret (Some []).
Definition parse_select_case : M (option SelectCase) :=
  let_ t <- cur;
  do_ nextToken;
  let_ binding <- parse_select_binding;
  match binding with
  | None => ret None
  | Some binding =>
      let_ e <- parseExpression_ lowest;
      match select_operation e (negb (bool_decide (binding = []))) with
      | Err msg => do_ errorf t msg; ret None
      | Ok (kind, channel, value) =>
          let_ ok <- expectPeek T_Colon;
          if ok then
            do_ nextToken;
            let_ body <- parseSelectCaseBody;
            ret (Some (mkSelectCase kind channel binding value body t))
          else ret None
      end
  end.
Definition parseSelectStatement : M Statement :=
  let_ t <- cur;
  let_ ok <- expectPeek T_LBrace;
  if ok then
    loop n (fun '(cases, default) =>
      let stop := ret (inr (SelectStatement t cases default)) in
      do_ nextToken;
      let_ ended <- atBodyEnd;
      let_ c <- cur;
      if ended then stop
      else if tok_is c T_Default then
        let_ ok <- expectPeek T_Colon;
        if ok then (do_ nextToken; let_ b <- parseSelectCaseBody; ret (inl (cases, Some b))) else stop
      else if tok_is c T_Case then
        let_ r <- parse_select_case;
        match r with Some r => ret (inl (cases ++ [r], default)) | None => stop end
      else
        do_ errorf c (bs "expected case or default in select, got " ++ Type_String (tok_Type c));
        do_ synchronize n;
        ret (inl (cases, default))) ([], None)
  else ret (SelectStatement t [] None).

(** [parseEnumStatement]: a variant and its separator, and whether the methods
    begin. *)
Definition parse_variant_fields : M (list TypeRef) :=
  let_ paren <- peekTokenIs T_LParen;
  if paren then
    do_ nextToken;
    let_ types <- loop n (fun types =>
      let_ t <- peek;
      if tok_is t T_RParen || tok_is t T_EOF then ret (inr types)
      else
        do_ nextToken;
        let_ ty <- parseTypeRefFromCurrent n;
        let_ comma <- peekTokenIs T_Comma;
        if comma then (do_ nextToken; ret (inl (types ++ [ty]))) else ret (inr (types ++ [ty]))) [];
    do_ expectPeek T_RParen;
    ret types
  else ret [].
Definition variant_separator : M bool :=
  let_ t <- peek;
  if tok_is t T_Comma then (do_ nextToken; ret false)
  else if tok_is t T_Semicolon then
    do_ nextToken;
    let_ t <- peek;
    ret (tok_is t T_Func || tok_is t T_Async)
  else ret false.
Definition parse_variant : M (EnumVariantDef * bool) :=
  let_ t <- cur;
  let_ types <- parse_variant_fields;
  let_ eq <- peekTokenIs T_Assign;
  let_ backing <- (if eq then (do_ nextToken; value_after) else ret NilExpression);
  do_ (if negb (bool_decide (types = [])) && negb (is_nil backing)
       then errorf t (bs "enum variant " ++ Literal t ++ bs " cannot have both associated data and a backing value")
       else ret tt);
  let_ methods <- variant_separator;
  ret (mkVariant (ident_of t) types backing, methods).
(** The variants; [false] when the body ended with them. *)
Definition parse_variants : M (list EnumVariantDef * bool) :=
  loop n (fun variants =>
    do_ nextToken;
    let_ ended <- atBodyEnd;
    let_ t <- cur;
    if ended then ret (inr (variants, false))
    else if tok_is t T_Semicolon then ret (inr (variants, true))
    else if tok_is t T_Ident then
      let_ v <- parse_variant;
      ret (if snd v then inr (variants ++ [fst v], true) else inl (variants ++ [fst v]))
    else
      do_ errorf t (bs "expected enum variant name, got " ++ Type_String (tok_Type t));
      do_ synchronize n;
      ret (inl variants)) [].
Definition parse_methods : M (list FunctionStatement) :=
  loop n (fun methods =>
    do_ nextToken;
    let_ ended <- atBodyEnd;
    let_ t <- cur;
    let_ next <- peek;
    if ended then ret (inr methods)
    else if tok_is t T_Func || (tok_is t T_Async && tok_is next T_Func) then
      let_ s <- parseStatement_;
      match s with
      | Function_ f => ret (inl (methods ++ [f]))
      | NilStatement => ret (inl methods)
      | _ =>
          let_ t <- cur;
          do_ errorf t (bs "enum body allows only method declarations");
          ret (inl methods)
      end
    else
      do_ errorf t (bs "expected enum method declaration, got " ++ Type_String (tok_Type t));
      do_ synchronize n;
      ret (inl methods)) [].
Definition parseEnumStatement : M Statement :=
  let_ t <- cur;
  let_ name <- parse_name;
  match name with
  | None => ret (Enum_ (mkEnum t None None [] [] []))
  | Some name =>
      let_ backing <- parse_return_type n;
      let_ impl <- peekTokenIs T_Implements;
      let_ implements <- (if impl then (do_ nextToken; parseTypeList n) else ret []);
      let_ ok <- expectPeek T_LBrace;
      if ok then
        let_ variants <- parse_variants;
        let_ methods <- (if snd variants then parse_methods else ret []);
        ret (Enum_ (mkEnum t (Some name) backing (fst variants) implements methods))
      else ret (Enum_ (mkEnum t (Some name) backing [] implements []))
  end.

(** [parseStatement]: what the first token alone decides, or [None] when the
    look-ahead after the switch has to. *)
Definition third_token (p : Parser) : option Type_ := option_map tok_Type (nth_error (toks p) (position p)).
Definition keyword_statement (p : Parser) : option (M Statement) :=
  let next := peekToken p in
  match tok_Type (curToken p) with
  | T_Semicolon => Some (ret NilStatement)
  | T_Module => Some (parseModuleStatement n)
  | T_Import => Some (parseImportStatement n)
  | T_Export => Some parseExportStatement
  | T_Init => Some parseInitStatement
  | T_TypeKw => Some (parseTypeAliasStatement n)
  | T_At => Some parseDecoratedStatement
  | T_Const | T_Let => Some parseDeclarationStatement
  | T_LBrace => if tok_is next T_Ident then Some parseDestructuringAssignmentStatement else None
  | T_Async =>
      if tok_is next T_Func then Some (parseFunctionStatement false)
      else if tok_is next T_Static then
        Some (do_ errorf next (bs "write `static async func`, not `async static func`");
              do_ nextToken;
              parseFunctionStatement true)
      else None
  | T_Static =>
      Some (if tok_is next T_Func || tok_is next T_Async then parseFunctionStatement true
            else parseDeclarationStatement)
  | T_Func =>
      Some (if tok_is next T_Ident &&
               bool_decide (third_token p = Some T_Semicolon \/ third_token p = Some T_Assign)
            then parseDeclarationStatement else parseFunctionStatement false)
  | T_Class => Some parseClassStatement
  | T_Interface => Some parseInterfaceStatement
  | T_If => Some parseIfStatement
  | T_While => Some parseWhileStatement
  | T_With => Some parseWithStatement
  | T_Del => Some (parseDelStatement n)
  | T_For => Some parseForStatement
  | T_Return => Some parseReturnStatement
  | T_Yield => Some parseYieldStatement
  | T_Break | T_Continue => Some parseKeywordOnlyStatement
  | T_Defer | T_Throw => Some parseSimpleValueStatement
  | T_Try => Some parseTryStatement
  | T_Match => Some parseMatchStatement
  | T_Enum => Some parseEnumStatement
  | _ => None
  end.
Definition parse_statement_body : M Statement :=
  let_ p <- get;
  match keyword_statement p with
  | Some m => m
  | None =>
      if tok_is (curToken p) T_Ident && bool_decide (Literal (curToken p) = bs "select")
         && tok_is (peekToken p) T_LBrace
      then parseSelectStatement
      else if looksLikeFromImport p then parseFromImportStatement n
      else if looksLikeTypedDeclaration p then parseDeclarationStatement
      else if looksLikeMultiAssign p then parseMultiAssignStatement
      else parseExpressionStatement true
  end.
End Statements.

(** ** The parser *)

Section Parsers.
Context `{UnicodeLetters}.

(** [parseExpression] and [parseStatement] with [n] as the bound of their
    mutual recursion and of their loops. *)
Fixpoint parseExpression (n precedence : nat) (p : Parser) {struct n} : Outcome Expression :=
  match n with
  | O => NoFuel
  | S n => parse_expression_body n (parseExpression n) (parseStatement n) precedence p
  end
with parseStatement (n : nat) (p : Parser) {struct n} : Outcome Statement :=
  match n with
  | O => NoFuel
  | S n => parse_statement_body n (parseExpression n) (parseStatement n) p
  end.

(** [ParseProgram]. *)
Definition ParseProgram (n : nat) : M Program :=
  loop n (fun prog =>
    let_ eof <- curTokenIs T_EOF;
    if eof then ret (inr prog)
    else
      let_ s <- parseStatement n;
      do_ nextToken;
      ret (inl (match s with NilStatement => prog | _ => mkProgram (Statements prog ++ [s]) end)))
    (mkProgram []).

(** [New(lexer.New(src))], [ParseProgram] and [Errors]. *)
Definition parse_source (n : nat) (src : gostring) : option (Program * list gostring) :=
  match New src with
  | None => None
  | Some p => match ParseProgram n p with Done prog p => Some (prog, errors p) | _ => None end
  end.
End Parsers.
