(* ===== verification/Cursor.v ===== *)
(** * Cursor: what a parsing action reads

    [at_tokens p ts] says that the parser's cursor is at the first of the tokens
    [ts] (the current token, the one it peeks at, and those still to come), and
    [reads m ts post a] that the action [m] goes from [ts] to a place where
    [post] holds, with the result [a] and without an error. *)

From S2P Require Import Prelude GoText Token Lexer Ast Parsing TypeParser ExprParser StmtParser.
#[local] Open Scope parser_scope.

(** A token that the lexer did not reject. *)
Definition lexed (t : Token) : Prop := tok_Type t <> T_Illegal.

Record at_tokens (p : Parser) (ts : list Token) : Prop := {
  at_prefix : exists pre, toks p = pre ++ ts /\ position p = (length pre + 2)%nat;
  at_window : exists rest, ts = curToken p :: peekToken p :: rest;
  at_lexed : Forall lexed ts }.

Definition reads {A : Type} (m : M A) (ts : list Token) (post : list Token -> Prop) (a : A) : Prop :=
  forall p, at_tokens p ts ->
    exists p' us, m p = Done a p' /\ at_tokens p' us /\ post us /\ errors p' = errors p.

(** The cursor is on some token before the tokens [rest]. *)
Definition before (rest us : list Token) : Prop := exists z, us = z :: rest.

Lemma reads_return {A : Type} (a : A) (ts : list Token) (post : list Token -> Prop) :
  post ts -> reads (ret a) ts post a.
Proof. intros H p Hp. by exists p, ts. Qed.

Lemma reads_seq {A B : Type} (m : M A) (k : A -> M B) (ts : list Token) (mid post : list Token -> Prop)
    (a : A) (b : B) :
  reads m ts mid a -> (forall us, mid us -> reads (k a) us post b) -> reads (bind m k) ts post b.
Proof.
  intros Hm Hk p Hp. destruct (Hm p Hp) as (p1&us&E1&Hp1&Hus&Ee1).
  destruct (Hk us Hus p1 Hp1) as (p2&vs&E2&Hp2&Hvs&Ee2). exists p2, vs. unfold bind. rewrite E1.
  split_and!; [done..|congruence].
Qed.

(** The same after an action that ends before [rest]. *)
Lemma reads_then {A B : Type} (m : M A) (k : A -> M B) (ts rest : list Token) (post : list Token -> Prop)
    (a : A) (b : B) :
  reads m ts (before rest) a -> (forall z, reads (k a) (z :: rest) post b) -> reads (bind m k) ts post b.
Proof. intros Hm Hk. eapply reads_seq; [exact Hm|]. by intros us [z ->]. Qed.

(** An action that only looks at the state. *)
Lemma reads_pure {A B : Type} (f : Parser -> A) (k : A -> M B) (ts : list Token) (post : list Token -> Prop) (a : A) (b : B) :
  (forall p, at_tokens p ts -> f p = a) -> reads (k a) ts post b ->
  reads (bind (fun p => Done (f p) p) k) ts post b.
Proof. intros Hf Hk p Hp. unfold bind. rewrite (Hf p Hp). by apply Hk. Qed.

Lemma cur_at (p : Parser) (t : Token) (ts : list Token) : at_tokens p (t :: ts) -> curToken p = t.
Proof. intros [_ [rest E] _]. congruence. Qed.
Lemma peek_at (p : Parser) (t u : Token) (ts : list Token) : at_tokens p (t :: u :: ts) -> peekToken p = u.
Proof. intros [_ [rest E] _]. congruence. Qed.

(** [get] gives a state to what follows. *)
Lemma reads_get {B : Type} (k : Parser -> M B) (ts : list Token) (post : list Token -> Prop) (b : B) :
  (forall q, at_tokens q ts -> reads (k q) ts post b) -> reads (bind get k) ts post b.
Proof. intros H p Hp. unfold bind, get. by apply (H p Hp). Qed.

Lemma reads_cur {B : Type} (k : Token -> M B) (t : Token) (ts : list Token) (post : list Token -> Prop) (b : B) :
  reads (k t) (t :: ts) post b -> reads (bind cur k) (t :: ts) post b.
Proof. apply (reads_pure curToken). intros p. apply cur_at. Qed.
Lemma reads_peek {B : Type} (k : Token -> M B) (t u : Token) (ts : list Token) (post : list Token -> Prop) (b : B) :
  reads (k u) (t :: u :: ts) post b -> reads (bind peek k) (t :: u :: ts) post b.
Proof. apply (reads_pure peekToken). intros p. apply peek_at. Qed.
Lemma reads_curIs {B : Type} (k : bool -> M B) (ty : Type_) (t : Token) (ts : list Token) (post : list Token -> Prop) (b : B) :
  reads (k (tok_is t ty)) (t :: ts) post b -> reads (bind (curTokenIs ty) k) (t :: ts) post b.
Proof. apply (reads_pure (fun p => tok_is (curToken p) ty)). intros p Hp. by rewrite (cur_at p t ts). Qed.
Lemma reads_peekIs {B : Type} (k : bool -> M B) (ty : Type_) (t u : Token) (ts : list Token) (post : list Token -> Prop) (b : B) :
  reads (k (tok_is u ty)) (t :: u :: ts) post b -> reads (bind (peekTokenIs ty) k) (t :: u :: ts) post b.
Proof.
  apply (reads_pure (fun p => tok_is (peekToken p) ty)). intros p Hp. by rewrite (peek_at p t u ts).
Qed.

(** ** Moving the cursor *)

Lemma advance_at (p : Parser) (t u v : Token) (ts : list Token) :
  at_tokens p (t :: u :: v :: ts) ->
  advance p = mkParser (toks p) (S (position p)) (errors p) u v.
Proof.
  intros Hp. pose proof (peek_at _ _ _ _ Hp) as Hpeek. destruct Hp as [(pre&Et&Epos) _ _].
  unfold advance. rewrite Et, Epos, nth_error_app2 by lia.
  replace (length pre + 2 - length pre)%nat with 2%nat by lia. cbn. by rewrite Hpeek.
Qed.

Lemma next_at (p : Parser) (t u v : Token) (ts : list Token) :
  at_tokens p (t :: u :: v :: ts) ->
  exists p', nextToken p = Done tt p' /\ at_tokens p' (u :: v :: ts) /\ errors p' = errors p.
Proof.
  intros Hp. unfold nextToken. rewrite (advance_at _ _ _ _ _ Hp). cbn [peekToken].
  destruct Hp as [(pre&Et&Epos) _ Hl].
  inversion Hl as [|?? _ Hl1]; subst. inversion Hl1 as [|?? _ Hl2]; subst.
  inversion Hl2 as [|?? Hv _]; subst.
  rewrite decide_False by exact Hv. eexists. split; [reflexivity|]. split; [|reflexivity]. split; cbn.
  - exists (pre ++ [t]). rewrite Et, <- app_assoc, length_app. split; [reflexivity|]. cbn. lia.
  - eauto.
  - exact Hl1.
Qed.

Lemma reads_next {B : Type} (k : unit -> M B) (t u v : Token) (ts : list Token)
    (post : list Token -> Prop) (b : B) :
  reads (k tt) (u :: v :: ts) post b -> reads (bind nextToken k) (t :: u :: v :: ts) post b.
Proof.
  intros Hk p Hp. destruct (next_at _ _ _ _ _ Hp) as (p'&E&Hp'&He). unfold bind. rewrite E.
  destruct (Hk p' Hp') as (p2&us&?&?&?&?). exists p2, us. split_and!; [done..|congruence].
Qed.

Lemma tok_is_true (t : Token) (ty : Type_) : tok_Type t = ty -> tok_is t ty = true.
Proof. intros E. by apply bool_decide_eq_true. Qed.
Lemma tok_is_false (t : Token) (ty : Type_) : tok_Type t <> ty -> tok_is t ty = false.
Proof. intros E. by apply bool_decide_eq_false. Qed.

Lemma reads_expect_last (ty : Type_) (t u v : Token) (ts : list Token) :
  tok_Type u = ty -> reads (expectPeek ty) (t :: u :: v :: ts) (eq (u :: v :: ts)) true.
Proof.
  intros E. unfold expectPeek. apply reads_peek. rewrite tok_is_true by done. by apply reads_next, reads_return.
Qed.
Lemma reads_expect {B : Type} (k : bool -> M B) (ty : Type_) (t u v : Token) (ts : list Token)
    (post : list Token -> Prop) (b : B) :
  tok_Type u = ty -> reads (k true) (u :: v :: ts) post b ->
  reads (bind (expectPeek ty) k) (t :: u :: v :: ts) post b.
Proof. intros E Hk. eapply reads_seq; [by apply reads_expect_last|]. by intros us <-. Qed.

Lemma reads_expect_name {B : Type} (k : bool -> M B) (t u v : Token) (ts : list Token)
    (post : list Token -> Prop) (b : B) :
  isIdentifierNameToken (tok_Type u) = true -> reads (k true) (u :: v :: ts) post b ->
  reads (bind expectPeekIdentifierName k) (t :: u :: v :: ts) post b.
Proof.
  intros E Hk. eapply (reads_seq _ _ _ (eq (u :: v :: ts))); [|by intros us <-].
  unfold expectPeekIdentifierName. apply reads_peek. rewrite E. by apply reads_next, reads_return.
Qed.

(** ** Loops *)

Lemma loop_go {S A : Type} (n : nat) (body : S -> M (S + A)) (s s' : S) (ts : list Token)
    (mid post : list Token -> Prop) (a : A) :
  reads (body s) ts mid (inl s') -> (forall us, mid us -> reads (loop n body s') us post a) ->
  reads (loop (Datatypes.S n) body s) ts post a.
Proof. intros H1 H2. cbn [loop]. eapply reads_seq; [exact H1|]. exact H2. Qed.
Lemma loop_stop {S A : Type} (n : nat) (body : S -> M (S + A)) (s : S) (ts : list Token)
    (post : list Token -> Prop) (a : A) :
  reads (body s) ts post (inr a) -> reads (loop (Datatypes.S n) body s) ts post a.
Proof. intros H1. cbn [loop]. eapply reads_seq; [exact H1|]. intros us Hus. by apply reads_return. Qed.

(** The tokens after index [position - 1], and from the current one. *)
Lemma types_from_peek (p : Parser) (t : Token) (ts : list Token) :
  at_tokens p (t :: ts) -> types_from (position p - 1) p = map tok_Type ts.
Proof.
  intros [(pre&Et&Epos) _ _]. unfold types_from. rewrite Et, Epos.
  replace (length pre + 2 - 1)%nat with (length pre + 1)%nat by lia.
  by rewrite <- drop_drop, drop_app_length.
Qed.
Lemma types_from_cur (p : Parser) (ts : list Token) :
  at_tokens p ts -> types_from (position p - 2) p = map tok_Type ts.
Proof.
  intros [(pre&Et&Epos) _ _]. unfold types_from. rewrite Et, Epos.
  replace (length pre + 2 - 2)%nat with (length pre) by lia. by rewrite drop_app_length.
Qed.

(** The parser made for a source is at its first token. *)
Lemma begins_at (t u : Token) (ts : list Token) :
  Forall lexed (t :: u :: ts) ->
  at_tokens (New_tokens (t :: u :: ts)) (t :: u :: ts) /\ errors (New_tokens (t :: u :: ts)) = [].
Proof.
  intros Hl. inversion Hl as [|?? Ht Hl1]; subst. inversion Hl1 as [|?? Hu _]; subst.
  unfold New_tokens, bind, nextToken, advance. cbn.
  rewrite (decide_False (P := tok_Type t = T_Illegal)) by exact Ht. cbn.
  rewrite (decide_False (P := tok_Type u = T_Illegal)) by exact Hu. split; [|reflexivity].
  split; cbn; [by exists []|eauto|done].
Qed.

(** ** Automation

    [step] does one action of a body whose tokens are known, [decide_token]
    settles a test of a token by what is known of its type. *)
Ltac decide_token :=
  repeat match goal with
  | |- context [tok_is ?t ?ty] =>
      first [rewrite (tok_is_true t ty) by congruence | rewrite (tok_is_false t ty) by congruence]
  end; cbn [negb andb orb fst snd].
Ltac step :=
  first
  [ apply reads_cur | apply reads_peek | apply reads_curIs | apply reads_peekIs | apply reads_next
  | apply reads_expect; [done|] | apply reads_expect_name; [done|] ].
