(* ===== verification/TypeGrammar.v ===== *)
(** * TypeGrammar: the grammar of types, and that the parser recognises it

    Unions and intersections group to the right, a [?] belongs to the first
    name only, and two closing angle brackets may be scanned as one [>>]. *)

From S2P Require Import Prelude GoText Token Lexer Ast Parsing TypeParser ExprParser StmtParser Cursor.
#[local] Open Scope Z_scope.
#[local] Open Scope parser_scope.

(** ** The grammar *)

Inductive dotted : gostring -> list Token -> gostring -> Prop :=
| dotted_end name : dotted name [] name
| dotted_part name d t ts name' :
    tok_Type d = T_Dot -> isIdentifierNameToken (tok_Type t) = true ->
    dotted (name ++ bs "." ++ Literal t) ts name' -> dotted name (d :: t :: ts) name'.

Inductive question : list Token -> bool -> Prop :=
| no_question : question [] false
| a_question q : tok_Type q = T_Question -> question [q] true.

Inductive brackets : list Token -> bool -> Prop :=
| no_brackets : brackets [] false
| a_brackets l r : tok_Type l = T_LBracket -> tok_Type r = T_RBracket -> brackets [l; r] true.

Inductive type_written : list Token -> TypeRef -> Prop :=
| written_atom ts t : atom_written ts t -> type_written ts t
| written_operator ts t op us u :
    atom_written ts t -> tok_Type op = T_BitOr \/ tok_Type op = T_BitAnd -> type_written us u ->
    type_written (ts ++ op :: us) (operator_type t (Literal op) u)
with atom_written : list Token -> TypeRef -> Prop :=
| written_name q nullable t path name args_ts args list_ts list_ :
    question q nullable ->
    isTypeStartToken (tok_Type t) || (isIdentifierNameToken (tok_Type t) && negb (bool_decide (path = []))) = true ->
    dotted (Literal t) path name ->
    args_written name args_ts args ->
    brackets list_ts list_ ->
    atom_written (q ++ t :: path ++ args_ts ++ list_ts) (mkTypeRef t name nullable args list_ None [] None)
with args_written : gostring -> list Token -> list TypeRef -> Prop :=
| written_no_args name : args_written name [] []
| written_args name lt ts args gt :
    isNonGenericTypeName name = false -> tok_Type lt = T_LT -> list_written ts args ->
    tok_Type gt = T_GT -> args_written name (lt :: ts ++ [gt]) args
with list_written : list Token -> list TypeRef -> Prop :=
| written_last ts t : type_written ts t -> list_written ts [t]
| written_more ts t c us args :
    type_written ts t -> tok_Type c = T_Comma -> list_written us args ->
    list_written (ts ++ c :: us) (t :: args).

Scheme type_written_min := Minimality for type_written Sort Prop
  with atom_written_min := Minimality for atom_written Sort Prop
  with args_written_min := Minimality for args_written Sort Prop
  with list_written_min := Minimality for list_written Sort Prop.
Combined Scheme written_mutual from type_written_min, atom_written_min, args_written_min, list_written_min.

(** The tokens that may not come right after a type. *)
Definition continues_type (k : Type_) : bool :=
  match k with T_Dot | T_LT | T_LBracket | T_BitOr | T_BitAnd => true | _ => false end.

(** [unglued ts us]: [us] is [ts] with some [>>] tokens replaced by the two [>]
    that the parser makes of them. *)
Inductive unglued : list Token -> list Token -> Prop :=
| unglued_nil : unglued [] []
| unglued_same t ts us : unglued ts us -> unglued (t :: ts) (t :: us)
| unglued_split t ts us :
    tok_Type t = T_RShift -> unglued ts us ->
    unglued (t :: ts) (gt_token (Line t) (Column t) :: gt_token (Line t) (Column t + 1) :: us).

(** The last token of a text. *)
Definition lst (ts : list Token) : Token := List.last ts zero_token.

Lemma lst_app (ts : list Token) (u : Token) (us : list Token) : lst (ts ++ u :: us) = lst (u :: us).
Proof.
  unfold lst. induction ts as [|t ts IH]; [done|].
  cbn [app]. rewrite <- IH. by destruct (ts ++ u :: us) as [|? l] eqn:E; [destruct ts|].
Qed.
Lemma lst_cons (t u : Token) (us : list Token) : lst (t :: u :: us) = lst (u :: us).
Proof. done. Qed.
Lemma lst_single (t : Token) : lst [t] = t.
Proof. done. Qed.

(** Splitting the [>>] that is peeked at. *)
Lemma at_split (p : Parser) (t w : Token) (ts : list Token) :
  at_tokens p (t :: w :: ts) -> tok_Type w = T_RShift ->
  exists q, split_rshift p = Some q
    /\ at_tokens q (t :: gt_token (Line w) (Column w) :: gt_token (Line w) (Column w + 1) :: ts)
    /\ errors q = errors p.
Proof.
  intros H Hw. pose proof (cur_at _ _ _ H) as Hcur. pose proof (peek_at _ _ _ _ H) as Hpeek.
  destruct H as [(pre&Et&Epos) _ Hl].
  unfold split_rshift. rewrite Hpeek, Hcur. replace (position p) with (S (length pre + 1)) by lia.
  rewrite Et, (proj2 (Nat.ltb_lt _ _)) by (rewrite length_app; cbn; lia).
  eexists. split; [reflexivity|]. split; [|reflexivity].
  inversion Hl as [|? ? Hlt Hl1]; subst. inversion Hl1 as [|? ? _ Hl2]; subst.
  split; cbn; [|eauto|by repeat constructor].
  exists pre. split; [|lia]. rewrite take_app_add, (drop_app_ge pre _ (S _)) by lia.
  replace (S (length pre + 1) - length pre)%nat with 2%nat by lia. cbn. by rewrite <- app_assoc.
Qed.

Section Reading.
(** What follows the type: the tokens that are not part of it. *)
Variable r : Token.
Variable rest : list Token.

(** The cursor is at [ts], the text with its [>>] split, before [r :: rest]. *)
Definition sees (p : Parser) (ts : list Token) : Prop :=
  exists t us0 us, ts = t :: us /\ unglued us0 us /\ at_tokens p (t :: us0 ++ r :: rest).

Definition treads {A : Type} (m : M A) (ts us : list Token) (a : A) : Prop :=
  forall p, sees p ts -> exists p', m p = Done a p' /\ sees p' us /\ errors p' = errors p.

Lemma treads_ret {A : Type} (a : A) (ts : list Token) : treads (ret a) ts ts a.
Proof. intros p Hp. by exists p. Qed.
Lemma treads_bind {A B : Type} (m : M A) (k : A -> M B) (ts us vs : list Token) (a : A) (b : B) :
  treads m ts us a -> treads (k a) us vs b -> treads (bind m k) ts vs b.
Proof.
  intros Hm Hk p Hp. destruct (Hm p Hp) as (p1&E1&Hp1&Ee1).
  destruct (Hk p1 Hp1) as (p2&E2&Hp2&Ee2). exists p2. unfold bind. rewrite E1.
  split_and!; [done..|congruence].
Qed.
Lemma treads_pure {A B : Type} (f : Parser -> A) (k : A -> M B) (ts us : list Token) (a : A) (b : B) :
  (forall p, sees p ts -> f p = a) -> treads (k a) ts us b ->
  treads (bind (fun p => Done (f p) p) k) ts us b.
Proof. intros Hf Hk p Hp. unfold bind. rewrite (Hf p Hp). by apply Hk. Qed.

(** The type of the token ahead. *)
Definition ahead (vs : list Token) : Type_ := match vs with v :: _ => tok_Type v | [] => tok_Type r end.

Lemma sees_cur (p : Parser) (t : Token) (ts : list Token) : sees p (t :: ts) -> curToken p = t.
Proof. intros (t'&us0&us&[= <- <-]&_&H). by apply cur_at in H. Qed.

(** The peeked token is the next one, or a [>>] in place of its [>]. *)
Lemma sees_peek (p : Parser) (t : Token) (vs : list Token) :
  sees p (t :: vs) ->
  tok_Type (peekToken p) = ahead vs \/ tok_Type (peekToken p) = T_RShift /\ ahead vs = T_GT.
Proof.
  intros (t'&us0&us&[= <- <-]&Hu&H). destruct Hu as [|v ts us Hu|v ts us Hv Hu].
  - left. by apply peek_at in H as ->.
  - left. by apply peek_at in H as ->.
  - right. by apply peek_at in H as ->.
Qed.

Lemma treads_peekIs {B : Type} (k : bool -> M B) (ty : Type_) (t : Token) (vs us : list Token) (b : B) :
  ty <> T_GT -> ty <> T_RShift ->
  treads (k (bool_decide (ahead vs = ty))) (t :: vs) us b ->
  treads (bind (peekTokenIs ty) k) (t :: vs) us b.
Proof.
  intros H1 H2. apply (treads_pure (fun p => tok_is (peekToken p) ty)).
  intros p Hp. unfold tok_is. apply bool_decide_ext.
  destruct (sees_peek p t vs Hp) as [-> | [-> ->]]; [done|]. split; congruence.
Qed.

Lemma treads_cur {B : Type} (k : Token -> M B) (t : Token) (vs us : list Token) (b : B) :
  treads (k t) (t :: vs) us b -> treads (bind cur k) (t :: vs) us b.
Proof. apply (treads_pure curToken). intros p. apply sees_cur. Qed.
Lemma treads_curIs {B : Type} (k : bool -> M B) (ty : Type_) (t : Token) (vs us : list Token) (b : B) :
  treads (k (tok_is t ty)) (t :: vs) us b -> treads (bind (curTokenIs ty) k) (t :: vs) us b.
Proof.
  apply (treads_pure (fun p => tok_is (curToken p) ty)). intros p Hp. by rewrite (sees_cur p t vs).
Qed.

Lemma next_at_rest (p : Parser) (t u : Token) (ts : list Token) :
  at_tokens p (t :: (u :: ts) ++ r :: rest) ->
  exists p', nextToken p = Done tt p' /\ at_tokens p' (u :: ts ++ r :: rest) /\ errors p' = errors p.
Proof. destruct ts as [|w ts]; apply next_at. Qed.

(** The look at the next token, whatever it is. *)
Lemma treads_peek {B : Type} (k : Token -> M B) (t : Token) (vs us : list Token) (b : B) :
  (forall u, tok_Type u = ahead vs \/ tok_Type u = T_RShift /\ ahead vs = T_GT -> treads (k u) (t :: vs) us b) ->
  treads (bind peek k) (t :: vs) us b.
Proof.
  intros H p Hp. unfold bind, peek.
  exact (H _ (sees_peek p t vs Hp) p Hp).
Qed.

Lemma treads_next {B : Type} (k : unit -> M B) (t v : Token) (vs us : list Token) (b : B) :
  tok_Type v <> T_GT -> treads (k tt) (v :: vs) us b -> treads (bind nextToken k) (t :: v :: vs) us b.
Proof.
  intros Hv. apply treads_bind. intros p (t'&us0&us'&[= <- <-]&Hu&H).
  inversion Hu as [|? ts ? Hu'|w ts ? Hw Hu']; subst; [|by destruct Hv].
  destruct (next_at_rest p t v ts H) as (p'&E&Hp'&He).
  exists p'. split; [done|]. split; [|done]. by exists v, ts, vs.
Qed.

Lemma treads_expect {B : Type} (k : bool -> M B) (ty : Type_) (t v : Token) (vs us : list Token) (b : B) :
  tok_Type v = ty -> ty <> T_GT -> treads (k true) (v :: vs) us b ->
  treads (bind (expectPeek ty) k) (t :: v :: vs) us b.
Proof.
  intros E Hv. apply treads_bind. unfold expectPeek. apply treads_peek.
  intros u [Hu|[_ Hu]]; [|cbn in Hu; congruence]. rewrite tok_is_true by (cbn in Hu; congruence).
  apply treads_next; [congruence|apply treads_ret].
Qed.
Lemma treads_expect_name {B : Type} (k : bool -> M B) (t v : Token) (vs us : list Token) (b : B) :
  isIdentifierNameToken (tok_Type v) = true -> treads (k true) (v :: vs) us b ->
  treads (bind expectPeekIdentifierName k) (t :: v :: vs) us b.
Proof.
  intros E. apply treads_bind. unfold expectPeekIdentifierName. apply treads_peek.
  intros u [Hu|[_ Hu]]; cbn in Hu; [|rewrite Hu in E; discriminate]. rewrite Hu, E.
  apply treads_next; [intros Hv; by rewrite Hv in E|apply treads_ret].
Qed.

(** The closing bracket of a list of arguments, alone or as half of a [>>]. *)
Lemma treads_gt {B : Type} (k : bool -> M B) (t g : Token) (vs us : list Token) (b : B) :
  tok_Type g = T_GT -> treads (k true) (g :: vs) us b ->
  treads (bind expectPeekGTInGeneric k) (t :: g :: vs) us b.
Proof.
  intros Hg. apply treads_bind. intros p (t'&us0&us'&[= <- <-]&Hu&H).
  unfold expectPeekGTInGeneric. unfold bind at 1, peek.
  inversion Hu as [|? ts ? Hu'|w ts us1 Hw Hu']; subst.
  - rewrite (peek_at _ _ _ _ H), (tok_is_true g) by done.
    destruct (next_at_rest p t g ts H) as (p'&E&Hp'&He).
    exists p'. unfold bind. rewrite E. split_and!; [done| |done]. by exists g, ts, vs.
  - rewrite (peek_at _ _ _ _ H), (tok_is_false w), (tok_is_true w) by congruence.
    destruct (at_split p t w _ H Hw) as (q&Eq&Hq&Heq).
    destruct (next_at q t _ _ _ Hq) as (p'&E&Hp'&He). exists p'. unfold bind.
    rewrite Eq, E. split_and!; [done| |congruence].
    eexists _, (_ :: ts), (_ :: us1). split_and!; [done|by constructor|done].
Qed.

(** ** The parser on the texts of the grammar *)

Lemma treads_loop_go {S A : Type} (n : nat) (body : S -> M (S + A)) (s s' : S) (ts us vs : list Token) (a : A) :
  treads (body s) ts us (inl s') -> treads (loop n body s') us vs a ->
  treads (loop (Datatypes.S n) body s) ts vs a.
Proof. intros H1 H2. cbn [loop]. eapply treads_bind; [exact H1|exact H2]. Qed.
Lemma treads_loop_stop {S A : Type} (n : nat) (body : S -> M (S + A)) (s : S) (ts us : list Token) (a : A) :
  treads (body s) ts us (inr a) -> treads (loop (Datatypes.S n) body s) ts us a.
Proof. intros H1. cbn [loop]. eapply treads_bind; [exact H1|apply treads_ret]. Qed.

Ltac peek_false := apply treads_peekIs; [done..|]; rewrite bool_decide_eq_false_2.
Ltac peek_true := apply treads_peekIs; [done..|]; rewrite bool_decide_eq_true_2.

Lemma treads_dotted (first : gostring) (ts : list Token) (name : gostring) :
  dotted first ts name -> forall m t vs, (length ts < m)%nat -> ahead vs <> T_Dot ->
  treads (dotted_name m first) (t :: ts ++ vs) (lst (t :: ts) :: vs) (name, true).
Proof.
  induction 1 as [first|first d u ts name Hd Hu Hdot IH]; intros m t vs Hm Hvs.
  - destruct m as [|m]; [cbn in Hm; lia|]. apply treads_loop_stop. apply treads_peek.
    cbn [app]. intros v Hv. rewrite tok_is_false by (destruct Hv as [Hv|[Hv _]]; congruence). apply treads_ret.
  - destruct m as [|m]; [cbn in Hm; lia|]. rewrite lst_cons, lst_cons.
    apply (treads_loop_go _ _ first (first ++ bs "." ++ Literal u) _ (u :: ts ++ vs)).
    + apply treads_peek. intros v [Hv|[_ Hv]]; cbn in Hv; [|congruence].
      rewrite tok_is_true by congruence. apply treads_next; [congruence|].
      apply treads_expect_name; [done|]. apply treads_cur, treads_ret.
    + apply IH; [cbn in Hm; lia|done].
Qed.

Definition rec_type (n : nat) : M TypeRef := parseTypeRefFromCurrent n.

Definition type_ok (ts : list Token) (t : TypeRef) : Prop :=
  forall n vs, (length ts < n)%nat -> continues_type (ahead vs) = false ->
  treads (rec_type n) (ts ++ vs) (lst ts :: vs) t.
Definition atom_ok (ts : list Token) (t : TypeRef) : Prop :=
  forall n vs us b, (length ts <= n)%nat -> ahead vs <> T_Dot -> ahead vs <> T_LT -> ahead vs <> T_LBracket ->
  treads (type_operators n (rec_type n) t) (lst ts :: vs) us b ->
  treads (parseTypeRef_body n (rec_type n)) (ts ++ vs) us b.
Definition args_ok (name : gostring) (ts : list Token) (args : list TypeRef) : Prop :=
  forall n vs x us (k : list TypeRef -> M TypeRef) b, (length ts <= n)%nat -> ahead vs <> T_LT ->
  treads (k args) (lst (x :: ts) :: vs) us b ->
  treads (let_ lt <- peekTokenIs T_LT;
          let_ args <- (if lt && negb (isNonGenericTypeName name)
                      then (do_ nextToken; type_arguments_body n (rec_type n)) else ret []);
          k args) (x :: ts ++ vs) us b.
Definition list_ok (ts : list Token) (args : list TypeRef) : Prop :=
  forall n m vs x acc g, (length ts < n)%nat -> (length ts <= m)%nat -> tok_Type g = T_GT ->
  treads (loop m (fun args =>
            do_ nextToken;
            let_ t <- rec_type n;
            let_ more <- peekTokenIs T_Comma;
            if more then (do_ nextToken; ret (inl (args ++ [t]))) else ret (inr (args ++ [t]))) acc)
    (x :: ts ++ g :: vs) (lst ts :: g :: vs) (acc ++ args).

Lemma lst_snoc (ts : list Token) (t : Token) : lst (ts ++ [t]) = t.
Proof. by rewrite lst_app. Qed.

Lemma type_start (ts : list Token) (t : TypeRef) :
  type_written ts t -> exists u us, ts = u :: us /\ tok_Type u <> T_GT.
Proof.
  intros H. assert (Hatom : forall ts t, atom_written ts t -> exists u us, ts = u :: us /\ tok_Type u <> T_GT).
  { intros ts' t' Ha. inversion Ha as [q ? t0 ? ? ? ? ? ? Hq Hs]; subst. inversion Hq; subst.
    - eexists _, _. split; [reflexivity|]. intros E. by rewrite E in Hs.
    - eexists _, _. split; [reflexivity|]. congruence. }
  inversion H as [? ? Ha|? ? ? ? ? Ha]; subst; [eauto|].
  destruct (Hatom _ _ Ha) as (w&us'&->&Hw). eexists _, _. split; [reflexivity|done].
Qed.

Lemma lst_type (x : Token) (ts : list Token) (t : TypeRef) : type_written ts t -> lst (x :: ts) = lst ts.
Proof. intros H. by destruct (type_start _ _ H) as (u&us&->&_). Qed.

Lemma list_start (ts : list Token) (args : list TypeRef) :
  list_written ts args -> exists u us, ts = u :: us /\ tok_Type u <> T_GT.
Proof.
  intros H. inversion H as [? ? Ht|? ? ? ? ? Ht]; subst; destruct (type_start _ _ Ht) as (u&us'&->&Hu);
    eexists _, _; (split; [reflexivity|done]).
Qed.

Lemma lst_chain (x : Token) (a b : list Token) : lst (lst (x :: a) :: b) = lst (x :: a ++ b).
Proof.
  destruct b as [|y b]; [by rewrite app_nil_r|]. rewrite lst_cons.
  change (x :: a ++ y :: b) with ((x :: a) ++ y :: b). by rewrite lst_app.
Qed.

Lemma ahead_brackets (l : list Token) (b : bool) (vs : list Token) :
  brackets l b -> ahead (l ++ vs) = T_LBracket \/ ahead (l ++ vs) = ahead vs.
Proof. destruct 1 as [|l r' Hl]; [by right|]. by left. Qed.
Lemma ahead_args (name : gostring) (a : list Token) (args : list TypeRef) (vs : list Token) :
  args_written name a args -> ahead (a ++ vs) = T_LT \/ ahead (a ++ vs) = ahead vs.
Proof. destruct 1; [by right|]. by left. Qed.

Lemma treads_brackets {B : Type} (k : bool -> M B) (l : list Token) (b : bool) (x : Token) (vs us : list Token) (c : B) :
  brackets l b -> ahead vs <> T_LBracket ->
  treads (k b) (lst (x :: l) :: vs) us c ->
  treads (let_ bracket <- peekTokenIs T_LBracket;
          let_ list_ <- (if bracket then (do_ nextToken; expectPeek T_RBracket) else ret false);
          k list_) (x :: l ++ vs) us c.
Proof.
  intros Hb Hvs Hk. destruct Hb as [|l r' Hl Hr].
  - cbn [app]. peek_false; [|done]. eapply treads_bind; [apply treads_ret|exact Hk].
  - cbn [app]. peek_true; [|done]. eapply treads_bind; [|exact Hk].
    apply treads_next; [congruence|].
    assert (He : treads (let_ x <- expectPeek T_RBracket; ret x) (l :: r' :: vs) (r' :: vs) true)
      by (apply treads_expect; [done..|]; apply treads_ret).
    intros p Hp. destruct (He p Hp) as (p'&E&H'). exists p'. split; [|done].
    unfold bind, ret in E. by destruct (expectPeek T_RBracket p).
Qed.

Lemma parser_reads_types :
  (forall ts t, type_written ts t -> type_ok ts t) /\
  (forall ts t, atom_written ts t -> atom_ok ts t) /\
  (forall name ts args, args_written name ts args -> args_ok name ts args) /\
  (forall ts args, list_written ts args -> list_ok ts args).
Proof.
  apply written_mutual.
  - (* a name alone *)
    intros ts t Hw Hatom n vs Hn Hvs. destruct n as [|n]; [lia|]. cbn [rec_type parseTypeRefFromCurrent].
    assert (1 <= length ts)%nat
      by (destruct (type_start ts t) as (w&ws&->&_); [by apply written_atom|cbn; lia]).
    apply Hatom; [lia|intros E; by rewrite E in Hvs..|].
    destruct n as [|n]; [lia|]. apply treads_loop_stop. apply treads_peek. intros v Hv.
    rewrite !tok_is_false by (intros E; destruct Hv as [Hv|[Hv _]]; [|congruence]; rewrite <- Hv, E in Hvs; done).
    apply treads_ret.
  - (* an operator *)
    intros ts t op us ty Ha Hatom Hop Hu Hrec n vs Hn Hvs. rewrite lst_app, lst_type with (t := ty) by done.
    destruct n as [|n]; [lia|]. cbn [rec_type parseTypeRefFromCurrent].
    destruct (type_start us ty Hu) as (w&ws&->&Hw). rewrite length_app in Hn. cbn [length] in Hn.
    assert (1 <= length ts)%nat
      by (destruct (type_start ts t) as (w'&ws'&->&_); [by apply written_atom|cbn; lia]).
    rewrite <- app_assoc. apply Hatom; [lia|cbn; destruct Hop; congruence..|].
    destruct n as [|[|n]]; [lia..|]. eapply treads_loop_go.
    + cbn [app]. apply treads_peek. intros v [Hv|[_ Hv]]; cbn in Hv; [|destruct Hop; congruence].
      replace (tok_is v T_BitOr || tok_is v T_BitAnd) with true
        by (unfold tok_is; rewrite Hv; by destruct Hop as [-> | ->]).
      apply treads_next; [destruct Hop; congruence|]. apply treads_cur. apply treads_next; [done|].
      eapply treads_bind; [|apply treads_ret]. apply Hrec; [cbn; lia|done].
    + apply treads_loop_stop. apply treads_peek. intros v Hv.
      rewrite !tok_is_false by (intros E; destruct Hv as [Hv|[Hv _]]; [|congruence]; rewrite <- Hv, E in Hvs; done).
      apply treads_ret.
  - (* a name with its parts *)
    intros q nullable t path name args_ts args list_ts list_ Hq Hs Hdot Hw Hargs Hbr n vs us b Hn Hd Hlt Hb Hk.
    assert (Hquestion : forall ts b', treads (let_ t' <- cur; let_ next <- peek;
               if negb (isTypeStartToken (tok_Type t')) && negb (isIdentifierNameToken (tok_Type t') && tok_is next T_Dot)
               then do_ errorf t' (bs "expected type, got " ++ Type_String (tok_Type t'));
                    ret (named_type t' (Literal t') nullable)
               else let_ name <- dotted_name n (Literal t');
                    if snd name then (let_ left <- type_suffixes n (rec_type n) t' (fst name) nullable;
                                      type_operators n (rec_type n) left)
                    else ret (named_type t' (fst name) nullable))
             (t :: ts) us b' -> treads (parseTypeRef_body n (rec_type n)) (q ++ t :: ts) us b').
    { intros ts b' H. unfold parseTypeRef_body. inversion Hq as [|q' Hq']; subst.
      - cbn [app]. apply treads_curIs. rewrite tok_is_false; [exact H|].
        intros E. by rewrite E in Hs.
      - cbn [app]. apply treads_curIs. rewrite tok_is_true by done. apply treads_next; [|exact H].
        intros E. by rewrite E in Hs. }
    rewrite <- app_assoc. cbn [app]. apply Hquestion. clear Hquestion.
    rewrite !length_app in Hn. cbn [length] in Hn. rewrite !length_app in Hn.
    apply treads_cur, treads_peek. intros v Hv.
    match goal with |- treads (if ?c then _ else _) _ _ _ => replace c with false end.
    2:{ destruct (isTypeStartToken (tok_Type t)) eqn:Ets; [done|]. cbn in Hs |- *.
        apply andb_true_iff in Hs as [-> Hp]. inversion Hdot as [|? d ? ? ? Hd' ? ? E]; subst; [done|].
        cbn in Hv. rewrite tok_is_true; [done|]. destruct Hv as [->|[_ Hv]]; congruence. }
    rewrite <- !app_assoc.
    eapply treads_bind.
    { apply treads_dotted; [exact Hdot|lia|].
      destruct (ahead_args _ _ _ (list_ts ++ vs) Hw) as [-> | ->]; [done|].
      by destruct (ahead_brackets _ _ vs Hbr) as [-> | ->]. }
    cbn [fst snd]. eapply treads_bind; [|exact Hk]. unfold type_suffixes.
    apply Hargs; [lia|by destruct (ahead_brackets _ _ vs Hbr) as [-> | ->]|].
    rewrite lst_chain. apply (treads_brackets _ _ list_); [done..|].
    replace (lst (q ++ t :: path ++ args_ts ++ list_ts)) with (lst (lst (t :: path ++ args_ts) :: list_ts)).
    + apply treads_ret.
    + rewrite lst_chain, lst_app. by rewrite <- app_assoc.
  - (* no arguments *)
    intros name n vs x us k b _ Hlt Hk. cbn [app]. peek_false; [|done].
    eapply treads_bind; [apply treads_ret|exact Hk].
  - (* arguments *)
    intros name lt ts args gt Hng Hlt Hl Hlist Hgt n vs x us k b Hn _ Hk. cbn [app].
    destruct (list_start ts args Hl) as (w&ws&->&Hw).
    peek_true; [|done]. rewrite Hng. cbn [negb andb]. eapply treads_bind; [|exact Hk].
    apply treads_next; [congruence|]. unfold type_arguments_body.
    cbn [length] in Hn. rewrite length_app in Hn. cbn [length] in Hn.
    rewrite <- app_assoc. cbn [app]. eapply treads_bind.
    + apply (Hlist n n vs lt [] gt); [cbn; lia..|done].
    + rewrite lst_cons.
      change (lt :: w :: ws ++ [gt]) with ((lt :: w :: ws) ++ [gt]). rewrite lst_app.
      apply treads_gt; [done|]. apply treads_ret.
  - (* the last argument *)
    intros ts t Hw Hok n m vs x acc g Hn Hm Hg.
    destruct (type_start ts t Hw) as (w&ws&->&Hw').
    destruct m as [|m]; [cbn in Hm; lia|]. apply treads_loop_stop. cbn [app].
    apply treads_next; [done|]. eapply treads_bind; [apply Hok; [done|by cbn; rewrite Hg]|].
    peek_false; [|cbn; congruence]. apply treads_ret.
  - (* an argument and more *)
    intros ts t c us args Hw Hok Hc Hl Hlist n m vs x acc g Hn Hm Hg.
    rewrite length_app in Hn, Hm. cbn [length] in Hn, Hm.
    destruct (type_start ts t Hw) as (w&ws&->&Hw').
    destruct (list_start us args Hl) as (w2&ws2&->&Hw2).
    destruct m as [|m]; [cbn in Hm; lia|]. rewrite <- app_assoc, lst_app, lst_cons. cbn [app].
    eapply treads_loop_go.
    + apply treads_next; [done|]. eapply treads_bind; [apply Hok; [cbn in *; lia|by cbn; rewrite Hc]|].
      peek_true; [|by cbn]. apply treads_next; [congruence|]. apply treads_ret.
    + replace (acc ++ t :: args) with ((acc ++ [t]) ++ args) by by rewrite <- app_assoc.
      apply Hlist; [cbn in *; lia..|done].
Qed.
End Reading.

(** ** Whole type texts *)

(** C9: a type text parses to the type it is written as.  Whenever the scanned
    source is a text of the grammar, where any two closing brackets that stand
    together may have been scanned as one [>>], [ParseTypeRef] returns that
    type: arguments nested to any depth, unions and intersections grouped to the
    right, the [?] on the first name only. *)
Theorem ParseTypeRef_reads_types `{UnicodeLetters} (src : gostring) (t : TypeRef) (ts us : list Token)
    (eof : Token) (n : nat) :
  tokens src = Some (ts ++ [eof]) -> Forall lexed ts -> tok_Type eof = T_EOF ->
  unglued ts us -> type_written us t -> (length us < n)%nat ->
  ParseTypeRef n src = Some (Ok t).
Proof.
  intros Hsrc Hl Heof Hu Hw Hn. unfold ParseTypeRef, Parsing.New. rewrite Hsrc. cbn [option_map].
  destruct (type_start us t Hw) as (w&ws&->&Hnot).
  inversion Hu as [|? ts' ? Hu'|? ? ? Ht]; subst; [|done].
  assert (Hlex : Forall lexed ((w :: ts') ++ [eof])).
  { apply Forall_app. split; [done|]. repeat constructor. unfold lexed. congruence. }
  assert (Hat : at_tokens (New_tokens ((w :: ts') ++ [eof])) ((w :: ts') ++ [eof])
                /\ errors (New_tokens ((w :: ts') ++ [eof])) = [])
    by (destruct ts'; cbn [app]; by apply begins_at).
  destruct Hat as [Hat He].
  assert (Hsees : sees eof [] (New_tokens ((w :: ts') ++ [eof])) ((w :: ws) ++ []))
    by (exists w, ts', ws; by rewrite app_nil_r).
  assert (Hend : continues_type (ahead eof []) = false) by (unfold ahead; by rewrite Heof).
  destruct (proj1 (parser_reads_types eof []) _ _ Hw n [] Hn Hend _ Hsees) as (p'&E&Hsees'&Hp').
  unfold rec_type in E. rewrite E, Hp', He.
  destruct Hsees' as (z&us0&us'&[= <- <-]&Hnil&Hz). inversion Hnil; subst.
  by rewrite (peek_at _ _ _ _ Hz), (tok_is_true eof).
Qed.

Definition sample_type_source : gostring := bs "?a.b<int,list<list<c>>> | d[]".
Definition sample_type_tokens : list Token :=
  Eval vm_compute in match tokens sample_type_source with Some l => l | None => [] end.
Definition sample_tok (i : nat) : Token := nth i sample_type_tokens zero_token.
Definition plain_type (t : Token) (args : list TypeRef) (list_ : bool) : TypeRef :=
  mkTypeRef t (Literal t) false args list_ None [] None.

Lemma written_plain (t : Token) : isTypeStartToken (tok_Type t) = true -> type_written [t] (plain_type t [] false).
Proof.
  intros Ht. apply written_atom.
  apply (written_name [] false t [] (Literal t) [] [] [] false); try constructor. by rewrite Ht.
Qed.
Lemma written_generic (t lt gt : Token) (ts : list Token) (args : list TypeRef) :
  isTypeStartToken (tok_Type t) = true -> isNonGenericTypeName (Literal t) = false -> tok_Type lt = T_LT ->
  tok_Type gt = T_GT -> list_written ts args -> type_written (t :: lt :: ts ++ [gt]) (plain_type t args false).
Proof.
  intros Ht Hg Hlt Hgt Hl. apply written_atom.
  pose proof (written_name [] false t [] (Literal t) (lt :: ts ++ [gt]) args [] false) as W.
  rewrite app_nil_r in W. apply W; try constructor; try done. by rewrite Ht.
Qed.

Lemma ParseTypeRef_reads_types_witness :
  exists t, ParseTypeRef 20 sample_type_source = Some (Ok t)
    /\ TypeRef_String t = bs "?a.b<int, list<list<c>>> | d[]".
Proof.
  pose (tk := sample_tok). pose (g := tk 12%nat).
  pose (gt1 := gt_token (Line g) (Column g)). pose (gt2 := gt_token (Line g) (Column g + 1)).
  pose (inner := [tk 7; tk 8; tk 9; tk 10; tk 11; gt1; gt2]%nat).
  pose (ts := [tk 0; tk 1; tk 2; tk 3; tk 4; tk 5; tk 6]%nat ++ inner ++ [tk 13; tk 14; tk 15; tk 16; tk 17]%nat).
  eexists. split.
  - apply (ParseTypeRef_reads_types sample_type_source _ (removelast sample_type_tokens) ts (sample_tok 18)).
    + vm_compute. reflexivity.
    + repeat (constructor; [discriminate|]). constructor.
    + reflexivity.
    + repeat first [apply unglued_nil | apply unglued_split; [reflexivity|] | apply unglued_same].
    + eapply (written_operator ([tk 0; tk 1; tk 2; tk 3; tk 4; tk 5; tk 6]%nat ++ inner ++ [tk 13%nat]) _ (tk 14%nat)
               [tk 15; tk 16; tk 17]%nat).
      * eapply (written_name [tk 0%nat] true (tk 1%nat) [tk 2; tk 3]%nat (bs "a.b")
                 (tk 4%nat :: ([tk 5%nat] ++ tk 6%nat :: inner) ++ [tk 13%nat]) _ [] false);
          [by constructor|done|by repeat econstructor| |constructor].
        apply written_args; [done..| |done]. apply written_more; [by apply written_plain|done|].
        apply written_last. apply (written_generic (tk 7) (tk 8) gt2 [tk 9; tk 10; tk 11; gt1])%nat; try done.
        apply written_last. apply (written_generic (tk 9) (tk 10) gt1 [tk 11])%nat; try done.
        apply written_last. by apply written_plain.
      * by left.
      * apply written_atom. apply (written_name [] false (tk 15%nat) [] (bs "d") [] [] [tk 16; tk 17]%nat true);
          by constructor.
    + cbn. lia.
  - vm_compute. reflexivity.
Defined.
