(* ===== verification/Grammar.v ===== *)
(** * Grammar: the written forms of expressions

    [writes p follow ts e] says that the tokens [ts] are a way to write the
    expression [e] where every operator outside brackets has a binding power
    above [p]; [follow] tells the token types that may come next, since an
    operator to the right of an operand must not bind tighter than the one to
    its left, and a type must not be followed by a token that extends it.
    Operators of one level group to the left, [**] and assignments to the
    right; parentheses may be put around every expression. *)

From S2P Require Import Prelude GoText Token Lexer Ast Parsing TypeParser ExprParser StmtParser Cursor.
From S2P Require Import TypeGrammar.
#[local] Open Scope parser_scope.

(** The operators from the loosest to the tightest, as docs/user/15-internals.md
    lists them, with the three it leaves out: [|>], [xor] and [in].  The empty
    row is that of the prefix operators. *)
Definition operator_rows : list (list Type_) :=
  [[T_Assign; T_PlusAssign; T_MinusAssign; T_MulAssign; T_DivAssign; T_IntDivAssign; T_ModAssign;
    T_PowerAssign; T_BitAndAssign; T_BitOrAssign; T_BitXorAssign; T_LShiftAssign; T_RShiftAssign;
    T_NullCoalesceAssign];
   [T_Pipe];
   [T_Question];
   [T_NullCoalesce];
   [T_Or; T_Xor];
   [T_And];
   [T_BitOr];
   [T_BitXor];
   [T_BitAnd];
   [T_Eq; T_NotEq; T_Is; T_InstanceOf];
   [T_LT; T_LTE; T_GT; T_GTE; T_Range; T_RangeExcl; T_As; T_In];
   [T_LShift; T_RShift];
   [T_Plus; T_Minus];
   [T_Asterisk; T_Slash; T_IntDiv; T_Percent];
   [T_Power];
   [];
   [T_Inc; T_Dec];
   [T_Dot; T_OptionalChain; T_LParen; T_LBracket]].
Fixpoint row_of (n : nat) (rows : list (list Type_)) (t : Type_) : nat :=
  match rows with
  | [] => lowest
  | row :: rows => if existsb (fun u => bool_decide (u = t)) row then n else row_of (S n) rows t
  end.
Definition level (t : Type_) : nat := row_of (S lowest) operator_rows t.
Definition prefix_level : nat := S (level T_Power).
Lemma level_precedence (t : Type_) : precedence_of t = level t.
Proof. by destruct t. Qed.

Definition anything : Type_ -> bool := fun _ => true.
(** What may follow a right operand read at level [q]. *)
Definition right_edge (q : nat) (follow : Type_ -> bool) : Type_ -> bool :=
  fun t => (level t <=? q)%nat && follow t.
(** What may follow a type, and a range without a step. *)
Definition after_type : Type_ -> bool := fun t => negb (continues_type t).
Definition not_by (follow : Type_ -> bool) : Type_ -> bool :=
  fun t => follow t && negb (bool_decide (t = T_By)).

Definition is_name_operand (t : Type_) : bool :=
  match t with T_Ident | T_This | T_Parent | T_Bool => true | _ => false end.
Definition literal_expression (t : Token) : option Expression :=
  match tok_Type t with
  | T_Int => Some (IntegerLiteral t (Literal t))
  | T_Decimal => Some (DecimalLiteral t (Literal t))
  | T_Float => Some (FloatLiteral t (Literal t))
  | T_String =>
      if Interpolated t then None
      else Some (StringLiteral t (Literal t) (Raw t) (Quote t) (Triple t) false)
  | T_True => Some (Literal_ t (Some true))
  | T_False => Some (Literal_ t (Some false))
  | T_Null => Some (Literal_ t None)
  | _ => None
  end.
Definition is_prefix_operator (t : Type_) : bool :=
  match t with T_Bang | T_Minus | T_BitNot | T_Inc | T_Dec => true | _ => false end.
Definition is_binary (t : Type_) : bool :=
  match t with
  | T_NullCoalesce | T_Or | T_And | T_Xor | T_BitOr | T_BitXor | T_BitAnd | T_Eq | T_NotEq | T_Is
  | T_In | T_LT | T_LTE | T_GT | T_GTE | T_LShift | T_RShift | T_Plus | T_Minus | T_Asterisk
  | T_Slash | T_IntDiv | T_Percent | T_Power => true
  | _ => false
  end.
(** The level at which a binary operator reads its right operand. *)
Definition right_level (t : Type_) : nat :=
  match t with T_Power => (level T_Power - 1)%nat | t => level t end.

(** A type with its closing brackets as scanned. *)
Definition type_text (ts : list Token) (t : TypeRef) : Prop :=
  exists us, unglued ts us /\ type_written us t.

Inductive writes : nat -> (Type_ -> bool) -> list Token -> Expression -> Prop :=
| writes_operand p f ts e : operand f ts e -> writes p f ts e
| writes_suffix p fl f ts l op us e :
    writes p fl ts l -> fl (tok_Type op) = true -> (lowest <= p < level (tok_Type op))%nat ->
    suffix f l op us e -> writes p f (ts ++ op :: us) e
with operand : (Type_ -> bool) -> list Token -> Expression -> Prop :=
| operand_name t : is_name_operand (tok_Type t) = true -> operand anything [t] (Ident (ident_of t))
| operand_literal t e : literal_expression t = Some e -> operand anything [t] e
| operand_group o ts f e c :
    tok_Type o = T_LParen -> writes lowest f ts e -> tok_Type c = T_RParen ->
    operand anything (o :: ts ++ [c]) (mark_parenthesized e)
| operand_prefix t us f r :
    is_prefix_operator (tok_Type t) = true -> writes prefix_level f us r ->
    operand (right_edge prefix_level f) (t :: us) (PrefixExpression t (Literal t) r false)
| operand_await t us f r :
    tok_Type t = T_Await -> writes prefix_level f us r ->
    operand (right_edge prefix_level f) (t :: us) (AwaitExpression t r)
| operand_empty_list o c :
    tok_Type o = T_LBracket -> tok_Type c = T_RBracket ->
    operand anything [o; c] (ListLiteral o [] false c)
| operand_list o ts e us es c :
    tok_Type o = T_LBracket -> element ts e -> elements us es -> tok_Type c = T_RBracket ->
    operand anything (o :: ts ++ us ++ [c]) (ListLiteral o (e :: es) false c)
| operand_empty_dict o c :
    tok_Type o = T_LBrace -> tok_Type c = T_RBrace -> operand anything [o; c] (DictLiteral o [] c)
| operand_set o ts f e us es c :
    tok_Type o = T_LBrace -> writes lowest f ts e -> elements us es -> tok_Type c = T_RBrace ->
    operand anything (o :: ts ++ us ++ [c]) (SetLiteral o (e :: es) c)
| operand_dict o ts fk k colon vs fv v us es c :
    tok_Type o = T_LBrace -> writes lowest fk ts k -> tok_Type colon = T_Colon -> writes lowest fv vs v ->
    entries us es -> tok_Type c = T_RBrace ->
    operand anything (o :: ts ++ colon :: vs ++ us ++ [c]) (DictLiteral o (mkEntry k v false :: es) c)
with suffix : (Type_ -> bool) -> Expression -> Token -> list Token -> Expression -> Prop :=
| suffix_binary l op us f r :
    is_binary (tok_Type op) = true -> writes (right_level (tok_Type op)) f us r ->
    suffix (right_edge (right_level (tok_Type op)) f) l op us
      (InfixExpression op l (Literal op) r None false)
| suffix_is_not l op no us f r :
    tok_Type op = T_Is -> tok_Type no = T_Not -> writes (level T_Is) f us r ->
    suffix (right_edge (level T_Is) f) l op (no :: us) (InfixExpression op l (bs "is not") r None false)
| suffix_instanceof l op ts t :
    tok_Type op = T_InstanceOf -> type_text ts t ->
    suffix after_type l op ts
      (InfixExpression op l (Literal op) (Ident (mkIdent op (TypeRef_String t))) (Some t) false)
| suffix_cast l op ts t :
    tok_Type op = T_As -> type_text ts t -> suffix after_type l op ts (CastExpression op l t false)
| suffix_assign l op us f v :
    tok_Type op = T_Assign -> writes lowest f us v ->
    suffix (right_edge lowest f) l op us (AssignmentExpression op l v)
| suffix_compound l op us f v ty lit :
    compound_operator (tok_Type op) = Some (ty, lit) -> writes lowest f us v ->
    suffix (right_edge lowest f) l op us
      (AssignmentExpression op l (InfixExpression (operator_token_at op ty lit) l lit v None false))
| suffix_postfix l op :
    tok_Type op = T_Inc \/ tok_Type op = T_Dec -> suffix anything l op [] (PostfixExpression op l (Literal op))
| suffix_selector l op name :
    tok_Type op = T_Dot \/ tok_Type op = T_OptionalChain -> isIdentifierNameToken (tok_Type name) = true ->
    suffix anything l op [name]
      (SelectorExpression name l (ident_of name) (bool_decide (tok_Type op = T_OptionalChain)) false)
| suffix_call l op ts args c :
    tok_Type op = T_LParen -> arguments ts args -> tok_Type c = T_RParen ->
    existsb arg_hole args = false ->
    suffix anything l op (ts ++ [c]) (CallExpression op [] l args c)
| suffix_partial l op ts args c :
    tok_Type op = T_LParen -> arguments ts args -> tok_Type c = T_RParen ->
    existsb arg_hole args = true -> existsb arg_spread args = false ->
    suffix anything l op (ts ++ [c]) (PartialExpression op [] l args c)
| suffix_index l op us f i c :
    tok_Type op = T_LBracket -> writes lowest f us i -> tok_Type c = T_RBracket ->
    suffix anything l op (us ++ [c]) (IndexExpression op l i)
| suffix_slice l op us s colon vs e ws st c :
    tok_Type op = T_LBracket -> optional us s -> tok_Type colon = T_Colon -> optional vs e ->
    slice_step ws st -> tok_Type c = T_RBracket ->
    suffix anything l op (us ++ colon :: vs ++ ws ++ [c])
      (IndexExpression op l (RangeExpression colon s e true st))
| suffix_range l op us f e :
    tok_Type op = T_Range \/ tok_Type op = T_RangeExcl -> writes (level T_Range) f us e ->
    suffix (not_by (right_edge (level T_Range) f)) l op us
      (RangeExpression op l e (bool_decide (tok_Type op = T_RangeExcl)) NilExpression)
| suffix_range_by l op us f e by_ vs g st :
    tok_Type op = T_Range \/ tok_Type op = T_RangeExcl -> writes (level T_Range) f us e -> tok_Type by_ = T_By ->
    f T_By = true -> writes (level T_Range) g vs st ->
    suffix (right_edge (level T_Range) g) l op (us ++ by_ :: vs)
      (RangeExpression op l e (bool_decide (tok_Type op = T_RangeExcl)) st)
| suffix_ternary l op us f a colon vs g b :
    tok_Type op = T_Question -> writes lowest f us a -> tok_Type colon = T_Colon -> writes lowest g vs b ->
    suffix (right_edge lowest g) l op (us ++ colon :: vs) (TernaryExpression op l a b false)
| suffix_pipe l op us f r :
    tok_Type op = T_Pipe -> writes (level T_Pipe) f us r ->
    suffix (right_edge (level T_Pipe) f) l op us (PipeExpression op l r)
with argument : list Token -> CallArgument -> Prop :=
| argument_plain ts f e : writes lowest f ts e -> argument ts (mkArgument None e false (is_hole e))
| argument_named name colon ts f e :
    tok_Type name = T_Ident -> tok_Type colon = T_Colon -> writes lowest f ts e ->
    argument (name :: colon :: ts) (mkArgument (Some (ident_of name)) e false (is_hole e))
| argument_spread dots ts f e :
    tok_Type dots = T_Ellipsis -> writes lowest f ts e ->
    argument (dots :: ts) (mkArgument None e true (is_hole e))
with some_arguments : list Token -> list CallArgument -> Prop :=
| arguments_last ts a : argument ts a -> some_arguments ts [a]
| arguments_more ts a comma us args :
    argument ts a -> tok_Type comma = T_Comma -> some_arguments us args ->
    some_arguments (ts ++ comma :: us) (a :: args)
with arguments : list Token -> list CallArgument -> Prop :=
| arguments_none : arguments [] []
| arguments_some ts args : some_arguments ts args -> arguments ts args
with element : list Token -> Expression -> Prop :=
| element_plain ts f e : writes lowest f ts e -> element ts e
| element_spread dots ts f e :
    tok_Type dots = T_Ellipsis -> writes lowest f ts e -> element (dots :: ts) (SpreadExpression dots e)
with elements : list Token -> list Expression -> Prop :=
| elements_none : elements [] []
| elements_comma c : tok_Type c = T_Comma -> elements [c] []
| elements_more c ts e us es :
    tok_Type c = T_Comma -> element ts e -> elements us es -> elements (c :: ts ++ us) (e :: es)
with entries : list Token -> list DictEntry -> Prop :=
| entries_none : entries [] []
| entries_comma c : tok_Type c = T_Comma -> entries [c] []
| entries_pair c ts fk k colon vs fv v us es :
    tok_Type c = T_Comma -> writes lowest fk ts k -> tok_Type colon = T_Colon -> writes lowest fv vs v ->
    entries us es -> entries (c :: ts ++ colon :: vs ++ us) (mkEntry k v false :: es)
| entries_spread c dots ts f e us es :
    tok_Type c = T_Comma -> tok_Type dots = T_Ellipsis -> writes lowest f ts e -> entries us es ->
    entries (c :: dots :: ts ++ us) (mkEntry NilExpression e true :: es)
with optional : list Token -> Expression -> Prop :=
| optional_none : optional [] NilExpression
| optional_some ts f e : writes lowest f ts e -> optional ts e
with slice_step : list Token -> Expression -> Prop :=
| no_step : slice_step [] NilExpression
| a_step colon ts e : tok_Type colon = T_Colon -> optional ts e -> slice_step (colon :: ts) e.

Scheme writes_min := Minimality for writes Sort Prop
  with operand_min := Minimality for operand Sort Prop
  with suffix_min := Minimality for suffix Sort Prop
  with argument_min := Minimality for argument Sort Prop
  with some_arguments_min := Minimality for some_arguments Sort Prop
  with arguments_min := Minimality for arguments Sort Prop
  with element_min := Minimality for element Sort Prop
  with elements_min := Minimality for elements Sort Prop
  with entries_min := Minimality for entries Sort Prop
  with optional_min := Minimality for optional Sort Prop
  with slice_step_min := Minimality for slice_step Sort Prop.
Combined Scheme writes_mutual from writes_min, operand_min, suffix_min, argument_min, some_arguments_min,
  arguments_min, element_min, elements_min, entries_min, optional_min, slice_step_min.

(** ** The shape of a text *)

(** The tokens that may start an expression, and those that may end one in any
    context. *)
Definition starts_expression (t : Type_) : bool :=
  is_name_operand t || is_prefix_operator t ||
  match t with
  | T_Int | T_Decimal | T_Float | T_String | T_True | T_False | T_Null | T_Await
  | T_LParen | T_LBracket | T_LBrace => true
  | _ => false
  end.
Definition closes (t : Type_) : bool := (level t <=? lowest)%nat && negb (bool_decide (t = T_By)).

Definition first_ok (P : Type_ -> bool) (ts : list Token) : Prop :=
  exists t us, ts = t :: us /\ P (tok_Type t) = true.

(** What every text of the grammar satisfies: it starts like an expression, is
    not nil, may be followed by a closing token, and does not go on with a colon
    after a first name. *)
Record shape (f : Type_ -> bool) (ts : list Token) (e : Expression) : Prop := {
  shape_first : first_ok starts_expression ts;
  shape_nil : is_nil e = false;
  shape_follow : forall k, closes k = true -> f k = true;
  shape_second : forall t u us, ts = t :: u :: us -> tok_Type t = T_Ident ->
                 (lowest < level (tok_Type u))%nat }.

Lemma closes_right_edge (q : nat) (f : Type_ -> bool) (k : Type_) :
  (lowest <= q)%nat -> (forall k, closes k = true -> f k = true) -> closes k = true ->
  right_edge q f k = true.
Proof.
  intros Hq Hf Hk. unfold right_edge. rewrite (Hf k Hk), andb_true_r. apply Nat.leb_le.
  unfold closes in Hk. apply andb_true_iff in Hk as [Hk _]. apply Nat.leb_le in Hk. lia.
Qed.
Lemma closes_after_type (k : Type_) : closes k = true -> after_type k = true.
Proof. by destruct k. Qed.
Lemma closes_not_by (f : Type_ -> bool) (k : Type_) :
  (forall k, closes k = true -> f k = true) -> closes k = true -> not_by f k = true.
Proof.
  intros Hf Hk. unfold not_by. rewrite (Hf k Hk). unfold closes in Hk.
  by apply andb_true_iff in Hk as [_ ->].
Qed.
Lemma right_level_lowest (t : Type_) : is_binary t = true -> (lowest <= right_level t)%nat.
Proof. destruct t; intros [=]; by apply Nat.leb_le. Qed.
Lemma mark_not_nil (e : Expression) : is_nil (mark_parenthesized e) = is_nil e.
Proof. by destruct e. Qed.

Lemma first_app (P : Type_ -> bool) (ts us : list Token) : first_ok P ts -> first_ok P (ts ++ us).
Proof. intros (t&ts'&->&Ht). by exists t, (ts' ++ us). Qed.

Ltac shape_edge :=
  intros; first [done | apply closes_after_type; assumption
    | apply closes_not_by; [intros; shape_edge|assumption]
    | apply closes_right_edge; [first [apply right_level_lowest; assumption | apply Nat.leb_le; reflexivity]
                               |assumption|assumption]].
Ltac first_is H := eexists _, _; split; [reflexivity|]; rewrite H; reflexivity.

Lemma literal_shape (t : Token) (e : Expression) :
  literal_expression t = Some e -> shape anything [t] e.
Proof.
  intros Ht. unfold literal_expression in Ht. split; [|..|done|done].
  - eexists _, _. split; [reflexivity|]. by destruct (tok_Type t).
  - destruct (tok_Type t); try discriminate; try (by injection Ht as <-).
    destruct (Interpolated t); [discriminate|]. by injection Ht as <-.
Qed.

Lemma opened_shape (f : Type_ -> bool) (t : Token) (us : list Token) (e : Expression) :
  starts_expression (tok_Type t) = true -> tok_Type t <> T_Ident -> is_nil e = false ->
  (forall k, closes k = true -> f k = true) ->
  shape f (t :: us) e /\ (forall t' us', t :: us = t' :: us' -> tok_Type t' = T_Ident -> us' = []).
Proof.
  intros Ht Hi Hn Hf. split; [|by intros t' us' [= <- <-]]. split; [by eexists _, _|done|done|].
  by intros t' u us' [= <- E].
Qed.
Lemma prefix_start (t : Type_) : is_prefix_operator t = true -> starts_expression t = true /\ t <> T_Ident.
Proof. by destruct t. Qed.
Lemma first_weaken (P Q : Type_ -> bool) (ts : list Token) :
  (forall t, P t = true -> Q t = true) -> first_ok P ts -> first_ok Q ts.
Proof. intros H (t&us&->&Ht). exists t, us. auto. Qed.

Lemma writes_shape_mutual :
  (forall p f ts e, writes p f ts e -> shape f ts e) /\
  (forall f ts e, operand f ts e -> shape f ts e /\ (forall t us, ts = t :: us -> tok_Type t = T_Ident -> us = [])) /\
  (forall f l op ts e, suffix f l op ts e -> is_nil e = false /\ (forall k, closes k = true -> f k = true)) /\
  (forall ts a, argument ts a -> True) /\
  (forall ts a, some_arguments ts a -> True) /\
  (forall ts a, arguments ts a -> True) /\
  (forall ts a, element ts a -> first_ok (fun t => starts_expression t || bool_decide (t = T_Ellipsis)) ts) /\
  (forall ts a, elements ts a -> True) /\
  (forall ts a, entries ts a -> True) /\
  (forall ts a, optional ts a -> ts = [] \/ first_ok starts_expression ts) /\
  (forall ts a, slice_step ts a -> True).
Proof.
  apply writes_mutual; try done; try (by left).
  - intros p f ts e _ [Hs _]. exact Hs.
  - intros p fl f ts l op us e _ [Hf _ _ H2] _ Hp _ [Hn Hc]. split; [by apply first_app|done|done|].
    intros t u vs E Ht. destruct Hf as (t'&[|u' ts']&->&_).
    + injection E as -> -> _. lia.
    + injection E as -> -> _. by apply (H2 t u ts').
  - intros t Ht. split; [|by intros t' us [= -> <-]]. split; [|done|done|done].
    eexists _, _. split; [reflexivity|]. unfold starts_expression. by rewrite Ht.
  - intros t e Ht. split; [by apply literal_shape|by intros t' us [= -> <-]].
  - intros o ts f e c Ho _ Hs _. apply opened_shape; [by rewrite Ho|by rewrite Ho| |done].
    rewrite mark_not_nil. by eapply shape_nil.
  - intros t us f r Ht _ Hs. apply opened_shape; [by apply prefix_start..|done|].
    pose proof (shape_follow _ _ _ Hs). shape_edge.
  - intros t us f r Ht _ Hs. apply opened_shape; [by rewrite Ht|by rewrite Ht|done|].
    pose proof (shape_follow _ _ _ Hs). shape_edge.
  - intros o c Ho _. by apply opened_shape; rewrite ?Ho.
  - intros * Ho **. by apply opened_shape; rewrite ?Ho.
  - intros o c Ho _. by apply opened_shape; rewrite ?Ho.
  - intros * Ho **. by apply opened_shape; rewrite ?Ho.
  - intros * Ho **. by apply opened_shape; rewrite ?Ho.
  - intros * Hb _ Hs. split; [done|]. pose proof (shape_follow _ _ _ Hs). shape_edge.
  - intros * _ _ _ Hs. split; [done|]. pose proof (shape_follow _ _ _ Hs). shape_edge.
  - intros **. split; [done|]. shape_edge.
  - intros **. split; [done|]. shape_edge.
  - intros * _ _ Hs. split; [done|]. pose proof (shape_follow _ _ _ Hs). shape_edge.
  - intros * _ _ Hs. split; [done|]. pose proof (shape_follow _ _ _ Hs). shape_edge.
  - intros * _ _ Hs. split; [done|]. pose proof (shape_follow _ _ _ Hs). shape_edge.
  - intros * _ _ Hs _ _ _ Hs2. split; [done|]. pose proof (shape_follow _ _ _ Hs2). shape_edge.
  - intros * _ _ Hs _ _ Hs2. split; [done|]. pose proof (shape_follow _ _ _ Hs2). shape_edge.
  - intros * _ _ Hs. split; [done|]. pose proof (shape_follow _ _ _ Hs). shape_edge.
  - intros * _ [Hf _ _ _]. eapply first_weaken; [|exact Hf]. by intros t ->.
  - intros * Hd **. eexists _, _. split; [reflexivity|]. by rewrite Hd.
  - intros * _ [Hf _ _ _]. by right.
Qed.

Lemma writes_shape (p : nat) (f : Type_ -> bool) (ts : list Token) (e : Expression) :
  writes p f ts e -> shape f ts e.
Proof. apply writes_shape_mutual. Qed.
