(* ===== verification/Parsed.v ===== *)
(** * Parsed: the parser recognises the grammar of expressions

    For every text of Grammar.v the precedence climbing loop returns the
    expression the text writes, whatever follows it that may. *)

From S2P Require Import Prelude GoText Token Lexer Ast Parsing TypeParser ExprParser StmtParser Cursor.
From S2P Require Import TypeGrammar Grammar.
#[local] Open Scope parser_scope.

(** No [<] of the text starts what looks like type arguments before a call. *)
Definition plain_lt (ts : list Token) : Prop :=
  forall pre t post, ts = pre ++ t :: post -> tok_Type t = T_LT ->
  generic_args_scan 1 (map tok_Type post) = false.

Lemma plain_end (ts us : list Token) : plain_lt (ts ++ us) -> plain_lt us.
Proof. intros H pre t post -> Ht. apply (H (ts ++ pre) t post); [by rewrite <- app_assoc|done]. Qed.
Lemma plain_rest (t : Token) (us : list Token) : plain_lt (t :: us) -> plain_lt us.
Proof. apply (plain_end [t]). Qed.

Ltac len := repeat (rewrite ?length_app in *; cbn [length app] in * ); lia.
Ltac plain :=
  cbn [app] in *; rewrite <- ?app_assoc in *; cbn [app] in *;
  repeat first [assumption
               | match goal with H : plain_lt (_ :: _) |- _ => apply plain_rest in H end
               | match goal with H : plain_lt (_ ++ _) |- _ => apply plain_end in H end].

(** ** Types inside expressions *)

Lemma unglued_length (ts us : list Token) : unglued ts us -> (length us <= 2 * length ts)%nat.
Proof. induction 1; cbn [length]; lia. Qed.

Lemma reads_type (ts : list Token) (t : TypeRef) (n : nat) (r : Token) (rest : list Token) :
  type_text ts t -> (2 * length ts < n)%nat -> after_type (tok_Type r) = true ->
  reads (parseTypeRefFromCurrent n) (ts ++ r :: rest) (before (r :: rest)) t.
Proof.
  intros (us&Hu&Hw) Hn Hr p Hp. pose proof (unglued_length _ _ Hu) as Hlen.
  destruct (type_start us t Hw) as (w&ws&->&Hnot).
  inversion Hu as [|? ts' ? Hu'|? ? ? Ht]; subst; [|done].
  assert (Hsees : sees r rest p ((w :: ws) ++ [])) by (exists w, ts', ws; by rewrite app_nil_r).
  assert (Hend : continues_type (ahead r []) = false) by (by apply negb_true_iff in Hr).
  destruct (proj1 (parser_reads_types r rest) _ _ Hw n [] ltac:(lia) Hend p Hsees) as (p'&E&Hsees'&He).
  destruct Hsees' as (z&us0&us'&[= <- <-]&Hnil&Hz). inversion Hnil; subst.
  eexists p', _. split_and!; [exact E|exact Hz|by eexists|done].
Qed.

Lemma type_text_cons (ts : list Token) (t : TypeRef) : type_text ts t -> exists u us, ts = u :: us.
Proof.
  intros (us&Hu&Hw). destruct (type_start us t Hw) as (w&ws&->&_). inversion Hu; subst; eauto.
Qed.

Lemma reads_next_app {B : Type} (k : unit -> M B) (x v : Token) (ts rest : list Token)
    (post : list Token -> Prop) (b : B) :
  ts <> [] -> reads (k tt) (ts ++ v :: rest) post b -> reads (bind nextToken k) (x :: ts ++ v :: rest) post b.
Proof. intros Hts. destruct ts as [|t [|u ts]]; [done|apply reads_next..]. Qed.

Lemma reads_expect_app {B : Type} (k : bool -> M B) (ty : Type_) (x u v : Token) (ts rest : list Token)
    (post : list Token -> Prop) (b : B) :
  tok_Type u = ty -> reads (k true) (u :: ts ++ v :: rest) post b ->
  reads (bind (expectPeek ty) k) (x :: u :: ts ++ v :: rest) post b.
Proof. destruct ts; apply reads_expect. Qed.

(** The next token, when the tokens after it are known up to a phrase. *)
Ltac over ts := apply (reads_next_app _ _ _ ts); [done|]; cbn [app].

Lemma reads_done {A : Type} (a : A) (z : Token) (rest : list Token) : reads (ret a) (z :: rest) (before rest) a.
Proof. apply reads_return. by exists z. Qed.

Lemma reads_assoc {A B C : Type} (m : M A) (k : A -> M B) (h : B -> M C) (ts : list Token)
    (post : list Token -> Prop) (c : C) :
  reads (bind (bind m k) h) ts post c -> reads (bind m (fun x => bind (k x) h)) ts post c.
Proof.
  intros Hr p Hp. destruct (Hr p Hp) as (p'&us&E&Hrest). exists p', us. split; [|done].
  unfold bind in *. by destruct (m p).
Qed.

(** The last action of a body. *)
Lemma reads_last {A B : Type} (m : M A) (g : A -> B) (ts rest : list Token) (a : A) :
  reads m ts (before rest) a -> reads (let_ x <- m; ret (g x)) ts (before rest) (g a).
Proof. intros H. eapply reads_then; [exact H|]. intros z. apply reads_done. Qed.

Section Recognised.
Context `{UnicodeLetters}.

(** ** What the grammar's phrases mean for the parser *)

(** One round of the climbing loop. *)
Definition climb_round (n q : nat) (left : Expression) : M (Expression + Expression) :=
  let_ t <- peek;
  if negb (ends_expression (tok_Type t)) && (q <? precedence_of (tok_Type t))%nat then
    do_ nextToken;
    let_ left <- parseInfix n (parseExpression n) left;
    ret (if is_nil left then inr left else inl left)
  else ret (inr left).

Definition writes_ok (p : nat) (f : Type_ -> bool) (ts : list Token) (e : Expression) : Prop :=
  forall n q r rest post b, (2 * length ts <= n)%nat -> (q <= p)%nat -> f (tok_Type r) = true ->
  plain_lt (ts ++ r :: rest) ->
  (forall z m, (n < m + length ts)%nat -> reads (loop m (climb_round n q) e) (z :: r :: rest) post b) ->
  reads (parse_expression_body n (parseExpression n) (parseStatement n) q) (ts ++ r :: rest) post b.
Definition operand_ok (f : Type_ -> bool) (ts : list Token) (e : Expression) : Prop :=
  forall n r rest, (2 * length ts <= n)%nat -> f (tok_Type r) = true -> plain_lt (ts ++ r :: rest) ->
  reads (parsePrefix n (parseExpression n) (parseStatement n)) (ts ++ r :: rest) (before (r :: rest)) e.
Definition suffix_ok (f : Type_ -> bool) (l : Expression) (op : Token) (us : list Token) (e : Expression) : Prop :=
  forall n r rest, (2 * length us < n)%nat -> f (tok_Type r) = true -> plain_lt (op :: us ++ r :: rest) ->
  reads (parseInfix n (parseExpression n) l) (op :: us ++ r :: rest) (before (r :: rest)) e.
Definition expression_ok (q : nat) (f : Type_ -> bool) (ts : list Token) (e : Expression) : Prop :=
  forall n r rest, (2 * length ts < n)%nat -> right_edge q f (tok_Type r) = true -> plain_lt (ts ++ r :: rest) ->
  reads (parseExpression n q) (ts ++ r :: rest) (before (r :: rest)) e.

Definition argument_ok (ts : list Token) (a : CallArgument) : Prop :=
  forall n r rest, (2 * length ts < n)%nat -> tok_Type r = T_Comma \/ tok_Type r = T_RParen ->
  plain_lt (ts ++ r :: rest) ->
  reads (parse_argument (parseExpression n)) (ts ++ r :: rest) (before (r :: rest)) a.
Definition argument_round (n : nat) (args : list CallArgument) : M (list CallArgument + list CallArgument) :=
  do_ nextToken;
  let_ a <- parse_argument (parseExpression n);
  let_ more <- peekTokenIs T_Comma;
  if more then (do_ nextToken; ret (inl (args ++ [a]))) else ret (inr (args ++ [a])).
Definition some_arguments_ok (ts : list Token) (args : list CallArgument) : Prop :=
  ts <> [] /\
  forall n m x r rest acc, (2 * length ts < n)%nat -> (length ts < m)%nat -> tok_Type r = T_RParen ->
  plain_lt (ts ++ r :: rest) ->
  reads (loop m (argument_round n) acc) (x :: ts ++ r :: rest) (before (r :: rest)) (acc ++ args).
Definition arguments_ok (ts : list Token) (args : list CallArgument) : Prop :=
  forall n x c r rest, (2 * length ts + 2 < n)%nat -> tok_Type c = T_RParen -> plain_lt (ts ++ c :: r :: rest) ->
  reads (parseCallArguments n (parseExpression n)) (x :: ts ++ c :: r :: rest) (eq (c :: r :: rest)) args.
Definition element_ok (ts : list Token) (e : Expression) : Prop :=
  forall n r rest, (2 * length ts < n)%nat -> closes (tok_Type r) = true -> plain_lt (ts ++ r :: rest) ->
  reads (parse_element (parseExpression n)) (ts ++ r :: rest) (before (r :: rest)) e.
Definition element_round (n : nat) (close : Type_) (es : list Expression) : M (list Expression + list Expression) :=
  let_ comma <- peekTokenIs T_Comma;
  if comma then
    do_ nextToken;
    let_ ended <- peekTokenIs close;
    if ended then ret (inr es)
    else (do_ nextToken; let_ e <- parse_element (parseExpression n); ret (inl (es ++ [e])))
  else ret (inr es).
Definition is_close (t : Type_) : Prop := t = T_RBracket \/ t = T_RBrace.
Definition elements_ok (us : list Token) (es : list Expression) : Prop :=
  forall n m x r rest acc, (2 * length us < n)%nat -> (length us < m)%nat -> is_close (tok_Type r) ->
  plain_lt (us ++ r :: rest) ->
  reads (loop m (element_round n (tok_Type r)) acc) (x :: us ++ r :: rest) (before (r :: rest)) (acc ++ es).
Definition entry_round (n : nat) (es : list DictEntry) : M (list DictEntry + list DictEntry) :=
  let_ comma <- peekTokenIs T_Comma;
  if comma then
    do_ nextToken;
    let_ ended <- peekTokenIs T_RBrace;
    if ended then ret (inr es)
    else
      do_ nextToken;
      let_ spread <- curTokenIs T_Ellipsis;
      let_ entry <- (if spread then spread_entry (parseExpression n)
                   else (let_ key <- parseExpression n lowest; key_value (parseExpression n) key));
      ret (inl (es ++ [entry]))
  else ret (inr es).
Definition entries_ok (us : list Token) (es : list DictEntry) : Prop :=
  forall n m x r rest acc, (2 * length us < n)%nat -> (length us < m)%nat -> tok_Type r = T_RBrace ->
  plain_lt (us ++ r :: rest) ->
  reads (loop m (entry_round n) acc) (x :: us ++ r :: rest) (before (r :: rest)) (acc ++ es).
Definition optional_ok (ts : list Token) (e : Expression) : Prop :=
  ts = [] /\ e = NilExpression \/
  first_ok starts_expression ts /\
  forall n x r rest, (2 * length ts < n)%nat -> closes (tok_Type r) = true -> plain_lt (ts ++ r :: rest) ->
  reads (next_expression (parseExpression n)) (x :: ts ++ r :: rest) (before (r :: rest)) e.
Definition slice_step_ok (ts : list Token) (e : Expression) : Prop :=
  (forall t us, ts = t :: us -> tok_Type t = T_Colon) /\
  forall n x r rest, (2 * length ts < n)%nat -> tok_Type r = T_RBracket -> plain_lt (ts ++ r :: rest) ->
  reads (parseOptionalSliceStep (parseExpression n)) (x :: ts ++ r :: rest) (before (r :: rest)) e.

(** ** From the loop to the expression *)

Lemma ends_expression_lowest (t : Type_) : ends_expression t = true -> level t = lowest.
Proof. by destruct t. Qed.

Lemma expression_of_writes (p q : nat) (f : Type_ -> bool) (ts : list Token) (e : Expression) :
  writes_ok p f ts e -> (q <= p)%nat -> expression_ok q f ts e.
Proof.
  intros Hw Hq n r rest Hn Hr Hplain. unfold right_edge in Hr. apply andb_true_iff in Hr as [Hprec Hf].
  apply Nat.leb_le in Hprec. destruct n as [|n]; [lia|].
  assert (Hb : reads (parse_expression_body n (parseExpression n) (parseStatement n) q) (ts ++ r :: rest)
                 (before (r :: rest)) e).
  { apply Hw; [lia|done..|]. intros z m Hm. destruct m as [|m]; [lia|].
    apply loop_stop. unfold climb_round. step. rewrite level_precedence, (proj2 (Nat.ltb_ge _ _)), andb_false_r by done.
    apply reads_done. }
  intros s Hs. exact (Hb s Hs).
Qed.

(** A whole expression before a closing token. *)
Lemma whole_expression (f : Type_ -> bool) (ts : list Token) (e : Expression) (n : nat) (r : Token) (rest : list Token) :
  writes lowest f ts e -> writes_ok lowest f ts e -> (2 * length ts < n)%nat -> closes (tok_Type r) = true ->
  plain_lt (ts ++ r :: rest) ->
  reads (parseExpression n lowest) (ts ++ r :: rest) (before (r :: rest)) e.
Proof.
  intros Hw Hok Hn Hr Hp. apply (expression_of_writes lowest lowest f); [done|done|done| |done].
  apply closes_right_edge; [done| |done]. by eapply shape_follow, writes_shape.
Qed.
Lemma whole_next (f : Type_ -> bool) (ts : list Token) (e : Expression) (n : nat) (x r : Token) (rest : list Token) :
  writes lowest f ts e -> writes_ok lowest f ts e -> (2 * length ts < n)%nat -> closes (tok_Type r) = true ->
  plain_lt (ts ++ r :: rest) ->
  reads (next_expression (parseExpression n)) (x :: ts ++ r :: rest) (before (r :: rest)) e.
Proof.
  intros Hw **. apply reads_next_app; [|by eapply whole_expression].
  destruct (shape_first _ _ _ (writes_shape _ _ _ _ Hw)) as (t&us&->&_). done.
Qed.

(** ** Operands *)

Lemma name_ok (t : Token) : is_name_operand (tok_Type t) = true -> operand_ok anything [t] (Ident (ident_of t)).
Proof.
  intros Ht n r rest _ _ _. unfold parsePrefix. cbn [app]. step.
  destruct (tok_Type t); try discriminate; apply reads_done.
Qed.
Lemma literal_ok (t : Token) (e : Expression) : literal_expression t = Some e -> operand_ok anything [t] e.
Proof.
  intros Ht n r rest _ _ _. unfold parsePrefix, literal_expression in *. cbn [app]. step.
  destruct (tok_Type t); try discriminate; try (injection Ht as <-; apply reads_done).
  destruct (Interpolated t); [discriminate|]. injection Ht as <-. apply reads_done.
Qed.

Lemma group_ok (o : Token) (ts : list Token) (f : Type_ -> bool) (e : Expression) (c : Token) :
  tok_Type o = T_LParen -> writes lowest f ts e -> writes_ok lowest f ts e -> tok_Type c = T_RParen ->
  operand_ok anything (o :: ts ++ [c]) (mark_parenthesized e).
Proof.
  intros Ho Hw Hok Hc n r rest Hn _ Hp. unfold parsePrefix. cbn [app] in *.
  rewrite <- app_assoc in *. step. rewrite Ho.
  eapply reads_then; [eapply whole_next; [exact Hw|exact Hok|len|by rewrite Hc|plain]|].
  intros z. cbn [app]. apply reads_expect; [done|]. apply reads_done.
Qed.

Lemma prefix_ok (t : Token) (us : list Token) (f : Type_ -> bool) (e : Expression) (n : nat) (r : Token)
    (rest : list Token) :
  writes prefix_level f us e -> writes_ok prefix_level f us e -> (2 * length (t :: us) <= n)%nat ->
  right_edge prefix_level f (tok_Type r) = true -> plain_lt ((t :: us) ++ r :: rest) ->
  reads (do_ nextToken; parseExpression n prefix) (t :: us ++ r :: rest) (before (r :: rest)) e.
Proof.
  intros Hw Hok Hn Hr Hp. apply reads_next_app.
  - by destruct (shape_first _ _ _ (writes_shape _ _ _ _ Hw)) as (t'&us'&->&_).
  - apply (expression_of_writes prefix_level prefix_level f); [done|done|len|done|plain].
Qed.

Lemma prefix_operator_ok (t : Token) (us : list Token) (f : Type_ -> bool) (r : Expression) :
  is_prefix_operator (tok_Type t) = true -> writes prefix_level f us r -> writes_ok prefix_level f us r ->
  operand_ok (right_edge prefix_level f) (t :: us) (PrefixExpression t (Literal t) r false).
Proof.
  intros Ht Hw Hok n k rest Hn Hk Hp. unfold parsePrefix. cbn [app]. step.
  pose proof (prefix_ok t us f r n k rest Hw Hok Hn Hk Hp) as Hr.
  assert (Hall : reads (do_ nextToken; let_ right <- parseExpression n prefix;
            ret (PrefixExpression t (Literal t) right false)) (t :: us ++ k :: rest) (before (k :: rest))
            (PrefixExpression t (Literal t) r false)).
  { apply reads_assoc. eapply reads_then; [exact Hr|]. intros z. apply reads_done. }
  destruct (tok_Type t); try discriminate; exact Hall.
Qed.
Lemma await_ok (t : Token) (us : list Token) (f : Type_ -> bool) (r : Expression) :
  tok_Type t = T_Await -> writes prefix_level f us r -> writes_ok prefix_level f us r ->
  operand_ok (right_edge prefix_level f) (t :: us) (AwaitExpression t r).
Proof.
  intros Ht Hw Hok n k rest Hn Hk Hp. unfold parsePrefix. cbn [app]. step. rewrite Ht.
  apply reads_assoc. eapply reads_then; [by eapply prefix_ok|]. intros z. apply reads_done.
Qed.

(** ** Lists, sets and dicts *)

Lemma starts_facts (ts : list Token) :
  first_ok (fun t => starts_expression t || bool_decide (t = T_Ellipsis)) ts ->
  exists t us, ts = t :: us /\ tok_Type t <> T_RBracket /\ tok_Type t <> T_RBrace /\ tok_Type t <> T_RParen.
Proof. intros (t&us&->&Ht). exists t, us. split; [done|]. by destruct (tok_Type t). Qed.

Lemma element_start (ts : list Token) (e : Expression) :
  element ts e -> exists t us, ts = t :: us /\ tok_Type t <> T_RBracket /\ tok_Type t <> T_RBrace /\ tok_Type t <> T_RParen.
Proof. intros He. apply starts_facts. by eapply writes_shape_mutual. Qed.
Lemma writes_start (p : nat) (f : Type_ -> bool) (ts : list Token) (e : Expression) :
  writes p f ts e -> exists t us, ts = t :: us /\ starts_expression (tok_Type t) = true.
Proof. intros Hw. exact (shape_first _ _ _ (writes_shape _ _ _ _ Hw)). Qed.

Lemma is_close_closes (t : Type_) : is_close t -> closes t = true.
Proof. by intros [-> | ->]. Qed.
Lemma is_close_facts (t : Type_) : is_close t -> t <> T_Comma /\ t <> T_For /\ t <> T_Colon.
Proof. by intros [-> | ->]. Qed.

Lemma element_plain_ok (ts : list Token) (f : Type_ -> bool) (e : Expression) :
  writes lowest f ts e -> writes_ok lowest f ts e -> element_ok ts e.
Proof.
  intros Hw Hok n r rest Hn Hr Hp. unfold parse_element.
  destruct (writes_start _ _ _ _ Hw) as (t&us&->&Ht). cbn [app]. step.
  rewrite tok_is_false by (intros E; by rewrite E in Ht). by eapply (whole_expression f (t :: us)).
Qed.
Lemma element_spread_ok (dots : Token) (ts : list Token) (f : Type_ -> bool) (e : Expression) :
  tok_Type dots = T_Ellipsis -> writes lowest f ts e -> writes_ok lowest f ts e ->
  element_ok (dots :: ts) (SpreadExpression dots e).
Proof.
  intros Hd Hw Hok n r rest Hn Hr Hp. unfold parse_element. cbn [app]. step. rewrite tok_is_true by done.
  eapply reads_then; [eapply whole_next; [exact Hw|exact Hok|len|done|plain]|]. intros z. apply reads_done.
Qed.

Lemma elements_none_ok : elements_ok [] [].
Proof.
  intros n m x r rest acc _ Hm Hr _. destruct m as [|m]; [cbn in Hm; lia|]. rewrite app_nil_r.
  apply loop_stop. unfold element_round. cbn [app]. step.
  rewrite tok_is_false by (by apply is_close_facts). apply reads_done.
Qed.
Lemma elements_comma_ok (c : Token) : tok_Type c = T_Comma -> elements_ok [c] [].
Proof.
  intros Hc n m x r rest acc _ Hm Hr _. destruct m as [|m]; [cbn in Hm; lia|]. rewrite app_nil_r.
  apply loop_stop. unfold element_round. cbn [app]. step. rewrite tok_is_true by done. step. step.
  rewrite tok_is_true by done. apply reads_done.
Qed.

(** A text followed by more phrases: the first token after it. *)
Lemma elements_head (us : list Token) (es : list Expression) (r : Token) (rest : list Token) :
  elements us es -> is_close (tok_Type r) ->
  exists v vs, us ++ r :: rest = v :: vs /\ closes (tok_Type v) = true /\ tok_Type v <> T_For /\ tok_Type v <> T_Colon.
Proof.
  intros Hus Hr. destruct Hus as [|c Hc|c ts e us es Hc].
  - exists r, rest. split; [done|]. by destruct Hr as [-> | ->].
  - eexists c, _. split; [reflexivity|]. by rewrite Hc.
  - eexists c, _. split; [reflexivity|]. by rewrite Hc.
Qed.
Lemma entries_head (us : list Token) (es : list DictEntry) (r : Token) (rest : list Token) :
  entries us es -> tok_Type r = T_RBrace ->
  exists v vs, us ++ r :: rest = v :: vs /\ closes (tok_Type v) = true /\ tok_Type v <> T_For.
Proof.
  intros Hus Hr. destruct Hus as [|c Hc|c ts fk k colon vs fv v us es Hc|c dots ts f e us es Hc].
  - exists r, rest. by rewrite Hr.
  - eexists c, _. split; [reflexivity|]. by rewrite Hc.
  - eexists c, _. split; [reflexivity|]. by rewrite Hc.
  - eexists c, _. split; [reflexivity|]. by rewrite Hc.
Qed.

Lemma elements_more_ok (c : Token) (ts : list Token) (e : Expression) (us : list Token) (es : list Expression) :
  tok_Type c = T_Comma -> element ts e -> element_ok ts e -> elements us es -> elements_ok us es ->
  elements_ok (c :: ts ++ us) (e :: es).
Proof.
  intros Hc He Heok Hus Husok n m x r rest acc Hn Hm Hr Hp. destruct m as [|m]; [cbn in Hm; lia|].
  destruct (elements_head us es r rest Hus Hr) as (v&vs&Ev&Hv&_).
  destruct (element_start ts e He) as (t&ts'&->&Ht1&Ht2&_).
  cbn [app] in *. rewrite <- app_assoc in *. rewrite Ev in *.
  apply (loop_go m _ acc (acc ++ [e]) _ (before (v :: vs))).
  - unfold element_round. step. rewrite tok_is_true by done. over (c :: t :: ts'). step.
    rewrite tok_is_false by (destruct Hr as [-> | ->]; done). over (t :: ts').
    eapply reads_then; [apply (Heok n v vs); [len|done|plain]|]. intros z. apply reads_done.
  - intros us' [z ->]. rewrite <- Ev. replace (acc ++ e :: es) with ((acc ++ [e]) ++ es) by by rewrite <- app_assoc.
    apply Husok; [len|len|done|]. rewrite Ev. plain.
Qed.

Lemma entries_none_ok : entries_ok [] [].
Proof.
  intros n m x r rest acc _ Hm Hr _. destruct m as [|m]; [cbn in Hm; lia|]. rewrite app_nil_r.
  apply loop_stop. unfold entry_round. cbn [app]. step.
  rewrite tok_is_false by congruence. apply reads_done.
Qed.
Lemma entries_comma_ok (c : Token) : tok_Type c = T_Comma -> entries_ok [c] [].
Proof.
  intros Hc n m x r rest acc _ Hm Hr _. destruct m as [|m]; [cbn in Hm; lia|]. rewrite app_nil_r.
  apply loop_stop. unfold entry_round. cbn [app]. step. rewrite tok_is_true by done. step. step.
  rewrite tok_is_true by done. apply reads_done.
Qed.

(** A key and its value. *)
Lemma key_value_ok (ts : list Token) (fk : Type_ -> bool) (k : Expression) (colon : Token) (vs : list Token)
    (fv : Type_ -> bool) (v : Expression) (n : nat) (r : Token) (rest : list Token) :
  writes lowest fk ts k -> writes_ok lowest fk ts k -> tok_Type colon = T_Colon ->
  writes lowest fv vs v -> writes_ok lowest fv vs v -> (2 * length (ts ++ colon :: vs) < n)%nat ->
  closes (tok_Type r) = true -> plain_lt (ts ++ colon :: vs ++ r :: rest) ->
  reads (let_ key <- parseExpression n lowest; key_value (parseExpression n) key)
    (ts ++ colon :: vs ++ r :: rest) (before (r :: rest)) (mkEntry k v false).
Proof.
  intros Hk Hkok Hc Hv Hvok Hn Hr Hp.
  eapply reads_then; [eapply (whole_expression fk); [exact Hk|exact Hkok|len|by rewrite Hc|exact Hp]|].
  intros z. unfold key_value. apply reads_expect_app; [done|].
  eapply reads_then; [eapply (whole_next fv); [exact Hv|exact Hvok|len|done|plain]|].
  intros z'. apply reads_done.
Qed.

Lemma entries_pair_ok (c : Token) (ts : list Token) (fk : Type_ -> bool) (k : Expression) (colon : Token)
    (vs : list Token) (fv : Type_ -> bool) (v : Expression) (us : list Token) (es : list DictEntry) :
  tok_Type c = T_Comma -> writes lowest fk ts k -> writes_ok lowest fk ts k -> tok_Type colon = T_Colon ->
  writes lowest fv vs v -> writes_ok lowest fv vs v -> entries us es -> entries_ok us es ->
  entries_ok (c :: ts ++ colon :: vs ++ us) (mkEntry k v false :: es).
Proof.
  intros Hc Hk Hkok Hcolon Hv Hvok Hus Husok n m x r rest acc Hn Hm Hr Hp.
  destruct m as [|m]; [cbn in Hm; lia|].
  destruct (entries_head us es r rest Hus Hr) as (h&hs&Eh&Hh&_).
  destruct (writes_start _ _ _ _ Hk) as (t&ts'&->&Ht).
  cbn [app] in *. rewrite <- app_assoc in *. cbn [app] in *. rewrite <- app_assoc in *. rewrite Eh in *.
  apply (loop_go m _ acc (acc ++ [mkEntry k v false]) _ (before (h :: hs))).
  - unfold entry_round. step. rewrite tok_is_true by done. over (c :: t :: ts'). step.
    rewrite tok_is_false by (intros E; by rewrite E in Ht). over (t :: ts'). step.
    rewrite tok_is_false by (intros E; by rewrite E in Ht).
    eapply reads_then; [apply (key_value_ok (t :: ts') fk k colon vs fv v n h hs); [done..|len|done|plain]|].
    intros z. apply reads_done.
  - intros us' [z ->]. rewrite <- Eh.
    replace (acc ++ mkEntry k v false :: es) with ((acc ++ [mkEntry k v false]) ++ es) by by rewrite <- app_assoc.
    apply Husok; [len|len|done|]. rewrite Eh. plain.
Qed.

Lemma entries_spread_ok (c dots : Token) (ts : list Token) (f : Type_ -> bool) (e : Expression)
    (us : list Token) (es : list DictEntry) :
  tok_Type c = T_Comma -> tok_Type dots = T_Ellipsis -> writes lowest f ts e -> writes_ok lowest f ts e ->
  entries us es -> entries_ok us es ->
  entries_ok (c :: dots :: ts ++ us) (mkEntry NilExpression e true :: es).
Proof.
  intros Hc Hd He Heok Hus Husok n m x r rest acc Hn Hm Hr Hp.
  destruct m as [|m]; [cbn in Hm; lia|].
  destruct (entries_head us es r rest Hus Hr) as (h&hs&Eh&Hh&_).
  cbn [app] in *. rewrite <- app_assoc in *. rewrite Eh in *.
  apply (loop_go m _ acc (acc ++ [mkEntry NilExpression e true]) _ (before (h :: hs))).
  - unfold entry_round. step. rewrite tok_is_true by done. over (c :: dots :: ts). step.
    rewrite tok_is_false by congruence. over (dots :: ts). step. rewrite tok_is_true by done. unfold spread_entry.
    eapply reads_then; [apply (reads_last _ (fun e => mkEntry NilExpression e true)); eapply (whole_next f);
                        [exact He|exact Heok|len|done|plain]|].
    intros z. apply reads_done.
  - intros us' [z ->]. rewrite <- Eh.
    replace (acc ++ mkEntry NilExpression e true :: es) with ((acc ++ [mkEntry NilExpression e true]) ++ es)
      by by rewrite <- app_assoc.
    apply Husok; [len|len|done|]. rewrite Eh. plain.
Qed.

Lemma empty_list_ok (o c : Token) :
  tok_Type o = T_LBracket -> tok_Type c = T_RBracket -> operand_ok anything [o; c] (ListLiteral o [] false c).
Proof.
  intros Ho Hc n r rest _ _ _. unfold parsePrefix. cbn [app]. step. rewrite Ho. unfold parseListLiteral.
  step. step. rewrite tok_is_true by done. step. step. apply reads_done.
Qed.
Lemma empty_dict_ok (o c : Token) :
  tok_Type o = T_LBrace -> tok_Type c = T_RBrace -> operand_ok anything [o; c] (DictLiteral o [] c).
Proof.
  intros Ho Hc n r rest _ _ _. unfold parsePrefix. cbn [app]. step. rewrite Ho. unfold parseDictLiteral.
  step. step. rewrite tok_is_true by done. step. step. apply reads_done.
Qed.

Lemma list_ok (o : Token) (ts : list Token) (e : Expression) (us : list Token) (es : list Expression) (c : Token) :
  tok_Type o = T_LBracket -> element ts e -> element_ok ts e -> elements us es -> elements_ok us es ->
  tok_Type c = T_RBracket -> operand_ok anything (o :: ts ++ us ++ [c]) (ListLiteral o (e :: es) false c).
Proof.
  intros Ho He Heok Hus Husok Hc n r rest Hn _ Hp. unfold parsePrefix.
  destruct (element_start ts e He) as (t&ts'&->&Ht&_).
  destruct (elements_head us es c (r :: rest) Hus ltac:(by left)) as (v&vs&Ev&Hv&Hfor&_).
  cbn [app] in *. rewrite <- !app_assoc in *. cbn [app] in *. rewrite Ev in *.
  step. rewrite Ho. unfold parseListLiteral. step. step. rewrite tok_is_false by done. over (t :: ts').
  eapply reads_then; [apply (Heok n v vs); [len|done|plain]|].
  intros z. step. rewrite tok_is_false by done. rewrite <- Ev.
  eapply reads_then.
  { unfold more_elements. rewrite <- Hc. apply (Husok n n z c (r :: rest) [e]); [len|len|by left|].
    rewrite Ev. plain. }
  intros z'. step. step. apply reads_done.
Qed.

Lemma set_ok (o : Token) (ts : list Token) (f : Type_ -> bool) (e : Expression) (us : list Token)
    (es : list Expression) (c : Token) :
  tok_Type o = T_LBrace -> writes lowest f ts e -> writes_ok lowest f ts e -> elements us es -> elements_ok us es ->
  tok_Type c = T_RBrace -> operand_ok anything (o :: ts ++ us ++ [c]) (SetLiteral o (e :: es) c).
Proof.
  intros Ho He Heok Hus Husok Hc n r rest Hn _ Hp. unfold parsePrefix.
  destruct (writes_start _ _ _ _ He) as (t&ts'&->&Ht).
  destruct (elements_head us es c (r :: rest) Hus ltac:(by right)) as (v&vs&Ev&Hv&Hfor&Hcolon).
  cbn [app] in *. rewrite <- !app_assoc in *. cbn [app] in *. rewrite Ev in *.
  step. rewrite Ho. unfold parseDictLiteral. step. step.
  rewrite tok_is_false by (intros E; by rewrite E in Ht). over (t :: ts'). step.
  rewrite tok_is_false by (intros E; by rewrite E in Ht).
  eapply reads_then; [eapply (whole_expression f (t :: ts')); [exact He|exact Heok|len|done|plain]|].
  intros z. step. rewrite tok_is_false by done. step. rewrite tok_is_false by done. cbn [negb].
  unfold continueSetLiteral. rewrite <- Ev.
  eapply reads_then.
  { unfold more_elements. rewrite <- Hc. apply (Husok n n z c (r :: rest) [e]); [len|len|by right|].
    rewrite Ev. plain. }
  intros z'. step. step. apply reads_done.
Qed.

Lemma dict_ok (o : Token) (ts : list Token) (fk : Type_ -> bool) (k : Expression) (colon : Token)
    (vs : list Token) (fv : Type_ -> bool) (v : Expression) (us : list Token) (es : list DictEntry) (c : Token) :
  tok_Type o = T_LBrace -> writes lowest fk ts k -> writes_ok lowest fk ts k -> tok_Type colon = T_Colon ->
  writes lowest fv vs v -> writes_ok lowest fv vs v -> entries us es -> entries_ok us es ->
  tok_Type c = T_RBrace ->
  operand_ok anything (o :: ts ++ colon :: vs ++ us ++ [c]) (DictLiteral o (mkEntry k v false :: es) c).
Proof.
  intros Ho Hk Hkok Hcolon Hv Hvok Hus Husok Hc n r rest Hn _ Hp. unfold parsePrefix.
  destruct (writes_start _ _ _ _ Hk) as (t&ts'&->&Ht).
  destruct (entries_head us es c (r :: rest) Hus Hc) as (h&hs&Eh&Hh&Hfor).
  cbn [app] in *. rewrite <- !app_assoc in *. cbn [app] in *. rewrite <- !app_assoc in *. cbn [app] in *.
  rewrite Eh in *.
  step. rewrite Ho. unfold parseDictLiteral. step. step.
  rewrite tok_is_false by (intros E; by rewrite E in Ht). over (t :: ts'). step.
  rewrite tok_is_false by (intros E; by rewrite E in Ht).
  eapply reads_then; [eapply (whole_expression fk (t :: ts')); [exact Hk|exact Hkok|len|by rewrite Hcolon|plain]|].
  intros z. step. rewrite tok_is_true by done. step. rewrite tok_is_false by congruence. cbn [negb].
  apply reads_expect_app; [done|].
  eapply reads_then; [eapply (whole_next fv); [exact Hv|exact Hvok|len|done|plain]|].
  intros z'. step. rewrite tok_is_false by done. unfold continueDictLiteral. rewrite <- Eh.
  eapply reads_then.
  { apply (Husok n n z' c (r :: rest) [mkEntry k v false]); [len|len|done|]. rewrite Eh. plain. }
  intros z2. step. step. apply reads_done.
Qed.

(** ** Arguments *)

Lemma comma_or_paren_closes (t : Type_) : t = T_Comma \/ t = T_RParen -> closes t = true /\ t <> T_Colon.
Proof. by intros [-> | ->]. Qed.

Lemma argument_plain_ok (ts : list Token) (f : Type_ -> bool) (e : Expression) :
  writes lowest f ts e -> writes_ok lowest f ts e -> argument_ok ts (mkArgument None e false (is_hole e)).
Proof.
  intros Hw Hok n r rest Hn Hr Hp. apply comma_or_paren_closes in Hr as [Hr Hcolon].
  pose proof (reads_last _ (fun e => mkArgument None e false (is_hole e)) _ _ _
                (whole_expression f ts e n r rest Hw Hok Hn Hr Hp)) as Hlast.
  destruct (writes_start _ _ _ _ Hw) as (t&ts'&->&Ht).
  pose proof (shape_second _ _ _ (writes_shape _ _ _ _ Hw) t) as Hsecond.
  assert (exists u us, ts' ++ r :: rest = u :: us /\
            (tok_Type t = T_Ident -> tok_Type u <> T_Colon)) as (u&us&Eu&Hu).
  { destruct ts' as [|u ts']; [by exists r, rest|]. exists u, (ts' ++ r :: rest). split; [done|].
    intros Hi Hcol. specialize (Hsecond u ts' eq_refl Hi). rewrite Hcol in Hsecond. by apply Nat.lt_irrefl in Hsecond. }
  cbn [app] in *. rewrite Eu in *. unfold parse_argument. step. step.
  rewrite tok_is_false by (intros E; by rewrite E in Ht).
  destruct (tok_is t T_Ident && tok_is u T_Colon) eqn:E; [|exact Hlast].
  apply andb_true_iff in E as [E1 E2]. apply bool_decide_eq_true in E1, E2. by apply Hu in E1.
Qed.

Lemma argument_named_ok (name colon : Token) (ts : list Token) (f : Type_ -> bool) (e : Expression) :
  tok_Type name = T_Ident -> tok_Type colon = T_Colon -> writes lowest f ts e -> writes_ok lowest f ts e ->
  argument_ok (name :: colon :: ts) (mkArgument (Some (ident_of name)) e false (is_hole e)).
Proof.
  intros Hname Hcolon Hw Hok n r rest Hn Hr Hp. apply comma_or_paren_closes in Hr as [Hr _].
  unfold parse_argument. cbn [app]. step. step. rewrite tok_is_false by congruence.
  rewrite !tok_is_true by done. cbn [andb]. over (colon :: ts).
  apply (reads_last _ (fun e => mkArgument (Some (ident_of name)) e false (is_hole e))).
  eapply (whole_next f); [done..|len|done|plain].
Qed.

Lemma argument_spread_ok (dots : Token) (ts : list Token) (f : Type_ -> bool) (e : Expression) :
  tok_Type dots = T_Ellipsis -> writes lowest f ts e -> writes_ok lowest f ts e ->
  argument_ok (dots :: ts) (mkArgument None e true (is_hole e)).
Proof.
  intros Hdots Hw Hok n r rest Hn Hr Hp. apply comma_or_paren_closes in Hr as [Hr _].
  unfold parse_argument. cbn [app]. step.
  destruct (writes_start _ _ _ _ Hw) as (t&ts'&->&Ht). cbn [app]. step. rewrite tok_is_true by done.
  apply (reads_last _ (fun e => mkArgument None e true (is_hole e))).
  eapply (whole_next f (t :: ts')); [done..|len|done|plain].
Qed.

Lemma argument_start (ts : list Token) (a : CallArgument) :
  argument ts a -> exists t us, ts = t :: us /\ tok_Type t <> T_RParen.
Proof.
  intros Ha. destruct Ha as [ts f e Hw|name colon ts f e Hname|dots ts f e Hd].
  - destruct (writes_start _ _ _ _ Hw) as (t&us&->&Ht). exists t, us. split; [done|]. intros E. by rewrite E in Ht.
  - eexists name, _. split; [done|]. by rewrite Hname.
  - eexists dots, _. split; [done|]. by rewrite Hd.
Qed.

Lemma some_arguments_start (ts : list Token) (args : list CallArgument) :
  some_arguments ts args -> exists t us, ts = t :: us /\ tok_Type t <> T_RParen.
Proof.
  intros Ha. destruct Ha as [ts a Ha|ts a comma us args Ha Hc Hus].
  - by apply argument_start in Ha.
  - apply argument_start in Ha as (t&us'&->&Ht). by eexists t, _.
Qed.

Lemma arguments_last_ok (ts : list Token) (a : CallArgument) :
  argument ts a -> argument_ok ts a -> some_arguments_ok ts [a].
Proof.
  intros Ha Hok. destruct (argument_start _ _ Ha) as (t&ts'&->&_). split; [done|].
  intros n m x r rest acc Hn Hm Hr Hp. destruct m as [|m]; [cbn in Hm; lia|].
  apply loop_stop. unfold argument_round. over (t :: ts').
  eapply reads_then; [apply (Hok n r rest); [done|by right|done]|].
  intros z. step. rewrite tok_is_false by congruence. apply reads_done.
Qed.
Lemma arguments_more_ok (ts : list Token) (a : CallArgument) (comma : Token) (us : list Token)
    (args : list CallArgument) :
  argument ts a -> argument_ok ts a -> tok_Type comma = T_Comma -> some_arguments_ok us args ->
  some_arguments_ok (ts ++ comma :: us) (a :: args).
Proof.
  intros Ha Hok Hc [Hus Husok]. destruct (argument_start _ _ Ha) as (t&ts'&->&_). split; [done|].
  intros n m x r rest acc Hn Hm Hr Hp. destruct m as [|m]; [cbn in Hm; lia|].
  rewrite <- !app_assoc in *. cbn [app] in *.
  apply (loop_go m _ acc (acc ++ [a]) _ (before (us ++ r :: rest))).
  - unfold argument_round. over (t :: ts').
    eapply reads_then; [apply (Hok n comma (us ++ r :: rest)); [len|by left|done]|].
    intros z. step. rewrite tok_is_true by done. over (comma :: us). apply reads_return. by eexists.
  - intros us' [z ->]. replace (acc ++ a :: args) with ((acc ++ [a]) ++ args) by by rewrite <- app_assoc.
    apply Husok; [len|len|done|plain].
Qed.

Lemma arguments_none_ok : arguments_ok [] [].
Proof.
  intros n x c r rest _ Hc _. unfold parseCallArguments. cbn [app]. step. rewrite tok_is_true by done.
  step. by apply reads_return.
Qed.
Lemma arguments_some_ok (ts : list Token) (args : list CallArgument) :
  some_arguments ts args -> some_arguments_ok ts args -> arguments_ok ts args.
Proof.
  intros Hs [_ Hok] n x c r rest Hn Hc Hp. unfold parseCallArguments.
  pose proof (some_arguments_start _ _ Hs) as (t&ts'&->&Ht).
  cbn [app]. step. rewrite tok_is_false by done.
  eapply reads_then; [apply (Hok n n x c (r :: rest) []); [len|len|done|done]|].
  intros z. apply reads_expect; [done|]. by apply reads_return.
Qed.

(** ** Suffixes *)

(** What [parseInfix] does at an operator that is no compound assignment. *)
Lemma reads_infix (n : nat) (l : Expression) (op : Token) (ts : list Token) (post : list Token -> Prop) (e : Expression) :
  compound_operator (tok_Type op) = None -> tok_Type op <> T_LT ->
  reads (match tok_Type op with
         | T_Dot => parse_selector l false
         | T_OptionalChain => parse_selector l true
         | T_LParen => parseCallExpression n (parseExpression n) l
         | T_LBracket => parseIndexExpression (parseExpression n) l
         | T_Assign =>
             do_ nextToken; let_ value <- parseExpression n (assign - 1)%nat; ret (AssignmentExpression op l value)
         | T_Inc | T_Dec => ret (PostfixExpression op l (Literal op))
         | T_As => do_ nextToken; let_ ty <- parseTypeRefFromCurrent n; ret (CastExpression op l ty false)
         | T_Range => parse_range (parseExpression n) l false
         | T_RangeExcl => parse_range (parseExpression n) l true
         | T_Question => parseTernaryExpression (parseExpression n) l
         | T_Pipe => do_ nextToken; let_ right <- parseExpression n pipe; ret (PipeExpression op l right)
         | _ => parseDefaultInfix n (parseExpression n) l
         end) (op :: ts) post e ->
  reads (parseInfix n (parseExpression n) l) (op :: ts) post e.
Proof.
  intros Hc Hlt Hr. unfold parseInfix. apply reads_get. intros q Hq. rewrite (cur_at q op ts Hq), Hc.
  destruct (tok_Type op); done.
Qed.

Lemma binary_ok (l : Expression) (op : Token) (us : list Token) (f : Type_ -> bool) (r : Expression) :
  is_binary (tok_Type op) = true -> writes (right_level (tok_Type op)) f us r ->
  writes_ok (right_level (tok_Type op)) f us r ->
  suffix_ok (right_edge (right_level (tok_Type op)) f) l op us (InfixExpression op l (Literal op) r None false).
Proof.
  intros Hop Hw Hok n k rest Hn Hk Hp.
  assert (Hdefault : reads (parseDefaultInfix n (parseExpression n) l) (op :: us ++ k :: rest) (before (k :: rest))
                       (InfixExpression op l (Literal op) r None false)).
  { pose proof (expression_of_writes _ _ f us r Hok (le_n _) n k rest Hn Hk ltac:(plain)) as Hright.
    destruct (writes_start _ _ _ _ Hw) as (t&us'&->&Ht). unfold parseDefaultInfix. cbn [app]. step. step.
    rewrite (tok_is_false t T_Not) by (intros E; by rewrite E in Ht). rewrite andb_false_r.
    eapply (reads_seq _ _ _ (eq _)); [by apply reads_return|]. intros ? <-.
    rewrite tok_is_false by (intros E; by rewrite E in Hop). over (t :: us').
    replace (if tok_is op T_Power then (precedence_of (tok_Type op) - 1)%nat else precedence_of (tok_Type op))
      with (right_level (tok_Type op)) by (unfold tok_is; by destruct (tok_Type op)).
    apply (reads_last _ (fun r => InfixExpression op l (Literal op) r None false)). exact Hright. }
  destruct (decide (tok_Type op = T_LT)) as [Elt|Elt].
  - unfold parseInfix. apply reads_get. intros q Hq. rewrite (cur_at q op _ Hq), Elt. cbn [compound_operator].
    unfold looksLikeGenericCallTypeArgs. rewrite (types_from_peek q op _ Hq), (Hp [] op _ eq_refl Elt).
    rewrite !andb_false_r. exact Hdefault.
  - apply reads_infix; [by destruct (tok_Type op)|done|].
    destruct (tok_Type op); try discriminate; exact Hdefault.
Qed.

Lemma is_not_ok (l : Expression) (op no : Token) (us : list Token) (f : Type_ -> bool) (r : Expression) :
  tok_Type op = T_Is -> tok_Type no = T_Not -> writes (level T_Is) f us r -> writes_ok (level T_Is) f us r ->
  suffix_ok (right_edge (level T_Is) f) l op (no :: us) (InfixExpression op l (bs "is not") r None false).
Proof.
  intros Hop Hno Hw Hok n k rest Hn Hk Hp. apply reads_infix; [by rewrite Hop|by rewrite Hop|]. rewrite Hop.
  pose proof (expression_of_writes _ (level T_Is) f us r Hok (le_n _) n k rest ltac:(len) Hk ltac:(plain)) as Hright.
  destruct (writes_start _ _ _ _ Hw) as (t&us'&->&Ht). unfold parseDefaultInfix. cbn [app]. step. step.
  rewrite (tok_is_true op T_Is), (tok_is_true no T_Not) by done. cbn [andb].
  over (no :: t :: us'). rewrite (tok_is_false op T_InstanceOf), (tok_is_false op T_Power) by congruence.
  over (t :: us'). rewrite Hop.
  apply (reads_last _ (fun r => InfixExpression op l (bs "is not") r None false)). exact Hright.
Qed.

Lemma instanceof_ok (l : Expression) (op : Token) (ts : list Token) (t : TypeRef) :
  tok_Type op = T_InstanceOf -> type_text ts t ->
  suffix_ok after_type l op ts
    (InfixExpression op l (Literal op) (Ident (mkIdent op (TypeRef_String t))) (Some t) false).
Proof.
  intros Hop Ht n k rest Hn Hk Hp. apply reads_infix; [by rewrite Hop|by rewrite Hop|]. rewrite Hop.
  pose proof (reads_type ts t n k rest Ht Hn Hk) as Htype.
  destruct (type_text_cons _ _ Ht) as (u&us&->). unfold parseDefaultInfix. cbn [app]. step. step.
  rewrite (tok_is_false op T_Is), (tok_is_true op T_InstanceOf) by congruence. cbn [andb].
  eapply (reads_seq _ _ _ (eq _)); [by apply reads_return|]. intros ? <-. over (u :: us).
  apply (reads_last _ (fun t => InfixExpression op l (Literal op) (Ident (mkIdent op (TypeRef_String t))) (Some t) false)).
  exact Htype.
Qed.
Lemma cast_ok (l : Expression) (op : Token) (ts : list Token) (t : TypeRef) :
  tok_Type op = T_As -> type_text ts t -> suffix_ok after_type l op ts (CastExpression op l t false).
Proof.
  intros Hop Ht n k rest Hn Hk Hp. apply reads_infix; [by rewrite Hop|by rewrite Hop|]. rewrite Hop.
  pose proof (reads_type ts t n k rest Ht Hn Hk) as Htype.
  destruct (type_text_cons _ _ Ht) as (u&us&->). over (u :: us).
  apply (reads_last _ (fun t => CastExpression op l t false)). exact Htype.
Qed.

(** An operator whose right operand is read at level [q]. *)
Lemma right_ok (q : nat) (op : Token) (us : list Token) (f : Type_ -> bool) (r : Expression)
    (g : Expression -> Expression) (n : nat) (k : Token) (rest : list Token) :
  writes q f us r -> writes_ok q f us r -> (2 * length us < n)%nat -> right_edge q f (tok_Type k) = true ->
  plain_lt (op :: us ++ k :: rest) ->
  reads (do_ nextToken; let_ right <- parseExpression n q; ret (g right)) (op :: us ++ k :: rest)
    (before (k :: rest)) (g r).
Proof.
  intros Hw Hok Hn Hk Hp.
  pose proof (expression_of_writes _ q f us r Hok (le_n _) n k rest Hn Hk ltac:(plain)) as Hright.
  destruct (writes_start _ _ _ _ Hw) as (t&us'&->&Ht). over (t :: us'). by apply reads_last.
Qed.

Lemma assign_ok (l : Expression) (op : Token) (us : list Token) (f : Type_ -> bool) (v : Expression) :
  tok_Type op = T_Assign -> writes lowest f us v -> writes_ok lowest f us v ->
  suffix_ok (right_edge lowest f) l op us (AssignmentExpression op l v).
Proof.
  intros Hop Hw Hok n k rest Hn Hk Hp. apply reads_infix; [by rewrite Hop|by rewrite Hop|]. rewrite Hop.
  by apply (right_ok lowest op us f v (AssignmentExpression op l)).
Qed.
Lemma pipe_ok (l : Expression) (op : Token) (us : list Token) (f : Type_ -> bool) (r : Expression) :
  tok_Type op = T_Pipe -> writes (level T_Pipe) f us r -> writes_ok (level T_Pipe) f us r ->
  suffix_ok (right_edge (level T_Pipe) f) l op us (PipeExpression op l r).
Proof.
  intros Hop Hw Hok n k rest Hn Hk Hp. apply reads_infix; [by rewrite Hop|by rewrite Hop|]. rewrite Hop.
  by apply (right_ok (level T_Pipe) op us f r (PipeExpression op l)).
Qed.
Lemma compound_ok (l : Expression) (op : Token) (us : list Token) (f : Type_ -> bool) (v : Expression)
    (ty : Type_) (lit : gostring) :
  compound_operator (tok_Type op) = Some (ty, lit) -> writes lowest f us v -> writes_ok lowest f us v ->
  suffix_ok (right_edge lowest f) l op us
    (AssignmentExpression op l (InfixExpression (operator_token_at op ty lit) l lit v None false)).
Proof.
  intros Hop Hw Hok n k rest Hn Hk Hp. unfold parseInfix. apply reads_get. intros q Hq.
  rewrite (cur_at q op _ Hq), Hop. unfold parseCompoundAssignment. step.
  by apply (right_ok lowest op us f v
    (fun v => AssignmentExpression op l (InfixExpression (operator_token_at op ty lit) l lit v None false))).
Qed.

Lemma postfix_ok (l : Expression) (op : Token) :
  tok_Type op = T_Inc \/ tok_Type op = T_Dec -> suffix_ok anything l op [] (PostfixExpression op l (Literal op)).
Proof.
  intros Hop n k rest _ _ _. apply reads_infix; [by destruct Hop as [-> | ->]..|].
  destruct Hop as [-> | ->]; apply reads_done.
Qed.
Lemma selector_ok (l : Expression) (op name : Token) :
  tok_Type op = T_Dot \/ tok_Type op = T_OptionalChain -> isIdentifierNameToken (tok_Type name) = true ->
  suffix_ok anything l op [name]
    (SelectorExpression name l (ident_of name) (bool_decide (tok_Type op = T_OptionalChain)) false).
Proof.
  intros Hop Hname n k rest _ _ _. apply reads_infix; [by destruct Hop as [-> | ->]..|].
  cbn [app]. destruct Hop as [-> | ->]; unfold parse_selector; step; step; apply reads_done.
Qed.

Lemma call_ok (l : Expression) (op : Token) (ts : list Token) (args : list CallArgument) (c : Token)
    (e : Expression) :
  tok_Type op = T_LParen -> arguments_ok ts args -> tok_Type c = T_RParen ->
  (forall us, reads (buildCallOrPartial l [] args op c) us (eq us) e) ->
  suffix_ok anything l op (ts ++ [c]) e.
Proof.
  intros Hop Hok Hc Hbuild n k rest Hn _ Hp. apply reads_infix; [by rewrite Hop|by rewrite Hop|]. rewrite Hop.
  rewrite <- app_assoc in *. cbn [app] in *. unfold parseCallExpression, parse_call. step.
  eapply reads_seq; [apply (Hok n op c k rest); [len|done|plain]|].
  intros us <-. step. intros p Hpt. destruct (Hbuild _ p Hpt) as (p'&us&E&Hp'&<-&He).
  exists p', (c :: k :: rest). split_and!; [done..| |done]. by eexists.
Qed.
Lemma build_call (l : Expression) (op : Token) (args : list CallArgument) (c : Token) (us : list Token) :
  existsb arg_hole args = false ->
  reads (buildCallOrPartial l [] args op c) us (eq us) (CallExpression op [] l args c).
Proof. intros Hh. unfold buildCallOrPartial. rewrite Hh. by apply reads_return. Qed.
Lemma build_partial (l : Expression) (op : Token) (args : list CallArgument) (c : Token) (us : list Token) :
  existsb arg_hole args = true -> existsb arg_spread args = false ->
  reads (buildCallOrPartial l [] args op c) us (eq us) (PartialExpression op [] l args c).
Proof.
  intros Hh Hs. unfold buildCallOrPartial. rewrite Hh, Hs.
  eapply (reads_seq _ _ _ (eq us)); [by apply reads_return|]. intros ? <-. by apply reads_return.
Qed.

Lemma starts_subscript (t : Type_) :
  starts_expression t = true ->
  t <> T_Range /\ t <> T_RangeExcl /\ t <> T_RBracket /\ t <> T_Colon /\ t <> T_RParen /\ t <> T_By.
Proof. by destruct t. Qed.

Lemma index_ok (l : Expression) (op : Token) (us : list Token) (f : Type_ -> bool) (i : Expression) (c : Token) :
  tok_Type op = T_LBracket -> writes lowest f us i -> writes_ok lowest f us i -> tok_Type c = T_RBracket ->
  suffix_ok anything l op (us ++ [c]) (IndexExpression op l i).
Proof.
  intros Hop Hw Hok Hc n k rest Hn _ Hp. apply reads_infix; [by rewrite Hop|by rewrite Hop|]. rewrite Hop.
  rewrite <- app_assoc in *. cbn [app] in *.
  pose proof (whole_next f us i n op c (k :: rest) Hw Hok ltac:(len) ltac:(by rewrite Hc) ltac:(plain)) as Hi.
  destruct (writes_start _ _ _ _ Hw) as (t&us'&->&Ht).
  apply starts_subscript in Ht as (?&?&?&?&_). unfold parseIndexExpression. cbn [app] in *. step. step. decide_token.
  eapply reads_then; [exact Hi|]. intros z. step. rewrite tok_is_false by congruence. step. apply reads_done.
Qed.

(** The end and the step of a slice. *)
Lemma slice_head (ws : list Token) (st : Expression) (c : Token) (rest : list Token) :
  slice_step_ok ws st -> tok_Type c = T_RBracket ->
  exists v vs, ws ++ c :: rest = v :: vs /\ (tok_Type v = T_Colon \/ tok_Type v = T_RBracket).
Proof.
  intros [Hws _] Hc. destruct ws as [|v ws]; [by exists c, rest; auto|].
  exists v, (ws ++ c :: rest). split; [done|]. left. by eapply Hws.
Qed.
Lemma slice_tail_ok (l : Expression) (op : Token) (s : Expression) (colon : Token) (vs : list Token)
    (e : Expression) (ws : list Token) (st : Expression) (c : Token) (n : nat) (z k : Token) (rest : list Token) :
  optional_ok vs e -> slice_step_ok ws st -> tok_Type c = T_RBracket ->
  (2 * length (vs ++ ws ++ [c]) < n)%nat -> plain_lt (vs ++ ws ++ c :: k :: rest) ->
  reads (parse_slice (parseExpression n) op l s) (z :: colon :: vs ++ ws ++ c :: k :: rest) (before (k :: rest))
    (IndexExpression op l (RangeExpression colon s e true st)).
Proof.
  intros Hvs Hws Hc Hn Hp. destruct (slice_head ws st c (k :: rest) Hws Hc) as (v&vs'&Ev&Hv).
  assert (Hclose : closes (tok_Type v) = true) by by destruct Hv as [-> | ->].
  assert (Hstep : forall z, reads
            (let_ step <- parseOptionalSliceStep (parseExpression n);
             do_ expectPeek T_RBracket;
             ret (IndexExpression op l (RangeExpression colon s e true step))) (z :: ws ++ c :: k :: rest)
            (before (k :: rest)) (IndexExpression op l (RangeExpression colon s e true st))).
  { intros z'. eapply reads_then; [apply Hws; [len|done|plain]|]. intros z2. step. apply reads_done. }
  unfold parse_slice. rewrite Ev in *. over (colon :: vs). step.
  destruct Hvs as [[-> ->]|[(t&vs2&->&Ht) Hread]]; cbn [app].
  - step. eapply (reads_seq _ _ _ (eq _)).
    + replace (tok_is v T_RBracket || tok_is v T_Colon) with true; [by apply reads_return|].
      destruct Hv as [Hv|Hv]; [rewrite (tok_is_true v T_Colon) by done|by rewrite (tok_is_true v T_RBracket) by done].
      by rewrite orb_true_r.
    + intros ? <-. apply Hstep.
  - step. apply starts_subscript in Ht as (_&_&?&?&_). decide_token.
    eapply reads_then; [apply (Hread n colon v vs'); [len|done|plain]|]. intros z'. apply Hstep.
Qed.

Lemma slice_ok (l : Expression) (op : Token) (us : list Token) (s : Expression) (colon : Token) (vs : list Token)
    (e : Expression) (ws : list Token) (st : Expression) (c : Token) :
  tok_Type op = T_LBracket -> optional_ok us s -> tok_Type colon = T_Colon -> optional_ok vs e ->
  slice_step_ok ws st -> tok_Type c = T_RBracket ->
  suffix_ok anything l op (us ++ colon :: vs ++ ws ++ [c])
    (IndexExpression op l (RangeExpression colon s e true st)).
Proof.
  intros Hop Hus Hcolon Hvs Hws Hc n k rest Hn _ Hp. apply reads_infix; [by rewrite Hop|by rewrite Hop|]. rewrite Hop.
  rewrite <- !app_assoc in *. cbn [app] in *. rewrite <- !app_assoc in *. cbn [app] in *.
  assert (Htail : forall s z, reads (parse_slice (parseExpression n) op l s)
            (z :: colon :: vs ++ ws ++ c :: k :: rest) (before (k :: rest))
            (IndexExpression op l (RangeExpression colon s e true st))).
  { intros s' z. apply slice_tail_ok; [done..|len|plain]. }
  unfold parseIndexExpression. step. destruct Hus as [[-> ->]|[(t&us2&->&Ht) Hread]]; cbn [app].
  - step. decide_token. apply Htail.
  - step. apply starts_subscript in Ht as (?&?&?&?&_). decide_token.
    eapply reads_then; [apply (Hread n op colon); [len|by rewrite Hcolon|plain]|].
    intros z. step. decide_token. apply Htail.
Qed.

Lemma no_step_ok : slice_step_ok [] NilExpression.
Proof.
  split; [done|]. intros n x r rest _ Hr _. unfold parseOptionalSliceStep. cbn [app]. step. decide_token.
  apply reads_done.
Qed.
Lemma a_step_ok (colon : Token) (ts : list Token) (e : Expression) :
  tok_Type colon = T_Colon -> optional_ok ts e -> slice_step_ok (colon :: ts) e.
Proof.
  intros Hcolon Hts. split; [by intros t us [= <- _]|]. intros n x r rest Hn Hr Hp.
  unfold parseOptionalSliceStep. cbn [app]. step. decide_token. over (colon :: ts).
  destruct Hts as [[-> ->]|[(t&ts2&->&Ht) Hread]]; cbn [app].
  - step. decide_token. apply reads_done.
  - step. apply starts_subscript in Ht as (_&_&?&_). decide_token.
    apply (Hread n colon); [len|by rewrite Hr|plain].
Qed.
Lemma optional_some_ok (ts : list Token) (f : Type_ -> bool) (e : Expression) :
  writes lowest f ts e -> writes_ok lowest f ts e -> optional_ok ts e.
Proof.
  intros Hw Hok. right. split; [by eapply shape_first, writes_shape|]. intros n x r rest Hn Hr Hp.
  by eapply whole_next.
Qed.

(** ** Ranges and conditionals *)

Lemma range_op (op : Type_) : op = T_Range \/ op = T_RangeExcl -> compound_operator op = None /\ op <> T_LT.
Proof. by intros [-> | ->]. Qed.

(** [parse_range] at either operator. *)
Lemma reads_range (n : nat) (l : Expression) (op : Token) (ts : list Token) (post : list Token -> Prop) (e : Expression) :
  tok_Type op = T_Range \/ tok_Type op = T_RangeExcl ->
  reads (parse_range (parseExpression n) l (bool_decide (tok_Type op = T_RangeExcl))) (op :: ts) post e ->
  reads (parseInfix n (parseExpression n) l) (op :: ts) post e.
Proof.
  intros Hop Hr. apply reads_infix; [by apply range_op..|]. by destruct Hop as [E|E]; rewrite E in *.
Qed.

(** The end of a range, read at the level of a comparison. *)
Lemma range_end (op : Token) (us : list Token) (f : Type_ -> bool) (e : Expression) (n : nat) (k : Token)
    (rest : list Token) {B : Type} (h : Expression -> M B) (post : list Token -> Prop) (b : B) :
  writes (level T_Range) f us e -> writes_ok (level T_Range) f us e -> (2 * length us < n)%nat ->
  right_edge (level T_Range) f (tok_Type k) = true -> plain_lt (us ++ k :: rest) ->
  (forall z, reads (h e) (z :: k :: rest) post b) ->
  reads (let_ next <- peek;
         let_ stop <- (if tok_is next T_RBracket || tok_is next T_RParen || tok_is next T_By
                     then ret NilExpression else (do_ nextToken; parseExpression n compare));
         h stop) (op :: us ++ k :: rest) post b.
Proof.
  intros Hw Hok Hn Hk Hp Hh.
  pose proof (expression_of_writes _ (level T_Range) f us e Hok (le_n _) n k rest Hn Hk Hp) as He.
  destruct (writes_start _ _ _ _ Hw) as (t&us'&->&Ht). apply starts_subscript in Ht as (_&_&?&_&?&?).
  cbn [app]. step. decide_token. eapply reads_then; [|exact Hh]. over (t :: us'). exact He.
Qed.

Lemma range_ok (l : Expression) (op : Token) (us : list Token) (f : Type_ -> bool) (e : Expression) :
  tok_Type op = T_Range \/ tok_Type op = T_RangeExcl -> writes (level T_Range) f us e -> writes_ok (level T_Range) f us e ->
  suffix_ok (not_by (right_edge (level T_Range) f)) l op us
    (RangeExpression op l e (bool_decide (tok_Type op = T_RangeExcl)) NilExpression).
Proof.
  intros Hop Hw Hok n k rest Hn Hk Hp. apply reads_range; [done|].
  apply andb_true_iff in Hk as [Hk Hby]. apply negb_true_iff, bool_decide_eq_false in Hby.
  unfold parse_range. step. eapply range_end; [exact Hw|exact Hok|done|done|plain|].
  intros z. step. decide_token. eapply (reads_seq _ _ _ (eq _)); [by apply reads_return|].
  intros ? <-. apply reads_done.
Qed.

Lemma range_by_ok (l : Expression) (op : Token) (us : list Token) (f : Type_ -> bool) (e : Expression)
    (by_ : Token) (vs : list Token) (g : Type_ -> bool) (st : Expression) :
  tok_Type op = T_Range \/ tok_Type op = T_RangeExcl -> writes (level T_Range) f us e -> writes_ok (level T_Range) f us e ->
  tok_Type by_ = T_By -> f T_By = true -> writes (level T_Range) g vs st -> writes_ok (level T_Range) g vs st ->
  suffix_ok (right_edge (level T_Range) g) l op (us ++ by_ :: vs)
    (RangeExpression op l e (bool_decide (tok_Type op = T_RangeExcl)) st).
Proof.
  intros Hop Hw Hok Hby Hf Hv Hvok n k rest Hn Hk Hp. apply reads_range; [done|].
  rewrite <- app_assoc in *. cbn [app] in *.
  pose proof (expression_of_writes _ (level T_Range) g vs st Hvok (le_n _) n k rest ltac:(len) Hk ltac:(plain)) as Hst.
  unfold parse_range. step.
  eapply range_end; [exact Hw|exact Hok|len|by unfold right_edge; rewrite Hby, Hf|plain|].
  intros z. step. decide_token.
  eapply reads_then; [|intros z'; apply reads_done].
  over (by_ :: vs). destruct (writes_start _ _ _ _ Hv) as (t&vs'&->&_). over (t :: vs'). exact Hst.
Qed.

Lemma ternary_ok (l : Expression) (op : Token) (us : list Token) (f : Type_ -> bool) (a : Expression)
    (colon : Token) (vs : list Token) (g : Type_ -> bool) (b : Expression) :
  tok_Type op = T_Question -> writes lowest f us a -> writes_ok lowest f us a -> tok_Type colon = T_Colon ->
  writes lowest g vs b -> writes_ok lowest g vs b ->
  suffix_ok (right_edge lowest g) l op (us ++ colon :: vs) (TernaryExpression op l a b false).
Proof.
  intros Hop Hw Hok Hcolon Hv Hvok n k rest Hn Hk Hp. apply reads_infix; [by rewrite Hop|by rewrite Hop|].
  rewrite Hop. rewrite <- app_assoc in *. cbn [app] in *.
  pose proof (expression_of_writes _ lowest g vs b Hvok (le_n _) n k rest ltac:(len) Hk ltac:(plain)) as Hb.
  unfold parseTernaryExpression. step.
  eapply reads_then; [eapply (whole_next f); [exact Hw|exact Hok|len|by rewrite Hcolon|plain]|].
  intros z. apply reads_expect_app; [done|].
  destruct (writes_start _ _ _ _ Hv) as (t&vs'&->&_).
  apply (reads_last _ (fun e => TernaryExpression op l a e false)). over (t :: vs'). exact Hb.
Qed.

(** ** The climbing loop *)

Lemma prefix_then_climb (p : nat) (f : Type_ -> bool) (ts : list Token) (e : Expression) :
  operand f ts e -> operand_ok f ts e -> writes_ok p f ts e.
Proof.
  intros Hop Hok n q r rest post b Hn Hq Hr Hp Hk.
  pose proof (writes_shape p f ts e (writes_operand _ _ _ _ Hop)) as [Hfirst Hnil _ _].
  unfold parse_expression_body. eapply reads_then; [by apply Hok|].
  intros z. rewrite Hnil. apply Hk. destruct Hfirst as (t&us&->&_). cbn [length]. lia.
Qed.
Lemma lowest_ends (t : Type_) : (lowest < level t)%nat -> ends_expression t = false.
Proof. intros Ht. destruct (ends_expression t) eqn:E; [|done]. apply ends_expression_lowest in E. lia. Qed.
Lemma climb_on (p : nat) (fl f : Type_ -> bool) (ts : list Token) (l : Expression) (op : Token)
    (us : list Token) (e : Expression) :
  writes_ok p fl ts l -> fl (tok_Type op) = true -> (lowest <= p < level (tok_Type op))%nat ->
  suffix f l op us e -> suffix_ok f l op us e -> writes_ok p f (ts ++ op :: us) e.
Proof.
  intros Hl Hfl Hprec Hs Hsok n q r rest post b Hn Hq Hr Hp Hk.
  assert (Hnil : is_nil e = false) by by eapply writes_shape_mutual.
  rewrite <- app_assoc in *. cbn [app] in *.
  apply (Hl n q op (us ++ r :: rest)); [len|done|done|done|].
  intros z m Hm. destruct m as [|m]; [len|].
  apply (loop_go m _ l e _ (before (r :: rest))).
  - unfold climb_round. step. rewrite lowest_ends, level_precedence by lia.
    rewrite (proj2 (Nat.ltb_lt _ _)) by lia. cbn [negb andb]. over (op :: us).
    eapply reads_then; [apply (Hsok n r rest); [len|done|plain]|]. intros z'. rewrite Hnil. apply reads_done.
  - intros us' [z' ->]. apply Hk. len.
Qed.

Theorem parser_reads_grammar :
  (forall p f ts e, writes p f ts e -> writes_ok p f ts e) /\
  (forall f ts e, operand f ts e -> operand_ok f ts e) /\
  (forall f l op ts e, suffix f l op ts e -> suffix_ok f l op ts e) /\
  (forall ts a, argument ts a -> argument_ok ts a) /\
  (forall ts a, some_arguments ts a -> some_arguments_ok ts a) /\
  (forall ts a, arguments ts a -> arguments_ok ts a) /\
  (forall ts a, element ts a -> element_ok ts a) /\
  (forall ts a, elements ts a -> elements_ok ts a) /\
  (forall ts a, entries ts a -> entries_ok ts a) /\
  (forall ts a, optional ts a -> optional_ok ts a) /\
  (forall ts a, slice_step ts a -> slice_step_ok ts a).
Proof.
  apply writes_mutual;
    try by eauto using prefix_then_climb, climb_on, name_ok, literal_ok, group_ok, prefix_operator_ok, await_ok,
      empty_list_ok, list_ok, empty_dict_ok, set_ok, dict_ok.
  all: try by eauto using binary_ok, is_not_ok, instanceof_ok, cast_ok, assign_ok, compound_ok, postfix_ok,
      selector_ok, index_ok, slice_ok, range_ok, range_by_ok, ternary_ok, pipe_ok.
  all: try by eauto using argument_plain_ok, argument_named_ok, argument_spread_ok, arguments_last_ok,
      arguments_more_ok, arguments_none_ok, arguments_some_ok, element_plain_ok, element_spread_ok,
      elements_none_ok, elements_comma_ok, elements_more_ok.
  all: try by eauto using entries_none_ok, entries_comma_ok, entries_pair_ok, entries_spread_ok,
      optional_some_ok, no_step_ok, a_step_ok.
  all: try by eauto using call_ok, build_call, build_partial.
  by left.
Qed.
End Recognised.

(** ** Whole texts *)

(** [plain_lt] as a test. *)
Fixpoint plain_ltb (ts : list Token) : bool :=
  match ts with
  | [] => true
  | t :: ts => negb (tok_is t T_LT && generic_args_scan 1 (map tok_Type ts)) && plain_ltb ts
  end.
Lemma plain_ltb_spec (ts : list Token) : plain_ltb ts = true -> plain_lt ts.
Proof.
  intros H pre t post -> Ht. induction pre as [|x pre IH]; cbn in H; apply andb_true_iff in H as [H1 H2]; [|auto].
  rewrite (tok_is_true t T_LT Ht) in H1. by apply negb_true_iff in H1.
Qed.

(** The parser made for a source, when it reads the source's first tokens. *)
Lemma reads_source `{UnicodeLetters} {A : Type} (m : M A) (src : gostring) (ts rest : list Token) (a : A) :
  tokens src = Some ts -> Forall lexed ts -> (2 <= length ts)%nat -> reads m ts (before rest) a ->
  exists p p', New src = Some p /\ m p = Done a p' /\ at_tokens p' (curToken p' :: rest) /\ errors p' = [].
Proof.
  intros Hts Hl Hlen Hr. destruct ts as [|t [|u ts]]; [cbn in Hlen; lia..|].
  destruct (begins_at t u ts Hl) as [Hat He]. destruct (Hr _ Hat) as (p'&us&E&Hp'&[z ->]&He').
  eexists _, p'. unfold New. rewrite Hts. split_and!; [reflexivity|exact E| |congruence].
  by rewrite (cur_at _ _ _ Hp').
Qed.

(** C7: The expression parser recognises the language of the grammar. For a source whose tokens, none of them
    rejected by the lexer, start with a text [ts] that the grammar of operators (the seventeen occupied levels
    of the table [operator_rows], with their grouping), literals, names, parentheses, prefix operators,
    casts and type tests, member, call, partial application, index and slice suffixes, lists, sets and dicts
    gives to the expression [e] at level [p], and go on with a token that neither binds tighter nor
    extends the last operand, [New] and [parseExpression] return [e] without an error and with the cursor
    before that token, given fuel for twice the length of the text. The [plain_lt] condition excludes texts
    in which a comparison looks like the type arguments of a call. *)
Theorem parseExpression_reads_grammar `{UnicodeLetters} (src : gostring) (ts : list Token) (r : Token)
    (rest : list Token) (p q : nat) (f : Type_ -> bool) (e : Expression) (n : nat) :
  tokens src = Some (ts ++ r :: rest) -> Forall lexed (ts ++ r :: rest) ->
  writes p f ts e -> (q <= p)%nat -> right_edge q f (tok_Type r) = true -> plain_lt (ts ++ r :: rest) ->
  (2 * length ts < n)%nat ->
  exists st st', New src = Some st /\ parseExpression n q st = Done e st'
    /\ at_tokens st' (curToken st' :: r :: rest) /\ errors st' = [].
Proof.
  intros Hsrc Hl Hw Hq Hr Hp Hn. eapply reads_source; [exact Hsrc|exact Hl| |].
  - destruct (writes_start _ _ _ _ Hw) as (t&us&->&_). len.
  - apply (expression_of_writes p q f); [by apply parser_reads_grammar|done..].
Qed.

Definition sample_source : gostring := bs "a ?? -b ** 2 ** k - 1 - f(x, _);".
Definition sample_tokens : list Token :=
  Eval vm_compute in match tokens sample_source with Some l => l | None => [] end.

Ltac suffix_at i :=
  match goal with
  | |- writes ?p ?f ?ts ?e =>
      let l := eval vm_compute in (firstn i ts) in
      let op := eval vm_compute in (nth i ts zero_token) in
      let us := eval vm_compute in (skipn (S i) ts) in
      eapply (writes_suffix p _ f l _ op us)
  end.
Ltac plain_operand := apply writes_operand; first [by apply operand_name | by apply operand_literal].
Ltac levels := first [reflexivity | split; [|apply Nat.leb_le; reflexivity]; apply Nat.leb_le; reflexivity].
Ltac binary := match goal with |- suffix _ ?l ?op ?us _ => eapply (suffix_binary l op us); [reflexivity|] end.

Lemma parseExpression_reads_grammar_witness :
  exists e st st', New sample_source = Some st /\ parseExpression 40 lowest st = Done e st'
    /\ at_tokens st' (curToken st' :: skipn 17 sample_tokens) /\ errors st' = [].
Proof.
  eexists.
  apply (parseExpression_reads_grammar sample_source (firstn 17 sample_tokens) (nth 17 sample_tokens zero_token)
           (skipn 18 sample_tokens) lowest lowest
           (right_edge (right_level T_NullCoalesce) (right_edge (right_level T_Minus) anything))).
  - vm_compute. reflexivity.
  - repeat (constructor; [discriminate|]). constructor.
  - suffix_at 1%nat; [plain_operand|levels..|]. binary.
    suffix_at 8%nat.
    { suffix_at 6%nat.
      { suffix_at 2%nat.
        { apply writes_operand, operand_prefix; [reflexivity|]. plain_operand. }
        { levels. }
        { levels. }
        binary. suffix_at 1%nat; [plain_operand|levels..|]. binary. plain_operand. }
      { levels. }
      { levels. }
      binary. plain_operand. }
    { levels. }
    { levels. }
    binary. suffix_at 1%nat; [plain_operand|levels..|].
    eapply (suffix_partial _ _ [_; _; _]); [reflexivity| |reflexivity|..].
    { apply arguments_some. eapply (arguments_more [_]); [eapply argument_plain; plain_operand|reflexivity|].
      apply arguments_last. eapply argument_plain. plain_operand. }
    { reflexivity. }
    { reflexivity. }
  - lia.
  - reflexivity.
  - apply plain_ltb_spec. reflexivity.
  - cbn. lia.
Defined.
