(* ===== verification/Program.v ===== *)
(** * Program: the parser recognises a grammar of statements

    Declarations, functions with their parameters, conditionals, loops, jumps and
    expression statements, over the grammars of types and of expressions; a
    program is a list of them, and [ParseProgram] returns the statements it
    writes. *)

From S2P Require Import Prelude GoText Token Lexer Ast Parsing TypeParser ExprParser StmtParser Cursor.
From S2P Require Import TypeGrammar Grammar Parsed.
#[local] Open Scope parser_scope.

(** ** What a statement starts with

    The look-aheads of [parseStatement] on the tokens from the current one: a
    destructuring assignment, [select], an import, a declaration, an assignment
    to several names. *)
Definition starts_select (t u : Token) : bool :=
  tok_is t T_Ident && bool_decide (Literal t = bs "select") && tok_is u T_LBrace.
Definition starts_import (t u : Token) (rest : list Token) : bool :=
  tok_is t T_Ident && bool_decide (Literal t = bs "from")
  && isIdentifierNameToken (tok_Type u) && import_path_scan (map tok_Type rest).
Definition starts_several (t u : Token) (rest : list Token) : bool :=
  tok_is t T_Ident && tok_is u T_Comma && multi_assign_scan (map tok_Type (u :: rest)).
Definition starts_plainly (ts : list Token) : bool :=
  match ts with
  | t :: u :: rest =>
      negb (tok_is t T_LBrace && tok_is u T_Ident) && negb (starts_select t u) && negb (starts_import t u rest)
      && negb (typed_declaration_scan (map tok_Type ts)) && negb (starts_several t u rest)
  | _ => false
  end.
Definition starts_typed (ts : list Token) : bool :=
  match ts with
  | t :: u :: rest =>
      (tok_is t T_Ident || tok_is t T_Question || tok_is t T_Bool) && negb (starts_select t u)
      && negb (starts_import t u rest) && typed_declaration_scan (map tok_Type ts)
  | _ => false
  end.

(** ** The grammar

    [statement ts rest s]: before the tokens [rest], the tokens [ts] write the
    statement [s]. *)
Inductive initial : list Token -> Expression -> Prop :=
| no_initial : initial [] NilExpression
| an_initial eq ts f e : tok_Type eq = T_Assign -> writes lowest f ts e -> initial (eq :: ts) e.

Inductive parameter : list Token -> Param -> Prop :=
| a_parameter t ts ty name ds e :
    type_text (t :: ts) ty -> tok_Type t <> T_Const -> tok_Type name = T_Ident -> initial ds e ->
    parameter (t :: ts ++ name :: ds) (mkParameter (ident_of name) ty (emptySetForType (Some ty) e) false false [])
| a_const_parameter c ts ty name ds e :
    tok_Type c = T_Const -> type_text ts ty -> tok_Type name = T_Ident -> initial ds e ->
    parameter (c :: ts ++ name :: ds) (mkParameter (ident_of name) ty (emptySetForType (Some ty) e) false true []).
Inductive some_parameters : list Token -> list Param -> Prop :=
| last_parameter ts p : parameter ts p -> some_parameters ts [p]
| variadic_parameter t ts ty dots name :
    type_text (t :: ts) ty -> tok_Type t <> T_Const -> tok_Type dots = T_Ellipsis -> tok_Type name = T_Ident ->
    some_parameters (t :: ts ++ [dots; name]) [mkParameter (ident_of name) ty NilExpression true false []]
| more_parameters ts p c us ps :
    parameter ts p -> tok_Type c = T_Comma -> some_parameters us ps -> some_parameters (ts ++ c :: us) (p :: ps).
Inductive parameters : list Token -> list Param -> Prop :=
| no_parameters : parameters [] []
| any_parameters ts ps : some_parameters ts ps -> parameters ts ps.
Inductive result_type : list Token -> option TypeRef -> Prop :=
| no_result_type : result_type [] None
| a_result_type colon ts t : tok_Type colon = T_Colon -> type_text ts t -> result_type (colon :: ts) (Some t).

(** An empty statement leaves nothing. *)
Definition keep_statement (s : Statement) (ss : list Statement) : list Statement :=
  match s with NilStatement => ss | _ => s :: ss end.
Definition begins_with (k : Type_) (ts : list Token) : bool :=
  match ts with t :: _ => tok_is t k | [] => false end.
Definition else_if_ahead (ts : list Token) : bool :=
  match ts with t :: u :: _ => tok_is t T_Else && tok_is u T_If | _ => false end.

Inductive statement : list Token -> list Token -> Statement -> Prop :=
| nothing semi rest : tok_Type semi = T_Semicolon -> statement [semi] rest NilStatement
| an_expression t ts f e semi rest :
    writes lowest f (t :: ts) e -> tok_Type semi = T_Semicolon -> starts_plainly (t :: ts ++ semi :: rest) = true ->
    statement (t :: ts ++ [semi]) rest (ExpressionStatement t e)
| a_bare_return t semi rest :
    tok_Type t = T_Return -> tok_Type semi = T_Semicolon -> statement [t; semi] rest (ReturnStatement t NilExpression)
| a_return t ts f e semi rest :
    tok_Type t = T_Return -> writes lowest f ts e -> tok_Type semi = T_Semicolon ->
    statement (t :: ts ++ [semi]) rest (ReturnStatement t e)
| a_jump t semi rest :
    tok_Type t = T_Break \/ tok_Type t = T_Continue -> tok_Type semi = T_Semicolon ->
    statement [t; semi] rest (SimpleStatement t (Literal t) NilExpression)
| a_throw t ts f e semi rest :
    tok_Type t = T_Throw \/ tok_Type t = T_Defer -> writes lowest f ts e -> tok_Type semi = T_Semicolon ->
    statement (t :: ts ++ [semi]) rest (SimpleStatement t (Literal t) e)
| a_let t name vs e semi rest :
    tok_Type t = T_Let \/ tok_Type t = T_Const -> tok_Type name = T_Ident -> initial vs e ->
    tok_Type semi = T_Semicolon ->
    statement (t :: name :: vs ++ [semi]) rest
      (Declaration (mkDeclaration t (Literal t) None (Some (ident_of name)) e (Doc t) []))
| a_declaration t ts ty name vs e semi rest :
    type_text (t :: ts) ty -> tok_Type name = T_Ident -> initial vs e -> tok_Type semi = T_Semicolon ->
    starts_typed (t :: ts ++ name :: vs ++ semi :: rest) = true ->
    statement (t :: ts ++ name :: vs ++ [semi]) rest
      (Declaration (mkDeclaration t [] (Some ty) (Some (ident_of name)) (emptySetForType (Some ty) e) (Doc t) []))
| a_while t o cs f c cl bs b rest :
    tok_Type t = T_While -> tok_Type o = T_LParen -> writes lowest f cs c -> tok_Type cl = T_RParen ->
    block bs rest b -> statement (t :: o :: cs ++ cl :: bs) rest (WhileStatement t c (Some b))
| a_for t o name i cs f c cl bs b rest :
    tok_Type t = T_For -> tok_Type o = T_LParen -> tok_Type name = T_Ident -> tok_Type i = T_In ->
    writes lowest f cs c -> tok_Type cl = T_RParen -> block bs rest b ->
    statement (t :: o :: name :: i :: cs ++ cl :: bs) rest
      (ForStatement t NilStatement NilExpression NilStatement None (Some (ident_of name)) [] c NilExpression (Some b))
| an_if t o cs f c cl bs b es clauses xs alternative rest :
    tok_Type t = T_If -> tok_Type o = T_LParen -> writes lowest f cs c -> tok_Type cl = T_RParen ->
    block bs (es ++ xs ++ rest) b -> else_ifs es (xs ++ rest) clauses -> otherwise xs rest alternative ->
    statement (t :: o :: cs ++ cl :: bs ++ es ++ xs) rest (IfStatement t c (Some b) clauses alternative)
| a_function t name o ps params c rs ty bs b rest :
    tok_Type t = T_Func -> isIdentifierNameToken (tok_Type name) = true -> tok_Type o = T_LParen ->
    parameters ps params -> tok_Type c = T_RParen -> result_type rs ty -> block bs rest b ->
    statement (t :: name :: o :: ps ++ c :: rs ++ bs) rest
      (Function_ (mkFunction t false false (or_doc (Doc t) (Doc t)) [] (Some (ident_of name)) [] params ty (Some b)))
with block : list Token -> list Token -> BlockStatement -> Prop :=
| a_block o ts ss c rest :
    tok_Type o = T_LBrace -> statements ts (c :: rest) ss -> tok_Type c = T_RBrace ->
    block (o :: ts ++ [c]) rest (mkBlock o c ss)
with statements : list Token -> list Token -> list Statement -> Prop :=
| no_statements rest : statements [] rest []
| more_statements ts us rest s ss :
    statement ts (us ++ rest) s -> statements us rest ss ->
    statements (ts ++ us) rest (keep_statement s ss)
with else_ifs : list Token -> list Token -> list ElseIfClause -> Prop :=
| no_else_if rest :
    begins_with T_ElseIf rest = false -> else_if_ahead rest = false -> else_ifs [] rest []
| an_else_if ei o cs f c cl bs b es rest clauses :
    tok_Type ei = T_ElseIf -> tok_Type o = T_LParen -> writes lowest f cs c -> tok_Type cl = T_RParen ->
    block bs (es ++ rest) b -> else_ifs es rest clauses ->
    else_ifs (ei :: o :: cs ++ cl :: bs ++ es) rest (mkElseIf c b :: clauses)
| an_else_then_if el i o cs f c cl bs b es rest clauses :
    tok_Type el = T_Else -> tok_Type i = T_If -> tok_Type o = T_LParen -> writes lowest f cs c ->
    tok_Type cl = T_RParen -> block bs (es ++ rest) b -> else_ifs es rest clauses ->
    else_ifs (el :: i :: o :: cs ++ cl :: bs ++ es) rest (mkElseIf c b :: clauses)
with otherwise : list Token -> list Token -> option BlockStatement -> Prop :=
| no_else rest : begins_with T_Else rest = false -> otherwise [] rest None
| an_else el bs b rest : tok_Type el = T_Else -> block bs rest b -> otherwise (el :: bs) rest (Some b).

Scheme statement_min := Minimality for statement Sort Prop
  with block_min := Minimality for block Sort Prop
  with statements_min := Minimality for statements Sort Prop
  with else_ifs_min := Minimality for else_ifs Sort Prop
  with otherwise_min := Minimality for otherwise Sort Prop.
Combined Scheme statement_mutual from statement_min, block_min, statements_min, else_ifs_min, otherwise_min.

(** ** Pieces *)

Section Statements.
Context `{UnicodeLetters}.

Lemma reads_expression (f : Type_ -> bool) (ts : list Token) (e : Expression) (n : nat) (r : Token) (rest : list Token) :
  writes lowest f ts e -> (2 * length ts < n)%nat -> closes (tok_Type r) = true -> plain_lt (ts ++ r :: rest) ->
  reads (parseExpression n lowest) (ts ++ r :: rest) (before (r :: rest)) e.
Proof. intros Hw. apply (whole_expression f); [done|by apply parser_reads_grammar]. Qed.
Lemma reads_next_value (f : Type_ -> bool) (ts : list Token) (e : Expression) (n : nat) (x r : Token) (rest : list Token) :
  writes lowest f ts e -> (2 * length ts < n)%nat -> closes (tok_Type r) = true -> plain_lt (ts ++ r :: rest) ->
  reads (next_expression (parseExpression n)) (x :: ts ++ r :: rest) (before (r :: rest)) e.
Proof. intros Hw. apply (whole_next f); [done|by apply parser_reads_grammar]. Qed.
Lemma reads_end {A : Type} (a : A) (ty : Type_) (z semi r : Token) (rest : list Token) :
  tok_Type semi = ty -> reads (do_ expectPeek ty; ret a) (z :: semi :: r :: rest) (before (r :: rest)) a.
Proof. intros E. apply reads_expect; [done|]. apply reads_done. Qed.
Lemma reads_condition (o : Token) (f : Type_ -> bool) (cs : list Token) (c : Expression) (cl : Token) (n : nat)
    (x r : Token) (rest : list Token) :
  tok_Type o = T_LParen -> writes lowest f cs c -> tok_Type cl = T_RParen -> (2 * length cs < n)%nat ->
  plain_lt (cs ++ cl :: r :: rest) ->
  reads (parseParenthesizedExpression (parseExpression n)) (x :: o :: cs ++ cl :: r :: rest) (before (r :: rest)) c.
Proof.
  intros Ho Hw Hcl Hn Hp. unfold parseParenthesizedExpression. apply reads_expect_app; [done|].
  eapply reads_then; [by apply (reads_next_value f); rewrite ?Hcl|]. intros z. by apply reads_end.
Qed.

(** The token after the one peeked at. *)
Lemma reads_peekNext {B : Type} (k : bool -> M B) (ty : Type_) (t u : Token) (us : list Token)
    (post : list Token -> Prop) (b : B) :
  reads (k (match us with v :: _ => tok_is v ty | [] => bool_decide (ty = T_EOF) end)) (t :: u :: us) post b ->
  reads (bind (peekNextTokenIs ty) k) (t :: u :: us) post b.
Proof.
  apply reads_pure. intros p [(pre&Et&Epos) _ _]. rewrite Et, Epos, nth_error_app2 by lia.
  replace (length pre + 2 - length pre)%nat with 2%nat by lia. by destruct us.
Qed.
Lemma third_at (p : Parser) (t u v : Token) (ts : list Token) :
  at_tokens p (t :: u :: v :: ts) -> third_token p = Some (tok_Type v).
Proof.
  intros [(pre&Et&Epos) _ _]. unfold third_token. rewrite Et, Epos, nth_error_app2 by lia.
  by replace (length pre + 2 - length pre)%nat with 2%nat by lia.
Qed.
Lemma types_from_rest (p : Parser) (t u : Token) (ts : list Token) :
  at_tokens p (t :: u :: ts) -> types_from (position p) p = map tok_Type ts.
Proof.
  intros [(pre&Et&Epos) _ _]. unfold types_from. by rewrite Et, Epos, <- drop_drop, drop_app_length.
Qed.

(** ** What each phrase means for the parser *)

Definition statement_ok (ts rest : list Token) (s : Statement) : Prop :=
  forall n r rest', rest = r :: rest' -> (2 * length ts < n)%nat -> plain_lt (ts ++ r :: rest') ->
  reads (parseStatement n) (ts ++ r :: rest') (before (r :: rest')) s.
Definition block_ok (ts rest : list Token) (b : BlockStatement) : Prop :=
  forall n x r rest', rest = r :: rest' -> (2 * length ts <= n)%nat -> plain_lt (ts ++ r :: rest') ->
  reads (parse_body n (parseStatement n)) (x :: ts ++ r :: rest') (before (r :: rest')) (Some b).
Definition block_round (n : nat) (stmts : list Statement) : M (list Statement + list Statement) :=
  do_ nextToken;
  let_ ended <- atBodyEnd;
  if ended then ret (inr stmts)
  else
    let_ s <- parseStatement n;
    match s with
    | NilStatement => ret (inl stmts)
    | _ =>
        do_ match nested_declaration s with
            | Some (t, kind) =>
                errorf t (kind ++ bs " declaration is only allowed at the top level, not inside a block")
            | None => ret tt
            end;
        ret (inl (stmts ++ [s]))
    end.
Definition statements_ok (ts rest : list Token) (ss : list Statement) : Prop :=
  forall n m x c r rest' acc, rest = c :: r :: rest' -> tok_Type c = T_RBrace ->
  (2 * length ts < n)%nat -> (length ts < m)%nat -> plain_lt (ts ++ c :: r :: rest') ->
  reads (loop m (block_round n) acc) (x :: ts ++ c :: r :: rest') (eq (c :: r :: rest')) (acc ++ ss).
Definition else_if_round (n : nat) (clauses : list ElseIfClause) :
    M (list ElseIfClause + list ElseIfClause * bool) :=
  let_ next <- peek;
  let_ if_ <- peekNextTokenIs T_If;
  let else_if := tok_is next T_Else && if_ in
  if tok_is next T_ElseIf || else_if then
    do_ (if tok_is next T_Else then nextToken else ret tt);
    do_ nextToken;
    let_ c <- parseParenthesizedExpression (parseExpression n);
    let_ body <- parse_body n (parseStatement n);
    ret (match body with
         | Some b => inl (clauses ++ [mkElseIf c b])
         | None => inr (clauses, false)
         end)
  else ret (inr (clauses, true)).
Definition else_ifs_ok (ts rest : list Token) (clauses : list ElseIfClause) : Prop :=
  forall n m x r rest' acc, rest = r :: rest' -> (2 * length ts < n)%nat -> (length ts < m)%nat ->
  plain_lt (ts ++ r :: rest') ->
  reads (loop m (else_if_round n) acc) (x :: ts ++ r :: rest') (before (r :: rest')) (acc ++ clauses, true).
Definition otherwise_ok (ts rest : list Token) (b : option BlockStatement) : Prop :=
  forall n x r rest', rest = r :: rest' -> (2 * length ts < n)%nat -> plain_lt (ts ++ r :: rest') ->
  reads (let_ else_ <- peekTokenIs T_Else;
         if else_ then (do_ nextToken; parse_body n (parseStatement n)) else ret None)
    (x :: ts ++ r :: rest') (before (r :: rest')) b.

(** ** Statements *)

(** A statement whose first token names it. *)
Lemma reads_keyword (n : nat) (m : M Statement) (t u : Token) (ts : list Token) (post : list Token -> Prop)
    (s : Statement) :
  (forall p, at_tokens p (t :: u :: ts) ->
     keyword_statement n (parseExpression n) (parseStatement n) p = Some m) ->
  reads m (t :: u :: ts) post s -> reads (parseStatement (S n)) (t :: u :: ts) post s.
Proof.
  intros Hk Hm. change (reads (parse_statement_body n (parseExpression n) (parseStatement n)) (t :: u :: ts) post s).
  apply reads_get. intros p Hp. by rewrite (Hk p Hp).
Qed.

Lemma nothing_ok (semi : Token) (rest : list Token) :
  tok_Type semi = T_Semicolon -> statement_ok [semi] rest NilStatement.
Proof.
  intros Hs [|n] r rest' -> Hn Hp; [lia|]. eapply reads_keyword; [|apply reads_done].
  intros p Hat. unfold keyword_statement. by rewrite (cur_at _ _ _ Hat), Hs.
Qed.

(** A statement whose first token does not: the look-aheads. *)
Lemma looks_import (p : Parser) (t u : Token) (ts : list Token) :
  at_tokens p (t :: u :: ts) -> looksLikeFromImport p = starts_import t u ts.
Proof.
  intros Hp. unfold looksLikeFromImport, starts_import.
  by rewrite (cur_at _ _ _ Hp), (peek_at _ _ _ _ Hp), (types_from_rest _ _ _ _ Hp).
Qed.
Lemma looks_typed (p : Parser) (ts : list Token) :
  at_tokens p ts -> looksLikeTypedDeclaration p = typed_declaration_scan (map tok_Type ts).
Proof.
  intros Hp. unfold looksLikeTypedDeclaration. rewrite (types_from_cur _ _ Hp).
  destruct Hp as [(pre&_&->) _ _]. by rewrite (proj2 (Nat.leb_le 2 _)) by lia.
Qed.
Lemma looks_several (p : Parser) (t u : Token) (ts : list Token) :
  at_tokens p (t :: u :: ts) -> looksLikeMultiAssign p = starts_several t u ts.
Proof.
  intros Hp. unfold looksLikeMultiAssign, starts_several.
  rewrite (cur_at _ _ _ Hp), (peek_at _ _ _ _ Hp), (types_from_peek _ _ _ Hp).
  destruct Hp as [(pre&_&->) _ _]. rewrite (proj2 (Nat.leb_le 1 _)) by lia. by rewrite andb_true_r.
Qed.

Lemma an_expression_ok (t : Token) (ts : list Token) (f : Type_ -> bool) (e : Expression) (semi : Token)
    (rest : list Token) :
  writes lowest f (t :: ts) e -> tok_Type semi = T_Semicolon -> starts_plainly (t :: ts ++ semi :: rest) = true ->
  statement_ok (t :: ts ++ [semi]) rest (ExpressionStatement t e).
Proof.
  intros Hw Hs Hstart [|n] r rest' -> Hn Hp; [lia|].
  replace ((t :: ts ++ [semi]) ++ r :: rest') with ((t :: ts) ++ semi :: r :: rest') in *
    by (cbn [app]; by rewrite <- app_assoc).
  assert (Hlast : reads (parseExpressionStatement (parseExpression n) true) ((t :: ts) ++ semi :: r :: rest')
                    (before (r :: rest')) (ExpressionStatement t e)).
  { unfold parseExpressionStatement. cbn [app]. step.
    eapply reads_then; [apply (reads_expression f (t :: ts)); [done|len|by rewrite Hs|done]|].
    intros z. eapply reads_then; [by apply reads_end|]. intros z2. apply reads_done. }
  change (reads (parse_statement_body n (parseExpression n) (parseStatement n)) ((t :: ts) ++ semi :: r :: rest')
            (before (r :: rest')) (ExpressionStatement t e)).
  apply reads_get. intros p Hat.
  destruct (writes_start _ _ _ _ Hw) as (t'&us&[= <- <-]&Ht).
  cbn [app] in *. destruct (ts ++ semi :: r :: rest') as [|v vs] eqn:Ev; [by destruct ts|].
  cbn [starts_plainly] in Hstart. rewrite !andb_true_iff, !negb_true_iff in Hstart.
  destruct Hstart as ((((H1&H2)&H3)&H4)&H5).
  assert (Hk : keyword_statement n (parseExpression n) (parseStatement n) p = None).
  { unfold keyword_statement. rewrite (cur_at _ _ _ Hat), (peek_at _ _ _ _ Hat). unfold tok_is in *.
    destruct (tok_Type t); try discriminate; try reflexivity.
    rewrite (bool_decide_eq_true_2 (T_LBrace = T_LBrace)) in H1 by done. cbn [andb] in H1. by rewrite H1. }
  rewrite Hk, (cur_at _ _ _ Hat), (peek_at _ _ _ _ Hat), (looks_import _ _ _ _ Hat), (looks_typed _ _ Hat),
    (looks_several _ _ _ _ Hat), H3, H4, H5. unfold starts_select in H2. by rewrite H2.
Qed.

(** ** Jumps and values *)

Ltac keyword Ht :=
  eapply reads_keyword;
    [intros p Hat; unfold keyword_statement; by rewrite (cur_at _ _ _ Hat), Ht |].

Lemma a_bare_return_ok (t semi : Token) (rest : list Token) :
  tok_Type t = T_Return -> tok_Type semi = T_Semicolon -> statement_ok [t; semi] rest (ReturnStatement t NilExpression).
Proof.
  intros Ht Hs [|n] r rest' -> Hn Hp; [lia|]. cbn [app]. keyword Ht.
  unfold parseReturnStatement. step. step. rewrite tok_is_true by done. step. apply reads_done.
Qed.
Lemma a_return_ok (t : Token) (ts : list Token) (f : Type_ -> bool) (e : Expression) (semi : Token) (rest : list Token) :
  tok_Type t = T_Return -> writes lowest f ts e -> tok_Type semi = T_Semicolon ->
  statement_ok (t :: ts ++ [semi]) rest (ReturnStatement t e).
Proof.
  intros Ht Hw Hs [|n] r rest' -> Hn Hp; [lia|]. cbn [app] in *. rewrite <- app_assoc in *. cbn [app] in *.
  pose proof (reads_next_value f ts e n t semi (r :: rest') Hw ltac:(len) ltac:(by rewrite Hs) ltac:(plain)) as He.
  destruct (writes_start _ _ _ _ Hw) as (v&us&->&Hv). cbn [app] in *.
  keyword Ht. unfold parseReturnStatement. step. step. rewrite tok_is_false by (intros E; by rewrite E in Hv).
  unfold parse_values. eapply (reads_then _ _ _ (semi :: r :: rest')).
  - eapply reads_then; [exact He|]. intros z. step. rewrite tok_is_false by congruence. apply reads_done.
  - intros z. by apply reads_end.
Qed.
Lemma a_jump_ok (t semi : Token) (rest : list Token) :
  tok_Type t = T_Break \/ tok_Type t = T_Continue -> tok_Type semi = T_Semicolon ->
  statement_ok [t; semi] rest (SimpleStatement t (Literal t) NilExpression).
Proof.
  intros Ht Hs [|n] r rest' -> Hn Hp; [lia|]. cbn [app]. eapply reads_keyword with (m := parseKeywordOnlyStatement).
  { intros p Hat. unfold keyword_statement. rewrite (cur_at _ _ _ Hat). by destruct Ht as [-> | ->]. }
  unfold parseKeywordOnlyStatement. step. by apply reads_end.
Qed.
Lemma a_throw_ok (t : Token) (ts : list Token) (f : Type_ -> bool) (e : Expression) (semi : Token) (rest : list Token) :
  tok_Type t = T_Throw \/ tok_Type t = T_Defer -> writes lowest f ts e -> tok_Type semi = T_Semicolon ->
  statement_ok (t :: ts ++ [semi]) rest (SimpleStatement t (Literal t) e).
Proof.
  intros Ht Hw Hs [|n] r rest' -> Hn Hp; [lia|]. cbn [app] in *. rewrite <- app_assoc in *. cbn [app] in *.
  pose proof (reads_next_value f ts e n t semi (r :: rest') Hw ltac:(len) ltac:(by rewrite Hs) ltac:(plain)) as He.
  destruct (writes_start _ _ _ _ Hw) as (v&us&->&Hv). cbn [app] in *.
  eapply reads_keyword with (m := parseSimpleValueStatement (parseExpression n)).
  { intros p Hat. unfold keyword_statement. rewrite (cur_at _ _ _ Hat). by destruct Ht as [-> | ->]. }
  unfold parseSimpleValueStatement. step. eapply reads_then; [exact He|]. intros z. by apply reads_end.
Qed.

(** ** Declarations *)

(** The initial value after a name, before a token that ends it. *)
Definition initial_value (n : nat) (ty : option TypeRef) : M Expression :=
  let_ eq <- peekTokenIs T_Assign;
  if eq then (do_ nextToken; let_ e <- next_expression (parseExpression n); ret (emptySetForType ty e))
  else ret NilExpression.
Lemma reads_initial (n : nat) (ty : option TypeRef) (vs : list Token) (e : Expression) (x r : Token) (rest : list Token) :
  initial vs e -> (2 * length vs < n)%nat -> closes (tok_Type r) = true -> tok_Type r <> T_Assign ->
  plain_lt (vs ++ r :: rest) ->
  reads (initial_value n ty) (x :: vs ++ r :: rest) (before (r :: rest)) (emptySetForType ty e).
Proof.
  intros Hi Hn Hr Hra Hp. unfold initial_value. destruct Hi as [|eq ts f e Heq Hw]; cbn [app] in *.
  - step. rewrite tok_is_false by done. destruct ty; apply reads_done.
  - step. rewrite tok_is_true by done.
    pose proof (reads_next_value f ts e n eq r rest Hw ltac:(len) Hr ltac:(plain)) as He.
    destruct (writes_start _ _ _ _ Hw) as (v&us&->&Hv). cbn [app] in *.
    apply (reads_next_app _ x r (eq :: v :: us) rest); [done|]. eapply reads_then; [exact He|]. intros z. apply reads_done.
Qed.
Lemma reads_finish_declaration (n : nat) (t : Token) (kind : gostring) (ty : option TypeRef) (name : Identifier)
    (doc : gostring) (vs : list Token) (e : Expression) (x semi r : Token) (rest : list Token) :
  initial vs e -> tok_Type semi = T_Semicolon -> (2 * length vs < n)%nat -> plain_lt (vs ++ semi :: r :: rest) ->
  reads (finish_declaration (parseExpression n) t kind ty name doc) (x :: vs ++ semi :: r :: rest) (before (r :: rest))
    (Declaration (mkDeclaration t kind ty (Some name) (emptySetForType ty e) doc [])).
Proof.
  intros Hi Hs Hn Hp.
  pose proof (reads_initial n ty vs e x semi (r :: rest) Hi Hn ltac:(by rewrite Hs) ltac:(congruence) Hp) as Hv.
  unfold finish_declaration, initial_value in *. intros p Hat. destruct (Hv p Hat) as (p1&us&E1&Hp1&[z ->]&He1).
  destruct (reads_end (Declaration (mkDeclaration t kind ty (Some name) (emptySetForType ty e) doc [])) T_Semicolon z semi r rest Hs p1 Hp1)
    as (p2&us&E2&Hp2&Hus&He2).
  exists p2, us. split_and!; [|done|done|congruence].
  unfold bind in *. destruct (peekTokenIs T_Assign p); try discriminate. rewrite E1. exact E2.
Qed.

Lemma initial_first (vs : list Token) (e : Expression) (semi r : Token) (rest : list Token) :
  initial vs e -> tok_Type semi = T_Semicolon ->
  exists v us, vs ++ semi :: r :: rest = v :: us /\ (tok_Type v = T_Assign \/ tok_Type v = T_Semicolon).
Proof. intros [] Hs; cbn [app]; eauto. Qed.

Lemma emptySetForType_untyped (e : Expression) : emptySetForType None e = e.
Proof. unfold emptySetForType. by repeat case_match. Qed.

Lemma a_let_ok (t name : Token) (vs : list Token) (e : Expression) (semi : Token) (rest : list Token) :
  tok_Type t = T_Let \/ tok_Type t = T_Const -> tok_Type name = T_Ident -> initial vs e ->
  tok_Type semi = T_Semicolon ->
  statement_ok (t :: name :: vs ++ [semi]) rest
    (Declaration (mkDeclaration t (Literal t) None (Some (ident_of name)) e (Doc t) [])).
Proof.
  intros Ht Hname Hi Hs [|n] r rest' -> Hn Hp; [lia|]. cbn [app] in *. rewrite <- app_assoc in *. cbn [app] in *.
  pose proof (reads_finish_declaration n t (Literal t) None (ident_of name) (Doc t) vs e name semi r rest' Hi Hs
                ltac:(len) ltac:(plain)) as Hf.
  rewrite emptySetForType_untyped in Hf.
  destruct (initial_first vs e semi r rest' Hi Hs) as (v&us&Ev&Hv). rewrite Ev in *.
  eapply reads_keyword with (m := parseDeclarationStatement n (parseExpression n)).
  { intros p Hat. unfold keyword_statement. rewrite (cur_at _ _ _ Hat). by destruct Ht as [-> | ->]. }
  unfold parseDeclarationStatement. step.
  rewrite tok_is_false by (destruct Ht; congruence). eapply (reads_seq _ _ _ (eq _)); [by apply reads_return|].
  intros ? <-. step. replace (tok_is t T_Const || tok_is t T_Let) with true.
  2:{ destruct Ht as [Ht|Ht]; [rewrite (tok_is_true t T_Let) by done|rewrite (tok_is_true t T_Const) by done];
        by rewrite ?orb_true_r. }
  step. rewrite !(tok_is_false name) by congruence. cbn [negb andb orb app]. step. step. step.
  rewrite (tok_is_false v T_Comma) by (destruct Hv; congruence).
  replace (tok_is v T_Assign || tok_is v T_Semicolon) with true; [exact Hf|].
  destruct Hv as [Hv|Hv]; [rewrite (tok_is_true v T_Assign) by done|rewrite (tok_is_true v T_Semicolon) by done];
    by rewrite ?orb_true_r.
Qed.

Lemma a_declaration_ok (t : Token) (ts : list Token) (ty : TypeRef) (name : Token) (vs : list Token) (e : Expression)
    (semi : Token) (rest : list Token) :
  type_text (t :: ts) ty -> tok_Type name = T_Ident -> initial vs e -> tok_Type semi = T_Semicolon ->
  starts_typed (t :: ts ++ name :: vs ++ semi :: rest) = true ->
  statement_ok (t :: ts ++ name :: vs ++ [semi]) rest
    (Declaration (mkDeclaration t [] (Some ty) (Some (ident_of name)) (emptySetForType (Some ty) e) (Doc t) [])).
Proof.
  intros Hty Hname Hi Hs Hstart [|n] r rest' -> Hn Hp; [lia|].
  cbn [app] in *. rewrite <- app_assoc in *. cbn [app] in *. rewrite <- app_assoc in *. cbn [app] in *.
  pose proof (reads_finish_declaration n t [] (Some ty) (ident_of name) (Doc t) vs e name semi r rest' Hi Hs
                ltac:(len) ltac:(plain)) as Hf.
  pose proof (reads_type (t :: ts) ty n name (vs ++ semi :: r :: rest') Hty ltac:(len) ltac:(by rewrite Hname)) as Ht.
  cbn [app] in *.
  assert (Htyped : reads (parse_typed_name n (parseExpression n) t [] [] (Doc t))
                     (t :: ts ++ name :: vs ++ semi :: r :: rest') (before (r :: rest'))
                     (Declaration (mkDeclaration t [] (Some ty) (Some (ident_of name)) (emptySetForType (Some ty) e) (Doc t) []))).
  { unfold parse_typed_name. eapply reads_then; [exact Ht|]. intros z. apply reads_expect_app; [done|]. step. exact Hf. }
  change (reads (parse_statement_body n (parseExpression n) (parseStatement n))
            (t :: ts ++ name :: vs ++ semi :: r :: rest') (before (r :: rest'))
            (Declaration (mkDeclaration t [] (Some ty) (Some (ident_of name)) (emptySetForType (Some ty) e) (Doc t) []))).
  apply reads_get. intros p Hat.
  destruct (ts ++ name :: vs ++ semi :: r :: rest') as [|v us] eqn:Ev; [by destruct ts|].
  cbn [starts_typed] in Hstart. rewrite !andb_true_iff, !negb_true_iff in Hstart. destruct Hstart as (((H1&H2)&H3)&H4).
  assert (Htt : tok_Type t = T_Ident \/ tok_Type t = T_Question \/ tok_Type t = T_Bool).
  { unfold tok_is in H1. destruct (tok_Type t); try discriminate; auto. }
  assert (Hk : keyword_statement n (parseExpression n) (parseStatement n) p = None).
  { unfold keyword_statement. rewrite (cur_at _ _ _ Hat). by destruct Htt as [-> |[-> | ->]]. }
  rewrite Hk, (cur_at _ _ _ Hat), (peek_at _ _ _ _ Hat), (looks_import _ _ _ _ Hat), (looks_typed _ _ Hat), H3, H4.
  unfold starts_select in H2. rewrite H2. clear p Hat Hk.
  unfold parseDeclarationStatement. step. rewrite tok_is_false by (destruct Htt as [-> |[-> | ->]]; done).
  eapply (reads_seq _ _ _ (eq _)); [by apply reads_return|]. intros ? <-. step.
  rewrite !tok_is_false by (destruct Htt as [-> |[-> | ->]]; done). exact Htyped.
Qed.

(** ** Blocks *)

Lemma a_block_ok (o : Token) (ts : list Token) (ss : list Statement) (c : Token) (rest : list Token) :
  tok_Type o = T_LBrace -> statements_ok ts (c :: rest) ss -> tok_Type c = T_RBrace ->
  block_ok (o :: ts ++ [c]) rest (mkBlock o c ss).
Proof.
  intros Ho Hok Hc n x r rest' -> Hn Hp. cbn [app] in *. rewrite <- app_assoc in *. cbn [app] in *.
  unfold parse_body. apply (reads_expect_app _ _ x o c ts (r :: rest')); [done|].
  apply (reads_last _ Some). unfold parseBlockStatement. step.
  eapply reads_seq; [apply (Hok n n o c r rest' []); [done|done|len|len|plain]|].
  intros us <-. step. apply reads_done.
Qed.
Lemma no_statements_ok (rest : list Token) : statements_ok [] rest [].
Proof.
  intros n [|m] x c r rest' acc -> Hc Hn Hm Hp; [cbn in Hm; lia|]. rewrite app_nil_r. cbn [app].
  apply loop_stop. unfold block_round.
  step. unfold atBodyEnd. eapply (reads_seq _ _ _ (eq (c :: r :: rest'))).
  - step. rewrite tok_is_false by congruence. by apply reads_return.
  - intros us <-. rewrite tok_is_true by done. by apply reads_return.
Qed.
Lemma statement_first (ts rest : list Token) (s : Statement) :
  statement ts rest s ->
  (exists t us, ts = t :: us /\ tok_Type t <> T_RBrace /\ tok_Type t <> T_EOF) /\ nested_declaration s = None.
Proof.
  assert (Hquick : forall t us, tok_Type t <> T_RBrace /\ tok_Type t <> T_EOF ->
            exists t' us', t :: us = t' :: us' /\ tok_Type t' <> T_RBrace /\ tok_Type t' <> T_EOF) by eauto.
  intros Hs. destruct Hs as [| ? ? ? ? ? ? Hw| | |? ? ? []|? ? ? ? ? ? []|? ? ? ? ? ? []|? ? ? ? ? ? ? ? ? ? ? ? Hstart| | | | ];
    (split; [apply Hquick|reflexivity]); try (split; congruence).
  - destruct (writes_start _ _ _ _ Hw) as (t'&us&[= <- <-]&Ht). split; intros E; by rewrite E in Ht.
  - destruct (ts ++ _) as [|v us] eqn:Ev in Hstart; [done|]. cbn [starts_typed] in Hstart.
    rewrite !andb_true_iff in Hstart. destruct Hstart as (((Hone&_)&_)&_). split; intros E; unfold tok_is in Hone; rewrite E in Hone; discriminate Hone.
Qed.
Lemma more_statements_ok (ts us rest : list Token) (s : Statement) (ss : list Statement) :
  statement ts (us ++ rest) s -> statement_ok ts (us ++ rest) s -> statements_ok us rest ss ->
  statements_ok (ts ++ us) rest (keep_statement s ss).
Proof.
  intros Hs Hok Hoks n [|m] x c r rest' acc -> Hc Hn Hm Hp; [cbn in Hm; lia|]. rewrite <- app_assoc in *.
  destruct (statement_first _ _ _ Hs) as [(t&us0&->&Ht1&Ht2) Hnest].
  assert (Hnext : exists v vs, us ++ c :: r :: rest' = v :: vs) by (destruct us; eauto).
  destruct Hnext as (v&vs&Ev).
  pose proof (Hok n v vs Ev ltac:(len) ltac:(rewrite <- Ev; exact Hp)) as Hread. rewrite <- Ev in Hread.
  assert (Hgo : forall acc' z, reads (loop m (block_round n) acc') (z :: us ++ c :: r :: rest') (eq (c :: r :: rest')) (acc' ++ ss)).
  { intros acc' z. apply Hoks; [done|done|len|len|plain]. }
  replace (acc ++ keep_statement s ss)
    with ((match s with NilStatement => acc | _ => acc ++ [s] end) ++ ss)
    by (destruct s; by rewrite <- ?app_assoc).
  eapply (loop_go _ _ _ _ _ (before (us ++ c :: r :: rest'))); [|intros ? [z ->]; apply Hgo].
  unfold block_round. rewrite Ev in *. apply (reads_next_app _ x v (t :: us0) vs); [done|].
  eapply (reads_seq _ _ _ (eq ((t :: us0) ++ v :: vs))).
  { unfold atBodyEnd. cbn [app]. step. rewrite tok_is_false by done. apply reads_return. reflexivity. }
  intros ? <-. rewrite tok_is_false by done. eapply reads_then; [exact Hread|]. intros z.
  destruct s; try (eapply (reads_seq _ _ _ (eq _)); [rewrite Hnest; by apply reads_return|intros ? <-]); apply reads_done.
Qed.

(** ** Control *)

Lemma a_while_ok (t o : Token) (cs : list Token) (f : Type_ -> bool) (c : Expression) (cl : Token) (bs rest : list Token)
    (b : BlockStatement) :
  tok_Type t = T_While -> tok_Type o = T_LParen -> writes lowest f cs c -> tok_Type cl = T_RParen ->
  block_ok bs rest b -> statement_ok (t :: o :: cs ++ cl :: bs) rest (WhileStatement t c (Some b)).
Proof.
  intros Ht Ho Hw Hcl Hb [|n] r rest' -> Hn Hp; [lia|]. cbn [app] in *. rewrite <- app_assoc in *. cbn [app] in *.
  keyword Ht. unfold parseWhileStatement. step.
  pose proof (fun z => Hb n z r rest' eq_refl ltac:(len) ltac:(plain)) as Hbody.
  destruct (bs ++ r :: rest') as [|v vs] eqn:Ev; [by destruct bs|].
  eapply reads_then; [apply (reads_condition o f); [done|done|done|len|plain]|].
  intros z. eapply reads_then; [exact (Hbody z)|]. intros z'. apply reads_done.
Qed.
Lemma no_else_if_ok (rest : list Token) :
  begins_with T_ElseIf rest = false -> else_if_ahead rest = false -> else_ifs_ok [] rest [].
Proof.
  intros Hone Htwo n [|m] x r rest' acc -> Hn Hm Hp; [cbn in Hm; lia|]. rewrite app_nil_r. cbn [app].
  cbn [begins_with] in Hone. apply loop_stop. unfold else_if_round. step. apply reads_peekNext. rewrite Hone. cbn [orb].
  replace (tok_is r T_Else && _) with false; [apply reads_done|]. destruct rest' as [|v vs]; [|by rewrite <- Htwo].
  by rewrite andb_false_r.
Qed.
(** A condition and a body, which the three forms of a branch share. *)
Lemma reads_branch {B : Type} (k : Expression -> option BlockStatement -> M B) (o : Token) (f : Type_ -> bool)
    (cs : list Token) (c : Expression) (cl : Token) (bs : list Token) (b : BlockStatement) (n : nat) (x : Token)
    (rest us : list Token) (post : list Token -> Prop) (res : B) :
  tok_Type o = T_LParen -> writes lowest f cs c -> tok_Type cl = T_RParen -> block_ok bs rest b -> rest <> [] ->
  (2 * length cs < n)%nat -> (2 * length bs <= n)%nat -> plain_lt (cs ++ cl :: bs ++ rest) ->
  (forall z, reads (k c (Some b)) (z :: rest) post res) ->
  reads (let_ c <- parseParenthesizedExpression (parseExpression n); let_ body <- parse_body n (parseStatement n); k c body)
    (x :: o :: cs ++ cl :: bs ++ rest) post res.
Proof.
  intros Ho Hw Hcl Hb Hr Hc Hbs Hp Hk. destruct rest as [|r rest]; [done|].
  pose proof (fun z => Hb n z r rest eq_refl ltac:(len) ltac:(plain)) as Hbody.
  destruct (bs ++ r :: rest) as [|v vs] eqn:Ev; [by destruct bs|].
  eapply reads_then; [apply (reads_condition o f); [done|done|done|len|plain]|].
  intros z. eapply reads_then; [exact (Hbody z)|]. exact Hk.
Qed.

Lemma an_else_if_ok (ei o : Token) (cs : list Token) (f : Type_ -> bool) (c : Expression) (cl : Token)
    (bs : list Token) (b : BlockStatement) (es rest : list Token) (clauses : list ElseIfClause) :
  tok_Type ei = T_ElseIf -> tok_Type o = T_LParen -> writes lowest f cs c -> tok_Type cl = T_RParen ->
  block_ok bs (es ++ rest) b -> else_ifs_ok es rest clauses ->
  else_ifs_ok (ei :: o :: cs ++ cl :: bs ++ es) rest (mkElseIf c b :: clauses).
Proof.
  intros Hei Ho Hw Hcl Hb Hes n [|m] x r rest' acc -> Hn Hm Hp; [lia|].
  cbn [app] in *. rewrite <- app_assoc in *. cbn [app] in *. rewrite <- app_assoc in *.
  replace (acc ++ mkElseIf c b :: clauses) with ((acc ++ [mkElseIf c b]) ++ clauses) by by rewrite <- app_assoc.
  eapply (loop_go _ _ _ _ _ (before (es ++ r :: rest'))).
  2:{ intros ? [z ->]. apply (Hes n m z r rest' (acc ++ [mkElseIf c b])); [done|len|len|plain]. }
  unfold else_if_round. step. apply reads_peekNext. rewrite (tok_is_true ei T_ElseIf), !(tok_is_false ei T_Else) by congruence.
  cbn [orb]. eapply (reads_seq _ _ _ (eq _)); [by apply reads_return|]. intros ? <-.
  over (ei :: o :: cs).
  apply (reads_branch (fun c body => ret (match body with Some b => inl (acc ++ [mkElseIf c b]) | None => inr (acc, false) end)) o f cs c cl bs b);
    [done..|by destruct es|len|len|plain|]. intros z. apply reads_done.
Qed.
Lemma an_else_then_if_ok (el i o : Token) (cs : list Token) (f : Type_ -> bool) (c : Expression) (cl : Token)
    (bs : list Token) (b : BlockStatement) (es rest : list Token) (clauses : list ElseIfClause) :
  tok_Type el = T_Else -> tok_Type i = T_If -> tok_Type o = T_LParen -> writes lowest f cs c ->
  tok_Type cl = T_RParen -> block_ok bs (es ++ rest) b -> else_ifs_ok es rest clauses ->
  else_ifs_ok (el :: i :: o :: cs ++ cl :: bs ++ es) rest (mkElseIf c b :: clauses).
Proof.
  intros Hel Hi Ho Hw Hcl Hb Hes n [|m] x r rest' acc -> Hn Hm Hp; [lia|].
  cbn [app] in *. rewrite <- app_assoc in *. cbn [app] in *. rewrite <- app_assoc in *.
  replace (acc ++ mkElseIf c b :: clauses) with ((acc ++ [mkElseIf c b]) ++ clauses) by by rewrite <- app_assoc.
  eapply (loop_go _ _ _ _ _ (before (es ++ r :: rest'))).
  2:{ intros ? [z ->]. apply (Hes n m z r rest' (acc ++ [mkElseIf c b])); [done|len|len|plain]. }
  unfold else_if_round. step. apply reads_peekNext. rewrite !(tok_is_true el T_Else), (tok_is_true i T_If) by done.
  rewrite orb_true_r. eapply (reads_seq _ _ _ (eq (el :: i :: o :: cs ++ cl :: bs ++ es ++ r :: rest'))).
  { intros p Hat. destruct (next_at _ _ _ _ _ Hat) as (p'&E&Hp'&He). by exists p', (el :: i :: o :: cs ++ cl :: bs ++ es ++ r :: rest'). }
  intros ? <-. over (i :: o :: cs).
  apply (reads_branch (fun c body => ret (match body with Some b => inl (acc ++ [mkElseIf c b]) | None => inr (acc, false) end)) o f cs c cl bs b);
    [done..|by destruct es|len|len|plain|]. intros z. apply reads_done.
Qed.

Lemma no_else_ok (rest : list Token) : begins_with T_Else rest = false -> otherwise_ok [] rest None.
Proof.
  intros Hno n x r rest' -> Hn Hp. cbn [app begins_with] in *. step. rewrite Hno. apply reads_done.
Qed.
Lemma block_start (ts rest : list Token) (b : BlockStatement) :
  block ts rest b -> exists o u us, ts = o :: u :: us.
Proof. intros [o us ss c ? ? ? ?]. destruct us; eauto. Qed.
Lemma an_else_ok (el : Token) (bs rest : list Token) (b : BlockStatement) :
  tok_Type el = T_Else -> block bs rest b -> block_ok bs rest b -> otherwise_ok (el :: bs) rest (Some b).
Proof.
  intros Hel Hbs Hb n x r rest' -> Hn Hp. pose proof (Hb n el r rest' eq_refl ltac:(len) ltac:(plain)) as Hbody.
  destruct (block_start _ _ _ Hbs) as (o&u&us&->). cbn [app] in *. step. rewrite tok_is_true by done. step. exact Hbody.
Qed.
Lemma an_if_ok (t o : Token) (cs : list Token) (f : Type_ -> bool) (c : Expression) (cl : Token)
    (bs : list Token) (b : BlockStatement) (es : list Token) (clauses : list ElseIfClause) (xs : list Token)
    (alternative : option BlockStatement) (rest : list Token) :
  tok_Type t = T_If -> tok_Type o = T_LParen -> writes lowest f cs c -> tok_Type cl = T_RParen ->
  block_ok bs (es ++ xs ++ rest) b -> else_ifs_ok es (xs ++ rest) clauses -> otherwise_ok xs rest alternative ->
  statement_ok (t :: o :: cs ++ cl :: bs ++ es ++ xs) rest (IfStatement t c (Some b) clauses alternative).
Proof.
  intros Ht Ho Hw Hcl Hb Hes Hxs [|n] r rest' -> Hn Hp; [lia|].
  cbn [app] in *. rewrite <- app_assoc in *. cbn [app] in *. rewrite <- !app_assoc in *.
  keyword Ht. unfold parseIfStatement. step.
  apply (reads_branch (fun c body => match body with
      | None => ret (IfStatement t c None [] None)
      | Some body =>
          let_ clauses <- parse_else_ifs n (parseExpression n) (parseStatement n);
          let_ else_ <- peekTokenIs T_Else;
          let_ alternative <- (if snd clauses && else_ then (do_ nextToken; parse_body n (parseStatement n)) else ret None);
          ret (IfStatement t c (Some body) (fst clauses) alternative)
      end) o f cs c cl bs b); [done..|by destruct es, xs|len|len|plain|].
  intros z. assert (Hrest : exists v vs, xs ++ r :: rest' = v :: vs) by (destruct xs; eauto).
  destruct Hrest as (v&vs&Ev).
  pose proof (Hes n n z v vs [] Ev ltac:(len) ltac:(len) ltac:(rewrite <- Ev; plain)) as Hclauses. rewrite <- Ev in Hclauses.
  eapply reads_then; [exact Hclauses|]. intros z'. cbn [fst snd andb]. apply reads_assoc.
  eapply reads_then; [apply (Hxs n z' r rest'); [done|len|plain]|]. intros z2. apply reads_done.
Qed.
Lemma a_for_ok (t o name i : Token) (cs : list Token) (f : Type_ -> bool) (c : Expression) (cl : Token)
    (bs : list Token) (b : BlockStatement) (rest : list Token) :
  tok_Type t = T_For -> tok_Type o = T_LParen -> tok_Type name = T_Ident -> tok_Type i = T_In ->
  writes lowest f cs c -> tok_Type cl = T_RParen -> block_ok bs rest b ->
  statement_ok (t :: o :: name :: i :: cs ++ cl :: bs) rest
    (ForStatement t NilStatement NilExpression NilStatement None (Some (ident_of name)) [] c NilExpression (Some b)).
Proof.
  intros Ht Ho Hname Hi Hw Hcl Hb [|n] r rest' -> Hn Hp; [lia|]. cbn [app] in *. rewrite <- app_assoc in *. cbn [app] in *.
  pose proof (fun z => Hb n z r rest' eq_refl ltac:(len) ltac:(plain)) as Hbody.
  destruct (bs ++ r :: rest') as [|v vs] eqn:Ev; [by destruct bs|].
  pose proof (reads_next_value f cs c n i cl (v :: vs) Hw ltac:(len) ltac:(by rewrite Hcl) ltac:(plain)) as Hc.
  destruct (writes_start _ _ _ _ Hw) as (w&ws&->&Hstart). cbn [app] in *.
  keyword Ht. unfold parseForStatement. step. apply reads_expect; [done|]. apply reads_next.
  apply (reads_seq _ _ _ (eq (name :: i :: w :: ws ++ cl :: v :: vs)) _ true).
  { intros p Hat. exists p, (name :: i :: w :: ws ++ cl :: v :: vs). split; [|done].
    unfold isForInClause, bind at 1, get. destruct n as [|n]; [len|]. cbn [loop]. unfold bind, get.
    rewrite (cur_at _ _ _ Hat), (peek_at _ _ _ _ Hat).
    rewrite !(tok_is_false name) by congruence. rewrite (tok_is_true i) by done. cbn [orb]. rewrite <- (cur_at _ _ _ Hat), <- (peek_at _ _ _ _ Hat). by destruct p. }
  intros ? <-.
  eapply (reads_then _ _ _ (v :: vs) _ (mkForIn None (Some (ident_of name)) [] (Some (c, NilExpression)))).
  - unfold parse_for_in. step. step. rewrite (tok_is_true name), (tok_is_true i T_In), (tok_is_false i T_Comma) by congruence.
    cbn [andb]. step. eapply reads_last. unfold for_source. eapply reads_then; [exact Hc|]. intros z. step.
    rewrite tok_is_false by congruence. eapply (reads_seq _ _ _ (eq _)); [by apply reads_return|]. intros ? <-.
    by apply reads_end.
  - intros z. cbn. eapply reads_then; [exact (Hbody z)|]. intros z'. apply reads_done.
Qed.

(** ** Functions *)

Lemma reads_type_after (n : nat) (ts : list Token) (ty : TypeRef) (r : Token) (rest : list Token) :
  type_text ts ty -> (2 * length ts < n)%nat -> after_type (tok_Type r) = true ->
  reads (parseTypeRefFromCurrent n) (ts ++ r :: rest) (before (r :: rest)) ty.
Proof. intros. by apply reads_type. Qed.
Lemma type_first (t : Token) (ts : list Token) (ty : TypeRef) : type_text (t :: ts) ty -> tok_Type t <> T_At /\ tok_Type t <> T_RParen.
Proof.
  intros (us&Hu&Hw).
  assert (Hatom : forall ts ty, atom_written ts ty -> exists u us, ts = u :: us /\ tok_Type u <> T_At /\ tok_Type u <> T_RParen /\ tok_Type u <> T_GT).
  { intros ts' t' Ha. inversion Ha as [q ? t0 ? ? ? ? ? ? Hq Hs]; subst. inversion Hq; subst.
    - eexists _, _. split; [reflexivity|]. split_and!; intros E; by rewrite E in Hs.
    - eexists _, _. split; [reflexivity|]. split_and!; congruence. }
  assert (Hus : exists u us', us = u :: us' /\ tok_Type u <> T_At /\ tok_Type u <> T_RParen /\ tok_Type u <> T_GT).
  { inversion Hw as [? ? Ha|? ? ? ? ? Ha]; subst; [by eapply Hatom|].
    destruct (Hatom _ _ Ha) as (w&ws&->&Hu'). eexists _, _. split; [reflexivity|done]. }
  destruct Hus as (u&us'&->&Hat&Hpar&Hgt). inversion Hu; subst; [done|]. by destruct Hgt.
Qed.

Definition parameter_ok (ts : list Token) (p : Param) : Prop :=
  forall n x r rest, (2 * length ts < n)%nat -> closes (tok_Type r) = true -> tok_Type r <> T_Assign ->
  plain_lt (ts ++ r :: rest) ->
  reads (do_ nextToken; parse_parameter n (parseExpression n)) (x :: ts ++ r :: rest) (before (r :: rest)) (Some (p, false)).

(** The part of a parameter after its type. *)
Lemma reads_parameter_name (n : nat) (ty : TypeRef) (const : bool) (name : Token) (ds : list Token) (e : Expression)
    (x r : Token) (rest : list Token) :
  tok_Type name = T_Ident -> initial ds e -> (2 * length ds < n)%nat -> closes (tok_Type r) = true ->
  tok_Type r <> T_Assign -> plain_lt (ds ++ r :: rest) ->
  reads (let_ variadic <- peekTokenIs T_Ellipsis;
         do_ (if variadic then nextToken else ret tt);
         let_ ok <- expectPeek T_Ident;
         if ok then
           let_ name <- cur;
           let_ eq <- peekTokenIs T_Assign;
           let_ default <- (if negb variadic && eq
                          then (do_ nextToken; let_ e <- next_expression (parseExpression n); ret (emptySetForType (Some ty) e))
                          else ret NilExpression);
           ret (Some (mkParameter (ident_of name) ty default variadic const [], variadic))
         else ret None) (x :: name :: ds ++ r :: rest) (before (r :: rest))
    (Some (mkParameter (ident_of name) ty (emptySetForType (Some ty) e) false const [], false)).
Proof.
  intros Hname Hi Hn Hr Hra Hp. pose proof (reads_initial n (Some ty) ds e name r rest Hi Hn Hr Hra Hp) as Hv.
  step. rewrite tok_is_false by congruence. eapply (reads_seq _ _ _ (eq _)); [by apply reads_return|]. intros ? <-.
  apply reads_expect_app; [done|]. step. cbn [negb andb]. unfold initial_value in Hv. apply reads_assoc.
  by eapply reads_then; [exact Hv|intros z; apply reads_done].
Qed.

Lemma reads_no_decorators {B : Type} (n : nat) (k : list Decorator -> M B) (t : Token) (ts : list Token)
    (post : list Token -> Prop) (b : B) :
  (0 < n)%nat -> tok_Type t <> T_At -> reads (k []) (t :: ts) post b ->
  reads (let_ ds <- parseParameterDecorators n (parseExpression n); k ds) (t :: ts) post b.
Proof.
  intros Hn Ht Hk. apply (reads_seq _ _ _ (eq (t :: ts)) _ []); [|by intros ? <-].
  unfold parseParameterDecorators. apply (reads_seq _ _ _ (eq (t :: ts)) _ ([], true)).
  - destruct n as [|n]; [lia|]. unfold parse_decorators. apply loop_stop. step. rewrite tok_is_false by done.
    by apply reads_return.
  - intros ? <-. by apply reads_return.
Qed.

(** A parameter without decorators, up to its type. *)
Lemma reads_parameter_type {B : Type} (n : nat) (k : list Decorator -> bool -> TypeRef -> M B) (ts : list Token) (ty : TypeRef) (x r : Token)
    (rest : list Token) (post : list Token -> Prop) (b : B) (const : bool) (c : list Token) :
  (if const then exists w, c = [w] /\ tok_Type w = T_Const
   else c = [] /\ forall t us, ts = t :: us -> tok_Type t <> T_Const) ->
  type_text ts ty -> (2 * length ts < n)%nat -> after_type (tok_Type r) = true ->
  (forall z, reads (k [] const ty) (z :: r :: rest) post b) ->
  reads (do_ nextToken;
         let_ decorators <- parseParameterDecorators n (parseExpression n);
         let_ isConst <- curTokenIs T_Const;
         do_ (if isConst then nextToken else ret tt);
         let_ ty <- parseTypeRefFromCurrent n;
         k decorators isConst ty) (x :: c ++ ts ++ r :: rest) post b.
Proof.
  intros Hc Hty Hn Hr Hk. pose proof (reads_type ts ty n r rest Hty Hn Hr) as Ht.
  destruct (type_text_cons _ _ Hty) as (t&us&->). destruct (type_first _ _ _ Hty) as [Hat _].
  assert (Hafter : reads (let_ ty <- parseTypeRefFromCurrent n; k [] const ty) ((t :: us) ++ r :: rest) post b)
    by (eapply reads_then; [exact Ht|exact Hk]).
  destruct const.
  - destruct Hc as (w&->&Hw). cbn [app]. apply (reads_next_app _ x r (w :: t :: us) rest); [done|]. cbn [app].
    apply reads_no_decorators; [cbn in Hn; lia|congruence|]. step. rewrite tok_is_true by done.
    eapply (reads_seq _ _ _ (eq ((t :: us) ++ r :: rest))); [|by intros ? <-].
    intros p Hp. assert (Hn2 : exists v vs, us ++ r :: rest = v :: vs) by (destruct us; eauto).
    destruct Hn2 as (v&vs&E). cbn [app] in *. rewrite E in *. destruct (next_at _ _ _ _ _ Hp) as (p'&En&Hp'&He).
    by exists p', (t :: v :: vs).
  - destruct Hc as [-> Hc]. apply (reads_next_app _ x r (t :: us) rest); [done|]. cbn [app].
    apply reads_no_decorators; [cbn in Hn; lia|done|]. step. rewrite tok_is_false by (by eapply Hc).
    eapply (reads_seq _ _ _ (eq _)); [by apply reads_return|]. by intros ? <-.
Qed.
Lemma parameter_reads (ts : list Token) (p : Param) : parameter ts p -> parameter_ok ts p.
Proof.
  intros Hpar n x r rest Hn Hr Hra Hp. destruct Hpar as [t ts ty name ds e Hty Hc Hname Hi|c ts ty name ds e Hc Hty Hname Hi].
  - cbn [app] in *. rewrite <- app_assoc in *. cbn [app] in *. unfold parse_parameter.
    eapply (reads_parameter_type n _ (t :: ts) ty x name (ds ++ r :: rest) _ _ false []);
      [by split; [|intros ? ? [= <- <-]]|done|len|by rewrite Hname|].
    intros z. apply (reads_parameter_name n ty false); [done|done|len|done|done|plain].
  - cbn [app] in *. rewrite <- app_assoc in *. cbn [app] in *. unfold parse_parameter.
    eapply (reads_parameter_type n _ ts ty x name (ds ++ r :: rest) _ _ true [c]); [by exists c|done|len|by rewrite Hname|].
    intros z. apply (reads_parameter_name n ty true); [done|done|len|done|done|plain].
Qed.

Definition parameter_round (n : nat) (params : list Param) : M (list Param + list Param * bool) :=
  do_ nextToken;
  let_ param <- parse_parameter n (parseExpression n);
  match param with
  | None => ret (inr (params, false))
  | Some (param, variadic) =>
      let_ comma <- peekTokenIs T_Comma;
      if variadic || negb comma then ret (inr (params ++ [param], true))
      else (do_ nextToken; ret (inl (params ++ [param])))
  end.
Lemma some_parameters_reads (ts : list Token) (ps : list Param) :
  some_parameters ts ps ->
  forall n m x r rest acc, tok_Type r = T_RParen -> (2 * length ts < n)%nat -> (length ts < m)%nat ->
  plain_lt (ts ++ r :: rest) ->
  reads (loop m (parameter_round n) acc) (x :: ts ++ r :: rest) (before (r :: rest)) (acc ++ ps, true).
Proof.
  induction 1 as [ts p Hpar|t ts ty dots name Hty Hc Hdots Hname|ts p c us ps Hpar Hc _ IH];
    intros n [|m] x r rest acc Hr Hn Hm Hp; try (exfalso; lia).
  - apply loop_stop. unfold parameter_round. apply reads_assoc.
    eapply reads_then; [apply (parameter_reads ts p Hpar); [done|by rewrite Hr|congruence|done]|].
    intros z. step. rewrite tok_is_false by congruence. apply reads_done.
  - cbn [app] in *. rewrite <- app_assoc in *. cbn [app] in *. apply loop_stop. unfold parameter_round. apply reads_assoc.
    eapply (reads_then _ _ _ (r :: rest) _ (Some (_, true))); [|intros z; step; apply reads_done]. unfold parse_parameter.
    eapply (reads_parameter_type n _ (t :: ts) ty x dots (name :: r :: rest) _ _ false []);
      [by split; [|intros ? ? [= <- <-]]|done|len|by rewrite Hdots|].
    intros z. step. rewrite tok_is_true by done. apply (reads_seq _ _ _ (eq (dots :: name :: r :: rest)) _ tt).
    { intros q Hq. destruct (next_at _ _ _ _ _ Hq) as (q'&E&Hq'&He). by exists q', (dots :: name :: r :: rest). }
    intros ? <-. apply reads_expect; [done|]. step. step. cbn [negb andb].
    eapply (reads_seq _ _ _ (eq _)); [by apply reads_return|]. intros ? <-. apply reads_done.
  - rewrite <- app_assoc in *. cbn [app] in *.
    replace (acc ++ p :: ps) with ((acc ++ [p]) ++ ps) by by rewrite <- app_assoc.
    eapply (loop_go _ _ _ _ _ (eq (c :: us ++ r :: rest))).
    2:{ intros ? <-. apply IH; [done|len|len|plain]. }
    unfold parameter_round. apply reads_assoc.
    eapply reads_then; [apply (parameter_reads ts p Hpar); [len|by rewrite Hc|congruence|done]|].
    intros z. step. rewrite tok_is_true by done. cbn [negb orb].
    apply (reads_next_app _ z r (c :: us) rest); [done|]. by apply reads_return.
Qed.
Lemma parameters_reads (n : nat) (o : Token) (ts : list Token) (ps : list Param) (c x r : Token) (rest : list Token) :
  tok_Type o = T_LParen -> parameters ts ps -> tok_Type c = T_RParen -> (2 * length ts < n)%nat ->
  plain_lt (ts ++ c :: r :: rest) ->
  reads (parseParameterList n (parseExpression n)) (x :: o :: ts ++ c :: r :: rest) (before (r :: rest)) ps.
Proof.
  intros Ho Hps Hc Hn Hp. unfold parseParameterList. apply (reads_expect_app _ _ x o c ts (r :: rest)); [done|].
  destruct Hps as [|ts ps Hps]; cbn [app].
  - step. rewrite tok_is_true by done. cbn [negb]. apply reads_next. apply reads_done.
  - pose proof (some_parameters_reads ts ps Hps n n o c (r :: rest) [] Hc Hn ltac:(lia) Hp) as Hread.
    assert (Hfirst : exists t us, ts = t :: us /\ tok_Type t <> T_RParen).
    { destruct Hps as [? ? [t us ? name ds e Hty|w ? ? ? ? ? Hw]|t us ? ? ? Hty|? ? ? ? ? [t us ? name ds e Hty|w ? ? ? ? ? Hw]];
        cbn [app]; eexists _, _; (split; [reflexivity|]); first [congruence | by apply (type_first _ _ _ Hty)]. }
    destruct Hfirst as (t&us&->&Ht). cbn [app] in *. step. rewrite tok_is_false by done. cbn [negb].
    eapply reads_then; [exact Hread|]. intros z. cbn [fst snd].
    eapply reads_then; [by apply reads_end|]. intros z'. apply reads_done.
Qed.
Lemma reads_result (n : nat) (rs : list Token) (ty : option TypeRef) (x r : Token) (rest : list Token) :
  result_type rs ty -> (2 * length rs < n)%nat -> tok_Type r = T_LBrace ->
  reads (parse_return_type n) (x :: rs ++ r :: rest) (before (r :: rest)) ty.
Proof.
  intros Hrs Hn Hr. unfold parse_return_type. destruct Hrs as [|colon ts t Hcolon Ht]; cbn [app].
  - step. rewrite tok_is_false by congruence. apply reads_done.
  - pose proof (reads_type ts t n r rest Ht ltac:(len) ltac:(by rewrite Hr)) as Hread.
    destruct (type_text_cons _ _ Ht) as (u&us&->). cbn [app] in *. step. rewrite tok_is_true by done.
    apply (reads_next_app _ x r (colon :: u :: us) rest); [done|]. apply (reads_next_app _ colon r (u :: us) rest); [done|].
    by apply (reads_last _ Some).
Qed.
Lemma a_function_ok (t name o : Token) (ps : list Token) (params : list Param) (c : Token) (rs : list Token)
    (ty : option TypeRef) (bs rest : list Token) (b : BlockStatement) :
  tok_Type t = T_Func -> isIdentifierNameToken (tok_Type name) = true -> tok_Type o = T_LParen ->
  parameters ps params -> tok_Type c = T_RParen -> result_type rs ty -> block bs rest b -> block_ok bs rest b ->
  statement_ok (t :: name :: o :: ps ++ c :: rs ++ bs) rest
    (Function_ (mkFunction t false false (or_doc (Doc t) (Doc t)) [] (Some (ident_of name)) [] params ty (Some b))).
Proof.
  intros Ht Hname Ho Hps Hc Hrs Hbs Hb [|n] r rest' -> Hn Hp; [lia|].
  cbn [app] in *. rewrite <- app_assoc in *. cbn [app] in *. rewrite <- app_assoc in *.
  pose proof (fun z => Hb n z r rest' eq_refl ltac:(len) ltac:(plain)) as Hbody.
  assert (Hbrace : exists l ls, bs ++ r :: rest' = l :: ls /\ tok_Type l = T_LBrace).
  { destruct Hbs as [l us ss d ? Hl]. cbn [app]. eauto. }
  destruct Hbrace as (l&ls&El&Hl). rewrite El in *.
  pose proof (fun z => reads_result n rs ty z l ls Hrs ltac:(len) Hl) as Hres.
  assert (Hfirst : exists d ds, rs ++ l :: ls = d :: ds) by (destruct rs; eauto).
  destruct Hfirst as (d&ds&Ed).
  pose proof (fun x => parameters_reads n o ps params c x d ds Ho Hps Hc ltac:(len) ltac:(rewrite <- Ed; plain)) as Hparams.
  rewrite <- Ed in Hparams.
  assert (Hlook : exists o2 os, ps ++ c :: rs ++ l :: ls = o2 :: os) by (destruct ps; eauto).
  destruct Hlook as (o2&os&Eo).
  eapply (reads_keyword _ (parseFunctionStatement n (parseExpression n) (parseStatement n) false)).
  { intros p Hat. unfold keyword_statement. rewrite (cur_at _ _ _ Hat), Ht, (third_at _ _ _ _ _ Hat), Ho.
    rewrite (bool_decide_eq_false_2 (Some T_LParen = Some T_Semicolon \/ _)) by (intros [|]; discriminate).
    by rewrite andb_false_r. }
  unfold parseFunctionStatement. step. step. rewrite tok_is_false by congruence.
  eapply (reads_seq _ _ _ (eq _)); [by apply reads_return|]. intros ? <-. step. rewrite tok_is_false by congruence.
  eapply (reads_seq _ _ _ (eq _)); [by apply reads_return|]. intros ? <-. step. rewrite tok_is_true by done.
  apply reads_expect_name; [done|]. step.
  apply (reads_seq _ _ _ (eq (name :: o :: ps ++ c :: rs ++ l :: ls)) _ []).
  { unfold parseGenericNames. step. rewrite tok_is_false by congruence. by apply reads_return. }
  intros ? <-. eapply reads_then; [exact (Hparams name)|]. intros z.
  eapply reads_then; [exact (Hres z)|]. intros z'. eapply reads_then; [exact (Hbody z')|]. intros z2. apply reads_done.
Qed.

Theorem statements_recognised :
  (forall ts rest s, statement ts rest s -> statement_ok ts rest s) /\
  (forall ts rest b, block ts rest b -> block_ok ts rest b) /\
  (forall ts rest ss, statements ts rest ss -> statements_ok ts rest ss) /\
  (forall ts rest cs, else_ifs ts rest cs -> else_ifs_ok ts rest cs) /\
  (forall ts rest b, otherwise ts rest b -> otherwise_ok ts rest b).
Proof.
  apply statement_mutual;
    eauto using nothing_ok, an_expression_ok, a_bare_return_ok, a_return_ok, a_jump_ok, a_throw_ok, a_let_ok,
      a_declaration_ok, a_while_ok, a_for_ok, an_if_ok, a_function_ok.
  all: eauto using a_block_ok, no_statements_ok, more_statements_ok, no_else_if_ok, an_else_if_ok,
      an_else_then_if_ok, no_else_ok, an_else_ok.
Qed.

(** ** Programs *)

(** Past the last token the cursor is on it. *)
Lemma next_at_end (p : Parser) (t u : Token) :
  at_tokens p [t; u] -> exists p', nextToken p = Done tt p' /\ curToken p' = u /\ errors p' = errors p.
Proof.
  intros Hp. pose proof (peek_at _ _ _ _ Hp) as Hpeek. destruct Hp as [(pre&Et&Epos) _ _].
  unfold nextToken, advance. rewrite Et, Epos, nth_error_app2 by lia.
  replace (length pre + 2 - length pre)%nat with 2%nat by lia. cbn.
  rewrite decide_False by done. eexists. split; [reflexivity|]. by rewrite Hpeek.
Qed.

Definition program_round (n : nat) (prog : Program) : M (Program + Program) :=
  let_ eof <- curTokenIs T_EOF;
  if eof then ret (inr prog)
  else
    let_ s <- parseStatement n;
    do_ nextToken;
    ret (inl (match s with NilStatement => prog | _ => mkProgram (Statements prog ++ [s]) end)).
(** The cursor is before the rest of the program, or at its end. *)
Definition within (p : Parser) (ts : list Token) (eof : Token) : Prop :=
  match ts with [] => curToken p = eof | _ => at_tokens p (ts ++ [eof]) end.

Lemma begins_within (ts : list Token) (eof : Token) :
  Forall lexed (ts ++ [eof]) ->
  within (New_tokens (ts ++ [eof])) ts eof /\ errors (New_tokens (ts ++ [eof])) = [].
Proof.
  intros Hl. destruct ts as [|t ts]; cbn [app within] in *.
  - inversion Hl as [|?? Hlex _]; subst. unfold New_tokens, bind, nextToken, advance. cbn.
    rewrite (decide_False (P := tok_Type eof = T_Illegal)) by exact Hlex. cbn. rewrite decide_False by done. done.
  - assert (Ht : exists u us, ts ++ [eof] = u :: us) by (destruct ts; eauto). destruct Ht as (u&us&Eu).
    rewrite Eu in *. by apply begins_at.
Qed.

Lemma program_loop (eof : Token) (ts : list Token) (ss : list Statement) (n : nat) :
  tok_Type eof = T_EOF -> statements ts [eof] ss -> (2 * length ts < n)%nat -> plain_lt (ts ++ [eof]) ->
  forall m acc p, (length ts < m)%nat -> within p ts eof ->
  exists p', loop m (program_round n) (mkProgram acc) p = Done (mkProgram (acc ++ ss)) p' /\ errors p' = errors p.
Proof.
  intros Heof Hss. remember [eof] as rest eqn:Er. induction Hss as [|ts us rest s ss Hs Hss IH]; subst rest;
    intros Hn Hp [|m] acc p Hm Hat; try (exfalso; lia).
  - exists p. rewrite app_nil_r. split; [|done]. cbn [loop]. unfold program_round, bind, curTokenIs. cbn [within] in Hat.
    by rewrite Hat, tok_is_true.
  - destruct (statement_first _ _ _ Hs) as [(t&us0&->&Ht1&Ht2) _]. cbn [within app] in Hat.
    assert (Hnext : exists v vs, us ++ [eof] = v :: vs) by (destruct us; eauto). destruct Hnext as (v&vs&Ev).
    rewrite <- app_assoc in *.
    pose proof (proj1 statements_recognised _ _ _ Hs n v vs Ev ltac:(len) ltac:(rewrite <- Ev; exact Hp)) as Hread.
    rewrite <- Ev in Hread. destruct (Hread p Hat) as (p1&us1&E1&Hp1&[z ->]&He1).
    assert (Hstep : exists p2, nextToken p1 = Done tt p2 /\ within p2 us eof /\ errors p2 = errors p1).
    { destruct us as [|u us]; cbn [app] in *.
      - destruct (next_at_end _ _ _ Hp1) as (p2&E2&Hc&He2). by exists p2.
      - assert (Hl : exists w ws, us ++ [eof] = w :: ws) by (destruct us; eauto). destruct Hl as (w&ws&Ew).
        rewrite Ew in *. destruct (next_at _ _ _ _ _ Hp1) as (p2&E2&Hp2&He2). exists p2. split_and!; [done| |done].
        cbn [within app]. by rewrite Ew. }
    destruct Hstep as (p2&E2&Hw2&He2).
    set (acc' := match s with NilStatement => acc | _ => acc ++ [s] end).
    destruct (IH eq_refl ltac:(len) ltac:(plain) m acc' p2 ltac:(len) Hw2) as (p3&E3&He3).
    exists p3. split; [|congruence]. cbn [loop]. unfold program_round, bind, curTokenIs.
    rewrite (cur_at _ _ _ Hat), tok_is_false by done. cbn [app] in E1. rewrite E1, E2.
    replace (acc ++ keep_statement s ss) with (acc' ++ ss)
      by (unfold acc'; destruct s; by rewrite <- ?app_assoc).
    rewrite <- E3. unfold acc', ret. clear. destruct s; reflexivity.
Qed.
Lemma parses_program (src : gostring) (ts : list Token) (eof : Token) (ss : list Statement) (n : nat) :
  tokens src = Some (ts ++ [eof]) -> Forall lexed (ts ++ [eof]) -> tok_Type eof = T_EOF ->
  statements ts [eof] ss -> plain_lt (ts ++ [eof]) -> (2 * length ts < n)%nat ->
  exists p, New src = Some p /\ exists p', ParseProgram n p = Done (mkProgram ss) p' /\ errors p' = [].
Proof.
  intros Hsrc Hl Heof Hss Hp Hn. exists (New_tokens (ts ++ [eof])). split; [unfold New; by rewrite Hsrc|].
  destruct (begins_within ts eof Hl) as [Hw He].
  destruct (program_loop eof ts ss n Heof Hss Hn Hp n [] _ ltac:(lia) Hw) as (p'&E&He').
  exists p'. split; [exact E|congruence].
Qed.
End Statements.

(** C8: The parser recognises the language of the grammar of statements. A source whose tokens are, up to
    the end of input, a list of statements by the grammar (declarations with and without a type, functions
    with typed, constant, defaulted and variadic parameters and a result type, if with its else-if and else
    branches, while, for-in, return, throw, defer, break, continue, blocks, expression and empty statements,
    over the grammars of types and of expressions) is parsed to exactly those statements, in order, with no
    error, given fuel for twice its length, on three conditions: the lexer rejected no token of it; no [<] of
    it is followed by what looks like type arguments before a call ([plain_lt]; [a < b > (c);] is a way to
    write two comparisons by the grammar, and a generic call to the parser); and where a statement begins with
    a name or a type the look-aheads of the parser agree, as [starts_plainly] and [starts_typed] say. *)
Theorem program_recognised `{UnicodeLetters} (src : gostring) (ts : list Token) (eof : Token) (ss : list Statement)
    (n : nat) :
  tokens src = Some (ts ++ [eof]) -> Forall lexed (ts ++ [eof]) -> tok_Type eof = T_EOF ->
  statements ts [eof] ss -> plain_lt (ts ++ [eof]) -> (2 * length ts < n)%nat ->
  parse_source n src = Some (mkProgram ss, []).
Proof.
  intros Hsrc Hl Heof Hss Hp Hn. destruct (parses_program src ts eof ss n) as (p&HN&p'&E&He); [done..|].
  unfold parse_source. by rewrite HN, E, He.
Qed.

(** ** A concrete program *)

Definition program_source : gostring :=
  bs "for (x in xs) { let y = x; print(y); } func f(int n, int m = 1): int { if (n < 2) { return m; } return f(n - 1); }".
Definition program_tokens : list Token :=
  Eval vm_compute in match tokens program_source with Some l => removelast l | None => [] end.
Definition program_end : Token :=
  Eval vm_compute in match tokens program_source with Some l => List.last l zero_token | None => zero_token end.

(** [piece ts i k] are the [k] tokens of the text [ts] from its token [i] on. *)
Ltac piece ts i k := eval vm_compute in (firstn k (skipn i ts)).
Ltac next_statement k :=
  match goal with
  | |- statements ?ts ?rest _ =>
      let l := piece ts 0%nat k in let r := eval vm_compute in (skipn k ts) in
      eapply (more_statements l r rest); cbn [app]
  end.
Ltac in_block :=
  match goal with
  | |- block (?o :: ?ts) _ _ =>
      let inner := eval vm_compute in (removelast ts) in let c := eval vm_compute in (List.last ts o) in
      eapply (a_block o inner _ c); [reflexivity| |reflexivity]
  end.
Ltac simple_type :=
  eexists; split; [apply unglued_same, unglued_nil|]; apply written_atom;
  eapply (written_name [] false _ [] _ [] [] [] false); first [reflexivity | constructor].
Ltac call_of_one k :=
  suffix_at 1%nat; [plain_operand|levels..|];
  match goal with |- suffix _ _ _ ?us _ => let a := piece us 0%nat k in eapply (suffix_call _ _ a) end;
    [reflexivity|apply arguments_some, arguments_last; eapply argument_plain|reflexivity|].

Lemma program_written :
  exists ss, statements program_tokens [program_end] ss.
Proof.
  eexists. unfold program_tokens, program_end.
  next_statement 18%nat.
  { eapply (a_for _ _ _ _ [_]); [reflexivity..|plain_operand|reflexivity|].
  in_block. next_statement 5%nat.
  { eapply (a_let _ _ [_; _]); [by left|reflexivity|eapply an_initial; [reflexivity|plain_operand]|reflexivity]. }
  next_statement 5%nat; [|apply no_statements].
  eapply (an_expression _ [_; _; _]); [|reflexivity|vm_compute; reflexivity]. call_of_one 1%nat.
  { plain_operand. }
  reflexivity. }
  next_statement 34%nat; [|apply no_statements].
  match goal with |- statement ?ts _ _ =>
      let ps := piece ts 3%nat 7%nat in let rs := piece ts 11%nat 2%nat in
      let bs := eval vm_compute in (skipn 13 ts) in
      eapply (a_function _ _ _ ps _ _ rs _ bs) end; [reflexivity..| |reflexivity| |].
    { apply any_parameters. eapply (more_parameters [_; _] _ _ [_; _; _; _]); [|reflexivity|apply last_parameter].
      - eapply (a_parameter _ [] _ _ []); [simple_type|discriminate|reflexivity|constructor].
      - eapply (a_parameter _ [] _ _ [_; _]); [simple_type|discriminate|reflexivity|].
        eapply an_initial; [reflexivity|plain_operand]. }
    { eapply a_result_type; [reflexivity|simple_type]. }
    in_block. next_statement 11%nat.
    { eapply (an_if _ _ [_; _; _] _ _ _ [_; _; _; _; _] _ [] _ []); [reflexivity|reflexivity| |reflexivity|..]; cbn [app].
      - suffix_at 1%nat; [plain_operand|levels..|]. binary. plain_operand.
      - in_block. next_statement 3%nat; [|apply no_statements].
        eapply (a_return _ [_]); [reflexivity|plain_operand|reflexivity].
      - apply no_else_if; reflexivity.
      - apply no_else. reflexivity. }
    next_statement 8%nat; [|apply no_statements].
    eapply (a_return _ [_; _; _; _; _; _]); [reflexivity| |reflexivity]. call_of_one 3%nat.
    { suffix_at 1%nat; [plain_operand|levels..|]. binary. plain_operand. }
    reflexivity.
Qed.
Lemma program_recognised_witness :
  exists ss, parse_source 400 program_source = Some (mkProgram ss, []).
Proof.
  destruct program_written as [ss Hss]. exists ss.
  apply (program_recognised program_source program_tokens program_end).
  - vm_compute. reflexivity.
  - repeat (constructor; [discriminate|]). constructor.
  - reflexivity.
  - exact Hss.
  - apply plain_ltb_spec. vm_compute. reflexivity.
  - vm_compute. lia.
Defined.
