(* ===== verification/Evaluator.v ===== *)
(** * Evaluator: the expressions of the tree-walking evaluator

    The second back end of the language (src/internal/evaluator/evaluator.go)
    on the parser's trees: literals, names, prefix and infix operators, short
    circuits, conditionals, ranges, and list, dict and set literals with
    spreads, with the evaluator's own arithmetic, comparison, equality,
    membership and key functions.  A form that the model does not evaluate
    (calls, selectors, casts, assignments, functions, comprehensions) has no
    answer ([None]). *)

From Stdlib Require Import QArith.
From S2P Require Import Prelude Float64 GoText Literal Value Machine Arith Compare DictStore DictKey RuneInfo RangeIter.
From S2P Require Import Dispatch Compile Token Lexer Ast Parsing StmtParser.
#[local] Open Scope Z_scope.

(** ** Operators by their text *)

Definition infix_operators : list (gostring * Operator) :=
  [(bs "in", InfixIn); (bs "+", InfixPlus); (bs "-", InfixMinus); (bs "*", InfixTimes); (bs "/", InfixDiv);
   (bs "//", InfixIntDiv); (bs "%", InfixMod); (bs "**", InfixPow); (bs "==", InfixEq); (bs "!=", InfixNe);
   (bs "<", InfixLt); (bs "<=", InfixLe); (bs ">", InfixGt); (bs ">=", InfixGe); (bs "&&", InfixAnd);
   (bs "||", InfixOr); (bs "xor", InfixXor); (bs "&", InfixBitAnd); (bs "|", InfixBitOr); (bs "^", InfixBitXor);
   (bs "<<", InfixShl); (bs ">>", InfixShr); (bs "??", InfixCoalesce); (bs "is", InfixIs); (bs "is not", InfixIsNot)].
Definition prefix_operators : list (gostring * PrefixOperator) :=
  [(bs "!", PrefixNot); (bs "-", PrefixMinus); (bs "~", PrefixBitNot)].
Definition operator_named {A : Type} (ops : list (gostring * A)) (s : gostring) : option A :=
  option_map snd (find (fun o => bool_decide (fst o = s)) ops).
Definition symbol (op : Operator) : gostring :=
  match find (fun o => bool_decide (snd o = op)) infix_operators with Some (s, _) => s | None => [] end.
Definition prefix_symbol (op : PrefixOperator) : gostring :=
  match op with PrefixNot => bs "!" | PrefixMinus => bs "-" | PrefixBitNot => bs "~" end.
Definition quoted (s : gostring) : gostring := [Byte.x22] ++ s ++ [Byte.x22].

Definition TypeError (message : gostring) : VMError := Classified (bs "TypeError") message.

(** [operatorMethodName], [prefixOperatorMethodName] and [isComparison]. *)
Definition operatorMethodName (op : Operator) : option gostring :=
  match op with
  | InfixPlus => Some (bs "__add")
  | InfixMinus => Some (bs "__sub")
  | InfixTimes => Some (bs "__mul")
  | InfixDiv => Some (bs "__div")
  | InfixIntDiv => Some (bs "__intdiv")
  | InfixMod => Some (bs "__mod")
  | InfixPow => Some (bs "__pow")
  | InfixLt => Some (bs "__lt")
  | InfixLe => Some (bs "__lte")
  | InfixGt => Some (bs "__gt")
  | InfixGe => Some (bs "__gte")
  | InfixBitAnd => Some (bs "__bitand")
  | InfixBitOr => Some (bs "__bitor")
  | InfixBitXor => Some (bs "__bitxor")
  | InfixShl => Some (bs "__lshift")
  | InfixShr => Some (bs "__rshift")
  | _ => None
  end.
Definition prefixOperatorMethodName (op : PrefixOperator) : gostring :=
  match op with PrefixNot => bs "__not" | PrefixMinus => bs "__neg" | PrefixBitNot => bs "__bitnot" end.
Definition isComparison (op : Operator) : bool :=
  match op with InfixLt | InfixLe | InfixGt | InfixGe => true | _ => false end.

(** ** Numbers *)

(** [intToFloatValue]. *)
Definition intToFloatValue (i : Z) : float64 := default f64_zero (NumericToFloat (VInt i)).
(** [decimalFloatArithError]. *)
Definition eval_decimalFloatArithError (op : Operator) (left right : Value) : VMError :=
  TypeError
    (bs "cannot mix decimal and float in " ++ symbol op ++ bs " (got " ++ TypeName left ++ bs " and "
     ++ TypeName right
     ++ bs "): cast one side - 'as float' drops decimal exactness, 'as decimal' adopts the float's imprecision").

(** [intFloorDivMod], and the floor of a quotient in [evalDecimalInfix]. *)
Definition eval_intFloorDivMod (left right : Z) : Z * Z :=
  let quotient := Z.quot left right in
  let remainder := Z.rem left right in
  if negb (Z.sgn remainder =? 0) && xorb (Z.sgn left <? 0) (Z.sgn right <? 0)
  then (quotient - 1, remainder + right) else (quotient, remainder).
Definition floored_quotient (q : Q) : Z :=
  let num := Qnum q in
  let den := Zpos (Qden q) in
  let floored := Z.quot num den in
  if (rat_sign q <? 0) && negb (floored * den =? num) then floored - 1 else floored.

(** [evalSmallIntInfix]: [None] for the operators it does not cover. *)
Definition evalSmallIntInfix (op : Operator) (l r : Z) : option (result VMError Value) :=
  match op with
  | InfixPlus => Some (Ok (if add_overflow l r then VInt (l + r) else VSmallInt (wrap64 (l + r))))
  | InfixMinus => Some (Ok (if sub_overflow l r then VInt (l - r) else VSmallInt (wrap64 (l - r))))
  | InfixTimes => Some (Ok (if mul_overflow l r then VInt (l * r) else VSmallInt (wrap64 (l * r))))
  | InfixIntDiv =>
      Some (if r =? 0 then Err (Plain (bs "integer division by zero"))
            else if (l =? min_int64) && (r =? -1) then Ok (VInt (- l))
            else
              let q := go_div64 l r in
              let rem := wrap64 (l - wrap64 (q * r)) in
              if negb (rem =? 0) && xorb (l <? 0) (r <? 0)
              then Ok (VSmallInt (wrap64 (q - 1))) else Ok (VSmallInt q))
  | InfixMod =>
      Some (if r =? 0 then Err (Plain (bs "modulo by zero"))
            else
              let m := go_rem64 l r in
              if negb (m =? 0) && xorb (l <? 0) (r <? 0)
              then Ok (VSmallInt (wrap64 (m + r))) else Ok (VSmallInt m))
  | InfixPow =>
      Some (if r <? 0 then Err (Plain (bs "int exponent must be a non-negative int64"))
            else if is_int64 (l ^ r) then Ok (VSmallInt (l ^ r)) else Ok (VInt (l ^ r)))
  | _ => None
  end.

(** [evalDecimalInfix]. *)
Definition evalDecimalInfix (op : Operator) (l r : Q) : result VMError Value :=
  match op with
  | InfixPlus => Ok (VDecimal (rat_add l r))
  | InfixMinus => Ok (VDecimal (rat_sub l r))
  | InfixTimes => Ok (VDecimal (rat_mul l r))
  | InfixDiv =>
      if rat_sign r =? 0 then Err (Plain (bs "decimal division by zero")) else Ok (VDecimal (rat_quo l r))
  | InfixIntDiv =>
      if rat_sign r =? 0 then Err (Plain (bs "decimal division by zero"))
      else Ok (VDecimal (inject_Z (floored_quotient (rat_quo l r))))
  | InfixMod =>
      if rat_sign r =? 0 then Err (Plain (bs "decimal modulo by zero"))
      else Ok (VDecimal (rat_sub l (rat_mul (inject_Z (floored_quotient (rat_quo l r))) r)))
  | _ => Err (Plain (bs "unsupported decimal operator " ++ quoted (symbol op)))
  end.

(** [evalIntInfix]. *)
Definition evalIntInfix (op : Operator) (l r : Z) : result VMError Value :=
  let shift_error :=
    Classified (bs "ValueError") (bs "shift amount must be a non-negative int, got " ++ FormatInt r) in
  match op with
  | InfixPlus => Ok (VInt (l + r))
  | InfixMinus => Ok (VInt (l - r))
  | InfixTimes => Ok (VInt (l * r))
  | InfixIntDiv =>
      if Z.sgn r =? 0 then Err (Plain (bs "integer division by zero"))
      else Ok (VInt (fst (eval_intFloorDivMod l r)))
  | InfixMod =>
      if Z.sgn r =? 0 then Err (Plain (bs "modulo by zero"))
      else Ok (VInt (snd (eval_intFloorDivMod l r)))
  | InfixDiv => evalDecimalInfix InfixDiv (IntToDecimal l) (IntToDecimal r)
  | InfixPow =>
      if negb (is_int64 r) || (Z.sgn r <? 0) then Err (Plain (bs "int exponent must be a non-negative int64"))
      else Ok (VInt (l ^ r))
  | InfixBitAnd => Ok (VInt (Z.land l r))
  | InfixBitOr => Ok (VInt (Z.lor l r))
  | InfixBitXor => Ok (VInt (Z.lxor l r))
  | InfixShl => if is_uint64 r then Ok (VInt (Z.shiftl l r)) else Err shift_error
  | InfixShr => if is_uint64 r then Ok (VInt (Z.shiftr l r)) else Err shift_error
  | _ => Err (Plain (bs "unsupported int operator " ++ quoted (symbol op)))
  end.

(** [evalBoolInfix]. *)
Definition evalBoolInfix (op : Operator) (left right : Value) : result VMError Value :=
  match left with
  | VBool l =>
      match right with
      | VBool r =>
          match op with
          | InfixAnd => Ok (VBool (l && r))
          | InfixOr => Ok (VBool (l || r))
          | InfixXor => Ok (VBool (negb (Bool.eqb l r)))
          | _ => Err (Plain (bs "unsupported bool operator " ++ quoted (symbol op)))
          end
      | _ => Err (TypeError (bs "right operand must be bool"))
      end
  | _ => Err (TypeError (bs "left operand must be bool"))
  end.

(** [strings.Contains] (standard library). *)
Fixpoint string_contains (s sub : gostring) : bool :=
  bool_decide (take (length sub) s = sub) ||
  match s with [] => false | _ :: s => string_contains s sub end.

(** What the evaluator takes from elsewhere: [strconv.ParseFloat], [strconv.Quote],
    [strings.ToLower], the [%p] and [%T] verbs; the frozen instances of the heap; and user code: the call of a method of an instance ([None] when its
    class has no method for the arguments) and the comparison of the fields of
    two instances. *)
Class Host := {
  ParseFloat : gostring -> option float64;
  Quote : gostring -> gostring;
  ToLower : gostring -> gostring;
  FormatPtr : Z -> gostring;
  GoType : gostring -> gostring;
  frozen : Z -> option (gostring * list (gostring * gostring));
  applyMethod : gostring -> Value -> list Value -> option (result VMError Value);
  fieldsEqual : Value -> Value -> result VMError bool }.

Section Evaluator.
Context `{UnicodeLetters} `{Externals} `{Host}.
(** [env.Get]. *)
Variable Get : gostring -> option Value.

(** [evalFloatInfix]. *)
Definition evalFloatInfix (op : Operator) (l r : float64) : result VMError Value :=
  match op with
  | InfixPlus => Ok (VFloat (f64_add l r))
  | InfixMinus => Ok (VFloat (f64_sub l r))
  | InfixTimes => Ok (VFloat (f64_mul l r))
  | InfixDiv => Ok (VFloat (f64_div l r))
  | InfixIntDiv =>
      if f64_eqb r f64_zero then Err (Plain (bs "float division by zero"))
      else Ok (VFloat (f64_floor (f64_div l r)))
  | InfixMod =>
      if f64_eqb r f64_zero then Err (Plain (bs "float modulo by zero"))
      else Ok (VFloat (f64_sub l (f64_mul (f64_floor (f64_div l r)) r)))
  | InfixPow => Ok (VFloat (math_Pow l r))
  | _ => Err (Plain (bs "unsupported float operator " ++ quoted (symbol op)))
  end.

(** [evalNumericInfix]. *)
Definition promote (v : Value) : Value := match v with VSmallInt i => VInt i | v => v end.
Definition evalNumericInfix (op : Operator) (left right : Value) : result VMError Value :=
  let fast :=
    match left, right with VSmallInt l, VSmallInt r => evalSmallIntInfix op l r | _, _ => None end in
  match fast with
  | Some r => r
  | None =>
      let left := promote left in
      let right := promote right in
      match left, right with
      | VInt l, VInt r => evalIntInfix op l r
      | VInt l, VDecimal r => evalDecimalInfix op (IntToDecimal l) r
      | VInt l, VFloat r => evalFloatInfix op (intToFloatValue l) r
      | VDecimal l, VInt r => evalDecimalInfix op l (IntToDecimal r)
      | VDecimal l, VDecimal r => evalDecimalInfix op l r
      | VDecimal _, VFloat _ => Err (eval_decimalFloatArithError op left right)
      | VFloat l, VFloat r => evalFloatInfix op l r
      | VFloat l, VInt r => evalFloatInfix op l (intToFloatValue r)
      | VFloat _, VDecimal _ => Err (eval_decimalFloatArithError op left right)
      | _, _ =>
          match BinaryOperatorValue nativeBinary (symbol op) left right with
          | Some r => r
          | None => Err (UnsupportedOperandsError (symbol op) (TypeName left) (TypeName right))
          end
      end
  end.

(** [compareValues] and [evalComparison]. *)
Definition comparison_holds (op : Operator) (cmp : Z) : bool :=
  match op with
  | InfixLt => cmp <? 0
  | InfixLe => cmp <=? 0
  | InfixGt => 0 <? cmp
  | _ => 0 <=? cmp
  end.
Definition evalComparison (op : Operator) (left right : Value) : result VMError Value :=
  match BinaryOperatorValue nativeBinary (symbol op) left right with
  | Some r => r
  | None =>
      match NumericCompare left right with
      | Ok cmp => Ok (VBool (comparison_holds op cmp))
      | Err e => Err e
      end
  end.

(** ** Operator methods *)

Definition method_of (name : gostring) (recv : Value) (args : list Value) : option (result VMError Value) :=
  match recv with VInstance _ _ => applyMethod name recv args | _ => None end.
Definition class_of (v : Value) : gostring := match v with VInstance c _ => c | _ => [] end.

(** [comparisonAttempts] and [evalComparisonMethod]. *)
Record comparisonAttempt := mkAttempt { at_name : gostring; at_recv : Value; at_arg : Value; at_negate : bool }.
Definition comparisonAttempts (op : Operator) (left right : Value) : list comparisonAttempt :=
  match op with
  | InfixLt => [mkAttempt (bs "__lt") left right false; mkAttempt (bs "__gt") right left false]
  | InfixGt => [mkAttempt (bs "__gt") left right false; mkAttempt (bs "__lt") right left false]
  | InfixLe => [mkAttempt (bs "__lte") left right false; mkAttempt (bs "__gt") left right true;
                mkAttempt (bs "__lt") right left true]
  | InfixGe => [mkAttempt (bs "__gte") left right false; mkAttempt (bs "__lt") left right true;
                mkAttempt (bs "__gt") right left true]
  | _ => []
  end.
Definition must_return_bool (class name : gostring) : VMError :=
  Plain (class ++ bs "." ++ name ++ bs " must return bool").
Fixpoint try_attempts (l : list comparisonAttempt) : option (result VMError Value) :=
  match l with
  | [] => None
  | a :: l =>
      match method_of (at_name a) (at_recv a) [at_arg a] with
      | None => try_attempts l
      | Some (Err e) => Some (Err e)
      | Some (Ok (VBool b)) => Some (Ok (VBool (xorb (at_negate a) b)))
      | Some (Ok _) => Some (Err (must_return_bool (class_of (at_recv a)) (at_name a)))
      end
  end.
Definition evalComparisonMethod (op : Operator) (left right : Value) : option (result VMError Value) :=
  if is_instance left || is_instance right then try_attempts (comparisonAttempts op left right) else None.

(** [evalOperatorMethod] and [evalPrefixOperatorMethod]. *)
Definition evalOperatorMethod (op : Operator) (left right : Value) : option (result VMError Value) :=
  if isComparison op then evalComparisonMethod op left right
  else match operatorMethodName op with
       | Some name => method_of name left [right]
       | None => None
       end.
Definition evalPrefixOperatorMethod (op : PrefixOperator) (right : Value) : option (result VMError Value) :=
  method_of (prefixOperatorMethodName op) right [].

(** [evalPrefix]. *)
Definition evalPrefix (op : PrefixOperator) (right : Value) : result VMError Value :=
  match evalPrefixOperatorMethod op right with
  | Some r => r
  | None =>
      match op with
      | PrefixNot =>
          match right with
          | VBool b => Ok (VBool (negb b))
          | _ => Err (TypeError (bs "! expects bool, got " ++ TypeName right))
          end
      | PrefixMinus =>
          match right with
          | VInt i => Ok (VInt (- i))
          | VDecimal q => Ok (VDecimal (Qopp q))
          | VFloat f => Ok (VFloat (f64_neg f))
          | _ =>
              match UnaryMinusValue nativeNegate right with
              | Some r => r
              | None => Err (TypeError (bs "- expects numeric value, got " ++ TypeName right))
              end
          end
      | PrefixBitNot =>
          match right with
          | VInt i => Ok (VInt (Z.lnot i))
          | _ => Err (TypeError (bs "~ expects int, got " ++ TypeName right))
          end
      end
  end.

(** ** Equality *)

(** [primitiveEqual]. *)
Fixpoint eval_primitiveEqual (left right : Value) {struct left} : bool :=
  match NumericValuesEqual left right with
  | Some eq => eq
  | None =>
      match left with
      | VList l =>
          match right with
          | VList r =>
              (length l =? length r)%nat &&
              (fix all (l r : list Value) : bool :=
                 match l, r with x :: l, y :: r => eval_primitiveEqual x y && all l r | _, _ => true end) l r
          | _ => false
          end
      | VDict l =>
          match right with
          | VDict r =>
              (length l =? length r)%nat &&
              forallb (fun e => match assoc (fst e) r with
                                | Some (k', v') =>
                                    eval_primitiveEqual (fst (snd e)) k' && eval_primitiveEqual (snd (snd e)) v'
                                | None => false
                                end) l
          | _ => false
          end
      | VSet l =>
          match right with
          | VSet r =>
              (length l =? length r)%nat &&
              forallb (fun e => match assoc (fst e) r with
                                | Some v' => eval_primitiveEqual (snd e) v'
                                | None => false
                                end) l
          | _ => false
          end
      | VInstance _ p => match right with VInstance _ q => p =? q | _ => false end
      | _ => default false (LeafValuesEqual payloadEq left right)
      end
  end.
(** [valuesEqual]. *)
Fixpoint valuesEqual (left right : Value) {struct left} : result VMError bool :=
  if IsNull left || IsNull right then Ok (IsNull left && IsNull right) else
  let fix all (l r : list Value) : result VMError bool :=
    match l, r with
    | x :: l, y :: r =>
        match valuesEqual x y with
        | Ok true => all l r
        | other => other
        end
    | _, _ => Ok true
    end in
  match left with
  | VEnumVariant p _ v fs =>
      match right with
      | VEnumVariant p' _ v' fs' =>
          if negb (p =? p') || negb (bool_decide (v = v')) || negb (length fs =? length fs')%nat
          then Ok false else all fs fs'
      | _ => Ok false
      end
  | VInstance c _ =>
      match applyMethod (bs "__eq") left [right] with
      | Some (Err e) => Err e
      | Some (Ok (VBool b)) => Ok b
      | Some (Ok _) => Err (must_return_bool c (bs "__eq"))
      | None => match right with VInstance _ _ => fieldsEqual left right | _ => Ok false end
      end
  | VList l =>
      match right with
      | VList r => if negb (length l =? length r)%nat then Ok false else all l r
      | _ => Ok false
      end
  | VDict l =>
      match right with
      | VDict r =>
          if negb (length l =? length r)%nat then Ok false
          else
            (fix entries (l : list (gostring * (Value * Value))) : result VMError bool :=
               match l with
               | [] => Ok true
               | (key, (k, v)) :: l =>
                   match assoc key r with
                   | None => Ok false
                   | Some (k', v') =>
                       match valuesEqual k k' with
                       | Err e => Err e
                       | Ok keyEq =>
                           match valuesEqual v v' with
                           | Err e => Err e
                           | Ok valEq => if negb keyEq || negb valEq then Ok false else entries l
                           end
                       end
                   end
               end) l
      | _ => Ok false
      end
  | VSet l =>
      match right with
      | VSet r =>
          if negb (length l =? length r)%nat then Ok false
          else
            (fix members (l : list (gostring * Value)) : result VMError bool :=
               match l with
               | [] => Ok true
               | (key, v) :: l =>
                   match assoc key r with
                   | None => Ok false
                   | Some v' =>
                       match valuesEqual v v' with
                       | Ok true => members l
                       | other => other
                       end
                   end
               end) l
      | _ => Ok false
      end
  | _ => Ok (eval_primitiveEqual left right)
  end.

(** [runtime.ValuesIdentical] on values; objects that are compared by reference
    and have no address in the model have no answer. *)
Definition ValuesIdentical (left right : Value) : option bool :=
  match left with
  | VInstance _ p => Some (match right with VInstance _ q => p =? q | _ => false end)
  | VClass p _ => Some (match right with VClass q _ => p =? q | _ => false end)
  | VBytecodeFunction m _ i =>
      Some (match right with VBytecodeFunction m' _ i' => bool_decide (m = m') && (i =? i') | _ => false end)
  | VList _ | VDict _ | VSet _ | VModule _ | VBytecodeClosure _ _ _ _ | VNativeObject _ _ _
  | VEnumVariant _ _ _ _ | VError _ _ | VOther _ => None
  | _ =>
      match LeafValuesEqual payloadEq left right with
      | Some equal => Some (equal && bool_decide (TypeName left = TypeName right))
      | None => Some false
      end
  end.

(** ** Keys and membership *)

(** [dictKey].  The default case prints the address of the call's own variable, [local]. *)
Fixpoint dictKey (local : Z) (v : Value) : gostring :=
  match v with
  | VNull => bs "n"
  | VBool b => if b then bs "b1" else bs "b0"
  | VSmallInt i => bs "i" ++ FormatInt i
  | VInt i => bs "i" ++ FormatInt i
  | VDecimal q => bs "d" ++ RatString q
  | VFloat f => bs "f" ++ FormatFloat_g (if f64_eqb f f64_zero then f64_zero else f)
  | VString s => bs "s" ++ s
  | VBytes l => bs "y" ++ EncodeToString l
  | VList es => bs "L[" ++ join (bs ",") (map (dictKey local) es) ++ bs "]"
  | VSet es => bs "S{" ++ join (bs ",") (sort_strings (map fst es)) ++ bs "}"
  | VDict es => bs "D{" ++ join_pairs (map (fun e => (fst e, dictKey local (snd (snd e)))) es) ++ bs "}"
  | VRange r =>
      bs "r" ++ FormatInt (Start r) ++ bs ":" ++ FormatInt (End_ r) ++ bs ":" ++ FormatInt (Step r) ++ bs ":"
      ++ FormatBool (Exclusive r)
  | VBytecodeFunction m n i => bs "bytecode-func:" ++ m ++ bs ":" ++ n ++ bs ":" ++ FormatInt i
  | VBytecodeClass m n i => bs "bytecode-class:" ++ m ++ bs ":" ++ n ++ bs ":" ++ FormatInt i
  | VNativeObject k i _ => bs "native:" ++ k ++ bs ":" ++ FormatInt i
  | VError c m => bs "error:" ++ Quote c ++ bs ":" ++ Quote m
  | VType n => bs "type:" ++ Quote n
  | VModule p => bs "module:" ++ FormatPtr p
  | VClass p _ => bs "class:" ++ FormatPtr p
  | VInterface p _ => bs "interface:" ++ FormatPtr p
  | VInstance _ _ => DictKey FormatFloat_g Quote FormatPtr GoType frozen local v
  | VBytecodeClosure _ _ _ _ => bs "runtime.BytecodeClosure:" ++ FormatPtr local
  | VDateTimeInstant _ => bs "runtime.DateTimeInstant:" ++ FormatPtr local
  | VDateTimeDuration _ => bs "runtime.DateTimeDuration:" ++ FormatPtr local
  | VDateTimeZone _ => bs "runtime.DateTimeZone:" ++ FormatPtr local
  | VURLValue _ => bs "runtime.URLValue:" ++ FormatPtr local
  | VHTTPHeaders _ => bs "runtime.HTTPHeaders:" ++ FormatPtr local
  | VHTTPCookie _ => bs "runtime.HTTPCookie:" ++ FormatPtr local
  | VTemplateValue _ _ _ => bs "runtime.TemplateValue:" ++ FormatPtr local
  | VTemplateEngine _ => bs "runtime.TemplateEngine:" ++ FormatPtr local
  | VEnumVariant _ _ _ _ => bs "runtime.EnumVariant:" ++ FormatPtr local
  | VComplex _ _ => bs "*runtime.Complex:" ++ FormatPtr local
  | VNDArray _ => bs "*runtime.NDArray:" ++ FormatPtr local
  | VDFSeries _ => bs "*runtime.DFSeries:" ++ FormatPtr local
  | VDFExpr _ => bs "*runtime.DFExpr:" ++ FormatPtr local
  | VPendingDefault => bs "runtime.PendingDefault:" ++ FormatPtr local
  | VOther t => GoType t ++ bs ":" ++ FormatPtr local
  end.

(** A value whose key prints an address, of itself or of a part, so that every call gives another key. *)
Fixpoint addressed (v : Value) : bool :=
  match v with
  | VBytecodeClosure _ _ _ _ | VDateTimeInstant _ | VDateTimeDuration _ | VDateTimeZone _ | VURLValue _
  | VHTTPHeaders _ | VHTTPCookie _ | VTemplateValue _ _ _ | VTemplateEngine _ | VEnumVariant _ _ _ _
  | VComplex _ _ | VNDArray _ | VDFSeries _ | VDFExpr _ | VPendingDefault | VOther _ => true
  | VList es => existsb addressed es
  | VDict es => existsb (fun e => addressed (snd (snd e))) es
  | _ => false
  end.
(** The key of a value that has one: what is put under an address is left out of the model. *)
Definition key_of (v : Value) : option gostring := if addressed v then None else Some (dictKey 0 v).

(** [evalContains]. *)
Fixpoint some_equal (needle : Value) (es : list Value) : result VMError bool :=
  match es with
  | [] => Ok false
  | el :: es =>
      match valuesEqual needle el with
      | Ok false => some_equal needle es
      | other => other
      end
  end.
Definition has_key {A : Type} (key : gostring) (es : list (gostring * A)) : bool :=
  match assoc key es with Some _ => true | None => false end.
Definition evalContains (needle container : Value) : option (result VMError Value) :=
  match container with
  | VList es => Some (match some_equal needle es with Ok b => Ok (VBool b) | Err e => Err e end)
  | VDict es =>
      if addressed needle then None
      else Some (Ok (VBool (has_key (DictKey FormatFloat_g Quote FormatPtr GoType frozen 0 needle) es)))
  | VSet es => (fun key => Ok (VBool (has_key key es))) <$> key_of needle
  | VString c =>
      match needle with
      | VString s => Some (Ok (VBool (string_contains c s)))
      | _ => Some (Err (TypeError (bs "in: left operand must be a string when the right operand is a string")))
      end
  | VRange r =>
      match IntValueToBigInt needle with
      | Some n => Some (Ok (VBool (ContainsInt r n)))
      | None => Some (Ok (VBool false))
      end
  | VInstance c _ =>
      match applyMethod (bs "__contains") container [needle] with
      | Some r => Some r
      | None => Some (Err (TypeError (c ++ bs " does not support 'in' (define __contains)")))
      end
  | _ =>
      Some (Err (TypeError (bs "'in' requires a list, dict, set, string, range, or an object with __contains, got "
                      ++ TypeName container)))
  end.

(** [evalInfix]; a short-circuit operator whose operands are both evaluated is
    left to [evalBoolInfix], and [??] is none of its operators. *)
Definition evalInfix (op : Operator) (left right : Value) : option (result VMError Value) :=
  match op with
  | InfixAnd | InfixOr | InfixXor => Some (evalBoolInfix op left right)
  | InfixEq =>
      Some (match valuesEqual left right with Ok b => Ok (VBool b) | Err e => Err e end)
  | InfixNe =>
      Some (match valuesEqual left right with Ok b => Ok (VBool (negb b)) | Err e => Err e end)
  | InfixIs => option_map (fun b => Ok (VBool b)) (ValuesIdentical left right)
  | InfixIsNot => option_map (fun b => Ok (VBool (negb b))) (ValuesIdentical left right)
  | InfixIn => evalContains left right
  | _ =>
      Some (match evalOperatorMethod op left right with
            | Some r => r
            | None =>
                if bool_decide (TypeName left = bs "string") && bool_decide (TypeName right = bs "string")
                   && bool_decide (op = InfixPlus)
                then match left, right with
                     | VString l, VString r => Ok (VString (l ++ r))
                     | _, _ => Err GoPanic
                     end
                else if isComparison op then evalComparison op left right
                else evalNumericInfix op left right
            end)
  end.

(** ** Expressions *)

Definition E (A : Type) : Type := option (result VMError A).
Definition ebind {A B : Type} (m : E A) (k : A -> E B) : E B :=
  match m with
  | Some (Ok a) => k a
  | Some (Err e) => Some (Err e)
  | None => None
  end.
Notation "'eval_' x <- m ; k" := (ebind m (fun x => k)) (at level 10, x name, m at level 100, k at level 200).
Definition ok {A : Type} (a : A) : E A := Some (Ok a).
Definition fail_with {A : Type} (message : gostring) : E A := Some (Err (Plain message)).

(** [runtime.IsBuiltinTypeName]. *)
Definition IsBuiltinTypeName (name : gostring) : bool :=
  bool_decide (ToLower name ∈
    [bs "string"; bs "int"; bs "float"; bs "decimal"; bs "bool"; bs "bytes"; bs "any"; bs "void"; bs "null";
     bs "list"; bs "dict"; bs "set"; bs "range"; bs "func"; bs "generator"; bs "iterable"]).

(** [ast.IsIntegerLiteral] on the parser's trees. *)
Fixpoint is_integer_literal (e : Expression) : bool :=
  match e with
  | IntegerLiteral _ _ => true
  | PrefixExpression _ op r _ =>
      bool_decide (op = bs "-") && match r with IntegerLiteral _ _ => true | _ => false end
  | TernaryExpression _ _ a b _ => is_integer_literal a && is_integer_literal b
  | _ => false
  end.

(** An integer literal where a decimal or a float is expected. *)
Definition int_literal (z : Z) (expected : option TypeRef) : Value :=
  match expected with
  | Some t =>
      match type_Operator t with
      | [] =>
          if bool_decide (type_Name t = bs "decimal") then VDecimal (IntToDecimal z)
          else if bool_decide (type_Name t = bs "float") then VFloat (f64_of_Z z)
          else VInt z
      | _ => VInt z
      end
  | None => VInt z
  end.

(** The condition of [&&], [||] and of a conditional ([evalBoolCondition]). *)
Definition as_condition (v : Value) : E bool :=
  match v with
  | VBool b => ok b
  | _ => Some (Err (TypeError (bs "condition must be bool, got " ++ TypeName v)))
  end.

(** [d.PutEntry] on the entries of a dict in their order, and the map of a set. *)
Fixpoint put_entry {A : Type} (key : gostring) (entry : A) (l : list (gostring * A)) : list (gostring * A) :=
  match l with
  | [] => [(key, entry)]
  | (k, e) :: l => if decide (k = key) then (k, entry) :: l else (k, e) :: put_entry key entry l
  end.
Definition put_all {A : Type} (entries l : list (gostring * A)) : list (gostring * A) :=
  fold_left (fun l e => put_entry (fst e) (snd e) l) entries l.

(** The end and the step of [evalRangeExpression], after the start: [inl] is the
    rune of a character range. *)
Definition eval_int (v : Value) (message : gostring) : E Z :=
  match IntValueToBigInt v with Some z => ok z | None => fail_with message end.
Definition range_start (v : Value) : E (Z + Z) :=
  match single_rune v with
  | Some r => ok (inl r)
  | None => eval_ z <- eval_int v (bs "range start must be int"); ok (inr z)
  end.

Fixpoint evalExpression (e : Expression) (expected : option TypeRef) {struct e} : E Value :=
  match e with
  | NilExpression => fail_with (bs "unsupported expression <nil>")
  | Ident i =>
      match Get (ident_Value i) with
      | Some v => ok v
      | None =>
          if IsBuiltinTypeName (ident_Value i) then ok (VType (ToLower (ident_Value i)))
          else fail_with (Quote (ident_Value i) ++ bs " is not declared")
      end
  | IntegerLiteral _ text =>
      match ParseIntLiteral text with
      | Some z => ok (int_literal z expected)
      | None => fail_with (bs "invalid integer literal " ++ Quote text)
      end
  | DecimalLiteral _ text =>
      match ParseDecimalLiteral RatSetString text with
      | Some q => ok (VDecimal q)
      | None => fail_with (bs "invalid decimal literal " ++ Quote text)
      end
  | FloatLiteral _ text =>
      match ParseFloat (strip_underscores (removelast text)) with
      | Some f => ok (VFloat f)
      | None => fail_with (bs "invalid float literal " ++ Quote text)
      end
  | StringLiteral _ s _ _ _ _ => ok (VString s)
  | Literal_ _ (Some b) => ok (VBool b)
  | Literal_ _ None => ok VNull
  | ListLiteral _ es _ _ =>
      eval_ vs <- (fix elements (es : list Expression) : E (list Value) :=
        match es with
        | [] => ok []
        | SpreadExpression _ e :: es =>
            eval_ v <- evalExpression e None;
            match v with
            | VList l => eval_ vs <- elements es; ok (l ++ vs)
            | _ => fail_with (bs "spread element must be a list")
            end
        | e :: es => eval_ v <- evalExpression e None; eval_ vs <- elements es; ok (v :: vs)
        end) es;
      ok (VList vs)
  | DictLiteral _ es _ =>
      eval_ d <- (fix entries (es : list DictEntry) (d : list (gostring * (Value * Value))) :
                    E (list (gostring * (Value * Value))) :=
        match es with
        | [] => ok d
        | mkEntry k v spread :: es =>
            if spread then
              eval_ src <- evalExpression v None;
              match src with
              | VDict l => entries es (put_all l d)
              | _ => fail_with (bs "dict literal spread source must be dict, got " ++ TypeName src)
              end
            else
              eval_ key <- evalExpression k None;
              eval_ value <- evalExpression v None;
              match key_of key with
              | Some k => entries es (put_entry k (key, value) d)
              | None => None
              end
        end) es [];
      ok (VDict d)
  | SetLiteral _ es _ =>
      eval_ d <- (fix elements (es : list Expression) (d : list (gostring * Value)) : E (list (gostring * Value)) :=
        match es with
        | [] => ok d
        | SpreadExpression _ e :: es =>
            eval_ src <- evalExpression e None;
            match src with
            | VSet l => elements es (put_all l d)
            | VList l =>
                match mapM (fun v => (fun k => (k, v)) <$> key_of v) l with
                | Some entries => elements es (put_all entries d)
                | None => None
                end
            | _ => fail_with (bs "set literal spread source must be set or list, got " ++ TypeName src)
            end
        | e :: es => eval_ v <- evalExpression e None; 
            match key_of v with
            | Some k => elements es (put_entry k v d)
            | None => None
            end
        end) es [];
      ok (VSet d)
  | RangeExpression _ start stop exclusive step =>
      eval_ first <- (match start with
                      | NilExpression => ok (inr 0)
                      | _ => eval_ v <- evalExpression start None; range_start v
                      end);
      match stop with
      | NilExpression => fail_with (bs "open-ended ranges are not evaluated outside slices yet")
      | _ =>
          eval_ last <- evalExpression stop None;
          match first with
          | inl r =>
              eval_ ignored <- (match step with NilExpression => ok VNull | _ => evalExpression step None end);
              match single_rune last with
              | Some r' => ok (VList (char_range exclusive r r'))
              | None => fail_with (bs "char range end must be a single-character string")
              end
          | inr a =>
              eval_ b <- eval_int last (bs "range end must be int");
              eval_ s <- (match step with
                          | NilExpression => ok 1
                          | _ => eval_ v <- evalExpression step None; eval_int v (bs "range step must be int")
                          end);
              if Z.sgn s =? 0 then fail_with (bs "range step cannot be zero")
              else ok (VRange (mkRange a b exclusive s))
          end
      end
  | PrefixExpression _ op r _ =>
      let operandExpected := if bool_decide (op = bs "-") && is_integer_literal e then expected else None in
      match operator_named prefix_operators op with
      | Some op => eval_ v <- evalExpression r operandExpected; Some (evalPrefix op v)
      | None =>
          eval_ v <- evalExpression r operandExpected;
          fail_with (bs "unsupported prefix operator " ++ Quote op)
      end
  | InfixExpression _ l op r None _ =>
      match operator_named infix_operators op with
      | Some InfixAnd =>
          eval_ v <- evalExpression l None;
          eval_ a <- as_condition v;
          if negb a then ok (VBool false)
          else (eval_ w <- evalExpression r None; eval_ b <- as_condition w; ok (VBool b))
      | Some InfixOr =>
          eval_ v <- evalExpression l None;
          eval_ a <- as_condition v;
          if a then ok (VBool true)
          else (eval_ w <- evalExpression r None; eval_ b <- as_condition w; ok (VBool b))
      | Some InfixCoalesce =>
          eval_ v <- evalExpression l expected;
          match v with VNull => evalExpression r expected | _ => ok v end
      | Some op =>
          eval_ v <- evalExpression l None;
          eval_ w <- evalExpression r None;
          evalInfix op v w
      | None => None
      end
  | TernaryExpression _ c a b _ =>
      eval_ v <- evalExpression c None;
      eval_ t <- as_condition v;
      if t then evalExpression a expected else evalExpression b expected
  | _ => None
  end.

(** [EvalExpression]: the first statement of a source that has to be an
    expression, with a semicolon added. *)
Definition EvalExpression (n : nat) (src : gostring) : E Value :=
  let src := match last src with
             | Some b => if decide (b = Byte.x3b) then src else src ++ bs ";"
             | None => src
             end in
  match parse_source n src with
  | None => None
  | Some (prog, e :: _) => fail_with e
  | Some (prog, []) =>
      match Statements prog with
      | [] => ok VNull
      | ExpressionStatement _ e :: _ => evalExpression e None
      | _ :: _ => fail_with (bs "expected expression")
      end
  end.
End Evaluator.
