(* ===== verification/Source.v ===== *)
(** * Source: from the text of an expression to its value

    The lexer, the parser, the expression compiler and the machine composed:
    [lower] takes the parser's trees of scalar expressions to the expressions
    of Compile.v, and [run_source] runs a text. *)

From S2P Require Import Prelude Float64 GoText Literal Value Machine Dispatch Compile Meaning Runs Compiled.
From S2P Require Import Token Lexer Ast Parsing StmtParser Cursor TypeGrammar Grammar Parsed Evaluator.

(** The trees the model of the compiler translates, at their positions. *)
Definition pos_of (t : Token) : Pos := mkPos (Line t) (Column t).
Fixpoint lower (e : Ast.Expression) : option Compile.Expression :=
  match e with
  | IntegerLiteral t v => Some (Compile.IntegerLiteral (pos_of t) v)
  | DecimalLiteral t v => Some (Compile.DecimalLiteral (pos_of t) v)
  | FloatLiteral t v => Some (Compile.FloatLiteral (pos_of t) v)
  | StringLiteral t v _ _ triple _ => Some (Compile.StringLiteral (pos_of t) triple v)
  | Literal_ t (Some b) => Some (BoolLiteral (pos_of t) b)
  | Literal_ t None => Some (NullLiteral (pos_of t))
  | Ident i => Some (Compile.Identifier (pos_of (ident_Token i)) (ident_Value i))
  | InfixExpression t l op r None _ =>
      match operator_named infix_operators op, lower l, lower r with
      | Some op, Some l, Some r => Some (Compile.InfixExpression (pos_of t) op l r)
      | _, _, _ => None
      end
  | PrefixExpression t op r _ =>
      match operator_named prefix_operators op, lower r with
      | Some op, Some r => Some (Compile.PrefixExpression (pos_of t) op r)
      | _, _ => None
      end
  | TernaryExpression t c a b _ =>
      match lower c, lower a, lower b with
      | Some c, Some a, Some b => Some (Compile.TernaryExpression (pos_of t) c a b)
      | _, _, _ => None
      end
  | _ => None
  end.

Section Source.
Context `{UnicodeLetters} `{Externals}.
Variable ParseFloat : gostring -> option float64.
Variable typeAliasLookup : option (gostring -> gostring).
Variable unresolvedName : Pos -> gostring -> Compiler -> result gostring Compiler.

(** Parse the first expression of a source, compile it and run the code. *)
Definition run_source (n : nat) (src expected : gostring) (c : Compiler) (vm : VM) :
    option (VM * result VMError unit) :=
  match option_map (parseExpression n lowest) (New src) with
  | Some (Done e _) =>
      match lower e with
      | Some k =>
          match compileExpressionWithExpected RatSetString ParseFloat typeAliasLookup unresolvedName k expected c with
          | Ok c' => dispatchLoop (S (length (Instructions c'))) (Constants c') (Instructions c') 0 vm
          | Err _ => None
          end
      | None => None
      end
  | _ => None
  end.

(** Running a source whose first tokens write an expression is running its code. *)
Lemma run_source_reads (src : gostring) (ts : list Token) (r : Token) (rest : list Token) (f : Type_ -> bool)
    (e : Ast.Expression) (k : Compile.Expression) (n : nat) (expected : gostring) (c c' : Compiler) (vm : VM) :
  tokens src = Some (ts ++ r :: rest) -> Forall lexed (ts ++ r :: rest) -> writes lowest f ts e ->
  closes (tok_Type r) = true -> plain_lt (ts ++ r :: rest) -> (2 * length ts < n)%nat -> lower e = Some k ->
  compileExpressionWithExpected RatSetString ParseFloat typeAliasLookup unresolvedName k expected c = Ok c' ->
  run_source n src expected c vm = dispatchLoop (S (length (Instructions c'))) (Constants c') (Instructions c') 0 vm.
Proof.
  intros Hsrc Hl Hw Hr Hp Hn Hk Hcomp.
  destruct (reads_source (parseExpression n lowest) src (ts ++ r :: rest) (r :: rest) e Hsrc Hl) as (p&p'&HN&Hpe&_).
  - destruct (writes_start _ _ _ _ Hw) as (t&us&->&_). rewrite length_app. cbn. lia.
  - apply (whole_expression f); [done|by apply parser_reads_grammar|done..].
  - unfold run_source. rewrite HN. cbn [option_map]. by rewrite Hpe, Hk, Hcomp.
Qed.

(** C2: The front end and the back end compose. When the text of a source is, by the grammar of
    expressions, a way to write a scalar expression [e], followed by a closing token, and no [<] in it looks
    like the type arguments of a call ([plain_lt]), then lexing, parsing, compiling and running it leaves on
    the stack the value that [e] means in the scope (and every variable its own value), or ends with the error
    [e] means. The exclusions of [compile_correct] remain, by name: an operation on literals of which the
    folder reads one as octal ([source_ok]: 010 + 1 leaves 9, not 11), and an evaluation that meets the product
    of -1 and -2^63 or a fused remainder test on a local that is captured or big ([trapped]). *)
Theorem source_evaluates (src : gostring) (ts : list Token) (r : Token) (rest : list Token) (f : Type_ -> bool)
    (e : Ast.Expression) (k : Compile.Expression) (n : nat) (expected : gostring) (c c' : Compiler)
    (env : gostring -> option Value) (unboxed : Z -> bool) (vm : VM) (v : result VMError Value) :
  tokens src = Some (ts ++ r :: rest) -> Forall lexed (ts ++ r :: rest) -> writes lowest f ts e ->
  closes (tok_Type r) = true -> plain_lt (ts ++ r :: rest) -> (2 * length ts < n)%nat ->
  lower e = Some k -> Instructions c = [] -> source_ok ParseFloat c k = true ->
  compileExpressionWithExpected RatSetString ParseFloat typeAliasLookup unresolvedName k expected c = Ok c' ->
  vars_ok c env unboxed vm -> trapped ParseFloat typeAliasLookup c env unboxed expected k = false ->
  value_of ParseFloat typeAliasLookup c env unboxed expected k = Some v ->
  exists vm',
    run_source n src expected c vm = Some (vm', match v with Ok _ => Ok tt | Err err => Err err end) /\
    match v with
    | Ok v => exists w, stack vm' = w :: stack vm /\ repr w v /\ preserves vm vm'
    | Err _ => True
    end.
Proof.
  intros Hsrc Hl Hw Hr Hp Hn Hk Hc Hs Hcomp Hv Ht He. rewrite <- value_of_eval in He by exact Ht.
  erewrite run_source_reads; [|exact Hsrc|exact Hl|exact Hw|exact Hr|exact Hp|exact Hn|exact Hk|exact Hcomp].
  eapply correct_runs; [by eapply expression_correct|done..].
Qed.
End Source.

(** ** A concrete text *)

Definition evaluated_source : gostring := bs "x % 3 == 1 ? 2 * 3 + x : null;".
Definition evaluated_tokens : list Token :=
  Eval vm_compute in match tokens evaluated_source with Some l => l | None => [] end.
Definition evaluated_tree : Ast.Expression :=
  Eval vm_compute in
  match option_map (parseExpression 40 lowest) (New evaluated_source) with
  | Some (Done e _) => e
  | _ => NilExpression
  end.
Definition evaluated_code : Compiler :=
  match lower evaluated_tree with
  | Some k =>
      match @compileExpressionWithExpected (fun _ => None) (fun _ => None) None (fun _ _ c => Ok c)
              k [] sample_compiler with
      | Ok c => c
      | Err _ => sample_compiler
      end
  | None => sample_compiler
  end.

Lemma evaluated_written : exists f, writes lowest f (firstn 13 evaluated_tokens) evaluated_tree.
Proof.
  unfold evaluated_tokens, evaluated_tree. cbn [firstn]. eexists.
  suffix_at 5%nat.
  { suffix_at 3%nat.
    { suffix_at 1%nat; [plain_operand|levels..|]. binary. plain_operand. }
    { levels. }
    { levels. }
    binary. plain_operand. }
  { levels. }
  { levels. }
  match goal with |- suffix _ ?l ?op ?us _ =>
    eapply (suffix_ternary l op (firstn 5 us) _ _ (nth 5 us zero_token) (skipn 6 us)) end; [reflexivity| |reflexivity|].
  { suffix_at 3%nat.
    { suffix_at 1%nat; [plain_operand|levels..|]. binary. plain_operand. }
    { levels. }
    { levels. }
    binary. plain_operand. }
  plain_operand.
Qed.

Lemma source_evaluates_witness (vm := sample_vm (SVal (VMValueFromValue (VSmallInt 7)))) :
  exists vm', @run_source _ plain_externals (fun _ => None) None (fun _ _ c => Ok c) 40 evaluated_source []
                sample_compiler vm = Some (vm', Ok tt) /\
    exists w, stack vm' = w :: [VMValueNull] /\ repr w (VInt 13) /\ preserves vm vm'.
Proof.
  destruct evaluated_written as [f Hw].
  eapply (@source_evaluates _ plain_externals (fun _ => None) None (fun _ _ c => Ok c) evaluated_source
           (firstn 13 evaluated_tokens) (nth 13 evaluated_tokens zero_token) (skipn 14 evaluated_tokens)
           f evaluated_tree _ 40 [] sample_compiler evaluated_code sample_env (fun _ => true) vm (Ok (VInt 13))).
  - vm_compute. reflexivity.
  - repeat (constructor; [discriminate|]). constructor.
  - exact Hw.
  - reflexivity.
  - apply plain_ltb_spec. vm_compute. reflexivity.
  - cbn. lia.
  - vm_compute. reflexivity.
  - reflexivity.
  - vm_compute. reflexivity.
  - vm_compute. reflexivity.
  - apply sample_vars.
  - vm_compute. reflexivity.
  - vm_compute. reflexivity.
Defined.
