(* ===== verification/Parity.v ===== *)
(** * Parity: the two back ends agree

    The evaluator (Evaluator.v) and the compiled code on the machine (Compiled.v)
    are meant to be interchangeable.  They share the comparison kernel; the
    arithmetic, the equality, the keys and the control of expressions are
    written twice, and agree on scalar expressions but for the gaps that
    [gap] names: powers of decimals and the signs of small integers, which the
    evaluator does not have. *)

From Stdlib Require Import QArith.
From S2P Require Import Prelude Float64 GoText Literal Value Ops Machine Arith Compare DictStore DictKey RuneInfo RangeIter.
From S2P Require Import Dispatch Compile Meaning Runs Compiled Token Lexer Ast Parsing StmtParser Cursor TypeGrammar.
From S2P Require Import Grammar Parsed Program Evaluator Source.
#[local] Open Scope Z_scope.

(** ** Arithmetic *)

(** The same value, or a failure in both (their messages may differ). *)
Definition same (x y : result VMError Value) : Prop :=
  match x, y with Ok a, Ok b => a = b | Err _, Err _ => True | _, _ => False end.
Definition same_settled (x y : result VMError Value) : Prop :=
  match x, y with Ok a, Ok b => settle a = settle b | Err _, Err _ => True | _, _ => False end.

Lemma same_refl (x : result VMError Value) : same x x.
Proof. by destruct x. Qed.
Lemma same_weaken (x y : result VMError Value) : same x y -> same_settled x y.
Proof. destruct x, y; cbn; [by intros ->|done..]. Qed.

Lemma sgn_eqb_0 (z : Z) : (Z.sgn z =? 0) = (z =? 0).
Proof. by destruct z. Qed.
Lemma sgn_ltb_0 (z : Z) : (Z.sgn z <? 0) = (z <? 0).
Proof. by destruct z. Qed.
Lemma floor_div_agrees (l r : Z) : eval_intFloorDivMod l r = intFloorDivMod l r.
Proof. unfold eval_intFloorDivMod, intFloorDivMod. by rewrite sgn_eqb_0, !sgn_ltb_0. Qed.
Lemma floored_quotient_agrees (q : Q) : floored_quotient q = ratFloorInt q.
Proof.
  unfold floored_quotient, ratFloorInt. pose proof (Z.quot_rem (Qnum q) (Zpos (Qden q)) ltac:(done)) as Hqr.
  replace (Z.quot (Qnum q) (Zpos (Qden q)) * Zpos (Qden q) =? Qnum q) with (Z.rem (Qnum q) (Zpos (Qden q)) =? 0);
    [done|].
  destruct (Z.eqb_spec (Z.rem (Qnum q) (Zpos (Qden q))) 0), (Z.eqb_spec (Z.quot (Qnum q) (Zpos (Qden q)) * Zpos (Qden q)) (Qnum q));
    lia.
Qed.

(** The machine's opcode of an operator of numbers. *)
Definition numeric_opcode (op : Operator) : option Op :=
  match op with
  | InfixPlus => Some OpAdd
  | InfixMinus => Some OpSub
  | InfixTimes => Some OpMul
  | InfixDiv => Some OpDiv
  | InfixIntDiv => Some OpIntDiv
  | InfixMod => Some OpMod
  | InfixPow => Some OpPow
  | _ => None
  end.
Definition is_decimal (v : Value) : bool := match v with VDecimal _ => true | _ => false end.

Section Parity.
Context `{Externals} `{Host}.

Lemma decimal_agrees (op : Operator) (o : Op) (l r : Q) :
  numeric_opcode op = Some o -> op <> InfixPow ->
  same (evalDecimalInfix op l r) (decimalBinary math_Pow FormatFloat_g RatSetString o l r).
Proof.
  intros Ho Hp. destruct op; try discriminate; injection Ho as <-; try done;
    cbn [evalDecimalInfix decimalBinary]; destruct (rat_sign r =? 0); try done;
    by rewrite floored_quotient_agrees.
Qed.
Lemma float_agrees (op : Operator) (o : Op) (l r : float64) :
  numeric_opcode op = Some o -> same (evalFloatInfix op l r) (floatBinary math_Pow o l r).
Proof.
  intros Ho. destruct op; try discriminate; injection Ho as <-; try apply same_refl;
    cbn [evalFloatInfix floatBinary]; by destruct (f64_eqb r f64_zero).
Qed.
Lemma int_agrees (op : Operator) (o : Op) (l r : Z) :
  numeric_opcode op = Some o ->
  same (evalIntInfix op l r) (intBinary math_Pow FormatFloat_g RatSetString o l r).
Proof.
  intros Ho. destruct op; try discriminate; injection Ho as <-; try apply same_refl;
    cbn [evalIntInfix intBinary]; rewrite ?floor_div_agrees.
  - by apply decimal_agrees.
  - by destruct (Z.sgn r =? 0).
  - by destruct (Z.sgn r =? 0).
  - by destruct (negb (is_int64 r) || (Z.sgn r <? 0)).
Qed.
Lemma small_agrees (op : Operator) (o : Op) (l r : Z) :
  numeric_opcode op = Some o ->
  same (default (evalIntInfix op l r) (evalSmallIntInfix op l r))
    (smallIntBinary math_Pow FormatFloat_g RatSetString o l r).
Proof.
  intros Ho. destruct op; try discriminate; injection Ho as <-; try apply same_refl;
    cbn [evalSmallIntInfix smallIntBinary default].
  - by apply (decimal_agrees InfixDiv).
  - destruct (r =? 0); [done|]. apply same_refl.
  - destruct (r =? 0); [done|]. apply same_refl.
  - destruct (r <? 0); [done|]. apply same_refl.
Qed.

Lemma numeric_parity (op : Operator) (o : Op) (l r : Value) :
  numeric_opcode op = Some o -> scalar l = true -> scalar r = true ->
  (op = InfixPow -> is_decimal l || is_decimal r = false) ->
  same (evalNumericInfix op l r) (numeric_value o l r).
Proof.
  intros Ho Hl Hr Hpow.
  assert (Hdec : is_decimal l || is_decimal r = true -> op <> InfixPow) by (intros Hd E; by rewrite Hpow in Hd).
  unfold evalNumericInfix, numeric_value.
  destruct l; try discriminate; destruct r; try discriminate;
    cbn [promote binaryNumericValues isNumericValue BinaryOperatorValue is_native_operand andb orb is_decimal] in *;
    first [exact I | by apply int_agrees | by apply decimal_agrees; auto | by apply float_agrees | idtac].
  pose proof (small_agrees op o i i0 Ho) as Hs. by destruct (evalSmallIntInfix op i i0).
Qed.

(** ** The other operators *)

(** The equality of an instance with another value, as [valuesEqual] decides it. *)
Definition instance_equal (left right : Value) : result VMError bool :=
  match left with
  | VInstance c _ =>
      match applyMethod (bs "__eq") left [right] with
      | Some (Err e) => Err e
      | Some (Ok (VBool b)) => Ok b
      | Some (Ok _) => Err (must_return_bool c (bs "__eq"))
      | None => match right with VInstance _ _ => fieldsEqual left right | _ => Ok false end
      end
  | _ => Ok false
  end.

Lemma both_ifs (b c : bool) (x y : result VMError bool) :
  (if negb b || negb c then x else y) = (if b && c then y else x).
Proof. by destruct b, c. Qed.

(** Without instances the other parameter does not matter. *)
Lemma scalar_deepEqual (l r : Value) (ieq ieq' : Value -> Value -> result VMError bool) :
  scalar l = true -> deepEqual payloadEq ieq l r = deepEqual payloadEq ieq' l r.
Proof. intros Hl. by destruct l. Qed.

(** C5: Equality is one relation in both back ends. Given the same equality of class instances, and visiting
    the entries of a set in the same order (Go's order is random; it matters only where an [__eq] fails), the
    evaluator's [valuesEqual] and the machine's [deepEqual] give the same answer, or fail with the same
    error, on every two values: scalars of any numeric type, leaves, and lists, dicts, sets and enum
    variants nested in any way. *)
Theorem equality_matches : forall l r, valuesEqual l r = deepEqual payloadEq instance_equal l r.
Proof.
  fix IH 1. intros l r. destruct l; cbn [valuesEqual deepEqual];
    destruct (IsNull _ || IsNull r) eqn:En; try reflexivity;
    try (unfold eval_primitiveEqual, primitiveEqual; by destruct (NumericValuesEqual _ r));
    destruct r; try discriminate; try reflexivity; clear En.
  - cbn [NumericValuesEqual NumericToRat NumericToFloat]. rewrite if_negb.
    destruct (length Elements =? length Elements0)%nat; [|reflexivity].
    revert Elements0. induction Elements as [|x xs IHx]; intros [|y ys]; try reflexivity.
    rewrite IH. destruct (deepEqual _ _ x y) as [[]|]; [apply IHx|reflexivity..].
  - cbn [NumericValuesEqual NumericToRat NumericToFloat]. rewrite if_negb.
    destruct (length entries =? length entries0)%nat; [|reflexivity].
    induction entries as [|[key [k v]] es IHe]; [reflexivity|].
    destruct (assoc key entries0) as [[k' v']|]; [|reflexivity].
    rewrite IH. destruct (deepEqual _ _ k k'); [|reflexivity].
    rewrite IH. destruct (deepEqual _ _ v v'); [|reflexivity]. rewrite both_ifs.
    destruct (_ && _); [apply IHe|reflexivity].
  - cbn [NumericValuesEqual NumericToRat NumericToFloat]. rewrite if_negb.
    destruct (length Elements =? length Elements0)%nat; [|reflexivity].
    induction Elements as [|[key v] es IHe]; [reflexivity|].
    destruct (assoc key Elements0) as [v'|]; [|reflexivity].
    rewrite IH. destruct (deepEqual _ _ v v') as [[]|]; [apply IHe|reflexivity..].
  - cbn [NumericValuesEqual NumericToRat NumericToFloat]. rewrite <- negb_andb, <- negb_andb, if_negb.
    destruct (_ && _); [|reflexivity].
    revert Fields0. induction Fields as [|x xs IHx]; intros [|y ys]; try reflexivity.
    rewrite IH. destruct (deepEqual _ _ x y) as [[]|]; [apply IHx|reflexivity..].
Qed.

(** C6: Dicts and sets are keyed alike in both back ends, where a key identifies a value at all. For a value
    that is not [addressed] (it has no part that falls to the default case of [dictKey], which prints the
    address of the call's own variable: a closure, an instant, a duration, an enum variant, a complex number
    and the like), the evaluator's [dictKey] and the [DictKey] of the machine give the same string, nested in
    any way, whatever the addresses of their variables, so an entry put under a key by one is found by the
    other. Addressed values are not found again even by one back end (DictKey.addressed_key_lost). *)
Theorem keys_match (l1 l2 : Z) (v : Value) :
  addressed v = false ->
  dictKey l1 v = DictKey FormatFloat_g Quote FormatPtr GoType frozen l2 v.
Proof.
  revert v. fix IH 1. intros v Hv. destruct v; try reflexivity; try discriminate Hv; cbn [dictKey DictKey].
  - enough (map (dictKey l1) Elements = map (DictKey FormatFloat_g Quote FormatPtr GoType frozen l2) Elements)
      as -> by done.
    induction Elements as [|x xs IHx]; [done|]. cbn [addressed existsb] in Hv.
    apply orb_false_iff in Hv as [Hx Hxs]. cbn [map]. rewrite (IH x Hx). f_equal. by apply IHx.
  - enough (map (fun e => (fst e, dictKey l1 (snd (snd e)))) entries =
            map (fun e => (fst e, DictKey FormatFloat_g Quote FormatPtr GoType frozen l2 (snd (snd e)))) entries)
      as -> by done.
    induction entries as [|[key [k x]] es IHe]; [done|]. cbn [addressed existsb] in Hv.
    apply orb_false_iff in Hv as [Hx Hes]. cbn [map fst snd] in *. rewrite (IH x Hx). f_equal. by apply IHe.
Qed.

(** ** Operators on scalars *)

Lemma scalar_not_native (l r : Value) (sym : gostring) :
  scalar l = true -> scalar r = true -> BinaryOperatorValue nativeBinary sym l r = None.
Proof. intros Hl Hr. destruct l; try discriminate; destruct r; try discriminate; reflexivity. Qed.
Lemma scalar_no_method (op : Operator) (l r : Value) :
  scalar l = true -> scalar r = true -> evalOperatorMethod op l r = None.
Proof.
  intros Hl Hr. unfold evalOperatorMethod, evalComparisonMethod.
  destruct l; try discriminate; destruct r; try discriminate; by destruct op.
Qed.

Definition compare_opcode (op : Operator) : option Op :=
  match op with
  | InfixLt => Some OpLess
  | InfixLe => Some OpLessEqual
  | InfixGt => Some OpGreater
  | InfixGe => Some OpGreaterEqual
  | _ => None
  end.
Lemma comparison_parity (op : Operator) (o : Op) (l r : Value) :
  compare_opcode op = Some o -> scalar l = true -> scalar r = true ->
  same (evalComparison op l r) (compare_value o l r).
Proof.
  intros Ho Hl Hr. unfold evalComparison, compare_value. rewrite scalar_not_native by done.
  destruct (NumericCompare l r) as [c|]; [|done].
  destruct op; try discriminate; injection Ho as <-; cbn; f_equal; by rewrite ?Z.gtb_ltb, ?Z.geb_leb.
Qed.

Definition bitwise_opcode (op : Operator) : option Op :=
  match op with
  | InfixBitAnd => Some OpBitAnd
  | InfixBitOr => Some OpBitOr
  | InfixBitXor => Some OpBitXor
  | InfixShl => Some OpLShift
  | InfixShr => Some OpRShift
  | _ => None
  end.
Lemma settle_int_value (z : Z) : settle (int_value z) = VInt z.
Proof. unfold int_value. by destruct (is_int64 z). Qed.
Definition agree_values (u v : result VMError Value) : Prop :=
  match u, v with
  | Ok a, Ok b => scalar a = true /\ settle a = settle b
  | Err _, Err _ => True
  | _, _ => False
  end.
Lemma bits_parity (op : Operator) (o : Op) (l r : Z) :
  bitwise_opcode op = Some o ->
  agree_values (evalIntInfix op l r) (bitwise_value o (VInt l) (VInt r)).
Proof.
  intros Ho. destruct op; try discriminate; injection Ho as <-;
    cbn [evalIntInfix bitwise_value intToBigInt]; try (split; [done|by rewrite settle_int_value]);
    destruct (is_uint64 r); try done; (split; [done|by rewrite settle_int_value]).
Qed.
Lemma bitwise_parity (op : Operator) (o : Op) (l r : Value) :
  bitwise_opcode op = Some o -> scalar l = true -> scalar r = true ->
  agree_values (evalNumericInfix op l r) (bitwise_value o l r).
Proof.
  intros Ho Hl Hr. pose proof (fun i j => bits_parity op o i j Ho) as Hb. unfold evalNumericInfix.
  assert (Hfast : forall i j, evalSmallIntInfix op i j = None) by (by destruct op).
  destruct l; try discriminate; destruct r; try discriminate; rewrite ?Hfast; cbn [promote];
    rewrite ?scalar_not_native by done; try apply Hb; try done; by destruct op.
Qed.

(** What an infix operator leaves in the evaluator and by the machine's opcodes. *)
Lemma same_agree (u v : result VMError Value) : same u v -> scalar_result v -> agree_values u v.
Proof. destruct u, v; cbn; try done. intros -> Hs. split; [by apply Hs|done]. Qed.

Definition power_gap (op : Operator) (l r : Value) : bool :=
  match op with InfixPow => is_decimal l || is_decimal r | _ => false end.
Definition plain_infix (op : Operator) : option Op :=
  match op with InfixXor => Some OpBoolXor | InfixEq => Some OpEqual | _ =>
    match numeric_opcode op with
    | Some o => Some o
    | None => match compare_opcode op with Some o => Some o | None => bitwise_opcode op end
    end
  end.
Lemma opcode2_numeric (o : Op) (l r : Value) :
  o ∈ [OpSub; OpMul; OpDiv; OpIntDiv; OpMod; OpPow] -> opcode2_value o l r = numeric_value o l r.
Proof. rewrite !elem_of_cons, elem_of_nil. by intros [->|[->|[->|[->|[->|[->|[]]]]]]]. Qed.

Definition by_methods (op : Operator) : bool :=
  match op with
  | InfixAnd | InfixOr | InfixXor | InfixEq | InfixNe | InfixIs | InfixIsNot | InfixIn => false
  | _ => true
  end.
(** [evalInfix] on scalars, past the strings and the methods. *)
Lemma evalInfix_scalar (op : Operator) (l r : Value) :
  scalar l = true -> scalar r = true -> by_methods op = true ->
  evalInfix op l r =
    Some (match op, l, r with
          | InfixPlus, VString a, VString b => Ok (VString (a ++ b))
          | _, _, _ => if isComparison op then evalComparison op l r else evalNumericInfix op l r
          end).
Proof.
  intros Hl Hr Hop.
  pose proof (scalar_no_method op l r Hl Hr) as Hm.
  destruct op; try discriminate; cbn [evalInfix]; rewrite Hm; try (by rewrite andb_false_r);
    destruct l; try discriminate; destruct r; try discriminate; reflexivity.
Qed.

Lemma add_parity (l r : Value) :
  scalar l = true -> scalar r = true ->
  agree_values (match l, r with VString a, VString b => Ok (VString (a ++ b)) | _, _ => evalNumericInfix InfixPlus l r end)
    (Meaning.add_value l r).
Proof.
  intros Hl Hr. pose proof (numeric_parity InfixPlus OpAdd l r eq_refl Hl Hr ltac:(done)) as Hn.
  apply same_agree in Hn; [|by apply numeric_scalar].
  destruct l; try discriminate; try exact Hn; destruct r; try discriminate; done.
Qed.

Lemma infix_parity (op : Operator) (o : Op) (l r : Value) :
  plain_infix op = Some o -> scalar l = true -> scalar r = true -> power_gap op l r = false ->
  exists u, evalInfix op l r = Some u /\ agree_values u (opcode2_value o l r).
Proof.
  intros Ho Hl Hr Hgap.
  destruct (numeric_opcode op) as [o'|] eqn:En.
  { assert (o' = o) as -> by (destruct op; simpl in *; congruence).
    assert (Hs : agree_values (evalNumericInfix op l r) (numeric_value o l r)).
    { apply same_agree; [|by apply numeric_scalar]. apply numeric_parity; [done..|]. by intros ->. }
    rewrite evalInfix_scalar by (done || by destruct op). eexists. split; [reflexivity|].
    destruct op; try discriminate; injection En as <-; try exact Hs. by apply add_parity. }
  destruct (compare_opcode op) as [o'|] eqn:Ec.
  { assert (o' = o) as -> by (destruct op; simpl in *; congruence).
    rewrite evalInfix_scalar by (done || by destruct op). eexists. split; [reflexivity|].
    assert (Hs : agree_values (evalComparison op l r) (compare_value o l r)).
    { apply same_agree; [by apply comparison_parity|].
      intros v. unfold compare_value. destruct (NumericCompare l r); [by intros [= <-]|done]. }
    destruct op; try discriminate; injection Ec as <-; exact Hs. }
  destruct (bitwise_opcode op) as [o'|] eqn:Eb.
  { assert (o' = o) as -> by (destruct op; simpl in *; congruence).
    rewrite evalInfix_scalar by (done || by destruct op). eexists. split; [reflexivity|].
    pose proof (bitwise_parity op o l r Eb Hl Hr) as Hs.
    destruct op; try discriminate; injection Eb as <-; exact Hs. }
  destruct op; try discriminate; injection Ho as <-; cbn [evalInfix]; eexists; (split; [reflexivity|]).
  - rewrite equality_matches, (scalar_deepEqual l r _ instanceDeepEqual) by done. cbn [opcode2_value]. unfold equal_value.
    by destruct (deepEqual _ _ l r).
  - cbn [opcode2_value]. unfold evalBoolInfix, xor_value. destruct l; try done; destruct r; done.
Qed.

Definition is_small (v : Value) : bool := match v with VSmallInt _ => true | _ => false end.
Definition is_sign (op : PrefixOperator) : bool := match op with PrefixNot => false | _ => true end.
Lemma prefix_parity (op : PrefixOperator) (v : Value) :
  scalar v = true -> is_sign op && is_small v = false ->
  agree_values (evalPrefix op v) (opcode1_value (prefix_opcode op) v).
Proof.
  intros Hv Hgap. unfold evalPrefix.
  replace (evalPrefixOperatorMethod op v) with (None : option (result VMError Value)) by (by destruct v).
  destruct op; destruct v; try discriminate; cbn; try done;
    unfold bitnot_value; cbn [intToBigInt]; (split; [done|by rewrite ?settle_int_value]).
Qed.

(** ** Expressions *)

(** What the machine is meant to leave, against what the evaluator answers. *)
Definition agrees (u : E Value) (v : result VMError Value) : Prop :=
  match v with
  | Ok b => exists a, u = Some (Ok a) /\ scalar a = true /\ settle a = b
  | Err _ => exists e, u = Some (Err e)
  end.
Definition related (a b : Value) : Prop := scalar a = true /\ value_wf a = true /\ widen a = b.
Definition regular (u : E Value) : bool := match u with Some (Ok v) => value_wf v | _ => true end.

Lemma settle_wf (a : Value) : value_wf a = true -> settle a = widen a.
Proof. intros Ha. unfold settle, held. by rewrite ToValue_FromValue. Qed.
Lemma agrees_ok (u : E Value) (b : Value) :
  agrees u (Ok b) -> regular u = true -> exists a, u = Some (Ok a) /\ related a b.
Proof.
  intros (a&->&Ha&Hb) Hr. exists a. split; [done|]. split; [done|]. split; [done|]. by rewrite <- settle_wf.
Qed.
Lemma agree_settled (u v : result VMError Value) :
  agree_values u v -> agrees (Some u) (settle_result v).
Proof. destruct u, v; cbn; try done; [|by eauto]. intros [Hs Hv]. eauto. Qed.
Lemma settled_same (u v w : result VMError Value) :
  agree_values u v -> settle_result v = settle_result w -> agrees (Some u) (settle_result w).
Proof. intros Hu <-. by apply agree_settled. Qed.

Lemma infix_agrees (op : Operator) (l r l' r' : Value) (res : result VMError Value) :
  related l l' -> related r r' -> power_gap op l r = false -> infix_value op l' r' = Some res ->
  agrees (evalInfix op l r) res.
Proof.
  intros (Hl&_&<-) (Hr&_&<-) Hgap Hres. unfold infix_value, infix_meaning in Hres.
  destruct (product_trap op (widen l) (widen r)) eqn:Htrap; [discriminate|].
  assert (Hmul : forall o, plain_infix op = Some o ->
            ~ (o = OpMul /\ widen l = VInt (-1) /\ widen r = VInt min_int64)).
  { intros o Ho (->&El&Er). rewrite El, Er in Htrap. by destruct op. }
  destruct (decide (op = InfixNe)) as [->|Hne].
  - cbn [infix_opcodes] in Hres. injection Hres as <-.
    destruct (infix_parity InfixEq OpEqual l r eq_refl Hl Hr eq_refl) as (u&Hu&Ha).
    cbn [evalInfix] in *. cbn [opcode2_value] in *. unfold equal_value in *.
    rewrite equal_widen by done. destruct (deepEqual payloadEq instanceDeepEqual l r) as [b|e].
    + destruct (valuesEqual l r) as [b'|]; injection Hu as <-; cbn in Ha; [|done].
      destruct Ha as [_ Hb]. assert (b' = b) as -> by (destruct b', b; by inversion Hb).
      destruct b; cbn; eauto.
    + destruct (valuesEqual l r) as [b'|]; injection Hu as <-; cbn in Ha; [done|]. cbn. eauto.
  - destruct (plain_infix op) as [o|] eqn:Ho.
    + destruct (infix_parity op o l r Ho Hl Hr Hgap) as (u&->&Ha).
      assert (Hop : infix_opcodes op false false = [o] /\ o <> OpContains /\ o <> OpIdentical)
        by (destruct op; try discriminate; injection Ho as <-; done).
      destruct Hop as (Eop&Hn1&Hn2). rewrite Eop in Hres.
      assert (Hsome : Some (settle_result (opcode2_value o (widen l) (widen r))) = Some res)
        by (destruct o; congruence).
      injection Hsome as <-. apply settled_same with (v := opcode2_value o l r); [done|].
      apply opcode2_agree; [done..|]. by apply Hmul.
    + by destruct op.
Qed.

Lemma prefix_agrees (op : PrefixOperator) (v v' : Value) :
  related v v' -> is_sign op && is_small v = false ->
  agrees (Some (evalPrefix op v)) (settle_result (opcode1_value (prefix_opcode op) v')).
Proof.
  intros (Hv&_&<-) Hgap. apply settled_same with (v := opcode1_value (prefix_opcode op) v).
  - by apply prefix_parity.
  - by apply opcode1_agree.
Qed.

Variable Get : gostring -> option Value.

(** Where the back ends are known to differ: a power with a decimal operand, the
    sign or the complement of a small integer; and floats outside binary64, which
    a parameter of the model might return. *)
Fixpoint gap (e : Expression) (expected : option TypeRef) : bool :=
  negb (regular (evalExpression Get e expected)) ||
  match e with
  | PrefixExpression _ op r _ =>
      let operandExpected := if bool_decide (op = bs "-") && is_integer_literal e then expected else None in
      gap r operandExpected ||
      match operator_named prefix_operators op, evalExpression Get r operandExpected with
      | Some op, Some (Ok v) => is_sign op && is_small v
      | _, _ => false
      end
  | InfixExpression _ l op r _ _ =>
      match operator_named infix_operators op with
      | Some InfixCoalesce => gap l expected || gap r expected
      | Some op =>
          gap l None || gap r None ||
          match evalExpression Get l None, evalExpression Get r None with
          | Some (Ok a), Some (Ok b) => power_gap op a b
          | _, _ => false
          end
      | None => false
      end
  | TernaryExpression _ c a b _ => gap c None || gap a expected || gap b expected
  | _ => false
  end.

(** ** The theorem on expressions *)

Variable typeAliasLookup : option (gostring -> gostring).
Variable names : Compiler.
Variable env : gostring -> option Value.
Variable unboxed : Z -> bool.
Let meaning := eval ParseFloat typeAliasLookup names env unboxed.

(** Every variable of the scope has its value in the evaluator's environment. *)
Definition scopes_agree : Prop :=
  forall name b, env name = Some b -> exists a, Get name = Some a /\ related a b.
(** The expected type of the compiler, a name, and that of the evaluator. *)
Definition expects (ex : gostring) (t : option TypeRef) : Prop :=
  forall z, settle (int_literal z t) = int_literal_value typeAliasLookup names ex z.

Lemma expects_none : expects [] None.
Proof.
  intros z. unfold int_literal_value, expandRecordedTypeAlias.
  by destruct typeAliasLookup as [f|]; [destruct (decide _)|].
Qed.

Lemma prefix_named (s : gostring) (op : PrefixOperator) :
  operator_named prefix_operators s = Some op -> s = prefix_symbol op.
Proof.
  unfold operator_named, prefix_operators. cbn [find fst]. intros Hs.
  repeat (case_bool_decide; [subst s; by injection Hs as <-|]). discriminate.
Qed.
Lemma lower_integer_literal (e : Expression) (k : Compile.Expression) :
  lower e = Some k -> is_integer_literal e = IsIntegerLiteral k.
Proof.
  revert k. induction e; intros k He; cbn in He; try discriminate;
    repeat (case_match; try discriminate); simplify_eq/=; try done.
  - match goal with Hp : operator_named _ _ = Some _ |- _ => apply prefix_named in Hp as -> end.
    destruct e; cbn in *; repeat (case_match; try discriminate); simplify_eq/=; done.
  - by erewrite IHe2, IHe3.
Qed.

(** The operands of an infix expression whose evaluation has no gap. *)
Lemma agrees_error (u : E Value) (e : VMError) (k : Value -> E Value) :
  agrees u (Err e) -> agrees (ebind u k) (Err e).
Proof. intros [e' ->]. cbn. eauto. Qed.
Lemma agrees_bind (u : E Value) (m : option (result VMError Value)) (k : Value -> E Value)
    (h : Value -> option (result VMError Value)) (v : result VMError Value) :
  (forall w, m = Some w -> agrees u w) -> regular u = true ->
  (forall a b, u = Some (Ok a) -> related a b -> h b = Some v -> agrees (k a) v) ->
  on_value m h = Some v -> agrees (ebind u k) v.
Proof.
  intros Hu Hreg Hk Hm. destruct m as [[b|e]|]; cbn in Hm; [| |discriminate].
  - destruct (agrees_ok u b (Hu _ eq_refl) Hreg) as (a&Ea&Ha). rewrite Ea. cbn. by eapply Hk.
  - injection Hm as <-. by apply agrees_error, Hu.
Qed.
Lemma condition_agrees (a b : Value) (k : bool -> E Value) (h : bool -> option (result VMError Value))
    (v : result VMError Value) :
  related a b ->
  (forall t, h t = Some v -> agrees (k t) v) ->
  match b with VBool t => h t | _ => Some (Err (condition_error b)) end = Some v ->
  agrees (ebind (as_condition a) k) v.
Proof.
  intros (Ha&_&<-) Hk Hv. destruct a; try discriminate; cbn in *; try (by apply Hk); injection Hv as <-; cbn; eauto.
Qed.

#[local] Opaque evalExpression.
Lemma gap_regular (e : Expression) (t : option TypeRef) : gap e t = false -> regular (evalExpression Get e t) = true.
Proof.
  intros Hg. apply negb_false_iff. by destruct e; apply (proj1 (orb_false_iff _ _) Hg).
Qed.

#[local] Transparent evalExpression.

(** What the theorem says of one expression. *)
Definition matched (k : Compile.Expression) : Prop :=
  forall e ex t v, lower e = Some k -> gap e t = false -> expects ex t -> meaning ex k = Some v ->
  agrees (evalExpression Get e t) v.

Lemma settle_scalar (v : Value) :
  scalar v = true -> (forall f, v <> VFloat f) -> agrees (Some (Ok v)) (Ok (widen v)).
Proof. intros Hv Hf. exists v. split_and!; [done..|]. unfold settle. by rewrite held_plain. Qed.

Lemma lower_infix (e : Expression) (p : Pos) (op : Operator) (l r : Compile.Expression) :
  lower e = Some (Compile.InfixExpression p op l r) ->
  exists t e1 s e2 par, e = InfixExpression t e1 s e2 None par
    /\ operator_named infix_operators s = Some op /\ lower e1 = Some l /\ lower e2 = Some r.
Proof.
  intros He. destruct e as [ | | ? []| | | | | | | | | ? ? ? ? [] ?| | | | | | | | | | | | | | | | | | | ]; cbn [lower] in He;
    try discriminate; repeat (case_match; try discriminate); injection He as ? ? ? ?; subst; naive_solver.
Qed.
Lemma lower_prefix (e : Expression) (p : Pos) (op : PrefixOperator) (r : Compile.Expression) :
  lower e = Some (Compile.PrefixExpression p op r) ->
  exists t s e1 par, e = PrefixExpression t s e1 par
    /\ operator_named prefix_operators s = Some op /\ lower e1 = Some r.
Proof.
  intros He. destruct e as [ | | ? []| | | | | | | | | ? ? ? ? [] ?| | | | | | | | | | | | | | | | | | | ]; cbn [lower] in He;
    try discriminate; repeat (case_match; try discriminate); injection He as ? ? ?; subst; naive_solver.
Qed.
Lemma lower_ternary (e : Expression) (p : Pos) (c a b : Compile.Expression) :
  lower e = Some (Compile.TernaryExpression p c a b) ->
  exists t e1 e2 e3 par, e = TernaryExpression t e1 e2 e3 par
    /\ lower e1 = Some c /\ lower e2 = Some a /\ lower e3 = Some b.
Proof.
  intros He. destruct e as [ | | ? []| | | | | | | | | ? ? ? ? [] ?| | | | | | | | | | | | | | | | | | | ]; cbn [lower] in He;
    try discriminate; repeat (case_match; try discriminate); injection He as ? ? ? ?; subst; naive_solver.
Qed.

(** A condition and what follows it. *)
Lemma condition_matched (c : Compile.Expression) (e : Expression) (k : bool -> E Value)
    (h : bool -> option (result VMError Value)) (v : result VMError Value) :
  matched c -> lower e = Some c -> gap e None = false ->
  (forall b, h b = Some v -> agrees (k b) v) ->
  on_condition (meaning [] c) h = Some v ->
  agrees (ebind (evalExpression Get e None) (fun a => ebind (as_condition a) k)) v.
Proof.
  intros Hc He Hg Hk. apply agrees_bind; [|by apply gap_regular|].
  - intros w Hw. exact (Hc e [] None w He Hg expects_none Hw).
  - intros a b _ Hab Hb. by apply (condition_agrees a b k h).
Qed.
Lemma bool_agrees (b : bool) : agrees (ok (VBool b)) (Ok (VBool b)).
Proof. exists (VBool b). split_and!; [done..|]. by destruct b. Qed.

Lemma matched_and (p : Pos) (l r : Compile.Expression) :
  matched l -> matched r -> matched (Compile.InfixExpression p InfixAnd l r).
Proof.
  intros Hl Hr e ex t v He Hgap _ Hv. apply lower_infix in He as (tk&e1&s&e2&par&->&Hop&He1&He2).
  cbn [gap] in Hgap. rewrite Hop in Hgap. apply orb_false_iff in Hgap as [_ Hgap].
  apply orb_false_iff in Hgap as [[Hg1 Hg2]%orb_false_iff _].
  cbn [evalExpression]. rewrite Hop. eapply condition_matched; [exact Hl|done|done| |exact Hv].
  intros [] Hb; cbn [negb]; [|injection Hb as <-; apply bool_agrees].
  eapply condition_matched; [exact Hr|done|done| |exact Hb].
  intros b [= <-]. apply bool_agrees.
Qed.
Lemma matched_or (p : Pos) (l r : Compile.Expression) :
  matched l -> matched r -> matched (Compile.InfixExpression p InfixOr l r).
Proof.
  intros Hl Hr e ex t v He Hgap _ Hv. apply lower_infix in He as (tk&e1&s&e2&par&->&Hop&He1&He2).
  cbn [gap] in Hgap. rewrite Hop in Hgap. apply orb_false_iff in Hgap as [_ Hgap].
  apply orb_false_iff in Hgap as [[Hg1 Hg2]%orb_false_iff _].
  cbn [evalExpression]. rewrite Hop. eapply condition_matched; [exact Hl|done|done| |exact Hv].
  intros [] Hb; [injection Hb as <-; apply bool_agrees|].
  eapply condition_matched; [exact Hr|done|done| |exact Hb].
  intros b [= <-]. apply bool_agrees.
Qed.
Lemma related_agrees (a b : Value) : related a b -> agrees (ok a) (Ok b).
Proof. intros (Ha&Hw&<-). exists a. split_and!; [done..|]. by apply settle_wf. Qed.
Lemma matched_coalesce (p : Pos) (l r : Compile.Expression) :
  matched l -> matched r -> matched (Compile.InfixExpression p InfixCoalesce l r).
Proof.
  intros Hl Hr e ex t v He Hgap Hex Hv. apply lower_infix in He as (tk&e1&s&e2&par&->&Hop&He1&He2).
  cbn [gap] in Hgap. rewrite Hop in Hgap. apply orb_false_iff in Hgap as [_ [Hg1 Hg2]%orb_false_iff].
  cbn [evalExpression]. rewrite Hop. eapply agrees_bind; [|by apply gap_regular| |exact Hv].
  - intros w Hw. by apply (Hl e1 ex).
  - intros a b _ Hab Hb. pose proof Hab as (Ha&_&Hwid). subst b. rewrite IsNull_widen in Hb.
    destruct a; try discriminate; cbn [IsNull] in Hb;
      first [by apply (Hr e2 ex) | injection Hb as <-; by apply related_agrees].
Qed.

Lemma matched_operator (p : Pos) (op : Operator) (l r : Compile.Expression) :
  op <> InfixAnd -> op <> InfixOr -> op <> InfixCoalesce ->
  matched l -> matched r -> matched (Compile.InfixExpression p op l r).
Proof.
  intros H1 H2 H3 Hl Hr e ex t v He Hgap _ Hv. apply lower_infix in He as (tk&e1&s&e2&par&->&Hop&He1&He2).
  cbn [gap] in Hgap. rewrite Hop in Hgap. apply orb_false_iff in Hgap as [_ Hgap].
  assert (Hg : gap e1 None || gap e2 None ||
                match evalExpression Get e1 None, evalExpression Get e2 None with
                | Some (Ok a), Some (Ok b) => power_gap op a b
                | _, _ => false
                end = false) by by destruct op.
  clear Hgap. apply orb_false_iff in Hg as [[Hg1 Hg2]%orb_false_iff Hg3].
  assert (Ee : evalExpression Get (InfixExpression tk e1 s e2 None par) t =
               ebind (evalExpression Get e1 None) (fun a => ebind (evalExpression Get e2 None) (evalInfix op a))).
  { cbn [evalExpression]. rewrite Hop. by destruct op. }
  assert (Ev : on_value (meaning [] l) (fun a => on_value (meaning [] r) (infix_value op a)) = Some v)
    by (destruct op; first [exfalso; apply H1; reflexivity | exfalso; apply H2; reflexivity
                           | exfalso; apply H3; reflexivity | exact Hv]).
  rewrite Ee. eapply agrees_bind; [|by apply gap_regular| |exact Ev].
  - intros w Hw. exact (Hl e1 [] None w He1 Hg1 expects_none Hw).
  - intros a a' Ea Ha Hb. eapply agrees_bind; [|by apply gap_regular| |exact Hb].
    + intros w Hw. exact (Hr e2 [] None w He2 Hg2 expects_none Hw).
    + intros b b' Eb Hb' Hres. rewrite Ea, Eb in Hg3. by apply (infix_agrees op a b a' b').
Qed.

Lemma matched_prefix (p : Pos) (op : PrefixOperator) (r : Compile.Expression) :
  matched r -> matched (Compile.PrefixExpression p op r).
Proof.
  intros Hr e ex t v He Hgap Hex Hv. pose proof (lower_integer_literal _ _ He) as Hlit.
  apply lower_prefix in He as (tk&s&e1&par&->&Hop&He1).
  set (t' := if bool_decide (s = bs "-") && is_integer_literal (PrefixExpression tk s e1 par) then t else None).
  set (ex' := match op with
              | PrefixMinus => if IsIntegerLiteral (Compile.PrefixExpression p op r) then ex else []
              | _ => [] end).
  assert (Hex' : expects ex' t').
  { clear Hv Hgap. pose proof (prefix_named _ _ Hop) as ->. unfold ex', t'. rewrite Hlit.
    destruct op; cbn [prefix_symbol]; try (rewrite bool_decide_eq_false_2 by done; apply expects_none).
    rewrite bool_decide_eq_true_2 by done. cbn [andb].
    destruct (IsIntegerLiteral _); [done|apply expects_none]. }
  cbn [gap] in Hgap. fold t' in Hgap. apply orb_false_iff in Hgap as [_ [Hg1 Hg2]%orb_false_iff].
  rewrite Hop in Hg2. cbn [evalExpression]. fold t'. rewrite Hop.
  assert (Ev : on_value (meaning ex' r) (fun v => Some (settle_result (opcode1_value (prefix_opcode op) v))) = Some v)
    by exact Hv.
  eapply agrees_bind; [|by apply gap_regular| |exact Ev].
  - intros w Hw. by apply (Hr e1 ex').
  - intros a b Ea Hab [= <-]. rewrite Ea in Hg2. by apply prefix_agrees.
Qed.

Lemma matched_ternary (p : Pos) (c a b : Compile.Expression) :
  matched c -> matched a -> matched b -> matched (Compile.TernaryExpression p c a b).
Proof.
  intros Hc Ha Hb e ex t v He Hgap Hex Hv. apply lower_ternary in He as (tk&e1&e2&e3&par&->&He1&He2&He3).
  cbn [gap] in Hgap. apply orb_false_iff in Hgap as [_ [[Hg1 Hg2]%orb_false_iff Hg3]%orb_false_iff].
  unfold meaning in Hv. cbn [eval] in Hv. destruct (branch_trap names unboxed c); [discriminate|].
  cbn [evalExpression]. eapply condition_matched; [exact Hc|done|done| |exact Hv].
  intros [] Hk; [by apply (Ha e2 ex)|by apply (Hb e3 ex)].
Qed.
Lemma lower_leaf (e : Expression) (k : Compile.Expression) :
  lower e = Some k ->
  match k with
  | Compile.IntegerLiteral _ text => exists t, e = IntegerLiteral t text
  | Compile.DecimalLiteral _ text => exists t, e = DecimalLiteral t text
  | Compile.FloatLiteral _ text => exists t, e = FloatLiteral t text
  | Compile.StringLiteral _ _ s => exists t r q tr sg, e = StringLiteral t s r q tr sg
  | BoolLiteral _ b => exists t, e = Literal_ t (Some b)
  | NullLiteral _ => exists t, e = Literal_ t None
  | Compile.Identifier _ name => exists i, e = Ident i /\ ident_Value i = name
  | _ => True
  end.
Proof.
  intros He. destruct e as [ | | ? []| | | | | | | | | ? ? ? ? [] ?| | | | | | | | | | | | | | | | | | | ]; cbn [lower] in He;
    try discriminate; repeat (case_match; try discriminate); try done; simplify_eq/=; eauto 10.
Qed.

Lemma variables_matched (name : gostring) (b : Value) (i : Identifier) :
  scopes_agree -> env name = Some b -> ident_Value i = name ->
  agrees (evalExpression Get (Ident i) None) (Ok b).
Proof.
  intros Henv Hb <-. destruct (Henv _ _ Hb) as (a&Ea&Ha). cbn [evalExpression]. rewrite Ea. by apply related_agrees.
Qed.

Lemma leaf_agrees (a b : Value) : scalar a = true -> settle a = b -> agrees (ok a) (Ok b).
Proof. intros Ha Hb. by exists a. Qed.

Lemma all_matched (k : Compile.Expression) : scopes_agree -> matched k.
Proof.
  intros Henv. induction k as [p text|p text|p text|p tr s|p b|p|p name|p op l IHl r IHr|p op r IHr|p c IHc a IHa b IHb].
  8:{ destruct (decide (op = InfixAnd)) as [->|]; [by apply matched_and|].
      destruct (decide (op = InfixOr)) as [->|]; [by apply matched_or|].
      destruct (decide (op = InfixCoalesce)) as [->|]; [by apply matched_coalesce|]. by apply matched_operator. }
  8: by apply matched_prefix.
  8: by apply matched_ternary.
  all: intros e ex t v He Hgap Hex Hv; pose proof (lower_leaf _ _ He) as Hleaf; cbn beta iota in Hleaf.
  - destruct Hleaf as [tk ->]. unfold meaning in Hv. cbn [eval] in Hv. cbn [evalExpression].
    destruct (ParseIntLiteral text) as [z|]; [|discriminate]. injection Hv as <-.
    apply leaf_agrees; [|apply Hex]. clear. unfold int_literal. by repeat case_match.
  - destruct Hleaf as [tk ->]. unfold meaning in Hv. cbn [eval] in Hv. cbn [evalExpression].
    destruct (ParseDecimalLiteral RatSetString text) as [q|]; [|discriminate]. injection Hv as <-.
    exact (leaf_agrees (VDecimal q) _ eq_refl eq_refl).
  - destruct Hleaf as [tk ->]. unfold meaning in Hv. cbn [eval] in Hv. cbn [evalExpression].
    destruct (ParseFloat _) as [f|]; [|discriminate]. injection Hv as <-.
    exact (leaf_agrees (VFloat f) _ eq_refl eq_refl).
  - destruct Hleaf as (tk&rw&q&tp&sg&->). injection Hv as <-. exact (leaf_agrees (VString s) _ eq_refl eq_refl).
  - destruct Hleaf as [tk ->]. injection Hv as <-. exact (bool_agrees b).
  - destruct Hleaf as [tk ->]. injection Hv as <-. exact (leaf_agrees VNull _ eq_refl eq_refl).
  - destruct Hleaf as (i&->&<-). unfold meaning in Hv. cbn [eval] in Hv.
    destruct (env (ident_Value i)) as [b|] eqn:Eb; [|discriminate]. injection Hv as <-.
    exact (variables_matched (ident_Value i) b i Henv Eb eq_refl).
Qed.

(** C4: The back ends agree on scalar expressions. When the compiler's reference semantics (which compiled
    code computes on the machine) gives an expression a value or an error, the tree-walking evaluator, in
    an environment that holds the same variables, gives the parser's tree of that expression the same value
    (integers may be small in one and big in the other), or also fails; for every nesting of literals,
    variables, arithmetic, comparisons, equality, bit operations, short circuits, [??] and conditionals,
    with and without an expected type. The exceptions are named by [gap]. *)
Theorem evaluator_agrees (e : Expression) (k : Compile.Expression) (ex : gostring) (t : option TypeRef)
    (v : result VMError Value) :
  scopes_agree -> lower e = Some k -> gap e t = false -> expects ex t -> meaning ex k = Some v ->
  agrees (evalExpression Get e t) v.
Proof. intros Henv He Hgap Hex Hv. by apply (all_matched k Henv e ex). Qed.
End Parity.

(** ** Texts *)

Section Texts.
Context `{UnicodeLetters} `{Externals} `{Host}.

(** [EvalExpression] on the text of an expression and a semicolon. *)
Lemma EvalExpression_reads (Get : gostring -> option Value) (src : gostring) (t : Token) (ts : list Token) (semi eof : Token)
    (f : Type_ -> bool) (e : Expression) (n : nat) :
  last src = Some Byte.x3b -> tokens src = Some ((t :: ts ++ [semi]) ++ [eof]) ->
  Forall lexed ((t :: ts ++ [semi]) ++ [eof]) -> writes lowest f (t :: ts) e ->
  tok_Type semi = T_Semicolon -> tok_Type eof = T_EOF -> starts_plainly (t :: ts ++ [semi; eof]) = true ->
  plain_lt ((t :: ts ++ [semi]) ++ [eof]) -> (2 * length (t :: ts ++ [semi]) < n)%nat ->
  EvalExpression Get n src = evalExpression Get e None.
Proof.
  intros Hlast Hsrc Hl Hw Hsemi Heof Hstart Hp Hn.
  destruct (parses_program src (t :: ts ++ [semi]) eof [ExpressionStatement t e] n) as (p&HN&p'&E&He); [done..| |done|done|].
  - rewrite <- (app_nil_r (t :: ts ++ [semi])). apply (more_statements _ _ _ (ExpressionStatement t e) []); [|apply no_statements].
    by apply (an_expression t ts f).
  - unfold EvalExpression. rewrite Hlast, decide_True by done. unfold parse_source. by rewrite HN, E, He.
Qed.

(** C3: Both back ends, from the text. The text of a scalar expression and a semicolon is given to
    [EvalExpression] (lexer, parser, tree walk) and to the pipeline of the machine (lexer, parser, compiler,
    dispatch loop). Outside the named exceptions, what the expression means is what both compute: the
    evaluator answers a value that settles to it and the machine leaves it on top of its stack, or both end
    with an error. The exceptions: the back ends differ on a power with a decimal operand and on the sign or
    complement of a small integer ([gap]; [power_of_decimals], [sign_of_small_integers]); the compiler departs
    on operations that fold an octal-looking literal ([source_ok]) and on the trapped product and remainder
    tests ([trapped]); and the text must not be read as something else than an expression, by a [<] that
    looks like type arguments ([plain_lt]) or by a look-ahead of statements ([starts_plainly]). *)
Theorem texts_agree (Get : gostring -> option Value) (typeAliasLookup : option (gostring -> gostring))
    (unresolvedName : Pos -> gostring -> Compiler -> result gostring Compiler) (src : gostring) (t : Token)
    (ts : list Token) (semi eof : Token) (f : Type_ -> bool) (e : Expression) (k : Compile.Expression) (n : nat)
    (c c' : Compiler) (env : gostring -> option Value) (unboxed : Z -> bool) (vm : VM) (v : result VMError Value) :
  last src = Some Byte.x3b -> tokens src = Some ((t :: ts ++ [semi]) ++ [eof]) ->
  Forall lexed ((t :: ts ++ [semi]) ++ [eof]) -> writes lowest f (t :: ts) e ->
  tok_Type semi = T_Semicolon -> tok_Type eof = T_EOF -> starts_plainly (t :: ts ++ [semi; eof]) = true ->
  plain_lt ((t :: ts ++ [semi]) ++ [eof]) -> (2 * length (t :: ts ++ [semi]) < n)%nat ->
  lower e = Some k -> gap Get e None = false -> scopes_agree Get env ->
  Instructions c = [] -> source_ok ParseFloat c k = true ->
  compileExpressionWithExpected RatSetString ParseFloat typeAliasLookup unresolvedName k [] c = Ok c' ->
  vars_ok c env unboxed vm -> trapped ParseFloat typeAliasLookup c env unboxed [] k = false ->
  value_of ParseFloat typeAliasLookup c env unboxed [] k = Some v ->
  agrees (EvalExpression Get n src) v /\
  exists vm', run_source ParseFloat typeAliasLookup unresolvedName n src [] c vm
                = Some (vm', match v with Ok _ => Ok tt | Err err => Err err end) /\
    match v with Ok v => exists w, stack vm' = w :: stack vm /\ repr w v | Err _ => True end.
Proof.
  intros Hlast Hsrc Hl Hw Hsemi Heof Hstart Hp Hn Hk Hgap Hscopes Hc Hs Hcomp Hv Ht He.
  rewrite <- value_of_eval in He by exact Ht. split.
  - erewrite EvalExpression_reads; [|exact Hlast|exact Hsrc|exact Hl|exact Hw|exact Hsemi|exact Heof|exact Hstart|exact Hp|exact Hn].
    apply (all_matched Get typeAliasLookup c env unboxed k Hscopes e []); [done|done| |exact He].
    apply (expects_none typeAliasLookup c env unboxed).
  - replace ((t :: ts ++ [semi]) ++ [eof]) with ((t :: ts) ++ semi :: [eof]) in * by (cbn [app]; by rewrite <- app_assoc).
    erewrite run_source_reads; [|exact Hsrc|exact Hl|exact Hw|by rewrite Hsemi|exact Hp|cbn [length] in *; rewrite length_app in Hn; lia|exact Hk|exact Hcomp].
    destruct (correct_runs env unboxed c c' vm _ v (expression_correct _ _ _ _ _ _ _ _ _ Hs Hcomp) Hc Hv He) as (vm'&E&Hres).
    exists vm'. split; [exact E|]. destruct v; [|done]. destruct Hres as (w&?&?&_). by exists w.
Qed.
End Texts.

(** ** The gaps *)

Section Gaps.
Context `{Externals} `{Host}.

(** The sign and the complement of a small integer (a loop variable, a length): the machine computes them,
    the evaluator answers that the operand is not an int. *)
Lemma sign_of_small_integers (i : Z) :
  is_int64 i = true ->
  (exists v w, opcode1_value OpNegate (VSmallInt i) = Ok v /\ settle v = VInt (- i) /\
               opcode1_value OpBitNot (VSmallInt i) = Ok w /\ settle w = VInt (Z.lnot i)) /\
  evalPrefix PrefixMinus (VSmallInt i) = Err (TypeError (bs "- expects numeric value, got int")) /\
  evalPrefix PrefixBitNot (VSmallInt i) = Err (TypeError (bs "~ expects int, got int")).
Proof.
  intros Hi. split; [|split; reflexivity]. cbn [opcode1_value]. unfold negate_value, bitnot_value, intToBigInt.
  eexists _, _. split; [reflexivity|]. split; [|by rewrite settle_int_value].
  destruct (Z.eqb_spec i min_int64) as [->|Hm]; [reflexivity|].
  assert (Hn : is_int64 (- i) = true) by (rewrite is_int64_iff in *; unfold min_int64 in Hm; lia).
  rewrite wrap64_id by done. rewrite <- (settle_int_value (- i)). unfold int_value. by rewrite Hn.
Qed.
(** A decimal raised to a power: the machine has it, the evaluator does not. *)
Lemma power_of_decimals (q r : Q) :
  evalInfix InfixPow (VDecimal q) (VDecimal r) = Some (Err (Plain (bs "unsupported decimal operator " ++ quoted (bs "**")))) /\
  numeric_value OpPow (VDecimal (3 # 2)) (VInt 2) = Ok (VDecimal (9 # 4)).
Proof. split; reflexivity. Qed.
End Gaps.

(** ** A concrete expression *)

#[local] Existing Instance plain_externals.
#[local] Instance plain_host : Host := {|
  ParseFloat := fun _ => None; Quote := fun s => s; ToLower := fun s => s; FormatPtr := FormatInt;
  GoType := fun s => s; frozen := fun _ => None; applyMethod := fun _ _ _ => None;
  fieldsEqual := fun _ _ => Ok false |}.
Definition small_seven (name : gostring) : option Value :=
  if decide (name = bs "x") then Some (VSmallInt 7)
  else if decide (name = bs "s") then Some (VString (bs "hi")) else None.
Lemma small_seven_agrees : scopes_agree small_seven sample_env.
Proof.
  intros name b Hb. unfold sample_env in Hb. unfold small_seven.
  repeat case_decide; simplify_eq/=; eexists; (split; [reflexivity|]); repeat split; done.
Qed.

Lemma evaluator_agrees_witness :
  exists k, lower evaluated_tree = Some k /\
            agrees (@evalExpression plain_externals plain_host small_seven evaluated_tree None) (Ok (VInt 13)).
Proof.
  eexists. split; [reflexivity|].
  eapply (@evaluator_agrees plain_externals plain_host small_seven None sample_compiler sample_env (fun _ => true)
            evaluated_tree _ [] None (Ok (VInt 13))).
  - exact small_seven_agrees.
  - vm_compute. reflexivity.
  - vm_compute. reflexivity.
  - exact (expects_none None sample_compiler sample_env (fun _ => true)).
  - vm_compute. reflexivity.
Defined.

Lemma keys_match_witness :
  let v := VList [VSmallInt 3; VDict [(bs "si", (VString (bs "i"), VNull))]] in
  addressed v = false /\ @dictKey plain_externals plain_host 1 v = bs "L[i3,D{si=n}]" /\
  @dictKey plain_externals plain_host 1 v = DictKey FormatFloat_g Quote FormatPtr GoType frozen 2 v.
Proof. split; [reflexivity|]. split; [reflexivity|]. by apply (@keys_match plain_externals plain_host). Defined.

Lemma texts_agree_witness (vm := sample_vm (SVal (VMValueFromValue (VSmallInt 7)))) :
  agrees (@EvalExpression _ plain_externals plain_host small_seven 40 evaluated_source) (Ok (VInt 13)) /\
  exists vm', @run_source _ plain_externals (fun _ => None) None (fun _ _ c => Ok c) 40 evaluated_source []
                sample_compiler vm = Some (vm', Ok tt) /\
    exists w, stack vm' = w :: [VMValueNull] /\ repr w (VInt 13).
Proof.
  destruct evaluated_written as [f Hw].
  eapply (@texts_agree _ plain_externals plain_host small_seven None (fun _ _ c => Ok c) evaluated_source
            (nth 0 evaluated_tokens zero_token) (firstn 12 (skipn 1 evaluated_tokens))
            (nth 13 evaluated_tokens zero_token) (nth 14 evaluated_tokens zero_token)
            f evaluated_tree _ 40 sample_compiler evaluated_code sample_env (fun _ => true) vm (Ok (VInt 13))).
  - reflexivity.
  - vm_compute. reflexivity.
  - repeat (constructor; [discriminate|]). constructor.
  - exact Hw.
  - reflexivity.
  - reflexivity.
  - vm_compute. reflexivity.
  - apply plain_ltb_spec. vm_compute. reflexivity.
  - cbn. lia.
  - vm_compute. reflexivity.
  - vm_compute. reflexivity.
  - exact small_seven_agrees.
  - reflexivity.
  - vm_compute. reflexivity.
  - vm_compute. reflexivity.
  - apply sample_vars.
  - vm_compute. reflexivity.
  - vm_compute. reflexivity.
Defined.
