(* ===== verification/Corners.v ===== *)
(** * Corners: what the parser does with some unusual texts

    Texts that the documentation allows, or that should be rejected, and that
    the parser reads in another way; each is evaluated. *)

From S2P Require Import Prelude GoText Token Lexer Ast Parsing TypeParser ExprParser StmtParser.

(** What the parser answers to the first expression of a source. *)
Definition outcome (n : nat) (src : gostring) : option (Outcome Expression) :=
  option_map (parseExpression n lowest) (New src).
(** The expression with the errors. *)
Definition read_expression (n : nat) (src : gostring) : option (Expression * list gostring) :=
  match outcome n src with Some (Done e p) => Some (e, errors p) | _ => None end.
(** The lexer accepts a source. *)
Definition lexes (src : gostring) : bool :=
  match tokens src with Some ts => forallb (fun t => negb (tok_is t T_Illegal)) ts | None => false end.
(** The number of statements of a source, and the errors. *)
Definition read_program (n : nat) (src : gostring) : option (nat * list gostring) :=
  option_map (fun r => (length (Statements (fst r)), snd r)) (parse_source n src).
Definition in_quotes (s : gostring) : gostring := [Byte.x22] ++ s ++ [Byte.x22].

(** The escape [\$] keeps [${] out of an interpolation for the lexer but not for
    [parseInterpolatedString]: an escaped brace that never closes makes it slice
    past the end of the text. *)
Lemma escaped_dollar_panics :
  lexes (in_quotes (bs "${a} \${b")) = true /\ outcome 60 (in_quotes (bs "${a} \${b")) = Some Panicked.
Proof. split; vm_compute; reflexivity. Qed.

(** Once a part is interpolated, an escaped one is too. *)
Lemma escaped_dollar_interpolates :
  exists t a s b, read_expression 60 (in_quotes (bs "${a} \${b}")) = Some (InterpolatedString t [a; s; Ident b], [])
    /\ ident_Value b = bs "b".
Proof. do 4 eexists. split; [vm_compute; reflexivity|reflexivity]. Qed.

(** A generic call to the right of an operator that binds tighter than [<] is
    read as two comparisons. *)
Lemma generic_call_after_operator :
  exists gt lt plus one f int_ x p,
    read_expression 60 (bs "1 + f<int>(x);") =
      Some (InfixExpression gt
              (InfixExpression lt (InfixExpression plus one (bs "+") (Ident f) None false) (bs "<") (Ident int_) None false)
              (bs ">") x None p, [])
    /\ ident_Value f = bs "f" /\ ident_Value int_ = bs "int".
Proof. do 8 eexists. split; [vm_compute; reflexivity|split; reflexivity]. Qed.

(** A format specification after an optional selector is dropped. *)
Lemma spec_after_optional_dropped :
  exists t a, read_expression 60 (in_quotes (bs "${a?.b:>10}")) = Some (InterpolatedString t [a], [])
    /\ forall t v s, a <> FormattedInterpolation t v s.
Proof. do 2 eexists. split; [vm_compute; reflexivity|discriminate]. Qed.

(** Nothing inside an interpolation is an error. *)
Lemma interpolation_errors_ignored :
  (exists e, read_expression 60 (in_quotes (bs "${a + }")) = Some (e, [])) /\
  (exists e, read_expression 60 (in_quotes (bs "${a b}")) = Some (e, [])) /\
  (exists t, read_expression 60 (in_quotes (bs "${}")) = Some (InterpolatedString t [NilExpression], [])).
Proof. split_and!; eexists; vm_compute; reflexivity. Qed.

(** An element without a colon between a spread and an entry becomes an entry
    without a value. *)
Lemma entry_without_value :
  exists t a b c d e, read_expression 60 (bs "{...a, b, c: 1}") =
    Some (DictLiteral t [mkEntry NilExpression a true; mkEntry (Ident b) NilExpression false; mkEntry c d false] e, []).
Proof. do 6 eexists. vm_compute. reflexivity. Qed.

(** A loop without a condition is rejected. *)
Lemma for_without_condition :
  exists n es, read_program 60 (bs "for (let i = 0;; i++) { a; }") = Some (n, es) /\ es <> [].
Proof. do 2 eexists. split; [vm_compute; reflexivity|discriminate]. Qed.

(** The look-ahead for a declaration crosses the end of the statement. *)
Lemma comparison_read_as_declaration :
  (exists n es, read_program 60 (bs "a < b; c > d;") = Some (n, es) /\ es <> []) /\
  read_program 60 (bs "a < b;") = Some (1%nat, []) /\ read_program 60 (bs "c > d;") = Some (1%nat, []).
Proof.
  split_and!; [do 2 eexists; split; [vm_compute; reflexivity|discriminate]|vm_compute; reflexivity..].
Qed.
